(* ===== verification/_CoqProject ===== *)
-Q . S2P
Prelude.v
Types.v
Errors.v
Integer.v
Headers.v
Rounding.v
Str.v
Float.v
Timestamp.v
Object.v
Strconv.v
RingBuf.v
Iter.v
Value.v
Dynamic.v
Log.v
Fallback.v
Pool.v
Instance.v
Buffers.v
Gzip.v
Transport.v
Safety.v
Bounded.v
Rewind.v
Lifetime.v
Pooled.v
Ascii.v
Sha512.v
Handshake.v
Server.v
Sessions.v
Listen.v
ExampleServer.v
Sockets.v
Digests.v
Writer.v
Client.v
Sent.v
EndToEnd.v
Delivery.v
Outage.v
