(* ===== verification/Prelude.v ===== *)
(** * fluentlog: a verification development

    fluentlog is an asynchronous logger that speaks the Fluent Forward protocol, the
    MessagePack library under it, a disk buffer for entries that could not be
    sent, and the other end of the protocol: the handshake and the reader of a
    server.  This library models these parts from their Go sources and proves what
    makes them correct.

    ** The program

    A log call (logger.go, slog.go, instance.go) encodes an entry, the MessagePack
    array [tag, time, record], and puts it in a bounded queue.  One worker
    (instance.go) takes entries from the queue and writes them to the client; if
    a write fails and the fallback is configured, it writes this entry and the
    following ones to a disk buffer (fallback/), and sends the buffer as one
    compressed batch later.  The client (forward/client.go) dials a server when it
    has no connection, and authenticates.  A server (forward/server.go) authenticates
    its clients (forward/phase_handshake.go), each in a goroutine of its own, then its
    transport phase (forward/transport/) reads messages in four modes and hands out
    their entries; an AsciiFormatter (forward/ascii_formatter.go) prints them.  Buffers,
    loggers and iterators come from pools and go back to them.

    ** The files

    - Prelude (this file): Go's panics as the monad [go], fixed-width integers,
      slices with capacity, big-endian bytes, the tactics and hint bases.
    - Types: pkg/msgpack/types, the head-byte tables filled by [init].
    - Errors: the error values; [errors.Is] and identity with io.EOF.
    - Integer, Headers, Str, Float, Timestamp: integer.go and utils.go; array.go,
      map.go, boolean.go and nil.go; string.go and binary.go; float.go;
      timestamp.go.  Append functions and readers at an offset.
    - Rounding: [roundPow] of utils.go.
    - Object: MessagePack objects.  [encode] is what the append functions write for
      an object, [encodes o bs] the relation "[bs] is an encoding of [o]", with
      headers of any width, which all readers of streams are proved against; for
      scalars it is the format's layouts, written out without the code's decoders.
    - Strconv: the decimal and hexadecimal texts of strconv and encoding/hex.
    - RingBuf: the interface of the ring-buffered reader ([RingOps], [RingLaws])
      with an instance over lists.
    - Iter: iter.go and iter_text_appender.go, the token iterator.
    - Value: value.go, raw values and their iterator functions.
    - Dynamic: any.go, append_key_value.go, append_args.go, append_json.go.
    - Log: severity.go, printf.go, append_stack_trace.go, logger.go, slog.go, and
      [log] and [metrics] of instance.go: the bytes of an entry.
    - Fallback: fallback/, the buffers over a file system, in a monad of state and
      error; the class [NoLoss] is the contract that both buffers implement.
    - Pool: objects as handles into a store with a free list, the sync.Pool; buffer.Pool,
      of another module, is the class [BufferPool].
    - Instance: instance.go, the queue, the worker and Close, as a step relation
      over the functions that the worker calls, with an executable scheduler; the
      client is the class [ClientOps] with the ledger [ClientLedger].  [opt.Fallback]
      may be nil, and panics then where it is used.
    - Buffers: instance.go, logger.go and slog.go over shared buffers and loggers: what
      Instance and Log have as values is behind handles here.  [spec_move] is the
      specification of one move over values, given the handle that the move handed out.
    - Gzip: internal/gzip, the reader of gzip members and its pool, over a DEFLATE
      decompressor ([GzipOps], [GzipLaws]) that keeps a handle to its source.
    - Transport: forward/transport/, the state machine over the four modes, with the
      pool that the iterators of packed messages come from ([IterPool]), over nested
      readers ([NestedOps], [NestedLaws]); the readers over lists that satisfy the laws
      use the reader of Gzip.
    - Safety: the transport phase on any bytes, from any reader; Bounded: on finite data.
    - Rewind: [Rewind] of the modes and of the session ([RewindOps], [RewindLaws]);
      Lifetime: which bytes the buffers hold while an entry is read ([Flushing]).
    - Pooled: pkg/msgpack/iter_pool.go over a store that sessions share, and an
      equivalence of iterators and sessions, up to what a used iterator has left over,
      that the transport phase respects.
    - Ascii: forward/ascii_formatter.go.
    - Sha512, Handshake: forward/auth.go, sha512_hex.go, phase_handshake.go and
      [authenticate] of server_session.go, over a connection ([ConnOps],
      [ConnLaws]).
    - Server: the rest of server_session.go and what server.go does with a
      connection.
    - Sessions: the sessions of a server over its pools; Listen: the loop of server.go
      and its goroutines; ExampleServer: example/server/main.go, an application of it;
      Sockets: what [Listen] binds, and server_heartbeat.go.
    - Digests: the pool of hash states of sha512_hex.go.
    - Writer: pkg/msgpack/writer.go and buffer.go, over a network in which connections
      are handles ([NetOps], [NetLaws]).
    - Client: forward/client.go and the client's side of phase_handshake.go.
    - Sent: the worker of Instance over this client.
    - EndToEnd: the client and the server together.
    - Delivery: the logger and the formatter together.
    - Outage: the logger, the fallback, the client and the server together.

    A slice is a [Slice], its elements and those between its length and its
    capacity, where reslicing or appending in place could see them; a buffer that a
    function owns is the list of its bytes.  Bytes and integers are [Z]; a
    conversion to a narrower type is [uwrap] or [swrap].  A function that can panic
    returns in [go]; one that changes an object returns the object after it.

    ** The theorems

    - Codec (Types, Integer, Headers, Str, Float, Timestamp): the tables agree with
      the format's ranges for every byte; each append function and its reader
      round-trip, to the last bit and offset, with the exact exceptions; integers
      are written as short as possible; readers never panic, with exact exceptions.
    - Streams (Iter, Value): [Next] and [Any] decode, [Skip] steps over and
      [AppendText] renders exactly one object of any encoding; [Skip] terminates on
      any bytes.
    - Entries (Dynamic, Log): what a call of a logger or of slog writes is an
      encoding of an entry with the call's fields, in order; what happens with 256
      fields or more, with missing arguments, and with values that have no encoding.
    - Buffering (Fallback, Instance): no chunk is lost by the buffers; the queue is
      first in, first out and bounded; with the fallback every entry the worker took
      is acknowledged or still on disk, whatever the client returns; the worker
      never panics; Close drains the queue; which entries can nevertheless be lost
      or left behind.
    - The other end (Transport, Safety, Gzip, Ascii, Handshake, Server): [Next] hands
      out exactly the entries of a stream of messages in any mix of modes and
      acknowledges their chunks; it never panics, whatever the network sends, with one
      exact exception, and terminates on finite data; [Rewind] repeats an entry, except
      in one mode; the buffer holds what an entry points to for as long as a handler
      reads it, if the iterators flush manually (those of the pool need not:
      [pooled_automatic]), with one exact exception; the gzip reader yields the data of all members; a handshake
      with the right credentials succeeds, and the server's decision is the digests'
      and nothing else; the handler runs only for accepted clients.
    - Sharing (Buffers, Pooled, Sessions, Listen): in every interleaving, what is shared
      through the pools behaves like values: an instance does, move by move, what a
      specification over values does, nothing can be seen of a pooled iterator's past
      but its ring, and each connection of a server is handled as if it was alone; what
      happens when something is given back twice, or in the middle of a message.
    - The client (Writer, Client): no operation panics; its writer stays at its
      connection unless the AuthClient fails; what happens then, and after a refused
      handshake.
    - Whole paths: every entry the worker took has been written to a connection or is on
      disk (Sent); log calls come out of the formatter as lines (Delivery); what a
      client sends after its handshake the server hands out (EndToEnd); entries that
      were stored during an outage reach the server in one batch, over a live connection
      or a new one (Outage; for a flush whose first batch fails, see [flush_strands] of
      Instance).

    Theorems with hypotheses have a witness, [<name>_witness], which applies them to
    concrete data.

    ** Fuel

    Recursion that is not structural is fuelled, and running out is the result
    [Panic OutOfFuel], which no theorem allows but [Next_safe]: a peer that never stops
    sending can make [Next] read on for ever.  On finite data it cannot
    ([Next_terminates]).  [Skip], [AppendText] and [Next] of
    the transport phase need as much as the bytes left (for a compressed message,
    the decompressed ones too) plus two; [ReadString] and [ReadBinary], which call
    each other, need two; [countFmtArgs] runs on the length of the format; reading a
    gzip source needs its length and that of the data, the copy loop of
    [WriteBinaryReader] runs on the bytes it copies.

    ** What is not modelled

    - Libraries outside the repository are parameters with laws: the ring reader,
      limited readers, DEFLATE and the gzip writer, connections, hexid, JSON, the file
      system's failures other than a missing file, and the standard library's
      formatting of times and values.  SHA-512 is written out.
    - Strings that alias a reader's buffer are their contents at the time they are
      read.  That the buffer keeps these contents while an entry is read is Lifetime's;
      that a handler does not use them after the next call of [Next] is not checked.
    - The pool of the iterators of packed messages is a field of each session, with any
      iterators in it and any choice of what it gives out (Transport); that sessions
      share it, and the pool of the gzip readers, is not modelled.  The pools of a
      server's own iterators and buffers are shared (Sessions), and a connection takes
      from them when it is accepted, not when its goroutine starts.
    - Contexts, the deadlines of the client, socket options, TLS, benchmarks and the
      other examples.
    - Messages to the standard logger. *)

From stdpp Require Export base list numbers strings.
From Stdlib Require Export ZArith Lia.

#[global] Open Scope Z_scope.

(** ** The panic monad

    A Go function either returns or panics.  [OutOfFuel] is not a Go panic: it
    marks that a fuelled definition of the model stopped early, and the
    theorems about such definitions show that it is not reached. *)

Inductive panic :=
  | IndexOutOfRange
  | SliceOutOfRange
  | NilPointer
  | NotImplemented
  | EmptyBuffer
  | OutOfFuel.

Inductive go (A : Type) :=
  | Ret (a : A)
  | Panic (p : panic).
Arguments Ret {A} a.
Arguments Panic {A} p.

#[export] Instance panic_eq_dec : EqDecision panic.
Proof. solve_decision. Defined.

#[export] Instance go_ret : MRet go := λ A a, Ret a.
#[export] Instance go_bind : MBind go := λ A B f m,
  match m with Ret a => f a | Panic p => Panic p end.

(** [returns m]: the computation does not panic. *)
Definition returns {A} (m : go A) : Prop := ∃ a, m = Ret a.

(** ** Fixed-width integers

    A Go integer is a [Z]; the conversions below are Go's [T(x)].  [Int] and
    [Uint] are the 64-bit [int] and [uint] of the supported platforms. *)

Definition uwrap (w z : Z) : Z := z mod 2 ^ w.
Definition swrap (w z : Z) : Z := (z + 2 ^ (w - 1)) mod 2 ^ w - 2 ^ (w - 1).

Inductive numty :=
  | TInt | TInt8 | TInt16 | TInt32 | TInt64
  | TUint | TUint8 | TUint16 | TUint32 | TUint64.

#[export] Instance numty_eq_dec : EqDecision numty.
Proof. solve_decision. Defined.

Definition bits_of (T : numty) : Z :=
  match T with
  | TInt | TInt64 | TUint | TUint64 => 64
  | TInt32 | TUint32 => 32
  | TInt16 | TUint16 => 16
  | TInt8 | TUint8 => 8
  end.

Definition is_signed (T : numty) : bool :=
  match T with TInt | TInt8 | TInt16 | TInt32 | TInt64 => true | _ => false end.

(** [conv T z] is the Go conversion [T(z)]. *)
Definition conv (T : numty) (z : Z) : Z :=
  if is_signed T then swrap (bits_of T) z else uwrap (bits_of T) z.

(** The values of the type [T]. *)
Definition in_type (T : numty) (z : Z) : Prop :=
  if is_signed T then - 2 ^ (bits_of T - 1) ≤ z < 2 ^ (bits_of T - 1)
  else 0 ≤ z < 2 ^ bits_of T.

Abbreviation u8 := (uwrap 8).
Abbreviation u32 := (uwrap 32).
Abbreviation u64 := (uwrap 64).
Abbreviation i32 := (swrap 32).
Abbreviation i64 := (swrap 64).

Lemma uwrap_range w z : 0 ≤ w → 0 ≤ uwrap w z < 2 ^ w.
Proof. intros. apply Z.mod_pos_bound. lia. Qed.

Lemma uwrap_small w z : 0 ≤ z < 2 ^ w → uwrap w z = z.
Proof. apply Z.mod_small. Qed.

Lemma swrap_range w z : 0 < w → - 2 ^ (w - 1) ≤ swrap w z < 2 ^ (w - 1).
Proof.
  intros Hw. unfold swrap.
  assert (2 ^ w = 2 * 2 ^ (w - 1)) as E by (rewrite <- Z.pow_succ_r by lia; f_equal; lia).
  pose proof (Z.mod_pos_bound (z + 2 ^ (w - 1)) (2 ^ w)). lia.
Qed.

Lemma swrap_small w z : 0 < w → - 2 ^ (w - 1) ≤ z < 2 ^ (w - 1) → swrap w z = z.
Proof.
  intros Hw Hz. unfold swrap.
  assert (2 ^ w = 2 * 2 ^ (w - 1)) as E by (rewrite <- Z.pow_succ_r by lia; f_equal; lia).
  rewrite Z.mod_small by lia. lia.
Qed.

Lemma swrap_uwrap w z : 0 ≤ w → swrap w (uwrap w z) = swrap w z.
Proof. intros. unfold swrap, uwrap. by rewrite Zplus_mod_idemp_l. Qed.

(** A w-bit pattern with its top bit set reads as a negative number. *)
Lemma swrap_high w z : 0 < w → 2 ^ (w - 1) ≤ z < 2 ^ w → swrap w z = z - 2 ^ w.
Proof.
  intros Hw Hz. unfold swrap.
  assert (2 ^ w = 2 * 2 ^ (w - 1)) as E by (rewrite <- Z.pow_succ_r by lia; f_equal; lia).
  replace (z + 2 ^ (w - 1)) with (z - 2 ^ (w - 1) + 1 * 2 ^ w) by lia.
  rewrite Z.mod_add by lia. rewrite Z.mod_small by lia. lia.
Qed.

Lemma conv_range T z : in_type T (conv T z).
Proof.
  unfold in_type, conv. destruct T; cbn [is_signed bits_of];
    first [apply swrap_range; lia | apply uwrap_range; lia].
Qed.

Lemma conv_id T z : in_type T z → conv T z = z.
Proof.
  unfold in_type, conv. intros H.
  destruct T; cbn [is_signed bits_of] in *;
    first [apply swrap_small; lia | apply uwrap_small; lia].
Qed.

(** ** Bytes and slices

    A byte is a [Z] in [0, 256).  A Go string and the contents of a byte slice
    are lists of bytes.  A slice that is read from also carries the bytes of its
    backing array between [len] and [cap], since Go lets a slice expression
    reach up to the capacity. *)

Definition lenZ {A} (l : list A) : Z := Z.of_nat (length l).

Definition is_byte (b : Z) : Prop := 0 ≤ b < 256.
Abbreviation is_bytes := (Forall is_byte).

Definition str (s : string) : list Z :=
  (λ a, Z.of_N (Ascii.N_of_ascii a)) <$> String.list_ascii_of_string s.

Record Slice := mkSlice { live : list Z; spare : list Z }.

Definition slen (s : Slice) : Z := lenZ (live s).
Definition scap (s : Slice) : Z := lenZ (live s) + lenZ (spare s).

(** [s[i]] *)
Definition index (s : Slice) (i : Z) : go Z :=
  if (0 <=? i) && (i <? slen s) then Ret (default 0 (live s !! Z.to_nat i))
  else Panic IndexOutOfRange.

(** [s[lo:hi]] *)
Definition reslice (s : Slice) (lo hi : Z) : go Slice :=
  if (0 <=? lo) && (lo <=? hi) && (hi <=? scap s) then
    Ret (mkSlice (take (Z.to_nat (hi - lo)) (drop (Z.to_nat lo) (live s ++ spare s)))
                 (drop (Z.to_nat hi) (live s ++ spare s)))
  else Panic SliceOutOfRange.

(** [s[lo:]] *)
Definition reslice_from (s : Slice) (lo : Z) : go Slice := reslice s lo (slen s).

(** A slice without spare capacity. *)
Definition sl (l : list Z) : Slice := mkSlice l [].

(** [dst[i] = b] on the slice that an append function owns. *)
Definition set_index (dst : list Z) (i : Z) (b : Z) : go (list Z) :=
  if (0 <=? i) && (i <? lenZ dst) then Ret (<[Z.to_nat i := b]> dst)
  else Panic IndexOutOfRange.

(** ** Big-endian numbers

    [be_enc n v] is [byte(v>>(8*(n-1))), ..., byte(v>>8), byte(v)], which is how
    the code writes a number; [be_dec] is [binary.BigEndian.UintN] on a slice of
    exactly that many bytes. *)

Fixpoint be_enc (n : nat) (v : Z) : list Z :=
  match n with
  | O => []
  | S m => u8 (Z.shiftr v (8 * Z.of_nat m)) :: be_enc m v
  end.

Definition be_dec (l : list Z) : Z := fold_left (λ acc b, acc * 256 + b) l 0.

(** [binary.BigEndian.UintN(b)] reads the first [n] bytes of [b] and panics on
    a shorter slice. *)
Definition BigEndian_Uint (n : nat) (b : Slice) : go Z :=
  if Z.of_nat n <=? slen b then Ret (be_dec (take n (live b))) else Panic IndexOutOfRange.

(** ** Lemmas on lengths and lists *)

Create Rewrite HintDb golen.

Lemma lenZ_app {A} (l k : list A) : lenZ (l ++ k) = lenZ l + lenZ k.
Proof. unfold lenZ. rewrite length_app. lia. Qed.

Lemma lenZ_cons {A} (x : A) l : lenZ (x :: l) = 1 + lenZ l.
Proof. unfold lenZ. simpl length. lia. Qed.

Lemma lenZ_nil {A} : lenZ (@nil A) = 0.
Proof. done. Qed.

Lemma lenZ_nonneg {A} (l : list A) : 0 ≤ lenZ l.
Proof. unfold lenZ. lia. Qed.

Lemma length_be_enc n v : length (be_enc n v) = n.
Proof. induction n; simpl; congruence. Qed.

Lemma lenZ_be_enc n v : lenZ (be_enc n v) = Z.of_nat n.
Proof. unfold lenZ. by rewrite length_be_enc. Qed.

#[export] Hint Rewrite @lenZ_app @lenZ_cons @lenZ_nil @lenZ_be_enc : golen.

(** Arithmetic on lengths: normalise [lenZ], then [lia]. *)
Ltac len_lia :=
  unfold slen, scap in *; cbn [live spare] in *;
  autorewrite with golen in *;
  change (Z.of_nat 1) with 1 in *; change (Z.of_nat 2) with 2 in *;
  change (Z.of_nat 4) with 4 in *; change (Z.of_nat 8) with 8 in *;
  repeat match goal with
         | |- context [lenZ ?l] =>
             lazymatch goal with
             | _ : 0 ≤ lenZ l |- _ => fail
             | _ => pose proof (lenZ_nonneg l)
             end
         | _ : context [lenZ ?l] |- _ =>
             lazymatch goal with
             | _ : 0 ≤ lenZ l |- _ => fail
             | _ => pose proof (lenZ_nonneg l)
             end
         end;
  lia.

Lemma take_app_lenZ {A} (l k : list A) n : n = lenZ l → take (Z.to_nat n) (l ++ k) = l.
Proof. intros ->. unfold lenZ. rewrite Nat2Z.id. apply take_app_length. Qed.

Lemma drop_app_lenZ {A} (l k : list A) n : n = lenZ l → drop (Z.to_nat n) (l ++ k) = k.
Proof. intros ->. unfold lenZ. rewrite Nat2Z.id. apply drop_app_length. Qed.

Lemma cons_eq_inv {A} (x y : A) l k : x :: l = y :: k → y = x ∧ k = l.
Proof. by intros [= -> ->]. Qed.

Lemma Forall_suffix {A} (P : A → Prop) (l k : list A) : l `suffix_of` k → Forall P k → Forall P l.
Proof. intros [p ->] H. by apply Forall_app in H as [_ H]. Qed.

(** ** Lemmas on big-endian numbers *)

Lemma be_dec_fold l acc :
  fold_left (λ a b, a * 256 + b) l acc = acc * 256 ^ lenZ l + be_dec l.
Proof.
  unfold be_dec. revert acc. induction l as [|b l IH]; intros acc; simpl.
  - rewrite lenZ_nil. lia.
  - rewrite IH, (IH (0 * 256 + b)), lenZ_cons, Z.pow_add_r by (pose proof (lenZ_nonneg l); lia).
    lia.
Qed.

Lemma be_dec_cons b l : be_dec (b :: l) = b * 256 ^ lenZ l + be_dec l.
Proof. unfold be_dec at 1. simpl. rewrite be_dec_fold. lia. Qed.

Lemma pow256 n : 0 ≤ n → 256 ^ n = 2 ^ (8 * n).
Proof. intros. change 256 with (2 ^ 8). by rewrite <- Z.pow_mul_r by lia. Qed.

Lemma be_dec_range l : is_bytes l → 0 ≤ be_dec l < 256 ^ lenZ l.
Proof.
  induction 1 as [|b l Hb _ IH]; [done|].
  rewrite be_dec_cons, lenZ_cons, Z.pow_add_r by (pose proof (lenZ_nonneg l); lia).
  unfold is_byte in Hb. nia.
Qed.

Lemma be_dec_enc n v : be_dec (be_enc n v) = uwrap (8 * Z.of_nat n) v.
Proof.
  induction n as [|n IH]; [symmetry; apply Z.mod_1_r|].
  simpl be_enc. rewrite be_dec_cons, IH, lenZ_be_enc, pow256 by lia.
  unfold uwrap. rewrite Z.shiftr_div_pow2 by lia.
  replace (8 * Z.of_nat (S n)) with (8 * Z.of_nat n + 8) by lia.
  rewrite Z.pow_add_r by lia.
  rewrite Z.rem_mul_r by lia. lia.
Qed.

(** A byte in two. *)
Lemma be_enc_2_byte n : 0 ≤ n < 256 → be_enc 2 n = [0; u8 n].
Proof.
  intros Hn. cbn [be_enc]. change (8 * Z.of_nat 1) with 8. change (8 * Z.of_nat 0) with 0.
  by rewrite Z.shiftr_0_r, (Z.shiftr_div_pow2 _ 8), Z.div_small by lia.
Qed.

Lemma is_bytes_be_enc n v : is_bytes (be_enc n v).
Proof.
  induction n; constructor; [|done].
  apply (uwrap_range 8); lia.
Qed.

Lemma is_byte_u8 z : is_byte (u8 z).
Proof. apply (uwrap_range 8); lia. Qed.

Create HintDb bytes.
(** For concrete lists. *)
Lemma is_bytes_check l : forallb (λ b, (0 <=? b) && (b <? 256)) l = true → is_bytes l.
Proof.
  intros H. apply Forall_forall. intros b Hb. apply list_elem_of_In in Hb.
  eapply forallb_forall in H; [|exact Hb]. unfold is_byte. lia.
Qed.

#[export] Hint Resolve is_bytes_be_enc is_byte_u8 Forall_nil_2 : bytes.
#[export] Hint Resolve Forall_cons_2 Forall_app_2 : bytes.
#[export] Hint Extern 1 (is_byte _) => unfold is_byte; lia : bytes.

(** A byte tag that is or-ed with a number of its free low bits. *)
Lemma lor_add_disjoint a b k : 0 ≤ k → a mod 2 ^ k = 0 → 0 ≤ b < 2 ^ k → Z.lor a b = a + b.
Proof.
  intros Hk Ha Hb. rewrite <- Z.add_lor_land.
  assert (Z.land a b = 0) as ->; [|lia].
  apply Z.bits_inj'. intros i Hi. rewrite Z.land_spec, Z.bits_0.
  destruct (Z.lt_ge_cases i k).
  - rewrite <- (Z.mod_pow2_bits_low a k i), Ha, Z.bits_0 by lia. done.
  - rewrite <- (Z.mod_small b (2 ^ k)) by lia.
    rewrite (Z.mod_pow2_bits_high b k i) by lia. apply andb_false_r.
Qed.

(** ** Bytes at an offset

    [holds_at s off bs]: the live bytes of [s] from offset [off] start with
    [bs].  The reading functions are specified with it. *)

Definition holds_at (s : Slice) (off : Z) (bs : list Z) : Prop :=
  ∃ pre post, live s = pre ++ bs ++ post ∧ off = lenZ pre.

Lemma holds_at_intro pre bs post sp : holds_at (mkSlice (pre ++ bs ++ post) sp) (lenZ pre) bs.
Proof. by exists pre, post. Qed.

Lemma holds_at_app_l s off a b : holds_at s off (a ++ b) → holds_at s off a.
Proof.
  intros (pre & post & E & ->). exists pre, (b ++ post). by rewrite <- app_assoc in E.
Qed.

Lemma holds_at_app_r s off a b : holds_at s off (a ++ b) → holds_at s (off + lenZ a) b.
Proof.
  intros (pre & post & E & ->). exists (pre ++ a), post.
  rewrite lenZ_app. by rewrite <- !app_assoc in *.
Qed.

Lemma holds_at_cons s off b bs : holds_at s off (b :: bs) → holds_at s (off + 1) bs.
Proof. intros H. apply (holds_at_app_r s off [b] bs H). Qed.

Lemma holds_at_bound s off bs : holds_at s off bs → 0 ≤ off ∧ off + lenZ bs ≤ slen s.
Proof. intros (pre & post & E & ->). unfold slen. rewrite E. len_lia. Qed.

Lemma index_at s off b bs : holds_at s off (b :: bs) → index s off = Ret b.
Proof.
  intros H. pose proof (holds_at_bound _ _ _ H) as Hb. rewrite lenZ_cons in Hb.
  pose proof (lenZ_nonneg bs).
  unfold index. destruct (_ && _) eqn:E; [|lia].
  destruct H as (pre & post & El & ->). rewrite El.
  rewrite lookup_app_r by (unfold lenZ; lia).
  unfold lenZ. by rewrite Nat2Z.id, Nat.sub_diag.
Qed.

Lemma reslice_at s off a b :
  holds_at s off (a ++ b) → ∃ sp, reslice s off (off + lenZ a) = Ret (mkSlice a sp).
Proof.
  intros H%holds_at_app_l. pose proof (holds_at_bound _ _ _ H) as Hb.
  eexists. unfold reslice, scap. pose proof (lenZ_nonneg (spare s)). pose proof (lenZ_nonneg a).
  unfold slen in Hb. destruct (_ && _) eqn:E; [|lia].
  f_equal. f_equal. replace (off + lenZ a - off) with (lenZ a) by lia.
  destruct H as (pre & post & El & ->). rewrite El.
  rewrite <- !app_assoc, drop_app_lenZ, take_app_lenZ by done. done.
Qed.

Lemma BigEndian_Uint_enc n v sp post :
  BigEndian_Uint n (mkSlice (be_enc n v ++ post) sp) = Ret (uwrap (8 * Z.of_nat n) v).
Proof.
  unfold BigEndian_Uint. destruct (_ <=? _) eqn:E; [|len_lia].
  cbn [live]. rewrite <- (length_be_enc n v) at 1. by rewrite take_app_length, be_dec_enc.
Qed.

(** A read that is guarded by the slice's length succeeds. *)
Lemma index_in_range s i : 0 ≤ i < slen s → ∃ b, index s i = Ret b ∧ live s !! Z.to_nat i = Some b.
Proof.
  intros Hi. unfold index. destruct (_ && _) eqn:E; [|lia].
  destruct (lookup_lt_is_Some_2 (live s) (Z.to_nat i)) as [b Hb]; [unfold slen, lenZ in *; lia|].
  exists b. by rewrite Hb.
Qed.

Lemma reslice_in_range s lo hi :
  0 ≤ lo → lo ≤ hi → hi ≤ slen s →
  ∃ t, reslice s lo hi = Ret t ∧ live t = take (Z.to_nat (hi - lo)) (drop (Z.to_nat lo) (live s))
       ∧ slen t = hi - lo.
Proof.
  intros Hlo Hle Hhi. unfold reslice. destruct (_ && _) eqn:E; [|len_lia].
  unfold slen, lenZ in *.
  rewrite drop_app_le, take_app_le by (rewrite ?length_drop; lia).
  eexists. split; [done|]. cbn [live]. split; [done|].
  rewrite length_take, length_drop. lia.
Qed.

(** ** Proof automation *)

(** Reduce the head of a Go computation. *)
Ltac go_simpl := cbn [mret mbind go_ret go_bind fst snd live spare] in *.

(** Split on the outermost [if] or [match] of the goal and discard the branches
    that contradict the context. *)
Ltac split_cond :=
  match goal with
  | |- context [if ?b then _ else _] =>
      let E := fresh "E" in destruct b eqn:E; try (exfalso; len_lia)
  end.

(** Decide the next guard of a guarded computation by arithmetic. *)
Ltac decide_guard :=
  match goal with
  | |- context [if ?b then _ else _] =>
      first [ replace b with true by (symmetry; len_lia)
            | replace b with false by (symmetry; len_lia) ]
  end.

(** The shape every reading function has: a length guard, the head byte, a guard
    on the payload, and the payload cut out of the slice. *)
Lemma holds_at_head s off h bs :
  holds_at s off (h :: bs) → (slen s <=? off) = false ∧ index s off = Ret h.
Proof.
  intros H. pose proof (holds_at_bound _ _ _ H) as Hb.
  split; [len_lia | by eapply index_at].
Qed.

Lemma holds_at_payload s off p post n :
  holds_at s off (p ++ post) → n = lenZ p →
  (slen s <? off + n) = false ∧ ∃ sp, reslice s off (off + n) = Ret (mkSlice p sp).
Proof.
  intros H ->. split; [|by eapply reslice_at].
  pose proof (holds_at_bound _ _ _ H) as Hb. len_lia.
Qed.

(** ** Append functions

    An [Appender] extends its destination; what it writes does not depend on
    the destination. *)

Class Appender {A} (f : list Z → A → list Z) :=
  appender dst a : f dst a = dst ++ f [] a.

Lemma holds_at_appender {A} (f : list Z → A → list Z) `{!Appender f} dst a post sp :
  holds_at (mkSlice (f dst a ++ post) sp) (lenZ dst) (f [] a ++ post).
Proof.
  exists dst, []. rewrite app_nil_r. split; [|done]. cbn [live].
  by rewrite (appender dst a), <- app_assoc.
Qed.

Lemma lenZ_appender {A} (f : list Z → A → list Z) `{!Appender f} dst a :
  lenZ (f dst a) = lenZ dst + lenZ (f [] a).
Proof. by rewrite (appender dst a), lenZ_app. Qed.

(** Prove [Appender] for a function that is a decision tree of appends. *)
Ltac solve_appender f :=
  intros dst a; unfold f; repeat case_match; rewrite <- ?app_assoc; reflexivity.

Lemma is_bytes_sub s t lo hi :
  is_bytes (live s) → live t = take hi (drop lo (live s)) → is_bytes (live t).
Proof. intros H ->. by apply Forall_take, Forall_drop. Qed.

(** [if]-free forms of the two guarded reads, for slices of bytes. *)
Lemma index_byte s i :
  is_bytes (live s) → 0 ≤ i < slen s → ∃ b, index s i = Ret b ∧ is_byte b.
Proof.
  intros Hs Hi. destruct (index_in_range s i Hi) as (b & E & Hb).
  exists b. split; [done|]. by apply (Forall_lookup_1 _ _ _ _ Hs Hb).
Qed.

Lemma reslice_bytes s lo n :
  is_bytes (live s) → 0 ≤ lo → 0 ≤ n → lo + n ≤ slen s →
  ∃ t, reslice s lo (lo + n) = Ret t ∧ is_bytes (live t) ∧ lenZ (live t) = n.
Proof.
  intros Hs Hlo Hn Hhi. destruct (reslice_in_range s lo (lo + n)) as (t & E & Ht & Hl); [lia..|].
  exists t. split; [done|]. split; [by eapply is_bytes_sub|]. unfold slen in Hl. lia.
Qed.

(** Step a reading function through its length guard, its head byte and the
    classification of the head byte. *)
Ltac step_guard :=
  match goal with
  | |- context [if ?b then _ else _] => destruct b eqn:?
  end.

Ltac step_index s i Hs c Hc :=
  let E := fresh "Hidx" in
  destruct (index_byte s i Hs) as (c & E & Hc); [len_lia|rewrite E in *; go_simpl].

Ltac step_reslice s lo n Hs t :=
  let E := fresh "Hsl" in let Hb := fresh "Hb" in let Hl := fresh "Hlen" in
  destruct (reslice_bytes s lo n Hs) as (t & E & Hb & Hl); [len_lia..|rewrite E in *; go_simpl].

(** [s[i:i+1]] is the one-byte slice of [s[i]]. *)
Lemma reslice_index s i b : index s i = Ret b → ∃ sp, reslice s i (i + 1) = Ret (mkSlice [b] sp).
Proof.
  unfold index. destruct (_ && _) eqn:E; [|done]. intros [= Hb].
  apply (reslice_at s i [b] []). rewrite app_nil_r.
  destruct (lookup_lt_is_Some_2 (live s) (Z.to_nat i)) as [b' Hb']; [unfold slen, lenZ in *; lia|].
  rewrite Hb' in Hb. simpl in Hb. subst b'.
  exists (take (Z.to_nat i) (live s)), (drop (S (Z.to_nat i)) (live s)).
  split; [symmetry; by apply take_drop_middle|].
  unfold slen, lenZ in *. rewrite length_take. lia.
Qed.

(** Close the branch of a total read that returns an error triple. *)
Ltac read_fails := solve [do 3 eexists; split; [reflexivity|]; cbv iota; eauto].

(** Evaluate [Z.to_nat] of a literal, for the [match] on it. *)
Ltac eval_to_nat :=
  match goal with
  | |- context [Z.to_nat ?k] => let r := eval vm_compute in (Z.to_nat k) in
                                change (Z.to_nat k) with r; cbv iota
  end.

(** ** Numbers at an offset *)

(** [binary.BigEndian.UintN(s[lo:hi])] and [binary.BigEndian.UintN(s[lo:])] *)
Definition be_at (n : nat) (s : Slice) (lo hi : Z) : go Z :=
  b ← reslice s lo hi; BigEndian_Uint n b.
Definition be_from (n : nat) (s : Slice) (lo : Z) : go Z := be_at n s lo (slen s).

Lemma be_at_enc s off n v hi :
  holds_at s off (be_enc n v) → hi = off + Z.of_nat n →
  be_at n s off hi = Ret (uwrap (8 * Z.of_nat n) v).
Proof.
  intros H ->. unfold be_at. rewrite <- (app_nil_r (be_enc n v)) in H.
  destruct (holds_at_payload _ _ _ _ (Z.of_nat n) H) as [_ [sp Hsp]]; [by rewrite lenZ_be_enc|].
  rewrite Hsp. go_simpl. pose proof (BigEndian_Uint_enc n v sp []) as HB.
  by rewrite app_nil_r in HB.
Qed.

Lemma be_from_enc s off n v post :
  holds_at s off (be_enc n v ++ post) → be_from n s off = Ret (uwrap (8 * Z.of_nat n) v).
Proof.
  intros (pre & post' & E & ->). unfold be_from, be_at.
  assert (slen s = lenZ pre + lenZ (be_enc n v ++ post ++ post')) as ->.
  { unfold slen. rewrite E. len_lia. }
  rewrite <- !app_assoc in E.
  destruct (reslice_at s (lenZ pre) (be_enc n v ++ post ++ post') []) as [sp Hsp].
  { exists pre, []. by rewrite !app_nil_r. }
  rewrite Hsp. go_simpl. apply BigEndian_Uint_enc.
Qed.

Lemma be_at_total s lo n hi :
  is_bytes (live s) → 0 ≤ lo → hi = lo + Z.of_nat n → hi ≤ slen s →
  ∃ v, be_at n s lo hi = Ret v ∧ 0 ≤ v < 256 ^ Z.of_nat n.
Proof.
  intros Hs Hlo -> Hhi. unfold be_at.
  destruct (reslice_bytes s lo (Z.of_nat n) Hs) as (t & E & Hb & Hl); [lia..|].
  rewrite E. go_simpl. unfold BigEndian_Uint. unfold slen. rewrite Hl, Z.leb_refl.
  eexists. split; [done|]. rewrite <- Hl. rewrite take_ge by (unfold lenZ in Hl; lia).
  by apply be_dec_range.
Qed.

Lemma be_from_total s lo n :
  is_bytes (live s) → 0 ≤ lo → lo + Z.of_nat n ≤ slen s →
  ∃ v, be_from n s lo = Ret v ∧ 0 ≤ v < 256 ^ Z.of_nat n.
Proof.
  intros Hs Hlo Hhi. unfold be_from, be_at.
  destruct (reslice_bytes s lo (slen s - lo) Hs) as (t & E & Hb & Hl); [lia..|].
  replace (lo + (slen s - lo)) with (slen s) in E by lia.
  rewrite E. go_simpl. unfold BigEndian_Uint. unfold slen at 1. rewrite Hl.
  destruct (Z.of_nat n <=? slen s - lo) eqn:E'; [|lia].
  eexists. split; [done|]. replace (Z.of_nat n) with (lenZ (take n (live t))).
  - apply be_dec_range. by apply Forall_take.
  - unfold lenZ in *. rewrite length_take. lia.
Qed.
