(* ===== verification/Types.v ===== *)
(** * Types: the header-byte tables (pkg/msgpack/types/types.go)

    The package classifies a MessagePack head byte by three 256-entry tables
    that its [init] function fills.  [Tables] holds the tables, [init] performs
    the assignments of the source in the same order, and [Get] looks a byte up.
    The theorem [Get_spec] shows that the tables implement the classification
    of the format by ranges, [classify]; it is what every other file uses. *)

From S2P Require Import Prelude.

Inductive type :=
  | Invalid | Nil | Bool | Int | Uint | Float | Str | Bin | Ext | Array | Map.

#[export] Instance type_eq_dec : EqDecision type.
Proof. solve_decision. Defined.

Definition typeStrings (t : type) : list Z :=
  match t with
  | Invalid => str "invalid"
  | Nil => str "nil"
  | Bool => str "bool"
  | Int => str "int"
  | Uint => str "uint"
  | Float => str "float"
  | Str => str "str"
  | Bin => str "bin"
  | Ext => str "ext"
  | Array => str "array"
  | Map => str "map"
  end.

Record Tables := mkTables {
  typeLookup : list type;
  lengthLookup : list Z;
  isLengthValue : list bool
}.

(** The package's zero-valued arrays. *)
Definition zeroTables : Tables :=
  mkTables (replicate 256 Invalid) (replicate 256 0) (replicate 256 false).

(** [typeLookup[i] = t; lengthLookup[i] = l; isLengthValue[i] = v] *)
Definition assign (t : type) (l : Z) (v : bool) (i : Z) (T : Tables) : Tables :=
  mkTables (<[Z.to_nat i := t]> (typeLookup T))
           (<[Z.to_nat i := l]> (lengthLookup T))
           (<[Z.to_nat i := v]> (isLengthValue T)).

(** [for i := lo; i <= hi; i++ { body(i) }] *)
Definition for_range (lo hi : Z) (body : Z → Tables → Tables) (T : Tables) : Tables :=
  fold_left (λ T i, body i T) (seqZ lo (hi - lo + 1)) T.

Definition init (T : Tables) : Tables :=
  let T := for_range 0x00 0x7f (assign Uint 0 true) T in
  let T := for_range 0xe0 0xff (assign Int 0 true) T in
  let T := for_range 0xa0 0xbf (λ i, assign Str (u8 (i - 0xa0)) true i) T in
  let T := for_range 0x80 0x8f (λ i, assign Map (u8 (i - 0x80)) true i) T in
  let T := for_range 0x90 0x9f (λ i, assign Array (u8 (i - 0x90)) true i) T in
  let T := assign Nil 0 true 0xc0 T in
  let T := assign Bool 0 true 0xc2 T in
  let T := assign Bool 0 true 0xc3 T in
  let T := assign Bin 1 false 0xc4 T in
  let T := assign Bin 2 false 0xc5 T in
  let T := assign Bin 4 false 0xc6 T in
  let T := assign Ext 1 false 0xc7 T in
  let T := assign Ext 2 false 0xc8 T in
  let T := assign Ext 4 false 0xc9 T in
  let T := assign Float 4 true 0xca T in
  let T := assign Float 8 true 0xcb T in
  let T := assign Uint 1 true 0xcc T in
  let T := assign Uint 2 true 0xcd T in
  let T := assign Uint 4 true 0xce T in
  let T := assign Uint 8 true 0xcf T in
  let T := assign Int 1 true 0xd0 T in
  let T := assign Int 2 true 0xd1 T in
  let T := assign Int 4 true 0xd2 T in
  let T := assign Int 8 true 0xd3 T in
  let T := assign Str 1 false 0xd9 T in
  let T := assign Str 2 false 0xda T in
  let T := assign Str 4 false 0xdb T in
  let T := assign Array 2 false 0xdc T in
  let T := assign Array 4 false 0xdd T in
  let T := assign Map 2 false 0xde T in
  let T := assign Map 4 false 0xdf T in
  let T := assign Ext 2 true 0xd4 T in
  let T := assign Ext 3 true 0xd5 T in
  let T := assign Ext 5 true 0xd6 T in
  let T := assign Ext 9 true 0xd7 T in
  assign Ext 17 true 0xd8 T.

(** The tables after package initialisation. *)
Definition tables : Tables := Eval vm_compute in init zeroTables.

Definition Get (c : Z) : type * Z * bool :=
  (default Invalid (typeLookup tables !! Z.to_nat c),
   default 0 (lengthLookup tables !! Z.to_nat c),
   default false (isLengthValue tables !! Z.to_nat c)).

(** ** Reference classification

    The MessagePack format by ranges of the head byte.  For the fixed-size
    extension types the length counts the extension type byte. *)

Definition classify (c : Z) : type * Z * bool :=
  if c <=? 0x7f then (Uint, 0, true)
  else if c <=? 0x8f then (Map, c - 0x80, true)
  else if c <=? 0x9f then (Array, c - 0x90, true)
  else if c <=? 0xbf then (Str, c - 0xa0, true)
  else if c =? 0xc0 then (Nil, 0, true)
  else if c =? 0xc1 then (Invalid, 0, false)
  else if c <=? 0xc3 then (Bool, 0, true)
  else if c <=? 0xc6 then (Bin, 2 ^ (c - 0xc4), false)
  else if c <=? 0xc9 then (Ext, 2 ^ (c - 0xc7), false)
  else if c <=? 0xcb then (Float, 2 ^ (c - 0xca + 2), true)
  else if c <=? 0xcf then (Uint, 2 ^ (c - 0xcc), true)
  else if c <=? 0xd3 then (Int, 2 ^ (c - 0xd0), true)
  else if c <=? 0xd8 then (Ext, 1 + 2 ^ (c - 0xd4), true)
  else if c <=? 0xdb then (Str, 2 ^ (c - 0xd9), false)
  else if c <=? 0xdd then (Array, 2 ^ (c - 0xdc + 1), false)
  else if c <=? 0xdf then (Map, 2 ^ (c - 0xde + 1), false)
  else (Int, 0, true).

(** A boolean check of all bytes, used to lift a computation to a theorem. *)
Lemma all_bytes (P : Z → bool) :
  forallb P (seqZ 0 256) = true → ∀ c, is_byte c → P c = true.
Proof.
  intros H c Hc. rewrite forallb_forall in H. apply H.
  apply list_elem_of_In, elem_of_seqZ. unfold is_byte in Hc. lia.
Qed.

Lemma tables_init : tables = init zeroTables.
Proof. vm_compute. reflexivity. Qed.

Lemma Get_classify c : is_byte c → Get c = classify c.
Proof.
  intros Hc. assert (bool_decide (Get c = classify c) = true) as H.
  { pose (P := λ x, bool_decide (Get x = classify x)).
    apply (all_bytes P); [vm_compute; reflexivity | done]. }
  by apply bool_decide_eq_true in H.
Qed.

(** What the callers rely on when they use a length of the tables. *)
Lemma Get_length c t l v : is_byte c → Get c = (t, l, v) → 0 ≤ l ≤ 31 ∧ (v = false → l ≤ 4).
Proof.
  intros Hc E.
  assert (let '(_, l, v) := Get c in (0 <=? l) && (l <=? 31) && (v || (l <=? 4)) = true) as H.
  { pose (P := λ c, let '(_, l, v) := Get c in (0 <=? l) && (l <=? 31) && (v || (l <=? 4))).
    assert (P c = true) as H; [|unfold P in H; by destruct (Get c) as [[??]?]].
    apply all_bytes; [vm_compute; reflexivity | done]. }
  rewrite E in H. destruct v; cbn in H; lia.
Qed.

(** Header bytes with an embedded value: evaluate the table on the range. *)
Lemma Get_on (lo hi : Z) (f : Z → type * Z * bool) :
  forallb (λ c, bool_decide (Get c = f c)) (seqZ lo (hi - lo + 1)) = true →
  ∀ c, lo ≤ c ≤ hi → Get c = f c.
Proof.
  intros H c Hc. rewrite forallb_forall in H.
  specialize (H c ltac:(apply list_elem_of_In, elem_of_seqZ; lia)).
  by apply bool_decide_eq_true in H.
Qed.

Lemma Get_posfix c : 0 ≤ c ≤ 0x7f → Get c = (Uint, 0, true).
Proof. apply (Get_on 0 0x7f (λ _, (Uint, 0, true))). vm_compute. reflexivity. Qed.
Lemma Get_negfix c : 0xe0 ≤ c ≤ 0xff → Get c = (Int, 0, true).
Proof. apply (Get_on 0xe0 0xff (λ _, (Int, 0, true))). vm_compute. reflexivity. Qed.
Lemma Get_fixstr c : 0xa0 ≤ c ≤ 0xbf → Get c = (Str, c - 0xa0, true).
Proof. apply (Get_on 0xa0 0xbf (λ c, (Str, c - 0xa0, true))). vm_compute. reflexivity. Qed.
Lemma Get_fixmap c : 0x80 ≤ c ≤ 0x8f → Get c = (Map, c - 0x80, true).
Proof. apply (Get_on 0x80 0x8f (λ c, (Map, c - 0x80, true))). vm_compute. reflexivity. Qed.
Lemma Get_fixarray c : 0x90 ≤ c ≤ 0x9f → Get c = (Array, c - 0x90, true).
Proof. apply (Get_on 0x90 0x9f (λ c, (Array, c - 0x90, true))). vm_compute. reflexivity. Qed.

(** The integer headers: a value byte, or 1, 2, 4 or 8 payload bytes. *)
Lemma Get_Int c l v :
  is_byte c → Get c = (Int, l, v) →
  v = true ∧ ((l = 0 ∧ 0xe0 ≤ c) ∨ (l = 1 ∧ c = 0xd0) ∨ (l = 2 ∧ c = 0xd1)
              ∨ (l = 4 ∧ c = 0xd2) ∨ (l = 8 ∧ c = 0xd3)).
Proof.
  intros Hc E.
  pose (P := λ c, match Get c with
    | (Int, l, v) => v && (((l =? 0) && (0xe0 <=? c)) || ((l =? 1) && (c =? 0xd0))
       || ((l =? 2) && (c =? 0xd1)) || ((l =? 4) && (c =? 0xd2)) || ((l =? 8) && (c =? 0xd3)))
    | _ => true end).
  assert (P c = true) as H by (apply all_bytes; [vm_compute; reflexivity | done]).
  unfold P in H. rewrite E in H. destruct v; cbn [andb] in H; [|done]. split; [done|]. lia.
Qed.

Lemma Get_Uint c l v :
  is_byte c → Get c = (Uint, l, v) →
  v = true ∧ ((l = 0 ∧ c ≤ 0x7f) ∨ (l = 1 ∧ c = 0xcc) ∨ (l = 2 ∧ c = 0xcd)
              ∨ (l = 4 ∧ c = 0xce) ∨ (l = 8 ∧ c = 0xcf)).
Proof.
  intros Hc E.
  pose (P := λ c, match Get c with
    | (Uint, l, v) => v && (((l =? 0) && (c <=? 0x7f)) || ((l =? 1) && (c =? 0xcc))
       || ((l =? 2) && (c =? 0xcd)) || ((l =? 4) && (c =? 0xce)) || ((l =? 8) && (c =? 0xcf)))
    | _ => true end).
  assert (P c = true) as H by (apply all_bytes; [vm_compute; reflexivity | done]).
  unfold P in H. rewrite E in H. destruct v; cbn [andb] in H; [|done]. split; [done|]. lia.
Qed.

(** C25: The table lookup [types.Get] implements the MessagePack classification
    of head bytes: for every byte the type, the length and the kind of length
    that the initialised tables return are those of the format's ranges. *)
Theorem Get_spec c : 0 ≤ c < 256 → Get c = classify c.
Proof. apply Get_classify. Qed.

Lemma Get_spec_witness : Get 0xc5 = (Bin, 2, false).
Proof. rewrite (Get_spec 0xc5) by lia. reflexivity. Defined.
