(* ===== verification/Errors.v ===== *)
(** * Errors: the error values of the packages (pkg/msgpack/errors.go,
    forward/errors.go and the errors of io that the code compares with)

    Package-level error values are [Sentinel]s, compared by identity as Go
    compares them; [Errorf] is a formatted error and [Wrapf] one that
    wraps another with [%w];
    [Join] is [errors.Join].  [Is] is [errors.Is]. *)

From S2P Require Import Prelude Types.

Inductive sentinel :=
  (* io *)
  | SEOF | SUnexpectedEOF | SShortBuffer | SShortWrite
  (* pkg/msgpack/errors.go *)
  | SInvalidFormat | SInvalidHeaderByte | SInvalidExtByte | SReachedMaxBufferSize | SInvalidOffset
  (* forward/errors.go *)
  | SInvalidHelo | SInvalidPing | SInvalidPong | SInvalidNonce | SInvalidSharedKey
  | SInvalidEntry | SFailedConn | SFailedAuth | SNotSupported
  (* internal/gzip *)
  | SGzipHeader | SGzipChecksum.

#[export] Instance sentinel_eq_dec : EqDecision sentinel.
Proof. solve_decision. Defined.

(** An argument of a formatted error. *)
Inductive farg :=
  | FNum (z : Z)
  | FStr (s : list Z)
  | FType (t : type).

Inductive error :=
  | Sentinel (s : sentinel)
  | Errorf (format : string) (args : list farg)
  | Wrapf (format : string) (wrapped : error) (args : list farg)
  | Join (a b : error)
  | External (n : Z).

Definition EOF := Sentinel SEOF.
Definition ErrUnexpectedEOF := Sentinel SUnexpectedEOF.
Definition ErrShortBuffer := Sentinel SShortBuffer.
Definition ErrShortWrite := Sentinel SShortWrite.
Definition ErrInvalidFormat := Sentinel SInvalidFormat.
Definition ErrInvalidHeaderByte := Sentinel SInvalidHeaderByte.
Definition ErrInvalidExtByte := Sentinel SInvalidExtByte.

(** [errors.Is(e, target)] for a sentinel target. *)
Fixpoint Is (e : error) (target : sentinel) : bool :=
  match e with
  | Sentinel s => bool_decide (s = target)
  | Errorf _ _ => false
  | Wrapf _ w _ => Is w target
  | Join a b => Is a target || Is b target
  | External _ => false
  end.

(** [err == io.EOF]: identity, not [errors.Is]. *)
Definition is_EOF (e : error) : bool :=
  match e with Sentinel SEOF => true | _ => false end.

Definition expectedType (c : Z) (expected : type) : error :=
  Wrapf "%w: expected %s, got 0x%02x" ErrInvalidHeaderByte [FType expected; FNum c].

Definition expectedExtType (got expected : Z) : error :=
  Wrapf "%w: expected 0x%02x, got 0x%02x" ErrInvalidExtByte [FNum expected; FNum got].
