(* ===== verification/Integer.v ===== *)
(** * Integer: integers (pkg/msgpack/integer.go and the buffers of utils.go)

    [AppendInt]/[AppendUint] write an integer in its shortest form,
    [ReadInt]/[ReadUint] read one at an offset, and [readIntUnsafe] decodes the
    payload the iterator has already cut out of the stream. *)

From S2P Require Import Prelude Types Errors.

(** ** utils.go *)

(** [intFromBuf[T]]: a signed number of the width of the buffer. *)
Definition intFromBuf (T : numty) (buf : list Z) : Z :=
  match length buf with
  | 0%nat => 0
  | 1%nat => conv T (swrap 8 (be_dec buf))
  | 2%nat => conv T (swrap 16 (be_dec buf))
  | 4%nat => conv T (swrap 32 (be_dec buf))
  | 8%nat => conv T (be_dec buf)
  | _ => 0
  end.

(** [uintFromBuf[T]] *)
Definition uintFromBuf (T : numty) (buf : list Z) : Z :=
  match length buf with
  | 0%nat => 0
  | 1%nat | 2%nat | 4%nat | 8%nat => conv T (be_dec buf)
  | _ => 0
  end.

(** ** integer.go *)

Definition ReadInt (src : Slice) (offset : Z) : go (Z * Z * option error) :=
  if slen src <=? offset then Ret (0, offset, Some ErrShortBuffer) else
  c ← index src offset;
  let '(typ, length, isValueLength) := Get c in
  let newOffset := offset + 1 in
  match typ with
  | Int =>
      if isValueLength && (length =? 0) then
        if 0xe0 <=? c then Ret (intFromBuf TInt64 [c], newOffset, None)
        else Ret (0, offset, Some (Errorf "unexpected TypeInt for non-negative fixint: 0x%02x" [FNum c]))
      else if slen src <? newOffset + length then Ret (0, offset, Some ErrShortBuffer) else
      buf ← reslice src newOffset (newOffset + length);
      Ret (intFromBuf TInt64 (live buf), newOffset + length, None)
  | Uint =>
      if isValueLength && (length =? 0) then
        if c <=? 0x7f then
          buf ← reslice src offset (offset + 1);
          Ret (intFromBuf TInt64 (live buf), newOffset, None)
        else Ret (0, offset, Some (Errorf "unexpected TypeUint for non-positive fixint: 0x%02x" [FNum c]))
      else if slen src <? newOffset + length then Ret (0, offset, Some ErrShortBuffer) else
      buf ← reslice src newOffset (newOffset + length);
      let uintVal := uintFromBuf TUint64 (live buf) in
      if 2 ^ 63 - 1 <? uintVal then
        Ret (0, offset, Some (Errorf "uint64 value %d overflows int64" [FNum uintVal]))
      else Ret (conv TInt64 uintVal, newOffset + length, None)
  | _ => Ret (0, offset, Some (Errorf "invalid int header byte: 0x%02x" [FNum c]))
  end.

Definition ReadUint (src : Slice) (offset : Z) : go (Z * Z * option error) :=
  if slen src <=? offset then Ret (0, offset, Some ErrShortBuffer) else
  c ← index src offset;
  let '(typ, length, isValueLength) := Get c in
  let newOffset := offset + 1 in
  if bool_decide (typ ≠ Uint) then
    Ret (0, offset, Some (Errorf "invalid uint header byte: 0x%02x" [FNum c]))
  else if isValueLength && (length =? 0) then
    if c <=? 0x7f then
      buf ← reslice src offset (offset + 1);
      Ret (uintFromBuf TUint64 (live buf), newOffset, None)
    else Ret (0, offset, Some (Errorf "unexpected TypeUint for non-positive fixint: 0x%02x" [FNum c]))
  else if slen src <? newOffset + length then Ret (0, offset, Some ErrShortBuffer) else
  buf ← reslice src newOffset (newOffset + length);
  Ret (uintFromBuf TUint64 (live buf), newOffset + length, None).

Definition AppendUint (buf : list Z) (value : Z) : list Z :=
  if value <=? 127 then buf ++ [u8 value]
  else if value <=? 255 then (buf ++ [0xcc]) ++ [u8 value]
  else if value <=? 65535 then (buf ++ [0xcd]) ++ be_enc 2 value
  else if value <=? 4294967295 then (buf ++ [0xce]) ++ be_enc 4 value
  else (buf ++ [0xcf]) ++ be_enc 8 value.

Definition AppendInt (buf : list Z) (value : Z) : list Z :=
  if 0 <=? value then AppendUint buf (conv TUint64 value)
  else if -32 <=? value then buf ++ [u8 value]
  else if -128 <=? value then (buf ++ [0xd0]) ++ [u8 value]
  else if -32768 <=? value then (buf ++ [0xd1]) ++ be_enc 2 value
  else if -2147483648 <=? value then (buf ++ [0xd2]) ++ be_enc 4 value
  else (buf ++ [0xd3]) ++ be_enc 8 value.

Definition readIntUnsafe (T : numty) (c : Z) (src : list Z) : Z :=
  let '(typ, _, _) := Get c in
  match typ with
  | Int => if 0xe0 <=? c then conv T (swrap 8 c) else conv T (intFromBuf TInt64 src)
  | Uint => if c <=? 0x7f then conv T (swrap 8 c) else conv T (uintFromBuf TUint64 src)
  | _ => 0
  end.

(** ** Lemmas on the buffers *)

Lemma be_dec_single b : be_dec [b] = b.
Proof. unfold be_dec. simpl. lia. Qed.

Lemma uintFromBuf_enc n v :
  n = 1%nat ∨ n = 2%nat ∨ n = 4%nat ∨ n = 8%nat → 0 ≤ v < 2 ^ (8 * Z.of_nat n) →
  uintFromBuf TUint64 (be_enc n v) = v.
Proof.
  intros Hn Hv. unfold uintFromBuf. rewrite length_be_enc, be_dec_enc, uwrap_small by done.
  assert (2 ^ (8 * Z.of_nat n) ≤ 2 ^ 64) by (apply Z.pow_le_mono_r; lia).
  destruct Hn as [->|[->|[->| ->]]]; apply uwrap_small; cbn [bits_of]; lia.
Qed.

Lemma intFromBuf_enc n v :
  n = 1%nat ∨ n = 2%nat ∨ n = 4%nat ∨ n = 8%nat →
  - 2 ^ (8 * Z.of_nat n - 1) ≤ v < 2 ^ (8 * Z.of_nat n - 1) →
  intFromBuf TInt64 (be_enc n v) = v.
Proof.
  intros Hn Hv. unfold intFromBuf. rewrite length_be_enc, be_dec_enc.
  destruct Hn as [->|[->|[->| ->]]]; unfold conv; cbn [is_signed bits_of];
    rewrite !swrap_uwrap by lia;
    repeat match goal with |- context [swrap ?w v] => rewrite (swrap_small w v) by lia end;
    try done; apply swrap_small; lia.
Qed.

(** Case analysis on the length of a buffer, as the [switch len(buf)] does it. *)
Ltac case_length buf :=
  let E := fresh "E" in
  destruct (length buf) as [|[|[|[|[|[|[|[|[|?]]]]]]]]] eqn:E.

Lemma uintFromBuf_range T buf :
  is_signed T = false → in_type T (uintFromBuf T buf).
Proof.
  intros HT. assert (in_type T 0).
  { unfold in_type. rewrite HT. destruct T; cbn [bits_of]; lia. }
  unfold uintFromBuf. case_length buf; done || apply conv_range.
Qed.

Lemma intFromBuf_range buf : in_type TInt64 (intFromBuf TInt64 buf).
Proof.
  assert (in_type TInt64 0) by (unfold in_type; cbn [is_signed bits_of]; lia).
  unfold intFromBuf. case_length buf; done || apply conv_range.
Qed.

(** A number read from [n] bytes is below [256 ^ n]. *)
Lemma uintFromBuf_bound buf : is_bytes buf → 0 ≤ uintFromBuf TUint64 buf < 256 ^ lenZ buf.
Proof.
  intros Hb. pose proof (be_dec_range buf Hb) as Hr.
  assert (0 < 256 ^ lenZ buf) by (apply Z.pow_pos_nonneg; [lia|apply lenZ_nonneg]).
  unfold uintFromBuf. case_length buf; try lia.
  all: unfold conv; cbn [is_signed bits_of]; rewrite uwrap_small; [done|].
  all: unfold lenZ in Hr; rewrite E in Hr;
    match type of Hr with _ ≤ _ < ?r => assert (r ≤ 2 ^ 64) by (vm_compute; discriminate) end; lia.
Qed.

(** ** What the append functions write *)

#[export] Instance AppendUint_appender : Appender AppendUint.
Proof. solve_appender AppendUint. Qed.

#[export] Instance AppendInt_appender : Appender AppendInt.
Proof.
  intros dst v. unfold AppendInt.
  destruct (0 <=? v); [apply appender|].
  repeat case_match; rewrite <- ?app_assoc; reflexivity.
Qed.

Lemma is_bytes_AppendUint v : is_bytes (AppendUint [] v).
Proof. unfold AppendUint. repeat case_match; cbn [app]; auto with bytes. Qed.

Lemma is_bytes_AppendInt v : is_bytes (AppendInt [] v).
Proof.
  unfold AppendInt. destruct (0 <=? v); [apply is_bytes_AppendUint|].
  repeat case_match; cbn [app]; auto with bytes.
Qed.

#[export] Hint Resolve is_bytes_AppendUint is_bytes_AppendInt : bytes.

(** The payload sizes of an integer. *)
Definition int_size (n : nat) : Prop := n = 1%nat ∨ n = 2%nat ∨ n = 4%nat ∨ n = 8%nat.

(** The shapes of an encoded integer: one head byte, or a head byte and 1, 2, 4
    or 8 bytes of payload.  [lo] is the bound below which a shorter form is used. *)
Lemma AppendUint_cases v :
  0 ≤ v < 2 ^ 64 →
  (0 ≤ v ≤ 127 ∧ AppendUint [] v = [v]) ∨
  ∃ h n, AppendUint [] v = h :: be_enc n v ∧ 0 ≤ v < 2 ^ (8 * Z.of_nat n) ∧ 127 < v ∧
    int_size n ∧ Get h = (Uint, Z.of_nat n, true) ∧
    (n ≠ 1%nat → 2 ^ (4 * Z.of_nat n) ≤ v).
Proof.
  intros Hv. unfold AppendUint, int_size.
  destruct (v <=? 127) eqn:E1; [left; split; [lia|]; by rewrite uwrap_small by lia|right].
  destruct (v <=? 255) eqn:E2; [exists 0xcc, 1%nat; repeat split; auto; lia|].
  destruct (v <=? 65535) eqn:E3; [exists 0xcd, 2%nat; repeat split; auto; lia|].
  destruct (v <=? 4294967295) eqn:E4; [exists 0xce, 4%nat; repeat split; auto; lia|].
  exists 0xcf, 8%nat. repeat split; auto; lia.
Qed.

Lemma AppendInt_neg_cases v :
  - 2 ^ 63 ≤ v < 0 →
  (-32 ≤ v ∧ AppendInt [] v = [v + 256]) ∨
  ∃ h n, AppendInt [] v = h :: be_enc n v ∧ - 2 ^ (8 * Z.of_nat n - 1) ≤ v < -32 ∧
    int_size n ∧ Get h = (Int, Z.of_nat n, true).
Proof.
  intros Hv. unfold AppendInt, int_size. destruct (0 <=? v) eqn:E0; [lia|].
  destruct (-32 <=? v) eqn:E1.
  { left. split; [lia|]. cbn [app]. unfold uwrap.
    rewrite <- (Z.mod_add v 1 (2 ^ 8)) by lia. by rewrite Z.mod_small by lia. }
  right. destruct (-128 <=? v) eqn:E2; [exists 0xd0, 1%nat; repeat split; auto; lia|].
  destruct (-32768 <=? v) eqn:E3; [exists 0xd1, 2%nat; repeat split; auto; lia|].
  destruct (-2147483648 <=? v) eqn:E4; [exists 0xd2, 4%nat; repeat split; auto; lia|].
  exists 0xd3, 8%nat. repeat split; auto; lia.
Qed.

(** ** Reading what was written *)

(** Step through the length guard and the head byte of a read. *)
Ltac read_head H :=
  let Hg := fresh "Hg" in let Hi := fresh "Hi" in
  destruct (holds_at_head _ _ _ _ H) as [Hg Hi]; rewrite Hg, Hi; go_simpl.

(** Cut the payload [p] of length [n] that follows. *)
Ltac read_payload H p n :=
  let Hb := fresh "Hb" in let Hs := fresh "Hs" in let sp := fresh "sp" in
  let H' := fresh "H" in
  pose proof H as H'; rewrite <- (app_nil_r p) in H';
  destruct (holds_at_payload _ _ p [] n H') as [Hb [sp Hs]];
  [by rewrite ?lenZ_be_enc|clear H'; rewrite ?Hb, Hs; go_simpl].

Lemma ReadUint_at s off v :
  0 ≤ v < 2 ^ 64 → holds_at s off (AppendUint [] v) →
  ReadUint s off = Ret (v, off + lenZ (AppendUint [] v), None).
Proof.
  intros Hv H.
  destruct (AppendUint_cases v Hv) as [[Hs E]|(h & n & E & Hr & _ & Hn & Hh & _)];
    rewrite E in *; unfold ReadUint; read_head H.
  - rewrite Get_posfix by lia. rewrite bool_decide_false by (intros []; done). cbn [andb Z.eqb].
    destruct (v <=? 0x7f) eqn:Ev; [|lia].
    read_payload H [v] 1. unfold uintFromBuf. cbn [length].
    rewrite be_dec_single, conv_id; [done|]. unfold in_type. cbn [is_signed bits_of]. lia.
  - apply holds_at_cons in H. rewrite Hh, bool_decide_false by (intros []; done).
    destruct (_ && _) eqn:E0; [unfold int_size in Hn; lia|].
    read_payload H (be_enc n v) (Z.of_nat n).
    rewrite uintFromBuf_enc by done. rewrite lenZ_cons, lenZ_be_enc. do 3 f_equal. lia.
Qed.

Lemma ReadInt_at s off v :
  - 2 ^ 63 ≤ v < 2 ^ 63 → holds_at s off (AppendInt [] v) →
  ReadInt s off = Ret (v, off + lenZ (AppendInt [] v), None).
Proof.
  intros Hv H. destruct (Z.lt_ge_cases v 0) as [Hneg|Hpos].
  - destruct (AppendInt_neg_cases v) as [[Hs E]|(h & n & E & Hr & Hn & Hh)]; [lia| |];
      rewrite E in *; unfold ReadInt; read_head H.
    + rewrite Get_negfix by lia. cbn [andb Z.eqb].
      destruct (0xe0 <=? v + 256) eqn:Ev; [|lia].
      unfold intFromBuf. cbn [length]. rewrite be_dec_single.
      rewrite (swrap_high 8) by lia. replace (v + 256 - 2 ^ 8) with v by lia.
      rewrite conv_id; [done|]. unfold in_type. cbn [is_signed bits_of]. lia.
    + apply holds_at_cons in H. rewrite Hh.
      destruct (_ && _) eqn:E0; [unfold int_size in Hn; lia|].
      read_payload H (be_enc n v) (Z.of_nat n).
      rewrite intFromBuf_enc by (done || lia). rewrite lenZ_cons, lenZ_be_enc. do 3 f_equal. lia.
  - assert (AppendInt [] v = AppendUint [] v) as EA.
    { unfold AppendInt. destruct (0 <=? v) eqn:E0; [|lia]. by rewrite conv_id by (split; cbn; lia). }
    rewrite EA in *.
    destruct (AppendUint_cases v ltac:(lia)) as [[Hs E]|(h & n & E & Hr & _ & Hn & Hh & _)];
      rewrite E in *; unfold ReadInt; read_head H.
    + rewrite Get_posfix by lia. cbn [andb Z.eqb]. destruct (v <=? 0x7f) eqn:Ev; [|lia].
      read_payload H [v] 1. unfold intFromBuf. cbn [length].
      rewrite be_dec_single, (swrap_small 8), conv_id; [done| |lia..].
      unfold in_type. cbn [is_signed bits_of]. lia.
    + apply holds_at_cons in H. rewrite Hh.
      destruct (_ && _) eqn:E0; [unfold int_size in Hn; lia|].
      read_payload H (be_enc n v) (Z.of_nat n).
      rewrite uintFromBuf_enc by done. destruct (2 ^ 63 - 1 <? v) eqn:E1; [lia|].
      rewrite conv_id by (split; cbn [is_signed bits_of]; lia).
      rewrite lenZ_cons, lenZ_be_enc. do 3 f_equal. lia.
Qed.

(** ** What a successful read says about the bytes

    A read of an integer either fails, returning 0 and the offset it was called
    with, or decodes one head byte and the [l] bytes after it. *)

Lemma ReadUint_inv src off :
  is_bytes (live src) → 0 ≤ off →
  ∃ v n e, ReadUint src off = Ret (v, n, e) ∧
    match e with
    | Some _ => v = 0 ∧ n = off
    | None => n ≤ slen src ∧ ∃ c l, is_byte c ∧ Get c = (Uint, l, true) ∧ n = off + 1 + l ∧
        ((l = 0 ∧ v = c) ∨ (l ≠ 0 ∧ 0 ≤ v < 256 ^ l))
    end.
Proof.
  intros Hs Hoff. unfold ReadUint.
  step_guard; [read_fails|]. step_index src off Hs c Hc.
  destruct (Get c) as [[t l] v] eqn:EG.
  destruct (decide (t = Uint)) as [->|Ht]; [|rewrite bool_decide_true by done; read_fails].
  rewrite bool_decide_false by auto.
  destruct (Get_Uint c l v Hc EG) as [-> Hl]. cbn [andb].
  destruct (l =? 0) eqn:El.
  - destruct (c <=? 0x7f) eqn:Ec; [|lia].
    destruct (reslice_index _ _ _ Hidx) as [sp ->]. go_simpl.
    do 3 eexists. split; [reflexivity|]. split; [len_lia|].
    exists c, l. split_and!; [done|done|lia|]. left. split; [lia|].
    unfold uintFromBuf. cbn [length]. rewrite be_dec_single, conv_id; [done|].
    unfold in_type, is_byte in *. cbn [is_signed bits_of]. lia.
  - step_guard; [read_fails|]. step_reslice src (off + 1) l Hs t.
    do 3 eexists. split; [reflexivity|]. split; [len_lia|].
    exists c, l. split_and!; [done|done|done|]. right. split; [lia|].
    rewrite <- Hlen. by apply uintFromBuf_bound.
Qed.

Lemma ReadInt_inv src off :
  is_bytes (live src) → 0 ≤ off →
  ∃ v n e, ReadInt src off = Ret (v, n, e) ∧
    match e with
    | Some _ => v = 0 ∧ n = off
    | None => n ≤ slen src ∧ ∃ c l, is_byte c ∧ n = off + 1 + l ∧
        ((Get c = (Uint, l, true) ∧ ((l = 0 ∧ v = c) ∨ (l ≠ 0 ∧ 0 ≤ v < 256 ^ l ∧ v < 2 ^ 63))) ∨
         (Get c = (Int, l, true) ∧ ((l = 0 ∧ v = c - 256) ∨
            (l ≠ 0 ∧ - 2 ^ (8 * l - 1) ≤ v < 2 ^ (8 * l - 1)))))
    end.
Proof.
  intros Hs Hoff. unfold ReadInt.
  step_guard; [read_fails|]. step_index src off Hs c Hc.
  destruct (Get c) as [[t l] v] eqn:EG. destruct t; try read_fails.
  - destruct (Get_Int c l v Hc EG) as [-> Hl]. cbn [andb].
    destruct (l =? 0) eqn:El.
    + destruct (0xe0 <=? c) eqn:Ec; [|lia]. do 3 eexists. split; [reflexivity|]. split; [len_lia|].
      exists c, l. split_and!; [done|lia|]. right. split; [done|]. left. split; [lia|].
      unfold intFromBuf. cbn [length]. unfold is_byte in Hc.
      rewrite be_dec_single, (swrap_high 8), conv_id; [done| |lia..].
      unfold in_type. cbn [is_signed bits_of]. lia.
    + step_guard; [read_fails|]. step_reslice src (off + 1) l Hs t.
      do 3 eexists. split; [reflexivity|]. split; [len_lia|].
      exists c, l. split_and!; [done|done|]. right. split; [done|]. right. split; [lia|].
      unfold intFromBuf, conv. cbn [is_signed bits_of].
      assert (length (live t) = Z.to_nat l) as -> by (unfold lenZ in Hlen; lia).
      destruct Hl as [?|[[-> _]|[[-> _]|[[-> _]|[-> _]]]]]; [lia|eval_to_nat..].
      all: match goal with |- context [swrap 64 (swrap ?w ?z)] =>
             rewrite (swrap_small 64); pose proof (swrap_range w z ltac:(lia)); [lia..]
           | |- context [swrap ?w ?z] => pose proof (swrap_range w z ltac:(lia)); lia end.
  - destruct (Get_Uint c l v Hc EG) as [-> Hl]. cbn [andb].
    destruct (l =? 0) eqn:El.
    + destruct (c <=? 0x7f) eqn:Ec; [|lia]. destruct (reslice_index _ _ _ Hidx) as [sp ->]. go_simpl.
      do 3 eexists. split; [reflexivity|]. split; [len_lia|].
      exists c, l. split_and!; [done|lia|]. left. split; [done|]. left. split; [lia|].
      unfold intFromBuf. cbn [length]. unfold is_byte in Hc.
      rewrite be_dec_single, (swrap_small 8), conv_id; [done| |lia..].
      unfold in_type. cbn [is_signed bits_of]. lia.
    + step_guard; [read_fails|]. step_reslice src (off + 1) l Hs t.
      step_guard; [read_fails|]. pose proof (uintFromBuf_bound _ Hb) as Hv. rewrite Hlen in Hv.
      do 3 eexists. split; [reflexivity|]. split; [len_lia|].
      exists c, l. split_and!; [done|done|]. left. split; [done|]. right. split; [lia|].
      rewrite conv_id by (unfold in_type; cbn [is_signed bits_of]; lia). lia.
Qed.

Lemma AppendInt_nonneg v : 0 ≤ v < 2 ^ 64 → AppendInt [] v = AppendUint [] v.
Proof.
  intros Hv. unfold AppendInt. destruct (0 <=? v) eqn:E0; [|lia].
  by rewrite conv_id by (unfold in_type; cbn [is_signed bits_of]; lia).
Qed.

(** The head byte of an encoded integer tells its type and its payload. *)
Lemma AppendUint_head v :
  0 ≤ v < 2 ^ 64 →
  ∃ h p, AppendUint [] v = h :: p ∧ is_byte h ∧ Get h = (Uint, lenZ p, true) ∧ lenZ p ≤ 8.
Proof.
  intros Hv. pose proof (is_bytes_AppendUint v) as Hb.
  destruct (AppendUint_cases v Hv) as [[Hs E]|(h & n & E & _ & _ & Hn & HG & _)];
    rewrite E in *; inversion Hb; subst; eexists _, _; split; try reflexivity.
  - split; [done|]. rewrite Get_posfix by lia. by cbn.
  - rewrite lenZ_be_enc. split_and!; [done|done|]. unfold int_size in Hn. lia.
Qed.

Lemma AppendInt_head v :
  - 2 ^ 63 ≤ v < 2 ^ 63 →
  ∃ h p t, AppendInt [] v = h :: p ∧ is_byte h ∧ Get h = (t, lenZ p, true) ∧ lenZ p ≤ 8 ∧
    t = (if v <? 0 then Int else Uint).
Proof.
  intros Hv. destruct (v <? 0) eqn:Ev.
  - pose proof (is_bytes_AppendInt v) as Hb.
    destruct (AppendInt_neg_cases v) as [[Hs E]|(h & n & E & _ & Hn & HG)]; [lia| |];
      rewrite E in *; inversion Hb; subst; eexists _, _, _; (split; [reflexivity|]).
    + split; [done|]. rewrite Get_negfix by lia. by cbn.
    + rewrite lenZ_be_enc. split_and!; [done|done| |done]. unfold int_size in Hn. lia.
  - rewrite AppendInt_nonneg by lia. destruct (AppendUint_head v) as (h & p & E & Hb & HG & Hl); [lia|].
    exists h, p, Uint. done.
Qed.

(** The iterator's decoding of a head byte and its payload. *)
Lemma readIntUnsafe_AppendUint v h p :
  0 ≤ v < 2 ^ 64 → AppendUint [] v = h :: p → readIntUnsafe TUint64 h p = v.
Proof.
  intros Hv E. unfold readIntUnsafe.
  destruct (AppendUint_cases v Hv) as [[Hs E']|(h' & n & E' & Hr & H127 & Hn & Hh & _)];
    rewrite E' in E; injection E as <- <-.
  - rewrite Get_posfix by lia. destruct (v <=? 0x7f) eqn:Ev; [|lia].
    rewrite swrap_small, conv_id; [done| |lia..]. unfold in_type. cbn [is_signed bits_of]. lia.
  - destruct (h' <=? 0x7f) eqn:Eh.
    { rewrite Get_classify in Hh; unfold classify in Hh; [rewrite Eh in Hh; unfold int_size in Hn|].
      - injection Hh. lia.
      - unfold AppendUint in E'. repeat case_match; injection E'; intros; subst; unfold is_byte; lia. }
    rewrite Hh, uintFromBuf_enc by done. apply conv_id. unfold in_type. cbn [is_signed bits_of]. lia.
Qed.

Lemma readIntUnsafe_AppendInt v h p :
  - 2 ^ 63 ≤ v < 2 ^ 63 → AppendInt [] v = h :: p → readIntUnsafe TInt64 h p = v.
Proof.
  intros Hv. assert (in_type TInt64 v) as Ht by (unfold in_type; cbn [is_signed bits_of]; lia).
  destruct (Z.lt_ge_cases v 0) as [Hneg|Hpos]; intros E; unfold readIntUnsafe.
  - destruct (AppendInt_neg_cases v) as [[Hs E']|(h' & n & E' & Hr & Hn & Hh)]; [lia| |];
      rewrite E' in E; injection E as <- <-.
    + rewrite Get_negfix by lia. destruct (0xe0 <=? v + 256) eqn:Ev; [|lia].
      rewrite (swrap_high 8) by lia. replace (v + 256 - 2 ^ 8) with v by lia. by apply conv_id.
    + assert (is_byte h' ∧ h' < 0xe0) as [_ Hlt].
      { unfold AppendInt in E'. repeat case_match; try lia; injection E'; intros; subst;
          split; unfold is_byte; try lia. }
      rewrite Hh. destruct (0xe0 <=? h') eqn:Eh; [lia|].
      rewrite intFromBuf_enc by (done || lia). by apply conv_id.
  - rewrite AppendInt_nonneg in E by lia.
    destruct (AppendUint_cases v ltac:(lia)) as [[Hs E']|(h' & n & E' & Hr & H127 & Hn & Hh & _)];
      rewrite E' in E; injection E as <- <-.
    + rewrite Get_posfix by lia. destruct (v <=? 0x7f) eqn:Ev; [|lia].
      rewrite swrap_small by lia. by apply conv_id.
    + assert (0x7f < h') as Hlt.
      { unfold AppendUint in E'. repeat case_match; try lia; injection E'; intros; subst; lia. }
      rewrite Hh. destruct (h' <=? 0x7f) eqn:Eh; [lia|].
      rewrite uintFromBuf_enc by done. by apply conv_id.
Qed.

(** ** Properties *)

(** C24: A signed integer of any magnitude that [AppendInt] appends to a buffer is
    read back by [ReadInt] at its offset, whatever follows it, and the new
    offset is the end of the encoding. *)
Theorem ReadInt_AppendInt dst v rest sp :
  - 2 ^ 63 ≤ v < 2 ^ 63 →
  ReadInt (mkSlice (AppendInt dst v ++ rest) sp) (lenZ dst) =
    Ret (v, lenZ (AppendInt dst v), None).
Proof.
  intros Hv. rewrite (lenZ_appender AppendInt). apply ReadInt_at; [done|].
  eapply holds_at_app_l, holds_at_appender. apply _.
Qed.

Lemma ReadInt_AppendInt_witness :
  ReadInt (mkSlice (AppendInt [7; 8] (-40000) ++ [1]) [9]) 2 = Ret (-40000, 7, None).
Proof. apply (ReadInt_AppendInt [7; 8] (-40000) [1] [9]). lia. Defined.

(** An unsigned integer that [AppendUint] appends to a buffer is read back by
    [ReadUint] at its offset, over the whole range of uint64. *)
Theorem ReadUint_AppendUint dst v rest sp :
  0 ≤ v < 2 ^ 64 →
  ReadUint (mkSlice (AppendUint dst v ++ rest) sp) (lenZ dst) =
    Ret (v, lenZ (AppendUint dst v), None).
Proof.
  intros Hv. rewrite (lenZ_appender AppendUint). apply ReadUint_at; [done|].
  eapply holds_at_app_l, holds_at_appender. apply _.
Qed.

Lemma ReadUint_AppendUint_witness :
  ReadUint (mkSlice (AppendUint [] (2 ^ 64 - 1) ++ [1]) []) 0 = Ret (2 ^ 64 - 1, 9, None).
Proof. apply (ReadUint_AppendUint [] (2 ^ 64 - 1) [1] []). lia. Defined.

(** C31: [AppendInt] uses the most compact representation: no bytes that [ReadInt]
    decodes to a value are shorter than what [AppendInt] writes for that value. *)
Theorem AppendInt_shortest src off v n :
  is_bytes (live src) → 0 ≤ off → ReadInt src off = Ret (v, n, None) →
  lenZ (AppendInt [] v) ≤ n - off.
Proof.
  intros Hs Hoff E. destruct (ReadInt_inv src off Hs Hoff) as (v' & n' & e & E' & H).
  rewrite E in E'. injection E' as <- <- <-. destruct H as (_ & c & l & Hc & -> & H).
  unfold is_byte in Hc.
  destruct H as [[HG H]|[HG H]].
  - destruct (Get_Uint c l true Hc HG) as [_ Hl].
    assert (0 ≤ v < 2 ^ 63) by lia. unfold AppendInt. destruct (0 <=? v) eqn:E0; [|lia].
    rewrite conv_id by (unfold in_type; cbn [is_signed bits_of]; lia).
    unfold AppendUint. cbn [app].
    destruct Hl as [[-> ?]|[[-> ?]|[[-> ?]|[[-> ?]|[-> ?]]]]]; repeat case_match; len_lia.
  - destruct (Get_Int c l true Hc HG) as [_ Hl].
    unfold AppendInt, AppendUint, conv, uwrap; cbn [is_signed bits_of app].
    destruct Hl as [[-> ?]|[[-> ?]|[[-> ?]|[[-> ?]|[-> ?]]]]];
      (destruct (0 <=? v) eqn:E0; [rewrite Z.mod_small by lia|]); repeat case_match; len_lia.
Qed.

Lemma AppendInt_shortest_witness :
  ReadInt (sl [0xd3; 0; 0; 0; 0; 0; 0; 1; 0]) 0 = Ret (256, 9, None) ∧
  lenZ (AppendInt [] 256) ≤ 9 - 0.
Proof.
  split; [vm_compute; reflexivity|].
  apply (AppendInt_shortest (sl [0xd3; 0; 0; 0; 0; 0; 0; 1; 0]) 0 256 9).
  - repeat constructor; lia.
  - lia.
  - vm_compute. reflexivity.
Defined.

(** On any bytes and any offset that is not negative [ReadInt] returns without a
    panic: either an error with the value 0 and the offset unchanged, or a value
    in the range of int64 with an offset after the head byte and inside the
    slice.  A uint64 above [math.MaxInt64] is one of the errors. *)
Theorem ReadInt_total src off :
  is_bytes (live src) → 0 ≤ off →
  ∃ v n e, ReadInt src off = Ret (v, n, e) ∧
    match e with
    | Some _ => v = 0 ∧ n = off
    | None => off < n ≤ slen src ∧ - 2 ^ 63 ≤ v < 2 ^ 63
    end.
Proof.
  intros Hs Hoff. destruct (ReadInt_inv src off Hs Hoff) as (v & n & e & E & H).
  do 3 eexists. split; [exact E|]. destruct e; [done|].
  destruct H as (Hn & c & l & Hc & -> & H). unfold is_byte in Hc.
  destruct H as [[HG H]|[HG H]].
  - destruct (Get_Uint c l true Hc HG) as [_ Hl]. lia.
  - destruct (Get_Int c l true Hc HG) as [_ Hl].
    destruct H as [H|(Hne & H)]; [lia|].
    assert (2 ^ (8 * l - 1) ≤ 2 ^ 63) by (apply Z.pow_le_mono_r; lia). lia.
Qed.

Lemma ReadInt_total_witness :
  ∃ v n e, ReadInt (sl [0xcf; 0x80; 0; 0; 0; 0; 0; 0; 0]) 0 = Ret (v, n, e) ∧
    match e with
    | Some _ => v = 0 ∧ n = 0
    | None => 0 < n ≤ 9 ∧ - 2 ^ 63 ≤ v < 2 ^ 63
    end.
Proof.
  apply (ReadInt_total (sl [0xcf; 0x80; 0; 0; 0; 0; 0; 0; 0]) 0); [|lia].
  repeat constructor; lia.
Defined.
