(* ===== verification/Headers.v ===== *)
(** * Headers: arrays, maps, booleans and nil
    (pkg/msgpack/array.go, map.go, boolean.go, nil.go)

    [length_header] is the shape that every header with a length has; the round
    trips of arrays, maps, strings, binaries and the iterator go through it. *)

From S2P Require Import Prelude Types Errors Integer.

(** ** array.go, map.go *)

Definition AppendArrayHeader (dst : list Z) (n : Z) : list Z :=
  if n <=? 15 then dst ++ [Z.lor 0x90 (u8 n)]
  else if n <=? 0xFFFF then dst ++ 0xdc :: be_enc 2 n
  else dst ++ 0xdd :: be_enc 4 n.

Definition AppendMapHeader (dst : list Z) (n : Z) : list Z :=
  if n <=? 15 then dst ++ [Z.lor 0x80 (u8 n)]
  else if n <=? 0xFFFF then dst ++ 0xde :: be_enc 2 n
  else dst ++ 0xdf :: be_enc 4 n.

Definition ReadArrayHeader (src : Slice) (offset : Z) : go (Z * Z * option error) :=
  if slen src <=? offset then Ret (0, 0, Some ErrShortBuffer) else
  c ← index src offset;
  let '(typ, length, isValueLength) := Get c in
  if bool_decide (typ ≠ Array) then Ret (length, 0, Some (expectedType c Array)) else
  let offset := offset + 1 in
  if negb isValueLength then
    if slen src <? offset + length then Ret (0, offset, Some ErrShortBuffer) else
    let l := length in
    buf ← reslice src offset (offset + l);
    Ret (intFromBuf TInt (live buf), offset + l, None)
  else Ret (length, offset, None).

Definition ReadMapHeader (src : Slice) (offset : Z) : go (Z * Z * option error) :=
  if slen src <=? offset then Ret (0, 0, Some ErrShortBuffer) else
  c ← index src offset;
  let '(typ, length, isValueLength) := Get c in
  if bool_decide (typ ≠ Map) then Ret (length, 0, Some (expectedType c Map)) else
  let offset := offset + 1 in
  if negb isValueLength then
    if slen src <? offset + length then Ret (0, offset, Some ErrShortBuffer) else
    let l := length in
    buf ← reslice src offset (offset + l);
    Ret (intFromBuf TInt (live buf), offset + l, None)
  else Ret (length, offset, None).

(** ** boolean.go, nil.go *)

Definition AppendBool (dst : list Z) (b : bool) : list Z :=
  if b then dst ++ [0xc3] else dst ++ [0xc2].

Definition ReadBool (src : Slice) (offset : Z) : go (bool * Z * option error) :=
  if slen src <=? offset then Ret (false, offset, Some ErrShortBuffer) else
  b ← index src offset;
  let offset := offset + 1 in
  if b =? 0xc2 then Ret (false, offset, None)
  else if b =? 0xc3 then Ret (true, offset, None)
  else Ret (false, offset, Some (expectedType b Bool)).

Definition readBoolUnsafe (c : Z) : bool := c =? 0xc3.

Definition AppendNil (dst : list Z) : list Z := dst ++ [0xc0].

Definition ReadNil (src : Slice) (offset : Z) : go (Z * option error) :=
  if slen src <=? offset then Ret (offset, Some ErrShortBuffer) else
  c ← index src offset;
  if negb (c =? 0xc0) then Ret (offset, Some (Errorf "expected nil (0xc0), got 0x%02x" [FNum c]))
  else Ret (offset + 1, None).

(** ** Headers with a length *)

(** [hd] is a header of type [t] that carries the length [l]: one byte that
    holds it, or a byte and 1, 2 or 4 bytes of length. *)
Definition length_header (t : type) (hd : list Z) (l : Z) : Prop :=
  (∃ c, hd = [c] ∧ is_byte c ∧ Get c = (t, l, true)) ∨
  (∃ h n, hd = h :: be_enc n l ∧ is_byte h ∧ Get h = (t, Z.of_nat n, false) ∧
          (n = 1 ∨ n = 2 ∨ n = 4)%nat ∧ 0 ≤ l < 2 ^ (8 * Z.of_nat n)).

(** The length that a reader gets which sign-extends the length bytes, as the
    readers built on [intFromBuf[int]] do. *)
Definition signed_length (hd : list Z) (l : Z) : Z :=
  match length hd with
  | 2%nat => swrap 8 l
  | 3%nat => swrap 16 l
  | 5%nat => swrap 32 l
  | _ => l
  end.

Lemma length_header_is_bytes t hd l : length_header t hd l → is_bytes hd.
Proof.
  intros [(c & -> & Hc & _)|(h & n & -> & Hh & _)]; auto with bytes.
Qed.

Lemma length_header_pos t hd l : length_header t hd l → 1 ≤ lenZ hd ≤ 5.
Proof. intros [(c & -> & _)|(h & n & -> & _ & _ & Hn & _)]; len_lia. Qed.

Lemma intFromBuf_length n l :
  (n = 1 ∨ n = 2 ∨ n = 4)%nat → 0 ≤ l < 2 ^ (8 * Z.of_nat n) →
  ∀ h, intFromBuf TInt (be_enc n l) = signed_length (h :: be_enc n l) l.
Proof.
  intros Hn Hl h. unfold intFromBuf, signed_length. cbn [length]. rewrite length_be_enc, be_dec_enc.
  rewrite uwrap_small by done. unfold conv; cbn [is_signed bits_of].
  destruct Hn as [->|[->| ->]]; cbv iota;
    match goal with |- swrap 64 (swrap ?w ?z) = _ =>
      pose proof (swrap_range w z ltac:(lia)); rewrite (swrap_small 64); lia end.
Qed.

Lemma uintFromBuf_length n l :
  (n = 1 ∨ n = 2 ∨ n = 4)%nat → 0 ≤ l < 2 ^ (8 * Z.of_nat n) →
  uintFromBuf TUint (be_enc n l) = l.
Proof.
  intros Hn Hl. unfold uintFromBuf. rewrite length_be_enc, be_dec_enc.
  rewrite uwrap_small by done. unfold conv; cbn [is_signed bits_of].
  destruct Hn as [->|[->| ->]]; cbv iota; apply uwrap_small; lia.
Qed.

(** The lengths on which sign extension changes nothing. *)
Definition sign_safe (hd : list Z) (l : Z) : Prop :=
  match length hd with
  | 2%nat => l < 2 ^ 7
  | 3%nat => l < 2 ^ 15
  | 5%nat => l < 2 ^ 31
  | _ => True
  end.

#[export] Instance sign_safe_dec hd l : Decision (sign_safe hd l).
Proof. unfold sign_safe. repeat case_match; apply _. Defined.

Lemma signed_length_safe t hd l :
  length_header t hd l → sign_safe hd l → signed_length hd l = l.
Proof.
  intros [(c & -> & _)|(h & n & -> & _ & _ & Hn & Hl)] Hs; [done|].
  unfold sign_safe, signed_length in *. cbn [length] in *. rewrite length_be_enc in *.
  destruct Hn as [->|[->| ->]]; apply swrap_small; lia.
Qed.

(** On the other lengths the sign-extended length is negative. *)
Lemma signed_length_unsafe t hd l :
  length_header t hd l → ¬ sign_safe hd l → signed_length hd l < 0 ∧ 2 ≤ lenZ hd.
Proof.
  intros [(c & -> & _)|(h & n & -> & _ & _ & Hn & Hl)] Hs; [by destruct Hs|].
  unfold sign_safe, signed_length in *. cbn [length] in *. rewrite length_be_enc in *.
  rewrite lenZ_cons, lenZ_be_enc.
  destruct Hn as [->|[->| ->]]; (split; [|lia]); rewrite swrap_high by lia; lia.
Qed.

(** A fixed tag or-ed with a small number. *)
Lemma lor_fix tag n k :
  0 ≤ k ≤ 8 → tag mod 2 ^ k = 0 → 0 ≤ n < 2 ^ k → Z.lor tag (u8 n) = tag + n.
Proof.
  intros Hk Ht Hn. assert (2 ^ k ≤ 2 ^ 8) by (apply Z.pow_le_mono_r; lia).
  rewrite uwrap_small by lia. apply (lor_add_disjoint _ _ k); [lia|done|lia].
Qed.

#[export] Instance AppendArrayHeader_appender : Appender AppendArrayHeader.
Proof. solve_appender AppendArrayHeader. Qed.
#[export] Instance AppendMapHeader_appender : Appender AppendMapHeader.
Proof. solve_appender AppendMapHeader. Qed.
#[export] Instance AppendBool_appender : Appender AppendBool.
Proof. solve_appender AppendBool. Qed.

(** The two-or-four byte branches of a header. *)
Ltac long_header h n :=
  right; exists h, n; split_and!; [done|unfold is_byte; lia|reflexivity|lia|lia|lia].

Lemma AppendArrayHeader_header n :
  0 ≤ n < 2 ^ 32 → length_header Array (AppendArrayHeader [] n) n.
Proof.
  intros Hn. unfold AppendArrayHeader, length_header. cbn [app].
  destruct (n <=? 15) eqn:E1.
  - left. exists (0x90 + n). rewrite (lor_fix _ _ 4) by (reflexivity || lia).
    rewrite Get_fixarray by lia. split_and!; [done|unfold is_byte; lia..|].
    do 2 f_equal. lia.
  - destruct (n <=? 0xFFFF) eqn:E2; [long_header 0xdc 2%nat|long_header 0xdd 4%nat].
Qed.

Lemma AppendMapHeader_header n :
  0 ≤ n < 2 ^ 32 → length_header Map (AppendMapHeader [] n) n.
Proof.
  intros Hn. unfold AppendMapHeader, length_header. cbn [app].
  destruct (n <=? 15) eqn:E1.
  - left. exists (0x80 + n). rewrite (lor_fix _ _ 4) by (reflexivity || lia).
    rewrite Get_fixmap by lia. split_and!; [done|unfold is_byte; lia..|].
    do 2 f_equal. lia.
  - destruct (n <=? 0xFFFF) eqn:E2; [long_header 0xde 2%nat|long_header 0xdf 4%nat].
Qed.

(** A reader of array or map headers decodes the length with a sign. *)
Lemma ReadArrayHeader_at s off hd n :
  length_header Array hd n → holds_at s off hd →
  ReadArrayHeader s off = Ret (signed_length hd n, off + lenZ hd, None).
Proof.
  intros [(c & -> & Hc & HG)|(h & k & -> & Hh & HG & Hk & Hl)] H; unfold ReadArrayHeader;
    read_head H; rewrite HG, bool_decide_false by (intros []; done); cbn [negb]; [done|].
  apply holds_at_cons in H. read_payload H (be_enc k n) (Z.of_nat k).
  rewrite lenZ_cons, lenZ_be_enc, (intFromBuf_length k n Hk Hl h).
  do 3 f_equal. lia.
Qed.

Lemma ReadMapHeader_at s off hd n :
  length_header Map hd n → holds_at s off hd →
  ReadMapHeader s off = Ret (signed_length hd n, off + lenZ hd, None).
Proof.
  intros [(c & -> & Hc & HG)|(h & k & -> & Hh & HG & Hk & Hl)] H; unfold ReadMapHeader;
    read_head H; rewrite HG, bool_decide_false by (intros []; done); cbn [negb]; [done|].
  apply holds_at_cons in H. read_payload H (be_enc k n) (Z.of_nat k).
  rewrite lenZ_cons, lenZ_be_enc, (intFromBuf_length k n Hk Hl h).
  do 3 f_equal. lia.
Qed.

(** The length that [ReadArrayHeader] and [ReadMapHeader] return for [n] items. *)
Definition items_read (n : Z) : Z :=
  if (2 ^ 15 <=? n) && (n <? 2 ^ 16) then n - 2 ^ 16
  else if 2 ^ 31 <=? n then n - 2 ^ 32
  else n.

Lemma signed_length_items n hd :
  0 ≤ n < 2 ^ 32 → lenZ hd = (if n <=? 15 then 1 else if n <=? 0xFFFF then 3 else 5) →
  signed_length hd n = items_read n.
Proof.
  intros Hn E. unfold signed_length, items_read.
  destruct (n <=? 15) eqn:E1; [|destruct (n <=? 0xFFFF) eqn:E2].
  - assert (length hd = 1%nat) as -> by (unfold lenZ in E; lia). repeat case_match; lia.
  - assert (length hd = 3%nat) as -> by (unfold lenZ in E; lia).
    destruct (_ && _) eqn:E3; [apply swrap_high; lia|].
    rewrite swrap_small by lia. case_match; lia.
  - assert (length hd = 5%nat) as -> by (unfold lenZ in E; lia).
    destruct (_ && _) eqn:E3; [lia|].
    destruct (2 ^ 31 <=? n) eqn:E4; [apply swrap_high; lia|apply swrap_small; lia].
Qed.

(** ** Properties *)

(** An array or map header for up to [2^32 - 1] items is read back at its
    offset with the offset after it; the item count is the one written, except
    that a 16-bit count of 32768 or more and a 32-bit count of [2^31] or more
    come back negative, since the readers decode the count as a signed number. *)
Theorem ReadHeader_AppendHeader dst n rest sp :
  0 ≤ n < 2 ^ 32 →
  ReadArrayHeader (mkSlice (AppendArrayHeader dst n ++ rest) sp) (lenZ dst) =
    Ret (items_read n, lenZ (AppendArrayHeader dst n), None) ∧
  ReadMapHeader (mkSlice (AppendMapHeader dst n ++ rest) sp) (lenZ dst) =
    Ret (items_read n, lenZ (AppendMapHeader dst n), None).
Proof.
  intros Hn. split.
  - rewrite (lenZ_appender AppendArrayHeader).
    rewrite <- (signed_length_items n (AppendArrayHeader [] n)); [|done|].
    + apply ReadArrayHeader_at; [by apply AppendArrayHeader_header|].
      eapply holds_at_app_l, holds_at_appender. apply _.
    + unfold AppendArrayHeader. repeat case_match; reflexivity.
  - rewrite (lenZ_appender AppendMapHeader).
    rewrite <- (signed_length_items n (AppendMapHeader [] n)); [|done|].
    + apply ReadMapHeader_at; [by apply AppendMapHeader_header|].
      eapply holds_at_app_l, holds_at_appender. apply _.
    + unfold AppendMapHeader. repeat case_match; reflexivity.
Qed.

Lemma ReadHeader_AppendHeader_witness :
  ReadArrayHeader (mkSlice (AppendArrayHeader [1] 40000 ++ [2]) []) 1 = Ret (-25536, 4, None) ∧
  ReadMapHeader (mkSlice (AppendMapHeader [1] 40000 ++ [2]) []) 1 = Ret (-25536, 4, None).
Proof. apply (ReadHeader_AppendHeader [1] 40000 [2] []). lia. Defined.

(** The booleans and nil round-trip at any offset, and on any byte [ReadBool]
    accepts exactly the two boolean bytes. *)
Theorem ReadBool_spec src off :
  is_bytes (live src) → 0 ≤ off < slen src →
  ∃ b n e, ReadBool src off = Ret (b, n, e) ∧ n = off + 1 ∧
    match e with
    | None => holds_at src off (AppendBool [] b)
    | Some e => Is e SInvalidHeaderByte = true ∧ b = false ∧
                ¬ holds_at src off [0xc2] ∧ ¬ holds_at src off [0xc3]
    end.
Proof.
  intros Hs Hoff. unfold ReadBool. step_guard; [lia|].
  destruct (index_in_range src off Hoff) as (c & E & Hc). rewrite E. go_simpl.
  assert (holds_at src off [c]) as Hat.
  { exists (take (Z.to_nat off) (live src)), (drop (S (Z.to_nat off)) (live src)).
    split; [symmetry; by apply take_drop_middle|].
    unfold slen, lenZ in *. rewrite length_take. lia. }
  destruct (c =? 0xc2) eqn:E2; [replace c with 0xc2 in Hat by lia; by eauto 10|].
  destruct (c =? 0xc3) eqn:E3; [replace c with 0xc3 in Hat by lia; by eauto 10|].
  do 3 eexists. split; [reflexivity|]. split_and!; try done;
    intros H%index_at; rewrite E in H; injection H; lia.
Qed.

Lemma ReadBool_spec_witness :
  ∃ b n e, ReadBool (sl [0xc0; 0xc3]) 1 = Ret (b, n, e) ∧ n = 1 + 1 ∧
    match e with
    | None => holds_at (sl [0xc0; 0xc3]) 1 (AppendBool [] b)
    | Some e => Is e SInvalidHeaderByte = true ∧ b = false ∧
                ¬ holds_at (sl [0xc0; 0xc3]) 1 [0xc2] ∧ ¬ holds_at (sl [0xc0; 0xc3]) 1 [0xc3]
    end.
Proof.
  apply (ReadBool_spec (sl [0xc0; 0xc3]) 1); [repeat constructor; lia|].
  vm_compute. split; [discriminate|reflexivity].
Defined.
