(* ===== verification/Rounding.v ===== *)
(** * Rounding: the next power of two (the end of pkg/msgpack/utils.go)

    [roundPow] copies the highest set bit to the right in five steps, which reach 31
    bits: enough for 32-bit numbers, while [int] has 64 bits. *)

From S2P Require Import Prelude.

Definition spread (n s : Z) : Z := Z.lor n (Z.shiftr n s).

Definition roundPow (n : Z) : Z :=
  if n <=? 1 then 1 else
  let n := conv TInt (n - 1) in
  let n := spread n 1 in
  let n := spread n 2 in
  let n := spread n 4 in
  let n := spread n 8 in
  let n := spread n 16 in
  conv TInt (n + 1).

(** The bits of [m] are those of [n] copied up to [k - 1] places to the right. *)
Definition smeared (n m k : Z) : Prop :=
  ∀ i, 0 ≤ i → Z.testbit m i = true ↔ ∃ d, 0 ≤ d < k ∧ Z.testbit n (i + d) = true.

Lemma smeared_spread n m k : 0 ≤ k → smeared n m k → smeared n (spread m k) (2 * k).
Proof.
  intros Hk H i Hi. unfold spread. rewrite Z.lor_spec, Z.shiftr_spec, orb_true_iff by done.
  rewrite (H i Hi), (H (i + k) ltac:(lia)). split.
  - intros [(d & Hd & E)|(d & Hd & E)].
    + exists d. split; [lia|done].
    + exists (k + d). split; [lia|]. by replace (i + (k + d)) with (i + k + d) by lia.
  - intros (d & Hd & E). destruct (Z.lt_ge_cases d k); [left; exists d; split; [lia|done]|right].
    exists (d - k). split; [lia|]. by replace (i + k + (d - k)) with (i + d) by lia.
Qed.

(** Enough copies fill every bit below the highest one. *)
Lemma smeared_ones n m k : 0 < n → 0 ≤ m → Z.log2 n < k → smeared n m k → m = Z.ones (Z.log2 n + 1).
Proof.
  intros Hn Hm Hk H. pose proof (Z.log2_nonneg n). apply Z.bits_inj'. intros i Hi.
  destruct (Z.lt_ge_cases i (Z.log2 n + 1)).
  - rewrite Z.ones_spec_low by lia. apply (H i Hi). exists (Z.log2 n - i). split; [lia|].
    replace (i + (Z.log2 n - i)) with (Z.log2 n) by lia. by apply Z.bit_log2.
  - rewrite Z.ones_spec_high by lia. apply not_true_iff_false. rewrite (H i Hi). intros (d & Hd & E).
    rewrite Z.bits_above_log2 in E by lia. done.
Qed.

Lemma spread_nonneg n s : 0 ≤ n → 0 ≤ spread n s.
Proof. intros. apply Z.lor_nonneg. split; [done|]. by apply Z.shiftr_nonneg. Qed.

(** [roundPow] gives the least power of two that is not below a number of up to
    [2^32], and one for what is not positive. *)
Theorem roundPow_next_power n :
  n ≤ 2 ^ 32 →
  ∃ k, 0 ≤ k ∧ roundPow n = 2 ^ k ∧ n ≤ 2 ^ k ∧ ∀ j, 0 ≤ j → n ≤ 2 ^ j → k ≤ j.
Proof.
  intros Hn. unfold roundPow. destruct (Z.leb_spec n 1) as [H1|H1].
  { exists 0. split_and!; [lia|done|lia|]. intros j Hj _. lia. }
  rewrite (conv_id TInt (n - 1)) by (unfold in_type; cbn [is_signed bits_of]; lia).
  set (m := spread _ 16). pose proof (Z.log2_nonneg (n - 1)).
  assert (Z.log2 (n - 1) < 32) as Hlog by (apply Z.log2_lt_pow2; lia).
  assert (m = Z.ones (Z.log2 (n - 1) + 1)) as ->.
  { apply (smeared_ones _ _ 32); [lia|repeat apply spread_nonneg; lia|done|].
    unfold m. apply (smeared_spread _ _ 16); [lia|]. apply (smeared_spread _ _ 8); [lia|].
    apply (smeared_spread _ _ 4); [lia|]. apply (smeared_spread _ _ 2); [lia|]. apply (smeared_spread _ _ 1); [lia|].
    intros i Hi. split; [intros E; exists 0; by rewrite Z.add_0_r|].
    intros (d & Hd & E). by replace (i + d) with i in E by lia. }
  exists (Z.log2 (n - 1) + 1). rewrite Z.ones_equiv, <- Z.sub_1_r, Z.sub_add.
  destruct (Z.log2_spec (n - 1)) as [Hl Hu]; [lia|].
  assert (2 ^ (Z.log2 (n - 1) + 1) ≤ 2 ^ 32) by (apply Z.pow_le_mono_r; lia).
  split_and!; [lia| |rewrite Z.add_1_r; lia|].
  - apply conv_id. unfold in_type. cbn [is_signed bits_of].
    assert (0 < 2 ^ (Z.log2 (n - 1) + 1)) by (apply Z.pow_pos_nonneg; lia). lia.
  - intros j Hj Hle.
    assert (Z.log2 (n - 1) < j); [|lia]. apply Z.log2_lt_pow2; lia.
Qed.

Lemma roundPow_next_power_witness :
  ∃ k, 0 ≤ k ∧ roundPow 4097 = 2 ^ k ∧ 4097 ≤ 2 ^ k ∧ ∀ j, 0 ≤ j → 4097 ≤ 2 ^ j → k ≤ j.
Proof. apply (roundPow_next_power 4097). by apply Z.leb_le. Defined.

(** Above [2^32] five steps are too few. *)
Example roundPow_too_far : roundPow (2 ^ 33 + 1) ≠ 2 ^ 34.
Proof. by vm_compute. Qed.
