(* ===== verification/Str.v ===== *)
(** * Str: strings and binary (pkg/msgpack/string.go, pkg/msgpack/binary.go)

    The append functions choose the header by the length; the unknown-length
    ones reserve a header, let a function append the contents and patch the
    header.  [ReadString] and [ReadBinary] call each other on the other's type,
    so they are fuelled and run with two units, which [ReadString_fuel_2] shows
    to be all they can use.

    A Go string is the list of its bytes, so [fast.BytesToString] and
    [fast.StringToBytes], which reinterpret memory, leave the contents alone. *)

From S2P Require Import Prelude Types Errors Integer Headers.

(** ** Append functions of known length *)

Definition AppendString (dst s : list Z) : list Z :=
  let l := lenZ s in
  (if l <=? 31 then dst ++ [Z.lor 0xa0 (u8 l)]
   else if l <=? 0xFF then dst ++ [0xd9; u8 l]
   else if l <=? 0xFFFF then dst ++ 0xda :: be_enc 2 l
   else dst ++ 0xdb :: be_enc 4 l) ++ s.

Definition appendBinaryHeader (dst : list Z) (l : Z) : list Z :=
  if l <=? 0xFF then dst ++ [0xc4; u8 l]
  else if l <=? 0xFFFF then dst ++ 0xc5 :: be_enc 2 l
  else dst ++ 0xc6 :: be_enc 4 l.

Definition AppendBinary (dst data : list Z) : list Z :=
  appendBinaryHeader dst (lenZ data) ++ data.

(** ** Append functions of unknown length *)

(** Patch [dst[i], dst[i+1], ...] with the bytes [bs]. *)
Fixpoint patch (dst : list Z) (i : Z) (bs : list Z) : go (list Z) :=
  match bs with
  | [] => Ret dst
  | b :: bs => dst ← set_index dst i b; patch dst (i + 1) bs
  end.

Definition AppendStringUnknownLength (dst : list Z) (fn : list Z → list Z) : go (list Z) :=
  let start := lenZ dst in
  let dst := dst ++ [0xdb; 0; 0; 0; 0] in
  let sizeFrom := lenZ dst in
  let dst := fn dst in
  let sizeTo := lenZ dst in
  let l := sizeTo - sizeFrom in
  patch dst (start + 1) (be_enc 4 l).

Definition AppendBinaryUnknownLength (dst : list Z) (fn : list Z → list Z) : go (list Z) :=
  let start := lenZ dst in
  let dst := dst ++ [0xc6; 0; 0; 0; 0] in
  let sizeFrom := lenZ dst in
  let dst := fn dst in
  let sizeTo := lenZ dst in
  let l := sizeTo - sizeFrom in
  patch dst (start + 1) (be_enc 4 l).

(** [encoding.TextAppender] and [encoding.BinaryAppender]: the error is dropped. *)
Definition AppendTextAppender (dst : list Z) (s : list Z → list Z * option error) : go (list Z) :=
  AppendStringUnknownLength dst (λ dst, fst (s dst)).

Definition AppendBinaryAppender (dst : list Z) (s : list Z → list Z * option error) : go (list Z) :=
  AppendBinaryUnknownLength dst (λ dst, fst (s dst)).

(** [copy(dst[to:], dst[from:])] for [to <= from]: the bytes move left. *)
Definition copy_left (dst : list Z) (to from : Z) : go (list Z) :=
  if (0 <=? to) && (to <=? from) && (from <=? lenZ dst) then
    let moved := drop (Z.to_nat from) dst in
    Ret (take (Z.to_nat to) dst ++ moved ++ drop (Z.to_nat to + length moved) dst)
  else Panic SliceOutOfRange.

Definition AppendStringDynamic (dst : list Z) (fn : list Z → list Z) : go (list Z) :=
  let start := lenZ dst in
  let dst := dst ++ [0xdb; 0; 0; 0; 0] in
  let sizeFrom := lenZ dst in
  let dst := fn dst in
  let sizeTo := lenZ dst in
  let l := sizeTo - sizeFrom in
  let headerLen := if l <=? 31 then 1 else if l <=? 255 then 2 else if l <=? 65535 then 3 else 5 in
  let shift := 5 - headerLen in
  dst ← (if 0 <? shift then
           dst ← copy_left dst (start + headerLen) (start + 5);
           s ← reslice (sl dst) 0 (sizeTo - shift);
           Ret (live s)
         else Ret dst);
  if headerLen =? 1 then set_index dst start (Z.lor 0xa0 (u8 l))
  else if headerLen =? 2 then patch dst start [0xd9; u8 l]
  else if headerLen =? 3 then patch dst start (0xda :: be_enc 2 l)
  else patch dst start (0xdb :: be_enc 4 l).

Definition AppendStringMax255 (dst : list Z) (fn : list Z → list Z) : go (list Z) :=
  let start := lenZ dst in
  let dst := dst ++ [0xd9; 0] in
  let sizeFrom := lenZ dst in
  let dst := fn dst in
  let sizeTo := lenZ dst in
  let l := sizeTo - sizeFrom in
  '(l, dst) ← (if 255 <? l then
                 s ← reslice (sl dst) 0 (sizeFrom + 255); Ret (255, live s)
               else Ret (l, dst));
  set_index dst (start + 1) (u8 l).

(** ** Reading *)

Fixpoint ReadString_fuel (fuel : nat) (src : Slice) (offset : Z) : go (list Z * Z * option error) :=
  match fuel with
  | O => Panic OutOfFuel
  | S fuel =>
    if slen src <=? offset then Ret ([], 0, Some ErrShortBuffer) else
    c ← index src offset;
    let '(typ, length, isValueLength) := Get c in
    if bool_decide (typ = Bin) then
      '(v, newOffset, err) ← ReadBinary_fuel fuel src offset; Ret (live v, newOffset, err)
    else if bool_decide (typ ≠ Str) then Ret ([], 0, Some (expectedType c Str)) else
    let offset := offset + 1 in
    let read length offset :=
      if slen src <? offset + length then Ret ([], 0, Some ErrShortBuffer) else
      s ← reslice src offset (offset + length);
      Ret (live s, offset + length, None) in
    if negb isValueLength then
      let l := length in
      if slen src <? offset + l then Ret ([], 0, Some ErrShortBuffer) else
      buf ← reslice src offset (offset + l);
      let uintLength := uintFromBuf TUint (live buf) in
      if 2 ^ 63 - 1 <? uintLength then
        Ret ([], 0, Some (Errorf "string length %d exceeds max int" [FNum uintLength]))
      else read (conv TInt uintLength) (offset + l)
    else read length offset
  end
with ReadBinary_fuel (fuel : nat) (src : Slice) (offset : Z) : go (Slice * Z * option error) :=
  match fuel with
  | O => Panic OutOfFuel
  | S fuel =>
    if slen src <=? offset then Ret (sl [], offset, Some ErrShortBuffer) else
    c ← index src offset;
    let '(typ, length, isValueLength) := Get c in
    if bool_decide (typ = Str) then
      '(v, newOffset, err) ← ReadString_fuel fuel src offset; Ret (sl v, newOffset, err)
    else if bool_decide (typ ≠ Bin) then Ret (sl [], 0, Some (expectedType c Bin)) else
    let offset := offset + 1 in
    let read length offset :=
      if slen src <? offset + length then Ret (sl [], offset, Some ErrShortBuffer) else
      data ← reslice src offset (offset + length);
      Ret (data, offset + length, None) in
    if negb isValueLength then
      if slen src <? offset + length then Ret (sl [], offset, Some ErrShortBuffer) else
      let l := length in
      buf ← reslice src offset (offset + l);
      read (intFromBuf TInt (live buf)) (offset + l)
    else read length offset
  end.

Definition ReadString : Slice → Z → go (list Z * Z * option error) := ReadString_fuel 2.
Definition ReadBinary : Slice → Z → go (Slice * Z * option error) := ReadBinary_fuel 2.

(** [strings.Clone] copies the bytes: the value is the same. *)
Definition ReadStringCopy (src : Slice) (offset : Z) : go (list Z * Z * option error) :=
  ReadString src offset.

(** ** Append functions *)

#[export] Instance AppendString_appender : Appender AppendString.
Proof. solve_appender AppendString. Qed.
#[export] Instance appendBinaryHeader_appender : Appender appendBinaryHeader.
Proof. solve_appender appendBinaryHeader. Qed.
#[export] Instance AppendBinary_appender : Appender AppendBinary.
Proof.
  intros dst data. unfold AppendBinary. by rewrite (appender dst), <- app_assoc.
Qed.

(** The header that [AppendString] writes for [l] bytes. *)
Definition string_header (l : Z) : list Z :=
  if l <=? 31 then [Z.lor 0xa0 (u8 l)]
  else if l <=? 0xFF then [0xd9; u8 l]
  else if l <=? 0xFFFF then 0xda :: be_enc 2 l
  else 0xdb :: be_enc 4 l.

Lemma AppendString_split s : AppendString [] s = string_header (lenZ s) ++ s.
Proof. unfold AppendString, string_header. by repeat case_match. Qed.

Lemma AppendBinary_split s : AppendBinary [] s = appendBinaryHeader [] (lenZ s) ++ s.
Proof. done. Qed.

Lemma string_header_spec l : 0 ≤ l < 2 ^ 32 → length_header Str (string_header l) l.
Proof.
  intros Hl. unfold string_header, length_header.
  destruct (l <=? 31) eqn:E1.
  - left. exists (0xa0 + l). rewrite (lor_fix _ _ 5) by (reflexivity || lia).
    rewrite Get_fixstr by lia. split_and!; [done|unfold is_byte; lia..|].
    do 2 f_equal. lia.
  - destruct (l <=? 0xFF) eqn:E2; [long_header 0xd9 1%nat|].
    destruct (l <=? 0xFFFF) eqn:E3; [long_header 0xda 2%nat|long_header 0xdb 4%nat].
Qed.

Lemma binary_header_spec l : 0 ≤ l < 2 ^ 32 → length_header Bin (appendBinaryHeader [] l) l.
Proof.
  intros Hl. unfold appendBinaryHeader, length_header. cbn [app].
  destruct (l <=? 0xFF) eqn:E2; [long_header 0xc4 1%nat|].
  destruct (l <=? 0xFFFF) eqn:E3; [long_header 0xc5 2%nat|long_header 0xc6 4%nat].
Qed.

Lemma is_bytes_AppendString s : is_bytes s → lenZ s < 2 ^ 32 → is_bytes (AppendString [] s).
Proof.
  intros Hs Hl. rewrite AppendString_split. apply Forall_app_2; [|done].
  eapply length_header_is_bytes, string_header_spec. pose proof (lenZ_nonneg s). lia.
Qed.

Lemma is_bytes_AppendBinary s : is_bytes s → lenZ s < 2 ^ 32 → is_bytes (AppendBinary [] s).
Proof.
  intros Hs Hl. rewrite AppendBinary_split. apply Forall_app_2; [|done].
  eapply length_header_is_bytes, binary_header_spec. pose proof (lenZ_nonneg s). lia.
Qed.

(** ** Reading back *)

(** Two units of fuel are all that the mutual recursion uses. *)
Lemma ReadString_fuel_2 k src off :
  ReadString_fuel (S (S k)) src off = ReadString src off ∧
  ReadBinary_fuel (S (S k)) src off = ReadBinary src off.
Proof.
  unfold ReadString, ReadBinary. cbn [ReadString_fuel ReadBinary_fuel].
  destruct (slen src <=? off); [done|]. destruct (index src off) as [c|]; [|done].
  cbn [mbind go_bind]. destruct (Get c) as [[t l] v]. by destruct t.
Qed.

Lemma ReadString_at s off hd l data :
  length_header Str hd l → l = lenZ data → holds_at s off (hd ++ data) →
  ReadString s off = Ret (data, off + lenZ (hd ++ data), None).
Proof.
  intros Hh -> H. unfold ReadString. cbn [ReadString_fuel ReadBinary_fuel].
  destruct Hh as [(c & -> & Hc & HG)|(h & n & -> & Hh & HG & Hn & Hl)]; cbn [app] in H;
    read_head H; rewrite HG; cbn [bool_decide decide negb]; rewrite !bool_decide_false by
      (first [discriminate | intros []; reflexivity]).
  - apply holds_at_cons in H. read_payload H data (lenZ data).
    do 3 f_equal. len_lia.
  - apply holds_at_cons in H.
    destruct (holds_at_payload _ _ _ _ (Z.of_nat n) H) as [Hb [sp Hs]]; [by rewrite lenZ_be_enc|].
    rewrite Hb, Hs. go_simpl. rewrite uintFromBuf_length by done.
    assert (2 ^ (8 * Z.of_nat n) ≤ 2 ^ 32) by (apply Z.pow_le_mono_r; lia).
    destruct (2 ^ 63 - 1 <? lenZ data) eqn:E; [lia|].
    rewrite conv_id by (unfold in_type; cbn [is_signed bits_of]; lia).
    apply holds_at_app_r in H. rewrite lenZ_be_enc in H.
    read_payload H data (lenZ data). do 3 f_equal. len_lia.
Qed.

(** [ReadBinary] decodes the length with a sign: on the lengths that sign
    extension makes negative the slice expression panics. *)
Lemma ReadBinary_at s off hd l data :
  length_header Bin hd l → l = lenZ data → holds_at s off (hd ++ data) →
  if decide (sign_safe hd l)
  then ∃ sp, ReadBinary s off = Ret (mkSlice data sp, off + lenZ (hd ++ data), None)
  else ReadBinary s off = Panic SliceOutOfRange.
Proof.
  intros Hh Hl H. pose proof (signed_length_safe Bin hd l Hh) as Hsafe.
  pose proof (signed_length_unsafe Bin hd l Hh) as Hunsafe.
  unfold ReadBinary. cbn [ReadString_fuel ReadBinary_fuel].
  destruct Hh as [(c & -> & Hc & HG)|(h & n & -> & Hh & HG & Hn & Hr)]; cbn [app] in H;
    read_head H; rewrite HG; cbn [bool_decide decide negb]; rewrite !bool_decide_false by
      (first [discriminate | intros []; reflexivity]).
  - rewrite decide_True by done. apply holds_at_cons in H. subst l.
    read_payload H data (lenZ data). eexists. do 3 f_equal. len_lia.
  - apply holds_at_cons in H.
    destruct (holds_at_payload _ _ _ _ (Z.of_nat n) H) as [Hb [sp Hs]]; [by rewrite lenZ_be_enc|].
    rewrite Hb, Hs. go_simpl. rewrite (intFromBuf_length n l Hn Hr h).
    apply holds_at_app_r in H. rewrite lenZ_be_enc in H.
    pose proof (holds_at_bound _ _ _ H) as Hbound.
    case_decide as Hd.
    + rewrite (Hsafe Hd). subst l. read_payload H data (lenZ data).
      eexists. do 3 f_equal. len_lia.
    + destruct (Hunsafe Hd) as [Hneg _].
      step_guard; [len_lia|]. unfold reslice.
      destruct (_ && _) eqn:E'; [lia|]. reflexivity.
Qed.

(** ** Unknown lengths *)

Lemma set_index_at pre x post b :
  set_index (pre ++ x :: post) (lenZ pre) b = Ret (pre ++ b :: post).
Proof.
  unfold set_index. destruct (_ && _) eqn:E; [|len_lia].
  unfold lenZ. rewrite Nat2Z.id. f_equal. by rewrite insert_app_r_alt, Nat.sub_diag by lia.
Qed.

(** Patching replaces as many bytes as it is given. *)
Lemma patch_at bs : ∀ pre old post,
  length old = length bs →
  patch (pre ++ old ++ post) (lenZ pre) bs = Ret (pre ++ bs ++ post).
Proof.
  induction bs as [|b bs IH]; intros pre [|x old] post Hl; try done.
  cbn [patch app]. rewrite set_index_at. go_simpl.
  replace (lenZ pre + 1) with (lenZ (pre ++ [b])) by len_lia.
  replace (pre ++ b :: old ++ post) with ((pre ++ [b]) ++ old ++ post) by (by rewrite <- app_assoc).
  rewrite IH by (simpl in Hl; congruence). by rewrite <- app_assoc.
Qed.

Lemma AppendStringUnknownLength_eq dst fn s :
  (∀ d, fn d = d ++ s) →
  AppendStringUnknownLength dst fn = Ret (dst ++ (0xdb :: be_enc 4 (lenZ s)) ++ s).
Proof.
  intros Hfn. unfold AppendStringUnknownLength. rewrite Hfn.
  replace (lenZ ((dst ++ [0xdb; 0; 0; 0; 0]) ++ s) - lenZ (dst ++ [0xdb; 0; 0; 0; 0]))
    with (lenZ s) by len_lia.
  replace (lenZ dst + 1) with (lenZ (dst ++ [0xdb])) by len_lia.
  pose proof (patch_at (be_enc 4 (lenZ s)) (dst ++ [0xdb]) [0; 0; 0; 0] s eq_refl) as H.
  by rewrite <- !app_assoc in *.
Qed.

Lemma AppendBinaryUnknownLength_eq dst fn s :
  (∀ d, fn d = d ++ s) →
  AppendBinaryUnknownLength dst fn = Ret (dst ++ (0xc6 :: be_enc 4 (lenZ s)) ++ s).
Proof.
  intros Hfn. unfold AppendBinaryUnknownLength. rewrite Hfn.
  replace (lenZ ((dst ++ [0xc6; 0; 0; 0; 0]) ++ s) - lenZ (dst ++ [0xc6; 0; 0; 0; 0]))
    with (lenZ s) by len_lia.
  replace (lenZ dst + 1) with (lenZ (dst ++ [0xc6])) by len_lia.
  pose proof (patch_at (be_enc 4 (lenZ s)) (dst ++ [0xc6]) [0; 0; 0; 0] s eq_refl) as H.
  by rewrite <- !app_assoc in *.
Qed.

(** Moving the contents left over the unused part of a reserved header. *)
Lemma copy_left_at pre gap s k :
  0 ≤ k ≤ lenZ gap →
  copy_left (pre ++ gap ++ s) (lenZ pre + k) (lenZ pre + lenZ gap) =
    Ret (pre ++ take (Z.to_nat k) gap ++ s ++
         drop (length pre + Z.to_nat k + length s) (pre ++ gap ++ s)).
Proof.
  intros Hk. pose proof (lenZ_nonneg pre). unfold copy_left.
  destruct (_ && _) eqn:E; [|len_lia]. cbv zeta.
  assert (drop (Z.to_nat (lenZ pre + lenZ gap)) (pre ++ gap ++ s) = s) as ->.
  { rewrite app_assoc. apply drop_app_lenZ. len_lia. }
  assert (Z.to_nat (lenZ pre + k) = (length pre + Z.to_nat k)%nat) as -> by (unfold lenZ; lia).
  rewrite take_app_add, take_app_le by (unfold lenZ in *; lia). by rewrite <- !app_assoc.
Qed.

Lemma AppendStringDynamic_shift dst s k (hd : list Z) :
  length hd = k → (k < 5)%nat →
  (dst' ← copy_left ((dst ++ [0xdb; 0; 0; 0; 0]) ++ s) (lenZ dst + Z.of_nat k) (lenZ dst + 5);
   t ← reslice (sl dst') 0 (lenZ dst + Z.of_nat k + lenZ s);
   patch (live t) (lenZ dst) hd) = Ret (dst ++ hd ++ s).
Proof.
  intros Hhd Hk. rewrite <- app_assoc.
  change (lenZ dst + 5) with (lenZ dst + lenZ [0xdb; 0; 0; 0; 0]).
  rewrite (copy_left_at dst [0xdb; 0; 0; 0; 0] s (Z.of_nat k)) by len_lia. go_simpl.
  rewrite Nat2Z.id. set (tail := drop _ _). set (old := take k _).
  assert (lenZ old = Z.of_nat k) as Hold.
  { unfold old, lenZ. rewrite length_take. cbn [length]. lia. }
  assert (lenZ dst + Z.of_nat k + lenZ s = lenZ (dst ++ old ++ s)) as -> by len_lia.
  destruct (reslice_at (sl (dst ++ old ++ s ++ tail)) 0 (dst ++ old ++ s) []) as [sp Hsp].
  { rewrite app_nil_r. exists [], tail. split; [|done]. cbn [live app sl].
    by rewrite <- !app_assoc. }
  rewrite Z.add_0_l in Hsp. rewrite Hsp. go_simpl. apply patch_at. unfold lenZ in Hold. lia.
Qed.

Lemma AppendStringDynamic_eq dst fn s :
  (∀ d, fn d = d ++ s) →
  AppendStringDynamic dst fn = Ret (AppendString dst s).
Proof.
  intros Hfn. rewrite (appender dst s), AppendString_split. pose proof (lenZ_nonneg s).
  unfold AppendStringDynamic. rewrite Hfn. cbv zeta.
  replace (lenZ ((dst ++ [0xdb; 0; 0; 0; 0]) ++ s) - lenZ (dst ++ [0xdb; 0; 0; 0; 0]))
    with (lenZ s) by len_lia.
  unfold string_header.
  destruct (lenZ s <=? 31) eqn:E1; [|destruct (lenZ s <=? 255) eqn:E2;
    [|destruct (lenZ s <=? 65535) eqn:E3]].
  - rewrite <- (AppendStringDynamic_shift dst s 1 [Z.lor 0xa0 (u8 (lenZ s))] eq_refl) by lia.
    change (Z.of_nat 1) with 1. change (0 <? 5 - 1) with true. change (5 - 1) with 4.
    destruct (copy_left _ _ _) as [d|]; [|done]. go_simpl.
    replace (lenZ ((dst ++ [0xdb; 0; 0; 0; 0]) ++ s) - 4) with (lenZ dst + 1 + lenZ s) by len_lia.
    destruct (reslice _ _ _) as [t|]; [|done]. go_simpl. cbn [patch].
    by destruct (set_index _ _ _).
  - rewrite <- (AppendStringDynamic_shift dst s 2 [0xd9; u8 (lenZ s)] eq_refl) by lia.
    change (Z.of_nat 2) with 2. change (0 <? 5 - 2) with true. change (5 - 2) with 3.
    destruct (copy_left _ _ _) as [d|]; [|done]. go_simpl.
    replace (lenZ ((dst ++ [0xdb; 0; 0; 0; 0]) ++ s) - 3) with (lenZ dst + 2 + lenZ s) by len_lia.
    by destruct (reslice _ _ _) as [t|].
  - rewrite <- (AppendStringDynamic_shift dst s 3 (0xda :: be_enc 2 (lenZ s)) eq_refl) by lia.
    change (Z.of_nat 3) with 3. change (0 <? 5 - 3) with true. change (5 - 3) with 2.
    destruct (copy_left _ _ _) as [d|]; [|done]. go_simpl.
    replace (lenZ ((dst ++ [0xdb; 0; 0; 0; 0]) ++ s) - 2) with (lenZ dst + 3 + lenZ s) by len_lia.
    by destruct (reslice _ _ _) as [t|].
  - change (0 <? 5 - 5) with false. go_simpl. rewrite <- app_assoc. by apply patch_at.
Qed.

Lemma AppendStringMax255_eq dst fn s :
  (∀ d, fn d = d ++ s) →
  AppendStringMax255 dst fn = Ret (dst ++ [0xd9; Z.min 255 (lenZ s)] ++ take 255 s).
Proof.
  intros Hfn. pose proof (lenZ_nonneg s).
  assert (lenZ (take 255 s) = Z.min 255 (lenZ s)) as Hlen by (unfold lenZ; rewrite length_take; lia).
  unfold AppendStringMax255. rewrite Hfn. cbv zeta.
  replace (lenZ ((dst ++ [0xd9; 0]) ++ s) - lenZ (dst ++ [0xd9; 0])) with (lenZ s) by len_lia.
  assert (∀ t b, set_index (dst ++ [0xd9; 0] ++ t) (lenZ dst + 1) b = Ret (dst ++ [0xd9; b] ++ t))
    as Hset.
  { intros t b. replace (lenZ dst + 1) with (lenZ (dst ++ [0xd9])) by len_lia.
    pose proof (set_index_at (dst ++ [0xd9]) 0 t b) as Hp. by rewrite <- !app_assoc in Hp. }
  destruct (255 <? lenZ s) eqn:E.
  + assert (lenZ (dst ++ [0xd9; 0]) + 255 = lenZ (dst ++ [0xd9; 0] ++ take 255 s)) as -> by len_lia.
    destruct (reslice_at (sl ((dst ++ [0xd9; 0]) ++ s)) 0 (dst ++ [0xd9; 0] ++ take 255 s) [])
      as [sp' Hsp].
    { rewrite app_nil_r. exists [], (drop 255 s). split; [|done].
      cbn [live sl]. by rewrite <- !app_assoc, take_drop. }
    rewrite Z.add_0_l in Hsp. rewrite Hsp. go_simpl. rewrite Hset, uwrap_small by lia.
    by replace (Z.min 255 (lenZ s)) with 255 by lia.
  + go_simpl. rewrite <- app_assoc, Hset, uwrap_small by lia.
    rewrite take_ge by (unfold lenZ in *; lia). by replace (Z.min 255 (lenZ s)) with (lenZ s) by lia.
Qed.

Lemma max255_header l : 0 ≤ l → length_header Str [0xd9; Z.min 255 l] (Z.min 255 l).
Proof.
  intros Hl. right. exists 0xd9, 1%nat.
  split_and!; [|unfold is_byte; lia|reflexivity|lia|lia|lia].
  cbn [be_enc]. rewrite Z.shiftr_0_r, uwrap_small by lia. done.
Qed.

(** ** Properties *)

(** A string of fewer than [2^32] bytes that [AppendString] appends is read
    back by [ReadString] at its offset, byte for byte, whatever follows. *)
Theorem ReadString_AppendString dst s rest sp :
  lenZ s < 2 ^ 32 →
  ReadString (mkSlice (AppendString dst s ++ rest) sp) (lenZ dst) =
    Ret (s, lenZ (AppendString dst s), None).
Proof.
  intros Hs. pose proof (lenZ_nonneg s). rewrite (lenZ_appender AppendString), AppendString_split.
  apply (ReadString_at _ _ _ (lenZ s)); [apply string_header_spec; lia|done|].
  rewrite <- AppendString_split. eapply holds_at_app_l, holds_at_appender. apply _.
Qed.

Lemma ReadString_AppendString_witness :
  ReadString (mkSlice (AppendString [1] (replicate 300 65) ++ [2]) []) 1 =
    Ret (replicate 300 65, 304, None).
Proof. apply (ReadString_AppendString [1] (replicate 300 65) [2] []). vm_compute. reflexivity. Defined.

(** C30: [ReadBinary] reads back the data that [AppendBinary] appends exactly when
    the top bit of the length field is clear.  When it is set (128 to 255,
    32768 to 65535, or [2^31] and more bytes) the length is decoded as a
    negative number, passes the length check and the slice expression panics. *)
Theorem ReadBinary_AppendBinary dst data rest sp :
  lenZ data < 2 ^ 32 →
  let src := mkSlice (AppendBinary dst data ++ rest) sp in
  let l := lenZ data in
  if (128 <=? l) && (l <=? 255) || (32768 <=? l) && (l <=? 65535) || (2 ^ 31 <=? l)
  then ReadBinary src (lenZ dst) = Panic SliceOutOfRange
  else ∃ sp', ReadBinary src (lenZ dst) =
         Ret (mkSlice data sp', lenZ (AppendBinary dst data), None).
Proof.
  intros Hs src l. pose proof (lenZ_nonneg data). rewrite (lenZ_appender AppendBinary).
  assert (length_header Bin (appendBinaryHeader [] l) l) as Hh by (apply binary_header_spec; lia).
  pose proof (ReadBinary_at src (lenZ dst) _ l data Hh eq_refl) as H'.
  change (appendBinaryHeader [] l ++ data) with (AppendBinary [] data) in H'.
  specialize (H' ltac:(eapply holds_at_app_l, holds_at_appender; apply _)).
  assert (sign_safe (appendBinaryHeader [] l) l ↔
    ((128 <=? l) && (l <=? 255) || (32768 <=? l) && (l <=? 65535) || (2 ^ 31 <=? l)) = false) as Hiff.
  { unfold sign_safe, appendBinaryHeader. cbn [app].
    destruct (l <=? 0xFF) eqn:E1; [|destruct (l <=? 0xFFFF) eqn:E2];
      cbn [length be_enc]; lia. }
  case_decide as Hd.
  - rewrite (proj1 Hiff Hd). exact H'.
  - destruct (_ || _); [exact H'|]. by destruct Hd; apply Hiff.
Qed.

Lemma ReadBinary_AppendBinary_witness :
  ReadBinary (sl (AppendBinary [] (replicate 200 7) ++ [])) 0 = Panic SliceOutOfRange ∧
  ∃ sp', ReadBinary (sl (AppendBinary [] (replicate 300 7) ++ [])) 0 =
    Ret (mkSlice (replicate 300 7) sp', 303, None).
Proof.
  split.
  - apply (ReadBinary_AppendBinary [] (replicate 200 7) [] []). vm_compute. reflexivity.
  - apply (ReadBinary_AppendBinary [] (replicate 300 7) [] []). vm_compute. reflexivity.
Defined.

(** When the function it is given appends [s], [AppendStringDynamic] produces
    exactly what [AppendString] produces for [s]: the contents are moved left
    over the unused part of the reserved header and nothing else changes. *)
Theorem AppendStringDynamic_spec dst fn s :
  (∀ d, fn d = d ++ s) →
  AppendStringDynamic dst fn = Ret (AppendString dst s).
Proof. apply AppendStringDynamic_eq. Qed.

Lemma AppendStringDynamic_spec_witness :
  AppendStringDynamic [1; 2] (λ d, d ++ str "hello") = Ret (AppendString [1; 2] (str "hello")).
Proof. apply (AppendStringDynamic_spec [1; 2] (λ d, d ++ str "hello") (str "hello")). done. Defined.

(** The unknown-length functions write a 32-bit header that is read back: what
    [fn] appended, if it is shorter than [2^32] bytes for a string and [2^31]
    for a binary, where the reader's length is signed. *)
Theorem AppendUnknownLength_read dst fn s rest sp :
  (∀ d, fn d = d ++ s) → lenZ s < 2 ^ 31 →
  ∃ ds db spb,
    AppendStringUnknownLength dst fn = Ret ds ∧ AppendBinaryUnknownLength dst fn = Ret db ∧
    ReadString (mkSlice (ds ++ rest) sp) (lenZ dst) = Ret (s, lenZ ds, None) ∧
    ReadBinary (mkSlice (db ++ rest) sp) (lenZ dst) = Ret (mkSlice s spb, lenZ db, None).
Proof.
  intros Hfn Hs. pose proof (lenZ_nonneg s).
  rewrite (AppendStringUnknownLength_eq _ _ s), (AppendBinaryUnknownLength_eq _ _ s) by done.
  assert (length_header Str (0xdb :: be_enc 4 (lenZ s)) (lenZ s)) as Hstr by long_header 0xdb 4%nat.
  assert (length_header Bin (0xc6 :: be_enc 4 (lenZ s)) (lenZ s)) as Hbin by long_header 0xc6 4%nat.
  assert (∀ h, holds_at (mkSlice ((dst ++ (h :: be_enc 4 (lenZ s)) ++ s) ++ rest) sp) (lenZ dst)
                        ((h :: be_enc 4 (lenZ s)) ++ s)) as Hat.
  { intros h. rewrite <- app_assoc. apply holds_at_intro. }
  pose proof (ReadBinary_at _ _ _ _ s Hbin eq_refl (Hat _)) as HB.
  rewrite decide_True in HB by (unfold sign_safe; cbn [length be_enc]; lia).
  destruct HB as [spb HB]. exists (dst ++ (0xdb :: be_enc 4 (lenZ s)) ++ s).
  eexists _, spb. split_and!; [done|done| |].
  - rewrite (ReadString_at _ _ _ _ s Hstr eq_refl (Hat _)). do 3 f_equal. len_lia.
  - rewrite HB. do 3 f_equal. len_lia.
Qed.

Lemma AppendUnknownLength_read_witness :
  ∃ ds db spb,
    AppendStringUnknownLength [9] (λ d, d ++ str "abc") = Ret ds ∧
    AppendBinaryUnknownLength [9] (λ d, d ++ str "abc") = Ret db ∧
    ReadString (mkSlice (ds ++ [1]) []) 1 = Ret (str "abc", lenZ ds, None) ∧
    ReadBinary (mkSlice (db ++ [1]) []) 1 = Ret (mkSlice (str "abc") spb, lenZ db, None).
Proof.
  apply (AppendUnknownLength_read [9] (λ d, d ++ str "abc") (str "abc") [1] []); [done|].
  vm_compute. reflexivity.
Defined.

(** [AppendStringMax255] keeps the first 255 bytes of what [fn] appends and
    writes a str8 header, so [ReadString] returns exactly those bytes. *)
Theorem AppendStringMax255_read dst fn s rest sp :
  (∀ d, fn d = d ++ s) →
  AppendStringMax255 dst fn =
    Ret (dst ++ [0xd9; Z.min 255 (lenZ s)] ++ take 255 s) ∧
  ReadString (mkSlice ((dst ++ [0xd9; Z.min 255 (lenZ s)] ++ take 255 s) ++ rest) sp) (lenZ dst) =
    Ret (take 255 s, lenZ dst + 2 + Z.min 255 (lenZ s), None).
Proof.
  intros Hfn. pose proof (lenZ_nonneg s).
  assert (lenZ (take 255 s) = Z.min 255 (lenZ s)) as Hlen by (unfold lenZ; rewrite length_take; lia).
  split.
  - by apply AppendStringMax255_eq.
  - rewrite (ReadString_at _ _ _ _ (take 255 s) (max255_header (lenZ s) ltac:(lia)));
      [do 3 f_equal; len_lia|done|].
    rewrite <- app_assoc. apply holds_at_intro.
Qed.

Lemma AppendStringMax255_read_witness :
  AppendStringMax255 [5] (λ d, d ++ replicate 300 65) = Ret ([5] ++ [0xd9; 255] ++ replicate 255 65) ∧
  ReadString (mkSlice (([5] ++ [0xd9; 255] ++ replicate 255 65) ++ [1]) []) 1 =
    Ret (replicate 255 65, 258, None).
Proof. apply (AppendStringMax255_read [5] (λ d, d ++ replicate 300 65) (replicate 300 65) [1] []). done. Defined.

(** On any bytes and any offset that is not negative [ReadString] returns
    without a panic unless the head byte is of a binary; on success the string
    is a part of the slice that ends at the new offset, and an error is either a
    short buffer or an invalid header byte and leaves the string empty. *)
Theorem ReadString_total src off :
  is_bytes (live src) → 0 ≤ off →
  (∀ c, index src off = Ret c → (Get c).1.1 ≠ Bin) →
  ∃ s n e, ReadString src off = Ret (s, n, e) ∧
    match e with
    | Some e => s = [] ∧ n = 0 ∧ (e = ErrShortBuffer ∨ Is e SInvalidHeaderByte = true)
    | None => ∃ lo, off < lo ∧ n = lo + lenZ s ∧ holds_at src lo s
    end.
Proof.
  intros Hs Hoff Hnb. unfold ReadString. cbn [ReadString_fuel ReadBinary_fuel].
  step_guard; [read_fails|]. step_index src off Hs c Hc. specialize (Hnb c eq_refl).
  destruct (Get c) as [[t l] v] eqn:EG. cbn [fst] in Hnb.
  rewrite (bool_decide_false (t = Bin)) by done.
  destruct (decide (t = Str)) as [->|Ht]; [|rewrite bool_decide_true by done].
  2: { do 3 eexists. split; [reflexivity|]. split_and!; auto. }
  rewrite bool_decide_false by auto. destruct (Get_length c Str l v Hc EG) as [Hl Hl4].
  assert (∀ n lo, off < lo → 0 ≤ n → ∃ s m e,
    (if slen src <? lo + n then Ret ([], 0, Some ErrShortBuffer)
     else s ← reslice src lo (lo + n); Ret (live s, lo + n, None)) = Ret (s, m, e) ∧
    match e with
    | Some e => s = [] ∧ m = 0 ∧ (e = ErrShortBuffer ∨ Is e SInvalidHeaderByte = true)
    | None => ∃ lo, off < lo ∧ m = lo + lenZ s ∧ holds_at src lo s
    end) as Hread.
  { intros n lo Hlo Hn. step_guard; [do 3 eexists; split; [reflexivity|]; split_and!; by auto|].
    destruct (reslice_in_range src lo (lo + n)) as (s & Es & Hlive & Hlen); [lia..|].
    rewrite Es. go_simpl. do 3 eexists. split; [reflexivity|]. exists lo.
    split_and!; [done|unfold slen in Hlen; lia|].
    exists (take (Z.to_nat lo) (live src)), (drop (Z.to_nat (lo + n)) (live src)). split.
    - rewrite Hlive. rewrite <- (take_drop (Z.to_nat lo) (live src)) at 1. f_equal.
      rewrite <- (take_drop (Z.to_nat (lo + n - lo)) (drop (Z.to_nat lo) (live src))) at 1.
      f_equal. rewrite drop_drop. f_equal. lia.
    - unfold slen, lenZ in *. rewrite length_take. lia. }
  destruct v; cbn [negb]; [apply Hread; lia|].
  step_guard; [do 3 eexists; split; [reflexivity|]; split_and!; by auto|].
  specialize (Hl4 eq_refl). step_reslice src (off + 1) l Hs b.
  pose proof (uintFromBuf_bound _ Hb) as Hu.
  assert (uintFromBuf TUint (live b) = uintFromBuf TUint64 (live b)) as -> by done.
  assert (256 ^ lenZ (live b) ≤ 256 ^ 4) by (apply Z.pow_le_mono_r; lia).
  destruct (2 ^ 63 - 1 <? _) eqn:E; [lia|].
  rewrite conv_id by (unfold in_type; cbn [is_signed bits_of]; lia). apply Hread; lia.
Qed.

Lemma ReadString_total_witness :
  ∃ s n e, ReadString (sl [0xd9; 3; 65; 66]) 0 = Ret (s, n, e) ∧
    match e with
    | Some e => s = [] ∧ n = 0 ∧ (e = ErrShortBuffer ∨ Is e SInvalidHeaderByte = true)
    | None => ∃ lo, 0 < lo ∧ n = lo + lenZ s ∧ holds_at (sl [0xd9; 3; 65; 66]) lo s
    end.
Proof.
  apply (ReadString_total (sl [0xd9; 3; 65; 66]) 0); [repeat constructor; lia|lia|].
  intros c Hc. vm_compute in Hc. injection Hc as <-. vm_compute. discriminate.
Defined.
