(* ===== verification/Float.v ===== *)
(** * Float: floating-point values (pkg/msgpack/float.go, floatFromBuf of utils.go)

    A float64 or float32 is its IEEE 754 bit pattern, so that the payload of a
    NaN and the sign of a zero are values of the model.  The conversions between
    the widths and the comparison are those of the language: rounding to nearest
    even on the decoded numbers (Corelib's [SpecFloat]); a NaN keeps the part of
    its payload that fits and becomes quiet. *)

From Stdlib Require Import Floats.SpecFloat.
From S2P Require Import Prelude Types Errors Integer.

(** ** IEEE 754 patterns

    [mw] and [ew] are the widths of the mantissa and exponent fields. *)

Section Format.
Context (mw ew : Z).

Definition emax_of : Z := 2 ^ (ew - 1).
Definition prec_of : Z := mw + 1.
Definition emin_of : Z := emin prec_of emax_of.

Definition sign_bit (x : Z) : bool := Z.testbit x (mw + ew).
Definition exp_field (x : Z) : Z := Z.shiftr x mw mod 2 ^ ew.
Definition man_field (x : Z) : Z := x mod 2 ^ mw.

Definition assemble (s : bool) (e m : Z) : Z :=
  Z.b2z s * 2 ^ (mw + ew) + (e mod 2 ^ ew) * 2 ^ mw + m mod 2 ^ mw.

Definition is_nan (x : Z) : bool :=
  (exp_field x =? 2 ^ ew - 1) && negb (man_field x =? 0).

Definition decode_float (x : Z) : spec_float :=
  let s := sign_bit x in
  let e := exp_field x in
  let m := man_field x in
  if e =? 2 ^ ew - 1 then (if m =? 0 then S754_infinity s else S754_nan)
  else if e =? 0 then
    match m with Z.pos p => S754_finite s p emin_of | _ => S754_zero s end
  else match m + 2 ^ mw with Z.pos p => S754_finite s p (e + emin_of - 1) | _ => S754_nan end.

Definition encode_float (f : spec_float) : Z :=
  match f with
  | S754_zero s => assemble s 0 0
  | S754_infinity s => assemble s (2 ^ ew - 1) 0
  | S754_nan => assemble false (2 ^ ew - 1) (2 ^ (mw - 1))
  | S754_finite s p e =>
      if Z.pos p <? 2 ^ mw then assemble s 0 (Z.pos p)
      else assemble s (e - emin_of + 1) (Z.pos p)
  end.

Definition round_float (f : spec_float) : spec_float :=
  match f with
  | S754_finite s m e => binary_round prec_of emax_of s m e
  | _ => f
  end.
End Format.

(** [float32(f)] and [float64(f32)] on bit patterns. *)
Definition float32_of (f : Z) : Z :=
  if is_nan 52 11 f then
    assemble 23 8 (sign_bit 52 11 f) 255 (Z.lor (2 ^ 22) (Z.shiftr (man_field 52 f) 29))
  else encode_float 23 8 (round_float 23 8 (decode_float 52 11 f)).

Definition float64_of (f : Z) : Z :=
  if is_nan 23 8 f then
    assemble 52 11 (sign_bit 23 8 f) 2047 (Z.lor (2 ^ 51) (Z.shiftl (man_field 23 f) 29))
  else encode_float 52 11 (round_float 52 11 (decode_float 23 8 f)).

(** [x == y] on float64. *)
Definition float64_eq (x y : Z) : bool := SFeqb (decode_float 52 11 x) (decode_float 52 11 y).

(** ** utils.go, float.go *)

(** [floatFromBuf[float64]] *)
Definition floatFromBuf (buf : list Z) : Z :=
  match length buf with
  | 4%nat => float64_of (be_dec buf)
  | 8%nat => be_dec buf
  | _ => 0
  end.

Definition AppendFloat (dst : list Z) (f : Z) : list Z :=
  let f32 := float32_of f in
  if float64_eq (float64_of f32) f then dst ++ 0xca :: be_enc 4 f32
  else dst ++ 0xcb :: be_enc 8 f.

Definition ReadFloat (src : Slice) (offset : Z) : go (Z * Z * option error) :=
  if slen src <=? offset then Ret (0, offset, Some ErrShortBuffer) else
  c ← index src offset;
  let '(typ, length, isValueLength) := Get c in
  if bool_decide (typ ≠ Float) then Ret (0, 0, Some (expectedType c Float)) else
  let offset := offset + 1 in
  let read length offset :=
    if slen src <? offset + length then Ret (0, offset, Some ErrShortBuffer) else
    buf ← reslice src offset (offset + length);
    Ret (floatFromBuf (live buf), offset + length, None) in
  if negb isValueLength then
    if slen src <? offset + length then Ret (0, offset, Some ErrShortBuffer) else
    let l := length in
    buf ← reslice src offset (offset + l);
    read (intFromBuf TInt (live buf)) (offset + l)
  else read length offset.

Example float_pi : AppendFloat [] 0x400921f9f01b866e = [203; 64; 9; 33; 249; 240; 27; 134; 110].
Proof. vm_compute. reflexivity. Qed.
Example float_ten : AppendFloat [] 0x4024000000000000 = [0xca; 0x41; 0x20; 0; 0].
Proof. vm_compute. reflexivity. Qed.
Example float_subnormal32 : float64_of (float32_of 0x36a0000000000000) = 0x36a0000000000000.
Proof. vm_compute. reflexivity. Qed.
Example float_tie : float32_of 0x3ff0000010000000 = 0x3f800000.
Proof. vm_compute. reflexivity. Qed.
Example float_max : float32_of 0x7fefffffffffffff = 0x7f800000.
Proof. vm_compute. reflexivity. Qed.
Example float_min64 : float32_of 0x8000000000000001 = 0x80000000.
Proof. vm_compute. reflexivity. Qed.

(** ** Bit patterns *)

Section FormatLemmas.
Context (mw ew : Z) (Hmw : 0 < mw) (Hew : 0 < ew).

Lemma assemble_range s e m : 0 ≤ assemble mw ew s e m < 2 ^ (mw + ew + 1).
Proof using Hmw Hew.
  unfold assemble. rewrite !Z.pow_add_r by lia.
  pose proof (Z.mod_pos_bound e (2 ^ ew)). pose proof (Z.mod_pos_bound m (2 ^ mw)).
  assert (0 < 2 ^ ew) by lia. assert (0 < 2 ^ mw) by lia.
  destruct s; cbn [Z.b2z]; nia.
Qed.

Lemma encode_range f : 0 ≤ encode_float mw ew f < 2 ^ (mw + ew + 1).
Proof using Hmw Hew.
  destruct f; cbn [encode_float]; try apply assemble_range.
  case_match; apply assemble_range.
Qed.

(** A pattern is its sign, exponent and mantissa. *)
Lemma fields_eq x :
  0 ≤ x < 2 ^ (mw + ew + 1) →
  x = assemble mw ew (sign_bit mw ew x) (exp_field mw ew x) (man_field mw x).
Proof using Hmw Hew.
  intros Hx. unfold assemble, sign_bit, exp_field, man_field.
  rewrite !Z.mod_mod, Z.testbit_spec', Z.shiftr_div_pow2 by lia.
  rewrite (Z.mod_small (x / 2 ^ (mw + ew)) 2).
  2: { split; [apply Z.div_pos; lia|apply Z.div_lt_upper_bound; [lia|]].
       rewrite (Z.pow_add_r 2 (mw + ew)) in Hx by lia. lia. }
  rewrite (Z.pow_add_r 2 mw ew), <- Z.div_div by lia.
  pose proof (Z.div_mod x (2 ^ mw) ltac:(lia)).
  pose proof (Z.div_mod (x / 2 ^ mw) (2 ^ ew) ltac:(lia)). nia.
Qed.

Lemma exp_field_range x : 0 ≤ exp_field mw ew x < 2 ^ ew.
Proof using Hew. apply Z.mod_pos_bound. lia. Qed.

Lemma man_field_range x : 0 ≤ man_field mw x < 2 ^ mw.
Proof using Hmw. apply Z.mod_pos_bound. lia. Qed.

(** What the decoded number says about the fields. *)
Lemma decode_fields x :
  is_nan mw ew x = false →
  let e := exp_field mw ew x in let m := man_field mw x in let s := sign_bit mw ew x in
  match decode_float mw ew x with
  | S754_zero s' => s' = s ∧ e = 0 ∧ m = 0
  | S754_infinity s' => s' = s ∧ e = 2 ^ ew - 1 ∧ m = 0
  | S754_nan => False
  | S754_finite s' p k => s' = s ∧
      ((e = 0 ∧ m = Z.pos p ∧ k = emin_of mw ew) ∨
       (e ≠ 0 ∧ m = Z.pos p - 2 ^ mw ∧ k = e + emin_of mw ew - 1))
  end.
Proof using Hmw Hew.
  intros Hn e m s. unfold is_nan in Hn. fold e m in Hn.
  unfold decode_float. cbv zeta. fold e m s.
  pose proof (exp_field_range x). pose proof (man_field_range x). fold e in H. fold m in H0.
  destruct (e =? 2 ^ ew - 1) eqn:E1.
  { destruct (m =? 0) eqn:E2; [|done]. split_and!; [done|lia|lia]. }
  destruct (e =? 0) eqn:E2.
  { destruct m as [|p|p]; [split_and!; [done|lia|done]| |lia].
    split; [done|]. left. split_and!; [lia|done|done]. }
  destruct (m + 2 ^ mw) as [|p|p] eqn:E3; [lia| |lia].
  split; [done|]. right. split_and!; lia.
Qed.

Lemma decode_inj x y :
  0 ≤ x < 2 ^ (mw + ew + 1) → 0 ≤ y < 2 ^ (mw + ew + 1) →
  is_nan mw ew x = false → is_nan mw ew y = false →
  decode_float mw ew x = decode_float mw ew y → x = y.
Proof using Hmw Hew.
  intros Hx Hy Nx Ny E.
  pose proof (decode_fields x Nx) as Fx. pose proof (decode_fields y Ny) as Fy. cbv zeta in *.
  pose proof (man_field_range x). pose proof (man_field_range y).
  pose proof (exp_field_range x). pose proof (exp_field_range y).
  rewrite E in Fx. rewrite (fields_eq x Hx), (fields_eq y Hy).
  destruct (decode_float mw ew y) as [s|s| |s p k]; [| |done|].
  - destruct Fx as (<- & -> & ->), Fy as (<- & -> & ->). done.
  - destruct Fx as (<- & -> & ->), Fy as (<- & -> & ->). done.
  - destruct Fx as (<- & Fx), Fy as (<- & Fy). f_equal; lia.
Qed.

Lemma SFcompare_Eq a b :
  SFeqb a b = true → a = b ∨ ∃ s t, a = S754_zero s ∧ b = S754_zero t.
Proof using.
  unfold SFeqb.
  destruct a as [s|s| |s m e], b as [t|t| |t n f]; cbn [SFcompare]; intros H;
    try done; try (by destruct s); try (by destruct t); try (by right; eauto).
  - left. by destruct s, t.
  - left. destruct s, t; try done; destruct (Z.compare_spec e f) as [->| |]; try done;
      change (Pos.compare_cont Eq m n) with (Pos.compare m n) in H;
      destruct (Pos.compare_spec m n) as [->| |]; done.
Qed.
End FormatLemmas.

Lemma float64_eq_not_nan x y :
  float64_eq x y = true → is_nan 52 11 x = false ∧ is_nan 52 11 y = false.
Proof.
  unfold float64_eq, is_nan, decode_float. cbv zeta. intros H. split.
  - destruct (exp_field 52 11 x =? _); [|done]. by destruct (man_field 52 x =? 0).
  - destruct (exp_field 52 11 y =? _); [|done]. destruct (man_field 52 y =? 0); [done|].
    match type of H with SFeqb ?a _ = _ => destruct a as [|?| |] end; done.
Qed.

Lemma float64_of_range f : 0 ≤ float64_of f < 2 ^ 64.
Proof.
  unfold float64_of. case_match; [apply (assemble_range 52 11)|apply (encode_range 52 11)]; lia.
Qed.

Lemma float32_of_range f : 0 ≤ float32_of f < 2 ^ 32.
Proof.
  unfold float32_of. case_match; [apply (assemble_range 23 8)|apply (encode_range 23 8)]; lia.
Qed.

(** A zero has the sign bit and nothing else. *)
Lemma decode_zero f s :
  0 ≤ f < 2 ^ 64 → is_nan 52 11 f = false → decode_float 52 11 f = S754_zero s →
  f = 0 ∨ f = 2 ^ 63.
Proof.
  intros Hf Hn E. pose proof (decode_fields 52 11 ltac:(lia) ltac:(lia) f Hn) as F.
  cbv zeta in F. rewrite E in F. destruct F as (_ & He & Hm).
  rewrite (fields_eq 52 11 ltac:(lia) ltac:(lia) f) by lia. rewrite He, Hm.
  destruct (sign_bit 52 11 f); [right|left]; reflexivity.
Qed.

(** The guard of [AppendFloat]: a float64 that survives the conversion to
    float32 and back in the sense of [==] survives it bit for bit. *)
Lemma float32_exact f :
  0 ≤ f < 2 ^ 64 → float64_eq (float64_of (float32_of f)) f = true →
  float64_of (float32_of f) = f.
Proof.
  intros Hf H. destruct (float64_eq_not_nan _ _ H) as [N1 N2].
  pose proof (float64_of_range (float32_of f)).
  destruct (SFcompare_Eq _ _ H) as [E|(s & t & Es & Et)].
  - by apply (decode_inj 52 11).
  - destruct (decode_zero f t Hf N2 Et) as [->| ->]; vm_compute; reflexivity.
Qed.

#[export] Instance AppendFloat_appender : Appender AppendFloat.
Proof. solve_appender AppendFloat. Qed.

Lemma is_bytes_AppendFloat f : is_bytes (AppendFloat [] f).
Proof. unfold AppendFloat. case_match; cbn [app]; auto with bytes. Qed.

(** The two encodings of a float, each with the payload's meaning. *)
Lemma AppendFloat_cases f :
  0 ≤ f < 2 ^ 64 →
  ∃ h n v, AppendFloat [] f = h :: be_enc n v ∧ is_byte h ∧ Get h = (Float, Z.of_nat n, true) ∧
    floatFromBuf (be_enc n v) = f.
Proof.
  intros Hf. pose proof (float32_of_range f) as H32. unfold AppendFloat, floatFromBuf.
  destruct (float64_eq _ _) eqn:E.
  - exists 0xca, 4%nat, (float32_of f). split_and!; [done|unfold is_byte; lia|reflexivity|].
    rewrite length_be_enc, be_dec_enc, uwrap_small by lia. by apply float32_exact.
  - exists 0xcb, 8%nat, f. split_and!; [done|unfold is_byte; lia|reflexivity|].
    by rewrite length_be_enc, be_dec_enc, uwrap_small by lia.
Qed.

Lemma ReadFloat_at s off f :
  0 ≤ f < 2 ^ 64 → holds_at s off (AppendFloat [] f) →
  ReadFloat s off = Ret (f, off + lenZ (AppendFloat [] f), None).
Proof.
  intros Hf H. destruct (AppendFloat_cases f Hf) as (h & n & v & E & _ & HG & Hv).
  rewrite E in *. unfold ReadFloat. read_head H. rewrite HG, bool_decide_false by (intros []; done).
  cbn [negb]. apply holds_at_cons in H. read_payload H (be_enc n v) (Z.of_nat n).
  rewrite Hv, lenZ_cons, lenZ_be_enc. do 3 f_equal. lia.
Qed.

(** ** Properties *)

(** Every float64 that [AppendFloat] appends is read back by [ReadFloat] bit
    for bit, NaN payloads and the sign of zero included: the 32-bit form is only
    chosen when widening it restores the value. *)
Theorem ReadFloat_AppendFloat dst f rest sp :
  0 ≤ f < 2 ^ 64 →
  ReadFloat (mkSlice (AppendFloat dst f ++ rest) sp) (lenZ dst) =
    Ret (f, lenZ (AppendFloat dst f), None).
Proof.
  intros Hf. rewrite (lenZ_appender AppendFloat). apply ReadFloat_at; [done|].
  eapply holds_at_app_l, holds_at_appender. apply _.
Qed.

Lemma ReadFloat_AppendFloat_witness :
  ReadFloat (mkSlice (AppendFloat [1] 0x7ff8000000000001 ++ [2]) []) 1 =
    Ret (0x7ff8000000000001, 10, None) ∧
  ReadFloat (mkSlice (AppendFloat [1] 0x8000000000000000 ++ [2]) []) 1 =
    Ret (0x8000000000000000, 6, None).
Proof.
  split.
  - apply (ReadFloat_AppendFloat [1] 0x7ff8000000000001 [2] []). lia.
  - apply (ReadFloat_AppendFloat [1] 0x8000000000000000 [2] []). lia.
Defined.
