(* ===== verification/Timestamp.v ===== *)
(** * Timestamp: timestamps (pkg/msgpack/timestamp.go)

    A [time.Time] is its Unix second (an int64) and its nanosecond within the
    second, which is what [t.Unix()] and [t.Nanosecond()] return; the location
    only matters for printing.  [AppendTimestamp] writes one of five formats and
    [ReadTimestamp] reads any of them.  [ts_stored] is what a format keeps of a
    time. *)

From S2P Require Import Prelude Types Errors Integer Headers.

Record Time := mkTime { unix : Z; nanosecond : Z }.

(** A value of the Go type. *)
Definition valid_time (t : Time) : Prop :=
  - 2 ^ 63 ≤ unix t < 2 ^ 63 ∧ 0 ≤ nanosecond t < 1000000000.

(** [time.Unix(sec, nsec)] carries excess nanoseconds into the seconds. *)
Definition time_Unix (sec nsec : Z) : Time :=
  mkTime (i64 (sec + nsec / 1000000000)) (nsec mod 1000000000).

(** [time.Time{}] is year 1, January 1. *)
Definition zeroTime : Time := mkTime (-62135596800) 0.

Inductive TsFormat := TsAuto | Ts32 | Ts64 | Ts96 | TsInt | TsFluentd.

#[export] Instance TsFormat_eq_dec : EqDecision TsFormat.
Proof. solve_decision. Defined.

Definition tsFormatStrings (f : TsFormat) : list Z :=
  match f with
  | TsAuto => str "TsAuto"
  | Ts32 => str "Ts32"
  | Ts64 => str "Ts64"
  | Ts96 => str "Ts96"
  | TsInt => str "TsInt"
  | TsFluentd => str "TsFluentd"
  end.

Definition msgpackTimestamp : Z := 0xff.
Definition fluentdEventTime : Z := 0x00.

(** The choice made for [TsAuto]. *)
Definition chooseFormat (t : Time) : TsFormat :=
  if unix t <? 0 then Ts96 else if nanosecond t =? 0 then Ts32 else Ts64.

Definition AppendTimestamp (dst : list Z) (t : Time) (format : list TsFormat) : list Z :=
  let f := match format with [] => TsAuto | f :: _ => f end in
  let f := if bool_decide (f = TsAuto) then chooseFormat t else f in
  match f with
  | Ts32 => dst ++ 0xd6 :: msgpackTimestamp :: be_enc 4 (u32 (unix t))
  | Ts64 =>
      let ns := Z.land (nanosecond t) 0x3FFFFFFF in
      let s := u64 (Z.shiftl (Z.land (unix t) 0x3FFFFFFFF) 30) in
      let v := Z.lor ns s in
      dst ++ 0xd7 :: msgpackTimestamp :: be_enc 8 v
  | Ts96 =>
      dst ++ 0xc7 :: 12 :: msgpackTimestamp :: be_enc 4 (u32 (nanosecond t)) ++ be_enc 8 (unix t)
  | TsInt => AppendInt dst (unix t)
  | TsFluentd =>
      dst ++ 0xd7 :: fluentdEventTime :: be_enc 4 (u32 (unix t)) ++ be_enc 4 (u32 (nanosecond t))
  | TsAuto => dst
  end.

(** [ReadTimestamp] from its second length check on: [offset] is after the
    length bytes, [c] the head byte and [origOffset] its position. *)
Definition readTimestampBody (src : Slice) (origOffset c length offset : Z) :
    go (Time * Z * option error) :=
  if slen src <? offset + length then Ret (zeroTime, 0, Some ErrShortBuffer) else
  if c =? 0xd6 then
    h ← index src offset;
    if negb (h =? msgpackTimestamp) then
      Ret (zeroTime, 0, Some (expectedExtType h msgpackTimestamp))
    else
      let offset := offset + 1 in
      s ← be_at 4 src offset (offset + 4);
      Ret (time_Unix s 0, offset + 4, None)
  else if c =? 0xd7 then
    h ← index src offset;
    let offset := offset + 1 in
    if h =? msgpackTimestamp then
      combined ← be_from 8 src offset;
      let ns := Z.land combined 0x3FFFFFFF in
      let s := Z.shiftr combined 30 in
      Ret (time_Unix s ns, offset + 8, None)
    else if h =? fluentdEventTime then
      s ← be_at 4 src offset (offset + 4);
      ns ← be_at 4 src (offset + 4) (offset + 8);
      Ret (time_Unix (i32 s) (i32 ns), offset + 8, None)
    else Ret (zeroTime, 0, Some (expectedExtType h msgpackTimestamp))
  else if c =? 0xc7 then
    h ← index src offset;
    let offset := offset + 1 in
    if h =? msgpackTimestamp then
      ns ← be_at 4 src offset (offset + 4);
      s ← be_at 8 src (offset + 4) (offset + 12);
      Ret (time_Unix (i64 s) ns, offset + length, None)
    else if h =? fluentdEventTime then
      s ← be_at 4 src offset (offset + 4);
      ns ← be_at 4 src (offset + 4) (offset + 8);
      Ret (time_Unix (i32 s) (i32 ns), offset + length, None)
    else Ret (zeroTime, 0, Some (expectedExtType h msgpackTimestamp))
  else
    '(s, offset, err) ← ReadInt src origOffset;
    match err with
    | Some _ => Ret (zeroTime, 0, err)
    | None => Ret (time_Unix s 0, offset, None)
    end.

Definition ReadTimestamp (src : Slice) (offset : Z) : go (Time * Z * option error) :=
  if slen src <=? offset then Ret (zeroTime, 0, Some ErrUnexpectedEOF) else
  let origOffset := offset in
  c ← index src offset;
  let '(_, length, isValueLength) := Get c in
  let offset := offset + 1 in
  if negb isValueLength then
    if slen src <? offset + length then Ret (zeroTime, 0, Some ErrShortBuffer) else
    let l := length in
    buf ← reslice src offset (offset + l);
    readTimestampBody src origOffset c (conv TInt (uintFromBuf TUint (live buf))) (offset + l)
  else readTimestampBody src origOffset c length offset.

(** The iterator's decoding of a head byte and its payload. *)
Definition readTimeUnsafe (c : Z) (src : Slice) : go Time :=
  if slen src <? 5 then Ret (time_Unix (readIntUnsafe TInt64 c (live src)) 0) else
  if c =? 0xd6 then
    h ← index src 0;
    if h =? msgpackTimestamp then
      s ← be_from 4 src 1; Ret (time_Unix s 0)
    else Ret (time_Unix 0 0)
  else if c =? 0xd7 then
    h ← index src 0;
    if h =? msgpackTimestamp then
      if slen src =? 9 then
        combined ← be_from 8 src 1;
        Ret (time_Unix (Z.shiftr combined 30) (Z.land combined 0x3FFFFFFF))
      else Ret (time_Unix 0 0)
    else if h =? fluentdEventTime then
      if slen src =? 9 then
        s ← be_from 4 src 1; ns ← be_from 4 src 5; Ret (time_Unix (i32 s) (i32 ns))
      else Ret (time_Unix 0 0)
    else Ret (time_Unix 0 0)
  else if c =? 0xc7 then
    h ← index src 0;
    if h =? msgpackTimestamp then
      if slen src =? 13 then
        ns ← be_from 4 src 1; s ← be_from 8 src 5; Ret (time_Unix (i64 s) ns)
      else Ret (time_Unix 0 0)
    else if h =? fluentdEventTime then
      if slen src =? 9 then
        s ← be_from 4 src 1; ns ← be_from 4 src 5; Ret (time_Unix (i32 s) (i32 ns))
      else Ret (time_Unix 0 0)
    else Ret (time_Unix 0 0)
  else Ret (time_Unix (readIntUnsafe TInt64 c (live src)) 0).

(** ** What the formats keep *)

Definition ts_stored_as (f : TsFormat) (t : Time) : Time :=
  match f with
  | TsAuto => t
  | Ts32 => mkTime (u32 (unix t)) 0
  | Ts64 => mkTime (uwrap 34 (unix t)) (nanosecond t)
  | Ts96 => t
  | TsInt => mkTime (unix t) 0
  | TsFluentd => mkTime (i32 (unix t)) (nanosecond t)
  end.

(** The format used for a [format] argument. *)
Definition format_of (t : Time) (format : list TsFormat) : TsFormat :=
  match format with
  | [] | TsAuto :: _ => chooseFormat t
  | f :: _ => f
  end.

Definition ts_stored (format : list TsFormat) (t : Time) : Time :=
  ts_stored_as (format_of t format) t.

(** ** Lemmas *)

Lemma time_Unix_id s ns :
  - 2 ^ 63 ≤ s < 2 ^ 63 → 0 ≤ ns < 1000000000 → time_Unix s ns = mkTime s ns.
Proof.
  intros Hs Hn. unfold time_Unix. rewrite Z.div_small, Z.mod_small by lia.
  rewrite Z.add_0_r, swrap_small by lia. done.
Qed.

(** The 64-bit combination of 30 bits of nanoseconds and 34 bits of seconds. *)
Lemma ts64_word s ns :
  0 ≤ ns < 2 ^ 30 →
  Z.lor (Z.land ns 0x3FFFFFFF) (u64 (Z.shiftl (Z.land s 0x3FFFFFFFF) 30)) = ns + uwrap 34 s * 2 ^ 30.
Proof.
  intros Hns. pose proof (uwrap_range 34 s ltac:(lia)) as Hs.
  change 0x3FFFFFFF with (Z.ones 30). change 0x3FFFFFFFF with (Z.ones 34).
  rewrite !Z.land_ones by lia. rewrite (Z.mod_small ns) by lia. fold (uwrap 34 s).
  rewrite Z.shiftl_mul_pow2, uwrap_small by lia. rewrite Z.lor_comm.
  rewrite (lor_add_disjoint _ _ 30); [lia|lia| |lia].
  apply Z.mod_mul. lia.
Qed.

Lemma ts64_combine s ns :
  0 ≤ ns < 2 ^ 30 →
  let v := Z.lor (Z.land ns 0x3FFFFFFF) (u64 (Z.shiftl (Z.land s 0x3FFFFFFFF) 30)) in
  Z.shiftr (u64 v) 30 = uwrap 34 s ∧ Z.land (u64 v) 0x3FFFFFFF = ns.
Proof.
  intros Hns v. pose proof (uwrap_range 34 s ltac:(lia)) as Hs.
  assert (v = ns + uwrap 34 s * 2 ^ 30) as Hv by by apply ts64_word.
  clearbody v. rewrite uwrap_small by lia. subst v.
  change 0x3FFFFFFF with (Z.ones 30). rewrite Z.land_ones, Z.shiftr_div_pow2 by lia.
  rewrite Z.div_add, Z.mod_add, Z.div_small, Z.mod_small by lia. lia.
Qed.

#[export] Instance AppendTimestamp_appender format :
  Appender (λ dst t, AppendTimestamp dst t format).
Proof.
  intros dst t. unfold AppendTimestamp. repeat case_match; try done;
    first [by rewrite app_nil_r | apply appender].
Qed.

Lemma chooseFormat_not_auto t : chooseFormat t ≠ TsAuto.
Proof. unfold chooseFormat. repeat case_match; done. Qed.

Lemma format_of_not_auto t format : format_of t format ≠ TsAuto.
Proof. destruct format as [|[] ?]; try done; apply chooseFormat_not_auto. Qed.

Lemma AppendTimestamp_format dst t format :
  AppendTimestamp dst t format = AppendTimestamp dst t [format_of t format].
Proof.
  unfold AppendTimestamp. rewrite (bool_decide_false _ (format_of_not_auto t format)).
  destruct format as [|f ?]; [by rewrite bool_decide_true by done|].
  destruct (decide (f = TsAuto)) as [->|Hf]; [by rewrite bool_decide_true by done|].
  rewrite bool_decide_false by done. by destruct f.
Qed.

Lemma is_bytes_AppendTimestamp t format : is_bytes (AppendTimestamp [] t format).
Proof.
  unfold AppendTimestamp, msgpackTimestamp, fluentdEventTime.
  repeat case_match; cbn [app]; auto 20 with bytes.
Qed.

(** Step over a header byte and the extension type byte. *)
Ltac read_byte H :=
  let Hi := fresh "Hi" in pose proof (index_at _ _ _ _ H) as Hi; rewrite ?Hi; go_simpl;
  apply holds_at_cons in H.

Lemma ReadTimestamp_at s off t f :
  valid_time t → f ≠ TsAuto → holds_at s off (AppendTimestamp [] t [f]) →
  ReadTimestamp s off = Ret (ts_stored_as f t, off + lenZ (AppendTimestamp [] t [f]), None).
Proof.
  intros [Hu Hn] Hf H. pose proof (holds_at_bound _ _ _ H) as Hb.
  unfold AppendTimestamp in *. rewrite bool_decide_false in * by done. cbv zeta in *.
  destruct f; [done|..]; cbn [app] in *.
  - unfold ReadTimestamp, readTimestampBody. read_head H. change (Get 0xd6) with (Ext, 5, true). cbv iota beta.
    cbn [negb]. step_guard; [len_lia|]. apply holds_at_cons in H. cbn [Z.eqb Pos.eqb].
    read_byte H. cbn [negb]. rewrite Z.eqb_refl. cbn [negb].
    rewrite (be_at_enc _ _ 4 _ _ H) by lia. go_simpl.
    rewrite uwrap_small by (apply (uwrap_range 32); lia).
    pose proof (uwrap_range 32 (unix t) ltac:(lia)).
    rewrite time_Unix_id by lia. cbn [ts_stored_as]. do 3 f_equal. len_lia.
  - destruct (ts64_combine (unix t) (nanosecond t) ltac:(lia)) as [E1 E2]. cbv zeta in E1, E2.
    set (v := Z.lor _ _) in *.
    unfold ReadTimestamp, readTimestampBody. read_head H. change (Get 0xd7) with (Ext, 9, true). cbv iota beta.
    cbn [negb]. step_guard; [len_lia|]. apply holds_at_cons in H. cbn [Z.eqb Pos.eqb].
    read_byte H. rewrite Z.eqb_refl.
    rewrite <- (app_nil_r (be_enc 8 v)) in H. rewrite (be_from_enc _ _ 8 _ _ H). go_simpl.
    change (8 * Z.of_nat 8) with 64. rewrite E1, E2.
    pose proof (uwrap_range 34 (unix t) ltac:(lia)).
    rewrite time_Unix_id by lia. cbn [ts_stored_as]. do 3 f_equal. len_lia.
  - unfold ReadTimestamp, readTimestampBody. read_head H. change (Get 0xc7) with (Ext, 1, false). cbv iota beta.
    cbn [negb]. apply holds_at_cons in H.
    step_guard; [len_lia|]. destruct (holds_at_payload s _ [12] _ 1 H eq_refl) as [_ [sp Hsp]].
    rewrite Hsp. go_simpl.
    change (conv TInt (uintFromBuf TUint [12])) with 12. step_guard; [len_lia|].
    apply holds_at_cons in H. cbn [Z.eqb Pos.eqb]. read_byte H. rewrite Z.eqb_refl.
    rewrite (be_at_enc _ _ 4 _ _ (holds_at_app_l _ _ _ _ H)) by lia. go_simpl.
    apply holds_at_app_r in H. rewrite lenZ_be_enc in H.
    rewrite (be_at_enc _ _ 8 _ _ H) by lia. go_simpl.
    change (8 * Z.of_nat 4) with 32. rewrite !(uwrap_small 32 (nanosecond t)) by lia.
    change (8 * Z.of_nat 8) with 64. rewrite swrap_uwrap by lia.
    rewrite (swrap_small 64) by lia. rewrite time_Unix_id by lia.
    destruct t as [u n]. cbn [ts_stored_as unix nanosecond]. do 3 f_equal. len_lia.
  - pose proof (ReadInt_at _ _ _ Hu H) as HR.
    destruct (AppendInt_head (unix t) Hu) as (h & p & ty & E & Hh & HG & Hl & Hty).
    unfold ReadTimestamp, readTimestampBody. rewrite HR. rewrite E in H, Hb. read_head H. rewrite HG. cbn [negb].
    rewrite lenZ_cons in Hb. step_guard; [lia|].
    assert (∀ c, Get c = (Ext, (Get c).1.2, (Get c).2) → (h =? c) = false) as Hc.
    { intros c Ec. apply Z.eqb_neq. intros ->. rewrite HG in Ec. injection Ec. subst ty.
      by destruct (unix t <? 0). }
    rewrite !Hc by reflexivity. go_simpl. rewrite time_Unix_id by lia. done.
  - unfold ReadTimestamp, readTimestampBody. read_head H. change (Get 0xd7) with (Ext, 9, true). cbv iota beta.
    cbn [negb]. step_guard; [len_lia|]. apply holds_at_cons in H. cbn [Z.eqb Pos.eqb].
    read_byte H. cbn [Z.eqb Pos.eqb msgpackTimestamp fluentdEventTime].
    rewrite (be_at_enc _ _ 4 _ _ (holds_at_app_l _ _ _ _ H)) by lia. go_simpl.
    apply holds_at_app_r in H. rewrite lenZ_be_enc in H.
    rewrite (be_at_enc _ _ 4 _ _ H) by lia. go_simpl.
    rewrite !swrap_uwrap, (swrap_small 32 (nanosecond t)) by lia.
    pose proof (swrap_range 32 (unix t) ltac:(lia)).
    rewrite time_Unix_id by lia. cbn [ts_stored_as]. do 3 f_equal. len_lia.
Qed.

(** The iterator's reading of every format but Ts96, whose header understates
    its body. *)
Lemma readTimeUnsafe_at t f h p sp :
  valid_time t → f ≠ TsAuto → f ≠ Ts96 → AppendTimestamp [] t [f] = h :: p →
  readTimeUnsafe h (mkSlice p sp) = Ret (ts_stored_as f t).
Proof.
  intros [Hu Hn] Hf H96. unfold AppendTimestamp. rewrite bool_decide_false by done.
  assert (∀ ty bs, holds_at (mkSlice (ty :: bs) sp) 1 bs) as H1.
  { intros ty bs. exists [ty], []. by rewrite app_nil_r. }
  destruct f; [done| | |done| |]; cbn [app]; cbv zeta.
  - intros [-> ->]%cons_eq_inv. unfold readTimeUnsafe. step_guard; [len_lia|]. cbn [Z.eqb Pos.eqb].
    change (index _ 0) with (Ret msgpackTimestamp). go_simpl. rewrite Z.eqb_refl.
    pose proof (H1 msgpackTimestamp (be_enc 4 (u32 (unix t)))) as H.
    rewrite <- (app_nil_r (be_enc 4 _)) in H at 2. rewrite (be_from_enc _ _ 4 _ _ H). go_simpl.
    rewrite uwrap_small by (apply (uwrap_range 32); lia).
    pose proof (uwrap_range 32 (unix t) ltac:(lia)). by rewrite time_Unix_id by lia.
  - destruct (ts64_combine (unix t) (nanosecond t) ltac:(lia)) as [E1 E2]. cbv zeta in E1, E2.
    set (v := Z.lor _ _) in *. intros [-> ->]%cons_eq_inv. unfold readTimeUnsafe.
    step_guard; [len_lia|]. cbn [Z.eqb Pos.eqb].
    change (index _ 0) with (Ret msgpackTimestamp). go_simpl. rewrite Z.eqb_refl.
    decide_guard. pose proof (H1 msgpackTimestamp (be_enc 8 v)) as H.
    rewrite <- (app_nil_r (be_enc 8 v)) in H at 2. rewrite (be_from_enc _ _ 8 _ _ H). go_simpl.
    change (8 * Z.of_nat 8) with 64. rewrite E1, E2.
    pose proof (uwrap_range 34 (unix t) ltac:(lia)). by rewrite time_Unix_id by lia.
  - intros E. destruct (AppendInt_head (unix t) Hu) as (h' & p' & ty & E' & Hh & HG & Hl & Hty).
    pose proof (readIntUnsafe_AppendInt _ _ _ Hu E) as HR.
    rewrite E' in E. injection E as <- <-.
    assert (∀ c, Get c = (Ext, (Get c).1.2, (Get c).2) → (h' =? c) = false) as Hc.
    { intros c Ec. apply Z.eqb_neq. intros ->. rewrite HG in Ec. injection Ec. subst ty.
      by destruct (unix t <? 0). }
    unfold readTimeUnsafe. rewrite !Hc by reflexivity. cbn [live]. rewrite HR.
    rewrite time_Unix_id by lia. by step_guard.
  - intros [-> ->]%cons_eq_inv. unfold readTimeUnsafe. step_guard; [len_lia|]. cbn [Z.eqb Pos.eqb].
    change (index _ 0) with (Ret fluentdEventTime). go_simpl.
    change (fluentdEventTime =? msgpackTimestamp) with false. rewrite Z.eqb_refl. decide_guard.
    pose proof (H1 fluentdEventTime (be_enc 4 (u32 (unix t)) ++ be_enc 4 (u32 (nanosecond t)))) as H.
    rewrite (be_from_enc _ _ 4 _ _ H). go_simpl.
    apply holds_at_app_r in H. rewrite lenZ_be_enc in H. change (1 + Z.of_nat 4) with 5 in H.
    rewrite <- (app_nil_r (be_enc 4 (u32 (nanosecond t)))) in H at 2.
    rewrite (be_from_enc _ _ 4 _ _ H). go_simpl.
    rewrite !swrap_uwrap, (swrap_small 32 (nanosecond t)) by lia.
    pose proof (swrap_range 32 (unix t) ltac:(lia)). by rewrite time_Unix_id by lia.
Qed.

(** ** Properties *)

(** C29: A timestamp that [AppendTimestamp] appends in any format is read back by
    [ReadTimestamp] at its offset as what the format keeps of it: the second
    modulo [2^32] for Ts32, modulo [2^34] with the nanosecond for Ts64, both in
    full for Ts96, the second for TsInt, and the second as a signed 32-bit
    number with the nanosecond for TsFluentd. *)
Theorem ReadTimestamp_AppendTimestamp dst t format rest sp :
  valid_time t →
  ReadTimestamp (mkSlice (AppendTimestamp dst t format ++ rest) sp) (lenZ dst) =
    Ret (ts_stored format t, lenZ (AppendTimestamp dst t format), None).
Proof.
  intros Ht. rewrite (lenZ_appender (λ dst t, AppendTimestamp dst t format)).
  rewrite (AppendTimestamp_format [] t format).
  apply ReadTimestamp_at; [done|apply format_of_not_auto|].
  rewrite <- AppendTimestamp_format.
  eapply holds_at_app_l, (holds_at_appender (λ dst t, AppendTimestamp dst t format)).
Qed.

Lemma ReadTimestamp_AppendTimestamp_witness :
  ReadTimestamp (mkSlice (AppendTimestamp [1] (mkTime 1735693323 5) [TsFluentd] ++ [2]) []) 1 =
    Ret (mkTime 1735693323 5, 11, None).
Proof.
  apply (ReadTimestamp_AppendTimestamp [1] (mkTime 1735693323 5) [TsFluentd] [2] []).
  unfold valid_time. cbn. lia.
Defined.

(** The times that a format keeps exactly. *)
Definition exact_in (f : TsFormat) (t : Time) : bool :=
  match f with
  | TsAuto => true
  | Ts32 => (0 <=? unix t) && (unix t <? 2 ^ 32) && (nanosecond t =? 0)
  | Ts64 => (0 <=? unix t) && (unix t <? 2 ^ 34)
  | Ts96 => true
  | TsInt => nanosecond t =? 0
  | TsFluentd => (- 2 ^ 31 <=? unix t) && (unix t <? 2 ^ 31)
  end.

(** Which timestamps survive a round trip unchanged: for an explicit format
    exactly those of [exact_in], so an EventTime (TsFluentd) only until second
    [2^31] (January 2038); for TsAuto every time before second [2^32], and after
    it those with a nanosecond before second [2^34]: a whole second from [2^32]
    on is written as Ts32 and truncated. *)
Theorem timestamp_exact t format :
  valid_time t →
  ts_stored format t = t ↔
    match format with
    | [] | TsAuto :: _ => unix t < 2 ^ 32 ∨ (nanosecond t ≠ 0 ∧ unix t < 2 ^ 34)
    | f :: _ => exact_in f t = true
    end.
Proof.
  destruct t as [u n]. unfold valid_time. cbn [unix nanosecond]. intros [Hu Hn].
  pose proof (uwrap_range 32 u ltac:(lia)) as R32. pose proof (uwrap_range 34 u ltac:(lia)) as R34.
  pose proof (swrap_range 32 u ltac:(lia)) as RS.
  assert (0 ≤ u < 2 ^ 32 → u32 u = u) as E32 by (intros; by apply uwrap_small).
  assert (0 ≤ u < 2 ^ 34 → uwrap 34 u = u) as E34 by (intros; by apply uwrap_small).
  assert (- 2 ^ 31 ≤ u < 2 ^ 31 → i32 u = u) as ES by (intros; apply swrap_small; lia).
  assert (ts_stored_as (chooseFormat (mkTime u n)) (mkTime u n) = mkTime u n ↔
          u < 2 ^ 32 ∨ (n ≠ 0 ∧ u < 2 ^ 34)) as Hauto.
  { unfold chooseFormat. cbn [unix nanosecond]. destruct (u <? 0) eqn:E0; [split; [lia|done]|].
    destruct (n =? 0) eqn:En; cbn [ts_stored_as unix nanosecond].
    - split; [intros [=]; lia|]. intros H. f_equal; [apply E32|]; lia.
    - split; [intros [=]; lia|]. intros H. f_equal. apply E34. lia. }
  unfold ts_stored, format_of. destruct format as [|f l]; [exact Hauto|].
  destruct f; [exact Hauto|..]; cbn [ts_stored_as exact_in unix nanosecond].
  - split; [intros [=]; lia|]. intros H. f_equal; [apply E32|]; lia.
  - split; [intros [=]; lia|]. intros H. f_equal. apply E34. lia.
  - done.
  - split; [intros [=]; lia|]. intros H. f_equal. lia.
  - split; [intros [=]; lia|]. intros H. f_equal. apply ES. lia.
Qed.

Lemma timestamp_exact_witness :
  ts_stored [] (mkTime (2 ^ 32) 0) = mkTime (2 ^ 32) 0 ↔
    2 ^ 32 < 2 ^ 32 ∨ (0 ≠ 0 ∧ 2 ^ 32 < 2 ^ 34).
Proof. apply (timestamp_exact (mkTime (2 ^ 32) 0) []). unfold valid_time. cbn. lia. Defined.

(** [ReadTimestamp] never panics on bytes that do not start with the ext8
    header 0xc7: it returns the zero time and offset with an error, or an offset
    after the head byte and inside the slice. *)
Theorem ReadTimestamp_total src off :
  is_bytes (live src) → 0 ≤ off → index src off ≠ Ret 0xc7 →
  ∃ t n e, ReadTimestamp src off = Ret (t, n, e) ∧
    match e with
    | Some _ => t = zeroTime ∧ n = 0
    | None => off < n ≤ slen src
    end.
Proof.
  intros Hs Hoff Hc7. unfold ReadTimestamp.
  step_guard; [read_fails|]. step_index src off Hs c Hc.
  destruct (Get c) as [[ty l] v] eqn:EG. destruct (Get_length c ty l v Hc EG) as [Hl Hl4].
  assert (∀ n lo, off < lo → 0 ≤ n → (c = 0xd6 → n = 5) → (c = 0xd7 → n = 9) →
    ∃ t m e, readTimestampBody src off c n lo = Ret (t, m, e) ∧
      match e with Some _ => t = zeroTime ∧ m = 0 | None => off < m ≤ slen src end) as Hread.
  { intros n lo Hlo Hn H6 H7. unfold readTimestampBody.
    step_guard; [read_fails|]. destruct (c =? 0xd6) eqn:E6.
    { specialize (H6 ltac:(lia)). subst n. step_index src lo Hs h Hh. step_guard; [read_fails|].
      destruct (be_at_total src (lo + 1) 4 (lo + 1 + 4) Hs) as (s & -> & _); [lia..|]. go_simpl.
      do 3 eexists. split; [reflexivity|]. cbv iota. lia. }
    destruct (c =? 0xd7) eqn:E7.
    { specialize (H7 ltac:(lia)). subst n. step_index src lo Hs h Hh. step_guard.
      - destruct (be_from_total src (lo + 1) 8 Hs) as (s & -> & _); [lia..|]. go_simpl.
        do 3 eexists. split; [reflexivity|]. cbv iota. lia.
      - step_guard; [|read_fails].
        destruct (be_at_total src (lo + 1) 4 (lo + 1 + 4) Hs) as (s & -> & _); [lia..|]. go_simpl.
        destruct (be_at_total src (lo + 1 + 4) 4 (lo + 1 + 8) Hs) as (ns & -> & _); [lia..|]. go_simpl.
        do 3 eexists. split; [reflexivity|]. cbv iota. lia. }
    destruct (c =? 0xc7) eqn:E8; [by replace c with 0xc7 in Hc7 by lia|].
    destruct (ReadInt_inv src off Hs Hoff) as (s & m & e & -> & H). go_simpl.
    destruct e; [read_fails|]. do 3 eexists. split; [reflexivity|]. cbv iota.
    destruct H as (Hm & k & lk & Hk & -> & [[HG _]|[HG _]]).
    - destruct (Get_Uint k lk true Hk HG) as [_ ?]. lia.
    - destruct (Get_Int k lk true Hk HG) as [_ ?]. lia. }
  assert (c = 0xd6 → l = 5 ∧ v = true) as H6 by (intros ->; injection EG; auto).
  assert (c = 0xd7 → l = 9 ∧ v = true) as H7 by (intros ->; injection EG; auto).
  destruct v; cbn [negb]; [apply Hread; lia|].
  step_guard; [read_fails|]. specialize (Hl4 eq_refl). step_reslice src (off + 1) l Hs b.
  pose proof (uintFromBuf_bound _ Hb) as Hu.
  assert (uintFromBuf TUint (live b) = uintFromBuf TUint64 (live b)) as -> by done.
  assert (256 ^ lenZ (live b) ≤ 256 ^ 4) by (apply Z.pow_le_mono_r; lia).
  rewrite conv_id by (unfold in_type; cbn [is_signed bits_of]; lia).
  apply Hread; [lia..| |]; intros E; [destruct (H6 E)|destruct (H7 E)]; done.
Qed.

Lemma ReadTimestamp_total_witness :
  ∃ t n e, ReadTimestamp (sl [0xd7; 1; 0; 0; 0; 0; 0; 0; 0; 0]) 0 = Ret (t, n, e) ∧
    match e with
    | Some _ => t = zeroTime ∧ n = 0
    | None => 0 < n ≤ 10
    end.
Proof.
  apply (ReadTimestamp_total (sl [0xd7; 1; 0; 0; 0; 0; 0; 0; 0; 0]) 0); [|lia|].
  - repeat constructor; lia.
  - vm_compute. discriminate.
Defined.

(** A Ts96 timestamp whose last byte is missing is not reported as a short
    buffer: the length of an ext8 value does not count its type byte, so the
    check passes and the slice expression panics when the slice has no spare
    capacity.  Cut further, it is reported as a short buffer. *)
Theorem ReadTimestamp_Ts96_truncated t k :
  valid_time t → (2 ≤ k ≤ 14)%nat →
  ReadTimestamp (sl (take k (AppendTimestamp [] t [Ts96]))) 0 =
    if (k =? 14)%nat then Panic SliceOutOfRange else Ret (zeroTime, 0, Some ErrShortBuffer).
Proof.
  intros Ht Hk. unfold AppendTimestamp. rewrite bool_decide_false by done. cbn [app].
  destruct t as [u n]. cbn [unix nanosecond].
  generalize (u32 n). intros m. generalize u. intros s. clear -Hk.
  do 15 (destruct k as [|k]; [first [lia|reflexivity]|]). lia.
Qed.

Lemma ReadTimestamp_Ts96_truncated_witness :
  ReadTimestamp (sl [0xc7; 12; 0xff; 0; 0; 0; 0; 0; 0; 0; 0; 0x67; 0x74; 0x94]) 0 =
    Panic SliceOutOfRange.
Proof.
  apply (ReadTimestamp_Ts96_truncated (mkTime 0x67749400 0) 14); [|lia].
  unfold valid_time. cbn. lia.
Defined.
