(* ===== verification/Object.v ===== *)
(** * Object: MessagePack objects and their encodings

    The trees of values that the append functions of pkg/msgpack write: [scalar]
    is a value without elements, [obj] a scalar, an array or a map.
    [encode_scalar] and [encode] call the append functions, a header followed by
    the elements for a container.  [encodes o bs] is the relation of an object
    to its encodings, with headers of any width; the theorems about the readers
    of streams are stated for it, and [encode_encodes] shows that the append
    functions produce one.

    [wire] says what the bytes of a scalar are, as the MessagePack format does
    and without the code's decoders; [wire_decodes] shows that those read them.
    [scalar_split] is what those readers rely on: an encoded scalar is a header
    with a length, then a body of that length; only a Ts96 timestamp has one
    more byte in its body than its header says. *)

From S2P Require Import Prelude Types Errors Integer Headers Str Float Timestamp.

#[local] Set Warnings "-register-all".

Inductive scalar :=
  | SNil
  | SBool (b : bool)
  | SInt (z : Z)
  | SUint (z : Z)
  | SFloat (f : Z)
  | SStr (s : list Z)
  | SBin (s : list Z)
  | STime (t : Time) (f : TsFormat).

Inductive obj :=
  | OScalar (s : scalar)
  | OArray (os : list obj)
  | OMap (kvs : list (obj * obj)).

Definition encode_scalar (s : scalar) : list Z :=
  match s with
  | SNil => AppendNil []
  | SBool b => AppendBool [] b
  | SInt z => AppendInt [] z
  | SUint z => AppendUint [] z
  | SFloat f => AppendFloat [] f
  | SStr s => AppendString [] s
  | SBin s => AppendBinary [] s
  | STime t f => AppendTimestamp [] t [f]
  end.

Fixpoint encode (o : obj) : list Z :=
  match o with
  | OScalar s => encode_scalar s
  | OArray os => AppendArrayHeader [] (lenZ os) ++ flat_map encode os
  | OMap kvs => AppendMapHeader [] (lenZ kvs) ++ flat_map (λ kv, encode kv.1 ++ encode kv.2) kvs
  end.

Definition valid_scalar (s : scalar) : Prop :=
  match s with
  | SNil | SBool _ => True
  | SInt z => - 2 ^ 63 ≤ z < 2 ^ 63
  | SUint z => 0 ≤ z < 2 ^ 64
  | SFloat f => 0 ≤ f < 2 ^ 64
  | SStr s | SBin s => is_bytes s ∧ lenZ s < 2 ^ 32
  | STime t f => valid_time t ∧ f ≠ TsAuto
  end.

(** The object of a record with the fields [fs]. *)
Definition record_obj (fs : list (list Z * obj)) : obj :=
  OMap (map (λ f, (OScalar (SStr f.1), f.2)) fs).

(** A Ts96 timestamp is the one scalar whose header understates its body. *)
Definition is_Ts96 (s : scalar) : bool :=
  match s with STime _ Ts96 => true | _ => false end.

(** Scalars that the readers by length handle. *)
Definition plain_scalar (s : scalar) : Prop := valid_scalar s ∧ is_Ts96 s = false.

(** [P] of every scalar, and containers of less than [2^32] items. *)
Fixpoint all_scalars (P : scalar → Prop) (o : obj) : Prop :=
  match o with
  | OScalar s => P s
  | OArray os => lenZ os < 2 ^ 32 ∧ foldr (λ o Q, all_scalars P o ∧ Q) True os
  | OMap kvs => lenZ kvs < 2 ^ 32 ∧
      foldr (λ kv Q, (all_scalars P kv.1 ∧ all_scalars P kv.2) ∧ Q) True kvs
  end.

Abbreviation plain := (all_scalars plain_scalar).

Lemma obj_ind' (P : obj → Prop) :
  (∀ s, P (OScalar s)) → (∀ os, Forall P os → P (OArray os)) →
  (∀ kvs, Forall (λ kv, P kv.1 ∧ P kv.2) kvs → P (OMap kvs)) → ∀ o, P o.
Proof.
  intros Hs Ha Hm. fix IH 1. intros [s|os|kvs]; [apply Hs|apply Ha|apply Hm].
  - induction os; constructor; [apply IH|done].
  - induction kvs as [|[k v] kvs IHk]; constructor; [split; apply IH|done].
Qed.

Lemma all_scalars_array P os :
  all_scalars P (OArray os) ↔ lenZ os < 2 ^ 32 ∧ Forall (all_scalars P) os.
Proof.
  cbn [all_scalars]. apply and_iff_compat_l.
  induction os as [|o os IH]; cbn [foldr]; [by split; [constructor|]|].
  rewrite IH, Forall_cons. done.
Qed.

Lemma all_scalars_map P kvs :
  all_scalars P (OMap kvs) ↔
    lenZ kvs < 2 ^ 32 ∧ Forall (λ kv, all_scalars P kv.1 ∧ all_scalars P kv.2) kvs.
Proof.
  cbn [all_scalars]. apply and_iff_compat_l.
  induction kvs as [|o kvs IH]; cbn [foldr]; [by split; [constructor|]|].
  rewrite IH, Forall_cons. done.
Qed.

(** ** The header and the body of a scalar *)

Definition scalar_type (s : scalar) : type :=
  match s with
  | SNil => Nil
  | SBool _ => Bool
  | SInt z | STime (mkTime z _) TsInt => if z <? 0 then Int else Uint
  | SUint _ => Uint
  | SFloat _ => Float
  | SStr _ => Str
  | SBin _ => Bin
  | STime _ _ => Ext
  end.

Lemma scalar_type_scalar s : scalar_type s ≠ Array ∧ scalar_type s ≠ Map.
Proof. destruct s; simpl; repeat case_match; done. Qed.

Lemma single_header t c l : is_byte c → Get c = (t, l, true) → length_header t [c] l.
Proof. intros. left. by exists c. Qed.

(** ** The bytes of a scalar

    What the format says of the head byte [c] and the [body] of each scalar, with
    no reference to the functions that read them.  An integer need not have the
    shortest form. *)

Definition int_form (n : nat) (k : Z) : Prop :=
  (n = 1%nat ∧ k = 0) ∨ (n = 2%nat ∧ k = 1) ∨ (n = 4%nat ∧ k = 2) ∨ (n = 8%nat ∧ k = 3).

Definition int_wire (z c : Z) (body : list Z) : Prop :=
  (0 ≤ z ≤ 127 ∧ c = z ∧ body = []) ∨
  (-32 ≤ z < 0 ∧ c = 256 + z ∧ body = []) ∨
  ∃ n k, int_form n k ∧ body = be_enc n z ∧
    ((0 ≤ z < 2 ^ (8 * Z.of_nat n) ∧ c = 0xcc + k) ∨
     (- 2 ^ (8 * Z.of_nat n - 1) ≤ z < 0 ∧ c = 0xd0 + k)).

(** A float64, or a float32 that widens to it. *)
Definition float_wire (f c : Z) (body : list Z) : Prop :=
  (c = 0xca ∧ ∃ f32, 0 ≤ f32 < 2 ^ 32 ∧ body = be_enc 4 f32 ∧ float64_of f32 = f) ∨
  (c = 0xcb ∧ 0 ≤ f < 2 ^ 64 ∧ body = be_enc 8 f).

Definition time_wire (t : Time) (f : TsFormat) (c : Z) (body : list Z) : Prop :=
  match f with
  | Ts32 => c = 0xd6 ∧ body = 0xff :: be_enc 4 (u32 (unix t))
  | Ts64 => c = 0xd7 ∧ body = 0xff :: be_enc 8 (nanosecond t + 2 ^ 30 * uwrap 34 (unix t))
  | TsFluentd => c = 0xd7 ∧ body = 0x00 :: be_enc 4 (u32 (unix t)) ++ be_enc 4 (u32 (nanosecond t))
  | TsInt => int_wire (unix t) c body
  | Ts96 | TsAuto => False
  end.

Definition wire (s : scalar) (c : Z) (body : list Z) : Prop :=
  match s with
  | SNil => c = 0xc0 ∧ body = []
  | SBool b => c = (if b then 0xc3 else 0xc2) ∧ body = []
  | SInt z => - 2 ^ 63 ≤ z < 2 ^ 63 ∧ int_wire z c body
  | SUint z => 0 ≤ z ∧ int_wire z c body
  | SFloat f => float_wire f c body
  | SStr x | SBin x => body = x
  | STime t f => valid_time t ∧ time_wire t f c body
  end.

(** The head byte [c] and the [body] decode to the integer [z]. *)
Definition int_decodes (z c : Z) (body : list Z) : Prop :=
  readIntUnsafe TInt64 c body = z ∧ (0 ≤ z → readIntUnsafe TUint64 c body = z).

(** The head byte [c] and the [body] of a scalar are read as its value. *)
Definition body_decodes (s : scalar) (c : Z) (body : list Z) : Prop :=
  match s with
  | SNil => body = []
  | SBool b => body = [] ∧ readBoolUnsafe c = b
  | SInt z => int_decodes z c body
  | SUint z => readIntUnsafe TUint64 c body = z
  | SFloat f => floatFromBuf body = f
  | SStr x | SBin x => body = x
  | STime t f =>
      (f ≠ Ts96 → ∀ sp, readTimeUnsafe c (mkSlice body sp) = Ret (ts_stored_as f t)) ∧
      (f = TsInt → int_decodes (unix t) c body)
  end.

Lemma readIntUnsafe_wire T z c body :
  in_type T z → int_wire z c body → readIntUnsafe T c body = z.
Proof.
  intros HT H. unfold readIntUnsafe.
  destruct H as [(Hz & -> & ->)|[(Hz & -> & ->)|(n & k & Hn & -> & [[Hz ->]|[Hz ->]])]].
  - rewrite Get_posfix by lia. destruct (z <=? 0x7f) eqn:E; [|lia].
    rewrite swrap_small by lia. by apply conv_id.
  - rewrite Get_negfix by lia. destruct (0xe0 <=? 256 + z) eqn:E; [|lia].
    rewrite (swrap_high 8) by lia. replace (256 + z - 2 ^ 8) with z by lia. by apply conv_id.
  - assert (∃ l, Get (0xcc + k) = (Uint, l, true) ∧ (0xcc + k <=? 0x7f) = false) as (l & -> & ->).
    { destruct Hn as [[_ ->]|[[_ ->]|[[_ ->]|[_ ->]]]]; by eexists. }
    rewrite uintFromBuf_enc; [by apply conv_id|unfold int_form in Hn; lia|done].
  - assert (- 2 ^ (8 * Z.of_nat n - 1) ≤ z < 2 ^ (8 * Z.of_nat n - 1)) as Hz'.
    { pose proof (Z.pow_nonneg 2 (8 * Z.of_nat n - 1)). lia. }
    assert (∃ l, Get (0xd0 + k) = (Int, l, true) ∧ (0xe0 <=? 0xd0 + k) = false) as (l & -> & ->).
    { destruct Hn as [[_ ->]|[[_ ->]|[[_ ->]|[_ ->]]]]; by eexists. }
    rewrite intFromBuf_enc; [by apply conv_id|unfold int_form in Hn; lia|done].
Qed.

Lemma int_wire_decodes z c body :
  - 2 ^ 63 ≤ z < 2 ^ 63 → int_wire z c body → int_decodes z c body.
Proof.
  intros Hz Hw. split; [|intros H0]; (apply readIntUnsafe_wire; [|done]);
    unfold in_type; cbn [is_signed bits_of]; lia.
Qed.

(** The append functions write integers so. *)
Lemma AppendUint_wire z :
  0 ≤ z < 2 ^ 64 → ∃ c body, AppendUint [] z = c :: body ∧ int_wire z c body.
Proof.
  intros Hz. unfold AppendUint, int_wire, int_form.
  destruct (z <=? 127) eqn:E1; [eexists z, []; rewrite uwrap_small by lia; split; [done|by left; split; [lia|]]|].
  destruct (z <=? 255) eqn:E2.
  { exists 0xcc, (be_enc 1 z). split; [done|]. do 2 right. exists 1%nat, 0. split_and!; [auto|done|left; lia]. }
  destruct (z <=? 65535) eqn:E3.
  { exists 0xcd, (be_enc 2 z). split; [done|]. do 2 right. exists 2%nat, 1. split_and!; [auto|done|left; lia]. }
  destruct (z <=? 4294967295) eqn:E4.
  { exists 0xce, (be_enc 4 z). split; [done|]. do 2 right. exists 4%nat, 2. split_and!; [auto|done|left; lia]. }
  exists 0xcf, (be_enc 8 z). split; [done|]. do 2 right. exists 8%nat, 3. split_and!; [auto|done|left; lia].
Qed.

Lemma AppendInt_wire z :
  - 2 ^ 63 ≤ z < 2 ^ 63 → ∃ c body, AppendInt [] z = c :: body ∧ int_wire z c body.
Proof.
  intros Hz. destruct (Z.lt_ge_cases z 0) as [H0|H0].
  2:{ rewrite AppendInt_nonneg by lia. apply AppendUint_wire. lia. }
  unfold AppendInt, int_wire, int_form. destruct (0 <=? z) eqn:E0; [lia|].
  destruct (-32 <=? z) eqn:E1.
  { eexists _, []. split; [reflexivity|]. right; left. split_and!; [lia|lia| |done].
    unfold uwrap. rewrite <- (Z.mod_add z 1 (2 ^ 8)) by lia. rewrite Z.mod_small; lia. }
  destruct (-128 <=? z) eqn:E2.
  { exists 0xd0, (be_enc 1 z). split; [done|]. do 2 right. exists 1%nat, 0. split_and!; [auto|done|right; lia]. }
  destruct (-32768 <=? z) eqn:E3.
  { exists 0xd1, (be_enc 2 z). split; [done|]. do 2 right. exists 2%nat, 1. split_and!; [auto|done|right; lia]. }
  destruct (-2147483648 <=? z) eqn:E4.
  { exists 0xd2, (be_enc 4 z). split; [done|]. do 2 right. exists 4%nat, 2. split_and!; [auto|done|right; lia]. }
  exists 0xd3, (be_enc 8 z). split; [done|]. do 2 right. exists 8%nat, 3. split_and!; [auto|done|right; lia].
Qed.

Lemma AppendFloat_wire f :
  0 ≤ f < 2 ^ 64 → ∃ c body, AppendFloat [] f = c :: body ∧ float_wire f c body.
Proof.
  intros Hf. pose proof (float32_of_range f) as H32. unfold AppendFloat, float_wire.
  destruct (float64_eq _ _) eqn:E; (eexists _, _; split; [reflexivity|]).
  - left. split; [done|]. exists (float32_of f). split_and!; [lia|lia|done|by apply float32_exact].
  - by right.
Qed.

Lemma AppendTimestamp_wire t f :
  valid_time t → f ≠ TsAuto → f ≠ Ts96 →
  ∃ c body, AppendTimestamp [] t [f] = c :: body ∧ time_wire t f c body.
Proof.
  intros [Hu Hn] Ha H96. unfold AppendTimestamp. rewrite bool_decide_false by done.
  destruct f; try done; cbn [time_wire]; try by do 2 eexists.
  - cbv zeta. rewrite ts64_word by lia. do 2 eexists. split; [reflexivity|]. split; [done|].
    by rewrite Z.mul_comm.
  - by apply AppendInt_wire.
Qed.

Lemma time_wire_append t f c body :
  valid_time t → time_wire t f c body → f ≠ TsInt → AppendTimestamp [] t [f] = c :: body.
Proof.
  intros [Hu Hn] Hw Hi. unfold AppendTimestamp.
  destruct f; cbn [time_wire] in Hw; try done; rewrite bool_decide_false by done; cbv zeta;
    rewrite ?ts64_word by lia; destruct Hw as [-> ->]; rewrite ?(Z.mul_comm (2 ^ 30)); done.
Qed.

(** The bytes of a scalar are read as its value. *)
Lemma wire_decodes s c body : wire s c body → body_decodes s c body.
Proof.
  destruct s as [|b|z|z|f|x|x|t f]; cbn [wire body_decodes].
  - by intros [_ ->].
  - by intros [-> ->]; destruct b.
  - intros [Hz Hw]. by apply int_wire_decodes.
  - intros [Hz Hw]. apply readIntUnsafe_wire; [|done]. unfold in_type; cbn [is_signed bits_of].
    destruct Hw as [(? & _)|[(? & _)|(n & k & Hn & _ & [[? _]|[? _]])]]; [lia|lia| |lia].
    assert (2 ^ (8 * Z.of_nat n) ≤ 2 ^ 64); [|lia]. apply Z.pow_le_mono_r; [lia|]. unfold int_form in Hn. lia.
  - unfold floatFromBuf. intros [(-> & f32 & Hf & -> & <-)|(-> & Hf & ->)];
      by rewrite length_be_enc, be_dec_enc, uwrap_small by lia.
  - done.
  - done.
  - intros [Ht Hw]. destruct (decide (f = TsInt)) as [->|Hi].
    + destruct (int_wire_decodes _ _ _ ltac:(apply Ht) Hw) as [D1 D2]. split; [|done]. intros _ sp.
      assert (c ≠ 0xd6 ∧ c ≠ 0xd7 ∧ c ≠ 0xc7) as (N1 & N2 & N3).
      { cbn [time_wire] in Hw.
        destruct Hw as [(? & ? & _)|[(? & ? & _)|(n & k & Hk & _ & Hc)]]; [lia|lia|]. unfold int_form in Hk. lia. }
      apply Z.eqb_neq in N1, N2, N3. unfold readTimeUnsafe. cbn [live]. rewrite N1, N2, N3, D1.
      destruct Ht as [Hu Hn]. rewrite time_Unix_id by lia. by destruct (_ <? _).
    + split; [|done]. intros H96 sp. apply readTimeUnsafe_at; [done|by destruct f|done|].
      by apply time_wire_append.
Qed.

Lemma time_split t f :
  valid_time t → f ≠ TsAuto → f ≠ TsInt →
  ∃ hd body, AppendTimestamp [] t [f] = hd ++ body ∧
    length_header Ext hd (lenZ body - Z.b2z (bool_decide (f = Ts96))) ∧
    (f ≠ Ts96 → ∃ h, hd = [h]).
Proof.
  intros [Hu Hn] Hf Hi. unfold AppendTimestamp. rewrite bool_decide_false by done.
  destruct f; [done| | | |done|]; cbn [app].
  - eexists [0xd6], _. split; [reflexivity|]. split; [|by eexists].
    apply single_header; [unfold is_byte; lia|]. rewrite lenZ_cons, lenZ_be_enc. done.
  - eexists [0xd7], _. split; [reflexivity|]. split; [|by eexists].
    apply single_header; [unfold is_byte; lia|]. rewrite lenZ_cons, lenZ_be_enc. done.
  - exists [0xc7; 12]. eexists. split; [reflexivity|]. split; [|done].
    right. exists 0xc7, 1%nat. rewrite lenZ_cons, lenZ_app, !lenZ_be_enc.
    rewrite bool_decide_true by done.
    split_and!; [done|unfold is_byte; lia|done|lia|done|done].
  - eexists [0xd7], _. split; [reflexivity|]. split; [|by eexists].
    apply single_header; [unfold is_byte; lia|]. rewrite lenZ_cons, lenZ_app, !lenZ_be_enc. done.
Qed.

(** The header of a scalar: one byte, except for strings, binary and Ts96. *)
Definition scalar_head (s : scalar) (hd : list Z) : Prop :=
  match s with
  | SStr x => hd = string_header (lenZ x)
  | SBin x => hd = appendBinaryHeader [] (lenZ x)
  | _ => is_Ts96 s = false → length hd = 1%nat
  end.

Lemma int_split z :
  - 2 ^ 63 ≤ z < 2 ^ 63 →
  ∃ h p, AppendInt [] z = [h] ++ p ∧ length_header (if z <? 0 then Int else Uint) [h] (lenZ p) ∧
    int_wire z h p.
Proof.
  intros Hz. destruct (AppendInt_head z Hz) as (h & p & t & E & Hb & HG & _ & ->).
  destruct (AppendInt_wire z Hz) as (c & body & E' & Hw). rewrite E in E'. injection E' as <- <-.
  exists h, p. split_and!; [done|by apply single_header|done].
Qed.

Lemma scalar_split s :
  valid_scalar s →
  ∃ hd body, encode_scalar s = hd ++ body ∧
    length_header (scalar_type s) hd (lenZ body - Z.b2z (is_Ts96 s)) ∧
    (is_Ts96 s = false → wire s (default 0 (head hd)) body) ∧ scalar_head s hd.
Proof.
  destruct s as [|b|z|z|f|s|s|t f]; cbn [valid_scalar encode_scalar is_Ts96 Z.b2z wire];
    try rewrite Z.sub_0_r.
  - intros _. exists [0xc0], []. split_and!; [done| |done..].
    apply single_header; [unfold is_byte; lia|done].
  - intros _. exists (AppendBool [] b), []. rewrite app_nil_r.
    destruct b; (split_and!; [done| |done..]); (apply single_header; [unfold is_byte; lia|done]).
  - intros Hz. destruct (int_split z Hz) as (h & p & E & Hh & Hd). exists [h], p. rewrite Z.sub_0_r.
    by split_and!.
  - intros Hz. destruct (AppendUint_head z Hz) as (h & p & E & Hb & HG & _).
    destruct (AppendUint_wire z Hz) as (c & body & E' & Hw). rewrite E in E'. injection E' as <- <-.
    exists [h], p. rewrite Z.sub_0_r. split_and!; [done|by apply single_header| |done].
    intros _. split; [lia|done].
  - intros Hf. destruct (AppendFloat_cases f Hf) as (h & n & v & E & Hb & HG & Hv).
    destruct (AppendFloat_wire f Hf) as (c & body & E' & Hw). rewrite E in E'. injection E' as <- <-.
    exists [h], (be_enc n v). rewrite Z.sub_0_r, lenZ_be_enc.
    split_and!; [done|by apply single_header|done|done].
  - intros [Hs Hl]. exists (string_header (lenZ s)), s. rewrite Z.sub_0_r.
    split_and!; [apply AppendString_split| |done|done].
    apply string_header_spec. pose proof (lenZ_nonneg s). lia.
  - intros [Hs Hl]. exists (appendBinaryHeader [] (lenZ s)), s. rewrite Z.sub_0_r.
    split_and!; [apply AppendBinary_split| |done|done].
    apply binary_header_spec. pose proof (lenZ_nonneg s). lia.
  - intros [Ht Hf]. destruct (decide (f = TsInt)) as [->|Hi].
    + destruct (int_split (unix t) ltac:(apply Ht)) as (h & p & E & Hh & Hd).
      assert (AppendTimestamp [] t [TsInt] = [h] ++ p) as E' by exact E.
      exists [h], p. rewrite Z.sub_0_r. by split_and!; [|destruct t| |].
    + destruct (time_split t f Ht Hf Hi) as (hd & body & E & Hh & H1). exists hd, body.
      split; [done|]. split; [by destruct t, f|]. split.
      * intros H96. assert (f ≠ Ts96) as H96' by by destruct f. split; [done|].
        destruct (H1 H96') as [h ->]. destruct (AppendTimestamp_wire t f Ht Hf H96') as (c & p & E' & Hw).
        rewrite E in E'. injection E' as <- <-. done.
      * intros H96. destruct H1 as [h ->]; [by destruct f|done].
Qed.

(** ** Encodings in general

    [encodes o bs]: the bytes [bs] are an encoding of [o], with headers that need
    not be the shortest ones; a log entry has such headers, since they are
    written before the contents are known.  What a scalar's bytes are is [wire],
    which does not mention the functions that read them. *)

(** The keys and values of a map, one after the other. *)
Definition flatten (kvs : list (obj * obj)) : list obj := flat_map (λ kv, [kv.1; kv.2]) kvs.

Inductive encodes : obj → list Z → Prop :=
  | encodes_scalar s hd body :
      length_header (scalar_type s) hd (lenZ body) → is_Ts96 s = false →
      wire s (default 0 (head hd)) body →
      encodes (OScalar s) (hd ++ body)
  | encodes_array os hd bss :
      length_header Array hd (lenZ os) → Forall2 encodes os bss →
      encodes (OArray os) (hd ++ concat bss)
  | encodes_map kvs hd bss :
      length_header Map hd (lenZ kvs) → Forall2 encodes (flatten kvs) bss →
      encodes (OMap kvs) (hd ++ concat bss).

Lemma flat_map_concat {A} (f : A → list Z) l : flat_map f l = concat (map f l).
Proof. induction l; [done|]. cbn [flat_map map concat]. congruence. Qed.

Lemma encode_flatten kvs :
  flat_map (λ kv, encode kv.1 ++ encode kv.2) kvs = concat (map encode (flatten kvs)).
Proof.
  unfold flatten. induction kvs as [|[k v] kvs IH]; [done|].
  cbn [flat_map fst snd app map concat]. by rewrite IH, <- app_assoc.
Qed.

Lemma length_flatten kvs : length (flatten kvs) = (2 * length kvs)%nat.
Proof. unfold flatten. induction kvs; cbn [flat_map length app]; lia. Qed.

Lemma Forall_flatten (P : obj → Prop) kvs :
  Forall P (flatten kvs) ↔ Forall (λ kv, P kv.1 ∧ P kv.2) kvs.
Proof.
  unfold flatten. induction kvs as [|kv kvs IH]; [done|].
  cbn [flat_map app]. rewrite !Forall_cons, IH. tauto.
Qed.

Lemma scalar_encodes s : plain_scalar s → encodes (OScalar s) (encode_scalar s).
Proof.
  intros [Hv H96]. destruct (scalar_split s Hv) as (hd & body & -> & Hh & Hd & _).
  rewrite H96, Z.sub_0_r in Hh. constructor; auto.
Qed.

(** The append functions produce encodings. *)
Lemma encode_encodes o : plain o → encodes o (encode o).
Proof.
  assert (∀ os, Forall (λ o, plain o → encodes o (encode o)) os → Forall plain os →
    Forall2 encodes os (map encode os)) as Hos.
  { induction os; intros IH Hp; [constructor|].
    apply Forall_cons in IH as [? ?], Hp as [? ?]. cbn [map]. constructor; auto. }
  induction o as [s|os IH|kvs IH] using obj_ind'; intros Hp.
  - by apply scalar_encodes.
  - apply all_scalars_array in Hp as [Hl Hp]. cbn [encode]. rewrite flat_map_concat.
    constructor; [|by apply Hos]. apply AppendArrayHeader_header. pose proof (lenZ_nonneg os). lia.
  - apply all_scalars_map in Hp as [Hl Hp]. cbn [encode]. rewrite encode_flatten.
    constructor; [|apply Hos; by apply (Forall_flatten (λ o, _))].
    apply AppendMapHeader_header. pose proof (lenZ_nonneg kvs). lia.
Qed.

Lemma encodes_nonempty o bs : encodes o bs → 1 ≤ lenZ bs.
Proof.
  intros H; inversion H as [? hd ? Hh|? hd ? Hh|? hd ? Hh]; subst;
    pose proof (length_header_pos _ _ _ Hh); len_lia.
Qed.

Lemma length_encodes os bss :
  Forall2 encodes os bss → (length os ≤ length (concat bss))%nat.
Proof.
  induction 1 as [|o bs os bss Ho _ IH]; [done|]. cbn [concat length]. rewrite length_app.
  pose proof (encodes_nonempty o bs Ho). unfold lenZ in *. lia.
Qed.

(** A string with any string header. *)
Lemma encodes_str hd s : length_header Str hd (lenZ s) → encodes (OScalar (SStr s)) (hd ++ s).
Proof. intros. by apply encodes_scalar. Qed.
Lemma encodes_bin hd s : length_header Bin hd (lenZ s) → encodes (OScalar (SBin s)) (hd ++ s).
Proof. intros. by apply encodes_scalar. Qed.
