(* ===== verification/Strconv.v ===== *)
(** * Strconv: the text formats of the standard library that the code uses

    [FormatBool], [FormatInt] and [FormatUint] in base 10, [FormatFloat] with
    format 'f' and six digits, and [encoding/hex].  A text is the list of its
    bytes.  Times are formatted in the local zone, so a time's text is a
    parameter of the definitions that use it. *)

From stdpp Require Import pretty.
From Stdlib Require Import Floats.SpecFloat.
From S2P Require Import Prelude Float.

Definition FormatBool (b : bool) : list Z := if b then str "true" else str "false".

(** [strconv.FormatInt(z, 10)] and [strconv.FormatUint(z, 10)] *)
Definition FormatInt (z : Z) : list Z := str (pretty z).

(** The nearest integer to [m * 2^e], ties to even. *)
Definition round_half_even (m e : Z) : Z :=
  if 0 <=? e then m * 2 ^ e
  else
    let d := 2 ^ (- e) in
    let q := m / d in
    match Z.compare (2 * (m mod d)) d with
    | Lt => q
    | Gt => q + 1
    | Eq => if Z.even q then q else q + 1
    end.

Definition pad_left (n : nat) (c : Z) (s : list Z) : list Z := replicate (n - length s) c ++ s.

(** [strconv.FormatFloat(f, 'f', 6, 64)] *)
Definition FormatFloat6 (f : Z) : list Z :=
  let sign (s : bool) := if s then str "-" else [] in
  let fixed (n : Z) := FormatInt (n / 10 ^ 6) ++ str "." ++ pad_left 6 48 (FormatInt (n mod 10 ^ 6)) in
  match decode_float 52 11 f with
  | S754_nan => str "NaN"
  | S754_infinity s => if s then str "-Inf" else str "+Inf"
  | S754_zero s => sign s ++ fixed 0
  | S754_finite s m e => sign s ++ fixed (round_half_even (Z.pos m * 10 ^ 6) e)
  end.

Definition hex_digit (d : Z) : Z := if d <? 10 then 48 + d else 87 + d.

(** [hex.EncodeToString] *)
Definition hex_encode (s : list Z) : list Z :=
  flat_map (λ b, [hex_digit (b / 16); hex_digit (b mod 16)]) s.

Lemma lenZ_hex_encode s : lenZ (hex_encode s) = 2 * lenZ s.
Proof. induction s; [done|]. unfold hex_encode in *. cbn [flat_map]. len_lia. Qed.

Lemma hex_encode_byte b : is_byte b → is_bytes (hex_encode [b]).
Proof.
  intros Hb. unfold hex_encode. cbn [flat_map app]. unfold is_byte in Hb.
  pose proof (Z.mod_pos_bound b 16). pose proof (Z.div_lt_upper_bound b 16 16).
  pose proof (Z.div_pos b 16).
  repeat constructor; unfold is_byte, hex_digit; case_match; lia.
Qed.

Lemma is_bytes_hex_encode s : is_bytes s → is_bytes (hex_encode s).
Proof.
  induction 1 as [|b s Hb _ IH]; [constructor|].
  change (is_bytes (hex_encode [b] ++ hex_encode s)). by apply Forall_app_2; [apply hex_encode_byte|].
Qed.

#[export] Hint Resolve is_bytes_hex_encode : bytes.
#[export] Hint Rewrite lenZ_hex_encode : golen.
