(* ===== verification/RingBuf.v ===== *)
(** * RingBuf: the interface of the ring-buffered reader

    [ringbuf.Reader] of github.com/webmafia/fast is not part of the repository:
    [RingOps] are the operations that the code calls on it and [RingLaws] what
    they are documented to do.  [delivers r bs] says that the reader will still
    deliver exactly the bytes [bs], then end of file, and that no read reaches
    the limit of its buffer.  [list_ring] is a reader over a list of bytes; it
    satisfies the laws, so they are not contradictory. *)

From S2P Require Import Prelude Errors.

Class RingOps (R : Type) := {
  ReadByte : R → Z * option error * R;
  ReadBytes : R → Z → Slice * option error * R;
  Discard : R → Z → R;
  Flush : R → R;
  SetManualFlush : R → bool → R
}.

Class RingLaws (R : Type) `{!RingOps R} := {
  delivers : R → list Z → Prop;
  ReadByte_cons r b bs :
    delivers r (b :: bs) → ∃ r', ReadByte r = (b, None, r') ∧ delivers r' bs;
  ReadByte_nil r :
    delivers r [] → ∃ b r', ReadByte r = (b, Some EOF, r') ∧ delivers r' [];
  ReadBytes_app r p bs :
    delivers r (p ++ bs) →
    ∃ sp r', ReadBytes r (lenZ p) = (mkSlice p sp, None, r') ∧ delivers r' bs;
  ReadBytes_short r bs n :
    delivers r bs → lenZ bs < n →
    ∃ s e r' bs', ReadBytes r n = (s, Some e, r') ∧ delivers r' bs' ∧ bs' `suffix_of` bs;
  Discard_delivers r bs n :
    delivers r bs → 0 ≤ n → delivers (Discard r n) (drop (Z.to_nat n) bs);
  Flush_delivers r bs : delivers r bs → delivers (Flush r) bs;
  SetManualFlush_delivers r bs v : delivers r bs → delivers (SetManualFlush r v) bs
}.

(** ** A reader over a list *)

Record list_ring := mkListRing { pending : list Z; manual_flush : bool }.

#[export] Instance list_ring_ops : RingOps list_ring := {
  ReadByte r :=
    match pending r with
    | [] => (0, Some EOF, r)
    | b :: bs => (b, None, mkListRing bs (manual_flush r))
    end;
  ReadBytes r n :=
    if (0 <=? n) && (n <=? lenZ (pending r)) then
      (sl (take (Z.to_nat n) (pending r)), None,
       mkListRing (drop (Z.to_nat n) (pending r)) (manual_flush r))
    else (sl [], Some ErrUnexpectedEOF, r);
  Discard r n := mkListRing (drop (Z.to_nat n) (pending r)) (manual_flush r);
  Flush r := r;
  SetManualFlush r v := mkListRing (pending r) v
}.

#[export] Program Instance list_ring_laws : RingLaws list_ring := {
  delivers r bs := pending r = bs
}.
Next Obligation. intros r b bs H. simpl. rewrite H. by eexists. Qed.
Next Obligation. intros r H. simpl. rewrite H. by do 2 eexists. Qed.
Next Obligation.
  intros r p bs H. simpl. rewrite H.
  replace ((0 <=? lenZ p) && (lenZ p <=? lenZ (p ++ bs))) with true by (symmetry; len_lia).
  rewrite take_app_lenZ, drop_app_lenZ by done. by do 2 eexists.
Qed.
Next Obligation.
  intros r bs n <- Hn. simpl. replace (n <=? lenZ (pending r)) with false by lia.
  rewrite andb_false_r. by do 4 eexists.
Qed.
Next Obligation. intros r bs n <- _. done. Qed.
Next Obligation. intros r bs <-. done. Qed.
Next Obligation. intros r bs v <-. done. Qed.

Lemma ReadBytes_delivers `{RingLaws R} r p bs n :
  delivers r (p ++ bs) → n = lenZ p →
  ∃ sp r', ReadBytes r n = (mkSlice p sp, None, r') ∧ delivers r' bs.
Proof. intros Hd ->. by apply ReadBytes_app. Qed.
