(* ===== verification/Iter.v ===== *)
(** * Iter: the token iterator (pkg/msgpack/iter.go, iter_text_appender.go)

    The iterator reads a stream through a ring-buffered reader, one token at a
    time: [Next] reads a head byte and the length bytes, the value methods read
    the body.  Each method is a function from the iterator to its result and the
    iterator after it.  [Skip] and [AppendText] recurse over nested containers;
    they are fuelled, and [Skip_returns] and [AppendText_object] show how much
    fuel is enough.

    The strings and byte slices that the iterator hands out alias the reader's
    buffer; the model returns their contents at the time of the call. *)

From stdpp Require Import sets.
From S2P Require Import Prelude Types Errors Integer Headers Str Float Timestamp Object Strconv RingBuf.

(** The dynamic values that [Any] returns. *)
Inductive value :=
  | VNil
  | VBool (b : bool)
  | VInt (z : Z)
  | VUint (z : Z)
  | VFloat (f : Z)
  | VStr (s : list Z)
  | VBin (s : list Z)
  | VTime (t : Time).

(** The argument of [reportError]. *)
Inductive report :=
  | RError (e : error)
  | RString (s : list Z)
  | ROther (text : list Z).

Section Iterator.
  Context `{RingOps R}.
  (** [t.AppendFormat(b, "2006-01-02 15:04:05 MST")] in the local zone *)
  Variable format_time : Time → list Z.

Record Iterator := mkIterator {
  it_r : R;
  it_err : option error;
  it_length : Z;
  it_items : Z;
  it_byt : Z;
  it_typ : type
}.

(** [iter.r.ReadBytes(n)], with its new reader. *)
Definition with_reader (it : Iterator) (r : R) : Iterator :=
  mkIterator r (it_err it) (it_length it) (it_items it) (it_byt it) (it_typ it).

Definition with_err (it : Iterator) (e : option error) : Iterator :=
  mkIterator (it_r it) e (it_length it) (it_items it) (it_byt it) (it_typ it).

Definition NewIterator (r : R) : Iterator :=
  mkIterator (RingBuf.SetManualFlush r true) None 0 0 0 Invalid.

Definition Flush (it : Iterator) : Iterator := with_reader it (RingBuf.Flush (it_r it)).

Definition SetManualFlush (it : Iterator) (v : bool) : Iterator :=
  with_reader it (RingBuf.SetManualFlush (it_r it) v).

Definition Next (it : Iterator) : bool * Iterator :=
  let it := with_err it None in
  let '(c, err, r) := ReadByte (it_r it) in
  let it := mkIterator r err (it_length it) (it_items it) c (it_typ it) in
  match err with
  | Some _ => (false, it)
  | None =>
    let '(typ, length, isValueLength) := Get (it_byt it) in
    let it := mkIterator (it_r it) (it_err it) (it_length it) (it_items it) (it_byt it) typ in
    let finish length it :=
      match typ with
      | Array | Map => (true, mkIterator (it_r it) (it_err it) 0 length (it_byt it) (it_typ it))
      | _ => (true, mkIterator (it_r it) (it_err it) length 0 (it_byt it) (it_typ it))
      end in
    if negb isValueLength then
      let '(buf, err, r) := ReadBytes (it_r it) length in
      let it := with_reader it r in
      match err with
      | Some _ => (false, with_err it err)
      | None => finish (conv TInt (uintFromBuf TUint (live buf))) it
      end
    else finish length it
  end.

Definition NextExpectedType (it : Iterator) (expected : list type) : option error * Iterator :=
  let '(ok, it) := Next it in
  if negb ok then
    match it_err it with
    | Some e => (Some e, it)
    | None => (Some EOF, it)
    end
  else if existsb (λ t, bool_decide (t = it_typ it)) expected then (None, it)
  else (Some (Wrapf "%w: expected any of %v, got %s (%02X)" ErrInvalidHeaderByte
                (map FType expected ++ [FType (it_typ it); FNum (it_byt it)])), it).

Definition raw (it : Iterator) : Slice * bool * Iterator :=
  let '(b, err, r) := ReadBytes (it_r it) (it_length it) in
  (b, bool_decide (err = None), with_err (with_reader it r) err).

Definition Bin (it : Iterator) : list Z * Iterator :=
  let '(b, ok, it) := raw it in if ok then (live b, it) else ([], it).

Definition Str (it : Iterator) : list Z * Iterator :=
  let '(b, ok, it) := raw it in if ok then (live b, it) else ([], it).

Definition Bool (it : Iterator) : bool := readBoolUnsafe (it_byt it).

Definition Float (it : Iterator) : Z * Iterator :=
  let '(b, ok, it) := raw it in if ok then (floatFromBuf (live b), it) else (0, it).

Definition Int (it : Iterator) : Z * Iterator :=
  let '(b, ok, it) := raw it in
  if ok then (readIntUnsafe TInt64 (it_byt it) (live b), it) else (0, it).

Definition Uint (it : Iterator) : Z * Iterator :=
  let '(b, ok, it) := raw it in
  if ok then (readIntUnsafe TUint64 (it_byt it) (live b), it) else (0, it).

Definition Timestamp (it : Iterator) : go (Time * Iterator) :=
  let '(b, ok, it) := raw it in
  if ok then t ← readTimeUnsafe (it_byt it) b; Ret (t, it) else Ret (zeroTime, it).

(** [for range items { if !iter.Next() { break }; iter.Skip() }] *)
Fixpoint skip_items (skip : Iterator → go Iterator) (k : nat) (items : Z) (it : Iterator) :
    go Iterator :=
  if items <=? 0 then Ret it else
  match k with
  | O => Panic OutOfFuel
  | S k =>
    let '(ok, it) := Next it in
    if negb ok then Ret it else
    it ← skip it;
    skip_items skip k (items - 1) it
  end.

Fixpoint Skip (fuel : nat) (it : Iterator) : go Iterator :=
  match fuel with
  | O => Panic OutOfFuel
  | S fuel =>
    let items := it_items it in
    let '(items, it) :=
      match it_typ it with
      | Array => (items, it)
      | Map => (items * 2, it)
      | _ => (items, with_reader it (Discard (it_r it) (it_length it)))
      end in
    skip_items (Skip fuel) fuel items it
  end.

Definition reportError (it : Iterator) (op : list Z) (err : report) : bool * Iterator :=
  match it_err it with
  | Some _ => (false, it)
  | None =>
    match err with
    | RError e =>
        if is_EOF e then (false, it)
        else (false, with_err it (Some (Wrapf "%s: %w" e [FStr op])))
    | RString s => (false, with_err it (Some (Errorf "%s: %s" [FStr op; FStr s])))
    | ROther s => (false, with_err it (Some (Errorf "%s: %v" [FStr op; FStr s])))
    end
  end.

Definition Any (it : Iterator) : go (value * Iterator) :=
  match it_typ it with
  | Types.Bool => Ret (VBool (Bool it), it)
  | Types.Int => let '(z, it) := Int it in Ret (VInt z, it)
  | Types.Uint => let '(z, it) := Uint it in Ret (VUint z, it)
  | Types.Float => let '(f, it) := Float it in Ret (VFloat f, it)
  | Types.Str => let '(s, it) := Str it in Ret (VStr s, it)
  | Types.Bin => let '(s, it) := Bin it in Ret (VBin s, it)
  | Types.Ext => '(t, it) ← Timestamp it; Ret (VTime t, it)
  | Types.Array => Ret (VStr (str "Array<" ++ FormatInt (it_items it) ++ str ">"), it)
  | Types.Map => Ret (VStr (str "Map<" ++ FormatInt (it_items it) ++ str ">"), it)
  | _ => Ret (VNil, it)
  end.

(** The loops of [AppendText] over the items of a container; [text] is the
    recursive call, [i] the loop variable. *)
Fixpoint appendTextArray (text : list Z → Iterator → go (list Z * option error * Iterator))
    (k : nat) (i items : Z) (b : list Z) (it : Iterator) : go (list Z * Iterator) :=
  if items <=? i then Ret (b, it) else
  match k with
  | O => Panic OutOfFuel
  | S k =>
    let '(ok, it) := Next it in
    if negb ok then Ret (b, it) else
    let b := if negb (i =? 0) then b ++ [10] else b in
    '(b, _, it) ← text b it;
    appendTextArray text k (i + 1) items b it
  end.

Fixpoint appendTextMap (text : list Z → Iterator → go (list Z * option error * Iterator))
    (k : nat) (i items : Z) (b : list Z) (it : Iterator) : go (list Z * Iterator) :=
  if items <=? i then Ret (b, it) else
  match k with
  | O => Panic OutOfFuel
  | S k =>
    let '(ok, it) := Next it in
    if negb ok then Ret (b, it) else
    let b := if negb (i =? 0) then b ++ [10] else b in
    '(b, _, it) ← text b it;
    let '(ok, it) := Next it in
    if negb ok then Ret (b, it) else
    let b := b ++ str ": " in
    '(b, _, it) ← text b it;
    appendTextMap text k (i + 1) items b it
  end.

Fixpoint AppendText (fuel : nat) (b : list Z) (it : Iterator) :
    go (list Z * option error * Iterator) :=
  match fuel with
  | O => Panic OutOfFuel
  | S fuel =>
    match it_typ it with
    | Types.Bool => Ret (b ++ FormatBool (Bool it), None, it)
    | Types.Int => let '(z, it) := Int it in Ret (b ++ FormatInt z, None, it)
    | Types.Uint => let '(z, it) := Uint it in Ret (b ++ FormatInt z, None, it)
    | Types.Float => let '(f, it) := Float it in Ret (b ++ FormatFloat6 f, None, it)
    | Types.Str => let '(s, it) := Str it in Ret (b ++ s, None, it)
    | Types.Bin => let '(s, it) := Bin it in Ret (b ++ s, None, it)
    | Types.Ext => '(t, it) ← Timestamp it; Ret (b ++ format_time t, None, it)
    | Types.Array =>
        '(b, it) ← appendTextArray (AppendText fuel) fuel 0 (it_items it) b it; Ret (b, None, it)
    | Types.Map =>
        '(b, it) ← appendTextMap (AppendText fuel) fuel 0 (it_items it) b it; Ret (b, None, it)
    | _ => Ret (b, Some (Errorf "invalid value type" []), it)
    end
  end.

End Iterator.
Arguments Iterator : clear implicits.

(** ** What the iterator does to its reader

    A relation that the reads of the ring respect is respected by the methods of the
    iterator: they do nothing else to the ring. *)

Record reads_respect {X} `{!RingOps X} (Q : X → X → Prop) : Prop := {
  respect_preorder : PreOrder Q;
  respect_ReadByte r : Q r (ReadByte r).2;
  respect_ReadBytes r n : Q r (ReadBytes r n).2;
  respect_Discard r n : Q r (Discard r n)
}.

Section Reads.
  Context {X : Type} `{!RingOps X}.
  Variable Q : X → X → Prop.
  Context (HQ : reads_respect Q).
  Implicit Type it : Iterator X.

#[local] Existing Instance respect_preorder.

Lemma raw_reads it : Q (it_r it) (it_r (raw it).2).
Proof.
  unfold raw. pose proof (respect_ReadBytes Q HQ (it_r it) (it_length it)) as H.
  by destruct (ReadBytes _ _) as [[b err] r].
Qed.

Lemma Str_reads it : Q (it_r it) (it_r (Str it).2).
Proof. unfold Str. pose proof (raw_reads it) as H. by destruct (raw it) as [[b [|]] it']. Qed.

(** [Next], from the byte it starts with on. *)
Lemma Next_reads_head it : Q (ReadByte (it_r it)).2 (it_r (Next it).2).
Proof.
  pose proof (respect_preorder Q HQ) as HP.
  unfold Next. cbn [with_err it_r]. destruct (ReadByte _) as [[c [x|]] r]; [done|].
  cbn [it_byt snd it_r]. destruct (Get c) as [[ty l] [|]]; cbn [negb]; [by destruct ty|].
  cbn [it_r]. pose proof (respect_ReadBytes Q HQ r l) as H. destruct (ReadBytes r l) as [[b [x|]] r2]; [done|].
  by destruct ty.
Qed.

Lemma Next_reads it : Q (it_r it) (it_r (Next it).2).
Proof.
  pose proof (respect_preorder Q HQ) as HP.
  etrans; [apply (respect_ReadByte Q HQ)|apply Next_reads_head].
Qed.

Lemma NextExpectedType_reads it ts : Q (it_r it) (it_r (NextExpectedType it ts).2).
Proof.
  unfold NextExpectedType. pose proof (Next_reads it) as H. destruct (Next it) as [[|] it']; cbn [negb].
  - by destruct (existsb _ _).
  - by destruct (it_err it').
Qed.

Lemma Timestamp_reads it t it' : Timestamp it = Ret (t, it') → Q (it_r it) (it_r it').
Proof.
  unfold Timestamp. pose proof (raw_reads it) as H. destruct (raw it) as [[b [|]] it1].
  - destruct (readTimeUnsafe _ _); [|done]. by intros [= _ <-].
  - by intros [= _ <-].
Qed.

End Reads.

(** [reads r r']: the ring [r] has become [r'] by reads. *)
Inductive reads {X} `{!RingOps X} (r : X) : X → Prop :=
  | reads_none : reads r r
  | reads_ReadByte r' : reads r r' → reads r (ReadByte r').2
  | reads_ReadBytes r' n : reads r r' → reads r (ReadBytes r' n).2
  | reads_Discard r' n : reads r r' → reads r (Discard r' n).

Lemma reads_least {X} `{!RingOps X} Q (r r' : X) : reads_respect Q → reads r r' → Q r r'.
Proof.
  intros HQ. pose proof (respect_preorder Q HQ) as HP.
  induction 1 as [|r' _ IH|r' n _ IH|r' n _ IH]; [reflexivity|etrans; [exact IH|]..].
  - apply (respect_ReadByte Q HQ).
  - apply (respect_ReadBytes Q HQ).
  - apply (respect_Discard Q HQ).
Qed.

Lemma reads_respects {X} `{!RingOps X} : reads_respect (reads (X := X)).
Proof.
  split; [split; [intros r; apply reads_none|]| | |]; try (intros; by repeat constructor).
  intros r1 r2 r3 H12 H23. induction H23; [done|by constructor..].
Qed.

(** ** Tokens *)

Section Tokens.
  Context `{RingLaws R}.

(** The iterator after [Next] read the header [hd] of type [t] and length [l]. *)
Definition token (r : R) (t : type) (hd : list Z) (l : Z) : Iterator R :=
  let container := bool_decide (t = Array ∨ t = Map) in
  mkIterator r None (if container then 0 else l) (if container then l else 0)
             (default 0 (head hd)) t.

Lemma Next_at (it : Iterator R) t hd l rest :
  delivers (it_r it) (hd ++ rest) → length_header t hd l →
  ∃ r', Next it = (true, token r' t hd l) ∧ delivers r' rest.
Proof.
  intros Hd Hh. unfold Next.
  assert (∀ r', (let finish length it :=
      match t with
      | Array | Map => (true, mkIterator (it_r it) (it_err it) 0 length (it_byt it) (it_typ it))
      | _ => (true, mkIterator (it_r it) (it_err it) length 0 (it_byt it) (it_typ it))
      end in
    finish l (mkIterator r' None (it_length it) (it_items it) (default 0 (head hd)) t)) =
    (true, token r' t hd l)) as Hf.
  { intros r'. unfold token. destruct t; reflexivity. }
  cbv zeta in Hf. destruct Hh as [(c & -> & Hc & HG)|(h & n & -> & Hh & HG & Hn & Hl)].
  - destruct (ReadByte_cons _ _ _ Hd) as (r' & E & Hd'). cbn [with_err it_r]. rewrite E.
    cbn [it_byt]. rewrite HG. cbn [negb]. exists r'. split; [apply Hf|done].
  - destruct (ReadByte_cons _ _ _ Hd) as (r' & E & Hd'). cbn [with_err it_r]. rewrite E.
    cbn [it_byt]. rewrite HG. cbn [negb].
    destruct (ReadBytes_delivers _ _ _ (Z.of_nat n) Hd') as (sp & r2 & E2 & Hd2);
      [by rewrite lenZ_be_enc|].
    cbn [it_r]. rewrite E2. cbn [live]. rewrite uintFromBuf_length by done.
    rewrite conv_id.
    + exists r2. split; [apply Hf|done].
    + assert (2 ^ (8 * Z.of_nat n) ≤ 2 ^ 32) by (apply Z.pow_le_mono_r; lia).
      unfold in_type. cbn [is_signed bits_of]. lia.
Qed.

(** The value methods read the whole body of a token. *)
Lemma raw_at (it : Iterator R) body rest :
  delivers (it_r it) (body ++ rest) → it_length it = lenZ body →
  ∃ sp r', raw it = (mkSlice body sp, true, with_err (with_reader it r') None) ∧ delivers r' rest.
Proof.
  intros Hd Hl. unfold raw.
  destruct (ReadBytes_delivers _ _ _ _ Hd Hl) as (sp & r' & -> & Hd').
  exists sp, r'. by rewrite bool_decide_true.
Qed.

(** [Next] on any bytes: it consumes at least one byte when it succeeds. *)
Lemma Next_shrinks (it : Iterator R) bs :
  delivers (it_r it) bs → is_bytes bs →
  ∃ ok it' bs', Next it = (ok, it') ∧ delivers (it_r it') bs' ∧ bs' `suffix_of` bs ∧
    (ok = true → (length bs' < length bs)%nat ∧ 0 ≤ it_length it' ∧ it_err it' = None) ∧
    (ok = false → it_err it' ≠ None).
Proof.
  intros Hd Hb. unfold Next. cbn [with_err it_r]. destruct bs as [|c bs].
  { destruct (ReadByte_nil _ Hd) as (c & r' & -> & Hd'). by eexists _, _, _. }
  destruct (ReadByte_cons _ _ _ Hd) as (r' & -> & Hd'). cbn [it_byt].
  apply Forall_cons in Hb as [Hc Hb].
  destruct (Get c) as [[ty l] v] eqn:EG. destruct (Get_length _ _ _ _ Hc EG) as [Hl Hl4].
  assert (∀ r2 bs2 n, delivers r2 bs2 → bs2 `suffix_of` bs → 0 ≤ n →
    ∃ ok it' bs', (match ty with
      | Array | Map => (true, mkIterator r2 None 0 n c ty)
      | _ => (true, mkIterator r2 None n 0 c ty) end) = (ok, it') ∧
    delivers (it_r it') bs' ∧ bs' `suffix_of` c :: bs ∧
    (ok = true → (length bs' < length (c :: bs))%nat ∧ 0 ≤ it_length it' ∧ it_err it' = None) ∧
    (ok = false → it_err it' ≠ None)) as Hfin.
  { intros r2 bs2 n Hd2 Hsuf Hn. pose proof (suffix_length _ _ Hsuf).
    destruct ty; (do 3 eexists; split; [reflexivity|]; split; [exact Hd2|];
      split; [by apply suffix_cons_r|]; cbn [length it_length it_err];
      split; [intros _; split_and!; [lia|lia|done]|done]). }
  destruct v; cbn [negb].
  - apply (Hfin r' bs); [done..|lia].
  - specialize (Hl4 eq_refl). cbn [it_r].
    destruct (Z.le_gt_cases l (lenZ bs)) as [Hle|Hgt].
    + rewrite <- (take_drop (Z.to_nat l) bs) in Hd'.
      destruct (ReadBytes_delivers _ _ _ l Hd') as (sp & r2 & -> & Hd2).
      { unfold lenZ in *. rewrite length_take. lia. }
      cbn [with_reader it_r it_err it_length it_items it_byt it_typ].
      apply (Hfin r2 _ _ Hd2); [apply suffix_drop|].
      cbn [live]. set (p := take _ bs).
      assert (is_bytes p) as Hp by by apply Forall_take.
      pose proof (uintFromBuf_bound p Hp) as Hu.
      assert (256 ^ lenZ p ≤ 256 ^ 4) as Hp4.
      { apply Z.pow_le_mono_r; [lia|]. unfold p, lenZ. rewrite length_take. lia. }
      change (uintFromBuf TUint p) with (uintFromBuf TUint64 p).
      rewrite conv_id; [lia|]. unfold in_type. cbn [is_signed bits_of]. lia.
    + destruct (ReadBytes_short _ _ _ Hd' Hgt) as (s & e & r2 & bs2 & -> & Hd2 & Hs).
      do 3 eexists. split; [reflexivity|]. split; [exact Hd2|].
      split; [by apply suffix_cons_r|]. done.
Qed.

(** What a plain scalar becomes. *)
Definition value_of (s : scalar) : value :=
  match s with
  | SNil => VNil
  | SBool b => VBool b
  | SInt z | STime (mkTime z _) TsInt => if z <? 0 then VInt z else VUint z
  | SUint z => VUint z
  | SFloat f => VFloat f
  | SStr s => VStr s
  | SBin s => VBin s
  | STime t f => VTime (ts_stored_as f t)
  end.

(** A scalar token: [Next] and the header, and the body that follows. *)
Lemma Next_scalar (it : Iterator R) s bs rest :
  delivers (it_r it) (bs ++ rest) → encodes (OScalar s) bs →
  ∃ hd body r', bs = hd ++ body ∧ Next it = (true, token r' (scalar_type s) hd (lenZ body)) ∧
    delivers r' (body ++ rest) ∧ is_Ts96 s = false ∧ body_decodes s (default 0 (head hd)) body.
Proof.
  intros Hd He. inversion He as [? hd body Hh H96 Hw| |]; subst. rewrite <- app_assoc in Hd.
  destruct (Next_at it _ _ _ _ Hd Hh) as (r' & EN & Hd'). exists hd, body, r'.
  split_and!; try done. by apply wire_decodes.
Qed.

(** The body of a scalar token is read whole by the value methods. *)
Lemma raw_scalar r s hd body rest :
  delivers r (body ++ rest) →
  let it1 := token r (scalar_type s) hd (lenZ body) in
  ∃ sp it2, raw it1 = (mkSlice body sp, true, it2) ∧ it_byt it2 = default 0 (head hd) ∧
    it_err it2 = None ∧ delivers (it_r it2) rest.
Proof.
  intros Hd it1. destruct (scalar_type_scalar s) as [HA HM].
  destruct (raw_at it1 body rest Hd) as (sp & r' & -> & Hd').
  - unfold it1, token. cbn [it_length]. by rewrite bool_decide_false by tauto.
  - by exists sp; eexists.
Qed.

Lemma Timestamp_scalar (it : Iterator R) t f bs rest :
  delivers (it_r it) (bs ++ rest) → encodes (OScalar (STime t f)) bs →
  ∃ it1 it2, Next it = (true, it1) ∧ it_typ it1 = scalar_type (STime t f) ∧
    Timestamp it1 = Ret (ts_stored_as f t, it2) ∧ it_err it2 = None ∧ delivers (it_r it2) rest.
Proof.
  intros Hd He.
  destruct (Next_scalar it _ bs rest Hd He) as (hd & body & r1 & E & EN & Hd1 & H96 & Hdec & _).
  destruct (raw_scalar r1 (STime t f) hd body rest Hd1) as (sp & it2 & Eraw & Eb & Herr & Hd2).
  eexists _, it2. split; [exact EN|]. split; [done|]. unfold Timestamp. rewrite Eraw.
  by rewrite Eb, Hdec by by destruct f.
Qed.

(** ** Skipping *)

(** With more fuel than there are bytes left, [Skip] returns on any stream. *)
Lemma Skip_shrinks fuel : ∀ (it : Iterator R) bs,
  delivers (it_r it) bs → is_bytes bs → 0 ≤ it_length it → (length bs + 1 < fuel)%nat →
  ∃ it' bs', Skip fuel it = Ret it' ∧ delivers (it_r it') bs' ∧ bs' `suffix_of` bs.
Proof.
  induction fuel as [|fuel IH]; intros it bs Hd Hb Hl Hf; [lia|].
  assert (∀ k items (it : Iterator R) bs2, delivers (it_r it) bs2 → bs2 `suffix_of` bs →
    (length bs2 < k)%nat →
    ∃ it' bs', skip_items (Skip fuel) k items it = Ret it' ∧ delivers (it_r it') bs' ∧
      bs' `suffix_of` bs) as Hloop.
  { clear it Hd Hl. induction k as [|k IHk]; intros items it bs2 Hd Hs Hk; [lia|].
    cbn [skip_items]. destruct (items <=? 0); [by exists it, bs2|].
    destruct (Next_shrinks it bs2 Hd) as (ok & it' & bs' & -> & Hd' & Hs' & Hok & _).
    { by eapply Forall_suffix. }
    assert (bs' `suffix_of` bs) as Hsb by by etrans.
    pose proof (suffix_length _ _ Hs). destruct ok; cbn [negb]; [|by exists it', bs'].
    destruct (Hok eq_refl) as (Hlt & Hl' & _).
    destruct (IH it' bs' Hd') as (it2 & bs3 & -> & Hd3 & Hs3); [by eapply Forall_suffix|done|lia|].
    go_simpl. pose proof (suffix_length _ _ Hs3). apply (IHk _ it2 bs3 Hd3); [by etrans|lia]. }
  cbn [Skip]. destruct (it_typ it);
    first [ apply (Hloop _ _ it bs Hd); [done|lia]
          | eapply (Hloop _ _ _ (drop (Z.to_nat (it_length it)) bs));
            [by apply Discard_delivers|apply suffix_drop|rewrite length_drop; lia] ].
Qed.

Lemma skip_items_0 (skip : Iterator R → go (Iterator R)) k it : skip_items skip k 0 it = Ret it.
Proof. by destruct k. Qed.

(** What the induction shows of an object and its encoding. *)
Definition skips (fuel : nat) (bs : list Z) : Prop :=
  ∀ (it : Iterator R) rest, delivers (it_r it) (bs ++ rest) →
  ∃ it1 it2, Next it = (true, it1) ∧ Skip fuel it1 = Ret it2 ∧ delivers (it_r it2) rest.

(** [Skip] on the objects of a container. *)
Lemma skip_items_objects fuel bss : ∀ k (it : Iterator R) rest,
  Forall (skips fuel) bss → (length bss ≤ k)%nat → delivers (it_r it) (concat bss ++ rest) →
  ∃ it2, skip_items (Skip fuel) k (lenZ bss) it = Ret it2 ∧ delivers (it_r it2) rest.
Proof.
  induction bss as [|bs bss IH]; intros k it rest Ho Hk Hd.
  { exists it. split; [by destruct k|done]. }
  destruct k as [|k]; [by cbn in Hk; lia|]. apply Forall_cons in Ho as [Ho Hos].
  cbn [concat] in Hd. rewrite <- app_assoc in Hd.
  destruct (Ho it _ Hd) as (it1 & it2 & EN & ES & Hd2). cbn [skip_items].
  destruct (_ <=? 0) eqn:E; [len_lia|]. rewrite EN. cbn [negb]. rewrite ES. go_simpl.
  replace (lenZ (bs :: bss) - 1) with (lenZ bss) by len_lia.
  apply (IH k it2 rest Hos); [cbn in Hk; lia|done].
Qed.

(** The induction hypothesis on the elements of a container, with its fuel. *)
Lemma elements_with_fuel (Q : nat → obj → list Z → Prop) os bss fuel :
  Forall (λ o, ∀ bs fuel, encodes o bs → (length bs < fuel)%nat → Q fuel o bs) os →
  Forall2 encodes os bss → (length (concat bss) < fuel)%nat →
  Forall2 (Q fuel) os bss.
Proof.
  intros IH H2. revert IH. induction H2 as [|o bs os bss He _ IHos]; intros IH Hf; [constructor|].
  apply Forall_cons in IH as [IHo IH]. cbn [concat] in Hf. rewrite length_app in Hf.
  constructor; [apply IHo; [done|lia]|apply IHos; [done|lia]].
Qed.

Lemma Skip_encodes o : ∀ bs fuel, encodes o bs → (length bs < fuel)%nat → skips fuel bs.
Proof.
  assert (∀ os bss hd, Forall (λ o, ∀ bs fuel, encodes o bs → (length bs < fuel)%nat → skips fuel bs) os →
    Forall2 encodes os bss → 1 ≤ lenZ hd → ∀ fuel, (length (hd ++ concat bss) < S fuel)%nat →
    ∀ (it : Iterator R) rest, delivers (it_r it) (concat bss ++ rest) →
    ∃ it2, skip_items (Skip fuel) fuel (lenZ os) it = Ret it2 ∧ delivers (it_r it2) rest) as Hitems.
  { intros os bss hd IH He Hhd fuel Hf it rest Hd. rewrite length_app in Hf. unfold lenZ in *.
    pose proof (length_encodes os bss He) as Hle. rewrite (Forall2_length _ _ _ He) in *.
    apply skip_items_objects; [|lia|done].
    assert (Forall2 (λ _, skips fuel) os bss) as H2.
    { apply (elements_with_fuel (λ fuel _ bs, skips fuel bs)); [done|done|lia]. }
    clear - H2. induction H2; by constructor. }
  induction o as [s|os IH|kvs IH] using obj_ind'; intros bs fuel He Hf it rest Hd.
  - destruct (Next_scalar it s bs rest Hd He) as (hd & body & r1 & E & EN & Hd1 & _).
    destruct fuel as [|fuel]; [lia|]. destruct (scalar_type_scalar s) as [HA HM].
    assert (delivers (Discard r1 (lenZ body)) rest) as Hd2.
    { rewrite <- (drop_app_lenZ body rest (lenZ body)) by done.
      apply Discard_delivers; [done|apply lenZ_nonneg]. }
    unfold token in EN. rewrite bool_decide_false in EN by tauto.
    destruct (scalar_type s); try done; (eexists _, _; split; [exact EN|]; cbn [Skip it_typ it_items];
      rewrite skip_items_0; split; [reflexivity|exact Hd2]).
  - inversion He as [|? hd bss Hh H2|]; subst. rewrite <- app_assoc in Hd.
    destruct (Next_at it _ _ _ _ Hd Hh) as (r1 & EN & Hd1). destruct fuel as [|fuel]; [lia|].
    destruct (Hitems os bss hd IH H2) with (fuel := fuel)
      (it := token r1 Types.Array hd (lenZ os)) (rest := rest) as (it2 & E2 & Hd2);
      [apply (length_header_pos _ _ _ Hh)|done|done|].
    by exists (token r1 Types.Array hd (lenZ os)), it2.
  - inversion He as [| |? hd bss Hh H2]; subst. rewrite <- app_assoc in Hd.
    destruct (Next_at it _ _ _ _ Hd Hh) as (r1 & EN & Hd1). destruct fuel as [|fuel]; [lia|].
    apply (Forall_flatten (λ o, ∀ bs fuel, encodes o bs → (length bs < fuel)%nat → skips fuel bs)) in IH.
    destruct (Hitems (flatten kvs) bss hd IH H2) with (fuel := fuel)
      (it := token r1 Types.Map hd (lenZ kvs)) (rest := rest) as (it2 & E2 & Hd2);
      [apply (length_header_pos _ _ _ Hh)|done|done|].
    exists (token r1 Types.Map hd (lenZ kvs)), it2. split; [done|]. split; [|done].
    rewrite <- E2. cbn [Skip]. change (it_typ _) with Types.Map. cbv iota.
    change (it_items _) with (lenZ kvs). f_equal. unfold lenZ. rewrite length_flatten. lia.
Qed.

(** A Ts96 timestamp is delivered as a header that counts 12 bytes, those bytes,
    and the last byte of the second, which the header leaves out. *)
Lemma Next_Ts96 (it : Iterator R) t rest :
  delivers (it_r it) (AppendTimestamp [] t [Ts96] ++ rest) →
  ∃ r p, Next it = (true, token r Ext [0xc7; 12] 12) ∧ lenZ p = 12 ∧
    p = 0xff :: be_enc 4 (u32 (nanosecond t)) ++ take 7 (be_enc 8 (unix t)) ∧
    delivers r (p ++ u8 (unix t) :: rest).
Proof.
  intros Hd.
  assert (length_header Ext [0xc7; 12] 12) as Hh.
  { right. exists 0xc7, 1%nat. split_and!; [done|unfold is_byte; lia|done|lia|done|done]. }
  set (p := 0xff :: be_enc 4 (u32 (nanosecond t)) ++ take 7 (be_enc 8 (unix t))).
  assert (AppendTimestamp [] t [Ts96] = [0xc7; 12] ++ p ++ [u8 (unix t)]) as E.
  { unfold AppendTimestamp. rewrite bool_decide_false by done. reflexivity. }
  rewrite E, <- !app_assoc in Hd. destruct (Next_at it _ _ _ _ Hd Hh) as (r1 & EN & Hd1).
  by exists r1, p.
Qed.


(** ** Text *)

(** [Any] of a scalar token, and the text of the value. *)
Lemma Any_at (it : Iterator R) s bs rest :
  delivers (it_r it) (bs ++ rest) → encodes (OScalar s) bs →
  ∃ it1 it2, Next it = (true, it1) ∧ it_typ it1 = scalar_type s ∧
    Any it1 = Ret (value_of s, it2) ∧ it_err it2 = None ∧ delivers (it_r it2) rest.
Proof.
  intros Hd He.
  destruct (Next_scalar it s bs rest Hd He) as (hd & body & r1 & E & EN & Hd1 & H96 & Hdec).
  destruct (raw_scalar r1 s hd body rest Hd1) as (sp & it2 & Eraw & Eb & Herr & Hd2).
  set (it1 := token _ _ _ _) in *.
  assert (it_typ it1 = scalar_type s) as Et by done.
  assert (it_byt it1 = it_byt it2) as Eb1 by done. rewrite <- Eb in Hdec.
  assert (body = [] → it_err it1 = None ∧ delivers (it_r it1) rest) as Hnil by by intros ->.
  clearbody it1. exists it1. rewrite EN. unfold Any. rewrite Et.
  destruct s as [|b|z|z|f|s|s|t f]; cbn [scalar_type value_of body_decodes] in *;
    unfold Int, Uint, Float, Str, Bin, Timestamp, Bool; rewrite ?Eraw; cbn [live].
  - destruct (Hnil Hdec). by exists it1.
  - destruct Hdec as [Hb <-]. destruct (Hnil Hb). exists it1. by rewrite Eb1.
  - destruct Hdec as [D1 D2]. exists it2.
    destruct (z <? 0) eqn:Ez; rewrite ?D1, ?D2 by lia; done.
  - exists it2. by rewrite Hdec.
  - exists it2. by rewrite Hdec.
  - exists it2. by subst.
  - exists it2. by subst.
  - destruct Hdec as [Hdec Hint]. exists it2. destruct (decide (f = TsInt)) as [->|Hf].
    + destruct (Hint eq_refl) as [D1 D2]. destruct t as [u n]. cbn [unix] in *.
      destruct (u <? 0) eqn:Eu; rewrite ?D1, ?D2 by lia; done.
    + destruct f; try done; destruct t as [u n]; rewrite Hdec by done; done.
Qed.

Section Text.
  Variable format_time : Time → list Z.

Definition value_text (v : value) : list Z :=
  match v with
  | VNil => []
  | VBool b => FormatBool b
  | VInt z | VUint z => FormatInt z
  | VFloat f => FormatFloat6 f
  | VStr s | VBin s => s
  | VTime t => format_time t
  end.

(** Lines: [first] says whether a line break is needed before the first one. *)
Fixpoint lines (first : bool) (ls : list (list Z)) : list Z :=
  match ls with
  | [] => []
  | l :: ls => (if first then [] else [10]) ++ l ++ lines false ls
  end.

(** The text of an object: the elements of an array and the entries of a map on
    a line each. *)
Fixpoint text (o : obj) : list Z :=
  match o with
  | OScalar s => value_text (value_of s)
  | OArray os => lines true (map text os)
  | OMap kvs => lines true (map (λ kv, text kv.1 ++ str ": " ++ text kv.2) kvs)
  end.

(** [AppendText] of a token is the text of the value that [Any] returns. *)
Lemma AppendText_Any fuel b (it it2 : Iterator R) v :
  it_typ it ≠ Array → it_typ it ≠ Map → Any it = Ret (v, it2) →
  ∃ e, AppendText format_time (S fuel) b it = Ret (b ++ value_text v, e, it2).
Proof.
  intros HA HM. unfold Any. cbn [AppendText].
  destruct (it_typ it); try done;
    repeat match goal with |- context [let '(_, _) := ?m in _] => destruct m end;
    try (intros [= <- <-]; rewrite ?app_nil_r; by eexists).
  destruct (Timestamp it) as [[t i]|]; [|done]. go_simpl. intros [= <- <-]. by eexists.
Qed.

(** What the induction shows of an object and its encoding. *)
Definition reads_text (fuel : nat) (o : obj) (bs : list Z) : Prop :=
  ∀ (it : Iterator R) b rest, delivers (it_r it) (bs ++ rest) →
  ∃ it1 it2 e, Next it = (true, it1) ∧
    AppendText format_time fuel b it1 = Ret (b ++ text o, e, it2) ∧ delivers (it_r it2) rest.

Lemma appendTextArray_objects fuel os bss : Forall2 (reads_text fuel) os bss →
  ∀ k i b (it : Iterator R) rest, (length os ≤ k)%nat → 0 ≤ i →
  delivers (it_r it) (concat bss ++ rest) →
  ∃ it2, appendTextArray (AppendText format_time fuel) k i (i + lenZ os) b it =
      Ret (b ++ lines (i =? 0) (map text os), it2) ∧ delivers (it_r it2) rest.
Proof.
  induction 1 as [|o bs os bss Ho _ IH]; intros k i b it rest Hk Hi Hd.
  { exists it. split; [|done]. cbn [map lines]. rewrite app_nil_r, lenZ_nil, Z.add_0_r.
    destruct k; cbn [appendTextArray]; by rewrite Z.leb_refl. }
  destruct k as [|k]; [by cbn in Hk; lia|].
  cbn [concat] in Hd. rewrite <- app_assoc in Hd. cbn [appendTextArray].
  destruct (_ <=? i) eqn:E; [len_lia|].
  destruct (Ho it (if negb (i =? 0) then b ++ [10] else b) _ Hd) as (it1 & it2 & e & EN & ET & Hd2).
  rewrite EN. cbn [negb]. rewrite ET. go_simpl.
  destruct (IH k (i + 1) ((if negb (i =? 0) then b ++ [10] else b) ++ text o) it2 rest)
    as (it3 & E3 & Hd3); [cbn in Hk; lia|lia|done|].
  exists it3. split; [|done]. replace (i + lenZ (o :: os)) with (i + 1 + lenZ os) by len_lia.
  rewrite E3. cbn [map lines]. replace (i + 1 =? 0) with false by lia.
  destruct (i =? 0); cbn [negb]; by rewrite <- ?app_assoc.
Qed.

Lemma appendTextMap_objects fuel kvs : ∀ bss k i b (it : Iterator R) rest,
  Forall2 (reads_text fuel) (flatten kvs) bss → (length kvs ≤ k)%nat → 0 ≤ i →
  delivers (it_r it) (concat bss ++ rest) →
  ∃ it2, appendTextMap (AppendText format_time fuel) k i (i + lenZ kvs) b it =
      Ret (b ++ lines (i =? 0) (map (λ kv, text kv.1 ++ str ": " ++ text kv.2) kvs), it2) ∧
    delivers (it_r it2) rest.
Proof.
  induction kvs as [|[ko vo] kvs IH]; intros bss k i b it rest Ho Hk Hi Hd.
  { inversion Ho; subst. exists it. split; [|done].
    cbn [map lines]. rewrite app_nil_r, lenZ_nil, Z.add_0_r.
    destruct k; cbn [appendTextMap]; by rewrite Z.leb_refl. }
  destruct k as [|k]; [by cbn in Hk; lia|]. unfold flatten in Ho. cbn [flat_map app fst snd] in Ho.
  inversion Ho as [|? kb ? bss1 Hko Ho1]; subst. inversion Ho1 as [|? vb ? bss2 Hvo Hos]; subst.
  cbn [concat] in *. rewrite <- !app_assoc in Hd. cbn [appendTextMap].
  destruct (_ <=? i) eqn:E; [len_lia|].
  set (b1 := if negb (i =? 0) then b ++ [10] else b).
  destruct (Hko it b1 _ Hd) as (it1 & it2 & e & EN & ET & Hd2).
  rewrite EN. cbn [negb]. fold b1. rewrite ET. go_simpl.
  destruct (Hvo it2 ((b1 ++ text ko) ++ str ": ") _ Hd2) as (it3 & it4 & e' & EN' & ET' & Hd4).
  rewrite EN'. cbn [negb]. rewrite ET'. go_simpl.
  destruct (IH bss2 k (i + 1) (((b1 ++ text ko) ++ str ": ") ++ text vo) it4 rest)
    as (it5 & E5 & Hd5); [done|cbn in Hk; lia|lia|done|].
  exists it5. split; [|done]. replace (i + lenZ ((ko, vo) :: kvs)) with (i + 1 + lenZ kvs) by len_lia.
  rewrite E5. cbn [map lines fst snd]. replace (i + 1 =? 0) with false by lia.
  unfold b1. destruct (i =? 0); cbn [negb]; by rewrite <- ?app_assoc.
Qed.

Lemma AppendText_encodes o : ∀ bs fuel, encodes o bs → (length bs < fuel)%nat → reads_text fuel o bs.
Proof.
  induction o as [s|os IH|kvs IH] using obj_ind'; intros bs fuel He Hf it b rest Hd.
  - destruct (Any_at it s bs rest Hd He) as (it1 & it2 & EN & Et & EA & _ & Hd2).
    destruct (scalar_type_scalar s) as [HA HM]. destruct fuel as [|fuel]; [lia|].
    destruct (AppendText_Any fuel b it1 it2 (value_of s)) as [e E]; [by rewrite Et..|done|].
    by exists it1, it2, e.
  - inversion He as [|? hd bss Hh H2|]; subst. rewrite <- app_assoc in Hd.
    destruct (Next_at it _ _ _ _ Hd Hh) as (r1 & EN & Hd1). destruct fuel as [|fuel]; [lia|].
    rewrite length_app in Hf. pose proof (length_header_pos _ _ _ Hh) as Hpos.
    pose proof (length_encodes os bss H2) as Hle. unfold lenZ in Hpos.
    destruct (appendTextArray_objects fuel os bss) with (k := fuel) (i := 0) (b := b)
      (it := token r1 Types.Array hd (lenZ os)) (rest := rest) as (it2 & E2 & Hd2);
      [by apply (elements_with_fuel reads_text); [| |lia]|lia|lia|done|].
    exists (token r1 Types.Array hd (lenZ os)), it2, None. split; [done|]. split; [|done].
    cbn [AppendText]. change (it_typ _) with Types.Array. cbv iota.
    change (it_items _) with (0 + lenZ os). by rewrite E2.
  - inversion He as [| |? hd bss Hh H2]; subst. rewrite <- app_assoc in Hd.
    destruct (Next_at it _ _ _ _ Hd Hh) as (r1 & EN & Hd1). destruct fuel as [|fuel]; [lia|].
    rewrite length_app in Hf. pose proof (length_header_pos _ _ _ Hh) as Hpos. unfold lenZ in Hpos.
    pose proof (length_encodes _ bss H2) as Hle. rewrite length_flatten in Hle.
    apply (Forall_flatten (λ x, ∀ bs fuel, encodes x bs → (length bs < fuel)%nat → reads_text fuel x bs)) in IH.
    destruct (appendTextMap_objects fuel kvs bss) with (k := fuel) (i := 0) (b := b)
      (it := token r1 Types.Map hd (lenZ kvs)) (rest := rest) as (it2 & E2 & Hd2);
      [by apply (elements_with_fuel reads_text); [| |lia]|lia|lia|done|].
    exists (token r1 Types.Map hd (lenZ kvs)), it2, None. split; [done|]. split; [|done].
    cbn [AppendText]. change (it_typ _) with Types.Map. cbv iota.
    change (it_items _) with (0 + lenZ kvs). by rewrite E2.
Qed.

End Text.

End Tokens.

(** ** Properties *)

Section Properties.
  Context `{RingLaws R} (format_time : Time → list Z).

(** C22: The iterator decodes what the append functions encode: on a stream that
    starts with an encoding of any scalar but a Ts96 timestamp, with a header of
    any width and the bytes the format gives the scalar, [Next] reports its type
    and [Any] returns its value, and the stream is then exactly what follows the
    scalar. *)
Theorem Any_scalar (it : Iterator R) s bs rest :
  delivers (it_r it) (bs ++ rest) → encodes (OScalar s) bs →
  ∃ it1 it2, Next it = (true, it1) ∧ it_typ it1 = scalar_type s ∧
    Any it1 = Ret (value_of s, it2) ∧ it_err it2 = None ∧ delivers (it_r it2) rest.
Proof. apply Any_at. Qed.


(** [Skip] terminates on every stream of bytes, whatever the token it is
    called on claims about its items: fuel for two more than the bytes left is
    enough, and it never moves past the end of the stream. *)
Theorem Skip_terminates (it : Iterator R) bs fuel :
  delivers (it_r it) bs → is_bytes bs → 0 ≤ it_length it → (length bs + 1 < fuel)%nat →
  ∃ it' bs', Skip fuel it = Ret it' ∧ delivers (it_r it') bs' ∧ bs' `suffix_of` bs.
Proof. apply Skip_shrinks. Qed.

(** [AppendText] renders the tree of an object: a scalar as its text, the
    elements of an array and the "key: value" entries of a map on one line each,
    nested containers in place, and consumes exactly the object. *)
Theorem AppendText_object (it : Iterator R) o b bs rest fuel :
  delivers (it_r it) (bs ++ rest) → encodes o bs → (length bs < fuel)%nat →
  ∃ it1 it2 e, Next it = (true, it1) ∧
    AppendText format_time fuel b it1 = Ret (b ++ text format_time o, e, it2) ∧
    delivers (it_r it2) rest.
Proof. intros Hd He Hf. by apply (AppendText_encodes format_time o bs fuel). Qed.

(** The iterator reads back the time of every format but Ts96, as what the
    format keeps of it, integers included. *)
Theorem Time_AppendTimestamp (it : Iterator R) t f rest :
  delivers (it_r it) (AppendTimestamp [] t [f] ++ rest) → valid_time t → f ≠ TsAuto → f ≠ Ts96 →
  ∃ it1 it2, Next it = (true, it1) ∧ it_typ it1 ∈ [Ext; Types.Int; Types.Uint] ∧
    Timestamp it1 = Ret (ts_stored_as f t, it2) ∧ delivers (it_r it2) rest.
Proof.
  intros Hd Ht Hf H96.
  assert (encodes (OScalar (STime t f)) (AppendTimestamp [] t [f])) as He.
  { apply (scalar_encodes (STime t f)). split; [done|]. by destruct f. }
  destruct (Timestamp_scalar it t f _ rest Hd He) as (it1 & it2 & EN & ET & E & _ & Hd2).
  exists it1, it2. split_and!; [done| |done|done]. rewrite ET. destruct t as [u n].
  destruct f; cbn [scalar_type]; repeat case_match; set_solver.
Qed.

(** A Ts96 timestamp, the format chosen for times before 1970, is not read
    back by the iterator: the header's length does not count the type byte, so
    [Time] gets 12 bytes instead of 13, returns the Unix epoch and leaves the
    last byte of the second to be read as the next token. *)
Theorem Time_Ts96_desync (it : Iterator R) t rest :
  delivers (it_r it) (AppendTimestamp [] t [Ts96] ++ rest) →
  ∃ it1 it2, Next it = (true, it1) ∧ it_typ it1 = Ext ∧
    Timestamp it1 = Ret (mkTime 0 0, it2) ∧ it_err it2 = None ∧
    delivers (it_r it2) (u8 (unix t) :: rest).
Proof.
  intros Hd. destruct (Next_Ts96 it t rest Hd) as (r & p & EN & El & -> & Hd1).
  destruct (raw_at (token r Ext [0xc7; 12] 12) _ _ Hd1) as (sp & r2 & Eraw & Hd2); [done|].
  eexists _, _. split; [exact EN|]. split; [done|]. unfold Timestamp. rewrite Eraw.
  split; [reflexivity|]. done.
Qed.

End Properties.

(** ** Witnesses: an iterator over a list *)

Definition iter_over (bs : list Z) : Iterator list_ring := NewIterator (mkListRing bs false).

(** An encoding is no proper prefix of another one: skipping tells them apart. *)
Lemma encodes_prefix_free o o' bs x : encodes o bs → encodes o' (bs ++ x) → x = [].
Proof.
  intros H H'. set (fuel := S (length (bs ++ x))).
  destruct (Skip_encodes o bs fuel H) with (it := iter_over (bs ++ x)) (rest := x)
    as (it1 & it2 & EN & ES & Hd); [unfold fuel; rewrite length_app; lia|done|].
  destruct (Skip_encodes o' (bs ++ x) fuel H') with (it := iter_over (bs ++ x)) (rest := @nil Z)
    as (it1' & it2' & EN' & ES' & Hd'); [unfold fuel; lia|by rewrite app_nil_r|].
  rewrite EN in EN'. injection EN' as <-. rewrite ES in ES'. injection ES' as <-.
  cbn in Hd, Hd'. congruence.
Qed.

(** An array with a map, a string and a timestamp in it. *)
Definition example_obj : obj :=
  OArray [OScalar (SInt (-5)); OMap [(OScalar (SStr (str "key")), OScalar (SBool true))];
          OScalar (STime (mkTime 1735693323 5) TsFluentd)].

Lemma example_obj_encodes : encodes example_obj (encode example_obj).
Proof.
  apply encode_encodes.
  repeat split; cbn; try lia; try done; unfold is_byte; repeat constructor; unfold is_byte; try lia.
Defined.

Lemma Any_scalar_witness : ∃ it1 it2,
  Next (iter_over (AppendInt [] (-5) ++ [1])) = (true, it1) ∧ it_typ it1 = Types.Int ∧
  Any it1 = Ret (VInt (-5), it2) ∧ it_err it2 = None ∧ pending (it_r it2) = [1].
Proof.
  refine (Any_scalar (iter_over (AppendInt [] (-5) ++ [1])) (SInt (-5)) (AppendInt [] (-5)) [1] _ _);
    [reflexivity|].
  apply scalar_encodes. split; cbn; [lia|reflexivity].
Defined.


(** Garbage: an array of [2^32 - 1] items in a stream of seven bytes. *)
Lemma Skip_terminates_witness : ∃ it' bs',
  Skip 10 (mkIterator (mkListRing [0xdd; 0xff; 0xff; 0xff; 0xff; 1; 0xc1] true) None 0 2 0 Array) =
    Ret it' ∧ pending (it_r it') = bs' ∧ bs' `suffix_of` [0xdd; 0xff; 0xff; 0xff; 0xff; 1; 0xc1].
Proof.
  refine (Skip_terminates
    (mkIterator (mkListRing [0xdd; 0xff; 0xff; 0xff; 0xff; 1; 0xc1] true) None 0 2 0 Array)
    [0xdd; 0xff; 0xff; 0xff; 0xff; 1; 0xc1] 10 _ _ _ _); [reflexivity| |cbn; lia|cbn; lia].
  repeat constructor; lia.
Defined.

Lemma AppendText_object_witness : ∃ it1 it2 e,
  Next (iter_over (encode example_obj ++ [7])) = (true, it1) ∧
  AppendText (λ _, str "2025") 100 [] it1 =
    Ret (str "-5" ++ [10] ++ str "key: true" ++ [10] ++ str "2025", e, it2) ∧
  pending (it_r it2) = [7].
Proof.
  refine (AppendText_object (λ _, str "2025") (iter_over (encode example_obj ++ [7])) example_obj [] (encode example_obj) [7] 100 _ _ _);
    [reflexivity|apply example_obj_encodes|by apply Nat.ltb_lt].
Defined.

Lemma Time_AppendTimestamp_witness : ∃ it1 it2,
  Next (iter_over (AppendTimestamp [] (mkTime 5 7) [Ts64] ++ [1])) = (true, it1) ∧
  it_typ it1 ∈ [Ext; Types.Int; Types.Uint] ∧
  Timestamp it1 = Ret (mkTime 5 7, it2) ∧ pending (it_r it2) = [1].
Proof.
  refine (Time_AppendTimestamp (iter_over (AppendTimestamp [] (mkTime 5 7) [Ts64] ++ [1])) (mkTime 5 7) Ts64 [1] _ _ _ _);
    [reflexivity|unfold valid_time; cbn; lia|done|done].
Defined.

Lemma Time_Ts96_desync_witness : ∃ it1 it2,
  Next (iter_over (AppendTimestamp [] (mkTime (-1) 0) [Ts96] ++ [1])) = (true, it1) ∧
  it_typ it1 = Ext ∧ Timestamp it1 = Ret (mkTime 0 0, it2) ∧ it_err it2 = None ∧
  pending (it_r it2) = [255; 1].
Proof.
  refine (Time_Ts96_desync (iter_over (AppendTimestamp [] (mkTime (-1) 0) [Ts96] ++ [1])) (mkTime (-1) 0) [1] _).
  reflexivity.
Defined.
