(* ===== verification/Value.v ===== *)
(** * Value: raw MessagePack values (pkg/msgpack/value.go)

    A [Value] is a byte slice that starts with an encoded value.  [Array] and
    [Map] return iterator functions; the function assigns to the variable it
    captured, so it is modelled with the captured slice as an argument and the
    slice it leaves behind as part of the result: ranging twice over the same
    [iter.Seq] runs it a second time on what the first run left.

    [ArraySeq_tokens] says what the iteration yields: the first tokens of the
    encoding, which are the elements when none of them is a container with
    elements of its own. *)

From S2P Require Import Prelude Types Errors Integer Headers Str Float Timestamp Object Strconv.

Definition Value := Slice.

Definition IsZero (v : Value) : bool := slen v =? 0.

Definition Type_of (v : Value) : go type :=
  if slen v =? 0 then Ret Nil else c ← index v 0; Ret (Get c).1.1.

Definition BytesLen (v : Value) : go Z :=
  if slen v =? 0 then Ret 0 else
  let offset := 0 in
  c ← index v offset;
  let '(typ, length, isValueLength) := Get c in
  let offset := offset + 1 in
  '(length, offset) ←
    (if negb isValueLength then
       let l := length in
       buf ← reslice v offset (offset + l);
       Ret (intFromBuf TInt (live buf), offset + l)
     else Ret (length, offset));
  if bool_decide (typ ≠ Array) && bool_decide (typ ≠ Map) then Ret (offset + length)
  else Ret offset.

Definition Len (v : Value) : go Z :=
  if slen v =? 0 then Ret 0 else
  c ← index v 0;
  let '(_, l, isValueLength) := Get c in
  if negb isValueLength then buf ← reslice v 1 (1 + l); Ret (intFromBuf TInt (live buf))
  else Ret l.

Section Seq.
  (** The state of the loop body, which returns false to stop. *)
  Context {St : Type}.

(** [for range length { ... }]; the result is the captured slice and the state. *)
Fixpoint array_loop (yield : St → Value → go (bool * St)) (n : nat) (v : Value) (s : St) :
    go (Value * St) :=
  match n with
  | O => Ret (v, s)
  | S n =>
    next ← BytesLen v;
    e ← reslice v 0 next;
    '(ok, s) ← yield s e;
    if negb ok then Ret (v, s) else
    v ← reslice_from v next;
    array_loop yield n v s
  end.

Fixpoint map_loop (yield : St → Value → Value → go (bool * St)) (n : nat) (v : Value) (s : St) :
    go (Value * St) :=
  match n with
  | O => Ret (v, s)
  | S n =>
    next ← BytesLen v;
    key ← reslice v 0 next;
    v ← reslice_from v next;
    next ← BytesLen v;
    val ← reslice v 0 next;
    v ← reslice_from v next;
    '(ok, s) ← yield s key val;
    if negb ok then Ret (v, s) else
    map_loop yield n v s
  end.

(** The header of a container: its count and the slice after it. *)
Definition enter (v : Value) (l : Z) (isValueLength : bool) : go (Z * Value) :=
  let offset := 1 in
  if negb isValueLength then
    buf ← reslice v offset (offset + l);
    v ← reslice_from v (offset + l);
    Ret (intFromBuf TInt (live buf), v)
  else v ← reslice_from v offset; Ret (l, v).

Definition ArraySeq (v : Value) (yield : St → Value → go (bool * St)) (s : St) : go (Value * St) :=
  if slen v =? 0 then Ret (v, s) else
  c ← index v 0;
  let '(typ, length, isValueLength) := Get c in
  if bool_decide (typ ≠ Array) then Ret (v, s) else
  '(length, v) ← enter v length isValueLength;
  array_loop yield (Z.to_nat length) v s.

Definition MapSeq (v : Value) (yield : St → Value → Value → go (bool * St)) (s : St) :
    go (Value * St) :=
  if slen v =? 0 then Ret (v, s) else
  c ← index v 0;
  let '(typ, length, isValueLength) := Get c in
  if bool_decide (typ ≠ Map) then Ret (v, s) else
  '(length, v) ← enter v length isValueLength;
  map_loop yield (Z.to_nat length) v s.

End Seq.

(** ** The scalar accessors: the error is dropped *)

Definition Value_Bool (v : Value) : go bool := '(val, _, _) ← ReadBool v 0; Ret val.
Definition Value_Int (v : Value) : go Z := '(val, _, _) ← ReadInt v 0; Ret val.
Definition Value_Uint (v : Value) : go Z := '(val, _, _) ← ReadUint v 0; Ret val.
Definition Value_Float (v : Value) : go Z := '(val, _, _) ← ReadFloat v 0; Ret val.
Definition Value_Str (v : Value) : go (list Z) := '(val, _, _) ← ReadString v 0; Ret val.
Definition Value_StrCopy (v : Value) : go (list Z) := '(val, _, _) ← ReadStringCopy v 0; Ret val.
Definition Value_Bin (v : Value) : go Slice := '(val, _, _) ← ReadBinary v 0; Ret val.
Definition Value_Timestamp (v : Value) : go Time := '(val, _, _) ← ReadTimestamp v 0; Ret val.

Section Text.
  (** [t.Format(time.DateTime)] in the local zone *)
  Variable format_time : Time → list Z.

Definition String (v : Value) : go (list Z) :=
  typ ← Type_of v;
  match typ with
  | Bool => b ← Value_Bool v; Ret (FormatBool b)
  | Int => z ← Value_Int v; Ret (FormatInt z)
  | Uint => z ← Value_Uint v; Ret (FormatInt z)
  | Float => f ← Value_Float v; Ret (FormatFloat6 f)
  | Str => Value_StrCopy v
  | Bin => b ← Value_Bin v; Ret (hex_encode (live b))
  | Array => n ← Len v; Ret (str "Array<" ++ FormatInt n ++ str ">")
  | Map => n ← Len v; Ret (str "Map<" ++ FormatInt n ++ str ">")
  | Ext => t ← Value_Timestamp v; Ret (format_time t)
  | _ => Ret []
  end.

Definition AppendText (v : Value) (b : list Z) : go (list Z * option error) :=
  typ ← Type_of v;
  match typ with
  | Bool => x ← Value_Bool v; Ret (b ++ FormatBool x, None)
  | Int => z ← Value_Int v; Ret (b ++ FormatInt z, None)
  | Uint => z ← Value_Uint v; Ret (b ++ FormatInt z, None)
  | Float => f ← Value_Float v; Ret (b ++ FormatFloat6 f, None)
  | Str => s ← Value_Str v; Ret (b ++ s, None)
  | Bin => s ← Value_Bin v; Ret (b ++ hex_encode (live s), None)
  | Array => n ← Len v; Ret ((b ++ str "Array<") ++ FormatInt n ++ str ">", None)
  | Map => n ← Len v; Ret ((b ++ str "Map<") ++ FormatInt n ++ str ">", None)
  | Ext => t ← Value_Timestamp v; Ret (b ++ format_time t, None)
  | _ => Ret (b, Some ErrInvalidFormat)
  end.

End Text.

Definition AppendBinary (v : Value) (b : list Z) : list Z := b ++ live v.

Definition AppendJson (v : Value) (b : list Z) : go (list Z * option error) := Panic NotImplemented.

(** ** Headers *)

(** The scalars whose length the value methods, which decode it with a sign, read
    right. *)
Definition safe_scalar (s : scalar) : Prop :=
  match s with
  | SStr x => sign_safe (string_header (lenZ x)) (lenZ x)
  | SBin x => sign_safe (appendBinaryHeader [] (lenZ x)) (lenZ x)
  | _ => True
  end.

Definition tame_scalar (s : scalar) : Prop := plain_scalar s ∧ safe_scalar s.
Abbreviation tame := (all_scalars tame_scalar).

Lemma scalar_split_safe s :
  plain_scalar s →
  ∃ hd body, encode_scalar s = hd ++ body ∧ length_header (scalar_type s) hd (lenZ body) ∧
    (sign_safe hd (lenZ body) ↔ safe_scalar s).
Proof.
  intros [Hv H96]. destruct (scalar_split s Hv) as (hd & body & E & Hh & Hdec & Hhd).
  specialize (Hdec H96). rewrite H96, Z.sub_0_r in Hh. exists hd, body. split_and!; [done|done|].
  assert (length hd = 1%nat → sign_safe hd (lenZ body)) as H1.
  { intros H1. unfold sign_safe. by rewrite H1. }
  destruct s; cbn [scalar_head safe_scalar wire] in *;
    first [by subst | split; [done|]; intros _; by apply H1, Hhd].
Qed.

(** [BytesLen] of a header and what follows. *)
Lemma BytesLen_at v t hd l rest :
  live v = hd ++ rest → length_header t hd l →
  BytesLen v = Ret (lenZ hd + if bool_decide (t ≠ Array) && bool_decide (t ≠ Map)
                              then signed_length hd l else 0).
Proof.
  intros El Hh. pose proof (length_header_pos _ _ _ Hh) as Hp.
  assert (holds_at v 0 hd) as H by (by exists [], rest).
  assert (slen v = lenZ hd + lenZ rest) as Es by (unfold slen; rewrite El; len_lia).
  unfold BytesLen. destruct (slen v =? 0) eqn:E0; [len_lia|].
  destruct Hh as [(c & -> & Hc & HG)|(h & n & -> & Hh & HG & Hn & Hl)].
  - rewrite (index_at _ _ _ _ H). go_simpl. rewrite HG. cbn [negb]. go_simpl.
    by destruct (_ && _).
  - rewrite (index_at _ _ _ _ H). go_simpl. rewrite HG. cbn [negb].
    apply holds_at_cons in H. cbn [Z.add] in *. read_payload H (be_enc n l) (Z.of_nat n).
    rewrite (intFromBuf_length n l Hn Hl h). rewrite lenZ_cons, lenZ_be_enc.
    destruct (_ && _); f_equal; lia.
Qed.

Lemma BytesLen_scalar_at v s rest :
  live v = encode_scalar s ++ rest → plain_scalar s →
  BytesLen v = Ret (lenZ (encode_scalar s)) ↔ safe_scalar s.
Proof.
  intros El Hp. destruct (scalar_split_safe s Hp) as (hd & body & E & Hh & Hs).
  destruct (scalar_type_scalar s) as [HA HM]. rewrite E, <- app_assoc in El.
  rewrite (BytesLen_at v _ hd (lenZ body) (body ++ rest) El Hh).
  rewrite !bool_decide_true by done. cbn [andb]. rewrite E, lenZ_app, <- Hs.
  destruct (decide (sign_safe hd (lenZ body))) as [H|H].
  - by rewrite (signed_length_safe _ _ _ Hh H).
  - destruct (signed_length_unsafe _ _ _ Hh H). pose proof (lenZ_nonneg body).
    split; [intros [=]; lia|done].
Qed.

(** ** Tokens *)

(** The tokens of an object: a scalar is one token; the header of a container is
    a token of its own, followed by those of the elements. *)
Fixpoint tokens (o : obj) : list (list Z) :=
  match o with
  | OScalar s => [encode_scalar s]
  | OArray os => AppendArrayHeader [] (lenZ os) :: flat_map tokens os
  | OMap kvs => AppendMapHeader [] (lenZ kvs) :: flat_map (λ kv, tokens kv.1 ++ tokens kv.2) kvs
  end.

Lemma concat_flat_map {A} (f : A → list (list Z)) l :
  concat (flat_map f l) = flat_map (λ x, concat (f x)) l.
Proof. induction l as [|x l IH]; [done|]. cbn [flat_map]. by rewrite concat_app, IH. Qed.

Lemma flat_map_Forall {A B} (f g : A → list B) l :
  Forall (λ x, f x = g x) l → flat_map f l = flat_map g l.
Proof. induction 1 as [|x l E _ IH]; [done|]. cbn [flat_map]. by rewrite E, IH. Qed.

Lemma concat_tokens o : concat (tokens o) = encode o.
Proof.
  induction o as [s|os IH|kvs IH] using obj_ind'; cbn [tokens encode concat].
  - apply app_nil_r.
  - f_equal. rewrite concat_flat_map. by apply flat_map_Forall.
  - f_equal. rewrite concat_flat_map. apply flat_map_Forall.
    eapply Forall_impl; [exact IH|]. intros [k v] [E1 E2]. by rewrite concat_app, E1, E2.
Qed.

(** [BytesLen] of a value that starts with the token is the token's length. *)
Definition measured (tk : list Z) : Prop :=
  ∀ v rest, live v = tk ++ rest → BytesLen v = Ret (lenZ tk).

Lemma measured_header t hd l : length_header t hd l → t = Array ∨ t = Map → measured hd.
Proof.
  intros Hh Ht v rest El. rewrite (BytesLen_at v t hd l rest El Hh).
  replace (_ && _) with false by (by destruct Ht as [-> | ->]). f_equal. lia.
Qed.

Lemma tokens_measured o : tame o → Forall measured (tokens o).
Proof.
  induction o as [s|os IH|kvs IH] using obj_ind'; cbn [tokens].
  - intros [Hp Hs]. constructor; [|done]. intros v rest El. by apply (BytesLen_scalar_at v s rest).
  - rewrite all_scalars_array. intros [Hl Ho]. constructor.
    + apply (measured_header Array _ (lenZ os)); [|by left].
      apply AppendArrayHeader_header. pose proof (lenZ_nonneg os). lia.
    + clear Hl. induction os as [|o os IHos]; [done|]. apply Forall_cons in IH as [IH1 IH], Ho as [Ho1 Ho].
      cbn [flat_map]. apply Forall_app. auto.
  - rewrite all_scalars_map. intros [Hl Ho]. constructor.
    + apply (measured_header Map _ (lenZ kvs)); [|by right].
      apply AppendMapHeader_header. pose proof (lenZ_nonneg kvs). lia.
    + clear Hl. induction kvs as [|[k v] kvs IHk]; [done|].
      apply Forall_cons in IH as [[IH1 IH2] IH], Ho as [[Ho1 Ho2] Ho].
      cbn [flat_map fst snd] in *. rewrite !Forall_app. auto.
Qed.

Lemma length_tokens o : (1 ≤ length (tokens o))%nat.
Proof. destruct o; cbn [tokens length]; lia. Qed.

Lemma length_flat_tokens os : (length os ≤ length (flat_map tokens os))%nat.
Proof.
  induction os as [|o os IH]; [done|]. cbn [flat_map length]. rewrite length_app.
  pose proof (length_tokens o). lia.
Qed.

(** ** Iteration *)

(** A slice that starts with [tk] is cut after it. *)
Lemma cut_token v tk rest :
  live v = tk ++ rest →
  (∃ e, reslice v 0 (lenZ tk) = Ret e ∧ live e = tk) ∧
  (∃ v', reslice_from v (lenZ tk) = Ret v' ∧ live v' = rest).
Proof.
  intros El. pose proof (lenZ_nonneg tk). pose proof (lenZ_nonneg rest).
  assert (slen v = lenZ tk + lenZ rest) as Es by (unfold slen; rewrite El; len_lia). split.
  - destruct (reslice_in_range v 0 (lenZ tk)) as (e & -> & Ee & _); [lia..|].
    exists e. split; [done|]. rewrite Ee, El, Z.sub_0_r. cbn [drop Z.to_nat].
    by apply take_app_lenZ.
  - unfold reslice_from. destruct (reslice_in_range v (lenZ tk) (slen v)) as (e & -> & Ee & _); [lia..|].
    exists e. split; [done|]. rewrite Ee, El, drop_app_lenZ by done.
    apply take_ge. unfold lenZ in *. lia.
Qed.

(** A loop body that depends on the bytes of the value only; what it makes of a
    list of values, and whether it wanted them all. *)
Fixpoint feed {St A} (f : St → A → bool * St) (s : St) (l : list A) : bool * St :=
  match l with
  | [] => (true, s)
  | x :: l => let '(ok, s) := f s x in if ok then feed f s l else (false, s)
  end.

Lemma array_loop_tokens {St} (f : St → list Z → bool * St) tks : ∀ n v s rest,
  Forall measured tks → (n ≤ length tks)%nat → live v = concat tks ++ rest →
  ∃ v', array_loop (λ s e, Ret (f s (live e))) n v s = Ret (v', (feed f s (take n tks)).2) ∧
    ((feed f s (take n tks)).1 = true → live v' = concat (drop n tks) ++ rest).
Proof.
  induction tks as [|tk tks IH]; intros n v s rest Hm Hn El.
  { assert (n = 0%nat) as -> by (cbn in Hn; lia). by exists v. }
  destruct n as [|n]; [by exists v|]. apply Forall_cons in Hm as [Hm Hms].
  cbn [concat] in El. rewrite <- app_assoc in El. cbn [array_loop take drop].
  rewrite (Hm _ _ El). go_simpl.
  destruct (cut_token v tk _ El) as [(e & -> & Ee) (v2 & Ev2 & El2)]. go_simpl.
  rewrite Ee. cbn [feed]. destruct (f s tk) as [[] s2]; cbn [negb]; [|by exists v].
  rewrite Ev2. go_simpl. apply IH; [done|cbn in Hn; lia|done].
Qed.

(** The values in pairs. *)
Fixpoint pairs {A} (l : list A) : list (A * A) :=
  match l with
  | x :: y :: l => (x, y) :: pairs l
  | _ => []
  end.

Lemma map_loop_tokens {St} (f : St → list Z * list Z → bool * St) n : ∀ tks v s rest,
  Forall measured tks → (2 * n ≤ length tks)%nat → live v = concat tks ++ rest →
  ∃ v', map_loop (λ s k e, Ret (f s (live k, live e))) n v s =
      Ret (v', (feed f s (pairs (take (2 * n) tks))).2) ∧
    ((feed f s (pairs (take (2 * n) tks))).1 = true → live v' = concat (drop (2 * n) tks) ++ rest).
Proof.
  induction n as [|n IH]; intros tks v s rest Hm Hn El; [by exists v|].
  destruct tks as [|k [|e tks]]; [cbn in Hn; lia|cbn in Hn; lia|].
  apply Forall_cons in Hm as [Hk Hm]. apply Forall_cons in Hm as [He Hm].
  cbn [concat] in El. rewrite <- app_assoc in El. cbn [map_loop].
  replace (2 * S n)%nat with (S (S (2 * n))) by lia. cbn [take drop pairs feed].
  rewrite (Hk _ _ El). go_simpl.
  destruct (cut_token v k _ El) as [(ks & -> & Eks) (v2 & -> & El2)]. go_simpl.
  rewrite <- app_assoc in El2. rewrite (He _ _ El2). go_simpl.
  destruct (cut_token v2 e _ El2) as [(es & -> & Ees) (v3 & -> & El3)]. go_simpl.
  rewrite Eks, Ees. destruct (f s (k, e)) as [[] s2]; cbn [negb]; [|by exists v3].
  apply IH; [done|cbn in Hn; lia|done].
Qed.

(** Entering a container whose count is read right. *)
Lemma enter_at v t hd n rest :
  live v = hd ++ rest → length_header t hd n →
  ∃ c l vl v', slen v ≠ 0 ∧ index v 0 = Ret c ∧ Get c = (t, l, vl) ∧
    enter v l vl = Ret (signed_length hd n, v') ∧ live v' = rest.
Proof.
  intros El Hh. pose proof (length_header_pos _ _ _ Hh) as Hp.
  assert (holds_at v 0 hd) as H by (by exists [], rest).
  assert (slen v = lenZ hd + lenZ rest) as Es by (unfold slen; rewrite El; len_lia).
  destruct (cut_token v hd rest El) as [_ (v' & Ev & El')].
  destruct Hh as [(c & -> & Hc & HG)|(h & k & -> & Hh & HG & Hk & Hl)].
  - exists c, n, true, v'. rewrite (index_at _ _ _ _ H). split_and!; [len_lia|done|done| |done].
    unfold enter. cbn [negb]. change (lenZ [c]) with 1 in Ev. by rewrite Ev.
  - exists h, (Z.of_nat k), false, v'. rewrite (index_at _ _ _ _ H).
    split_and!; [len_lia|done|done| |done].
    unfold enter. cbn [negb]. apply holds_at_cons in H. change (0 + 1) with 1 in H.
    read_payload H (be_enc k n) (Z.of_nat k).
    rewrite lenZ_cons, lenZ_be_enc in Ev. rewrite Ev. go_simpl.
    by rewrite (intFromBuf_length k n Hk Hl h).
Qed.

(** ** Text *)

Lemma Type_of_at v t hd l rest :
  live v = hd ++ rest → length_header t hd l → Type_of v = Ret t.
Proof.
  intros El Hh. destruct (enter_at v t hd l rest El Hh) as (c & k & vl & _ & E0 & Ei & EG & _).
  unfold Type_of. destruct (slen v =? 0) eqn:E; [lia|]. rewrite Ei. go_simpl. by rewrite EG.
Qed.

(** An encoded integer is read by the accessor of its type. *)
Lemma Value_Int_at v z :
  - 2 ^ 63 ≤ z < 2 ^ 63 → holds_at v 0 (AppendInt [] z) →
  if z <? 0 then Value_Int v = Ret z else Value_Uint v = Ret z.
Proof.
  intros Hz H. destruct (z <? 0) eqn:E.
  - unfold Value_Int. by rewrite (ReadInt_at _ _ _ Hz H).
  - unfold Value_Uint. rewrite AppendInt_nonneg in H by lia. by rewrite (ReadUint_at _ _ z) by (done || lia).
Qed.

Definition scalar_text (format_time : Time → list Z) (s : scalar) : list Z :=
  match s with
  | SNil => []
  | SBool b => FormatBool b
  | SInt z | SUint z => FormatInt z
  | SFloat f => FormatFloat6 f
  | SStr x => x
  | SBin x => hex_encode x
  | STime t TsInt => FormatInt (unix t)
  | STime t f => format_time (ts_stored_as f t)
  end.

(** ** Properties *)

(** [BytesLen] is the length of an encoded scalar exactly when the top bit of
    the scalar's length field is clear: on a string or binary of 128 to 255,
    32768 to 65535 or [2^31] and more bytes with such a field it is not. *)
Theorem BytesLen_scalar v s rest :
  live v = encode_scalar s ++ rest → plain_scalar s →
  BytesLen v = Ret (lenZ (encode_scalar s)) ↔ safe_scalar s.
Proof. apply BytesLen_scalar_at. Qed.

Lemma BytesLen_scalar_witness :
  BytesLen (sl (AppendString [] (replicate 200 65) ++ [1])) = Ret (lenZ (AppendString [] (replicate 200 65))) ↔
  sign_safe (string_header (lenZ (replicate 200 65))) (lenZ (replicate 200 65)).
Proof.
  apply (BytesLen_scalar (sl (AppendString [] (replicate 200 65) ++ [1])) (SStr (replicate 200 65)) [1]).
  - reflexivity.
  - split; [|done]. split; [|by vm_compute]. apply Forall_replicate. unfold is_byte. lia.
Defined.

(** Ranging over [Array] of an encoded array of n objects passes the first n
    tokens of its elements to the loop body, in order, until the body stops:
    [BytesLen] of a container is its header only, so after an element that has
    elements of its own the iteration continues inside it.  A run to the end
    leaves the captured slice after those tokens. *)
Theorem ArraySeq_tokens {St} (f : St → list Z → bool * St) v os rest s :
  live v = encode (OArray os) ++ rest → tame (OArray os) →
  sign_safe (AppendArrayHeader [] (lenZ os)) (lenZ os) →
  let tks := flat_map tokens os in
  ∃ v', ArraySeq v (λ s e, Ret (f s (live e))) s = Ret (v', (feed f s (take (length os) tks)).2) ∧
    ((feed f s (take (length os) tks)).1 = true → live v' = concat (drop (length os) tks) ++ rest).
Proof.
  intros El Ht Hs tks. pose proof (tokens_measured _ Ht) as Hm.
  apply all_scalars_array in Ht as [Hl _].
  assert (length_header Array (AppendArrayHeader [] (lenZ os)) (lenZ os)) as Hh.
  { apply AppendArrayHeader_header. pose proof (lenZ_nonneg os). lia. }
  cbn [encode] in El. rewrite <- app_assoc in El.
  destruct (enter_at v Array _ _ _ El Hh) as (c & l & vl & v' & E0 & Ei & EG & Ee & El').
  unfold ArraySeq. destruct (slen v =? 0) eqn:E; [lia|]. rewrite Ei. go_simpl. rewrite EG.
  rewrite bool_decide_false by (intros []; done). rewrite Ee. go_simpl.
  rewrite (signed_length_safe _ _ _ Hh Hs). unfold lenZ. rewrite Nat2Z.id.
  apply array_loop_tokens; [by apply Forall_inv_tail in Hm|apply length_flat_tokens|].
  rewrite El'. f_equal. unfold tks. rewrite concat_flat_map. apply flat_map_Forall.
  apply Forall_forall. intros o _. symmetry. apply concat_tokens.
Qed.

(** The loop body that collects what it is given. *)
Definition collect (acc : list (list Z)) (x : list Z) : bool * list (list Z) := (true, acc ++ [x]).

Lemma ArraySeq_tokens_witness : ∃ v',
  ArraySeq (sl (encode (OArray [OArray [OScalar (SInt 7)]; OScalar (SBool true)])))
    (λ s e, Ret (collect s (live e))) [] = Ret (v', [[0x91]; [7]]) ∧ (true = true → live v' = [0xc3]).
Proof.
  apply (ArraySeq_tokens collect (sl (encode (OArray [OArray [OScalar (SInt 7)]; OScalar (SBool true)])))
    [OArray [OScalar (SInt 7)]; OScalar (SBool true)] [] []).
  - cbn [live sl]. by rewrite app_nil_r.
  - repeat split; cbn; lia.
  - cbn. done.
Defined.

(** Likewise for [Map], which pairs the tokens up as keys and values. *)
Theorem MapSeq_tokens {St} (f : St → list Z * list Z → bool * St) v kvs rest s :
  live v = encode (OMap kvs) ++ rest → tame (OMap kvs) →
  sign_safe (AppendMapHeader [] (lenZ kvs)) (lenZ kvs) →
  let tks := flat_map (λ kv, tokens kv.1 ++ tokens kv.2) kvs in
  let kvs' := pairs (take (2 * length kvs) tks) in
  ∃ v', MapSeq v (λ s k e, Ret (f s (live k, live e))) s = Ret (v', (feed f s kvs').2) ∧
    ((feed f s kvs').1 = true → live v' = concat (drop (2 * length kvs) tks) ++ rest).
Proof.
  intros El Ht Hs tks kvs'. pose proof (tokens_measured _ Ht) as Hm.
  apply all_scalars_map in Ht as [Hl _].
  assert (length_header Map (AppendMapHeader [] (lenZ kvs)) (lenZ kvs)) as Hh.
  { apply AppendMapHeader_header. pose proof (lenZ_nonneg kvs). lia. }
  cbn [encode] in El. rewrite <- app_assoc in El.
  destruct (enter_at v Map _ _ _ El Hh) as (c & l & vl & v' & E0 & Ei & EG & Ee & El').
  unfold MapSeq. destruct (slen v =? 0) eqn:E; [lia|]. rewrite Ei. go_simpl. rewrite EG.
  rewrite bool_decide_false by (intros []; done). rewrite Ee. go_simpl.
  rewrite (signed_length_safe _ _ _ Hh Hs). unfold lenZ. rewrite Nat2Z.id.
  apply map_loop_tokens; [by apply Forall_inv_tail in Hm| |].
  - unfold tks. clear. induction kvs as [|[k e] kvs IH]; [done|].
    cbn [flat_map length fst snd]. rewrite !length_app.
    pose proof (length_tokens k). pose proof (length_tokens e). lia.
  - rewrite El'. f_equal. unfold tks. rewrite concat_flat_map. apply flat_map_Forall.
    apply Forall_forall. intros [k e] _. by rewrite concat_app, !concat_tokens.
Qed.

Lemma MapSeq_tokens_witness : ∃ v',
  MapSeq (sl (encode (OMap [(OScalar (SStr (str "k")), OScalar (SInt 7))]) ++ [9]))
    (λ s k e, Ret ((true, s ++ [(live k, live e)]))) [] = Ret (v', [([0xa1; 107], [7])]) ∧
  (true = true → live v' = [9]).
Proof.
  apply (MapSeq_tokens (λ s ke, (true, s ++ [ke]))
    (sl (encode (OMap [(OScalar (SStr (str "k")), OScalar (SInt 7))]) ++ [9]))
    [(OScalar (SStr (str "k")), OScalar (SInt 7))] [9] []).
  - reflexivity.
  - repeat split; cbn; try lia. repeat constructor; unfold is_byte; lia.
  - cbn. done.
Defined.

(** An [iter.Seq] of [Array] can be ranged over once only.  The first run over
    an array of scalars yields their encodings one by one; the function has then
    moved its captured slice to the end of the array, so a second run starts on
    whatever follows, and yields nothing when the array was the whole slice. *)
Theorem ArraySeq_reuse {St} (f : St → list Z → bool * St) v ss s s1 :
  live v = encode (OArray (map OScalar ss)) → Forall tame_scalar ss → lenZ ss < 2 ^ 32 →
  sign_safe (AppendArrayHeader [] (lenZ ss)) (lenZ ss) →
  feed f s (map encode_scalar ss) = (true, s1) →
  ∃ v', ArraySeq v (λ s e, Ret (f s (live e))) s = Ret (v', s1) ∧
    ∀ s2, ArraySeq v' (λ s e, Ret (f s (live e))) s2 = Ret (v', s2).
Proof.
  intros El Hss Hl Hs Hf. set (os := map OScalar ss) in *.
  assert (lenZ os = lenZ ss) as Hlen by (unfold lenZ, os; by rewrite length_map).
  assert (flat_map tokens os = map encode_scalar ss) as Etk.
  { unfold os. clear. induction ss as [|x ss IH]; [done|]. cbn [map flat_map tokens app]. by rewrite IH. }
  assert (tame (OArray os)) as Ht.
  { apply all_scalars_array. split; [lia|]. unfold os. apply Forall_map. exact Hss. }
  pose proof (tokens_measured _ Ht) as Hm.
  change (tokens _) with (AppendArrayHeader [] (lenZ os) :: flat_map tokens os) in Hm.
  apply Forall_inv_tail in Hm. rewrite Etk in Hm.
  assert (length_header Array (AppendArrayHeader [] (lenZ os)) (lenZ os)) as Hh.
  { apply AppendArrayHeader_header. pose proof (lenZ_nonneg os). lia. }
  cbn [encode] in El. destruct (enter_at v Array _ _ _ El Hh) as (c & l & vl & v1 & E0 & Ei & EG & Ee & El1).
  assert (live v1 = concat (map encode_scalar ss) ++ []) as El1'.
  { rewrite El1, app_nil_r. rewrite <- Etk, concat_flat_map. apply flat_map_Forall.
    apply Forall_forall. intros o _. symmetry. apply concat_tokens. }
  destruct (array_loop_tokens f _ (length ss) v1 s [] Hm ltac:(by rewrite length_map) El1') as (v' & Er & Ev).
  rewrite take_ge, Hf in Er, Ev by (by rewrite length_map).
  rewrite drop_ge in Ev by (by rewrite length_map). specialize (Ev eq_refl).
  exists v'. split.
  - unfold ArraySeq. destruct (slen v =? 0) eqn:E; [lia|]. rewrite Ei. go_simpl. rewrite EG.
    rewrite bool_decide_false by (intros []; done). rewrite Ee. go_simpl.
    rewrite (signed_length_safe _ _ _ Hh) by by rewrite Hlen.
    rewrite Hlen. unfold lenZ. by rewrite Nat2Z.id.
  - intros s2. unfold ArraySeq, slen. by rewrite Ev.
Qed.

Lemma ArraySeq_reuse_witness : ∃ v',
  ArraySeq (sl [0x92; 1; 2]) (λ s e, Ret (collect s (live e))) [] = Ret (v', [[1]; [2]]) ∧
  ∀ s2, ArraySeq v' (λ s e, Ret (collect s (live e))) s2 = Ret (v', s2).
Proof.
  apply (ArraySeq_reuse collect (sl [0x92; 1; 2]) [SInt 1; SInt 2]); [reflexivity| |done|done|done].
  repeat constructor; cbn; lia.
Defined.

(** [String] and [AppendText] of an encoded scalar agree: both are the text of
    the value, with hexadecimal digits for binary; [AppendText] appends it and
    reports an error for nil, whose text is empty. *)
Theorem Text_scalar format_time v s rest b :
  live v = encode_scalar s ++ rest → valid_scalar s → safe_scalar s →
  String format_time v = Ret (scalar_text format_time s) ∧
  AppendText format_time v b =
    Ret (b ++ scalar_text format_time s, match s with SNil => Some ErrInvalidFormat | _ => None end).
Proof.
  intros El Hv Hs. assert (holds_at v 0 (encode_scalar s)) as H by (by exists [], rest).
  destruct (scalar_split s Hv) as (hd & body & E & Hh & _).
  assert (Type_of v = Ret (scalar_type s)) as Et.
  { rewrite E, <- app_assoc in El. by eapply Type_of_at. }
  unfold String, AppendText. rewrite Et. go_simpl. clear E Hh Et El.
  destruct s as [|x|z|z|f|x|x|t f]; cbn [scalar_type encode_scalar valid_scalar safe_scalar scalar_text] in *.
  - by rewrite app_nil_r.
  - assert (Value_Bool v = Ret x) as ->; [|done].
    unfold Value_Bool, ReadBool. destruct x; read_head H; done.
  - pose proof (Value_Int_at v z Hv H) as Hz. by destruct (z <? 0); rewrite Hz.
  - unfold Value_Uint. by rewrite (ReadUint_at _ _ _ Hv H).
  - unfold Value_Float. by rewrite (ReadFloat_at _ _ _ Hv H).
  - destruct Hv as [Hb Hl]. unfold Value_Str, Value_StrCopy, ReadStringCopy.
    rewrite AppendString_split in H. pose proof (lenZ_nonneg x).
    by rewrite (ReadString_at v 0 (string_header (lenZ x)) (lenZ x) x) by
      (done || apply string_header_spec; lia).
  - destruct Hv as [Hb Hl]. unfold Value_Bin. rewrite AppendBinary_split in H.
    pose proof (lenZ_nonneg x).
    pose proof (ReadBinary_at v 0 (appendBinaryHeader [] (lenZ x)) (lenZ x) x) as HR.
    rewrite decide_True in HR by done. destruct HR as [sp ->]; [apply binary_header_spec; lia|done..].
  - destruct Hv as [Ht Hf]. destruct (decide (f = TsInt)) as [->|Hi].
    + destruct Ht as [Hu _]. pose proof (Value_Int_at v (unix t) Hu H) as Hz. destruct t as [u n].
      cbn [unix] in *. by destruct (u <? 0); rewrite Hz.
    + unfold Value_Timestamp. rewrite (ReadTimestamp_at _ _ _ _ Ht Hf H). by destruct t, f.
Qed.

Lemma Text_scalar_witness :
  String (λ _, []) (sl (Str.AppendBinary [] [1; 255])) = Ret (str "01ff") ∧
  AppendText (λ _, []) (sl (Str.AppendBinary [] [1; 255])) (str "x=") = Ret (str "x=01ff", None).
Proof.
  apply (Text_scalar (λ _, []) (sl (Str.AppendBinary [] [1; 255])) (SBin [1; 255]) [] (str "x=")).
  - reflexivity.
  - split; [|done]. repeat constructor; unfold is_byte; lia.
  - done.
Defined.
