(* ===== verification/Dynamic.v ===== *)
(** * Dynamic: values of any type (pkg/msgpack/any.go, append_key_value.go,
    append_json.go, append_args.go)

    A Go interface value is one of the basic types, which have no methods, or a
    value of another type with the methods its type happens to implement; a type
    switch takes the first case that the value matches.  JSON encoding is a
    library of its own and a parameter.

    [represents v o] says which object a value is written as; [pair_args] how the
    variadic arguments of a log call are grouped into keys and values.
    [appendArgs_fields] shows that they are written as an encoding of exactly
    these fields, and how they are counted. *)

From S2P Require Import Prelude Types Errors Integer Headers Str Float Timestamp Object.

(** The methods that a type switch asks for. *)
Record Methods := mkMethods {
  AppendKeyValue : option (list Z → list Z → list Z * Z);
  AppendTextMethod : option (list Z → list Z * option error);
  StringMethod : option (list Z);
  ErrorMethod : option (list Z)
}.

Inductive any :=
  | ABytes (s : list Z)
  | ABool (b : bool)
  | AFloat32 (f : Z)
  | AFloat64 (f : Z)
  | ANum (T : numty) (z : Z)
  | AString (s : list Z)
  (** a value of another type, or nil; the number tells such values apart *)
  | AOther (id : Z) (m : Methods).

Definition no_methods : Methods := mkMethods None None None None.

(** ** pkg/msgpack/any.go *)

Definition AppendAny (dst : list Z) (v : any) : go (list Z) :=
  match v with
  | ABytes s => Ret (AppendBinary dst s)
  | ABool b => Ret (AppendBool dst b)
  | AFloat32 f => Ret (AppendFloat dst (float64_of f))
  | AFloat64 f => Ret (AppendFloat dst f)
  | ANum T z =>
      if is_signed T then Ret (AppendInt dst (conv TInt64 z)) else Ret (AppendUint dst (conv TUint64 z))
  | AString s => Ret (AppendString dst s)
  | AOther _ m =>
      match AppendTextMethod m with
      | Some f => AppendTextAppender dst f
      | None =>
        match StringMethod m with
        | Some s => Ret (AppendString dst s)
        | None => Ret dst
        end
      end
  end.

Section Fields.
  (** [json.Append(dst, v, 0)] of github.com/segmentio/encoding *)
  Variable json_Append : list Z → any → list Z * option error.

(** ** append_json.go *)

Definition appendJSON (dst : list Z) (v : any) : go (list Z) :=
  AppendBinaryUnknownLength dst (λ dst,
    let '(newDst, err) := json_Append dst v in
    match err with
    | Some _ => dst
    | None => newDst
    end).

(** ** append_key_value.go *)

Definition appendKeyValue (dst key : list Z) (value : any) : go (list Z * Z) :=
  match value with
  | AOther _ m =>
      match AppendKeyValue m with
      | Some f => Ret (f dst key)
      | None =>
        dst ← (match AppendTextMethod m with
               | Some f => AppendTextAppender (AppendString dst key) f
               | None =>
                 match StringMethod m with
                 | Some s => Ret (AppendString (AppendString dst key) s)
                 | None =>
                   match ErrorMethod m with
                   | Some s => Ret (AppendString (AppendString dst key) s)
                   | None => appendJSON (AppendString dst key) value
                   end
                 end
               end);
        Ret (dst, 1)
      end
  | ABytes s => Ret (AppendBinary (AppendString dst key) s, 1)
  | ABool b => Ret (AppendBool (AppendString dst key) b, 1)
  | AFloat32 f => Ret (AppendFloat (AppendString dst key) (float64_of f), 1)
  | AFloat64 f => Ret (AppendFloat (AppendString dst key) f, 1)
  | ANum T z =>
      if is_signed T then Ret (AppendInt (AppendString dst key) (conv TInt64 z), 1)
      else Ret (AppendUint (AppendString dst key) (conv TUint64 z), 1)
  | AString s => Ret (AppendString (AppendString dst key) s, 1)
  end.

(** ** append_args.go *)

(** The loop of [appendArgs] from the current key and count on. *)
Fixpoint appendArgs_loop (args : list any) (key : list Z) (n : Z) (b : list Z) : go (list Z * Z) :=
  match args with
  | [] => Ret (b, n)
  | arg :: args =>
    match bool_decide (key = []), arg with
    | true, AString k => appendArgs_loop args k n b
    | _, _ =>
      '(b, nn) ← appendKeyValue b key arg;
      appendArgs_loop args [] (u8 (n + nn)) b
    end
  end.

Definition appendArgs (b : list Z) (args : list any) : go (list Z * Z) := appendArgs_loop args [] 0 b.

(** ** What is written *)

(** Of a value that is not written by a method of its own, the object that
    [appendKeyValue] writes. *)
Inductive represents : any → obj → Prop :=
  | rep_bytes s : is_bytes s → lenZ s < 2 ^ 32 → represents (ABytes s) (OScalar (SBin s))
  | rep_bool b : represents (ABool b) (OScalar (SBool b))
  | rep_float32 f : 0 ≤ f < 2 ^ 32 → represents (AFloat32 f) (OScalar (SFloat (float64_of f)))
  | rep_float64 f : 0 ≤ f < 2 ^ 64 → represents (AFloat64 f) (OScalar (SFloat f))
  | rep_signed T z : is_signed T = true → in_type T z → represents (ANum T z) (OScalar (SInt z))
  | rep_unsigned T z : is_signed T = false → in_type T z → represents (ANum T z) (OScalar (SUint z))
  | rep_string s : is_bytes s → lenZ s < 2 ^ 32 → represents (AString s) (OScalar (SStr s))
  | rep_text id m f s :
      AppendKeyValue m = None → AppendTextMethod m = Some f → (∀ d, (f d).1 = d ++ s) →
      is_bytes s → lenZ s < 2 ^ 32 → represents (AOther id m) (OScalar (SStr s))
  | rep_stringer id m s :
      AppendKeyValue m = None → AppendTextMethod m = None → StringMethod m = Some s →
      is_bytes s → lenZ s < 2 ^ 32 → represents (AOther id m) (OScalar (SStr s))
  | rep_error id m s :
      AppendKeyValue m = None → AppendTextMethod m = None → StringMethod m = None →
      ErrorMethod m = Some s → is_bytes s → lenZ s < 2 ^ 32 →
      represents (AOther id m) (OScalar (SStr s))
  | rep_json id m s :
      AppendKeyValue m = None → AppendTextMethod m = None → StringMethod m = None →
      ErrorMethod m = None → (∀ d, json_Append d (AOther id m) = (d ++ s, None)) →
      is_bytes s → lenZ s < 2 ^ 32 → represents (AOther id m) (OScalar (SBin s))
  | rep_json_error id m :
      AppendKeyValue m = None → AppendTextMethod m = None → StringMethod m = None →
      ErrorMethod m = None → (∀ d, ∃ d' e, json_Append d (AOther id m) = (d', Some e)) →
      represents (AOther id m) (OScalar (SBin [])).

Lemma unknown_str_header l : 0 ≤ l < 2 ^ 32 → length_header Str (0xdb :: be_enc 4 l) l.
Proof. intros. right. exists 0xdb, 4%nat. split_and!; [done|unfold is_byte; lia|done|lia|lia|lia]. Qed.

Lemma unknown_bin_header l : 0 ≤ l < 2 ^ 32 → length_header Bin (0xc6 :: be_enc 4 l) l.
Proof. intros. right. exists 0xc6, 4%nat. split_and!; [done|unfold is_byte; lia|done|lia|lia|lia]. Qed.

Definition valid_key (key : list Z) : Prop := is_bytes key ∧ lenZ key < 2 ^ 32.

(** A field is an encoding of the key and an encoding of the value. *)
Definition field_encodes (key : list Z) (o : obj) (bs : list Z) : Prop :=
  ∃ kb vb, bs = kb ++ vb ∧ encodes (OScalar (SStr key)) kb ∧ encodes o vb.

(** A value whose append function is one of the scalars'. *)
Lemma field_scalar key s :
  valid_key key → plain_scalar s →
  field_encodes key (OScalar s) (AppendString [] key ++ encode_scalar s).
Proof.
  intros Hk Hs. exists (AppendString [] key), (encode_scalar s). split_and!; [done| |].
  - by apply (scalar_encodes (SStr key)).
  - by apply scalar_encodes.
Qed.

Lemma conv_wide T z :
  in_type T z → if is_signed T then conv TInt64 z = z ∧ - 2 ^ 63 ≤ z < 2 ^ 63
                else conv TUint64 z = z ∧ 0 ≤ z < 2 ^ 64.
Proof.
  intros H. destruct T; unfold in_type in H; cbn [is_signed bits_of] in *;
    (split; [apply conv_id; unfold in_type; cbn [is_signed bits_of]; lia|lia]).
Qed.

(** Write a field's key and value after any destination. *)
Ltac write_field :=
  let dst := fresh "dst" in
  intros dst; cbn [appendKeyValue encode_scalar]; 
  by rewrite (appender (AppendString dst _)), (appender dst), <- app_assoc.

Lemma appendKeyValue_field key v o :
  valid_key key → represents v o →
  ∃ bs, field_encodes key o bs ∧ ∀ dst, appendKeyValue dst key v = Ret (dst ++ bs, 1).
Proof.
  intros Hk Hr.
  assert (∀ s, plain_scalar s →
    (∀ dst, appendKeyValue dst key v = Ret (dst ++ AppendString [] key ++ encode_scalar s, 1)) →
    ∃ bs, field_encodes key (OScalar s) bs ∧ ∀ dst, appendKeyValue dst key v = Ret (dst ++ bs, 1)) as Hsc.
  { intros s Hs H. exists (AppendString [] key ++ encode_scalar s). split; [by apply field_scalar|done]. }
  assert (∀ s hd body, encodes (OScalar s) (hd ++ body) →
    (∀ dst, appendKeyValue dst key v = Ret (AppendString dst key ++ hd ++ body, 1)) →
    ∃ bs, field_encodes key (OScalar s) bs ∧ ∀ dst, appendKeyValue dst key v = Ret (dst ++ bs, 1)) as Hun.
  { intros s hd body Hs H. exists (AppendString [] key ++ hd ++ body). split.
    - exists (AppendString [] key), (hd ++ body). split_and!; [done| |done].
      by apply (scalar_encodes (SStr key)).
    - intros dst. by rewrite H, (appender dst key), <- !app_assoc. }
  destruct Hr as [s Hb Hl|b|f Hf|f Hf|T z HT Hz|T z HT Hz|s Hb Hl|id m f s H1 H2 Hf Hb Hl
    |id m s H1 H2 H3 Hb Hl|id m s H1 H2 H3 H4 Hb Hl|id m s H1 H2 H3 H4 Hj Hb Hl|id m H1 H2 H3 H4 Hj];
    try (pose proof (lenZ_nonneg s)).
  - apply (Hsc (SBin s)); [done|]. write_field.
  - apply (Hsc (SBool b)); [done|]. write_field.
  - apply (Hsc (SFloat (float64_of f))); [split; [apply float64_of_range|done]|].
    write_field.
  - apply (Hsc (SFloat f)); [done|]. write_field.
  - pose proof (conv_wide T z Hz) as Hc. rewrite HT in Hc. destruct Hc as [Ec Hr].
    apply (Hsc (SInt z)); [done|]. cbn [appendKeyValue]. rewrite HT, Ec. write_field.
  - pose proof (conv_wide T z Hz) as Hc. rewrite HT in Hc. destruct Hc as [Ec Hr].
    apply (Hsc (SUint z)); [done|]. cbn [appendKeyValue]. rewrite HT, Ec. write_field.
  - apply (Hsc (SStr s)); [done|]. write_field.
  - apply (Hun _ (0xdb :: be_enc 4 (lenZ s)) s); [apply encodes_str, unknown_str_header; lia|].
    intros dst. cbn [appendKeyValue]. rewrite H1, H2. unfold AppendTextAppender.
    by rewrite (AppendStringUnknownLength_eq _ _ s) by done.
  - apply (Hsc (SStr s)); [done|]. cbn [appendKeyValue]. rewrite H1, H2, H3. write_field.
  - apply (Hsc (SStr s)); [done|]. cbn [appendKeyValue]. rewrite H1, H2, H3, H4.
    write_field.
  - apply (Hun _ (0xc6 :: be_enc 4 (lenZ s)) s); [apply encodes_bin, unknown_bin_header; lia|].
    intros dst. cbn [appendKeyValue]. rewrite H1, H2, H3, H4. unfold appendJSON.
    by rewrite (AppendBinaryUnknownLength_eq _ _ s) by (intros d; by rewrite Hj).
  - apply (Hun _ (0xc6 :: be_enc 4 0) []);
      [exact (encodes_bin _ [] (unknown_bin_header 0 ltac:(lia)))|].
    intros dst. cbn [appendKeyValue]. rewrite H1, H2, H3, H4. unfold appendJSON.
    rewrite (AppendBinaryUnknownLength_eq _ _ []); [done|].
    intros d. destruct (Hj d) as (d' & e & ->). by rewrite app_nil_r.
Qed.

(** The values that [AppendAny] writes like [appendKeyValue] does: all but those
    that have neither a text nor a string method. *)
Definition has_text (v : any) : Prop :=
  match v with
  | AOther _ m => AppendTextMethod m ≠ None ∨ StringMethod m ≠ None
  | _ => True
  end.

Lemma AppendAny_encodes v o :
  represents v o → has_text v → ∃ bs, encodes o bs ∧ ∀ dst, AppendAny dst v = Ret (dst ++ bs).
Proof.
  intros Hr Ht.
  assert (∀ s, plain_scalar s → (∀ dst, AppendAny dst v = Ret (dst ++ encode_scalar s)) →
    ∃ bs, encodes (OScalar s) bs ∧ ∀ dst, AppendAny dst v = Ret (dst ++ bs)) as Hsc.
  { intros s Hs H. exists (encode_scalar s). split; [by apply scalar_encodes|done]. }
  destruct Hr as [s Hb Hl|b|f Hf|f Hf|T z HT Hz|T z HT Hz|s Hb Hl|id m f s H1 H2 Hf Hb Hl
    |id m s H1 H2 H3 Hb Hl|id m s H1 H2 H3 H4 Hb Hl|id m s H1 H2 H3 H4 Hj Hb Hl|id m H1 H2 H3 H4 Hj];
    try (by destruct Ht); cbn [AppendAny] in *.
  - apply (Hsc (SBin s)); [done|]. intros dst. by rewrite (appender dst).
  - apply (Hsc (SBool b)); [done|]. intros dst. by rewrite (appender dst).
  - apply (Hsc (SFloat (float64_of f))); [split; [apply float64_of_range|done]|].
    intros dst. by rewrite (appender dst).
  - apply (Hsc (SFloat f)); [done|]. intros dst. by rewrite (appender dst).
  - pose proof (conv_wide T z Hz) as Hc. rewrite HT in Hc. destruct Hc as [Ec Hr].
    apply (Hsc (SInt z)); [done|]. intros dst. by rewrite HT, Ec, (appender dst).
  - pose proof (conv_wide T z Hz) as Hc. rewrite HT in Hc. destruct Hc as [Ec Hr].
    apply (Hsc (SUint z)); [done|]. intros dst. by rewrite HT, Ec, (appender dst).
  - apply (Hsc (SStr s)); [done|]. intros dst. by rewrite (appender dst).
  - exists ((0xdb :: be_enc 4 (lenZ s)) ++ s). pose proof (lenZ_nonneg s).
    split; [apply encodes_str, unknown_str_header; lia|]. intros dst. rewrite H2.
    unfold AppendTextAppender. by rewrite (AppendStringUnknownLength_eq _ _ s) by done.
  - apply (Hsc (SStr s)); [done|]. intros dst. rewrite H2, H3. by rewrite (appender dst).
Qed.

(** ** Arguments *)

(** How [appendArgs] groups arguments: a string in key position is the key of the
    next argument; any other value in key position gets the empty key; the empty
    string is no key, and a key at the end is dropped. *)
Fixpoint pair_args (key : list Z) (args : list any) : list (list Z * any) :=
  match args with
  | [] => []
  | arg :: args =>
    match bool_decide (key = []), arg with
    | true, AString k => pair_args k args
    | _, _ => (key, arg) :: pair_args [] args
    end
  end.

(** The fields [fs] as an encoding. *)
Definition fields_encode (fs : list (list Z * obj)) (bs : list Z) : Prop :=
  ∃ bss, bs = concat bss ∧ Forall2 (λ f b, field_encodes f.1 f.2 b) fs bss.

Definition represents_field (kv : list Z * any) (f : list Z * obj) : Prop :=
  f.1 = kv.1 ∧ valid_key kv.1 ∧ represents kv.2 f.2.

Lemma appendArgs_loop_fields args : ∀ key fs n,
  Forall2 represents_field (pair_args key args) fs →
  ∃ bs, fields_encode fs bs ∧
    ∀ b, appendArgs_loop args key (u8 n) b = Ret (b ++ bs, u8 (n + lenZ fs)).
Proof.
  assert (∀ key arg args fs n, (∀ fs n, Forall2 represents_field (pair_args [] args) fs →
      ∃ bs, fields_encode fs bs ∧
        ∀ b, appendArgs_loop args [] (u8 n) b = Ret (b ++ bs, u8 (n + lenZ fs))) →
    Forall2 represents_field ((key, arg) :: pair_args [] args) fs →
    ∃ bs, fields_encode fs bs ∧
      ∀ b, ('(b, nn) ← appendKeyValue b key arg; appendArgs_loop args [] (u8 (u8 n + nn)) b) =
        Ret (b ++ bs, u8 (n + lenZ fs))) as Hstep.
  { intros key arg args' fs n IH H. inversion H as [|? [k o] ? fs' [Ek [Hk Hr]] Hfs]; subst.
    cbn [fst snd] in *. subst k.
    destruct (appendKeyValue_field key arg o Hk Hr) as (bs1 & He1 & E1).
    destruct (IH fs' (n + 1) Hfs) as (bs2 & (bss & -> & He2) & E2).
    exists (bs1 ++ concat bss). split.
    - exists (bs1 :: bss). split; [done|]. by constructor.
    - intros b. rewrite E1. go_simpl.
      replace (u8 (u8 n + 1)) with (u8 (n + 1)) by (unfold uwrap; by rewrite Zplus_mod_idemp_l).
      rewrite E2, <- app_assoc. do 2 f_equal. unfold lenZ. cbn [length]. f_equal. lia. }
  induction args as [|arg args IH]; intros key fs n H; cbn [pair_args appendArgs_loop] in *.
  - inversion H; subst. exists []. split; [by exists []|]. intros b.
    rewrite app_nil_r. do 2 f_equal. change (lenZ (@nil (list Z * obj))) with 0. f_equal. lia.
  - destruct (bool_decide (key = [])).
    + destruct arg; try (apply (Hstep key _ args fs n); [intros; by apply IH|done]). by apply IH.
    + apply (Hstep key _ args fs n); [intros; by apply IH|done].
Qed.

Lemma appendArgs_fields_eq args fs :
  Forall2 represents_field (pair_args [] args) fs →
  ∃ bs, fields_encode fs bs ∧ ∀ b, appendArgs b args = Ret (b ++ bs, u8 (lenZ fs)).
Proof. intros H. apply (appendArgs_loop_fields args [] fs 0 H). Qed.

(** ** Properties *)

(** Arguments given as keys and values are written as fields: the arguments
    are grouped by [pair_args], each value is written as the object it
    represents after its key, whatever the buffer holds, and the count is the
    number of fields modulo 256. *)
Theorem appendArgs_fields args fs b :
  Forall2 represents_field (pair_args [] args) fs →
  ∃ bs, appendArgs b args = Ret (b ++ bs, lenZ fs mod 256) ∧ fields_encode fs bs.
Proof.
  intros H. destruct (appendArgs_fields_eq args fs H) as (bs & He & E). exists bs. by rewrite E.
Qed.

End Fields.

Lemma appendArgs_fields_witness :
  ∃ bs, appendArgs (λ d _, (d, None)) [1] [AString (str "k"); ANum TInt8 (-3); ABool true] =
      Ret ([1] ++ bs, 2) ∧
    fields_encode [(str "k", OScalar (SInt (-3))); ([], OScalar (SBool true))] bs.
Proof.
  apply (appendArgs_fields (λ d _, (d, None)) [AString (str "k"); ANum TInt8 (-3); ABool true]
    [(str "k", OScalar (SInt (-3))); ([], OScalar (SBool true))] [1]).
  repeat constructor; cbn; try lia; unfold is_byte; lia.
Defined.
