(* ===== verification/Log.v ===== *)
(** * Log: building log entries (severity.go, write_behavior.go, printf.go,
    append_stack_trace.go, logger.go, slog.go, and log and metrics of
    instance.go)

    An entry is the array [tag, time, record].  Its record has a map16 header
    that is written before the fields are known; the low byte of the count is
    incremented as fields are added, so the count is the number of fields modulo
    256.  [log_entry_bytes] gives the bytes of every entry, [log_entry_encodes]
    shows that an entry of at most 255 fields is an encoding of the message.

    Identifiers (github.com/webmafia/hexid), JSON, the formatting of fmt.Appendf
    and the frames of the call stack are parameters.  A pooled buffer is empty
    when it is handed out; the arguments of a call have no spare capacity, as
    those listed in a call have none.  In [b.B[x] += f(b)] the call is made first, as the Go
    compiler orders it. *)

From S2P Require Import Prelude Types Errors Integer Headers Str Float Timestamp Object Strconv RingBuf.
From S2P Require Iter.
From S2P Require Import Dynamic.

(** ** severity.go, write_behavior.go *)

Definition EMERG := 0.
Definition ALERT := 1.
Definition CRIT := 2.
Definition ERR := 3.
Definition WARN := 4.
Definition NOTICE := 5.
Definition INFO := 6.
Definition DEBUG := 7.

Inductive WriteBehavior := Block | Loose | Fallback.

#[export] Instance WriteBehavior_eq_dec : EqDecision WriteBehavior.
Proof. solve_decision. Defined.

(** ** printf.go *)

(** The loop over the digits of an explicit index: the number and what follows. *)
Fixpoint explicit_index (b : list Z) (val : Z) : Z * list Z :=
  match b with
  | [] => (val, [])
  | c :: b' =>
    if (48 <=? c) && (c <=? 57) then explicit_index b' (conv TInt (val * 10 + (c - 48)))
    else if c =? 93 then (val, b')
    else (val, b)
  end.

(** The outer loop; [n] is the highest argument index, [cur] the current one. *)
Fixpoint countFmtArgs_loop (fuel : nat) (b : list Z) (n cur : Z) : go Z :=
  match b with
  | [] => Ret n
  | c :: b =>
    match fuel with
    | O => Panic OutOfFuel
    | S fuel =>
      if negb (c =? 37) then countFmtArgs_loop fuel b n cur else
      match b with
      | [] => Ret n
      | c :: b =>
        if c =? 37 then countFmtArgs_loop fuel b n cur
        else if c =? 91 then
          let '(val, b) := explicit_index b 0 in
          if 0 <? val then countFmtArgs_loop fuel b (Z.max n val) val
          else countFmtArgs_loop fuel b n cur
        else countFmtArgs_loop fuel b (Z.max n (cur + 1)) (cur + 1)
      end
    end
  end.

Definition countFmtArgs (format : list Z) : go Z :=
  countFmtArgs_loop (length format) format 0 0.

(** ** append_stack_trace.go *)

(** [for more { frame, more = frames.Next(); ... }]: the body runs once even for
    an empty stack, on the zero frame. *)
Fixpoint stack_loop (frames : list (list Z * Z)) (dst : list Z) (i : Z) : go (list Z * Z) :=
  match frames with
  | [] => Ret (dst, i)
  | (file, line) :: frames =>
    dst ← AppendStringMax255 dst (λ dst, ((dst ++ file) ++ [58]) ++ FormatInt line);
    stack_loop frames dst (u8 (i + 1))
  end.

Definition appendStackTrace (dst : list Z) (frames : list (list Z * Z)) : go (list Z) :=
  let frames := match frames with [] => [([], 0)] | _ => frames end in
  let dst := AppendString dst (str "stackTrace") in
  let dst := AppendArrayHeader dst 0 in
  let x := lenZ dst - 1 in
  '(dst, i) ← stack_loop frames dst 0;
  set_index dst x (Z.lor 0x90 i).

(** ** instance.go *)

Record ID := mkID { id_time : Time; id_uint64 : Z }.

Record Options := mkOptions {
  Tag : list Z;
  BufferSize : Z;
  Behavior : WriteBehavior;
  has_fallback : bool;
  StackTraceThreshold : Z
}.

Definition setDefaults (opt : Options) : Options :=
  mkOptions (if bool_decide (Tag opt = []) then str "fluentlog" else Tag opt)
            (if BufferSize opt <=? 0 then 16 else BufferSize opt)
            (Behavior opt) (has_fallback opt) (StackTraceThreshold opt).

(** [b.B[x] += k] *)
Definition incr (b : list Z) (x k : Z) : go (list Z) :=
  c ← index (sl b) x; set_index b x (u8 (c + k)).

Section Entries.
  Variable json_Append : list Z → any → list Z * option error.
  (** what [fmt.Appendf] appends *)
  Variable Sprintf : list Z → list any → list Z.

(** The head of an entry: [tag, time] and the header of the record. *)
Definition entry_head (opt : Options) (t : Time) : list Z :=
  let b := AppendArrayHeader [] 3 in
  let b := AppendString b (Tag opt) in
  let b := AppendTimestamp b t [TsFluentd] in
  b ++ [0xde; 0; 0].

(** The entry that [Instance.log] puts in the queue. *)
Definition log_entry (opt : Options) (id : ID) (sev : Z) (msg : list Z) (args : list any)
    (sprintf : bool) (frames : list (list Z * Z)) (extraData : list Z) (extraCount : Z) : go (list Z) :=
  fmtArgs ← (if sprintf then countFmtArgs msg else Ret 0);
  let b := entry_head opt (id_time id) in
  let x := lenZ b - 1 in
  b ← incr b x 1;
  let b := AppendString b (str "@id") in
  let b := AppendUint b (id_uint64 id) in
  b ← incr b x 1;
  let b := AppendString b (str "pri") in
  let b := AppendUint b sev in
  b ← incr b x 1;
  let b := AppendString b (str "message") in
  b ← (if 0 <? fmtArgs then
         if fmtArgs <=? lenZ args then
           AppendStringDynamic b (λ dst, dst ++ Sprintf msg (take (Z.to_nat fmtArgs) args))
         else Panic SliceOutOfRange
       else Ret (AppendString b msg));
  b ← (if 0 <? extraCount then incr (b ++ extraData) x extraCount else Ret b);
  b ← (if fmtArgs <? lenZ args then
         '(b, n) ← appendArgs json_Append b (drop (Z.to_nat fmtArgs) args);
         incr b x n
       else Ret b);
  (if sev <=? StackTraceThreshold opt then
     b ← appendStackTrace b frames; incr b x 1
   else Ret b).

(** The entry that [Instance.metrics] puts in the queue. *)
Definition metrics_entry (opt : Options) (now : Time) (args : list any) : go (list Z) :=
  let b := entry_head opt now in
  let x := lenZ b - 1 in
  '(b, n) ← appendArgs json_Append b args;
  incr b x n.

(** ** logger.go *)

Record Logger := mkLogger { fieldData : option (list Z); fieldCount : Z }.

Definition newLogger : Logger := mkLogger None 0.

(** [l.fieldData.B]; a logger without data has count 0 and is not asked for it. *)
Definition data (l : Logger) : list Z := default [] (fieldData l).

Definition With (l : Logger) (args : list any) : go Logger :=
  if bool_decide (args = []) then Ret newLogger else
  let '(b, count) :=
    match fieldData l with
    | Some d => (d, fieldCount l)
    | None => ([], 0)
    end in
  '(b, n) ← appendArgs json_Append b args;
  Ret (mkLogger (Some b) (u8 (count + n))).

(** [Release] returns the data to the pool and empties the logger. *)
Definition Release (l : Logger) : Logger := newLogger.

(** A log call of a logger. *)
Definition Logger_log (opt : Options) (l : Logger) (id : ID) (sev : Z) (msg : list Z)
    (args : list any) (sprintf : bool) (frames : list (list Z * Z)) : go (list Z) :=
  log_entry opt id sev msg args sprintf frames (data l) (fieldCount l).

(** [Recover]: the recovered value, nil included, is logged. *)
Definition Recover (opt : Options) (l : Logger) (id : ID) (err : any) (frames : list (list Z * Z)) :
    go (list Z) :=
  log_entry opt id CRIT (str "panic: %v") [err] true frames (data l) (fieldCount l).

(** ** slog.go *)

Inductive slogValue :=
  | KindInt64 (z : Z)
  | KindUint64 (z : Z)
  | KindFloat64 (f : Z)
  | KindBool (b : bool)
  | KindTime (t : Time)
  | KindString (s : list Z)
  (** every other kind, by the value that [Any] returns *)
  | KindAny (v : any).

Record Attr := mkAttr { attr_key : list Z; attr_value : slogValue }.

Definition appendSlogAttr (b : list Z) (a : Attr) : go (list Z) :=
  let b := AppendString b (attr_key a) in
  match attr_value a with
  | KindInt64 z => Ret (AppendInt b z)
  | KindUint64 z => Ret (AppendUint b z)
  | KindFloat64 f => Ret (AppendFloat b f)
  | KindBool x => Ret (AppendBool b x)
  | KindTime t => Ret (AppendTimestamp b t [])
  | KindString s => Ret (AppendString b s)
  | KindAny v => AppendAny b v
  end.

Fixpoint appendSlogAttr_each (b : list Z) (attrs : list Attr) : go (list Z) :=
  match attrs with
  | [] => Ret b
  | a :: attrs => b ← appendSlogAttr b a; appendSlogAttr_each b attrs
  end.

Definition appendSlogAttrs (b : list Z) (attrs : list Attr) : go (list Z * Z) :=
  b ← appendSlogAttr_each b attrs; Ret (b, u8 (lenZ attrs)).

Record SlogRecord := mkSlogRecord {
  rec_time : Time;
  rec_level : Z;
  rec_message : list Z;
  rec_attrs : list Attr
}.

(** [slog.LevelDebug], [LevelInfo], [LevelWarn] and [LevelError] are -4, 0, 4, 8. *)
Definition slog_severity (level : Z) : Z :=
  if level =? -4 then DEBUG
  else if level =? 0 then INFO
  else if level =? 4 then WARN
  else if level =? 8 then ERR
  else INFO.

(** The time of a record, [now] if it has none. *)
Definition slog_time (now : Time) (rec : SlogRecord) : Time :=
  if (unix (rec_time rec) =? unix zeroTime) && (nanosecond (rec_time rec) =? 0) then now
  else rec_time rec.

(** The entry that a slog record becomes; [id] is [hexid.IDFromTime] of the time. *)
Definition slog_entry (opt : Options) (IDFromTime : Time → ID) (now : Time) (rec : SlogRecord)
    (frames : list (list Z * Z)) (l : Logger) : go (list Z) :=
  let sev := slog_severity (rec_level rec) in
  let ts := slog_time now rec in
  let id := IDFromTime ts in
  let b := entry_head opt ts in
  let x := lenZ b - 1 in
  b ← incr b x 1;
  let b := AppendString b (str "@id") in
  let b := AppendUint b (id_uint64 id) in
  b ← incr b x 1;
  let b := AppendString b (str "pri") in
  let b := AppendUint b sev in
  b ← incr b x 1;
  let b := AppendString b (str "message") in
  let b := AppendString b (rec_message rec) in
  b ← (if 0 <? fieldCount l then incr (b ++ data l) x (fieldCount l) else Ret b);
  '(b, n) ← appendSlogAttrs b (rec_attrs rec);
  b ← incr b x n;
  (if sev <=? StackTraceThreshold opt then
     b ← appendStackTrace b frames; incr b x 1
   else Ret b).

Definition WithAttrs (l : Logger) (attrs : list Attr) : go Logger :=
  let '(b, count) :=
    match fieldData l with
    | Some d => (d, fieldCount l)
    | None => ([], 0)
    end in
  b ← appendSlogAttr_each b attrs;
  Ret (mkLogger (Some b) (u8 (count + u8 (lenZ attrs)))).

(** The group name and the attributes of the logger are dropped. *)
Definition WithGroup (l : Logger) (name : list Z) : Logger := newLogger.

End Entries.

(** The methods of a logger by severity, without and with a format. *)
Module Levels.

Section Methods.
  Variable json_Append : list Z → any → list Z * option error.
  Variable Sprintf : list Z → list any → list Z.
  Context (opt : Options) (l : Logger) (id : ID) (msg : list Z) (args : list any)
    (frames : list (list Z * Z)).

Definition Debug : go (list Z) := Logger_log json_Append Sprintf opt l id DEBUG msg args false frames.
Definition Info : go (list Z) := Logger_log json_Append Sprintf opt l id INFO msg args false frames.
Definition Notice : go (list Z) := Logger_log json_Append Sprintf opt l id NOTICE msg args false frames.
Definition Warn : go (list Z) := Logger_log json_Append Sprintf opt l id WARN msg args false frames.
Definition Error : go (list Z) := Logger_log json_Append Sprintf opt l id ERR msg args false frames.
Definition Crit : go (list Z) := Logger_log json_Append Sprintf opt l id CRIT msg args false frames.
Definition Alert : go (list Z) := Logger_log json_Append Sprintf opt l id ALERT msg args false frames.
Definition Emerg : go (list Z) := Logger_log json_Append Sprintf opt l id EMERG msg args false frames.
Definition Debugf : go (list Z) := Logger_log json_Append Sprintf opt l id DEBUG msg args true frames.
Definition Infof : go (list Z) := Logger_log json_Append Sprintf opt l id INFO msg args true frames.
Definition Noticef : go (list Z) := Logger_log json_Append Sprintf opt l id NOTICE msg args true frames.
Definition Warnf : go (list Z) := Logger_log json_Append Sprintf opt l id WARN msg args true frames.
Definition Errorf : go (list Z) := Logger_log json_Append Sprintf opt l id ERR msg args true frames.
Definition Critf : go (list Z) := Logger_log json_Append Sprintf opt l id CRIT msg args true frames.
Definition Alertf : go (list Z) := Logger_log json_Append Sprintf opt l id ALERT msg args true frames.
Definition Emergf : go (list Z) := Logger_log json_Append Sprintf opt l id EMERG msg args true frames.

(** [Metrics] *)
Definition Metrics (now : Time) : go (list Z) := metrics_entry json_Append opt now args.

End Methods.

End Levels.

(** ** The count byte *)

(** An entry under construction: the head up to the low byte of the count, the
    count, the fields. *)
Definition count_at (opt : Options) (t : Time) (n : Z) (F : list Z) : list Z :=
  (AppendArrayHeader [] 3 ++ AppendString [] (Tag opt) ++ AppendTimestamp [] t [TsFluentd] ++ [0xde; 0])
  ++ u8 n :: F.

Lemma entry_head_count opt t : entry_head opt t = count_at opt t 0 [].
Proof.
  unfold entry_head, count_at.
  rewrite (appender (f := λ dst t, AppendTimestamp dst t [TsFluentd]) (AppendString _ _) t).
  rewrite (appender (f := AppendString) (AppendArrayHeader [] 3) (Tag opt)).
  by rewrite <- !app_assoc.
Qed.

Lemma incr_count opt t n F k :
  incr (count_at opt t n F) (lenZ (entry_head opt t) - 1) k = Ret (count_at opt t (n + k) F).
Proof.
  rewrite entry_head_count. unfold count_at. set (P := _ ++ _ ++ _ ++ [0xde; 0]).
  replace (lenZ (P ++ [u8 0]) - 1) with (lenZ P) by len_lia.
  unfold incr. rewrite (index_at _ _ (u8 n) F) by (exists P, []; by rewrite app_nil_r).
  go_simpl. rewrite set_index_at. unfold uwrap. by rewrite Zplus_mod_idemp_l.
Qed.

Lemma count_app opt t n F G : count_at opt t n F ++ G = count_at opt t n (F ++ G).
Proof. unfold count_at. by rewrite <- app_assoc. Qed.

(** An append function on an entry under construction adds to the fields. *)
Lemma count_append {A} (f : list Z → A → list Z) `{!Appender f} opt t n F a :
  f (count_at opt t n F) a = count_at opt t n (F ++ f [] a).
Proof. by rewrite (appender (count_at opt t n F)), count_app. Qed.

(** ** Fields *)

Lemma fields_encode_app fs gs F G :
  fields_encode fs F → fields_encode gs G → fields_encode (fs ++ gs) (F ++ G).
Proof.
  intros (bss & -> & H1) (css & -> & H2). exists (bss ++ css).
  split; [by rewrite concat_app|by apply Forall2_app].
Qed.

Lemma fields_encode_nil : fields_encode [] [].
Proof. by exists []. Qed.

Lemma fields_encode_one key o bs : field_encodes key o bs → fields_encode [(key, o)] bs.
Proof. intros H. exists [bs]. split; [symmetry; apply app_nil_r|by repeat constructor]. Qed.

Lemma record_encodes fs F :
  fields_encode fs F → lenZ fs < 2 ^ 16 →
  encodes (record_obj fs) ((0xde :: be_enc 2 (lenZ fs)) ++ F).
Proof.
  intros (bss & -> & H) Hl.
  assert (∃ css, concat css = concat bss ∧
    Forall2 encodes (flatten (map (λ f, (OScalar (SStr f.1), f.2)) fs)) css) as (css & <- & Hc).
  { induction H as [|f bs fs bss (kb & vb & -> & Hk & Hv) _ IH]; [by exists []|].
    destruct IH as (css & E & Hc); [len_lia|]. exists (kb :: vb :: css).
    split; [cbn [concat]; by rewrite E, <- app_assoc|].
    unfold flatten in *. cbn [map flat_map app fst snd]. by repeat constructor. }
  apply encodes_map; [|done].
  replace (lenZ (map _ fs)) with (lenZ fs) by (unfold lenZ; by rewrite length_map).
  right. exists 0xde, 2%nat. pose proof (lenZ_nonneg fs).
  split_and!; [done|unfold is_byte; lia|done|lia|lia|lia].
Qed.

(** A field whose value is written by the append function of a scalar. *)
Lemma field_scalar_str key s :
  lenZ key < 2 ^ 32 → is_bytes key → plain_scalar s →
  fields_encode [(key, OScalar s)] (AppendString [] key ++ encode_scalar s).
Proof. intros Hl Hb Hs. by apply fields_encode_one, field_scalar. Qed.

Lemma is_bytes_str s : is_bytes (str s).
Proof.
  unfold str. apply Forall_fmap, Forall_true. intros a. unfold is_byte.
  pose proof (Ascii.N_ascii_bounded a). cbn. lia.
Qed.

(** A string constant is a valid string. *)
Lemma const_str_plain s : lenZ (str s) < 2 ^ 32 → plain_scalar (SStr (str s)).
Proof. intros Hl. repeat split; [apply is_bytes_str|done]. Qed.

(** ** The stack trace *)

(** The text of a frame, cut at 255 bytes. *)
Definition frame_obj (f : list Z * Z) : obj :=
  OScalar (SStr (take 255 ((f.1 ++ [58]) ++ FormatInt f.2))).

Definition stack_frames (frames : list (list Z * Z)) : list (list Z * Z) :=
  match frames with [] => [([], 0)] | _ => frames end.

Lemma stack_loop_frames frames :
  ∃ bss, Forall2 encodes (map frame_obj frames) bss ∧
    ∀ dst i, 0 ≤ i → i + lenZ frames < 256 →
    stack_loop frames dst i = Ret (dst ++ concat bss, i + lenZ frames).
Proof.
  induction frames as [|[file line] frames (bss & He & E)].
  - exists []. split; [constructor|]. intros dst i Hi Hl. cbn [stack_loop concat].
    by rewrite app_nil_r, lenZ_nil, Z.add_0_r.
  - set (s := (file ++ [58]) ++ FormatInt line). pose proof (lenZ_nonneg s).
    exists (([0xd9; Z.min 255 (lenZ s)] ++ take 255 s) :: bss). split.
    + constructor; [|done]. apply encodes_str.
      replace (lenZ (take 255 s)) with (Z.min 255 (lenZ s)) by (unfold lenZ; rewrite length_take; lia).
      by apply max255_header.
    + intros dst i Hi Hl. cbn [stack_loop]. rewrite (AppendStringMax255_eq dst _ s).
      * go_simpl. rewrite uwrap_small by len_lia. rewrite E by len_lia.
        cbn [concat]. rewrite <- !app_assoc. do 2 f_equal. len_lia.
      * intros d. unfold s. by rewrite <- !app_assoc.
Qed.

Lemma appendStackTrace_field frames :
  lenZ frames ≤ 15 →
  ∃ bs, field_encodes (str "stackTrace") (OArray (map frame_obj (stack_frames frames))) bs ∧
    ∀ dst, appendStackTrace dst frames = Ret (dst ++ bs).
Proof.
  intros Hl. set (fr := stack_frames frames).
  assert (1 ≤ lenZ fr ≤ 15) as Hfr by (unfold fr; destruct frames; cbn; len_lia).
  destruct (stack_loop_frames fr) as (bss & He & E).
  exists (AppendString [] (str "stackTrace") ++ [Z.lor 0x90 (lenZ fr)] ++ concat bss). split.
  - eexists _, _. split_and!; [reflexivity| |].
    + by apply (scalar_encodes (SStr (str "stackTrace"))), const_str_plain.
    + apply encodes_array; [|done]. rewrite (lor_add_disjoint _ _ 4) by (reflexivity || lia).
      replace (lenZ (map frame_obj fr)) with (lenZ fr) by (unfold lenZ; by rewrite length_map).
      apply single_header; [unfold is_byte; lia|]. rewrite Get_fixarray by lia. do 2 f_equal. lia.
  - intros dst. unfold appendStackTrace. fold (stack_frames frames). fold fr.
    rewrite (appender (f := AppendString) dst), (appender (f := AppendArrayHeader)).
    change (AppendArrayHeader [] 0) with [0x90].
    set (P := dst ++ _). rewrite E by lia. go_simpl.
    replace (lenZ (P ++ [0x90]) - 1) with (lenZ P) by len_lia.
    rewrite <- app_assoc. cbn [app]. rewrite set_index_at. unfold P. by rewrite <- !app_assoc.
Qed.

(** ** Formats *)

(** The pieces of a format as [countFmtArgs] sees them.  A verb is its first byte
    after the percent sign; flags, widths and the verb proper follow as literals. *)
Inductive piece :=
  | Literal (c : Z)
  | Percent
  | Verb (c : Z)
  | Indexed (digits : list Z).

Definition render_piece (p : piece) : list Z :=
  match p with
  | Literal c => [c]
  | Percent => [37; 37]
  | Verb c => [37; c]
  | Indexed digits => [37; 91] ++ digits ++ [93]
  end.

Definition is_digit (c : Z) : Prop := 48 ≤ c ≤ 57.

Definition number (digits : list Z) : Z := fold_left (λ v c, conv TInt (v * 10 + (c - 48))) digits 0.

Definition valid_piece (p : piece) : Prop :=
  match p with
  | Literal c => c ≠ 37
  | Percent => True
  | Verb c => c ≠ 37 ∧ c ≠ 91
  | Indexed digits => Forall is_digit digits
  end.

(** The highest argument index of the pieces: an index of its own sets the
    counter, any other verb moves it on. *)
Fixpoint highest (ps : list piece) (n cur : Z) : Z :=
  match ps with
  | [] => n
  | (Literal _ | Percent) :: ps => highest ps n cur
  | Verb _ :: ps => highest ps (Z.max n (cur + 1)) (cur + 1)
  | Indexed digits :: ps =>
      if 0 <? number digits then highest ps (Z.max n (number digits)) (number digits)
      else highest ps n cur
  end.

Lemma explicit_index_digits digits rest : ∀ v,
  Forall is_digit digits →
  explicit_index (digits ++ 93 :: rest) v =
    (fold_left (λ v c, conv TInt (v * 10 + (c - 48))) digits v, rest).
Proof.
  induction digits as [|c ds IH]; intros v H; cbn [app explicit_index fold_left]; [done|].
  apply Forall_cons in H as [Hc H]. unfold is_digit in Hc.
  destruct (_ && _) eqn:E; [by apply IH|lia].
Qed.

Lemma explicit_index_shorter b : ∀ v, (length (explicit_index b v).2 ≤ length b)%nat.
Proof.
  induction b as [|c b IH]; intros v; cbn [explicit_index length]; [done|].
  destruct (_ && _); [specialize (IH (conv TInt (v * 10 + (c - 48)))); lia|].
  destruct (c =? 93); cbn [snd length]; lia.
Qed.

Lemma countFmtArgs_total fuel : ∀ b n cur,
  (length b ≤ fuel)%nat → 0 ≤ n → ∃ m, countFmtArgs_loop fuel b n cur = Ret m ∧ n ≤ m.
Proof.
  induction fuel as [|fuel IH]; intros b n cur Hf Hn.
  { destruct b; [|cbn in Hf; lia]. by exists n. }
  destruct b as [|c b]; [by exists n|]. cbn [countFmtArgs_loop]. cbn in Hf.
  destruct (negb _); [apply IH; lia|]. destruct b as [|d b]; [by exists n|]. cbn in Hf.
  destruct (d =? 37); [apply IH; lia|]. destruct (d =? 91).
  - pose proof (explicit_index_shorter b 0). destruct (explicit_index b 0) as [val b']. cbn in *.
    destruct (0 <? val); [|apply IH; lia].
    destruct (IH b' (Z.max n val) val) as (m & -> & ?); [lia..|]. exists m. split; [done|lia].
  - destruct (IH b (Z.max n (cur + 1)) (cur + 1)) as (m & -> & ?); [lia..|].
    exists m. split; [done|lia].
Qed.

Lemma countFmtArgs_pieces_loop ps : ∀ fuel n cur,
  Forall valid_piece ps → (length (concat (map render_piece ps)) ≤ fuel)%nat →
  countFmtArgs_loop fuel (concat (map render_piece ps)) n cur = Ret (highest ps n cur).
Proof.
  induction ps as [|p ps IH]; intros fuel n cur Hv Hf; [by destruct fuel|].
  apply Forall_cons in Hv as [Hp Hv]. cbn [map concat highest] in *.
  set (rest := concat (map render_piece ps)) in *. rewrite length_app in Hf.
  destruct p as [c| |c|ds]; cbn [render_piece valid_piece app length] in *;
    (destruct fuel as [|fuel]; [lia|]); cbn [countFmtArgs_loop].
  - destruct (negb (c =? 37)) eqn:E; [apply IH; [done|lia]|lia].
  - apply IH; [done|lia].
  - change (negb (37 =? 37)) with false. cbv iota.
    destruct (c =? 37) eqn:E1; [lia|]. destruct (c =? 91) eqn:E2; [lia|]. apply IH; [done|lia].
  - change (negb (37 =? 37)) with false. change (91 =? 37) with false. change (91 =? 91) with true.
    cbv iota. rewrite <- app_assoc. cbn [app]. rewrite explicit_index_digits by done.
    fold (number ds). rewrite length_app in Hf. cbn [length] in Hf.
    destruct (0 <? number ds); apply IH; (done || lia).
Qed.

(** ** Entries *)

Section Entry.
  Context (json_Append : list Z → any → list Z * option error).
  Context (Sprintf : list Z → list any → list Z).

(** The fields that every entry starts with. *)
Definition base_fields (id : ID) (sev : Z) (message : list Z) : list (list Z * obj) :=
  [(str "@id", OScalar (SUint (id_uint64 id))); (str "pri", OScalar (SUint sev));
   (str "message", OScalar (SStr message))].

Definition stack_fields (opt : Options) (sev : Z) (frames : list (list Z * Z)) : list (list Z * obj) :=
  if sev <=? StackTraceThreshold opt
  then [(str "stackTrace", OArray (map frame_obj (stack_frames frames)))] else [].

(** The logger's inherited fields, and the count it keeps of them. *)
Definition logger_has (l : Logger) (fs : list (list Z * obj)) : Prop :=
  fields_encode fs (data l) ∧ fieldCount l = u8 (lenZ fs) ∧ (fieldData l = None → fs = []).

(** The object of an entry. *)
Definition entry_obj (opt : Options) (t : Time) (fs : list (list Z * obj)) : obj :=
  OArray [OScalar (SStr (Tag opt)); OScalar (STime t TsFluentd); record_obj fs].

Lemma count_at_encodes opt t fs F :
  valid_key (Tag opt) → valid_time t → fields_encode fs F → lenZ fs < 256 →
  encodes (entry_obj opt t fs) (count_at opt t (lenZ fs) F).
Proof.
  intros Ht Htime HF Hl. pose proof (lenZ_nonneg fs).
  set (c := (0xde :: be_enc 2 (lenZ fs)) ++ F).
  assert (count_at opt t (lenZ fs) F = AppendArrayHeader [] 3 ++
    concat [AppendString [] (Tag opt); AppendTimestamp [] t [TsFluentd]; c]) as ->.
  { unfold count_at, c. rewrite be_enc_2_byte by lia. cbn [concat]. by rewrite app_nil_r, <- !app_assoc. }
  apply encodes_array; [by apply AppendArrayHeader_header|].
  constructor; [|constructor; [|constructor; [|constructor]]].
  - by apply (scalar_encodes (SStr (Tag opt))).
  - by apply (scalar_encodes (STime t TsFluentd)).
  - apply record_encodes; [done|lia].
Qed.

(** Add a field whose value is written by a scalar's append function. *)
Lemma count_scalar opt t n F key s :
  AppendString (count_at opt t n F) key ++ encode_scalar s =
    count_at opt t n (F ++ AppendString [] key ++ encode_scalar s).
Proof. by rewrite (count_append AppendString), count_app, <- !app_assoc. Qed.

(** What [log] writes for the message: the text itself, or the formatted one. *)
Definition message_of (msg : list Z) (args : list any) (n : Z) : list Z :=
  if 0 <? n then Sprintf msg (take (Z.to_nat n) args) else msg.

Lemma log_message b msg args n :
  n ≤ lenZ args →
  (if 0 <? n then
     if n <=? lenZ args then
       AppendStringDynamic b (λ dst, dst ++ Sprintf msg (take (Z.to_nat n) args))
     else Panic SliceOutOfRange
   else Ret (AppendString b msg)) = Ret (AppendString b (message_of msg args n)).
Proof.
  intros Hn. unfold message_of. destruct (0 <? n); [|done]. decide_guard.
  by apply AppendStringDynamic_eq.
Qed.

(** Inherited fields of at most 255 are added with their count. *)
Lemma add_inherited opt t n F fs l :
  logger_has l fs → lenZ fs < 256 →
  (if 0 <? fieldCount l then
     incr (count_at opt t n F ++ data l) (lenZ (entry_head opt t) - 1) (fieldCount l)
   else Ret (count_at opt t n F)) =
  Ret (count_at opt t (n + lenZ fs) (F ++ data l)).
Proof.
  intros (HF & Hc & _) Hl. pose proof (lenZ_nonneg fs). rewrite uwrap_small in Hc by lia.
  rewrite Hc, count_app, incr_count. destruct (0 <? lenZ fs) eqn:E; [done|].
  destruct fs; [|len_lia]. destruct HF as (bss & Ed & HF). inversion HF; subst.
  rewrite Ed. cbn [concat]. by rewrite app_nil_r, lenZ_nil, Z.add_0_r.
Qed.

Lemma add_stack opt t n F sev frames :
  (sev ≤ StackTraceThreshold opt → lenZ frames ≤ 15) →
  ∃ G, fields_encode (stack_fields opt sev frames) G ∧
    (if sev <=? StackTraceThreshold opt then
       b ← appendStackTrace (count_at opt t n F) frames; incr b (lenZ (entry_head opt t) - 1) 1
     else Ret (count_at opt t n F)) =
    Ret (count_at opt t (n + lenZ (stack_fields opt sev frames)) (F ++ G)).
Proof.
  intros Hf. unfold stack_fields. destruct (sev <=? _) eqn:E.
  - destruct (appendStackTrace_field frames ltac:(apply Hf; lia)) as (bs & Hb & Ea).
    exists bs. split; [by apply fields_encode_one|]. rewrite Ea. go_simpl.
    by rewrite count_app, incr_count.
  - exists []. split; [apply fields_encode_nil|]. by rewrite app_nil_r, lenZ_nil, Z.add_0_r.
Qed.

(** The remaining arguments are added with their count. *)
Lemma add_args opt t k F args n afs :
  0 ≤ n ≤ lenZ args →
  Forall2 (represents_field json_Append) (pair_args [] (drop (Z.to_nat n) args)) afs →
  ∃ G, fields_encode afs G ∧
    (if n <? lenZ args then
       bc ← appendArgs json_Append (count_at opt t k F) (drop (Z.to_nat n) args);
       (let '(b, c) := bc in incr b (lenZ (entry_head opt t) - 1) c)
     else Ret (count_at opt t k F)) = Ret (count_at opt t (k + lenZ afs) (F ++ G)).
Proof.
  intros Hn Hafs. destruct (n <? lenZ args) eqn:E.
  - destruct (appendArgs_fields_eq json_Append _ _ Hafs) as (G & HG & Ea). exists G. split; [done|].
    rewrite Ea. go_simpl. rewrite count_app, incr_count. f_equal. unfold count_at. do 2 f_equal.
    unfold uwrap. by rewrite Zplus_mod_idemp_r.
  - rewrite drop_ge in Hafs by (unfold lenZ in *; lia). inversion Hafs; subst.
    exists []. split; [apply fields_encode_nil|]. by rewrite app_nil_r, lenZ_nil, Z.add_0_r.
Qed.

(** The base fields. *)
Lemma base_fields_encode id sev m :
  0 ≤ id_uint64 id < 2 ^ 64 → 0 ≤ sev < 256 → valid_key m →
  fields_encode (base_fields id sev m)
    ((AppendString [] (str "@id") ++ encode_scalar (SUint (id_uint64 id))) ++
     (AppendString [] (str "pri") ++ encode_scalar (SUint sev)) ++
     (AppendString [] (str "message") ++ encode_scalar (SStr m))).
Proof.
  intros Hid Hsev Hm.
  assert (∀ k, lenZ (str k) < 2 ^ 32 → valid_key (str k)) as Hk.
  { intros k Hl. split; [apply is_bytes_str|done]. }
  apply (fields_encode_app [_] [_; _]), (fields_encode_app [_] [_]);
    apply fields_encode_one, field_scalar; try (by apply Hk); try done.
  split; [cbn; lia|done].
Qed.

(** The entry, field by field. *)
Lemma log_entry_count opt l id sev msg args (sprintf : bool) frames n efs afs :
  (if sprintf then countFmtArgs msg else Ret 0) = Ret n → 0 ≤ n ≤ lenZ args →
  0 ≤ id_uint64 id < 2 ^ 64 → 0 ≤ sev < 256 → valid_key (message_of msg args n) →
  logger_has l efs → lenZ efs < 256 →
  Forall2 (represents_field json_Append) (pair_args [] (drop (Z.to_nat n) args)) afs →
  (sev ≤ StackTraceThreshold opt → lenZ frames ≤ 15) →
  let fs := base_fields id sev (message_of msg args n) ++ efs ++ afs ++ stack_fields opt sev frames in
  ∃ F, fields_encode fs F ∧
    Logger_log json_Append Sprintf opt l id sev msg args sprintf frames =
      Ret (count_at opt (id_time id) (lenZ fs) F).
Proof.
  intros En Hn Hid Hsev Hm Hl Hefs Hafs Hfr fs. unfold Logger_log, log_entry. rewrite En. go_simpl.
  set (x := lenZ (entry_head opt (id_time id)) - 1). rewrite entry_head_count.
  unfold x. rewrite incr_count. go_simpl.
  rewrite (appender (f := AppendUint)), (count_scalar _ _ _ _ (str "@id") (SUint (id_uint64 id))).
  rewrite incr_count. go_simpl.
  rewrite (appender (f := AppendUint)), (count_scalar _ _ _ _ (str "pri") (SUint sev)).
  rewrite incr_count. go_simpl. rewrite log_message by lia. go_simpl.
  rewrite (appender (f := AppendString) (AppendString _ (str "message"))).
  rewrite (count_scalar _ _ _ _ (str "message") (SStr (message_of msg args n))).
  rewrite <- !app_assoc, app_nil_l.
  pose proof (base_fields_encode id sev _ Hid Hsev Hm) as Hbase.
  rewrite <- !app_assoc in Hbase. set (F0 := AppendString [] (str "@id") ++ _) in *.
  rewrite (add_inherited opt (id_time id) _ F0 efs l Hl Hefs). go_simpl.
  destruct (add_args opt (id_time id) (0 + 1 + 1 + 1 + lenZ efs) (F0 ++ data l) args n afs Hn Hafs)
    as (G & HG & ->). go_simpl.
  destruct (add_stack opt (id_time id) (0 + 1 + 1 + 1 + lenZ efs + lenZ afs) ((F0 ++ data l) ++ G)
    sev frames Hfr) as (K & HK & ->).
  exists (((F0 ++ data l) ++ G) ++ K). split.
  - unfold fs. rewrite <- !app_assoc. repeat apply fields_encode_app; try done. apply Hl.
  - do 2 f_equal. unfold fs. rewrite !lenZ_app. change (lenZ (base_fields _ _ _)) with 3. lia.
Qed.

(** ** Loggers *)

Lemma u8_add a b : u8 (u8 a + u8 b) = u8 (a + b).
Proof. unfold uwrap. by rewrite <- Zplus_mod. Qed.

(** The data and the count that [With] and [WithAttrs] start from. *)
Lemma inherited_start l fs :
  logger_has l fs →
  (match fieldData l with Some d => (d, fieldCount l) | None => ([], 0) end) = (data l, u8 (lenZ fs)).
Proof.
  intros (HF & Hc & HN). unfold data. destruct (fieldData l); cbn; [by rewrite Hc|].
  by rewrite (HN eq_refl).
Qed.

Lemma With_has l fs args afs :
  logger_has l fs → args ≠ [] → Forall2 (represents_field json_Append) (pair_args [] args) afs →
  ∃ l', With json_Append l args = Ret l' ∧ logger_has l' (fs ++ afs).
Proof.
  intros Hl Ha Hafs. destruct (appendArgs_fields_eq json_Append args afs Hafs) as (bs & Hb & E).
  unfold With. rewrite bool_decide_false by done. rewrite (inherited_start l fs Hl). rewrite E. go_simpl.
  eexists. split; [reflexivity|]. unfold logger_has, data. cbn [fieldData fieldCount default].
  split; [apply fields_encode_app; [apply Hl|done]|]. split; [|done].
  by rewrite u8_add, lenZ_app.
Qed.

(** ** slog *)

(** The object that an attribute is written as. *)
Inductive attr_represents : Attr → list Z * obj → Prop :=
  | attr_int k z : - 2 ^ 63 ≤ z < 2 ^ 63 →
      attr_represents (mkAttr k (KindInt64 z)) (k, OScalar (SInt z))
  | attr_uint k z : 0 ≤ z < 2 ^ 64 →
      attr_represents (mkAttr k (KindUint64 z)) (k, OScalar (SUint z))
  | attr_float k f : 0 ≤ f < 2 ^ 64 →
      attr_represents (mkAttr k (KindFloat64 f)) (k, OScalar (SFloat f))
  | attr_bool k b : attr_represents (mkAttr k (KindBool b)) (k, OScalar (SBool b))
  | attr_time k t : valid_time t → 0 ≤ unix t →
      attr_represents (mkAttr k (KindTime t)) (k, OScalar (STime t (chooseFormat t)))
  | attr_string k s : is_bytes s → lenZ s < 2 ^ 32 →
      attr_represents (mkAttr k (KindString s)) (k, OScalar (SStr s))
  | attr_any k v o : represents json_Append v o → has_text v →
      attr_represents (mkAttr k (KindAny v)) (k, o).

Lemma appendSlogAttr_field a f :
  attr_represents a f → valid_key f.1 →
  ∃ bs, field_encodes f.1 f.2 bs ∧ ∀ b, appendSlogAttr b a = Ret (b ++ bs).
Proof.
  intros Ha Hk.
  assert (∀ s, plain_scalar s → f.2 = OScalar s →
    (∀ b, appendSlogAttr b a = Ret (AppendString b f.1 ++ encode_scalar s)) →
    ∃ bs, field_encodes f.1 f.2 bs ∧ ∀ b, appendSlogAttr b a = Ret (b ++ bs)) as Hsc.
  { intros s Hs Ef H. exists (AppendString [] f.1 ++ encode_scalar s). rewrite Ef.
    split; [by apply field_scalar|]. intros b. by rewrite H, (appender b), <- app_assoc. }
  destruct Ha as [k z Hz|k z Hz|k x Hx|k x|k t Ht H0|k s Hs Hl|k v o Hr Ht]; cbn [fst snd] in *;
    unfold appendSlogAttr in *; cbn [attr_key attr_value] in *.
  - apply (Hsc (SInt z)); [done|done|]. intros b. by rewrite (appender (AppendString b k)).
  - apply (Hsc (SUint z)); [done|done|]. intros b. by rewrite (appender (AppendString b k)).
  - apply (Hsc (SFloat x)); [done|done|]. intros b. by rewrite (appender (AppendString b k)).
  - apply (Hsc (SBool x)); [done|done|]. intros b. by rewrite (appender (AppendString b k)).
  - apply (Hsc (STime t (chooseFormat t))).
    + split; [split; [done|apply chooseFormat_not_auto]|]. unfold chooseFormat. cbn [is_Ts96].
      destruct (unix t <? 0) eqn:E; [lia|]. by destruct (_ =? _).
    + done.
    + intros b. rewrite (appender (f := λ dst t, AppendTimestamp dst t []) (AppendString b k)).
      by rewrite (AppendTimestamp_format [] t []).
  - apply (Hsc (SStr s)); [done|done|]. intros b. by rewrite (appender (AppendString b k)).
  - destruct (AppendAny_encodes json_Append v o Hr Ht) as (bs & Hb & E).
    exists (AppendString [] k ++ bs). split.
    + exists (AppendString [] k), bs. split_and!; [done| |done]. by apply (scalar_encodes (SStr k)).
    + intros b. by rewrite E, (appender b), <- app_assoc.
Qed.

Lemma appendSlogAttr_each_fields attrs fs :
  Forall2 (λ a f, attr_represents a f ∧ valid_key f.1) attrs fs →
  ∃ bs, fields_encode fs bs ∧ ∀ b, appendSlogAttr_each b attrs = Ret (b ++ bs).
Proof.
  induction 1 as [|a f attrs fs [Ha Hk] _ (bs & Hb & E)].
  - exists []. split; [apply fields_encode_nil|]. intros b. by rewrite app_nil_r.
  - destruct (appendSlogAttr_field a f Ha Hk) as (cs & Hc & E1). exists (cs ++ bs). split.
    + destruct f as [k o]. by apply (fields_encode_app [_]), Hb; apply fields_encode_one.
    + intros b. cbn [appendSlogAttr_each]. rewrite E1. go_simpl. by rewrite E, <- app_assoc.
Qed.

Lemma appendSlogAttr_each_app attrs attrs' : ∀ b,
  appendSlogAttr_each b (attrs ++ attrs') =
    (b ← appendSlogAttr_each b attrs; appendSlogAttr_each b attrs').
Proof.
  induction attrs as [|a attrs IH]; intros b; [done|]. cbn [app appendSlogAttr_each].
  destruct (appendSlogAttr b a); go_simpl; [apply IH|done].
Qed.

(** The entry of a slog record whose attributes are written as the bytes [G]. *)
Lemma slog_entry_shape opt IDFromTime now rec frames l efs G :
  let ts := slog_time now rec in
  let sev := slog_severity (rec_level rec) in
  0 ≤ id_uint64 (IDFromTime ts) < 2 ^ 64 → valid_key (rec_message rec) →
  logger_has l efs → lenZ efs < 256 →
  (∀ b, appendSlogAttr_each b (rec_attrs rec) = Ret (b ++ G)) →
  (sev ≤ StackTraceThreshold opt → lenZ frames ≤ 15) →
  ∃ F K, fields_encode (base_fields (IDFromTime ts) sev (rec_message rec)) F ∧
    fields_encode (stack_fields opt sev frames) K ∧
    slog_entry opt IDFromTime now rec frames l =
      Ret (count_at opt ts (3 + lenZ efs + lenZ (rec_attrs rec) + lenZ (stack_fields opt sev frames))
             (((F ++ data l) ++ G) ++ K)).
Proof.
  intros ts sev Hid Hm Hl Hefs HG Hfr. unfold slog_entry. fold ts sev.
  assert (0 ≤ sev < 256) as Hsev.
  { unfold sev, slog_severity, DEBUG, INFO, WARN, ERR. repeat case_match; lia. }
  set (id := IDFromTime ts) in *. go_simpl.
  set (x := lenZ (entry_head opt ts) - 1). rewrite entry_head_count.
  unfold x. rewrite incr_count. go_simpl.
  rewrite (appender (f := AppendUint)), (count_scalar _ _ _ _ (str "@id") (SUint (id_uint64 id))).
  rewrite incr_count. go_simpl.
  rewrite (appender (f := AppendUint)), (count_scalar _ _ _ _ (str "pri") (SUint sev)).
  rewrite incr_count. go_simpl.
  rewrite (appender (f := AppendString) (AppendString _ (str "message"))).
  rewrite (count_scalar _ _ _ _ (str "message") (SStr (rec_message rec))).
  rewrite <- !app_assoc, app_nil_l.
  pose proof (base_fields_encode id sev _ Hid Hsev Hm) as Hbase.
  rewrite <- !app_assoc in Hbase. set (F0 := AppendString [] (str "@id") ++ _) in *.
  rewrite (add_inherited opt ts _ F0 efs l Hl Hefs). go_simpl.
  unfold appendSlogAttrs. rewrite HG. go_simpl. rewrite count_app, incr_count. go_simpl.
  set (n := lenZ (rec_attrs rec)).
  assert (∀ k F, count_at opt ts (k + u8 n) F = count_at opt ts (k + n) F) as ->.
  { intros k F. unfold count_at. do 2 f_equal. unfold uwrap. by rewrite Zplus_mod_idemp_r. }
  destruct (add_stack opt ts (0 + 1 + 1 + 1 + lenZ efs + n) ((F0 ++ data l) ++ G) sev frames Hfr)
    as (K & HK & ->).
  by exists F0, K.
Qed.

(** ** Properties *)

(** The hypotheses on a log call: [n] arguments are used by the format, the
    message and the tag are strings, the logger has the fields [efs], the
    remaining arguments are the fields [afs], and the stack has at most the 15
    frames that are asked for. *)
Record loggable (opt : Options) (l : Logger) (id : ID) (sev : Z) (msg : list Z) (args : list any)
    (sprintf : bool) (frames : list (list Z * Z)) (n : Z) (efs afs : list (list Z * obj)) : Prop := {
  lg_count : (if sprintf then countFmtArgs msg else Ret 0) = Ret n;
  lg_args : 0 ≤ n ≤ lenZ args;
  lg_id : 0 ≤ id_uint64 id < 2 ^ 64 ∧ valid_time (id_time id);
  lg_sev : 0 ≤ sev < 256;
  lg_tag : valid_key (Tag opt);
  lg_message : valid_key (message_of msg args n);
  lg_logger : logger_has l efs ∧ lenZ efs < 256;
  lg_fields : Forall2 (represents_field json_Append) (pair_args [] (drop (Z.to_nat n) args)) afs;
  lg_frames : sev ≤ StackTraceThreshold opt → lenZ frames ≤ 15
}.

(** The fields of the entry, in order. *)
Definition log_fields (opt : Options) (id : ID) (sev : Z) (msg : list Z) (args : list any)
    (frames : list (list Z * Z)) (n : Z) (efs afs : list (list Z * obj)) : list (list Z * obj) :=
  base_fields id sev (message_of msg args n) ++ efs ++ afs ++ stack_fields opt sev frames.

(** C6: An entry of up to 255 fields is an encoding of [tag, time, record]: the
    record holds the identifier, the severity and the message, then the logger's
    fields, those of the arguments and the stack trace, in this order. *)
Theorem log_entry_encodes opt l id sev msg args sprintf frames n efs afs :
  loggable opt l id sev msg args sprintf frames n efs afs →
  let fs := log_fields opt id sev msg args frames n efs afs in
  lenZ fs < 256 →
  ∃ b, Logger_log json_Append Sprintf opt l id sev msg args sprintf frames = Ret b ∧
    encodes (entry_obj opt (id_time id) fs) b.
Proof.
  intros [Hn Ha [Hid Ht] Hsev Htag Hm [Hl Hefs] Hafs Hfr] fs Hfs.
  destruct (log_entry_count opt l id sev msg args sprintf frames n efs afs) as (F & HF & E); try done.
  eexists. split; [exact E|]. by apply count_at_encodes.
Qed.

(** The record's count is the number of fields modulo 256, since only the low
    byte of its map16 header is ever incremented: an entry with 256 fields or
    more carries all of them, under a header that announces fewer. *)
Theorem log_entry_bytes opt l id sev msg args sprintf frames n efs afs :
  loggable opt l id sev msg args sprintf frames n efs afs →
  let fs := log_fields opt id sev msg args frames n efs afs in
  ∃ F, fields_encode fs F ∧
    Logger_log json_Append Sprintf opt l id sev msg args sprintf frames =
      Ret (AppendArrayHeader [] 3 ++ AppendString [] (Tag opt) ++
           AppendTimestamp [] (id_time id) [TsFluentd] ++ [0xde; 0; lenZ fs mod 256] ++ F).
Proof.
  intros [Hn Ha [Hid Ht] Hsev Htag Hm [Hl Hefs] Hafs Hfr] fs.
  destruct (log_entry_count opt l id sev msg args sprintf frames n efs afs) as (F & HF & E); try done.
  exists F. split; [done|]. rewrite E. unfold count_at. rewrite <- !app_assoc. done.
Qed.

(** A formatted log call with fewer arguments than [countFmtArgs] finds in the
    format panics and logs nothing: the arguments are sliced before they are
    formatted.  A message like "100% done" counts as one. *)
Theorem log_missing_args_panics opt l id sev msg args frames n :
  countFmtArgs msg = Ret n → lenZ args < n →
  Logger_log json_Append Sprintf opt l id sev msg args true frames = Panic SliceOutOfRange.
Proof.
  intros En Hn. unfold Logger_log, log_entry. rewrite En. go_simpl.
  set (x := lenZ (entry_head opt (id_time id)) - 1). rewrite entry_head_count.
  unfold x. rewrite incr_count. go_simpl.
  rewrite (appender (f := AppendUint)), (count_scalar _ _ _ _ (str "@id") (SUint (id_uint64 id))).
  rewrite incr_count. go_simpl.
  rewrite (appender (f := AppendUint)), (count_scalar _ _ _ _ (str "pri") (SUint sev)).
  rewrite incr_count. go_simpl. pose proof (lenZ_nonneg args).
  destruct (0 <? n) eqn:E1; [|lia]. destruct (n <=? lenZ args) eqn:E2; [lia|]. done.
Qed.

(** [With] on arguments gives a logger with the parent's fields followed by
    those of the arguments, and the matching count; without arguments it gives a
    logger that has lost the parent's fields. *)
Theorem With_inherits l fs args afs :
  logger_has l fs → Forall2 (represents_field json_Append) (pair_args [] args) afs →
  ∃ l', With json_Append l args = Ret l' ∧
    logger_has l' (if bool_decide (args = []) then [] else fs ++ afs).
Proof.
  intros Hl Hafs. destruct (decide (args = [])) as [->|Ha].
  - exists newLogger. rewrite bool_decide_true by done. split; [done|].
    by split; [apply fields_encode_nil|].
  - rewrite bool_decide_false by done. by apply With_has.
Qed.

(** C28: A slog record becomes an entry with the fields of the logger and of the
    attributes, when every attribute's value is of a basic kind or has a text, times
    being from 1970 on, and the entry has fewer than 256 fields.  (An error, a group or
    nil has no text: [slog_dangling_key] shows what becomes of those.) *)
Theorem slog_entry_encodes opt IDFromTime now rec frames l efs afs :
  let ts := slog_time now rec in
  let sev := slog_severity (rec_level rec) in
  let fs := base_fields (IDFromTime ts) sev (rec_message rec) ++ efs ++ afs ++
            stack_fields opt sev frames in
  0 ≤ id_uint64 (IDFromTime ts) < 2 ^ 64 → valid_time ts → valid_key (Tag opt) →
  valid_key (rec_message rec) → logger_has l efs → lenZ fs < 256 →
  Forall2 (λ a f, attr_represents a f ∧ valid_key f.1) (rec_attrs rec) afs →
  (sev ≤ StackTraceThreshold opt → lenZ frames ≤ 15) →
  ∃ b, slog_entry opt IDFromTime now rec frames l = Ret b ∧ encodes (entry_obj opt ts fs) b.
Proof.
  intros ts sev fs Hid Hts Htag Hm Hl Hfs Hafs Hfr.
  destruct (appendSlogAttr_each_fields _ _ Hafs) as (G & HG & Ea).
  destruct (slog_entry_shape opt IDFromTime now rec frames l efs G) as (F & K & HF & HK & E);
    [done..|unfold fs in Hfs; len_lia|done|done|].
  eexists. split; [exact E|]. fold ts sev in HF, HK, E |- *.
  replace (3 + lenZ efs + lenZ (rec_attrs rec) + lenZ (stack_fields opt sev frames)) with (lenZ fs).
  - apply count_at_encodes; [done|done| |done]. unfold fs. rewrite <- !app_assoc.
    repeat apply fields_encode_app; try done. apply Hl.
  - unfold fs. rewrite !lenZ_app. change (lenZ (base_fields _ _ _)) with 3.
    assert (lenZ (rec_attrs rec) = lenZ afs) by (unfold lenZ; by rewrite (Forall2_length _ _ _ Hafs)).
    lia.
Qed.

(** A slog attribute with a value that has neither a text nor a string method,
    such as an error or a group, is written as a key without a value, while it is
    counted as a field: the entry is not an encoding of any object, and a reader
    takes the next entry in the stream for the missing value. *)
Theorem slog_dangling_key opt IDFromTime now rec frames l efs afs attrs k id m :
  let ts := slog_time now rec in
  let sev := slog_severity (rec_level rec) in
  rec_attrs rec = attrs ++ [mkAttr k (KindAny (AOther id m))] →
  AppendTextMethod m = None → StringMethod m = None → valid_key k →
  0 ≤ id_uint64 (IDFromTime ts) < 2 ^ 64 → valid_time ts → valid_key (Tag opt) →
  valid_key (rec_message rec) → logger_has l efs → lenZ efs + lenZ afs < 252 →
  Forall2 (λ a f, attr_represents a f ∧ valid_key f.1) attrs afs →
  StackTraceThreshold opt < sev →
  ∃ b, slog_entry opt IDFromTime now rec frames l = Ret b ∧ ∀ o, ¬ encodes o b.
Proof.
  intros ts sev Erec Hm1 Hm2 Hk Hid Hts Htag Hmsg Hl Hlen Hafs Hsev.
  destruct (appendSlogAttr_each_fields _ _ Hafs) as (G & HG & Ea).
  assert (lenZ attrs = lenZ afs) as Hlen' by (unfold lenZ; by rewrite (Forall2_length _ _ _ Hafs)).
  destruct (slog_entry_shape opt IDFromTime now rec frames l efs (G ++ AppendString [] k))
    as (F & K & HF & HK & E); try done.
  { pose proof (lenZ_nonneg afs). lia. }
  { intros b. rewrite Erec, appendSlogAttr_each_app, Ea. go_simpl. cbn [appendSlogAttr_each].
    unfold appendSlogAttr. cbn [attr_key attr_value AppendAny]. rewrite Hm1, Hm2. go_simpl.
    by rewrite (appender (f := AppendString)), <- app_assoc. }
  { fold sev. lia. }
  fold ts sev in HF, HK, E. eexists. split; [exact E|]. intros o Ho.
  unfold stack_fields in *. destruct (sev <=? StackTraceThreshold opt) eqn:Es; [lia|].
  destruct HK as (bss & -> & HK). inversion HK; subst bss. cbn [concat] in *. rewrite app_nil_r in *.
  set (fs := base_fields (IDFromTime ts) sev (rec_message rec) ++ efs ++ afs ++ [(k, OScalar (SBool true))]).
  assert (lenZ fs = 3 + lenZ efs + lenZ (rec_attrs rec) + 0) as Efs.
  { unfold fs. rewrite Erec, !lenZ_app, Hlen'. change (lenZ (base_fields _ _ _)) with 3.
    change (lenZ [_]) with 1. change (lenZ [_]) with 1. lia. }
  assert (encodes (entry_obj opt ts fs)
    (count_at opt ts (lenZ fs) (((F ++ data l) ++ G ++ AppendString [] k) ++ [0xc3]))) as Hfull.
  { apply count_at_encodes; [done|done| |].
    - unfold fs. rewrite <- !app_assoc. repeat apply fields_encode_app; try done; [apply Hl|].
      by apply fields_encode_one, (field_scalar k (SBool true)).
    - rewrite Efs, Erec, lenZ_app, Hlen'. change (lenZ [_]) with 1. lia. }
  rewrite <- count_app, Efs in Hfull. by pose proof (Iter.encodes_prefix_free _ _ _ _ Ho Hfull).
Qed.

(** A metrics call becomes an entry of the argument fields alone. *)
Theorem metrics_entry_encodes opt now args afs :
  valid_key (Tag opt) → valid_time now →
  Forall2 (represents_field json_Append) (pair_args [] args) afs → lenZ afs < 256 →
  ∃ b, metrics_entry json_Append opt now args = Ret b ∧ encodes (entry_obj opt now afs) b.
Proof.
  intros Htag Hnow Hafs Hl. pose proof (lenZ_nonneg afs).
  destruct (appendArgs_fields_eq json_Append args afs Hafs) as (G & HG & Ea).
  unfold metrics_entry. set (x := lenZ (entry_head opt now) - 1). rewrite entry_head_count.
  rewrite Ea. go_simpl. rewrite count_app. unfold x. rewrite incr_count, uwrap_small by lia.
  eexists. split; [reflexivity|]. by apply count_at_encodes.
Qed.

End Entry.

(** [countFmtArgs] is the highest argument index over the pieces of a format:
    literals and double percent signs count nothing, a verb takes the argument
    after the last one, an explicit index sets it. *)
Theorem countFmtArgs_pieces ps :
  Forall valid_piece ps →
  countFmtArgs (concat (map render_piece ps)) = Ret (highest ps 0 0).
Proof. intros Hv. by apply countFmtArgs_pieces_loop. Qed.

Lemma countFmtArgs_pieces_witness : countFmtArgs (str "a=%d %% b=%[3]d c=%-5s") = Ret 4.
Proof.
  apply (countFmtArgs_pieces
    (map Literal (str "a=") ++ [Verb 100; Literal 32; Percent] ++ map Literal (str " b=") ++
     [Indexed (str "3")] ++ map Literal (str "d c=") ++ [Verb 45] ++ map Literal (str "5s"))).
  repeat constructor; cbn; unfold is_digit; lia.
Defined.

(** ** Witnesses *)

(** A JSON encoder and a formatter to run the entries with. *)
Definition json0 (d : list Z) (v : any) : list Z * option error := (d ++ str "{}", None).
Definition sprintf0 (f : list Z) (args : list any) : list Z := f.

Definition opt0 : Options := mkOptions (str "app") 16 Fallback true EMERG.
Definition id0 : ID := mkID (mkTime 1735693323 7) 42.

Lemma opt0_tag : valid_key (Tag opt0).
Proof. split; [apply is_bytes_str|reflexivity]. Qed.

Lemma loggable0 :
  loggable json0 sprintf0 opt0 newLogger id0 INFO (str "hi %d") [ANum TInt 5; AString (str "k"); ABool true]
    true [] 1 [] [(str "k", OScalar (SBool true))].
Proof.
  constructor; [reflexivity|by split; vm_compute|split; [cbn; lia|unfold valid_time; cbn; lia]|done|apply opt0_tag| | | |done].
  - split; [apply is_bytes_str|reflexivity].
  - split; [|done]. by split; [apply fields_encode_nil|].
  - repeat constructor; cbn; unfold is_byte; lia.
Qed.

Lemma log_entry_encodes_witness :
  ∃ b, Logger_log json0 sprintf0 opt0 newLogger id0 INFO (str "hi %d")
      [ANum TInt 5; AString (str "k"); ABool true] true [] = Ret b ∧
    encodes (entry_obj opt0 (mkTime 1735693323 7)
      [(str "@id", OScalar (SUint 42)); (str "pri", OScalar (SUint 6));
       (str "message", OScalar (SStr (str "hi %d"))); (str "k", OScalar (SBool true))]) b.
Proof. apply (log_entry_encodes _ _ _ _ _ _ _ _ _ _ _ _ _ loggable0). reflexivity. Defined.

Lemma log_entry_bytes_witness :
  ∃ F, fields_encode [(str "@id", OScalar (SUint 42)); (str "pri", OScalar (SUint 6));
       (str "message", OScalar (SStr (str "hi %d"))); (str "k", OScalar (SBool true))] F ∧
    Logger_log json0 sprintf0 opt0 newLogger id0 INFO (str "hi %d")
      [ANum TInt 5; AString (str "k"); ABool true] true [] =
      Ret (AppendArrayHeader [] 3 ++ AppendString [] (str "app") ++
           AppendTimestamp [] (mkTime 1735693323 7) [TsFluentd] ++ [0xde; 0; 4] ++ F).
Proof. apply (log_entry_bytes _ _ _ _ _ _ _ _ _ _ _ _ _ loggable0). Defined.

Lemma log_missing_args_panics_witness :
  Logger_log json0 sprintf0 opt0 newLogger id0 INFO (str "100% done") [] true [] = Panic SliceOutOfRange.
Proof.
  apply (log_missing_args_panics json0 sprintf0 opt0 newLogger id0 INFO (str "100% done") [] [] 1);
    reflexivity.
Defined.

Lemma With_inherits_witness :
  ∃ l', With json0 newLogger [AString (str "k"); ABool true] = Ret l' ∧
    logger_has l' [(str "k", OScalar (SBool true))].
Proof.
  apply (With_inherits json0 newLogger [] [AString (str "k"); ABool true] [(str "k", OScalar (SBool true))]).
  - by split; [apply fields_encode_nil|].
  - repeat constructor; cbn; unfold is_byte; lia.
Defined.

Definition rec0 (attrs : list Attr) : SlogRecord := mkSlogRecord (mkTime 5 7) 0 (str "hi") attrs.

Lemma slog_entry_encodes_witness :
  ∃ b, slog_entry opt0 (λ t, mkID t 42) (mkTime 9 9) (rec0 [mkAttr (str "n") (KindInt64 5)]) [] newLogger = Ret b ∧
    encodes (entry_obj opt0 (mkTime 5 7)
      [(str "@id", OScalar (SUint 42)); (str "pri", OScalar (SUint 6));
       (str "message", OScalar (SStr (str "hi"))); (str "n", OScalar (SInt 5))]) b.
Proof.
  apply (slog_entry_encodes json0 opt0 (λ t, mkID t 42) (mkTime 9 9)
    (rec0 [mkAttr (str "n") (KindInt64 5)]) [] newLogger [] [(str "n", OScalar (SInt 5))]).
  - cbn. lia.
  - unfold valid_time. cbn. lia.
  - apply opt0_tag.
  - split; [apply is_bytes_str|reflexivity].
  - by split; [apply fields_encode_nil|].
  - reflexivity.
  - repeat constructor; cbn; unfold is_byte; lia.
  - done.
Defined.

(** An error value: it has an [Error] method only. *)
Lemma slog_dangling_key_witness :
  ∃ b, slog_entry opt0 (λ t, mkID t 42) (mkTime 9 9)
      (rec0 [mkAttr (str "err") (KindAny (AOther 0 (mkMethods None None None (Some (str "EOF")))))])
      [] newLogger = Ret b ∧ ∀ o, ¬ encodes o b.
Proof.
  apply (slog_dangling_key json0 opt0 (λ t, mkID t 42) (mkTime 9 9)
    (rec0 [mkAttr (str "err") (KindAny (AOther 0 (mkMethods None None None (Some (str "EOF")))))])
    [] newLogger [] [] [] (str "err") 0 (mkMethods None None None (Some (str "EOF")))).
  - reflexivity.
  - reflexivity.
  - reflexivity.
  - split; [apply is_bytes_str|reflexivity].
  - cbn. lia.
  - unfold valid_time. cbn. lia.
  - apply opt0_tag.
  - split; [apply is_bytes_str|reflexivity].
  - by split; [apply fields_encode_nil|].
  - reflexivity.
  - constructor.
  - reflexivity.
Defined.

Lemma metrics_entry_encodes_witness :
  ∃ b, metrics_entry json0 opt0 (mkTime 5 7) [AString (str "cpu"); ANum TInt 3] = Ret b ∧
    encodes (entry_obj opt0 (mkTime 5 7) [(str "cpu", OScalar (SInt 3))]) b.
Proof.
  apply (metrics_entry_encodes json0 opt0 (mkTime 5 7) [AString (str "cpu"); ANum TInt 3]
    [(str "cpu", OScalar (SInt 3))]).
  - apply opt0_tag.
  - unfold valid_time. cbn. lia.
  - repeat constructor; cbn; unfold is_byte; lia.
  - reflexivity.
Defined.
