(* ===== verification/Fallback.v ===== *)
(** * Fallback: the disk buffers (fallback/fallback.go, dir_buffer.go,
    file_buffer.go)

    The file system maps paths to contents; opening a file that is not there and
    is not created fails, nothing else does.  A file is written through a gzip
    writer, which is not part of the repository: [gz p] is the gzip member for
    the bytes [p], written when the writer is closed; until then the bytes are
    pending in the writer.  So the contents of a buffer's file are a sequence of
    members, and what the buffer stores is the bytes in them and in the writer.

    Operations are in a monad of a state and an error: an early [return] with an
    error keeps the state changes made so far.

    [NoLoss] is what the package's interface promises to its client: a write adds
    a chunk; a read hands chunks to its function and forgets them only if the
    function succeeds.  Both buffers are instances. *)

From stdpp Require Import gmap.
From S2P Require Import Prelude Errors.

Abbreviation FS := (gmap string (list Z)).

(** os.ErrNotExist *)
Definition ENOENT : error := External 2.

(** ** The monad *)

Definition M (S A : Type) : Type := S → (error + A) * S.

#[export] Instance M_ret S : MRet (M S) := λ A a s, (inr a, s).
#[export] Instance M_bind S : MBind (M S) := λ A B f m s,
  match m s with
  | (inr a, s) => f a s
  | (inl e, s) => (inl e, s)
  end.

Definition get {S} : M S S := λ s, (inr s, s).
Definition put {S} (s : S) : M S unit := λ _, (inr tt, s).
Definition fail {S A} (e : error) : M S A := λ s, (inl e, s).

(** Run [m], then [after] whatever [m] returned: [defer]. *)
Definition deferred {S A} (after : S → S) (m : M S A) : M S A := λ s,
  let '(r, s) := m s in (r, after s).

Section FS.
  Variable gz : list Z → list Z.

Definition fileSize (fs : FS) (name : string) : Z := lenZ (default [] (fs !! name)).

(** A file as it is after [OpenFile] with O_CREATE. *)
Definition create (fs : FS) (name : string) : FS :=
  match fs !! name with Some _ => fs | None => <[name := []]> fs end.

(** Append to a file (O_APPEND). *)
Definition append_file (fs : FS) (name : string) (bs : list Z) : FS :=
  <[name := default [] (fs !! name) ++ bs]> fs.

(** [Truncate(0)] *)
Definition truncate (fs : FS) (name : string) : FS := <[name := []]> fs.

(** ** dir_buffer.go *)

(** [write] is the open file and the bytes pending in its gzip writer. *)
Record DirBuffer := mkDirBuffer {
  dir : string;
  rName : string;
  wName : string;
  read : option string;
  write : option (string * list Z)
}.

Definition NewDirBuffer (dir : string) : DirBuffer :=
  mkDirBuffer dir (dir +:+ "/ping.bin") (dir +:+ "/pong.bin") None None.

Record DirState := mkDirState { db : DirBuffer; fs : FS }.

Definition set_read (s : DirState) (r : option string) : DirState :=
  mkDirState (mkDirBuffer (dir (db s)) (rName (db s)) (wName (db s)) r (write (db s))) (fs s).
Definition set_write (s : DirState) (w : option (string * list Z)) : DirState :=
  mkDirState (mkDirBuffer (dir (db s)) (rName (db s)) (wName (db s)) (read (db s)) w) (fs s).
Definition set_fs (s : DirState) (f : FS) : DirState := mkDirState (db s) f.
Definition swap_names (s : DirState) : DirState :=
  mkDirState (mkDirBuffer (dir (db s)) (wName (db s)) (rName (db s)) (read (db s)) (write (db s))) (fs s).

Definition initReadFile : M DirState unit :=
  s ← get;
  match fs s !! rName (db s) with
  | None => fail ENOENT
  | Some _ => put (set_read s (Some (rName (db s))))
  end.

Definition ensureReadFile : M DirState unit :=
  s ← get;
  match read (db s) with Some _ => mret tt | None => initReadFile end.

Definition closeReadFile : M DirState unit := s ← get; put (set_read s None).

Definition initWriteFile : M DirState unit :=
  s ← get;
  let name := wName (db s) in
  put (set_write (set_fs s (create (fs s) name)) (Some (name, []))).

Definition ensureWriteFile : M DirState unit :=
  s ← get;
  match write (db s) with Some _ => mret tt | None => initWriteFile end.

Definition closeWriteFile : M DirState unit :=
  s ← get;
  match write (db s) with
  | Some (name, pending) => put (set_write (set_fs s (append_file (fs s) name (gz pending))) None)
  | None => mret tt
  end.

Definition close : M DirState unit := closeReadFile;; closeWriteFile.

Definition Close : M DirState unit := close.

Definition Write (p : list Z) : M DirState Z :=
  ensureWriteFile;;
  s ← get;
  match write (db s) with
  | Some (name, pending) => put (set_write s (Some (name, pending ++ p)));; mret (lenZ p)
  | None => mret 0
  end.

(** A step of a function that returns its named result [ok] beside an error. *)
Definition attempt {S} (ok : bool) (m : M S unit) (k : S → bool * option error * S) (s : S) :
    bool * option error * S :=
  match m s with
  | (inl e, s) => (ok, Some e, s)
  | (inr _, s) => k s
  end.

Definition HasData : DirState → bool * option error * DirState :=
  attempt false close (λ s,
  let rSize := fileSize (fs s) (rName (db s)) in
  let wSize := fileSize (fs s) (wName (db s)) in
  if (rSize =? 0) && (wSize =? 0) then (false, None, s) else
  if 0 <? wSize then
    if rSize =? 0 then (true, None, s) else
    attempt true initReadFile (
    attempt true initWriteFile (λ s,
    let s := set_fs s (append_file (fs s) (wName (db s)) (default [] (fs s !! rName (db s)))) in
    let s := set_fs s (truncate (fs s) (rName (db s))) in
    attempt true close (λ s, (true, None, s)) s)) s
  else (true, None, swap_names s)).

Definition switchFiles : M DirState unit :=
  close;;
  s ← get;
  put (swap_names s).

(** [fn] works on a state of its own, that of the client. *)
Definition Reader {C} (fn : Z → list Z → C → option error * C) (c : C) : M DirState (option error * C) :=
  switchFiles;;
  ensureReadFile;;
  deferred (λ s, set_read s None) (
    s ← get;
    let name := default "" (read (db s)) in
    let content := default [] (fs s !! name) in
    let '(err, c) := fn (lenZ content) content c in
    match err with
    | Some e => mret (Some e, c)
    | None => put (set_fs s (truncate (fs s) name));; mret (None, c)
    end).

(** ** file_buffer.go *)

(** [pending] is what the gzip writer holds while the file is open. *)
Record FileBuffer := mkFileBuffer { path : string; pending : option (list Z); ffs : FS }.

Definition NewFileBuffer (path : string) (f : FS) : FileBuffer := mkFileBuffer path None f.

Definition set_pending (s : FileBuffer) (p : option (list Z)) : FileBuffer :=
  mkFileBuffer (path s) p (ffs s).
Definition set_ffs (s : FileBuffer) (f : FS) : FileBuffer := mkFileBuffer (path s) (pending s) f.

Definition initFile : M FileBuffer unit :=
  s ← get; put (set_pending (set_ffs s (create (ffs s) (path s))) (Some [])).

Definition ensureFile : M FileBuffer unit :=
  s ← get; match pending s with Some _ => mret tt | None => initFile end.

Definition FileBuffer_Write (p : list Z) : M FileBuffer Z :=
  ensureFile;;
  s ← get;
  put (set_pending s (Some (default [] (pending s) ++ p)));;
  mret (lenZ p).

Definition FileBuffer_Close : M FileBuffer unit :=
  s ← get;
  match pending s with
  | None => mret tt
  | Some p => put (set_pending (set_ffs s (append_file (ffs s) (path s) (gz p))) None)
  end.

Definition FileBuffer_HasData : M FileBuffer bool :=
  s ← get;
  match ffs s !! path s with
  | None => mret false
  | Some c => mret (0 <? lenZ c)
  end.

Definition FileBuffer_Reader {C} (fn : Z → list Z → C → option error * C) (c : C) :
    M FileBuffer (option error * C) :=
  FileBuffer_Close;;
  s ← get;
  match ffs s !! path s with
  | None => mret (None, c)
  | Some content =>
    let size := lenZ content in
    if size =? 0 then put (set_ffs s (truncate (ffs s) (path s)));; mret (None, c)
    else
      let '(err, c) := fn size content c in
      match err with
      | Some e => mret (Some e, c)
      | None => put (set_ffs s (truncate (ffs s) (path s)));; mret (None, c)
      end
  end.

(** ** Contents *)

(** The contents of a file that holds the chunks [cs]: members, each made of some
    of the chunks. *)
Definition members (cs : list (list Z)) (content : list Z) : Prop :=
  ∃ ms : list (list (list Z)), content = concat (map (λ m, gz (concat m)) ms) ∧ cs = concat ms.

Definition file_holds (f : FS) (name : string) (cs : list (list Z)) : Prop :=
  members cs (default [] (f !! name)).

Lemma members_nil : members [] [].
Proof. by exists []. Qed.

Lemma members_app cs c ds d : members cs c → members ds d → members (cs ++ ds) (c ++ d).
Proof.
  intros (ms & -> & ->) (ns & -> & ->). exists (ms ++ ns). by rewrite map_app, !concat_app.
Qed.

Lemma members_one cs : members cs (gz (concat cs)).
Proof. exists [cs]. cbn. by rewrite !app_nil_r. Qed.

Lemma file_holds_append f name cs ps :
  file_holds f name cs → file_holds (append_file f name (gz (concat ps))) name (cs ++ ps).
Proof.
  intros H. unfold file_holds, append_file. rewrite lookup_insert_eq. cbn [default].
  apply members_app; [done|apply members_one].
Qed.

Lemma file_holds_other f name name' content cs :
  name ≠ name' → file_holds f name cs → file_holds (<[name' := content]> f) name cs.
Proof. intros Hn H. unfold file_holds. by rewrite lookup_insert_ne. Qed.

Lemma file_holds_create f name name' cs : file_holds f name cs → file_holds (create f name') name cs.
Proof.
  intros H. unfold create. destruct (f !! name') eqn:E; [done|].
  unfold file_holds in *. destruct (decide (name = name')) as [->|Hn].
  - rewrite lookup_insert_eq. by rewrite E in H.
  - by rewrite lookup_insert_ne.
Qed.

Lemma file_holds_truncate f name : file_holds (truncate f name) name [].
Proof. unfold file_holds, truncate. rewrite lookup_insert_eq. apply members_nil. Qed.

(** A gzip member has a header and a trailer, so it is not empty. *)
Hypothesis gz_nonempty : ∀ p, gz p ≠ [].

Lemma members_empty cs : members cs [] → cs = [].
Proof.
  intros (ms & E & ->). destruct ms as [|m ms]; [done|]. cbn in E.
  destruct (gz (concat m)) eqn:Eg; [by destruct (gz_nonempty (concat m))|done].
Qed.

(** A directory buffer between calls: the file to read holds [rs]; the file to
    write, with what is pending in its writer, holds [ws]. *)
Definition dir_stores (s : DirState) (rs ws : list (list Z)) : Prop :=
  rName (db s) ≠ wName (db s) ∧ read (db s) = None ∧ file_holds (fs s) (rName (db s)) rs ∧
  match write (db s) with
  | None => file_holds (fs s) (wName (db s)) ws
  | Some (name, p) => name = wName (db s) ∧ is_Some (fs s !! name) ∧
      ∃ cs ps, file_holds (fs s) name cs ∧ p = concat ps ∧ ws = cs ++ ps
  end.

Lemma NewDirBuffer_stores d f :
  file_holds f (d +:+ "/ping.bin") [] → file_holds f (d +:+ "/pong.bin") [] →
  dir_stores (mkDirState (NewDirBuffer d) f) [] [].
Proof.
  intros Hr Hw. split_and!; [|done..]. cbn. intros E. by apply (inj (String.append d)) in E.
Qed.

(** Closed, with nothing pending. *)
Definition dir_closed (s : DirState) (rs ws : list (list Z)) : Prop :=
  dir_stores s rs ws ∧ write (db s) = None.

Lemma close_stores s rs ws :
  dir_stores s rs ws → ∃ s', close s = (inr tt, s') ∧ dir_closed s' rs ws ∧
    rName (db s') = rName (db s) ∧ wName (db s') = wName (db s) ∧
    (write (db s) = None → fs s' = fs s) ∧
    (is_Some (write (db s)) → is_Some (fs s' !! wName (db s))).
Proof.
  intros (Hn & Hr & Hrs & Hw). unfold close, closeReadFile, closeWriteFile, get, put, mbind, M_bind.
  cbn [db fs set_read write]. destruct (write (db s)) as [[name p]|] eqn:E.
  - destruct Hw as (-> & Hex & cs & ps & Hcs & -> & ->). eexists. split; [reflexivity|].
    unfold dir_closed, dir_stores. cbn [db fs rName wName read write set_write set_fs set_read].
    split_and!; try done.
    + by apply file_holds_other.
    + by apply file_holds_append.
    + intros _. unfold append_file. by rewrite lookup_insert_eq.
  - eexists. split; [reflexivity|]. unfold dir_closed, dir_stores.
    cbn [db fs rName wName read write set_write set_fs set_read]. rewrite E.
    by split_and!.
Qed.

Lemma Write_stores s rs ws p :
  dir_stores s rs ws → ∃ s', Write p s = (inr (lenZ p), s') ∧ dir_stores s' rs (ws ++ [p]).
Proof.
  intros (Hn & Hr & Hrs & Hw). unfold Write, ensureWriteFile, initWriteFile, get, put, mbind, M_bind, mret, M_ret.
  destruct (write (db s)) as [[name q]|] eqn:E.
  - destruct Hw as (-> & Hex & cs & ps & Hcs & -> & ->). rewrite E. eexists. split; [reflexivity|].
    unfold dir_stores. cbn [db fs rName wName read write set_write].
    split_and!; try done. exists cs, (ps ++ [p]). split_and!; [done| |by rewrite <- app_assoc].
    rewrite concat_app. cbn. by rewrite app_nil_r.
  - cbn [db fs write set_write set_fs]. eexists. split; [reflexivity|].
    unfold dir_stores. cbn [db fs rName wName read write set_write set_fs].
    split_and!; try done; [by apply file_holds_create| |].
    + unfold create. destruct (fs s !! wName (db s)) eqn:Ew; [by rewrite Ew|].
      by rewrite lookup_insert_eq.
    + exists ws, [p]. split_and!; [by apply file_holds_create|cbn; by rewrite app_nil_r|done].
Qed.

(** Switching closes the files and exchanges their roles. *)
Lemma switchFiles_stores s rs ws :
  dir_stores s rs ws → ∃ s', switchFiles s = (inr tt, s') ∧ dir_closed s' ws rs ∧
    rName (db s') = wName (db s) ∧ wName (db s') = rName (db s) ∧
    (write (db s) = None → fs s' = fs s) ∧
    (is_Some (write (db s)) → is_Some (fs s' !! wName (db s))).
Proof.
  intros H. destruct (close_stores s rs ws H) as (s1 & E & ((Hn & Hr & Hrs & Hw) & Hwn) & En1 & En2 & Hfs & Hex).
  unfold switchFiles, get, put, mbind, M_bind. rewrite E. eexists. split; [reflexivity|].
  unfold dir_closed, dir_stores. cbn [db fs rName wName read write swap_names].
  rewrite Hwn in *. split_and!; try done; by rewrite ?En1, ?En2.
Qed.

(** [Reader] calls its function once, with some bytes and their number, and returns what
    it returned. *)
Lemma Reader_calls {C} (fn : Z → list Z → C → option error * C) c s res s' :
  Reader fn c s = (inr res, s') → ∃ content, res = fn (lenZ content) content c.
Proof.
  unfold Reader, deferred, get, put, mbind, M_bind, mret, M_ret.
  destruct (switchFiles s) as [[e|u] s1]; [done|]. destruct (ensureReadFile s1) as [[e|u'] s2]; [done|].
  set (content := default [] _). intros H. exists content.
  by destruct (fn (lenZ content) content c) as [[e|] c']; injection H as <- _.
Qed.

(** [Reader]: what it does with the bytes and the error of its function. *)
Lemma Reader_stores {C} (fn : Z → list Z → C → option error * C) c s rs ws :
  dir_stores s rs ws →
  (∃ s', Reader fn c s = (inl ENOENT, s') ∧ ws = [] ∧ dir_closed s' [] rs ∧
     write (db s) = None ∧ fs s !! wName (db s) = None) ∨
  (∃ s' content, members ws content ∧
     let '(err, c') := fn (lenZ content) content c in
     Reader fn c s = (inr (err, c'), s') ∧
     dir_closed s' (match err with Some _ => ws | None => [] end) rs).
Proof.
  intros H. destruct (switchFiles_stores s rs ws H)
    as (s1 & E & ((Hn & Hr & Hrs & Hw) & Hwn) & En1 & En2 & Hfs & Hex).
  rewrite Hwn in Hw.
  unfold Reader, ensureReadFile, initReadFile, deferred, get, put, fail, mbind, M_bind, mret, M_ret.
  rewrite E, Hr. destruct (fs s1 !! rName (db s1)) as [content|] eqn:Ef.
  - right. cbn [db fs read set_read default]. change (id (rName (db s1))) with (rName (db s1)). rewrite Ef.
    cbn [default from_option id].
    unfold file_holds in Hrs. rewrite Ef in Hrs. cbn [default from_option id] in Hrs.
    destruct (fn (lenZ content) content c) as [[e|] c'] eqn:Efn.
    + eexists _, content. split; [done|]. rewrite Efn. split; [reflexivity|].
      unfold dir_closed, dir_stores. cbn [db fs rName wName read write set_read]. rewrite Hwn.
      split_and!; try done. unfold file_holds. by rewrite Ef.
    + eexists _, content. split; [done|]. rewrite Efn. split; [reflexivity|].
      unfold dir_closed, dir_stores. cbn [db fs rName wName read write set_read set_fs]. rewrite Hwn.
      split_and!; try done; [apply file_holds_truncate|by apply file_holds_other].
  - left. unfold file_holds in Hrs. rewrite Ef in Hrs. apply members_empty in Hrs. subst ws.
    rewrite En1 in Ef. destruct (write (db s)) eqn:Ews.
    { destruct (Hex ltac:(by eexists)) as [x Hx]. congruence. }
    eexists. split; [reflexivity|]. split; [done|]. unfold dir_closed, dir_stores.
    cbn [db fs rName wName read write set_read]. rewrite Hwn, <- (Hfs eq_refl).
    split_and!; try done. unfold file_holds. rewrite En1, Ef. apply members_nil.
Qed.

(** [HasData] closes the buffer and leaves all that it holds in the file that is
    written to, which the next [Reader] reads: data in both files is merged, data
    in the file to read is put in its place by exchanging the files. *)
Lemma HasData_stores s rs ws :
  dir_stores s rs ws →
  ∃ b s', HasData s = (b, None, s') ∧ dir_closed s' [] (ws ++ rs) ∧ (b = false → ws ++ rs = []).
Proof.
  intros H. destruct (close_stores s rs ws H) as (s1 & E & ((Hn & Hr & Hrs & Hw) & Hwn) & _).
  unfold HasData, attempt at 1. rewrite E.
  unfold get, put, fail, mbind, M_bind, mret, M_ret. rewrite Hwn in Hw.
  assert (∀ name cs, file_holds (fs s1) name cs → fileSize (fs s1) name = 0 → cs = []) as Hempty.
  { intros name cs Hh Hz. unfold file_holds, fileSize in *.
    destruct (default [] (fs s1 !! name)); [by apply members_empty|len_lia]. }
  assert (∀ name, 0 ≤ fileSize (fs s1) name) as Hsize by (intros; apply lenZ_nonneg).
  destruct (fileSize (fs s1) (rName (db s1)) =? 0) eqn:Er; destruct (fileSize (fs s1) (wName (db s1)) =? 0) eqn:Ew;
    cbn [andb].
  - exists false, s1. pose proof (Hempty _ _ Hrs ltac:(lia)). pose proof (Hempty _ _ Hw ltac:(lia)). subst rs ws.
    split_and!; [done| |done]. split; [|done]. unfold dir_stores. rewrite Hwn. by split_and!.
  - destruct (0 <? fileSize (fs s1) (wName (db s1))) eqn:Ew0; [|specialize (Hsize (wName (db s1))); lia].
    exists true, s1. pose proof (Hempty _ _ Hrs ltac:(lia)). subst rs. rewrite app_nil_r.
    split_and!; [done| |done]. split; [|done]. unfold dir_stores. rewrite Hwn. by split_and!.
  - destruct (0 <? fileSize (fs s1) (wName (db s1))) eqn:Ew0; [lia|].
    eexists true, _. split; [reflexivity|]. pose proof (Hempty _ _ Hw ltac:(lia)). subst ws. cbn [app].
    split; [|done]. unfold dir_closed, dir_stores.
    cbn [db fs rName wName read write swap_names]. rewrite Hwn. by split_and!.
  - destruct (0 <? fileSize (fs s1) (wName (db s1))) eqn:Ew0; [|specialize (Hsize (wName (db s1))); lia].
    unfold attempt, initReadFile, initWriteFile, close, closeReadFile, closeWriteFile, get, put, fail, mbind, M_bind.
    destruct (fs s1 !! rName (db s1)) as [content|] eqn:Ef; [|unfold fileSize in Er; by rewrite Ef in Er].
    cbn [db fs rName wName read write set_read set_write set_fs].
    eexists true, _. split; [reflexivity|]. split; [|done]. unfold dir_closed, dir_stores.
    cbn [db fs rName wName read write set_read set_write set_fs].
    split_and!; try done.
    + apply file_holds_other; [done|]. apply file_holds_truncate.
    + pose proof (file_holds_create _ (wName (db s1)) (wName (db s1)) _ Hw) as Hw'.
      pose proof (file_holds_create _ _ (wName (db s1)) _ Hrs) as Hrs'.
      set (f1 := create (fs s1) (wName (db s1))) in *.
      unfold file_holds, append_file, truncate in *. rewrite lookup_insert_eq. cbn [default from_option id].
      rewrite lookup_insert_ne, lookup_insert_eq by done. cbn [default from_option id].
      rewrite <- (app_nil_r (ws ++ rs)). apply members_app; [by apply members_app|].
      apply (members_one []).
Qed.

(** ** The contract *)

Section Contract.
  Context (S : Type).

Class BufferOps := {
  buf_Write : list Z → M S Z;
  buf_Reader : ∀ C : Type, (Z → list Z → C → option error * C) → C → M S (option error * C)
}.

(** [holds s cs]: the buffer holds the chunks [cs], in some order.  A read may
    leave its function uncalled; otherwise the function gets some of the chunks,
    and they are forgotten if and only if it succeeds. *)
Class NoLoss `{BufferOps} := {
  holds : S → list (list Z) → Prop;
  holds_write s cs p :
    holds s cs → ∃ s', buf_Write p s = (inr (lenZ p), s') ∧ holds s' (cs ++ [p]);
  holds_read C (fn : Z → list Z → C → option error * C) c s cs :
    holds s cs →
    match buf_Reader C fn c s with
    | (inl _, s') => holds s' cs
    | (inr (err, c'), s') =>
        (err = None ∧ c' = c ∧ holds s' cs) ∨
        ∃ given kept content, cs ≡ₚ given ++ kept ∧ members given content ∧
          fn (lenZ content) content c = (err, c') ∧
          holds s' (match err with Some _ => cs | None => kept end)
    end
}.

(** A client: it writes chunks, and reads with a function that succeeds or fails;
    the contents accepted so far are its state. *)
Inductive op := OWrite (p : list Z) | ORead (ok : bool).

Definition accept (ok : bool) (n : Z) (content : list Z) (acc : list (list Z)) :
    option error * list (list Z) :=
  if ok then (None, acc ++ [content]) else (Some ErrUnexpectedEOF, acc).

Fixpoint run `{BufferOps} (ops : list op) (s : S) (acc : list (list Z)) : S * list (list Z) :=
  match ops with
  | [] => (s, acc)
  | OWrite p :: ops => let '(_, s) := buf_Write p s in run ops s acc
  | ORead ok :: ops =>
    match buf_Reader _ (accept ok) acc s with
    | (inl _, s) => run ops s acc
    | (inr (_, acc), s) => run ops s acc
    end
  end.

Definition written (ops : list op) : list (list Z) :=
  flat_map (λ o, match o with OWrite p => [p] | ORead _ => [] end) ops.

(** Every chunk that was written was accepted once or is still held. *)
Lemma run_no_loss `{NoLoss} ops : ∀ s acc cs,
  holds s cs →
  let '(s', acc') := run ops s acc in
  ∃ givens kept new, acc' = acc ++ new ∧ Forall2 members givens new ∧ holds s' kept ∧
    cs ++ written ops ≡ₚ concat givens ++ kept.
Proof.
  induction ops as [|[p|ok] ops IH]; intros s acc cs Hs; cbn [run written flat_map app].
  - exists [], cs, []. rewrite !app_nil_r. by split_and!.
  - destruct (holds_write s cs p Hs) as (s' & -> & Hs'). specialize (IH s' acc _ Hs').
    destruct (run ops s' acc) as [s2 acc2]. destruct IH as (gs & kept & new & -> & Hg & Hk & Hp).
    exists gs, kept, new. split_and!; try done. by rewrite <- Hp, <- app_assoc.
  - pose proof (holds_read _ (accept ok) acc s cs Hs) as Hr.
    destruct (buf_Reader _ (accept ok) acc s) as [[e|[err acc1]] s']; [by apply IH|].
    destruct Hr as [(-> & -> & Hs')|(given & kept1 & content & Hcs & Hm & Ea & Hs')]; [by apply IH|].
    unfold accept in Ea. destruct ok; injection Ea as <- <-; cbv iota in Hs'; [|by apply IH].
    specialize (IH s' (acc ++ [content]) kept1 Hs').
    destruct (run ops s' (acc ++ [content])) as [s2 acc2].
    destruct IH as (gs & kept & new & -> & Hg & Hk & Hp).
    exists (given :: gs), kept, (content :: new). split_and!; try done.
    + by rewrite <- app_assoc.
    + by constructor.
    + cbn [concat]. rewrite Hcs, <- !app_assoc. by f_equiv.
Qed.

End Contract.

End FS.

#[export] Instance dir_ops gz : BufferOps DirState := {
  buf_Write := Write;
  buf_Reader C fn c := Reader gz fn c
}.

#[export] Instance file_ops gz : BufferOps FileBuffer := {
  buf_Write := FileBuffer_Write;
  buf_Reader C fn c := FileBuffer_Reader gz fn c
}.

Section Implementations.
  Context (gz : list Z → list Z) (gz_nonempty : ∀ p, gz p ≠ []).

(** ** The directory buffer implements the contract *)

#[refine] Instance dir_no_loss : @NoLoss gz DirState (dir_ops gz) := {
  holds s cs := ∃ rs ws, dir_stores gz s rs ws ∧ cs ≡ₚ rs ++ ws
}.
Proof.
  - intros s cs p (rs & ws & Hs & Hp). destruct (Write_stores gz s rs ws p Hs) as (s' & E & Hs').
    exists s'. split; [exact E|]. exists rs, (ws ++ [p]). split; [done|]. by rewrite Hp, app_assoc.
  - intros C fn c s cs (rs & ws & Hs & Hp). cbn [buf_Reader dir_ops].
    destruct (Reader_stores gz gz_nonempty fn c s rs ws Hs)
      as [(s' & -> & -> & [Hs' _] & _)|(s' & content & Hm & Hrd)].
    + exists [], rs. split; [done|]. by rewrite app_nil_r in Hp.
    + destruct (fn (lenZ content) content c) as [err c'] eqn:Efn. destruct Hrd as [-> [Hs' _]].
      right. exists ws, rs, content. split_and!; [by rewrite Hp, (comm app)|done|done|].
      destruct err; [by exists ws, rs; rewrite Hp, (comm app)|by exists [], rs].
Defined.

(** ** The file buffer implements the contract *)

Definition file_stores (s : FileBuffer) (cs : list (list Z)) : Prop :=
  match pending s with
  | None => file_holds gz (ffs s) (path s) cs
  | Some p => is_Some (ffs s !! path s) ∧
      ∃ ds ps, file_holds gz (ffs s) (path s) ds ∧ p = concat ps ∧ cs = ds ++ ps
  end.

Lemma FileBuffer_Write_stores s cs p :
  file_stores s cs → ∃ s', FileBuffer_Write p s = (inr (lenZ p), s') ∧ file_stores s' (cs ++ [p]).
Proof.
  unfold file_stores, FileBuffer_Write, ensureFile, initFile, get, put, mbind, M_bind, mret, M_ret.
  destruct (pending s) as [q|] eqn:E.
  - intros (Hex & ds & ps & Hds & -> & ->). rewrite E. eexists. split; [reflexivity|].
    cbn [pending path ffs set_pending default from_option id]. split; [done|].
    exists ds, (ps ++ [p]). split_and!; [done| |by rewrite <- app_assoc].
    by rewrite concat_app; cbn; rewrite app_nil_r.
  - intros Hcs. eexists. split; [reflexivity|].
    cbn [pending path ffs set_pending set_ffs default from_option id]. split.
    + unfold create. destruct (ffs s !! path s) eqn:Ef; [by rewrite Ef|by rewrite lookup_insert_eq].
    + exists cs, [p]. split_and!; [by apply file_holds_create|cbn; by rewrite app_nil_r|done].
Qed.

Lemma FileBuffer_Close_stores s cs :
  file_stores s cs → ∃ s', FileBuffer_Close gz s = (inr tt, s') ∧ file_stores s' cs ∧
    pending s' = None ∧ path s' = path s.
Proof.
  unfold file_stores, FileBuffer_Close, get, put, mbind, M_bind, mret, M_ret.
  destruct (pending s) as [q|] eqn:E.
  - intros (Hex & ds & ps & Hds & -> & ->). eexists. split; [reflexivity|].
    cbn [pending path ffs set_pending set_ffs]. split_and!; try done. by apply file_holds_append.
  - intros Hcs. exists s. rewrite E. by split_and!.
Qed.

Lemma FileBuffer_Reader_stores {C} (fn : Z → list Z → C → option error * C) c s cs :
  file_stores s cs →
  ∃ s', (cs = [] ∧ FileBuffer_Reader gz fn c s = (inr (None, c), s') ∧ file_stores s' []) ∨
    ∃ content, members gz cs content ∧
      let '(err, c') := fn (lenZ content) content c in
      FileBuffer_Reader gz fn c s = (inr (err, c'), s') ∧
      file_stores s' (match err with Some _ => cs | None => [] end).
Proof.
  intros H. destruct (FileBuffer_Close_stores s cs H) as (s1 & E & Hs & Hpend & Hpath).
  unfold FileBuffer_Reader, get, put, mbind, M_bind, mret, M_ret. rewrite E.
  unfold file_stores in Hs. rewrite Hpend in Hs. unfold file_holds in Hs.
  destruct (ffs s1 !! path s1) as [content|] eqn:Ef; cbn [default from_option id] in Hs.
  - destruct (lenZ content =? 0) eqn:E0.
    + destruct content; [|len_lia]. apply members_empty in Hs; [|done].
      eexists. left. split; [done|]. split; [reflexivity|]. unfold file_stores.
      cbn [pending path ffs set_ffs]. rewrite Hpend. apply file_holds_truncate.
    + destruct (fn (lenZ content) content c) as [[e|] c'] eqn:Efn.
      * eexists. right. exists content. split; [done|]. rewrite Efn. split; [reflexivity|].
        unfold file_stores. rewrite Hpend. unfold file_holds. by rewrite Ef.
      * eexists. right. exists content. split; [done|]. rewrite Efn. split; [reflexivity|].
        unfold file_stores. cbn [pending path ffs set_ffs]. rewrite Hpend. apply file_holds_truncate.
  - apply members_empty in Hs; [|done]. subst cs. exists s1. left. split_and!; try done.
    unfold file_stores. rewrite Hpend. unfold file_holds. rewrite Ef. apply members_nil.
Qed.

#[refine] Instance file_no_loss : @NoLoss gz FileBuffer (file_ops gz) := {
  holds s cs := ∃ ds, file_stores s ds ∧ cs ≡ₚ ds
}.
Proof.
  - intros s cs p (ds & Hs & Hp). destruct (FileBuffer_Write_stores s ds p Hs) as (s' & E & Hs').
    exists s'. split; [exact E|]. exists (ds ++ [p]). split; [done|]. by rewrite Hp.
  - intros C fn c s cs (ds & Hs & Hp). cbn [buf_Reader file_ops].
    destruct (FileBuffer_Reader_stores fn c s ds Hs) as (s' & [(-> & -> & Hs')|(content & Hm & Hrd)]).
    + left. split_and!; [done|done|by exists []].
    + destruct (fn (lenZ content) content c) as [err c'] eqn:Efn. destruct Hrd as [-> Hs'].
      right. exists ds, [], content. split_and!; [by rewrite app_nil_r|done|done|].
      destruct err; [by exists ds|by exists []].
Defined.

(** ** Properties *)

(** C20: Nothing is lost or handed out twice by a directory buffer: after any
    sequence of writes and of reads that succeed or fail, the chunks written are
    those in the contents that a successful read got, and those still held. *)
Theorem DirBuffer_no_loss d f ops :
  file_holds gz f (d +:+ "/ping.bin") [] → file_holds gz f (d +:+ "/pong.bin") [] →
  let '(s, contents) := @run _ (dir_ops gz) ops (mkDirState (NewDirBuffer d) f) [] in
  ∃ givens rs ws, Forall2 (members gz) givens contents ∧ dir_stores gz s rs ws ∧
    written ops ≡ₚ concat givens ++ rs ++ ws.
Proof.
  intros Hr Hw. pose proof (@run_no_loss gz _ _ dir_no_loss ops (mkDirState (NewDirBuffer d) f) [] []) as H.
  destruct (run _ ops _ []) as [s contents]. destruct H as (gs & kept & new & -> & Hg & (rs & ws & Hs & Hk) & Hp).
  { exists [], []. split; [by apply NewDirBuffer_stores|done]. }
  exists gs, rs, ws. cbn [app] in *. by rewrite Hp, Hk.
Qed.

(** The same of a file buffer. *)
Theorem FileBuffer_no_loss p f ops :
  file_holds gz f p [] →
  let '(s, contents) := @run _ (file_ops gz) ops (NewFileBuffer p f) [] in
  ∃ givens kept, Forall2 (members gz) givens contents ∧ file_stores s kept ∧
    written ops ≡ₚ concat givens ++ kept.
Proof.
  intros Hf. pose proof (@run_no_loss gz _ _ file_no_loss ops (NewFileBuffer p f) [] []) as H.
  destruct (run _ ops _ []) as [s contents]. destruct H as (gs & kept & new & -> & Hg & (ds & Hs & Hk) & Hp).
  { by exists []. }
  exists gs, ds. cbn [app] in *. by rewrite Hp, Hk.
Qed.

(** [HasData] reports whether the buffer holds anything and gathers it: what is
    in either file ends up, in one piece, in the file that the next [Reader] will
    hand out, and the other file is empty. *)
Theorem HasData_gathers s rs ws :
  dir_stores gz s rs ws →
  ∃ b s', HasData gz s = (b, None, s') ∧ dir_stores gz s' [] (ws ++ rs) ∧ (b = false → ws ++ rs = []).
Proof.
  intros H. destruct (HasData_stores gz gz_nonempty s rs ws H) as (b & s' & E & [Hs _] & Hb).
  by exists b, s'.
Qed.

End Implementations.

(** ** Witnesses: a stand-in for the gzip member that stores its contents *)

Definition gz0 (p : list Z) : list Z := [0x1f; 0x8b; 8] ++ p.

Lemma gz0_nonempty p : gz0 p ≠ [].
Proof. done. Qed.

Definition ops0 : list op :=
  [OWrite [1]; OWrite [2]; ORead false; OWrite [3]; ORead true; OWrite [4]; ORead true].

Lemma DirBuffer_no_loss_witness :
  let '(s, contents) := @run _ (dir_ops gz0) ops0 (mkDirState (NewDirBuffer "d") ∅) [] in
  ∃ givens rs ws, Forall2 (members gz0) givens contents ∧ dir_stores gz0 s rs ws ∧
    [[1]; [2]; [3]; [4]] ≡ₚ concat givens ++ rs ++ ws.
Proof.
  apply (DirBuffer_no_loss gz0 gz0_nonempty "d" ∅ ops0); apply members_nil.
Defined.

(** What the run does: the failed read leaves the first two chunks in the other
    file, so the next read hands out the third one, and the one after that the
    first two with the fourth, which was written behind them. *)
Lemma ops0_contents :
  snd (@run _ (dir_ops gz0) ops0 (mkDirState (NewDirBuffer "d") ∅) []) =
    [[0x1f; 0x8b; 8; 3]; [0x1f; 0x8b; 8; 1; 2; 0x1f; 0x8b; 8; 4]].
Proof. vm_compute. reflexivity. Qed.

Lemma FileBuffer_no_loss_witness :
  let '(s, contents) := @run _ (file_ops gz0) ops0 (NewFileBuffer "f" ∅) [] in
  ∃ givens kept, Forall2 (members gz0) givens contents ∧ file_stores gz0 s kept ∧
    [[1]; [2]; [3]; [4]] ≡ₚ concat givens ++ kept.
Proof. apply (FileBuffer_no_loss gz0 gz0_nonempty "f" ∅ ops0). apply members_nil. Defined.

Lemma HasData_gathers_witness : ∃ b s',
  HasData gz0 (mkDirState (NewDirBuffer "d")
    (<["d/ping.bin" := gz0 [1]]> (<["d/pong.bin" := gz0 [2]]> ∅))) = (b, None, s') ∧
  dir_stores gz0 s' [] [[2]; [1]] ∧ (b = false → [[2]; [1]] = @nil (list Z)).
Proof.
  apply (HasData_gathers gz0 gz0_nonempty (mkDirState (NewDirBuffer "d")
    (<["d/ping.bin" := gz0 [1]]> (<["d/pong.bin" := gz0 [2]]> ∅))) [[1]] [[2]]).
  split_and!; [done|done| |].
  - apply (members_one gz0 [[1]]).
  - apply (members_one gz0 [[2]]).
Defined.
