(* ===== verification/Pool.v ===== *)
(** * Pool: objects that are reused (sync.Pool)

    The program keeps buffers, loggers, iterators and gzip readers in pools.  An object
    is a handle into a store, so that two holders of one handle share the object; a
    pool is a list of handles that [Get] may give out again.  Which one it gives out, or
    that it gives out none and a new object is made, is an argument: [sync.Pool]
    promises nothing about it.

    [owned p hs] is the discipline under which sharing cannot be seen: no handle is
    both in the pool and held, and none is held twice. *)

From S2P Require Import Prelude.

Section Pool.
  Context {X : Type}.

Record Pool := mkPool { objects : list X; free : list nat }.

Implicit Types (p : Pool) (h : nat) (hs : list nat).

(** What a handle points to. *)
Definition deref (p : Pool) (h : nat) : option X := objects p !! h.

(** [*h = x] *)
Definition assign (h : nat) (x : X) (p : Pool) : Pool := mkPool (<[h := x]> (objects p)) (free p).

(** [pool.Get()]: an item of the pool, if there is one and the pool gives it. *)
Definition take_free (pick : option nat) (p : Pool) : option (nat * Pool) :=
  i ← pick; h ← free p !! i; Some (h, mkPool (objects p) (delete i (free p))).

(** A new object. *)
Definition alloc (x : X) (p : Pool) : nat * Pool :=
  (length (objects p), mkPool (objects p ++ [x]) (free p)).

(** [pool.Get()], and a new object [x] if it gives none. *)
Definition Get (x : X) (pick : option nat) (p : Pool) : nat * Pool :=
  match take_free pick p with Some r => r | None => alloc x p end.

(** [pool.Put(h)] *)
Definition Put (h : nat) (p : Pool) : Pool := mkPool (objects p) (h :: free p).

(** ** Ownership *)

Record owned p hs : Prop := {
  owned_once : NoDup (free p ++ hs);
  owned_valid : Forall (λ h, (h < length (objects p))%nat) (free p ++ hs)
}.

#[export] Instance owned_proper p : Proper ((≡ₚ) ==> iff) (owned p).
Proof.
  assert (∀ hs hs', hs ≡ₚ hs' → owned p hs → owned p hs') as H.
  { intros hs hs' E [H1 H2]. split; [by rewrite <- E|by rewrite <- E]. }
  intros hs hs' E. split; by apply H.
Qed.

Lemma owned_nil : owned (mkPool [] []) [].
Proof. split; [apply NoDup_nil_2|by apply Forall_nil]. Qed.

Lemma owned_valid_elem p hs h : owned p hs → h ∈ hs → (h < length (objects p))%nat.
Proof. intros [_ H] Hh. rewrite Forall_forall in H. apply H, elem_of_app. by right. Qed.

(** A held handle points to something. *)
Lemma owned_deref p hs h : owned p hs → h ∈ hs → ∃ x, deref p h = Some x.
Proof. intros H Hh. apply lookup_lt_is_Some, (owned_valid_elem p hs); done. Qed.

Lemma owned_take_free p hs pick h p' :
  owned p hs → take_free pick p = Some (h, p') →
  owned p' (h :: hs) ∧ (h ∉ hs) ∧ (h ∈ free p) ∧ objects p' = objects p.
Proof.
  intros [H1 H2]. unfold take_free. destruct pick as [i|]; [|done]. cbn [mbind option_bind].
  destruct (free p !! i) as [h1|] eqn:Ei; [|done]. cbn [mbind option_bind]. intros [= <- <-].
  assert (free p ++ hs ≡ₚ delete i (free p) ++ h1 :: hs) as Hp.
  { rewrite <- Permutation_middle. change (h1 :: delete i (free p) ++ hs) with ((h1 :: delete i (free p)) ++ hs).
    f_equiv. by apply delete_Permutation. }
  assert (NoDup (delete i (free p) ++ h1 :: hs)) as Hnd by by rewrite <- Hp.
  split; [split; cbn; [done|by rewrite <- Hp]|]. split; [|split; [by eapply list_elem_of_lookup_2|done]].
  apply NoDup_app in Hnd as (_ & _ & Hnd). by apply NoDup_cons in Hnd as [? _].
Qed.

Lemma owned_alloc p hs x :
  owned p hs → owned (alloc x p).2 ((alloc x p).1 :: hs) ∧ ((alloc x p).1 ∉ free p ++ hs).
Proof.
  intros [H1 H2]. assert (length (objects p) ∉ free p ++ hs) as Hn.
  { intros Hin. rewrite Forall_forall in H2. specialize (H2 _ Hin). lia. }
  split; [|done]. split; cbn.
  - rewrite <- Permutation_middle. by apply NoDup_cons.
  - rewrite Forall_app in *. destruct H2 as [H2 H3]. rewrite Forall_cons, length_app. cbn.
    split_and!; [|lia|]; (eapply Forall_impl; [eassumption|]; cbn; lia).
Qed.

(** What [Get] gives is nobody's, and what others hold stays as it is. *)
Lemma owned_Get p hs x pick h p' :
  owned p hs → Get x pick p = (h, p') →
  owned p' (h :: hs) ∧ (h ∉ hs) ∧ (∀ h', h' ∈ hs → deref p' h' = deref p h') ∧
  ((h ∈ free p) ∧ objects p' = objects p ∨ objects p' = objects p ++ [x] ∧ h = length (objects p)).
Proof.
  intros Ho. unfold Get. destruct (take_free pick p) as [[h0 p0]|] eqn:E.
  - intros [= -> ->]. destruct (owned_take_free p hs pick h p' Ho E) as (H1 & H2 & H3 & H4).
    split_and!; [done|done| |by left]. intros h' _. unfold deref. by rewrite H4.
  - destruct (owned_alloc p hs x Ho) as [H1 H2]. intros [= <- <-]. split_and!; [done| | |by right].
    + intros Hin. apply H2, elem_of_app. by right.
    + intros h' Hh'. unfold deref. cbn. apply lookup_app_l, (owned_valid_elem p hs); done.
Qed.

(** What stays in the pool stays as it is. *)
Lemma Get_free p hs x pick h p' h' :
  owned p hs → Get x pick p = (h, p') → h' ∈ free p' → (h' ∈ free p) ∧ deref p' h' = deref p h'.
Proof.
  intros [_ H2]. unfold Get, take_free. destruct (i ← pick; _) as [[h0 p0]|] eqn:E.
  - destruct pick as [i|]; [|done]. cbn in E. destruct (free p !! i); [|done]. cbn in E. injection E as <- <-.
    intros [= <- <-] Hh. cbn in Hh. split; [|done]. rewrite delete_take_drop in Hh.
    apply elem_of_app in Hh as [Hh|Hh].
    + by apply elem_of_take in Hh as (j & Hj & _); eapply list_elem_of_lookup_2.
    + eapply subseteq_drop. exact Hh.
  - intros [= <- <-] Hh. split; [done|]. apply lookup_app_l. rewrite Forall_forall in H2. apply H2, elem_of_app. by left.
Qed.

Lemma owned_Put p hs h : owned p (h :: hs) → owned (Put h p) hs.
Proof. intros [H1 H2]. rewrite <- Permutation_middle in H1, H2. by split. Qed.

Lemma owned_assign p hs h x : owned p hs → owned (assign h x p) hs.
Proof. intros [H1 H2]. split; cbn; [done|]. by rewrite length_insert. Qed.

Lemma deref_assign p hs h x : owned p hs → h ∈ hs → deref (assign h x p) h = Some x.
Proof. intros H Hh. apply list_lookup_insert_eq, (owned_valid_elem p hs); done. Qed.

Lemma deref_assign_ne p h h' x : h ≠ h' → deref (assign h x p) h' = deref p h'.
Proof. intros. by apply list_lookup_insert_ne. Qed.

(** Dropping a handle loses the object and nothing else. *)
Lemma owned_drop p hs h : owned p (h :: hs) → owned p hs.
Proof.
  intros [H1 H2]. rewrite <- Permutation_middle in H1. apply NoDup_cons in H1 as [_ H1]. split; [done|].
  rewrite Forall_app, Forall_cons in H2. rewrite Forall_app. tauto.
Qed.

Lemma owned_not_free p hs h : owned p hs → h ∈ hs → h ∉ free p.
Proof. intros [H1 _] Hh Hf. apply NoDup_app in H1 as (_ & H & _). by apply (H h). Qed.

End Pool.
Arguments Pool : clear implicits.

(** ** Pools of buffers *)

(** [b.B] *)
Definition content (p : Pool (list Z)) (h : nat) : list Z := default [] (deref p h).

(** The buffers [hs] have the same contents. *)
Definition agree (p p' : Pool (list Z)) (hs : list nat) : Prop := ∀ h, h ∈ hs → content p' h = content p h.

(** buffer.Pool of github.com/webmafia/fast is not part of the repository: [Get] gives a
    buffer that is empty and that nobody has, [Put] takes a buffer that nobody else has,
    or nil. *)
Class BufferPool := {
  buf_Get : option nat → Pool (list Z) → nat * Pool (list Z);
  buf_Put : option nat → Pool (list Z) → Pool (list Z);
  buf_Get_owned p hs pick h p' :
    owned p hs → buf_Get pick p = (h, p') →
    owned p' (h :: hs) ∧ (h ∉ hs) ∧ agree p p' hs ∧ content p' h = [];
  buf_Put_owned p hs h :
    owned p (h :: hs) → owned (buf_Put (Some h) p) hs ∧ agree p (buf_Put (Some h) p) hs;
  buf_Put_nil p hs : owned p hs → owned (buf_Put None p) hs ∧ agree p (buf_Put None p) hs
}.

Lemma content_assign p hs h b : owned p hs → h ∈ hs → content (assign h b p) h = b.
Proof. intros Ho Hh. unfold content. by rewrite (deref_assign p hs). Qed.

Lemma agree_assign p hs h b : h ∉ hs → agree p (assign h b p) hs.
Proof. intros Hh h' Hh'. unfold content. rewrite deref_assign_ne; [done|]. by intros ->. Qed.

Lemma agree_mono p p' hs hs' : agree p p' hs → hs' ⊆ hs → agree p p' hs'.
Proof. intros Ha Hs h Hh. by apply Ha, Hs. Qed.

(** A [sync.Pool] whose buffers are emptied when they are taken. *)
#[export] Program Instance sync_BufferPool : BufferPool := {
  buf_Get pick p := let '(h, p) := Get [] pick p in (h, assign h [] p);
  buf_Put b p := match b with Some h => Put h p | None => p end
}.
Next Obligation.
  intros p hs pick h p' Ho. cbn. destruct (Get [] pick p) as [h0 p0] eqn:E. intros [= -> <-].
  destruct (owned_Get p hs [] pick h p0 Ho E) as (H1 & H2 & H3 & _).
  split_and!; [by apply owned_assign|done| |apply (content_assign p0 (h :: hs)); [done|by left]].
  intros h' Hh'. unfold content. rewrite deref_assign_ne by (by intros ->). by rewrite H3.
Qed.
Next Obligation. intros p hs h Ho. cbn. split; [by apply owned_Put|done]. Qed.
Next Obligation. done. Qed.
