(* ===== verification/Instance.v ===== *)
(** * Instance: the queue and the worker (instance.go)

    Two levels.  The functions [sendToCli], [sendToFallbackCli],
    [flushFallbackToCli] and [maybeSetFb] are what the worker does to the client
    and the fallback buffer.  The step relation is the concurrent part: log
    calls check that the instance is open, then put their entry in the queue;
    the worker polls the queue, waits for a message, a tick or the close signal,
    and drains the queue before it ends.  Every communication is a step, so all
    interleavings are runs.

    The client is an interface: it can write, and it may be able to write batches,
    to reconnect and to close. *)

From stdpp Require Import gmap relations.
From S2P Require Import Prelude Types Errors Integer Headers Str Timestamp Object.
From S2P Require Import Dynamic Log Fallback.

(** io.Writer, BatchWriter, Reconnector and io.Closer of a client; the methods that
    a client need not have are optional. *)
Class ClientOps (C : Type) := {
  cli_Write : list Z → C → option error * C;
  cli_WriteBatch : option (list Z → Z → list Z → C → option error * C);
  cli_Reconnect : option (C → option error * C);
  cli_Close : option (C → option error * C)
}.

(** What a client has acknowledged: the messages that [Write] and the batches that
    [WriteBatch] took without an error. *)
Class ClientLedger (C : Type) `{ClientOps C} := {
  direct : C → list (list Z);
  batches : C → list (list Z);
  ledger_Write p c :
    let '(err, c') := cli_Write p c in
    batches c' = batches c ∧ direct c' = match err with None => direct c ++ [p] | Some _ => direct c end;
  ledger_WriteBatch f tag size r c :
    cli_WriteBatch = Some f →
    let '(err, c') := f tag size r c in
    direct c' = direct c ∧ batches c' = match err with None => batches c ++ [r] | Some _ => batches c end;
  ledger_Reconnect f c :
    cli_Reconnect = Some f →
    let '(_, c') := f c in direct c' = direct c ∧ batches c' = batches c
}.

(** Any client with a ledger beside it. *)
Definition recorded (C : Type) : Type := C * (list (list Z) * list (list Z)).

#[export] Instance recorded_ops {C} `{ClientOps C} : ClientOps (recorded C) := {
  cli_Write p c :=
    let '(err, c') := cli_Write p c.1 in
    (err, (c', match err with None => (c.2.1 ++ [p], c.2.2) | Some _ => c.2 end));
  cli_WriteBatch :=
    (λ f tag size r c,
      let '(err, c') := f tag size r c.1 in
      (err, (c', match err with None => (c.2.1, c.2.2 ++ [r]) | Some _ => c.2 end))) <$> cli_WriteBatch;
  cli_Reconnect := (λ f c, let '(err, c') := f c.1 in (err, (c', c.2))) <$> cli_Reconnect;
  cli_Close := (λ f c, let '(err, c') := f c.1 in (err, (c', c.2))) <$> cli_Close
}.

#[export] #[refine] Instance recorded_ledger {C} `{ClientOps C} : ClientLedger (recorded C) := {
  direct c := c.2.1;
  batches c := c.2.2
}.
Proof.
  - intros p [c l]. cbn. by destruct (cli_Write p c) as [[e|] c'].
  - intros f tag size r [c l]. cbn. intros (g & _ & ->)%fmap_Some. cbn.
    by destruct (g tag size r c) as [[e|] c'].
  - intros f [c l]. cbn. intros (g & _ & ->)%fmap_Some. cbn. by destruct (g c) as [[e|] c'].
Defined.

Definition strSize (l : Z) : Z :=
  if l <=? 31 then l + 1
  else if l <=? 0xFF then l + 2
  else if l <=? 0xFFFF then l + 3
  else l + 5.

Section Worker.
  Context {C : Type} `{ClientOps C}.
  Variable gz : list Z → list Z.

(** The part of the instance that the worker owns. *)
Record Inst := mkInst { fb : bool; cli : C; fallback : DirState }.

Definition errNoFallback : error :=
  Errorf "WriteBehavior set to 'Fallback', but no Fallblack provided" [].
Definition errNoBatchWriter : error :=
  Errorf "WriteBehavior set to 'Fallback', but client doesn't implement BatchWriter" [].

(** The options of a new instance, or the error of [NewInstance]. *)
Definition NewInstance (options : list Options) : error + Options :=
  let opt := match options with
             | opt :: _ => opt
             | [] => mkOptions [] 0 Block false EMERG
             end in
  let opt := setDefaults opt in
  if bool_decide (Behavior opt = Fallback) then
    if negb (has_fallback opt) then inl errNoFallback
    else match cli_WriteBatch with
         | None => inl errNoBatchWriter
         | Some _ => inr opt
         end
  else inr opt.

(** A call of a method of [opt.Fallback], which is a pointer and may be nil: every
    method of the buffer begins by locking the mutex in it. *)
Definition on_fallback {A} (opt : Options) (f : Inst → A) (s : Inst) : go A :=
  if has_fallback opt then Ret (f s) else Panic NilPointer.

(** [Fallback.Write(p)]: the state after it. *)
Definition fallback_write (p : list Z) (s : Inst) : Inst :=
  mkInst (fb s) (cli s) (Fallback.Write p (fallback s)).2.

Definition sendToFallbackCli (opt : Options) (b : list Z) (s : Inst) : go Inst :=
  let strip := 1 + strSize (lenZ (Tag opt)) in
  s ← on_fallback opt (fallback_write [Z.lor 0x90 2]) s;
  rest ← reslice_from (sl b) strip;
  on_fallback opt (fallback_write (live rest)) s.

Definition sendToCli (opt : Options) (b : list Z) (s : Inst) : go Inst :=
  if fb s then sendToFallbackCli opt b s else
  let '(err, c) := cli_Write b (cli s) in
  let s := mkInst (fb s) c (fallback s) in
  match err with
  | Some _ =>
    if bool_decide (Behavior opt = Fallback) then
      sendToFallbackCli opt b (mkInst true (cli s) (fallback s))
    else Ret s
  | None => Ret s
  end.

(** [Fallback.Reader] with a function that calls [WriteBatch]: its error, and the
    state after it.  A client that cannot write batches fails the assertion. *)
Definition read_fallback (opt : Options) (s : Inst) : go (option error * Inst) :=
  match cli_WriteBatch with
  | None => Panic (if has_fallback opt then NotImplemented else NilPointer)
  | Some batch =>
    on_fallback opt (λ s,
      match Fallback.Reader gz (λ size r c, batch (Tag opt) size r c) (cli s) (fallback s) with
      | (inl e, d) => (Some e, mkInst (fb s) (cli s) d)
      | (inr (err, c), d) => (err, mkInst (fb s) c d)
      end) s
  end.

Definition flushFallbackToCli (opt : Options) (s : Inst) : go (option error * Inst) :=
  if negb (fb s) then Ret (None, s) else
  '(err, s) ← read_fallback opt s;
  match err with
  | None => Ret (None, mkInst false (cli s) (fallback s))
  | Some _ =>
    match cli_Reconnect with
    | None => Ret (err, mkInst false (cli s) (fallback s))
    | Some reconnect =>
      let '(err, c) := reconnect (cli s) in
      let s := mkInst (fb s) c (fallback s) in
      match err with
      | Some e => Ret (Some e, s)
      | None =>
        '(err, s) ← read_fallback opt s;
        match err with
        | Some e => Ret (Some e, s)
        | None => Ret (None, mkInst false (cli s) (fallback s))
        end
      end
    end
  end.

Definition maybeSetFb (opt : Options) (s : Inst) : go (option error * Inst) :=
  if bool_decide (Behavior opt = Fallback) then
    on_fallback opt (λ s,
      let '(ok, err, d) := Fallback.HasData gz (fallback s) in (err, mkInst ok (cli s) d)) s
  else Ret (None, s).

(** What [Close] does once the worker is gone: it closes the fallback buffer, then
    the client. *)
Definition Close_rest (opt : Options) (s : Inst) : option error * Inst :=
  let '(err, d) := if has_fallback opt then Fallback.Close gz (fallback s) else (inr tt, fallback s) in
  let s := mkInst (fb s) (cli s) d in
  match err with
  | inl e => (Some e, s)
  | inr _ =>
    match cli_Close with
    | None => (None, s)
    | Some f => let '(err, c) := f (cli s) in (err, mkInst (fb s) c (fallback s))
    end
  end.

(** ** The queue *)

(** Where the worker is: before its loop, at the poll of the queue, blocked in the
    second select, draining after the close signal, or gone. *)
Inductive Phase := Starting | Poll | Wait | Drain | Done.

(** [inflight] are the entries of log calls that have passed the check for a closed
    instance; [waiting] those of calls that are blocked on the full queue.  The
    last three fields are histories: the entries that got into the queue or wait
    for it, those that the worker took out, and those that were dropped. *)
Record State := mkState {
  inst : Inst;
  closed : bool;
  phase : Phase;
  inflight : list (list Z);
  queue : list (list Z);
  waiting : list (list Z);
  accepted : list (list Z);
  processed : list (list Z);
  dropped : list (list Z)
}.

(** [queueMessage] *)
Definition queueMessage (opt : Options) (b : list Z) (s : State) : State :=
  if lenZ (queue s) <? BufferSize opt then
    mkState (inst s) (closed s) (phase s) (inflight s) (queue s ++ [b]) (waiting s)
      (accepted s ++ [b]) (processed s) (dropped s)
  else
    match Behavior opt with
    | Block | Fallback =>
      mkState (inst s) (closed s) (phase s) (inflight s) (queue s) (waiting s ++ [b])
        (accepted s ++ [b]) (processed s) (dropped s)
    | Loose =>
      mkState (inst s) (closed s) (phase s) (inflight s) (queue s) (waiting s)
        (accepted s) (processed s) (dropped s ++ [b])
    end.

Definition set_inflight (s : State) (l : list (list Z)) : State :=
  mkState (inst s) (closed s) (phase s) l (queue s) (waiting s) (accepted s) (processed s) (dropped s).
Definition set_phase (s : State) (p : Phase) : State :=
  mkState (inst s) (closed s) p (inflight s) (queue s) (waiting s) (accepted s) (processed s) (dropped s).
Definition set_inst (s : State) (i : Inst) : State :=
  mkState i (closed s) (phase s) (inflight s) (queue s) (waiting s) (accepted s) (processed s) (dropped s).
Definition set_closed (s : State) : State :=
  mkState (inst s) true (phase s) (inflight s) (queue s) (waiting s) (accepted s) (processed s) (dropped s).

(** A receive from the queue: its first entry; the first blocked sender, if there
    is one, gets the free place. *)
Definition receive (s : State) : option (list Z * State) :=
  match queue s with
  | [] => None
  | b :: q =>
    let '(q, w) := match waiting s with
                   | [] => (q, [])
                   | m :: w => (q ++ [m], w)
                   end in
    Some (b, mkState (inst s) (closed s) (phase s) (inflight s) q w (accepted s)
               (processed s ++ [b]) (dropped s))
  end.

(** An entry as the log calls build it: it is long enough to be stripped. *)
Definition is_entry (opt : Options) (b : list Z) : Prop :=
  1 + strSize (lenZ (Tag opt)) ≤ lenZ b.

Section Steps.
  Variable opt : Options.

Inductive step : State → State → Prop :=
  (** a log call passes the check and builds its entry *)
  | step_log s b :
      closed s = false → is_entry opt b →
      step s (set_inflight s (inflight s ++ [b]))
  (** it reaches the queue *)
  | step_queue s l1 b l2 :
      inflight s = l1 ++ b :: l2 →
      step s (queueMessage opt b (set_inflight s (l1 ++ l2)))
  (** the worker starts *)
  | step_start s err i e2 i2 :
      phase s = Starting → maybeSetFb opt (inst s) = Ret (err, i) →
      flushFallbackToCli opt i = Ret (e2, i2) →
      step s (set_phase (set_inst s i2) Poll)
  (** a receive in the first or the second select, or while draining *)
  | step_receive s b s1 i :
      phase s = Poll ∨ phase s = Wait ∨ phase s = Drain → receive s = Some (b, s1) →
      sendToCli opt b (inst s1) = Ret i →
      step s (set_phase (set_inst s1 i) (match phase s with Drain => Drain | _ => Poll end))
  (** the first select finds the queue empty *)
  | step_idle s :
      phase s = Poll → queue s = [] → step s (set_phase s Wait)
  (** the ticker *)
  | step_tick s err i :
      phase s = Wait → flushFallbackToCli opt (inst s) = Ret (err, i) →
      step s (set_phase (set_inst s i) Poll)
  (** [Close] is called; a second call would panic *)
  | step_close s :
      closed s = false → step s (set_closed s)
  (** the second select sees it *)
  | step_shutdown s :
      phase s = Wait → closed s = true → step s (set_phase s Drain)
  (** nothing is left to drain *)
  | step_done s :
      phase s = Drain → queue s = [] → step s (set_phase s Done).

Definition initial (i : Inst) : State := mkState i false Starting [] [] [] [] [] [].

Definition reachable (i : Inst) (s : State) : Prop := rtc step (initial i) s.

(** The same steps as a function: an event says who moves. *)
Inductive event :=
  | ELog (b : list Z) | EQueue (n : nat) | EStart | EReceive | EIdle | ETick | EClose | EShutdown | EDone.

Definition is_phase (p q : Phase) : bool :=
  match p, q with
  | Starting, Starting | Poll, Poll | Wait, Wait | Drain, Drain | Done, Done => true
  | _, _ => false
  end.

Definition run_event (e : event) (s : State) : option State :=
  match e with
  | ELog b =>
    if negb (closed s) && (1 + strSize (lenZ (Tag opt)) <=? lenZ b)
    then Some (set_inflight s (inflight s ++ [b])) else None
  | EQueue n =>
    b ← inflight s !! n;
    Some (queueMessage opt b (set_inflight s (take n (inflight s) ++ drop (S n) (inflight s))))
  | EStart =>
    if is_phase (phase s) Starting then
      match
        '(_, i) ← maybeSetFb opt (inst s);
        flushFallbackToCli opt i
      with
      | Ret (_, i) => Some (set_phase (set_inst s i) Poll)
      | Panic _ => None
      end
    else None
  | EReceive =>
    if is_phase (phase s) Poll || is_phase (phase s) Wait || is_phase (phase s) Drain then
      '(b, s1) ← receive s;
      match sendToCli opt b (inst s1) with
      | Ret i => Some (set_phase (set_inst s1 i) (match phase s with Drain => Drain | _ => Poll end))
      | Panic _ => None
      end
    else None
  | EIdle => if is_phase (phase s) Poll && (length (queue s) =? 0)%nat then Some (set_phase s Wait) else None
  | ETick =>
    if is_phase (phase s) Wait then
      match flushFallbackToCli opt (inst s) with
      | Ret (_, i) => Some (set_phase (set_inst s i) Poll)
      | Panic _ => None
      end
    else None
  | EClose => if closed s then None else Some (set_closed s)
  | EShutdown => if is_phase (phase s) Wait && closed s then Some (set_phase s Drain) else None
  | EDone => if is_phase (phase s) Drain && (length (queue s) =? 0)%nat then Some (set_phase s Done) else None
  end.

Fixpoint run_events (es : list event) (s : State) : option State :=
  match es with
  | [] => Some s
  | e :: es => s ← run_event e s; run_events es s
  end.

(** ** The invariant *)

Record invariant (s : State) : Prop := {
  inv_fifo : accepted s = processed s ++ queue s ++ waiting s;
  inv_capacity : lenZ (queue s) ≤ BufferSize opt;
  inv_waiting : waiting s ≠ [] → lenZ (queue s) = BufferSize opt;
  inv_dropped : dropped s ≠ [] → Behavior opt = Loose;
  inv_loose : Behavior opt = Loose → waiting s = [];
  inv_closed : phase s = Drain ∨ phase s = Done → closed s = true;
  inv_entries : Forall (is_entry opt) (inflight s ++ queue s ++ waiting s)
}.

Lemma invariant_initial i : 0 < BufferSize opt → invariant (initial i).
Proof. intros Hcap. constructor; cbn; try done; [unfold lenZ; cbn; lia|by intros [[=]|[=]]]. Qed.

Lemma entries_app l1 l2 l3 :
  Forall (is_entry opt) (l1 ++ l2 ++ l3) ↔
  Forall (is_entry opt) l1 ∧ Forall (is_entry opt) l2 ∧ Forall (is_entry opt) l3.
Proof. by rewrite !Forall_app. Qed.

Lemma entries_snoc l b : Forall (is_entry opt) l → is_entry opt b → Forall (is_entry opt) (l ++ [b]).
Proof. intros. apply Forall_app. auto. Qed.

Lemma invariant_queueMessage s b :
  invariant s → is_entry opt b → invariant (queueMessage opt b s).
Proof.
  intros [H1 H2 H3 H4 H5 H6 H7] Hb. unfold queueMessage.
  apply entries_app in H7 as (Hi & Hq & Hw). destruct (lenZ (queue s) <? BufferSize opt) eqn:E.
  - assert (waiting s = []) as Ew.
    { destruct (waiting s) eqn:Ew; [done|]. specialize (H3 ltac:(done)). lia. }
    constructor; cbn; try done.
    + rewrite H1, Ew. by rewrite !app_nil_r, app_assoc.
    + len_lia.
    + apply entries_app. auto using entries_snoc.
  - destruct (Behavior opt) eqn:Eb; constructor; cbn; rewrite ?Eb; try done;
      try (intros _; lia); try (by rewrite H1, <- !app_assoc);
      apply entries_app; split_and!; auto using entries_snoc.
Qed.

Lemma invariant_receive s b s1 :
  invariant s → receive s = Some (b, s1) → invariant s1 ∧ is_entry opt b.
Proof.
  intros [H1 H2 H3 H4 H5 H6 H7]. unfold receive. destruct (queue s) as [|x q] eqn:Eq; [done|].
  rewrite !Forall_app in H7. destruct H7 as (Hi & Hq & Hw). apply Forall_cons in Hq as [Hx Hq].
  destruct (waiting s) as [|m w] eqn:Ew; intros [= <- <-]; (split; [|done]).
  - constructor; cbn; try done.
    + rewrite H1. by rewrite <- !app_assoc.
    + len_lia.
    + rewrite !Forall_app. auto.
  - apply Forall_cons in Hw as [Hm Hw]. specialize (H3 ltac:(done)). constructor; cbn; try done.
    + rewrite H1. by rewrite <- !app_assoc.
    + len_lia.
    + intros _. len_lia.
    + intros HL. by specialize (H5 HL).
    + rewrite !Forall_app. auto 10 using Forall_cons_2.
Qed.

Lemma receive_same s b s1 :
  receive s = Some (b, s1) →
  inst s1 = inst s ∧ closed s1 = closed s ∧ phase s1 = phase s ∧ inflight s1 = inflight s ∧
  accepted s1 = accepted s ∧ processed s1 = processed s ++ [b] ∧
  (length (queue s1 ++ waiting s1) < length (queue s ++ waiting s))%nat.
Proof.
  unfold receive. destruct (queue s) as [|x q]; [done|].
  destruct (waiting s) as [|m w]; intros [= <- <-]; cbn; split_and!; try done;
    rewrite ?length_app; cbn; rewrite ?length_app; cbn; lia.
Qed.

Lemma invariant_step s s' : invariant s → step s s' → invariant s'.
Proof.
  intros Hi Hs. pose proof Hi as [H1 H2 H3 H4 H5 H6 H7].
  destruct Hs as [s b Hc Hb|s l1 b l2 E|s err i e2 i2 Hp Hm Hf|s b s1 i Hp Hr Hsend|s Hp Hq
    |s err i Hp Hf|s Hc|s Hp Hc|s Hp Hq].
  - apply entries_app in H7 as (? & ? & ?). constructor; cbn; try done.
    apply entries_app. auto using entries_snoc.
  - apply entries_app in H7 as (Hi' & ? & ?). rewrite E, Forall_app, Forall_cons in Hi'.
    apply invariant_queueMessage; [|by apply Hi']. constructor; cbn; try done.
    apply entries_app. split_and!; try done. apply Forall_app. split; apply Hi'.
  - constructor; cbn; try done. by intros [[=]|[=]].
  - destruct (invariant_receive s b s1 Hi Hr) as [[G1 G2 G3 G4 G5 G6 G7] _].
    destruct (receive_same s b s1 Hr) as (_ & Ec & Ep & _).
    constructor; cbn; try done. rewrite Ec. intros Hph. apply H6.
    destruct (phase s); destruct Hph as [[=]|[=]]; auto.
  - constructor; cbn; try done. by intros [[=]|[=]].
  - constructor; cbn; try done. by intros [[=]|[=]].
  - constructor; cbn; try done.
  - constructor; cbn; try done.
  - constructor; cbn; try done. intros _. apply H6. auto.
Qed.

Lemma invariant_reachable i s : 0 < BufferSize opt → reachable i s → invariant s.
Proof.
  intros Hb Hr. assert (invariant (initial i)) as Hi by by apply invariant_initial.
  revert Hi. induction Hr as [|s1 s2 s3 Hs _ IH]; [done|]. intros Hi. by apply IH, (invariant_step s1).
Qed.

(** Once the worker is gone, nothing is processed any more. *)
Lemma step_Done s s' : step s s' → phase s = Done → phase s' = Done ∧ processed s' = processed s.
Proof.
  intros Hs Hd. destruct Hs; cbn; try done; try congruence;
    try (rewrite Hd in *; by intuition discriminate).
  unfold queueMessage. destruct (_ <? _); [done|]. by destruct (Behavior opt).
Qed.

(** The function and the relation are the same. *)
Lemma is_phase_true p q : is_phase p q = true ↔ p = q.
Proof. by destruct p, q. Qed.

Lemma run_event_sound e s s' : run_event e s = Some s' → step s s'.
Proof.
  destruct e as [b|n| | | | | | |]; cbn [run_event].
  - destruct (_ && _) eqn:E; [|done]. intros [= <-]. apply andb_true_iff in E as [Ec%negb_true_iff El].
    apply step_log; [done|]. unfold is_entry. lia.
  - destruct (inflight s !! n) as [b|] eqn:E; [|done]. intros [= <-].
    apply step_queue. by rewrite take_drop_middle.
  - destruct (is_phase _ _) eqn:Ep; [|done]. apply is_phase_true in Ep.
    destruct (maybeSetFb opt (inst s)) as [[e1 i1]|] eqn:Em; [|done]. cbn [mbind go_bind].
    destruct (flushFallbackToCli opt i1) as [[e2 i2]|] eqn:Ef; [|done]. intros [= <-]. by eapply step_start.
  - destruct (_ || _) eqn:Ep; [|done]. rewrite !orb_true_iff, !is_phase_true in Ep.
    destruct (receive s) as [[b s1]|] eqn:Er; [|done]. cbn [mbind option_bind].
    destruct (sendToCli opt b (inst s1)) as [i|] eqn:Es; [|done]. intros [= <-].
    eapply step_receive; [|done..]. tauto.
  - destruct (_ && _) eqn:E; [|done]. rewrite andb_true_iff, is_phase_true, Nat.eqb_eq in E.
    intros [= <-]. apply step_idle; [tauto|]. apply length_zero_iff_nil, E.
  - destruct (is_phase _ _) eqn:Ep; [|done]. apply is_phase_true in Ep.
    destruct (flushFallbackToCli opt (inst s)) as [[e2 i2]|] eqn:Ef; [|done]. intros [= <-]. by eapply step_tick.
  - destruct (closed s) eqn:E; [done|]. intros [= <-]. by apply step_close.
  - destruct (_ && _) eqn:E; [|done]. rewrite andb_true_iff, is_phase_true in E.
    intros [= <-]. apply step_shutdown; tauto.
  - destruct (_ && _) eqn:E; [|done]. rewrite andb_true_iff, is_phase_true, Nat.eqb_eq in E.
    intros [= <-]. apply step_done; [tauto|]. apply length_zero_iff_nil, E.
Qed.

Lemma run_event_complete s s' : step s s' → ∃ e, run_event e s = Some s'.
Proof.
  destruct 1 as [s b Hc Hb|s l1 b l2 E|s err i e2 i2 Hp Hm Hf|s b s1 i Hp Hr Hsend|s Hp Hq
    |s err i Hp Hf|s Hc|s Hp Hc|s Hp Hq].
  - exists (ELog b). cbn. unfold is_entry in Hb. rewrite Hc. destruct (_ <=? _) eqn:El; [done|lia].
  - exists (EQueue (length l1)). cbn. rewrite E, list_lookup_middle by done. cbn.
    rewrite take_app_length. replace (S (length l1)) with (length l1 + 1)%nat by lia.
    by rewrite <- drop_drop, drop_app_length.
  - exists EStart. cbn. rewrite Hp, Hm. cbn. by rewrite Hf.
  - exists EReceive. cbn. rewrite Hr. cbn. rewrite Hsend. by destruct Hp as [->|[->| ->]].
  - exists EIdle. cbn. by rewrite Hp, Hq.
  - exists ETick. cbn. by rewrite Hp, Hf.
  - exists EClose. cbn. by rewrite Hc.
  - exists EShutdown. cbn. by rewrite Hp, Hc.
  - exists EDone. cbn. by rewrite Hp, Hq.
Qed.

Lemma run_events_reachable es i s : run_events es (initial i) = Some s → reachable i s.
Proof.
  unfold reachable. generalize (initial i). induction es as [|e es IH]; intros t; cbn [run_events].
  - intros [= ->]. done.
  - destruct (run_event e t) as [u|] eqn:E; [|done]. cbn [mbind option_bind]. intros Hs.
    eapply rtc_l; [by eapply run_event_sound|by apply IH].
Qed.

(** ** The worker cannot panic *)

(** What [NewInstance] makes sure of. *)
Definition configured : Prop :=
  0 < BufferSize opt ∧
  (Behavior opt = Fallback → has_fallback opt = true ∧ is_Some (cli_WriteBatch (C := C))).

Definition fb_ok (i : Inst) : Prop := fb i = true → Behavior opt = Fallback.

Lemma strSize_pos l : 0 ≤ l → 0 ≤ 1 + strSize l.
Proof. unfold strSize. repeat case_match; lia. Qed.

(** The two chunks of an entry in the fallback buffer. *)
Definition strip (b : list Z) : list Z := drop (Z.to_nat (1 + strSize (lenZ (Tag opt)))) b.
Definition chunks (b : list Z) : list (list Z) := [[0x92]; strip b].

Lemma on_fallback_Ret {A} (f : Inst → A) i : has_fallback opt = true → on_fallback opt f i = Ret (f i).
Proof. unfold on_fallback. by intros ->. Qed.

Lemma on_fallback_inv {A} (f : Inst → A) i a :
  on_fallback opt f i = Ret a → has_fallback opt = true ∧ a = f i.
Proof. unfold on_fallback. destruct (has_fallback opt); [by intros [= <-]|done]. Qed.

Lemma sendToFallbackCli_eq b i :
  has_fallback opt = true → is_entry opt b →
  sendToFallbackCli opt b i = Ret (fallback_write (strip b) (fallback_write [0x92] i)).
Proof.
  intros Hf Hb. pose proof (strSize_pos _ (lenZ_nonneg (Tag opt))). unfold is_entry in Hb.
  unfold sendToFallbackCli, reslice_from. cbv zeta. rewrite on_fallback_Ret by done. cbn [mbind go_bind].
  destruct (reslice_in_range (sl b) (1 + strSize (lenZ (Tag opt))) (slen (sl b))) as (t & -> & Ht & _);
    [lia|unfold slen; cbn; lia|done|].
  cbn [mbind go_bind]. rewrite on_fallback_Ret, Ht by done. unfold slen. cbn [sl live].
  rewrite firstn_all2; [done|]. rewrite length_drop. unfold lenZ. lia.
Qed.

Lemma sendToFallbackCli_inv b i i' :
  is_entry opt b → sendToFallbackCli opt b i = Ret i' →
  has_fallback opt = true ∧ i' = fallback_write (strip b) (fallback_write [0x92] i).
Proof.
  intros Hb E. destruct (has_fallback opt) eqn:Hf.
  - rewrite sendToFallbackCli_eq in E by done. by injection E as <-.
  - revert E. unfold sendToFallbackCli, on_fallback. by rewrite Hf.
Qed.

Lemma configured_fallback : configured → Behavior opt = Fallback → has_fallback opt = true.
Proof. intros [_ Hc] HF. by destruct (Hc HF). Qed.

Lemma sendToCli_total b i :
  configured → fb_ok i → is_entry opt b → ∃ i', sendToCli opt b i = Ret i'.
Proof.
  intros Hc Hi Hb. unfold sendToCli. destruct (fb i) eqn:Ef.
  { rewrite sendToFallbackCli_eq; eauto using configured_fallback. }
  destruct (cli_Write b (cli i)) as [[e|] c]; [|eauto].
  case_bool_decide; [|eauto]. rewrite sendToFallbackCli_eq; eauto using configured_fallback.
Qed.

Lemma read_fallback_total i :
  has_fallback opt = true → is_Some (cli_WriteBatch (C := C)) → ∃ r, read_fallback opt i = Ret r.
Proof. intros Hf [f E]. unfold read_fallback. rewrite E, on_fallback_Ret by done. eauto. Qed.

Lemma maybeSetFb_total i : configured → ∃ e i', maybeSetFb opt i = Ret (e, i').
Proof.
  intros Hc. unfold maybeSetFb. case_bool_decide; [|eauto].
  rewrite on_fallback_Ret by by apply configured_fallback.
  destruct (HasData gz (fallback i)) as [[ok e] d]. eauto.
Qed.

Lemma flushFallbackToCli_total i :
  configured → fb_ok i → ∃ e i', flushFallbackToCli opt i = Ret (e, i').
Proof.
  intros [_ Hc] Hi. unfold flushFallbackToCli. destruct (fb i) eqn:Ef; cbn [negb]; [|eauto].
  destruct (Hc (Hi Ef)) as [Hf Hb]. destruct (read_fallback_total i Hf Hb) as [[[e|] i1] ->]; cbn; [|eauto].
  destruct cli_Reconnect as [f|]; [|eauto]. destruct (f (cli i1)) as [[e'|] c]; [eauto|].
  destruct (read_fallback_total (mkInst (fb i1) c (fallback i1)) Hf Hb) as [[[e'|] i2] ->]; cbn; eauto.
Qed.

Lemma read_fallback_fb i e i' : read_fallback opt i = Ret (e, i') → fb i' = fb i.
Proof.
  unfold read_fallback. destruct cli_WriteBatch; [|done]. intros [_ E]%on_fallback_inv. revert E.
  destruct (Fallback.Reader _ _ _ _) as [[e1|[e1 c]] d]; by intros [= -> ->].
Qed.

Lemma sendToCli_fb_ok b i i' :
  is_entry opt b → fb_ok i → sendToCli opt b i = Ret i' → fb_ok i'.
Proof.
  intros Hb Hi. unfold sendToCli. destruct (fb i) eqn:Ef.
  - intros [_ ->]%sendToFallbackCli_inv; [|done]. intros _. by apply Hi.
  - destruct (cli_Write b (cli i)) as [[e|] c]; [|intros [= <-]; intros [=]; congruence].
    destruct (bool_decide _) eqn:Eb; [|intros [= <-]; intros [=]; congruence].
    intros _ _. by apply bool_decide_eq_true in Eb.
Qed.

Lemma flushFallbackToCli_fb_ok i e i' :
  fb_ok i → flushFallbackToCli opt i = Ret (e, i') → fb_ok i'.
Proof.
  intros Hi. unfold flushFallbackToCli. destruct (fb i) eqn:Ef; cbn [negb]; [|intros [= <- <-]; congruence].
  intros _ _. by apply Hi.
Qed.

Lemma maybeSetFb_fb_ok i e i' : fb_ok i → maybeSetFb opt i = Ret (e, i') → fb_ok i'.
Proof.
  intros Hi. unfold maybeSetFb. case_bool_decide; [|by intros [= <- <-]]. by intros _ _.
Qed.

Lemma inst_queueMessage b s : inst (queueMessage opt b s) = inst s.
Proof. unfold queueMessage. destruct (_ <? _); [done|]. by destruct (Behavior opt). Qed.

(** A property of what the worker owns holds in every reachable state if what the
    worker does keeps it; [P] may speak of the entries processed so far. *)
Lemma worker_induction (P : Inst → list (list Z) → Prop) i s :
  0 < BufferSize opt →
  (∀ i ps b i', P i ps → is_entry opt b → sendToCli opt b i = Ret i' → P i' (ps ++ [b])) →
  (∀ i ps e i', P i ps → flushFallbackToCli opt i = Ret (e, i') → P i' ps) →
  (∀ i ps e i', P i ps → maybeSetFb opt i = Ret (e, i') → P i' ps) →
  P i [] → reachable i s → P (inst s) (processed s).
Proof.
  intros Hcap Hsend Hflush Hmaybe Hi Hr.
  assert (∀ s1 s2, rtc step s1 s2 → invariant s1 → P (inst s1) (processed s1) → P (inst s2) (processed s2))
    as Hind; [|by apply (Hind (initial i)); [|apply invariant_initial|]].
  clear i Hi s Hr. induction 1 as [|s1 s2 s3 Hs _ IH]; [done|]. intros Hinv HP.
  apply IH; [by apply (invariant_step s1)|]. clear IH s3.
  destruct Hs as [| | |s b s1 i Hp Hr Hsnd| | | | |]; cbn; eauto.
  - rewrite inst_queueMessage. unfold queueMessage. destruct (_ <? _); [done|]. by destruct (Behavior opt).
  - destruct (receive_same s b s1 Hr) as (Ei & _ & _ & _ & _ & -> & _).
    destruct (invariant_receive s b s1 Hinv Hr) as [_ Hb]. rewrite Ei in Hsnd. eauto.
Qed.

Lemma reachable_fb_ok i s : 0 < BufferSize opt → fb_ok i → reachable i s → fb_ok (inst s).
Proof.
  intros Hcap Hi. apply (worker_induction (λ i _, fb_ok i)); try done.
  - intros j ps b j' Hj Hb. by apply sendToCli_fb_ok.
  - intros j ps e j' Hj. by apply flushFallbackToCli_fb_ok.
  - intros j ps e j' Hj. by apply maybeSetFb_fb_ok.
Qed.

(** What the client's operations preserve holds of the client of a running instance.
    Batches have the instance's tag and their length. *)
Section Client.
  Context (J : C → Prop).
  Context (J_Write : ∀ p c, J c → J (cli_Write p c).2).
  Context (J_WriteBatch : ∀ f r c, cli_WriteBatch = Some f → J c → J (f (Tag opt) (lenZ r) r c).2).
  Context (J_Reconnect : ∀ f c, cli_Reconnect = Some f → J c → J (f c).2).

Lemma sendToFallbackCli_cli b i i' : sendToFallbackCli opt b i = Ret i' → cli i' = cli i.
Proof.
  unfold sendToFallbackCli, on_fallback. destruct (has_fallback opt); [|done]. cbn [mbind go_bind].
  destruct (reslice_from (sl b) _) as [rest|]; [|done]. go_simpl. by intros [= <-].
Qed.

Lemma sendToCli_client b i i' : J (cli i) → sendToCli opt b i = Ret i' → J (cli i').
Proof.
  intros Hi. unfold sendToCli. destruct (fb i); [intros E; by rewrite (sendToFallbackCli_cli _ _ _ E)|].
  pose proof (J_Write b (cli i) Hi) as Hw. destruct (cli_Write b (cli i)) as [[e|] c]; [|by intros [= <-]].
  case_bool_decide; [|by intros [= <-]]. intros E. by rewrite (sendToFallbackCli_cli _ _ _ E).
Qed.

Lemma read_fallback_client i e i' : J (cli i) → read_fallback opt i = Ret (e, i') → J (cli i').
Proof.
  intros Hi. unfold read_fallback. destruct cli_WriteBatch as [f|] eqn:Ef; [|done].
  intros [_ E]%on_fallback_inv. revert E.
  destruct (Reader gz _ (cli i) (fallback i)) as [[e'|[err c]] d] eqn:Er; [by intros [= -> ->]|].
  apply Reader_calls in Er as (content & Ec). intros [= -> ->].
  pose proof (J_WriteBatch f content (cli i) eq_refl Hi) as Hw. rewrite <- Ec in Hw. exact Hw.
Qed.

Lemma flushFallbackToCli_client i e i' : J (cli i) → flushFallbackToCli opt i = Ret (e, i') → J (cli i').
Proof.
  intros Hi. unfold flushFallbackToCli. destruct (fb i); cbn [negb]; [|by intros [= <- <-]].
  destruct (read_fallback opt i) as [[e1 i1]|] eqn:E1; [|done].
  apply (read_fallback_client _ _ _ Hi) in E1. go_simpl. destruct e1 as [e1|]; [|by intros [= <- <-]].
  destruct cli_Reconnect as [f|] eqn:Ef; [|by intros [= <- <-]].
  pose proof (J_Reconnect f (cli i1) eq_refl E1) as Hr. destruct (f (cli i1)) as [[e2|] c]; [by intros [= <- <-]|].
  destruct (read_fallback opt (mkInst (fb i1) c (fallback i1))) as [[e3 i3]|] eqn:E3; [|done].
  apply (read_fallback_client (mkInst (fb i1) c (fallback i1)) _ _ Hr) in E3. go_simpl.
  by destruct e3; intros [= <- <-].
Qed.

Lemma reachable_client i s : 0 < BufferSize opt → J (cli i) → reachable i s → J (cli (inst s)).
Proof.
  intros Hcap Hi. apply (worker_induction (λ i _, J (cli i))); [done|..|done].
  - intros j ps b j' Hj _. by apply sendToCli_client.
  - intros j ps e j' Hj. by apply flushFallbackToCli_client.
  - intros j ps e j' Hj. unfold maybeSetFb. case_bool_decide; [|by intros [= <- <-]].
    intros [_ E]%on_fallback_inv. revert E.
    by destruct (HasData gz (fallback j)) as [[ok e'] d]; intros [= -> ->].
Qed.

End Client.

(** ** Where the entries are *)

Section Ledger.
  Context `{!ClientLedger C} (gz_nonempty : ∀ p, gz p ≠ []).

(** Every entry of [ps] is in one place: acknowledged as a message by the client,
    in a batch that it acknowledged, or in one of the two files. *)
Definition accounted (i : Inst) (ps : list (list Z)) : Prop :=
  ∃ given rs ws,
    Forall2 (members gz) (flat_map chunks <$> given) (batches (cli i)) ∧
    dir_stores gz (fallback i) (flat_map chunks rs) (flat_map chunks ws) ∧
    ps ≡ₚ direct (cli i) ++ concat given ++ rs ++ ws.

Lemma fallback_write_stores p i rs ws :
  dir_stores gz (fallback i) rs ws → dir_stores gz (fallback (fallback_write p i)) rs (ws ++ [p]).
Proof.
  intros Hd. destruct (Write_stores gz (fallback i) rs ws p Hd) as (d & E & Hd').
  unfold fallback_write. by rewrite E.
Qed.

Lemma sendToFallbackCli_accounted b i i' ps :
  accounted i ps → is_entry opt b → sendToFallbackCli opt b i = Ret i' → accounted i' (ps ++ [b]).
Proof.
  intros (given & rs & ws & Hg & Hd & Hp) Hb. intros [_ ->]%sendToFallbackCli_inv; [|done].
  exists given, rs, (ws ++ [b]). split_and!; [done| |by rewrite Hp, <- !app_assoc].
  rewrite flat_map_app. cbn [flat_map chunks app]. change [[0x92]; strip b] with ([[0x92]] ++ [strip b]).
  rewrite app_assoc. by do 2 apply fallback_write_stores.
Qed.

Lemma sendToCli_accounted b i i' ps :
  Behavior opt = Fallback →
  accounted i ps → is_entry opt b → sendToCli opt b i = Ret i' → accounted i' (ps ++ [b]).
Proof.
  intros HF Ha Hb. unfold sendToCli. destruct (fb i); [by apply sendToFallbackCli_accounted|].
  pose proof (ledger_Write b (cli i)) as Hl. destruct Ha as (given & rs & ws & Hg & Hd & Hp).
  destruct (cli_Write b (cli i)) as [[e|] c]; destruct Hl as [Hl1 Hl2].
  - rewrite bool_decide_eq_true_2 by done. apply sendToFallbackCli_accounted; [|done].
    exists given, rs, ws. cbn. by rewrite Hl1, Hl2.
  - intros [= <-]. exists given, rs, ws. cbn. rewrite Hl1, Hl2. split_and!; try done.
    rewrite Hp, <- !app_assoc. f_equiv. rewrite (comm (++) [b]). by rewrite <- !app_assoc.
Qed.

Lemma read_fallback_accounted i e i' ps :
  accounted i ps → read_fallback opt i = Ret (e, i') → accounted i' ps.
Proof.
  intros (given & rs & ws & Hg & Hd & Hp). unfold read_fallback.
  destruct cli_WriteBatch as [f|] eqn:Ef; [|done]. intros [_ E]%on_fallback_inv. revert E.
  destruct (Reader_stores gz gz_nonempty (λ size r c, f (Tag opt) size r c) (cli i) (fallback i) _ _ Hd)
    as [(d & -> & Ew & [Hd' _] & _)|(d & content & Hm & Hrd)].
  - intros [= -> ->]. exists given, [], rs. cbn. destruct ws; [|done]. by rewrite app_nil_r in Hp.
  - pose proof (ledger_WriteBatch f (Tag opt) (lenZ content) content (cli i) Ef) as Hl.
    destruct (f _ _ content (cli i)) as [[e1|] c]; destruct Hrd as [-> [Hd' _]], Hl as [Hl1 Hl2];
      intros [= -> ->].
    + exists given, ws, rs. cbn. rewrite Hl1, Hl2. split_and!; try done. by rewrite Hp, (comm (++) rs).
    + exists (given ++ [ws]), [], rs. cbn. rewrite Hl1, Hl2, fmap_app. split_and!; [|done|].
      * apply Forall2_app; [done|]. by constructor.
      * rewrite Hp, concat_app. cbn. rewrite app_nil_r, <- !app_assoc. by rewrite (comm (++) rs).
Qed.

Lemma accounted_fb i i' ps :
  cli i' = cli i → fallback i' = fallback i → accounted i ps → accounted i' ps.
Proof. intros Hc Hf. unfold accounted. by rewrite Hc, Hf. Qed.

Lemma flushFallbackToCli_accounted i e i' ps :
  accounted i ps → flushFallbackToCli opt i = Ret (e, i') → accounted i' ps.
Proof.
  intros Ha. unfold flushFallbackToCli. destruct (fb i); cbn [negb]; [|by intros [= <- <-]].
  destruct (read_fallback opt i) as [[e1 i1]|] eqn:E1; [|done].
  apply (read_fallback_accounted _ _ _ _ Ha) in E1. cbn [mbind go_bind].
  destruct e1 as [e1|]; [|by intros [= <- <-]].
  destruct cli_Reconnect as [f|] eqn:Ef; [|by intros [= <- <-]].
  pose proof (ledger_Reconnect f (cli i1) Ef) as Hl.
  destruct (f (cli i1)) as [e2 c]. destruct Hl as [Hl1 Hl2].
  assert (accounted (mkInst (fb i1) c (fallback i1)) ps) as Ha'.
  { destruct E1 as (given & rs & ws & Hg & Hd & Hp). exists given, rs, ws. cbn. by rewrite Hl1, Hl2. }
  destruct e2; [by intros [= <- <-]|].
  destruct (read_fallback opt (mkInst _ c _)) as [[e3 i3]|] eqn:E3; [|done].
  apply (read_fallback_accounted _ _ _ _ Ha') in E3. cbn [mbind go_bind].
  destruct e3; intros [= <- <-]; done.
Qed.

Lemma maybeSetFb_accounted i e i' ps :
  accounted i ps → maybeSetFb opt i = Ret (e, i') → accounted i' ps.
Proof.
  intros (given & rs & ws & Hg & Hd & Hp). unfold maybeSetFb.
  case_bool_decide; [|intros [= <- <-]; by exists given, rs, ws].
  intros [_ E]%on_fallback_inv. revert E.
  destruct (HasData_stores gz gz_nonempty (fallback i) _ _ Hd) as (b & d & -> & [Hd' _] & _).
  intros [= -> ->]. exists given, [], (ws ++ rs). rewrite flat_map_app. split_and!; [done..|].
  by rewrite Hp, (comm (++) rs).
Qed.

End Ledger.

(** ** The end *)

Lemma drain_all s :
  configured → fb_ok (inst s) → invariant s → phase s = Drain →
  ∃ s', rtc step s s' ∧ phase s' = Done ∧ processed s' = accepted s ∧ inflight s' = inflight s.
Proof.
  intros Hc Hfb Hi Hp. pose proof Hc as [Hcap _]. remember (length (queue s ++ waiting s)) as n eqn:En.
  revert s Hfb Hi Hp En. induction (lt_wf n) as [n _ IH]. intros s Hfb Hi Hp En.
  destruct (receive s) as [[b s1]|] eqn:Hr.
  - destruct (receive_same s b s1 Hr) as (Ein & _ & _ & Ei & Ea & _ & Hlt).
    destruct (invariant_receive s b s1 Hi Hr) as [Hi1 Hb]. rewrite <- Ein in Hfb.
    destruct (sendToCli_total b (inst s1) Hc Hfb Hb) as [i Hs].
    pose proof (step_receive s b s1 i ltac:(auto) Hr Hs) as Hst. rewrite Hp in Hst.
    destruct (IH (length (queue s1 ++ waiting s1)) ltac:(lia) (set_phase (set_inst s1 i) Drain))
      as (s' & Hrtc & Hd & Hpr & Hfl); [by apply (sendToCli_fb_ok b (inst s1))|by apply (invariant_step s)|done|done|].
    exists s'. split_and!; [by eapply rtc_l|done| |by rewrite Hfl]. rewrite Hpr. apply Ea.
  - destruct (queue s) as [|b q] eqn:Eq.
    2:{ unfold receive in Hr. rewrite Eq in Hr. by destruct (waiting s). }
    exists (set_phase s Done). split_and!; [|done| |done].
    + apply rtc_once. by apply step_done.
    + cbn. destruct Hi as [-> _ Hw _ _ _ _]. rewrite Eq in *. destruct (waiting s); [by rewrite app_nil_r|].
      specialize (Hw ltac:(done)). unfold lenZ in Hw. cbn in Hw. lia.
Qed.

(** From anywhere but the end, a closed instance can get to the drain without a log
    call being made. *)
Lemma to_drain s :
  configured → fb_ok (inst s) → invariant s → closed s = true → phase s ≠ Done →
  ∃ s', rtc step s s' ∧ phase s' = Drain ∧ accepted s' = accepted s ∧ inflight s' = inflight s ∧
    invariant s' ∧ fb_ok (inst s').
Proof.
  intros Hc. remember (length (queue s ++ waiting s)) as n eqn:En. revert s En.
  induction (lt_wf n) as [n _ IH]. intros s En Hfb Hi Hcl Hnd.
  assert (∀ t, fb_ok (inst t) → invariant t → closed t = true → phase t = Poll →
    accepted t = accepted s → inflight t = inflight s → length (queue t ++ waiting t) = n →
    ∃ s', rtc step t s' ∧ phase s' = Drain ∧ accepted s' = accepted s ∧ inflight s' = inflight s ∧
      invariant s' ∧ fb_ok (inst s')) as Hpoll.
  { intros t Htfb Hti Htc Htp Hta Htf Htn. destruct (receive t) as [[b t1]|] eqn:Hr.
    - destruct (receive_same t b t1 Hr) as (Ein & Ec & _ & Ei & Ea & _ & Hlt).
      destruct (invariant_receive t b t1 Hti Hr) as [_ Hb]. rewrite <- Ein in Htfb.
      destruct (sendToCli_total b (inst t1) Hc Htfb Hb) as [i Hs].
      pose proof (step_receive t b t1 i ltac:(auto) Hr Hs) as Hst. rewrite Htp in Hst.
      destruct (IH (length (queue t1 ++ waiting t1)) ltac:(lia) (set_phase (set_inst t1 i) Poll))
        as (s' & Hrtc & Hd & Hac & Hin & Hi' & Hfb'); try done.
      { by apply (sendToCli_fb_ok b (inst t1)). }
      { by apply (invariant_step t). }
      { cbn. by rewrite Ec. }
      exists s'. split_and!; [by eapply rtc_l|done|rewrite Hac; cbn; congruence|rewrite Hin; cbn; congruence|done|done].
    - destruct (queue t) as [|b q] eqn:Eq.
      2:{ unfold receive in Hr. rewrite Eq in Hr. by destruct (waiting t). }
      pose proof (step_idle t Htp Eq) as H1.
      pose proof (step_shutdown (set_phase t Wait) eq_refl Htc) as H2.
      exists (set_phase (set_phase t Wait) Drain). split_and!; [|done..| |done].
      + eapply rtc_l; [done|]. by apply rtc_once.
      + eapply invariant_step; [|done]. by apply (invariant_step t). }
  destruct (phase s) eqn:Hp; [| | | |done].
  - destruct (maybeSetFb_total (inst s) Hc) as (e & i & Em).
    pose proof (maybeSetFb_fb_ok _ _ _ Hfb Em) as Hfb1.
    destruct (flushFallbackToCli_total i Hc Hfb1) as (e2 & i2 & Ef).
    pose proof (flushFallbackToCli_fb_ok _ _ _ Hfb1 Ef) as Hfb2.
    pose proof (step_start s e i e2 i2 Hp Em Ef) as Hst.
    destruct (Hpoll (set_phase (set_inst s i2) Poll)) as (s' & Hrtc & ?); try done.
    { by apply (invariant_step s). }
    exists s'. split; [by eapply rtc_l|done].
  - by apply Hpoll.
  - exists (set_phase s Drain). split_and!; [by apply rtc_once, step_shutdown|done..| |done].
    by apply (invariant_step s), step_shutdown.
  - by exists s.
Qed.

End Steps.

(** ** Properties *)

(** C11: The queue is first in, first out, and loses nothing: in every reachable
    state the entries accepted are those processed, then those in the queue, then
    those of the blocked calls, in that order.  The queue never exceeds its
    capacity, calls block only while it is full, and entries are dropped only
    under [Loose]. *)
Theorem queue_fifo opt i s :
  0 < BufferSize opt → reachable opt i s →
  accepted s = processed s ++ queue s ++ waiting s ∧
  lenZ (queue s) ≤ BufferSize opt ∧
  (waiting s ≠ [] → lenZ (queue s) = BufferSize opt) ∧
  (dropped s ≠ [] → Behavior opt = Loose) ∧ (Behavior opt = Loose → waiting s = []).
Proof. intros Hcap Hr. by destruct (invariant_reachable opt i s Hcap Hr). Qed.

Lemma accounted_reachable `{!ClientLedger C} opt i s old :
  (∀ p, gz p ≠ []) → 0 < BufferSize opt → Behavior opt = Fallback →
  accounted opt i old → reachable opt i s → accounted opt (inst s) (old ++ processed s).
Proof.
  intros Hgz Hcap HF Hi. apply (worker_induction opt (λ i ps, accounted opt i (old ++ ps))); try done.
  - intros j ps b j' Hj Hb. rewrite app_assoc. by apply sendToCli_accounted.
  - intros j ps e j' Hj. by apply flushFallbackToCli_accounted.
  - intros j ps e j' Hj. by apply maybeSetFb_accounted.
  - by rewrite app_nil_r.
Qed.

(** C1: With the fallback, no entry is lost, whatever the client's writes, batches and
    reconnections return: in every reachable state the entries that the worker
    took, and those on disk at the start, are each acknowledged by the client as
    a message, in a batch it acknowledged, or in the files of the fallback. *)
Theorem nothing_lost `{!ClientLedger C} opt i s old :
  (∀ p, gz p ≠ []) → 0 < BufferSize opt → Behavior opt = Fallback →
  accounted opt i old → reachable opt i s → accounted opt (inst s) (old ++ processed s).
Proof. apply accounted_reachable. Qed.

Lemma NewInstance_configured options opt : NewInstance options = inr opt → configured opt.
Proof.
  unfold NewInstance. set (o := match options with [] => _ | opt :: _ => opt end).
  assert (0 < BufferSize (setDefaults o)) as Hcap.
  { unfold setDefaults. cbn. destruct (BufferSize o <=? 0) eqn:E; lia. }
  destruct (bool_decide (Behavior (setDefaults o) = Fallback)) eqn:EF.
  - destruct (has_fallback (setDefaults o)) eqn:Eh; cbn [negb]; [|done].
    destruct cli_WriteBatch eqn:Eb; [|done]. intros [= <-]. split; [done|]. intros _. split; [done|].
    by rewrite Eb.
  - apply bool_decide_eq_false in EF. intros [= <-]. by split.
Qed.

(** C27: The worker of an instance that [NewInstance] returned never panics, though
    [opt.Fallback] may be nil and the client need not write batches: in every
    reachable state what it does when it starts, sending the next entry of the
    queue, and flushing the fallback all return. *)
Theorem worker_never_panics options opt i s :
  NewInstance options = inr opt → fb i = false → reachable opt i s →
  (∃ err i1, maybeSetFb opt (inst s) = Ret (err, i1) ∧ ∃ err2 i2, flushFallbackToCli opt i1 = Ret (err2, i2)) ∧
  (∀ b s1, receive s = Some (b, s1) → ∃ i', sendToCli opt b (inst s1) = Ret i') ∧
  (∃ err i', flushFallbackToCli opt (inst s) = Ret (err, i')).
Proof.
  intros HN Hfb Hr. apply NewInstance_configured in HN as Hc. pose proof Hc as [Hcap _].
  assert (fb_ok opt (inst s)) as Hok.
  { apply (reachable_fb_ok opt i); [done| |done]. intros Ht. congruence. }
  split_and!.
  - destruct (maybeSetFb_total opt (inst s) Hc) as (e & i1 & E). exists e, i1. split; [done|].
    eapply flushFallbackToCli_total; [done|]. by eapply maybeSetFb_fb_ok.
  - intros b s1 Hrec. destruct (receive_same s b s1 Hrec) as (Ein & _).
    apply sendToCli_total; [done|by rewrite Ein|].
    by destruct (invariant_receive opt s b s1 (invariant_reachable opt i s Hcap Hr) Hrec).
  - by apply flushFallbackToCli_total.
Qed.

(** C26: After [Close] the worker can always run to its end, and when it ends every
    entry that was accepted by then has been processed: the queue is drained. *)
Theorem Close_drains options opt i s :
  NewInstance options = inr opt → fb i = false → reachable opt i s →
  closed s = true → phase s ≠ Done →
  (∃ s', rtc (step opt) s s' ∧ phase s' = Done ∧ processed s' = accepted s) ∧
  (∀ s', step opt s s' → phase s' = Done → processed s' = accepted s').
Proof.
  intros HN Hfb Hr Hcl Hnd. apply NewInstance_configured in HN as Hc. pose proof Hc as [Hcap _].
  pose proof (invariant_reachable opt i s Hcap Hr) as Hi. split.
  - destruct (to_drain opt s) as (s1 & Hr1 & Hp1 & Ha1 & _ & Hi1 & Hf1); try done.
    { apply (reachable_fb_ok opt i); [done| |done]. intros Ht. congruence. }
    destruct (drain_all opt s1 Hc Hf1 Hi1 Hp1) as (s2 & Hr2 & Hp2 & Ha2 & _).
    exists s2. split_and!; [by etrans|done|congruence].
  - intros s' Hs Hd. destruct Hs; cbn in *; try congruence; try (by destruct (phase s)).
    + revert Hd. unfold queueMessage. destruct (_ <? _); [done|]. by destruct (Behavior opt).
    + destruct Hi as [-> _ Hw _ _ _ _]. rewrite H1 in *. destruct (waiting s); [by rewrite app_nil_r|].
      specialize (Hw ltac:(done)). unfold lenZ in Hw. cbn in Hw. lia.
Qed.

(** An entry whose log call passed the check before [Close] but reaches the
    queue after the worker's end stays there: once the worker is gone nothing is
    processed any more, though the queue still accepts entries. *)
Theorem Done_is_final opt s s' :
  phase s = Done → rtc (step opt) s s' → phase s' = Done ∧ processed s' = processed s.
Proof.
  intros Hd. induction 1 as [|s s1 s2 Hs _ IH]; [done|].
  destruct (step_Done opt s s1 Hs Hd) as [Hd1 E]. rewrite <- E. by apply IH.
Qed.

(** [Close] leaves nothing in the writers of the fallback: what it held is in the
    gzip members of its two files, in order, and the error is the client's. *)
Theorem Close_rest_closes opt s rs ws :
  has_fallback opt = true → dir_stores gz (fallback s) rs ws →
  ∃ err s', Close_rest opt s = (err, s') ∧ dir_closed gz (fallback s') rs ws ∧
    (err, cli s') = match cli_Close with None => (None, cli s) | Some f => f (cli s) end.
Proof.
  intros Hf Hd. unfold Close_rest. rewrite Hf.
  destruct (close_stores gz (fallback s) rs ws Hd) as (d & E & Hc & _).
  unfold Fallback.Close. rewrite E. cbn [cli fallback]. destruct cli_Close as [g|]; [|by do 2 eexists].
  destruct (g (cli s)) as [err c]. by do 2 eexists.
Qed.

(** C32: A flush can strand entries.  If both files hold chunks, the first batch,
    which is given those of the file just written, fails, and a reconnection
    succeeds, then the second [Reader] has changed files again: it hands out the
    other file.  If the client takes that, the flush reports success and the
    instance goes back to direct writes, while the chunks of the failed batch
    stay in the buffer and nothing but the other file has been sent. *)
Theorem flush_strands opt i rs ws batch reconnect c1 c2 e :
  (∀ p, gz p ≠ []) → fb i = true → has_fallback opt = true →
  cli_WriteBatch = Some batch → cli_Reconnect = Some reconnect →
  dir_stores gz (fallback i) rs ws → rs ≠ [] → ws ≠ [] →
  (∀ p, members gz ws p → batch (Tag opt) (lenZ p) p (cli i) = (Some e, c1)) →
  reconnect c1 = (None, c2) →
  (∀ p, members gz rs p → (batch (Tag opt) (lenZ p) p c2).1 = None) →
  ∃ p i', members gz rs p ∧ flushFallbackToCli opt i = Ret (None, i') ∧ fb i' = false ∧
    cli i' = (batch (Tag opt) (lenZ p) p c2).2 ∧ dir_stores gz (fallback i') [] ws.
Proof.
  intros Hgz Hfb Hf Eb Er Hd Hrs Hws H1 Hre H2. unfold flushFallbackToCli, read_fallback.
  rewrite Hfb, Eb, Er, on_fallback_Ret by done. cbn [negb].
  destruct (Reader_stores gz Hgz (λ size r c, batch (Tag opt) size r c) (cli i) (fallback i) rs ws Hd)
    as [(d & _ & -> & _)|(d & content & Hm & Hrd)]; [done|].
  rewrite (H1 content Hm) in Hrd. destruct Hrd as [-> [Hd1 _]]. cbn [mbind go_bind cli fb fallback].
  rewrite Hre, on_fallback_Ret by done.
  destruct (Reader_stores gz Hgz (λ size r c, batch (Tag opt) size r c) c2 d ws rs Hd1)
    as [(d2 & _ & -> & _)|(d2 & content2 & Hm2 & Hrd2)]; [done|].
  specialize (H2 content2 Hm2). exists content2. cbn [cli fallback].
  destruct (batch (Tag opt) (lenZ content2) content2 c2) as [err c3]. cbn [fst] in H2. subst err.
  destruct Hrd2 as [-> [Hd2 _]]. cbn. eexists. by split_and!.
Qed.

End Worker.

Arguments Inst : clear implicits.
Arguments State : clear implicits.

(** ** What is stored *)

Lemma lenZ_AppendString s : lenZ s < 2 ^ 32 → lenZ (AppendString [] s) = strSize (lenZ s).
Proof.
  intros Hs. unfold AppendString, strSize. cbv zeta. rewrite lenZ_app.
  repeat case_match; cbn [app]; len_lia.
Qed.

Lemma count_at_strip opt t n F :
  lenZ (Tag opt) < 2 ^ 32 →
  is_entry opt (count_at opt t n F) ∧
  strip opt (count_at opt t n F) = AppendTimestamp [] t [TsFluentd] ++ [0xde; 0] ++ u8 n :: F.
Proof.
  intros Ht. pose proof (lenZ_AppendString _ Ht) as Hl. unfold is_entry, strip, count_at. rewrite <- Hl.
  set (A := AppendString [] (Tag opt)). pose proof (lenZ_nonneg A).
  replace (AppendArrayHeader [] 3) with [0x93] by done. rewrite <- !app_assoc. split.
  - len_lia.
  - rewrite (app_assoc [0x93] A), (drop_app_length' ([0x93] ++ A)); [done|].
    rewrite length_app. cbn. unfold lenZ. lia.
Qed.

Section Stored.
  Context (json_Append : list Z → any → list Z * option error).
  Context (Sprintf : list Z → list any → list Z).

Lemma log_entry_stored opt l id sev msg args (sprintf : bool) frames n efs afs :
  loggable json_Append Sprintf opt l id sev msg args sprintf frames n efs afs →
  let fs := log_fields Sprintf opt id sev msg args frames n efs afs in
  lenZ fs < 256 →
  ∃ b, Logger_log json_Append Sprintf opt l id sev msg args sprintf frames = Ret b ∧
    is_entry opt b ∧
    encodes (OArray [OScalar (STime (id_time id) TsFluentd); record_obj fs]) (concat (chunks opt b)).
Proof.
  intros [Hn Ha [Hid Ht] Hsev Htag Hm [Hl Hefs] Hafs Hfr] fs Hfs.
  destruct (log_entry_count json_Append Sprintf opt l id sev msg args sprintf frames n efs afs)
    as (F & HF & E); try done.
  fold (log_fields Sprintf opt id sev msg args frames n efs afs) in HF, E. fold fs in HF, E.
  eexists. split; [exact E|].
  destruct (count_at_strip opt (id_time id) (lenZ fs) F) as [He Es]; [apply Htag|]. split; [done|].
  pose proof (lenZ_nonneg fs). unfold chunks. rewrite Es.
  assert (concat [[0x92]; AppendTimestamp [] (id_time id) [TsFluentd] ++ [0xde; 0] ++ u8 (lenZ fs) :: F] =
    AppendArrayHeader [] 2 ++ concat [AppendTimestamp [] (id_time id) [TsFluentd];
      (0xde :: be_enc 2 (lenZ fs)) ++ F]) as ->.
  { rewrite be_enc_2_byte by lia. cbn [concat]. by rewrite !app_nil_r. }
  apply encodes_array; [by apply AppendArrayHeader_header|].
  constructor; [by apply (scalar_encodes (STime (id_time id) TsFluentd))|].
  constructor; [apply record_encodes; [done|lia]|constructor].
Qed.

(** What the fallback stores for the entry of a log call: the entry can be
    stripped, and the two chunks written for it are together an encoding of
    [time, record], the entry without its tag. *)
Theorem stored_entry opt l id sev msg args (sprintf : bool) frames n efs afs :
  loggable json_Append Sprintf opt l id sev msg args sprintf frames n efs afs →
  let fs := log_fields Sprintf opt id sev msg args frames n efs afs in
  lenZ fs < 256 →
  ∃ b, Logger_log json_Append Sprintf opt l id sev msg args sprintf frames = Ret b ∧
    is_entry opt b ∧
    encodes (OArray [OScalar (STime (id_time id) TsFluentd); record_obj fs]) (concat (chunks opt b)).
Proof. apply log_entry_stored. Qed.

End Stored.

(** ** Witnesses *)

(** A client that follows a script: each operation takes its outcome from the list,
    and succeeds when the list is empty. *)
Abbreviation script := (list bool).

Definition outcome (c : script) : option error * script :=
  match c with
  | [] => (None, [])
  | ok :: c => ((if ok then None else Some ErrUnexpectedEOF), c)
  end.

#[export] Instance script_ops : ClientOps script := {
  cli_Write _ := outcome;
  cli_WriteBatch := Some (λ _ _ _, outcome);
  cli_Reconnect := Some outcome;
  cli_Close := None
}.

Definition opt1 : Options := mkOptions (str "app") 1 Fallback true EMERG.

(** The client's first write fails. *)
Definition i1 : Inst (recorded script) :=
  mkInst false ([false], ([], [])) (mkDirState (NewDirBuffer "d") ∅).

Definition e1 : list Z := AppendArrayHeader [] 3 ++ AppendString [] (str "app") ++ [1].
Definition e2 : list Z := AppendArrayHeader [] 3 ++ AppendString [] (str "app") ++ [2].

Lemma NewInstance1 : NewInstance (C := recorded script) [opt1] = inr opt1.
Proof. reflexivity. Qed.


(** Two entries are logged and the first is sent: the client's first write fails, so
    it goes to the fallback.  The instance is closed while the second call still
    holds its entry. *)
Definition events1 : list event :=
  [EStart; ELog e1; EQueue 0; ELog e2; EReceive; EIdle; EClose].

Definition s1 : State (recorded script) :=
  default (initial i1) (run_events gz0 opt1 events1 (initial i1)).

Lemma reachable1 : reachable gz0 opt1 i1 s1.
Proof. apply (run_events_reachable gz0 opt1 events1). vm_compute. reflexivity. Qed.

Lemma queue_fifo_witness :
  accepted s1 = processed s1 ++ queue s1 ++ waiting s1 ∧ lenZ (queue s1) ≤ 1 ∧
  (waiting s1 ≠ [] → lenZ (queue s1) = 1) ∧
  (dropped s1 ≠ [] → Fallback = Loose) ∧ (Fallback = Loose → waiting s1 = []).
Proof. refine (queue_fifo gz0 opt1 i1 s1 _ reachable1). by vm_compute. Defined.

(** Nothing is on disk at the start. *)
Lemma accounted1 : accounted gz0 opt1 i1 [].
Proof.
  exists [], [], []. split_and!; [constructor| |done].
  apply NewDirBuffer_stores; apply members_nil.
Qed.

Lemma nothing_lost_witness : accounted gz0 opt1 (inst s1) [e1].
Proof.
  refine (nothing_lost gz0 opt1 i1 s1 [] gz0_nonempty _ _ accounted1 reachable1); by vm_compute.
Defined.

Lemma worker_never_panics_witness :
  (∃ err i, maybeSetFb gz0 opt1 (inst s1) = Ret (err, i) ∧
    ∃ err2 i2, flushFallbackToCli gz0 opt1 i = Ret (err2, i2)) ∧
  (∀ b s2, receive s1 = Some (b, s2) → ∃ i', sendToCli opt1 b (inst s2) = Ret i') ∧
  (∃ err i', flushFallbackToCli gz0 opt1 (inst s1) = Ret (err, i')).
Proof. exact (worker_never_panics gz0 [opt1] opt1 i1 s1 NewInstance1 eq_refl reachable1). Defined.

Lemma Close_drains_witness :
  (∃ s', rtc (step gz0 opt1) s1 s' ∧ phase s' = Done ∧ processed s' = [e1]) ∧
  (∀ s', step gz0 opt1 s1 s' → phase s' = Done → processed s' = accepted s').
Proof.
  refine (Close_drains gz0 [opt1] opt1 i1 s1 NewInstance1 eq_refl reachable1 _ _); by vm_compute.
Defined.

(** The worker ends, then the second call queues its entry. *)
Definition s2 : State (recorded script) :=
  default (initial i1) (run_events gz0 opt1 (events1 ++ [EShutdown; EDone]) (initial i1)).
Definition s3 : State (recorded script) :=
  default s2 (run_events gz0 opt1 [EQueue 0] s2).

Lemma Done_is_final_witness :
  (phase s3 = Done ∧ processed s3 = [e1]) ∧ accepted s3 = [e1; e2] ∧ queue s3 = [e2].
Proof.
  split; [|by vm_compute].
  apply (Done_is_final gz0 opt1 s2 s3); [by vm_compute|].
  apply rtc_once, (run_event_sound gz0 opt1 (EQueue 0)). vm_compute. reflexivity.
Defined.

Lemma Close_rest_closes_witness :
  ∃ err s', Close_rest gz0 opt1 (inst s1) = (err, s') ∧
    dir_closed gz0 (fallback s') [] [[0x92]; [1]] ∧ (err, cli s') = (None, cli (inst s1)).
Proof.
  refine (Close_rest_closes gz0 opt1 (inst s1) [] [[0x92]; [1]] eq_refl _).
  split_and!; [done|done|apply members_nil|].
  vm_compute write. split_and!; [vm_compute; reflexivity|by eexists; vm_compute|].
  exists [], [[0x92]; [1]]. split_and!; [apply members_nil|done|done].
Defined.

(** Both files hold an entry; the client fails once. *)
Definition i2 : Inst (recorded script) :=
  mkInst true ([false], ([], [])) (mkDirState (NewDirBuffer "d")
    (<["d/ping.bin" := gz0 [1]]> (<["d/pong.bin" := gz0 [2]]> ∅))).

Definition batch2 (tag : list Z) (size : Z) (r : list Z) (c : recorded script) :
    option error * recorded script :=
  let '(err, c') := outcome c.1 in
  (err, (c', match err with None => (c.2.1, c.2.2 ++ [r]) | Some _ => c.2 end)).
Definition reconnect2 (c : recorded script) : option error * recorded script :=
  let '(err, c') := outcome c.1 in (err, (c', c.2)).

(** The client has then taken the other file, and nothing else. *)
Lemma flush_strands_witness : ∃ p i',
  members gz0 [[1]] p ∧ flushFallbackToCli gz0 opt1 i2 = Ret (None, i') ∧ fb i' = false ∧
  cli i' = ([], ([], [p])) ∧ dir_stores gz0 (fallback i') [] [[2]].
Proof.
  apply (flush_strands gz0 opt1 i2 [[1]] [[2]] batch2 reconnect2 ([], ([], [])) ([], ([], [])) ErrUnexpectedEOF
    gz0_nonempty); try done.
  split_and!; [done|done|apply (members_one gz0 [[1]])|apply (members_one gz0 [[2]])].
Defined.

Lemma stored_entry_witness :
  ∃ b, Logger_log json0 sprintf0 opt0 newLogger id0 INFO (str "hi %d")
      [ANum TInt 5; AString (str "k"); ABool true] true [] = Ret b ∧ is_entry opt0 b ∧
    encodes (OArray [OScalar (STime (mkTime 1735693323 7) TsFluentd); record_obj
      [(str "@id", OScalar (SUint 42)); (str "pri", OScalar (SUint 6));
       (str "message", OScalar (SStr (str "hi %d"))); (str "k", OScalar (SBool true))]])
      (concat (chunks opt0 b)).
Proof. apply (stored_entry _ _ _ _ _ _ _ _ _ _ _ _ _ loggable0). reflexivity. Defined.
