(* ===== verification/Buffers.v ===== *)
(** * Buffers: the buffers and loggers that an instance reuses

    Instance has the entries of the queue as lists of bytes and Log the fields of a
    logger as a list in its record.  In the program both are buffers of one pool, and
    loggers are objects of another (instance.go, logger.go, slog.go): a log call takes a
    buffer, builds its entry in it and puts it in the queue, the worker gives it back
    when it has been sent; [With] takes a logger and a buffer for its fields, [Release]
    gives both back.  Here they are handles into a store ([Pool]), so that a buffer
    that is given back too early or twice would be seen.

    [Buffers_refine] shows that it cannot be seen, if the application releases a logger
    once and not while it uses it: move by move, reading the store turns a run into one of
    a specification without pools, in which a logger is the value that Log computes for
    it and entries are lists of bytes in Instance.  [Release_twice] shows that the
    condition is needed. *)

From stdpp Require Import gmap relations.
From S2P Require Import Prelude Types Errors Integer Headers Str Timestamp Object.
From S2P Require Import Dynamic Log Fallback Pool Instance.

(** ** The calls of an application *)

Section Calls.
  Variable json_Append : list Z → any → list Z * option error.
  Variable Sprintf : list Z → list any → list Z.
  (** [hexid.IDFromTime] *)
  Variable IDFromTime : Time → ID.

Inductive Call :=
  | CLog (id : ID) (sev : Z) (msg : list Z) (args : list any) (sprintf : bool) (frames : list (list Z * Z))
  | CMetrics (now : Time) (args : list any)
  | CRecover (id : ID) (err : any) (frames : list (list Z * Z))
  | CSlog (now : Time) (rec : SlogRecord) (frames : list (list Z * Z)).

(** The entry that a call builds, from the fields of its logger. *)
Definition call_bytes (opt : Options) (c : Call) (l : Logger) : go (list Z) :=
  match c with
  | CLog id sev msg args sprintf frames =>
      Logger_log json_Append Sprintf opt l id sev msg args sprintf frames
  | CMetrics now args => metrics_entry json_Append opt now args
  | CRecover id err frames => Recover json_Append Sprintf opt l id err frames
  | CSlog now rec frames => slog_entry opt IDFromTime now rec frames l
  end.

End Calls.

(** A logger: [fieldData] points to a buffer. *)
Record LoggerObj := mkLoggerObj { l_fieldData : option nat; l_fieldCount : Z }.

(** A call between the closed check and the queue: its buffer is empty yet, and it has the
    logger's [fieldData] and [fieldCount] as its arguments; or its buffer holds the
    entry. *)
Inductive building :=
  | Begun (h : nat) (c : Call) (l : nat) (extraData : option nat) (extraCount : Z)
  | Built (h : nat).

Section Buffers.
  Context {C : Type} `{!ClientOps C, BP : !BufferPool}.
  Variable gz : list Z → list Z.
  Variable json_Append : list Z → any → list Z * option error.
  Variable Sprintf : list Z → list any → list Z.
  Variable IDFromTime : Time → ID.
  Variable opt : Options.

(** An instance with its pools.  [working] is the buffer that the worker has sent and not
    given back yet, [acquired] the loggers that the application has acquired and not
    released; the last three are histories, as in Instance. *)
Record Shared := mkShared {
  sh_inst : Inst C;
  sh_closed : bool;
  sh_phase : Phase;
  bufPool : Pool (list Z);
  logPool : Pool LoggerObj;
  calls : list building;
  sh_queue : list nat;
  sh_waiting : list nat;
  working : option nat;
  acquired : list nat;
  sh_accepted : list (list Z);
  sh_processed : list (list Z);
  sh_dropped : list (list Z)
}.

Implicit Types (s : Shared) (h l : nat).

Definition set_bufs s (p : Pool (list Z)) : Shared :=
  mkShared (sh_inst s) (sh_closed s) (sh_phase s) p (logPool s) (calls s) (sh_queue s) (sh_waiting s)
    (working s) (acquired s) (sh_accepted s) (sh_processed s) (sh_dropped s).
Definition set_loggers s (p : Pool LoggerObj) (ls : list nat) : Shared :=
  mkShared (sh_inst s) (sh_closed s) (sh_phase s) (bufPool s) p (calls s) (sh_queue s) (sh_waiting s)
    (working s) ls (sh_accepted s) (sh_processed s) (sh_dropped s).
Definition set_calls s (cs : list building) : Shared :=
  mkShared (sh_inst s) (sh_closed s) (sh_phase s) (bufPool s) (logPool s) cs (sh_queue s) (sh_waiting s)
    (working s) (acquired s) (sh_accepted s) (sh_processed s) (sh_dropped s).
Definition set_worker s (i : Inst C) (p : Phase) (w : option nat) : Shared :=
  mkShared i (sh_closed s) p (bufPool s) (logPool s) (calls s) (sh_queue s) (sh_waiting s)
    w (acquired s) (sh_accepted s) (sh_processed s) (sh_dropped s).
Definition close s : Shared :=
  mkShared (sh_inst s) true (sh_phase s) (bufPool s) (logPool s) (calls s) (sh_queue s) (sh_waiting s)
    (working s) (acquired s) (sh_accepted s) (sh_processed s) (sh_dropped s).

Definition logger s l : LoggerObj := default (mkLoggerObj None 0) (deref (logPool s) l).

(** What Log has for a logger. *)
Definition value (p : Pool (list Z)) (o : LoggerObj) : Log.Logger :=
  mkLogger (content p <$> l_fieldData o) (l_fieldCount o).

(** ** instance.go, logger.go and slog.go *)

(** [Instance.Logger] *)
Definition acquire (pick : option nat) s : nat * Shared :=
  let '(l, p) := Pool.Get (mkLoggerObj None 0) pick (logPool s) in
  (l, set_loggers s p (l :: acquired s)).

(** [Instance.Release]: its buffer, nil or not, goes back, and then the logger, cleared. *)
Definition put_back l s : Shared :=
  set_loggers s (Pool.Put l (assign l (mkLoggerObj None 0) (logPool s))) (filter (λ l', l' ≠ l) (acquired s)).

Definition Release l s : Shared := put_back l (set_bufs s (buf_Put (l_fieldData (logger s l)) (bufPool s))).

(** The part that [With] and [WithAttrs] share: a logger with a buffer that starts with
    the parent's fields, and the fields that [append] adds. *)
Definition derive (append : list Z → go (list Z * Z)) (pickL pickB : option nat) l s : go (nat * Shared) :=
  let '(n, s) := acquire pickL s in
  let '(h, p) := buf_Get pickB (bufPool s) in
  let '(b, count) :=
    match l_fieldData (logger s l) with
    | Some d => (content p h ++ content p d, l_fieldCount (logger s l))
    | None => (content p h, l_fieldCount (logger s n))
    end in
  '(b, k) ← append b;
  Ret (n, set_loggers (set_bufs s (assign h b p)) (assign n (mkLoggerObj (Some h) (u8 (count + k))) (logPool s))
            (acquired s)).

Definition With (args : list any) (pickL pickB : option nat) l s : go (nat * Shared) :=
  if bool_decide (args = []) then Ret (acquire pickL s)
  else derive (λ b, appendArgs json_Append b args) pickL pickB l s.

Definition WithAttrs (attrs : list Attr) (pickL pickB : option nat) l s : go (nat * Shared) :=
  derive (λ b, b ← appendSlogAttr_each b attrs; Ret (b, u8 (lenZ attrs))) pickL pickB l s.

Definition WithGroup (name : list Z) (pick : option nat) s : nat * Shared := acquire pick s.

(** A log call up to its buffer ... *)
Definition begin_call (c : Call) (pick : option nat) l s : Shared :=
  if sh_closed s then s else
  let '(h, p) := buf_Get pick (bufPool s) in
  set_calls (set_bufs s p) (calls s ++ [Begun h c l (l_fieldData (logger s l)) (l_fieldCount (logger s l))]).

(** ... and the entry in it. *)
Definition build (h : nat) (c : Call) (extraData : option nat) (extraCount : Z) (p : Pool (list Z)) :
    go (Pool (list Z)) :=
  b ← call_bytes json_Append Sprintf IDFromTime opt c (value p (mkLoggerObj extraData extraCount));
  Ret (assign h b p).

(** [queueMessage]: a buffer that is dropped goes back to the pool. *)
Definition queue_buffer h s : Shared :=
  if lenZ (sh_queue s) <? BufferSize opt then
    mkShared (sh_inst s) (sh_closed s) (sh_phase s) (bufPool s) (logPool s) (calls s) (sh_queue s ++ [h])
      (sh_waiting s) (working s) (acquired s) (sh_accepted s ++ [content (bufPool s) h]) (sh_processed s) (sh_dropped s)
  else
    match Behavior opt with
    | Block | Log.Fallback =>
      mkShared (sh_inst s) (sh_closed s) (sh_phase s) (bufPool s) (logPool s) (calls s) (sh_queue s)
        (sh_waiting s ++ [h]) (working s) (acquired s) (sh_accepted s ++ [content (bufPool s) h]) (sh_processed s)
        (sh_dropped s)
    | Loose =>
      mkShared (sh_inst s) (sh_closed s) (sh_phase s) (buf_Put (Some h) (bufPool s)) (logPool s) (calls s) (sh_queue s)
        (sh_waiting s) (working s) (acquired s) (sh_accepted s) (sh_processed s)
        (sh_dropped s ++ [content (bufPool s) h])
    end.

(** A receive from the queue, as in Instance. *)
Definition receive_buffer s : option (nat * Shared) :=
  match sh_queue s with
  | [] => None
  | h :: q =>
    let '(q, w) := match sh_waiting s with [] => (q, []) | m :: w => (q ++ [m], w) end in
    Some (h, mkShared (sh_inst s) (sh_closed s) (sh_phase s) (bufPool s) (logPool s) (calls s) q w (working s)
               (acquired s) (sh_accepted s) (sh_processed s ++ [content (bufPool s) h]) (sh_dropped s))
  end.

(** [bufPool.Put(b)] at the end of [sendToCli] and [sendToFallbackCli]. *)
Definition give_back h s : Shared :=
  set_worker (set_bufs s (buf_Put (Some h) (bufPool s))) (sh_inst s) (sh_phase s) None.

(** ** Runs *)

(** Who moves: the application with its loggers and calls, and the worker. *)
Inductive move :=
  | MLogger (pick : option nat)
  | MWith (l : nat) (args : list any) (pickL pickB : option nat)
  | MWithAttrs (l : nat) (attrs : list Attr) (pickL pickB : option nat)
  | MWithGroup (l : nat) (name : list Z) (pick : option nat)
  | MRelease (l : nat)
  | MBegin (l : nat) (c : Call) (pick : option nat)
  | MBuild (n : nat)
  | MQueue (n : nat)
  | MClose
  | MStart | MReceive | MPut | MIdle | MTick | MShutdown | MDone.

(** A call that uses the logger has not been built yet. *)
Definition uses (l : nat) (b : building) : bool :=
  match b with Begun _ _ l' _ _ => bool_decide (l' = l) | Built _ => false end.

(** The entry of a call is as long as its head; values with methods of their own could
    cut it. *)
Definition builds_entry (c : Call) (l : Log.Logger) : bool :=
  match call_bytes json_Append Sprintf IDFromTime opt c l with
  | Ret b => 1 + strSize (lenZ (Tag opt)) <=? lenZ b
  | Panic _ => false
  end.

Definition handed (m : go (nat * Shared)) : option (option nat * Shared) :=
  match m with Ret (n, s) => Some (Some n, s) | Panic _ => None end.

(** The moves that hand out a logger: its handle, and the state after them.  Loggers are
    used by those who hold them, and calls do not panic. *)
Definition run_handing (m : move) s : option (option nat * Shared) :=
  match m with
  | MLogger pick => handed (Ret (acquire pick s))
  | MWith l args pickL pickB => if decide (l ∈ acquired s) then handed (With args pickL pickB l s) else None
  | MWithAttrs l attrs pickL pickB =>
    if decide (l ∈ acquired s) then handed (WithAttrs attrs pickL pickB l s) else None
  | MWithGroup l name pick => if decide (l ∈ acquired s) then handed (Ret (WithGroup name pick s)) else None
  | _ => None
  end.

(** The others, if they can be made: a logger is released when no call uses it; the worker
    sends a buffer and gives it back. *)
Definition run_plain (m : move) s : option Shared :=
  match m with
  | MRelease l =>
    if decide (l ∈ acquired s) then if existsb (uses l) (calls s) then None else Some (Release l s) else None
  | MBegin l c pick =>
    if decide (l ∈ acquired s) then
      if builds_entry c (value (bufPool s) (logger s l)) then Some (begin_call c pick l s) else None
    else None
  | MBuild n =>
    match calls s !! n with
    | Some (Begun h c _ d k) =>
      match build h c d k (bufPool s) with
      | Ret p => Some (set_calls (set_bufs s p) (<[n := Built h]> (calls s)))
      | Panic _ => None
      end
    | _ => None
    end
  | MQueue n =>
    match calls s !! n with
    | Some (Built h) => Some (queue_buffer h (set_calls s (take n (calls s) ++ drop (S n) (calls s))))
    | _ => None
    end
  | MClose => if sh_closed s then None else Some (close s)
  | MPut => h ← working s; Some (give_back h s)
  | _ =>
    if working s is Some _ then None else
    match m, sh_phase s with
    | MStart, Starting =>
      match
        '(_, i) ← maybeSetFb gz opt (sh_inst s);
        flushFallbackToCli gz opt i
      with
      | Ret (_, i) => Some (set_worker s i Poll None)
      | Panic _ => None
      end
    | MReceive, (Poll | Wait | Drain) as ph =>
      '(h, s1) ← receive_buffer s;
      match sendToCli opt (content (bufPool s) h) (sh_inst s1) with
      | Ret i => Some (set_worker s1 i (match ph with Drain => Drain | _ => Poll end) (Some h))
      | Panic _ => None
      end
    | MIdle, Poll => if (length (sh_queue s) =? 0)%nat then Some (set_worker s (sh_inst s) Wait None) else None
    | MTick, Wait =>
      match flushFallbackToCli gz opt (sh_inst s) with
      | Ret (_, i) => Some (set_worker s i Poll None)
      | Panic _ => None
      end
    | MShutdown, Wait => if sh_closed s then Some (set_worker s (sh_inst s) Drain None) else None
    | MDone, Drain => if (length (sh_queue s) =? 0)%nat then Some (set_worker s (sh_inst s) Done None) else None
    | _, _ => None
    end
  end.

Definition run_move (m : move) s : option (option nat * Shared) :=
  match m with
  | MLogger _ | MWith _ _ _ _ | MWithAttrs _ _ _ _ | MWithGroup _ _ _ => run_handing m s
  | _ => s ← run_plain m s; Some (None, s)
  end.

(** A run, with what each of its moves handed out. *)
Fixpoint run_moves (ms : list move) s : option (list (option nat) * Shared) :=
  match ms with
  | [] => Some ([], s)
  | m :: ms =>
    '(r, s) ← run_move m s;
    '(rs, s) ← run_moves ms s;
    Some (r :: rs, s)
  end.

(** A new instance has empty pools. *)
Definition fresh_instance (i : Inst C) : Shared :=
  mkShared i false Starting (mkPool [] []) (mkPool [] []) [] [] [] None [] [] [] [].

(** ** What an application sees

    A state of Instance, and the loggers that the application has acquired as values of
    Log.  There are no pools: every move is a function of the handle it hands out, which
    must be new to the application. *)

Definition Spec : Type := State C * gmap nat Log.Logger.

Definition hand_out (r : option nat) (m : go Log.Logger) (x : Spec) : option Spec :=
  match r, m with
  | Some n, Ret lg => if decide (x.2 !! n = None) then Some (x.1, <[n := lg]> x.2) else None
  | _, _ => None
  end.

(** The moves that are events of Instance. *)
Definition event_of (m : move) : option event :=
  match m with
  | MQueue n => Some (EQueue n)
  | MClose => Some EClose
  | MStart => Some EStart
  | MReceive => Some EReceive
  | MIdle => Some EIdle
  | MTick => Some ETick
  | MShutdown => Some EShutdown
  | MDone => Some EDone
  | _ => None
  end.

Definition spec_move (m : move) (r : option nat) (x : Spec) : option Spec :=
  match m with
  | MLogger _ => hand_out r (Ret newLogger) x
  | MWith l args _ _ => lg ← x.2 !! l; hand_out r (Log.With json_Append lg args) x
  | MWithAttrs l attrs _ _ => lg ← x.2 !! l; hand_out r (Log.WithAttrs lg attrs) x
  | MWithGroup l name _ => lg ← x.2 !! l; hand_out r (Ret (Log.WithGroup lg name)) x
  | MRelease l => _ ← x.2 !! l; Some (x.1, delete l x.2)
  | MBegin l c _ =>
    lg ← x.2 !! l;
    if closed x.1 then Some x else
    match call_bytes json_Append Sprintf IDFromTime opt c lg with
    | Ret b => t ← run_event gz opt (ELog b) x.1; Some (t, x.2)
    | Panic _ => None
    end
  | MBuild _ | MPut => Some x
  | _ => e ← event_of m; t ← run_event gz opt e x.1; Some (t, x.2)
  end.

Fixpoint spec_moves (ms : list (move * option nat)) (x : Spec) : option Spec :=
  match ms with
  | [] => Some x
  | (m, r) :: ms => x ← spec_move m r x; spec_moves ms x
  end.

(** ** Reading the store *)

(** The entry of a call, built or not. *)
Definition entry_of (p : Pool (list Z)) (b : building) : list Z :=
  match b with
  | Begun _ c _ d k =>
    match call_bytes json_Append Sprintf IDFromTime opt c (value p (mkLoggerObj d k)) with
    | Ret b => b
    | Panic _ => []
    end
  | Built h => content p h
  end.

Definition erase s : State C :=
  mkState (sh_inst s) (sh_closed s) (sh_phase s) (map (entry_of (bufPool s)) (calls s))
    (map (content (bufPool s)) (sh_queue s)) (map (content (bufPool s)) (sh_waiting s))
    (sh_accepted s) (sh_processed s) (sh_dropped s).

Definition loggers s : gmap nat Log.Logger :=
  list_to_map (map (λ l, (l, value (bufPool s) (logger s l))) (acquired s)).

Definition spec_of s : Spec := (erase s, loggers s).

(** ** The invariant *)

Definition handle (b : building) : nat := match b with Begun h _ _ _ _ | Built h => h end.

(** Every buffer that someone has. *)
Definition handles s : list nat :=
  map handle (calls s) ++ sh_queue s ++ sh_waiting s ++ option_list (working s) ++
  omap (λ l, l_fieldData (logger s l)) (acquired s).

(** A call that has begun has the fields of a logger that is still acquired. *)
Definition call_ok s (b : building) : Prop :=
  match b with
  | Begun _ c l d k =>
      (l ∈ acquired s) ∧ logger s l = mkLoggerObj d k ∧ builds_entry c (value (bufPool s) (mkLoggerObj d k)) = true
  | Built _ => True
  end.

Record inv s : Prop := {
  inv_bufs : owned (bufPool s) (handles s);
  inv_logs : owned (logPool s) (acquired s);
  inv_free : ∀ l, l ∈ free (logPool s) → logger s l = mkLoggerObj None 0;
  inv_calls : Forall (call_ok s) (calls s)
}.

Lemma inv_fresh i : inv (fresh_instance i).
Proof. split; [apply owned_nil|apply owned_nil|set_solver|by constructor]. Qed.

Lemma loggers_lookup s l :
  NoDup (acquired s) →
  loggers s !! l = if decide (l ∈ acquired s) then Some (value (bufPool s) (logger s l)) else None.
Proof.
  intros Hnd. unfold loggers. set (f := λ l, (l, value (bufPool s) (logger s l))).
  assert ((map f (acquired s)).*1 = acquired s) as E by (rewrite <- list_fmap_compose; apply list_fmap_id).
  case_decide as Hl.
  - apply elem_of_list_to_map_1; [by rewrite E|]. by apply (list_elem_of_fmap_2 f).
  - apply not_elem_of_list_to_map_1. by rewrite E.
Qed.

(** ** Changes to the store that nobody sees *)

Lemma value_agree p p' hs o :
  agree p p' hs → (∀ h, l_fieldData o = Some h → h ∈ hs) → value p' o = value p o.
Proof.
  intros Ha Ho. unfold value. destruct (l_fieldData o) as [h|]; [|done]. cbn. by rewrite (Ha h) by auto.
Qed.

Lemma fields_held s l h : (l ∈ acquired s) → l_fieldData (logger s l) = Some h → h ∈ handles s.
Proof. intros Hl E. unfold handles. rewrite !elem_of_app. do 4 right. apply list_elem_of_omap. by exists l. Qed.

Lemma queue_held s h : (h ∈ sh_queue s) → h ∈ handles s.
Proof. intros Hh. unfold handles. rewrite !elem_of_app. auto. Qed.
Lemma waiting_held s h : (h ∈ sh_waiting s) → h ∈ handles s.
Proof. intros Hh. unfold handles. rewrite !elem_of_app. auto. Qed.
Lemma call_held s b : (b ∈ calls s) → handle b ∈ handles s.
Proof. intros Hb. unfold handles. rewrite !elem_of_app. left. by apply list_elem_of_fmap_2. Qed.

Lemma logger_agree s p l :
  agree (bufPool s) p (handles s) → (l ∈ acquired s) → value p (logger s l) = value (bufPool s) (logger s l).
Proof. intros Ha Hl. apply (value_agree _ _ (handles s)); [done|]. intros h. by apply fields_held. Qed.

(** A call that has begun, and its entry, by its logger. *)
Lemma call_ok_agree s p b :
  agree (bufPool s) p (handles s) → call_ok s b → b ∈ calls s →
  call_ok (set_bufs s p) b ∧ entry_of p b = entry_of (bufPool s) b.
Proof.
  intros Ha Hb Hin. destruct b as [h c l d k|h]; cbn.
  - destruct Hb as (Hl & El & Hc). pose proof (logger_agree s p l Ha Hl) as Hv. rewrite El in Hv. rewrite Hv.
    split; [|done]. by split_and!.
  - split; [done|]. apply Ha, (call_held s (Built h)), Hin.
Qed.

Lemma spec_of_set_bufs s p :
  inv s → agree (bufPool s) p (handles s) →
  spec_of (set_bufs s p) = spec_of s ∧ Forall (call_ok (set_bufs s p)) (calls s).
Proof.
  intros Hi Ha. pose proof (inv_calls s Hi) as Hc. rewrite Forall_forall in Hc. split.
  - unfold spec_of. f_equal.
    + unfold erase. cbn. f_equal; apply map_ext_in; intros x Hx%list_elem_of_In.
      * apply (call_ok_agree s p x Ha); auto.
      * by apply Ha, queue_held.
      * by apply Ha, waiting_held.
    + unfold loggers. cbn. f_equal. apply map_ext_in. intros l Hl%list_elem_of_In.
      by rewrite <- (logger_agree s p l Ha Hl).
  - apply Forall_forall. intros b Hb. apply (call_ok_agree s p b Ha); auto.
Qed.

(** A logger from the pool is empty and new to everyone. *)
Lemma acquire_inv s pick l s' :
  inv s → acquire pick s = (l, s') →
  inv s' ∧ (l ∉ acquired s) ∧ acquired s' = l :: acquired s ∧ logger s' l = mkLoggerObj None 0 ∧
  bufPool s' = bufPool s ∧ spec_of s' = (erase s, <[l := newLogger]> (loggers s)) ∧
  (∀ l', (l' ∈ acquired s) → logger s' l' = logger s l').
Proof.
  intros Hi. unfold acquire. destruct (Pool.Get _ pick (logPool s)) as [l0 p] eqn:E. intros [= -> <-].
  destruct (owned_Get _ _ _ _ _ _ (inv_logs s Hi) E) as (Ho & Hn & Hsame & Hnew).
  set (s1 := set_loggers s p (l :: acquired s)).
  assert (∀ l', (l' ∈ acquired s) → logger s1 l' = logger s l') as Hlog.
  { intros l' Hl'. unfold logger. cbn. by rewrite Hsame. }
  assert (logger s1 l = mkLoggerObj None 0) as Hl.
  { unfold logger. cbn. destruct Hnew as [[Hf Hp]|[Hp ->]].
    - unfold deref. rewrite Hp. by apply (inv_free s Hi).
    - unfold deref. rewrite Hp. by rewrite list_lookup_middle. }
  assert (omap (λ l, l_fieldData (logger s1 l)) (acquired s) = omap (λ l, l_fieldData (logger s l)) (acquired s)) as Hom.
  { apply list_omap_ext. apply Forall_Forall2_diag, Forall_forall. intros l' Hl'. by rewrite Hlog. }
  assert (handles s1 = handles s) as Hh.
  { unfold handles. cbn [acquired s1 set_loggers omap list_omap]. rewrite Hl. cbn. by rewrite Hom. }
  split_and!; try done.
  - split; [by rewrite Hh; apply (inv_bufs s Hi)|done| |].
    + intros l' Hl'. destruct (Get_free _ _ _ _ _ _ l' (inv_logs s Hi) E Hl') as [Hf Hd].
      unfold logger. cbn. rewrite Hd. by apply (inv_free s Hi).
    + eapply Forall_impl; [apply (inv_calls s Hi)|]. intros [h c l' d k|h]; cbn; [|done].
      intros (Hin & El & Hb). split_and!; [by right|by rewrite Hlog|done].
  - unfold spec_of. f_equal. unfold loggers. cbn [acquired s1 set_loggers map list_to_map foldr]. rewrite Hl.
    f_equal. f_equal. apply map_ext_in. intros l' Hl'%list_elem_of_In. by rewrite Hlog.
Qed.

(** ** The moves of the application *)

(** The move [m], which handed out [r], is that of the specification. *)
Definition refines m (r : option nat) s s' : Prop := inv s' ∧ spec_move m r (spec_of s) = Some (spec_of s').

Lemma acquired_NoDup s : inv s → NoDup (acquired s).
Proof. intros Hi. by pose proof (owned_once _ _ (inv_logs s Hi)) as (_ & _ & Hnd)%NoDup_app. Qed.

Lemma acquired_value s l :
  inv s → (l ∈ acquired s) → loggers s !! l = Some (value (bufPool s) (logger s l)).
Proof. intros Hi Hl. rewrite loggers_lookup by (by apply acquired_NoDup). by rewrite decide_True. Qed.

Lemma hand_out_new s s' n lg :
  inv s → (n ∉ acquired s) → spec_of s' = (erase s, <[n := lg]> (loggers s)) →
  hand_out (Some n) (Ret lg) (spec_of s) = Some (spec_of s').
Proof.
  intros Hi Hn ->. unfold hand_out, spec_of. cbn [fst snd]. case_decide as Hd; [done|]. destruct Hd.
  rewrite loggers_lookup by (by apply acquired_NoDup). by rewrite decide_False.
Qed.

Lemma acquire_hands s pick n s' :
  inv s → acquire pick s = (n, s') → inv s' ∧ hand_out (Some n) (Ret newLogger) (spec_of s) = Some (spec_of s').
Proof.
  intros Hi E. destruct (acquire_inv s pick n s' Hi E) as (Hi' & Hn & _ & _ & _ & Hs & _).
  split; [done|]. by apply hand_out_new.
Qed.

(** A logger that has just been acquired gets its fields. *)
Lemma give_fields s1 n rest h k :
  acquired s1 = n :: rest → (n ∉ rest) → logger s1 n = mkLoggerObj None 0 →
  owned (bufPool s1) (h :: handles s1) → owned (logPool s1) (acquired s1) →
  (∀ l, l ∈ free (logPool s1) → logger s1 l = mkLoggerObj None 0) →
  Forall (λ b, call_ok s1 b ∧ match b with Begun _ _ l _ _ => l ∈ rest | _ => True end) (calls s1) →
  let s2 := set_loggers s1 (assign n (mkLoggerObj (Some h) k) (logPool s1)) (acquired s1) in
  inv s2 ∧ erase s2 = erase s1 ∧
  loggers s2 = <[n := mkLogger (Some (content (bufPool s1) h)) k]> (loggers s1).
Proof.
  intros Ea Hn Hl Hb Hlp Hf Hc s2.
  assert (n ∈ acquired s1) as Hin by (rewrite Ea; by left).
  assert (logger s2 n = mkLoggerObj (Some h) k) as Hl2.
  { unfold logger. cbn. by rewrite (deref_assign _ _ _ _ Hlp Hin). }
  assert (∀ l, l ≠ n → logger s2 l = logger s1 l) as Hne.
  { intros l Hne. unfold logger. cbn. by rewrite deref_assign_ne by done. }
  assert (∀ l, l ∈ rest → logger s2 l = logger s1 l) as Hrest by (intros l Hr; apply Hne; by intros ->).
  assert (omap (λ l, l_fieldData (logger s2 l)) rest = omap (λ l, l_fieldData (logger s1 l)) rest) as Hom.
  { apply list_omap_ext, Forall_Forall2_diag, Forall_forall. intros l Hr. by rewrite Hrest. }
  split_and!; [|done|].
  - assert (handles s2 ≡ₚ h :: handles s1) as Hh.
    { unfold handles. cbn [acquired s2 set_loggers]. rewrite Ea. cbn [omap list_omap]. rewrite Hl2, Hl. cbn.
      change (list_omap _ _ ?f rest) with (omap f rest). rewrite Hom. solve_Permutation. }
    split; [by rewrite Hh|by apply owned_assign| |].
    + intros l Hfl. rewrite Hne; [by apply Hf|]. intros ->. by apply (owned_not_free _ _ _ Hlp Hin).
    + eapply Forall_impl; [exact Hc|]. intros [h' c l d k'|h'] [Hok Hr]; cbn in *; [|done].
      rewrite Hrest by done. exact Hok.
  - unfold loggers. cbn [acquired s2 set_loggers]. rewrite Ea. cbn [map list_to_map foldr]. rewrite Hl2.
    assert (map (λ l, (l, value (bufPool s2) (logger s2 l))) rest = map (λ l, (l, value (bufPool s1) (logger s1 l))) rest) as ->.
    { apply map_ext_in. intros l Hr%list_elem_of_In. by rewrite Hrest. }
    cbn. by rewrite insert_insert_eq.
Qed.

Lemma derive_refines append pickL pickB l s n s' lg :
  inv s → (l ∈ acquired s) → derive append pickL pickB l s = Ret (n, s') →
  lg = value (bufPool s) (logger s l) →
  ∃ b k, append (data lg) = Ret (b, k) ∧ inv s' ∧ (n ∉ acquired s) ∧
    spec_of s' = (erase s, <[n := mkLogger (Some b)
      (u8 (match fieldData lg with Some _ => fieldCount lg | None => 0 end + k))]> (loggers s)).
Proof.
  intros Hi Hl. unfold derive. destruct (acquire pickL s) as [n0 s1] eqn:Eq.
  destruct (acquire_inv s pickL n0 s1 Hi Eq) as (Hi1 & Hn & Ea & Hl0 & Eb & Hs1 & Hsame).
  destruct (buf_Get pickB (bufPool s1)) as [h p] eqn:Eg.
  destruct (buf_Get_owned _ _ _ _ _ (inv_bufs s1 Hi1) Eg) as (Hop & Hh & Hag & Hc).
  rewrite (Hsame l Hl), Hl0, Hc. intros E Hlg.
  assert (∀ d, l_fieldData (logger s l) = Some d → content p d = content (bufPool s) d) as Hd.
  { intros d Ed. rewrite Hag, Eb; [done|]. apply (fields_held s1 l); [rewrite Ea; by right|by rewrite Hsame]. }
  assert (∃ b k, append (data lg) = Ret (b, k) ∧ n0 = n ∧
    s' = set_loggers (set_bufs s1 (assign h b p))
      (assign n (mkLoggerObj (Some h) (u8 (match fieldData lg with Some _ => fieldCount lg | None => 0 end + k)))
        (logPool s1)) (acquired s1)) as (b & k & Happ & -> & ->).
  { subst lg. unfold data, value. cbn [fieldData fieldCount].
    destruct (l_fieldData (logger s l)) as [d|] eqn:Ed; cbn in E |- *.
    - rewrite Hd in E by done. destruct (append (content (bufPool s) d)) as [[b k]|]; [|done].
      cbn in E. injection E as <- <-. by exists b, k.
    - destruct (append []) as [[b k]|]; [|done]. cbn in E. injection E as <- <-. by exists b, k. }
  exists b, k. split; [done|].
  assert (agree (bufPool s1) (assign h b p) (handles s1)) as Hag2.
  { intros h' Hh'. unfold content. rewrite deref_assign_ne by (by intros ->). by apply Hag. }
  destruct (spec_of_set_bufs s1 (assign h b p) Hi1 Hag2) as [Hs2 Hc2].
  set (s2 := set_bufs s1 (assign h b p)) in *.
  pose proof (inv_calls s Hi) as Hcs. assert (calls s1 = calls s) as Ecs.
  { unfold acquire in Eq. destruct (Pool.Get _ _ _). by injection Eq as <- <-. }
  destruct (give_fields s2 n (acquired s) h
    (u8 (match fieldData lg with Some _ => fieldCount lg | None => 0 end + k))) as (Hi3 & He & Hls);
    [done|done|done|by apply owned_assign|apply (inv_logs s1 Hi1)|apply (inv_free s1 Hi1)| |].
  { change (calls s2) with (calls s1) in *. rewrite Ecs in *. rewrite Forall_forall in *. intros x Hx.
    split; [by apply Hc2|].
    specialize (Hcs x Hx). destruct x; [|done]. apply Hcs. }
  split; [exact Hi3|]. split; [done|]. unfold spec_of. f_equal.
  - etrans; [exact He|]. exact (f_equal fst (eq_trans Hs2 Hs1)).
  - etrans; [exact Hls|]. rewrite (f_equal snd (eq_trans Hs2 Hs1) : loggers s2 = _). cbn [snd]. rewrite insert_insert_eq.
    change (bufPool s2) with (assign h b p). by rewrite (content_assign p (h :: handles s1)) by (done || by left).
Qed.

Lemma With_refines args pickL pickB l s n s' :
  inv s → (l ∈ acquired s) → With args pickL pickB l s = Ret (n, s') →
  refines (MWith l args pickL pickB) (Some n) s s'.
Proof.
  intros Hi Hl. unfold With, refines, spec_move. cbn [spec_of snd]. rewrite (acquired_value s l Hi Hl). cbn [mbind option_bind].
  unfold Log.With. case_bool_decide as Ha.
  - intros [= E]. by eapply acquire_hands.
  - intros E. destruct (derive_refines _ _ _ _ _ _ _ _ Hi Hl E eq_refl) as (b & k & Happ & Hi' & Hn & Hs).
    split; [done|]. rewrite <- (hand_out_new s s' n _ Hi Hn Hs). f_equal. unfold data in Happ.
    destruct (fieldData (value _ _)) as [d|]; cbn in Happ; by rewrite Happ.
Qed.

Lemma WithAttrs_refines attrs pickL pickB l s n s' :
  inv s → (l ∈ acquired s) → WithAttrs attrs pickL pickB l s = Ret (n, s') →
  refines (MWithAttrs l attrs pickL pickB) (Some n) s s'.
Proof.
  intros Hi Hl E. unfold refines, spec_move. cbn [spec_of snd]. rewrite (acquired_value s l Hi Hl). cbn [mbind option_bind].
  destruct (derive_refines _ _ _ _ _ _ _ _ Hi Hl E eq_refl) as (b & k & Happ & Hi' & Hn & Hs).
  split; [done|]. rewrite <- (hand_out_new s s' n _ Hi Hn Hs). f_equal. unfold Log.WithAttrs. unfold data in Happ.
  destruct (fieldData (value _ _)) as [d|]; cbn in Happ;
    destruct (appendSlogAttr_each _ attrs) as [b'|]; [|done| |done]; cbn in Happ; by injection Happ as -> <-.
Qed.

Lemma put_back_acquired l s : inv s → (l ∈ acquired s) → acquired s ≡ₚ l :: acquired (put_back l s).
Proof.
  intros Hi Hl. pose proof (acquired_NoDup s Hi) as Hnd.
  apply NoDup_Permutation; [done|constructor; [|by apply NoDup_filter]|].
  - cbn. rewrite list_elem_of_filter. tauto.
  - intros l'. cbn. rewrite elem_of_cons, list_elem_of_filter. destruct (decide (l' = l)) as [->|]; tauto.
Qed.

Lemma put_back_logger l s l' : l' ≠ l → logger (put_back l s) l' = logger s l'.
Proof. intros Hne. unfold logger. cbn. change (deref (Pool.Put _ ?p) l') with (deref p l'). by rewrite deref_assign_ne by done. Qed.

Lemma put_back_handles l s :
  inv s → (l ∈ acquired s) → handles s ≡ₚ option_list (l_fieldData (logger s l)) ++ handles (put_back l s).
Proof.
  intros Hi Hl. set (s0 := put_back l s).
  assert (omap (λ l, l_fieldData (logger s0 l)) (acquired s0) = omap (λ l, l_fieldData (logger s l)) (acquired s0)) as Hom.
  { apply list_omap_ext, Forall_Forall2_diag, Forall_forall. intros l' Hl'. unfold s0. rewrite put_back_logger; [done|].
    intros ->. cbn in Hl'. rewrite list_elem_of_filter in Hl'. tauto. }
  unfold handles. rewrite Hom. rewrite (put_back_acquired l s Hi Hl) at 1. cbn [omap list_omap].
  change (list_omap _ _ ?f ?x) with (omap f x). fold s0. destruct (l_fieldData (logger s l)); cbn; solve_Permutation.
Qed.

Lemma put_back_inv l s : inv s → (l ∈ acquired s) → existsb (uses l) (calls s) = false → inv (put_back l s).
Proof.
  intros Hi Hl Hu. pose proof (inv_bufs s Hi) as Hb. rewrite (put_back_handles l s Hi Hl) in Hb. split.
  - destruct (l_fieldData (logger s l)); cbn in Hb; [by eapply owned_drop|done].
  - pose proof (inv_logs s Hi) as Hlp. rewrite (put_back_acquired l s Hi Hl) in Hlp. apply owned_Put.
    apply (owned_assign _ _ l (mkLoggerObj None 0)) in Hlp. exact Hlp.
  - intros l' [->|Hf]%elem_of_cons.
    + unfold logger. cbn. change (deref (Pool.Put _ ?p) l) with (deref p l).
      by rewrite (deref_assign _ _ _ _ (inv_logs s Hi) Hl).
    + rewrite put_back_logger; [by apply (inv_free s Hi)|]. intros ->. by apply (owned_not_free _ _ _ (inv_logs s Hi) Hl).
  - pose proof (inv_calls s Hi) as Hc. rewrite Forall_forall in *. intros b Hin.
    assert (uses l b = false) as Hub.
    { destruct (uses l b) eqn:E; [|done]. exfalso. revert Hu. apply not_false_iff_true.
      apply existsb_exists. exists b. split; [by apply list_elem_of_In|done]. }
    specialize (Hc b Hin). destruct b as [h c l' d k|h]; [|done]. cbn in Hub. apply bool_decide_eq_false in Hub.
    destruct Hc as (Hin' & El & Hbe). cbn [call_ok]. rewrite put_back_logger by done.
    split_and!; [|done|done]. cbn. by apply list_elem_of_filter.
Qed.

Lemma put_back_spec l s : inv s → spec_of (put_back l s) = (erase s, delete l (loggers s)).
Proof.
  intros Hi. pose proof (acquired_NoDup s Hi) as Hnd. unfold spec_of. f_equal. apply map_eq. intros l'.
  rewrite loggers_lookup by (by apply NoDup_filter). destruct (decide (l' = l)) as [->|Hne].
  - rewrite lookup_delete_eq, decide_False; [done|]. cbn. rewrite list_elem_of_filter. tauto.
  - rewrite lookup_delete_ne by done. rewrite loggers_lookup by done.
    destruct (decide (l' ∈ acquired s)) as [Hin|Hin]; destruct (decide (l' ∈ acquired (put_back l s))) as [Hin'|Hin'];
      try (exfalso; cbn in Hin'; rewrite list_elem_of_filter in Hin'; tauto); [|done].
    by rewrite put_back_logger by done.
Qed.

Lemma Release_refines l s :
  inv s → (l ∈ acquired s) → existsb (uses l) (calls s) = false → refines (MRelease l) None s (Release l s).
Proof.
  intros Hi Hl Hu. pose proof (put_back_inv l s Hi Hl Hu) as Hi0. set (s0 := put_back l s) in *.
  set (p := buf_Put (l_fieldData (logger s l)) (bufPool s)).
  assert (owned p (handles s0) ∧ agree (bufPool s0) p (handles s0)) as [Hop Hag].
  { pose proof (inv_bufs s Hi) as Hb. rewrite (put_back_handles l s Hi Hl) in Hb.
    unfold p. destruct (l_fieldData (logger s l)); cbn in Hb; [by apply buf_Put_owned|by apply buf_Put_nil]. }
  destruct (spec_of_set_bufs s0 p Hi0 Hag) as [Hs Hc]. split; [split; [exact Hop|apply Hi0|apply Hi0|exact Hc]|].
  change (Release l s) with (set_bufs s0 p). rewrite Hs. unfold s0. rewrite (put_back_spec l s Hi).
  unfold spec_move. cbn [spec_of snd]. by rewrite (acquired_value s l Hi Hl).
Qed.

Lemma begin_refines c pick l s :
  inv s → (l ∈ acquired s) → builds_entry c (value (bufPool s) (logger s l)) = true →
  refines (MBegin l c pick) None s (begin_call c pick l s).
Proof.
  intros Hi Hl Hb. unfold refines, spec_move. cbn [spec_of fst snd].
  rewrite (acquired_value s l Hi Hl). cbn [mbind option_bind]. change (closed (erase s)) with (sh_closed s).
  unfold begin_call. destruct (sh_closed s) eqn:Ec; [done|].
  destruct (buf_Get pick (bufPool s)) as [h p] eqn:Eg.
  destruct (buf_Get_owned _ _ _ _ _ (inv_bufs s Hi) Eg) as (Hop & Hh & Hag & _).
  destruct (spec_of_set_bufs s p Hi Hag) as [Hs Hc]. set (s1 := set_bufs s p) in *.
  destruct (logger s l) as [d k] eqn:El. cbn [l_fieldData l_fieldCount].
  assert (value p (mkLoggerObj d k) = value (bufPool s) (mkLoggerObj d k)) as Hv.
  { rewrite <- El. by apply logger_agree. }
  split.
  - split; [|apply (inv_logs s Hi)|apply (inv_free s Hi)|].
    + assert (handles (set_calls s1 (calls s ++ [Begun h c l d k])) ≡ₚ h :: handles s) as ->; [|done].
      unfold handles. cbn. rewrite map_app. cbn. solve_Permutation.
    + apply Forall_app. split; [exact Hc|]. apply Forall_singleton. cbn. split_and!; [done|done|by rewrite Hv].
  - unfold builds_entry in Hb.
    destruct (call_bytes _ _ _ opt c (value (bufPool s) (mkLoggerObj d k))) as [b|] eqn:Eb; [|done].
    assert (spec_of (set_calls s1 (calls s ++ [Begun h c l d k])) =
      (set_inflight (erase s) (inflight (erase s) ++ [b]), loggers s)) as ->.
    { unfold spec_of. f_equal; [|exact (f_equal snd Hs)].
      pose proof (f_equal fst Hs) as He. cbn [fst spec_of] in He. unfold erase in He |- *. cbn in He |- *.
      injection He as Hcalls Hq Hw. unfold set_inflight. cbn. rewrite map_app. cbn. rewrite Hv, Eb.
      by rewrite Hcalls, Hq, Hw. }
    cbn [run_event]. change (closed (erase s)) with (sh_closed s). by rewrite Ec, Hb.
Qed.

(** An entry is written into the call's own buffer: nothing that others read changes. *)
Lemma build_refines n h c l d k p s :
  inv s → calls s !! n = Some (Begun h c l d k) →
  build h c d k (bufPool s) = Ret p →
  refines (MBuild n) None s (set_calls (set_bufs s p) (<[n := Built h]> (calls s))).
Proof.
  intros Hi Hn. unfold build.
  pose proof (inv_calls s Hi) as Hc. pose proof (inv_bufs s Hi) as Hb.
  destruct (call_bytes _ _ _ opt c (value (bufPool s) (mkLoggerObj d k))) as [b|] eqn:Eb; [|done]. cbn. intros [= <-].
  set (p := assign h b (bufPool s)). set (s' := set_calls _ _).
  pose proof (take_drop_middle _ _ _ Hn) as Hsplit. set (c1 := take n (calls s)) in *.
  set (c2 := drop (S n) (calls s)) in *.
  assert (<[n := Built h]> (calls s) = c1 ++ Built h :: c2) as Hins.
  { apply insert_take_drop. by eapply lookup_lt_Some. }
  assert (handles s ≡ₚ h :: handles (set_calls s (c1 ++ c2))) as Hh.
  { unfold handles. rewrite <- Hsplit. cbn. rewrite !map_app. cbn. solve_Permutation. }
  assert (handles s' = handles s) as Hh'.
  { unfold handles, s'. cbn [calls set_calls]. rewrite Hins, <- Hsplit. by rewrite !map_app. }
  set (s0 := set_calls s (c1 ++ c2)).
  assert (inv s0) as Hi0.
  { split; [|apply (inv_logs s Hi)|apply (inv_free s Hi)|].
    - rewrite Hh in Hb. by apply owned_drop in Hb.
    - rewrite <- Hsplit, Forall_app, Forall_cons in Hc. apply Forall_app. split; apply Hc. }
  assert (h ∉ handles s0) as Hfresh.
  { rewrite Hh in Hb. pose proof (owned_once _ _ Hb) as (_ & _ & Hnd)%NoDup_app. by apply NoDup_cons in Hnd as [? _]. }
  destruct (spec_of_set_bufs s0 p Hi0) as [Hs Hc0].
  { by apply (agree_assign _ _ h b). }
  assert (content p h = b) as Hcont.
  { apply (content_assign _ (handles s)); [done|]. rewrite Hh. by left. }
  split.
  - split; [rewrite Hh'; by apply owned_assign|apply (inv_logs s Hi)|apply (inv_free s Hi)|].
    unfold s'. cbn [calls set_calls]. rewrite Hins. apply Forall_app in Hc0 as [H1 H2]. apply Forall_app.
    split; [exact H1|].
    by apply Forall_cons.
  - cbn [spec_move]. f_equal. symmetry. unfold spec_of. f_equal; [|exact (f_equal snd Hs)].
    pose proof (f_equal fst Hs) as He. cbn [fst spec_of] in He. unfold erase in He |- *. cbn in He |- *. rewrite Hins.
    injection He as Hcalls Hq Hw. rewrite Hq, Hw. f_equal. rewrite <- Hsplit. rewrite !map_app in *. cbn.
    rewrite Eb, Hcont. apply app_inj_1 in Hcalls as [-> ->]; [done|]. by rewrite !length_map.
Qed.

(** What [queueMessage] does, but for giving back a buffer that is dropped. *)
Definition enqueue (h : nat) s : Shared := set_bufs (queue_buffer h s) (bufPool s).

Lemma enqueue_spec h s cs :
  spec_of (enqueue h (set_calls s cs)) =
  (queueMessage opt (content (bufPool s) h) (set_inflight (erase s) (map (entry_of (bufPool s)) cs)), loggers s).
Proof.
  unfold spec_of. f_equal.
  - unfold erase, enqueue, queue_buffer, queueMessage. cbn. unfold lenZ. rewrite length_map.
    destruct (_ <? _); cbn; [by rewrite !map_app|]. destruct (Behavior opt); cbn; by rewrite ?map_app.
  - unfold loggers, logger, enqueue, queue_buffer. cbn. destruct (_ <? _); [done|]. by destruct (Behavior opt).
Qed.

(** A move that is an event of Instance. *)
Lemma event_refines m e s s' :
  inv s' → event_of m = Some e → loggers s' = loggers s →
  run_event gz opt e (erase s) = Some (erase s') → refines m None s s'.
Proof.
  intros Hi He Hl Hr. split; [done|]. unfold spec_of. rewrite Hl.
  destruct m; try done; cbn [event_of] in He; injection He as <-;
    cbn [spec_move event_of mbind option_bind spec_of fst snd]; by rewrite Hr.
Qed.

(** A built entry reaches the queue. *)
Lemma queue_refines n h s :
  inv s → calls s !! n = Some (Built h) →
  refines (MQueue n) None s (queue_buffer h (set_calls s (take n (calls s) ++ drop (S n) (calls s)))).
Proof.
  intros Hi Hn. pose proof (take_drop_middle _ _ _ Hn) as Hsplit.
  set (c1 := take n (calls s)) in *. set (c2 := drop (S n) (calls s)) in *. set (s0 := set_calls s (c1 ++ c2)).
  pose proof (inv_calls s Hi) as Hc. rewrite <- Hsplit, Forall_app, Forall_cons in Hc.
  assert (Forall (call_ok s) (c1 ++ c2)) as Hc0 by (apply Forall_app; split; apply Hc).
  pose proof (inv_bufs s Hi) as Hb.
  assert (handles s ≡ₚ h :: handles s0) as Hh.
  { unfold handles. rewrite <- Hsplit. cbn. rewrite !map_app. cbn. solve_Permutation. }
  rewrite Hh in Hb.
  assert (spec_move (MQueue n) None (spec_of s) = Some (spec_of (enqueue h s0))) as Hstep.
  { unfold s0. rewrite enqueue_spec. cbn [spec_move event_of mbind option_bind spec_of fst snd run_event].
    change (inflight (erase s)) with (entry_of (bufPool s) <$> calls s). rewrite list_lookup_fmap, Hn. cbn.
    by rewrite <- fmap_take, <- fmap_drop, <- fmap_app. }
  assert (∀ s', owned (bufPool s) (handles s') → bufPool s' = bufPool s → logPool s' = logPool s → calls s' = c1 ++ c2 →
    acquired s' = acquired s → inv s') as Hkept.
  { intros s' H1 H2 H3 H4 H5. split.
    - by rewrite H2.
    - rewrite H3, H5. apply (inv_logs s Hi).
    - unfold logger. rewrite H3. apply (inv_free s Hi).
    - rewrite H4. eapply Forall_impl; [exact Hc0|]. intros [h' c l d k|h']; cbn; [|done].
      unfold logger. by rewrite H2, H3, H5. }
  assert (∀ s', enqueue h s0 = s' → handles s' ≡ₚ h :: handles s0 → bufPool s' = bufPool s → logPool s' = logPool s →
    calls s' = c1 ++ c2 → acquired s' = acquired s → refines (MQueue n) None s s') as Hin.
  { intros s' Es Hh' H2 H3 H4 H5. split; [apply Hkept; try done; by rewrite Hh'|by rewrite <- Es]. }
  unfold enqueue, queue_buffer in Hin, Hstep |- *. destruct (_ <? _); [|destruct (Behavior opt)].
  1, 2, 4: (apply Hin; try done; unfold handles, logger; cbn; solve_Permutation).
  (* dropped *)
  match type of Hstep with _ = Some (spec_of ?s1) => set (sd := s1) in * end.
  destruct (buf_Put_owned _ _ _ Hb) as [Hop Hag].
  assert (inv sd) as Hid by (apply Hkept; try done; by eapply owned_drop).
  destruct (spec_of_set_bufs sd (buf_Put (Some h) (bufPool s)) Hid Hag) as [Hs Hcs].
  split; [split; [exact Hop|apply Hid|apply Hid|exact Hcs]|]. by rewrite <- Hs in Hstep.
Qed.

(** ** The moves of the worker *)

(** The worker does something to the client or the fallback, or goes to another phase. *)
Lemma worker_inv s i ph : inv s → working s = None → inv (set_worker s i ph None).
Proof.
  intros [H1 H2 H3 H4] Hw. split; [|done|done|].
  - assert (handles (set_worker s i ph None) = handles s) as ->; [|done]. unfold handles. cbn. by rewrite Hw.
  - eapply Forall_impl; [exact H4|]. by intros [].
Qed.

Lemma worker_refines m e s i ph :
  inv s → working s = None → event_of m = Some e →
  run_event gz opt e (erase s) = Some (erase (set_worker s i ph None)) →
  refines m None s (set_worker s i ph None).
Proof. intros Hi Hw He Hr. eapply event_refines; [by apply worker_inv|done|done|done]. Qed.

Lemma close_refines s : inv s → sh_closed s = false → refines MClose None s (close s).
Proof.
  intros [H1 H2 H3 H4] Hc. eapply event_refines; [|done|done|].
  - split; [done..|]. eapply Forall_impl; [exact H4|]. by intros [].
  - cbn [run_event]. change (closed (erase s)) with (sh_closed s). by rewrite Hc.
Qed.

Lemma give_back_refines h s : inv s → working s = Some h → refines MPut None s (give_back h s).
Proof.
  intros Hi Hw. set (s0 := set_worker s (sh_inst s) (sh_phase s) None).
  assert (handles s ≡ₚ h :: handles s0) as Hh.
  { unfold handles, logger. cbn. rewrite Hw. cbn. solve_Permutation. }
  pose proof (inv_bufs s Hi) as Hb. rewrite Hh in Hb. destruct (buf_Put_owned _ _ _ Hb) as [Hop Hag].
  assert (inv s0) as Hi0.
  { split; [by eapply owned_drop|apply Hi|apply Hi|]. eapply Forall_impl; [apply Hi|]. by intros []. }
  destruct (spec_of_set_bufs s0 (buf_Put (Some h) (bufPool s)) Hi0 Hag) as [Hs Hc].
  split; [split; [exact Hop|apply Hi0|apply Hi0|exact Hc]|]. cbn [spec_move]. f_equal. symmetry. exact Hs.
Qed.

(** A receive reads the buffer that a call has put in the queue. *)
Lemma receive_refines h s s1 i :
  inv s → working s = None → sh_phase s = Poll ∨ sh_phase s = Wait ∨ sh_phase s = Drain →
  receive_buffer s = Some (h, s1) → sendToCli opt (content (bufPool s) h) (sh_inst s1) = Ret i →
  refines MReceive None s (set_worker s1 i (match sh_phase s with Drain => Drain | _ => Poll end) (Some h)).
Proof.
  intros Hi Hw Hph Er Es. unfold receive_buffer in Er. destruct (sh_queue s) as [|h0 q] eqn:Eq; [done|].
  destruct (match sh_waiting s with [] => (q, []) | m :: w => (q ++ [m], w) end) as [q' w'] eqn:Ew.
  injection Er as -> <-. cbn [sh_inst] in Es.
  assert (q' ++ w' = q ++ sh_waiting s) as Hqw.
  { destruct (sh_waiting s); injection Ew as <- <-; [done|]. by rewrite <- app_assoc. }
  destruct Hi as [H1 H2 H3 H4]. eapply event_refines; [|done|done|].
  - split; [|done|done|eapply Forall_impl; [exact H4|]; by intros []].
    match goal with |- owned _ (handles ?s2) => assert (handles s2 ≡ₚ handles s) as -> end; [|done].
    unfold handles, logger. cbn. rewrite Hw, Eq. cbn. rewrite (app_assoc q'), Hqw. solve_Permutation.
  - assert (receive (erase s) = Some (content (bufPool s) h,
      mkState (sh_inst s) (sh_closed s) (sh_phase s) (inflight (erase s)) (map (content (bufPool s)) q')
        (map (content (bufPool s)) w') (sh_accepted s) (sh_processed s ++ [content (bufPool s) h]) (sh_dropped s))) as Hr.
    { unfold receive, erase. cbn. rewrite Eq. cbn.
      destruct (sh_waiting s); injection Ew as <- <-; cbn; by rewrite ?map_app. }
    cbn [run_event]. change (phase (erase s)) with (sh_phase s).
    assert (is_phase (sh_phase s) Poll || is_phase (sh_phase s) Wait || is_phase (sh_phase s) Drain = true) as ->.
    { by destruct Hph as [->|[->| ->]]. }
    rewrite Hr. cbn [mbind option_bind inst]. by rewrite Es.
Qed.

Lemma run_handing_refines m s r s' : inv s → run_handing m s = Some (r, s') → refines m r s s'.
Proof.
  intros Hi. destruct m as [pick|l args pickL pickB|l attrs pickL pickB|l name pick| | | | | | | | | | | |];
    cbn [run_handing]; try done; try (case_decide as Hl; [|done]).
  - destruct (acquire pick s) as [n s1] eqn:E. intros [= <- <-]. by eapply acquire_hands.
  - destruct (With _ _ _ _ _) as [[n s1]|] eqn:E; [|done]. intros [= <- <-]. by apply With_refines.
  - destruct (WithAttrs _ _ _ _ _) as [[n s1]|] eqn:E; [|done]. intros [= <- <-]. by apply WithAttrs_refines.
  - unfold WithGroup. destruct (acquire pick s) as [n s1] eqn:E. intros [= <- <-].
    unfold refines, spec_move. cbn [spec_of snd]. rewrite (acquired_value s l Hi Hl). by eapply acquire_hands.
Qed.

Lemma run_worker_refines m s s' :
  inv s → working s = None → run_plain m s = Some s' →
  event_of m ≠ None → m ≠ MClose → (∀ n, m ≠ MQueue n) → refines m None s s'.
Proof.
  intros Hi Hw Hr He Hc Hq. unfold run_plain in Hr. rewrite Hw in Hr. revert Hr.
  destruct m as [| | | | | | | | | | | | | | |]; try done; [by destruct (Hq n)|..]; clear He Hc Hq;
    destruct (sh_phase s) eqn:Ep; try done.
  - destruct (maybeSetFb gz opt (sh_inst s)) as [[e1 i1]|] eqn:Em; [|done]. cbn [mbind go_bind].
    destruct (flushFallbackToCli gz opt i1) as [[e2 i2]|] eqn:Ef; [|done]. intros [= <-].
    eapply worker_refines; [done..|]. cbn. rewrite Ep, Em. cbn. by rewrite Ef.
  - destruct (receive_buffer s) as [[h s1]|] eqn:Er; [|done]; cbn;
      destruct (sendToCli _ _ _) as [i|] eqn:Es; [|done]; intros [= <-];
      pose proof (receive_refines h s s1 i Hi Hw) as Hr; rewrite Ep in Hr; apply Hr; auto.
  - destruct (receive_buffer s) as [[h s1]|] eqn:Er; [|done]; cbn;
      destruct (sendToCli _ _ _) as [i|] eqn:Es; [|done]; intros [= <-];
      pose proof (receive_refines h s s1 i Hi Hw) as Hr; rewrite Ep in Hr; apply Hr; auto.
  - destruct (receive_buffer s) as [[h s1]|] eqn:Er; [|done]; cbn;
      destruct (sendToCli _ _ _) as [i|] eqn:Es; [|done]; intros [= <-];
      pose proof (receive_refines h s s1 i Hi Hw) as Hr; rewrite Ep in Hr; apply Hr; auto.
  - destruct (_ =? _)%nat eqn:E; [|done]. intros [= <-].
    eapply worker_refines; [done..|]. cbn. by rewrite Ep, length_map, E.
  - destruct (flushFallbackToCli _ _ _) as [[e i]|] eqn:Ef; [|done].
    intros [= <-]. eapply worker_refines; [done..|]. cbn. by rewrite Ep, Ef.
  - destruct (sh_closed s) eqn:Ec; [|done]. intros [= <-].
    eapply worker_refines; [done..|]. cbn. by rewrite Ep, Ec.
  - destruct (_ =? _)%nat eqn:E; [|done]. intros [= <-].
    eapply worker_refines; [done..|]. cbn. by rewrite Ep, length_map, E.
Qed.

Lemma run_plain_refines m s s' : inv s → run_plain m s = Some s' → refines m None s s'.
Proof.
  intros Hi Hr.
  destruct m as [| | | |l|l c pick|n|n| | | | | | | |];
    try (by (cbn [run_plain] in Hr; destruct (working s); [|destruct (sh_phase s)]));
    try (by (destruct (working s) eqn:Hw; [unfold run_plain in Hr; by rewrite Hw in Hr|]; by apply run_worker_refines)).
  - cbn [run_plain] in Hr. case_decide; [|done]. destruct (existsb _ _) eqn:E; [done|]. injection Hr as <-.
    by apply Release_refines.
  - cbn [run_plain] in Hr. case_decide; [|done]. destruct (builds_entry _ _) eqn:E; [|done]. injection Hr as <-.
    by apply begin_refines.
  - cbn [run_plain] in Hr. destruct (calls s !! n) as [[h c l d k|h]|] eqn:En; [|done..].
    destruct (build _ _ _ _ _) as [p|] eqn:Eb; [|done]. injection Hr as <-. by eapply build_refines.
  - cbn [run_plain] in Hr. destruct (calls s !! n) as [[h c l d k|h]|] eqn:En; [done| |done]. injection Hr as <-.
    by apply queue_refines.
  - cbn [run_plain] in Hr. destruct (sh_closed s) eqn:Ec; [done|]. injection Hr as <-. by apply close_refines.
  - cbn [run_plain] in Hr. destruct (working s) as [h|] eqn:Ew; [|done]. injection Hr as <-. by apply give_back_refines.
Qed.

Lemma run_move_refines m s r s' : inv s → run_move m s = Some (r, s') → refines m r s s'.
Proof.
  intros Hi. unfold run_move.
  destruct m; try (by apply run_handing_refines);
    (destruct (run_plain _ s) as [s1|] eqn:E; [|done]; intros [= <- <-]; by apply run_plain_refines).
Qed.

Lemma run_moves_refines ms : ∀ s rs s', inv s → run_moves ms s = Some (rs, s') →
  inv s' ∧ spec_moves (zip ms rs) (spec_of s) = Some (spec_of s').
Proof.
  induction ms as [|m ms IH]; intros s rs s' Hi; cbn [run_moves]; [by intros [= <- <-]|].
  destruct (run_move m s) as [[r s1]|] eqn:E; [|done]. cbn [mbind option_bind].
  destruct (run_moves ms s1) as [[rs1 s2]|] eqn:Er; [|done]. intros [= <- <-].
  destruct (run_move_refines m s r s1 Hi E) as [Hi1 Hs1]. destruct (IH s1 rs1 s2 Hi1 Er) as [Hi' Hs'].
  split; [done|]. cbn [zip zip_with spec_moves]. by rewrite Hs1.
Qed.

Lemma run_moves_length ms : ∀ s rs s', run_moves ms s = Some (rs, s') → length rs = length ms.
Proof.
  induction ms as [|m ms IH]; intros s rs s'; cbn [run_moves]; [by intros [= <- <-]|].
  destruct (run_move m s) as [[r s1]|]; [|done]. cbn [mbind option_bind].
  destruct (run_moves ms s1) as [[rs1 s2]|] eqn:Er; [|done]. intros [= <- <-]. cbn. f_equal. by eapply IH.
Qed.

(** The runs of the specification are runs of Instance. *)
Lemma spec_move_instance m r x y : spec_move m r x = Some y → rtc (step gz opt) x.1 y.1.
Proof.
  assert (∀ e, (t ← run_event gz opt e x.1; Some (t, x.2)) = Some y → rtc (step gz opt) x.1 y.1) as He.
  { intros e. destruct (run_event gz opt e x.1) as [t|] eqn:E; [|done]. intros [= <-].
    apply rtc_once. by eapply run_event_sound. }
  assert (∀ m, hand_out r m x = Some y → rtc (step gz opt) x.1 y.1) as Hh.
  { intros [lg|]; unfold hand_out; destruct r; try done. case_decide; [|done]. by intros [= <-]. }
  destruct m as [|l| l|l|l|l c pick| | | | | | | | | |]; cbn [spec_move event_of]; try apply He; try apply Hh;
    try (by intros [= <-]); (destruct (x.2 !! l) as [lg|]; [|done]); try apply Hh; cbn [mbind option_bind].
  - by intros [= <-].
  - destruct (closed x.1); [by intros [= <-]|].
    destruct (call_bytes _ _ _ _ _ _) as [b|]; [apply (He (ELog b))|done].
Qed.

Lemma spec_moves_instance ms : ∀ x y, spec_moves ms x = Some y → rtc (step gz opt) x.1 y.1.
Proof.
  induction ms as [|[m r] ms IH]; intros x y; cbn [spec_moves]; [by intros [= <-]|].
  destruct (spec_move m r x) as [x1|] eqn:E; [|done]. intros Hr. etrans; [by eapply spec_move_instance|by apply IH].
Qed.

(** C5: Buffers and loggers are shared without anybody noticing, whatever the interleaving
    of calls, of loggers being acquired and released, and of the worker, and whatever the
    pools give out: move by move, a run of an instance over its pools is, when the store is
    read, the run that the specification makes of the same moves and the handles they
    handed out.  There a new logger is empty, [With] and [WithAttrs] give the logger that
    Log computes from the parent's fields, every other logger stays as it is until it is
    released, a log call's entry is the one that Log builds from its logger at the time of
    the call, and the queue and the worker have that entry.  No buffer is held twice. *)
Theorem Buffers_refine ms i rs s :
  run_moves ms (fresh_instance i) = Some (rs, s) →
  spec_moves (zip ms rs) (initial i, ∅) = Some (erase s, loggers s) ∧
  length rs = length ms ∧ reachable gz opt i (erase s) ∧ NoDup (handles s).
Proof.
  intros Hr. destruct (run_moves_refines ms _ rs s (inv_fresh i) Hr) as [Hi Hs]. split; [exact Hs|].
  split; [by eapply run_moves_length|]. split; [exact (spec_moves_instance _ _ _ Hs)|].
  by pose proof (owned_once _ _ (inv_bufs s Hi)) as (_ & _ & Hnd)%NoDup_app.
Qed.

(** A logger from a pool whose first free handle it is, with its fields in a buffer. *)
Lemma With_pooled args pick l p s hs rest b k :
  owned (bufPool s) hs → free (logPool s) = l :: rest → (l < length (objects (logPool s)))%nat → p ≠ l →
  l_fieldData (logger s p) = None → args ≠ [] → appendArgs json_Append [] args = Ret (b, k) →
  ∃ s' hs', With args (Some 0%nat) pick p s = Ret (l, s') ∧ owned (bufPool s') hs' ∧ free (logPool s') = rest ∧
    length (objects (logPool s')) = length (objects (logPool s)) ∧ logger s' p = logger s p ∧
    l_fieldCount (logger s' l) = u8 (l_fieldCount (logger s l) + k) ∧
    value (bufPool s') (logger s' l) = mkLogger (Some b) (u8 (l_fieldCount (logger s l) + k)).
Proof.
  intros Ho Hf Hlen Hne Hp Ha Hb. unfold With. rewrite bool_decide_false by done. unfold derive, acquire.
  unfold Pool.Get at 1. unfold take_free at 1. rewrite Hf. cbn [mbind option_bind lookup list_lookup delete list_delete].
  set (s1 := set_loggers s _ _). assert (∀ n, logger s1 n = logger s n) as Hlog by done.
  destruct (buf_Get pick (bufPool s1)) as [h p1] eqn:Eg.
  destruct (buf_Get_owned (bufPool s) hs pick h p1 Ho Eg) as (Ho1 & _ & _ & Hc).
  rewrite !Hlog, Hp, Hc, Hb. cbn [mbind go_bind]. eexists _, (h :: hs). split; [done|].
  split; [by apply owned_assign|]. split; [done|]. split; [cbn; apply length_insert|].
  match goal with |- logger ?s2 p = _ ∧ _ => set (s2' := s2) end.
  assert (logger s2' l = mkLoggerObj (Some h) (u8 (l_fieldCount (logger s l) + k))) as El.
  { unfold logger, s2'. cbn. unfold deref. cbn. by rewrite list_lookup_insert_eq. }
  split; [|split].
  - unfold logger, s2'. cbn. rewrite deref_assign_ne by done. done.
  - by rewrite El.
  - rewrite El. unfold value. cbn [l_fieldData l_fieldCount fmap option_fmap option_map].
    change (bufPool s2') with (assign h b p1). by rewrite (content_assign p1 (h :: hs)) by (done || by left).
Qed.

(** C37: A logger that is released twice is in the pool twice: two calls of [With] get the
    same logger, so that the first caller's entries have the fields of the second, and
    as the count of the first is added to theirs, these entries are no longer well
    formed. *)
Theorem Release_twice pick1 pick2 s p l args1 args2 b1 k1 b2 k2 :
  inv s → (p ∈ acquired s) → (l ∈ acquired s) → p ≠ l → l_fieldData (logger s p) = None →
  existsb (uses l) (calls s) = false → args1 ≠ [] → args2 ≠ [] →
  appendArgs json_Append [] args1 = Ret (b1, k1) → appendArgs json_Append [] args2 = Ret (b2, k2) →
  ∃ s1 s2, With args1 (Some 0%nat) pick1 p (Release l (Release l s)) = Ret (l, s1) ∧
    value (bufPool s1) (logger s1 l) = mkLogger (Some b1) (u8 k1) ∧
    With args2 (Some 0%nat) pick2 p s1 = Ret (l, s2) ∧
    value (bufPool s2) (logger s2 l) = mkLogger (Some b2) (u8 (u8 k1 + k2)).
Proof.
  intros Hi Hp Hl Hne Hf Hu Ha1 Ha2 E1 E2. pose proof (owned_valid_elem _ _ _ (inv_logs s Hi) Hl) as Hlen.
  destruct (Release_refines l s Hi Hl Hu) as [Hi1 _]. set (s0 := Release l (Release l s)).
  assert (logger (Release l s) l = mkLoggerObj None 0) as Hl1.
  { unfold logger, deref. cbn. by rewrite list_lookup_insert_eq. }
  assert (owned (bufPool s0) (handles (Release l s))) as Ho.
  { change (bufPool s0) with (buf_Put (l_fieldData (logger (Release l s) l)) (bufPool (Release l s))). rewrite Hl1.
    apply buf_Put_nil, (inv_bufs _ Hi1). }
  assert (length (objects (logPool s0)) = length (objects (logPool s))) as Hlen0 by (cbn; by rewrite !length_insert).
  assert (logger s0 p = logger s p) as Hlp.
  { unfold logger, deref. cbn. by rewrite !list_lookup_insert_ne by done. }
  assert (logger s0 l = mkLoggerObj None 0) as Hll.
  { unfold logger, deref. cbn. rewrite list_lookup_insert_eq; [done|]. by rewrite length_insert. }
  destruct (With_pooled args1 pick1 l p s0 _ (l :: free (logPool s)) b1 k1 Ho)
    as (s1 & hs1 & EW1 & Ho1 & Hf1 & Hlen1 & Hlp1 & Hc1 & Hv1); [done|lia|done|by rewrite Hlp|done|done|].
  destruct (With_pooled args2 pick2 l p s1 hs1 (free (logPool s)) b2 k2 Ho1)
    as (s2 & hs2 & EW2 & _ & _ & _ & _ & _ & Hv2); [done|lia|done|by rewrite Hlp1, Hlp|done|done|].
  rewrite Hc1, Hll in Hv2. rewrite Hll in Hv1. cbn [l_fieldCount] in Hv1, Hv2. rewrite Z.add_0_l in Hv1, Hv2.
  by exists s1, s2.
Qed.

End Buffers.

(** ** Witnesses: a queue of one place, an entry that is sent and its buffer used again *)

Definition moves1 : list move :=
  [MStart; MLogger None;
   MWith 0 [AString (str "k"); ABool true] None None;
   MBegin 1 (CLog id0 INFO (str "hi") [] false []) None; MBuild 0; MQueue 0;
   MBegin 1 (CLog id0 INFO (str "ho") [] false []) (Some 0%nat);
   MReceive; MPut;
   MLogger None;
   MWith 2 [AString (str "l"); ABool false] (Some 0%nat) (Some 0%nat);
   MBuild 0; MRelease 1].

Definition IDFromTime0 (t : Time) : ID := mkID t 7.

Definition handed1 : list (option nat) :=
  [None; Some 0%nat; Some 1%nat; None; None; None; None; None; None; Some 2%nat; Some 3%nat; None; None].

Definition shared1 : Shared (C := recorded script) :=
  default (fresh_instance i1) (snd <$> run_moves gz0 json0 sprintf0 IDFromTime0 opt1 moves1 (fresh_instance i1)).

Lemma run1 : run_moves gz0 json0 sprintf0 IDFromTime0 opt1 moves1 (fresh_instance i1) = Some (handed1, shared1).
Proof. vm_compute. reflexivity. Qed.

Lemma Buffers_refine_witness :
  spec_moves gz0 json0 sprintf0 IDFromTime0 opt1 (zip moves1 handed1) (initial i1, ∅) =
    Some (erase json0 sprintf0 IDFromTime0 opt1 shared1, loggers shared1) ∧
  length handed1 = length moves1 ∧
  reachable gz0 opt1 i1 (erase json0 sprintf0 IDFromTime0 opt1 shared1) ∧ NoDup (handles shared1).
Proof. exact (Buffers_refine gz0 json0 sprintf0 IDFromTime0 opt1 moves1 i1 handed1 shared1 run1). Defined.

Lemma Release_twice_witness : ∃ s1 s2 : Shared (C := recorded script),
  With json0 [AString (str "a"); ABool true] (Some 0%nat) (Some 0%nat) 0 (Release 3 (Release 3 shared1)) = Ret (3%nat, s1) ∧
  value (bufPool s1) (logger s1 3) = mkLogger (Some (AppendBool (AppendString [] (str "a")) true)) 1 ∧
  With json0 [AString (str "b"); ABool true] (Some 0%nat) None 0 s1 = Ret (3%nat, s2) ∧
  value (bufPool s2) (logger s2 3) = mkLogger (Some (AppendBool (AppendString [] (str "b")) true)) 2.
Proof.
  refine (Release_twice gz0 json0 sprintf0 IDFromTime0 opt1 (Some 0%nat) None shared1 0 3 [AString (str "a"); ABool true]
    [AString (str "b"); ABool true] _ 1 _ 1 _ _ _ _ _ _ _ _ eq_refl eq_refl).
  - exact (proj1 (run_moves_refines gz0 json0 sprintf0 IDFromTime0 opt1 moves1 _ _ _ (inv_fresh json0 sprintf0 IDFromTime0 opt1 i1) run1)).
  - apply (bool_decide_unpack _). vm_compute. done.
  - apply (bool_decide_unpack _). vm_compute. done.
  - done.
  - vm_compute. done.
  - done.
  - done.
  - done.
Defined.
