(* ===== verification/Gzip.v ===== *)
(** * Gzip: the reader of gzip members (internal/gzip)

    The reader skips the header of a member, lets a DEFLATE decompressor read its
    data, skips the trailer without checking it, and goes on with the next member.
    The decompressor and the ring reader are not part of the repository: [GzipOps]
    are the operations called on them and [GzipLaws] their documented behaviour.
    Readers are handles, since the decompressor keeps the one it was reset to. *)

From S2P Require Import Prelude Types Errors.

Class GzipOps (D W : Type) := {
  br_ReadBytes : nat → Z → W → Slice * option error * W;
  br_Discard : nat → Z → W → Z * option error * W;
  br_DiscardUntil : nat → Z → W → Z * option error * W;
  (** [flate.NewReader], [None] if what it returns cannot be reset *)
  flate_NewReader : nat → option D;
  flate_Reset : D → nat → option error * D;
  (** what [Read] puts into a slice of the given length *)
  flate_Read : D → Z → W → list Z * option error * D * W;
  flate_Close : D → option error * D
}.

Definition gzipID1 := 0x1f.
Definition gzipID2 := 0x8b.
Definition gzipDeflate := 8.
Definition flagHdrCrc := 2.
Definition flagExtra := 4.
Definition flagName := 8.
Definition flagComment := 16.

Definition ErrHeader := Sentinel SGzipHeader.
Definition ErrChecksum := Sentinel SGzipChecksum.

(** [binary.LittleEndian.Uint16(b)] *)
Definition LittleEndian_Uint16 (b : Slice) : go Z :=
  hi ← index b 1; lo ← index b 0; Ret (Z.lor lo (Z.shiftl hi 8)).

(** [flg & flag != 0] *)
Definition flag_set (flg flag : Z) : bool := negb (Z.land flg flag =? 0).

Section Gzip.
  Context {D W : Type} `{!GzipOps D W}.
  Implicit Types (w : W).

Record Reader := mkReader { z_br : option nat; decompressor : option D }.
Implicit Types (z : Reader).

Definition set_decompressor z (d : D) : Reader := mkReader (z_br z) (Some d).

(** A method call on the reader's source. *)
Definition br z : go nat := match z_br z with Some h => Ret h | None => Panic NilPointer end.

(** [if err = f(); err != nil { return }] *)
Definition or_return (m : go (option error * W)) (k : W → go (option error * W)) : go (option error * W) :=
  '(err, w) ← m; match err with Some _ => Ret (err, w) | None => k w end.

Definition skipBytes z (n : Z) w : go (option error * W) :=
  h ← br z; let '(_, err, w) := br_Discard h n w in Ret (err, w).

Definition skipNullTerminated z w : go (option error * W) :=
  h ← br z;
  let '(_, err, w) := br_DiscardUntil h 0 w in
  match err with
  | Some _ => Ret (err, w)
  | None => let '(_, err, w) := br_Discard h 1 w in Ret (err, w)
  end.

Definition skipExtra z w : go (option error * W) :=
  h ← br z;
  let '(buf, err, w) := br_ReadBytes h 2 w in
  match err with
  | Some _ => Ret (err, w)
  | None => extraLen ← LittleEndian_Uint16 buf; skipBytes z extraLen w
  end.

(** [if flg&flag != 0 { f }] *)
Definition if_flag (flg flag : Z) (f : W → go (option error * W)) w : go (option error * W) :=
  if flag_set flg flag then f w else Ret (None, w).

(** What the flags say follows the first ten bytes. *)
Definition skipOptional z (flg : Z) w : go (option error * W) :=
  or_return (if_flag flg flagExtra (skipExtra z) w) (λ w,
  or_return (if_flag flg flagName (skipNullTerminated z) w) (λ w,
  or_return (if_flag flg flagComment (skipNullTerminated z) w) (λ w,
  if_flag flg flagHdrCrc (skipBytes z 2) w))).

Definition init_decompressor z : go (option error * Reader) :=
  h ← br z;
  Ret match decompressor z with
  | None =>
    match flate_NewReader h with
    | Some d => (None, set_decompressor z d)
    | None => (Some (Errorf "gzip: failed to init decompressor" []), z)
    end
  | Some d => let '(err, d) := flate_Reset d h in (err, set_decompressor z d)
  end.

Definition skipHeader z w : go (option error * Reader * W) :=
  h ← br z;
  let '(buf, err, w) := br_ReadBytes h 10 w in
  match err with
  | Some _ => Ret (err, z, w)
  | None =>
    b0 ← index buf 0; b1 ← index buf 1; b2 ← index buf 2;
    if negb (b0 =? gzipID1) || negb (b1 =? gzipID2) || negb (b2 =? gzipDeflate)
    then Ret (Some ErrHeader, z, w) else
    flg ← index buf 3;
    '(err, w) ← skipOptional z flg w;
    match err with
    | Some _ => Ret (err, z, w)
    | None => '(err, z) ← init_decompressor z; Ret (err, z, w)
    end
  end.

Definition Reset z (b : option nat) w : go (option error * Reader * W) :=
  let z := mkReader b (decompressor z) in
  match b with
  | Some _ => skipHeader z w
  | None => Ret (None, z, w)
  end.

Definition NewReader (b : option nat) w : go ((option Reader * option error) * W) :=
  '(err, z, w) ← Reset (mkReader None None) b w;
  Ret (match err with Some _ => (None, err) | None => (Some z, None) end, w).

(** The fuel bounds the members whose data is empty. *)
Fixpoint Read (fuel : nat) z (n : Z) w : go (list Z * option error * Reader * W) :=
  match fuel with
  | O => Panic OutOfFuel
  | S fuel =>
    match decompressor z with
    | None => Panic NilPointer
    | Some d =>
      let '(b, err, d, w) := flate_Read d n w in
      let z := set_decompressor z d in
      if negb (match err with Some e => is_EOF e | None => false end) then Ret (b, err, z, w) else
      h ← br z;
      let '(_, err, w) := br_Discard h 8 w in
      match err with
      | Some _ => Ret (b, err, z, w)
      | None =>
        '(err, z, w) ← skipHeader z w;
        match err with
        | Some _ => Ret (b, err, z, w)
        | None => if lenZ b =? 0 then Read fuel z n w else Ret (b, None, z, w)
        end
      end
    end
  end.

Definition Close z : go (option error * Reader) :=
  match decompressor z with
  | None => Panic NilPointer
  | Some d => let '(err, d) := flate_Close d in Ret (err, set_decompressor z d)
  end.

(** ** pool.go: a [sync.Pool] gives back any of its items, or none *)

Definition Pool_Get (pool : list Reader) (pick : option nat) (h : nat) w :
    go ((option Reader * option error) * list Reader * W) :=
  match (i ← pick; z ← pool !! i; Some (i, z)) with
  | Some (i, z) => '(err, z, w) ← Reset z (Some h) w; Ret ((Some z, err), delete i pool, w)
  | None => '(res, w) ← NewReader (Some h) w; Ret (res, pool, w)
  end.

Definition Pool_Put (z : Reader) (pool : list Reader) w : go (list Reader * W) :=
  '(_, z, w) ← Reset z None w; Ret (z :: pool, w).

(** ** Reading until the end, as [io.ReadAll] does, with buffers of any size *)

Fixpoint read_all (fuel : nat) (sizes : nat → Z) z w : go (list Z * option error) :=
  match fuel with
  | O => Panic OutOfFuel
  | S fuel' =>
    '(b, err, z, w) ← Read fuel z (sizes fuel) w;
    match err with
    | Some e => Ret (b, if is_EOF e then None else Some e)
    | None => '(bs, err) ← read_all fuel' sizes z w; Ret (b ++ bs, err)
    end
  end.

End Gzip.
Arguments Reader : clear implicits.

(** ** The format: RFC 1952 *)

Record header := mkHeader {
  h_flags : Z;
  (** modification time, extra flags and system *)
  h_fixed : list Z;
  h_extra : list Z;
  h_name : list Z;
  h_comment : list Z;
  h_crc : list Z
}.

Definition header_ok (h : header) : Prop :=
  length (h_fixed h) = 6%nat ∧ lenZ (h_extra h) < 65536 ∧ (0 ∉ h_name h) ∧ (0 ∉ h_comment h) ∧
  length (h_crc h) = 2%nat.

Definition flagged (h : header) (flag : Z) (b : list Z) : list Z :=
  if flag_set (h_flags h) flag then b else [].

Definition extra_bytes (x : list Z) : list Z := [u8 (lenZ x); u8 (lenZ x / 256)] ++ x.

Definition optional_bytes (h : header) : list Z :=
  flagged h flagExtra (extra_bytes (h_extra h)) ++ flagged h flagName (h_name h ++ [0]) ++
  flagged h flagComment (h_comment h ++ [0]) ++ flagged h flagHdrCrc (h_crc h).

Definition header_bytes (h : header) : list Z :=
  ([0x1f; 0x8b; 8; h_flags h] ++ h_fixed h) ++ optional_bytes h.

Section Format.
  (** the compressed data [z] is that of [p] *)
  Context (deflates : list Z → list Z → Prop).

(** A member: a header, the data, and a checksum and size of any value. *)
Definition member (b p : list Z) : Prop :=
  ∃ h z trailer, header_ok h ∧ deflates z p ∧ length trailer = 8%nat ∧ b = header_bytes h ++ z ++ trailer.

Definition unzips (content bs : list Z) : Prop :=
  ∃ ms, Forall (λ m, member m.1 m.2) ms ∧ content = concat (map fst ms) ∧ bs = concat (map snd ms).

Lemma member_magic b p rest : member b p → take 3 (b ++ rest) = [0x1f; 0x8b; 8].
Proof. by intros (h & z & t & _ & _ & _ & ->). Qed.

Lemma member_nonempty b p : member b p → b ≠ [].
Proof. by intros (h & z & t & _ & _ & _ & ->). Qed.

Lemma unzips_members f ps : (∀ p, member (f p) p) → unzips (concat (map f ps)) (concat ps).
Proof.
  intros H. exists (map (λ p, (f p, p)) ps). rewrite !map_map, map_id. split_and!; [|done..].
  by apply Forall_map, Forall_true.
Qed.

End Format.

(** ** The laws *)

Class GzipLaws (D W : Type) `{!GzipOps D W} := {
  (** the source delivers the bytes, then end of file *)
  feeds : W → nat → list Z → Prop;
  br_ReadBytes_app w h p bs :
    feeds w h (p ++ bs) → ∃ sp w', br_ReadBytes h (lenZ p) w = (mkSlice p sp, None, w') ∧ feeds w' h bs;
  br_ReadBytes_end w h n : feeds w h [] → 0 < n → ∃ s w', br_ReadBytes h n w = (s, Some EOF, w');
  br_Discard_app w h p bs :
    feeds w h (p ++ bs) → ∃ w', br_Discard h (lenZ p) w = (lenZ p, None, w') ∧ feeds w' h bs;
  br_DiscardUntil_app w h p c bs :
    feeds w h (p ++ c :: bs) → c ∉ p → ∃ n w', br_DiscardUntil h c w = (n, None, w') ∧ feeds w' h (c :: bs);
  deflates : list Z → list Z → Prop;
  (** the decompressor will yield the first bytes and leave the second ones *)
  inflating : D → W → nat → list Z → list Z → Prop;
  flate_NewReader_inflates h :
    ∃ d, flate_NewReader h = Some d ∧
      ∀ w z p rest, feeds w h (z ++ rest) → deflates z p → inflating d w h p rest;
  flate_Reset_inflates d h :
    ∃ d', flate_Reset d h = (None, d') ∧
      ∀ w z p rest, feeds w h (z ++ rest) → deflates z p → inflating d' w h p rest;
  flate_Read_yields d w h p rest n :
    inflating d w h p rest → 0 < n →
    ∃ b err d' w' p', flate_Read d n w = (b, err, d', w') ∧ p = b ++ p' ∧ lenZ b ≤ n ∧
      ((err = None ∧ b ≠ [] ∧ inflating d' w' h p' rest) ∨ (err = Some EOF ∧ p' = [] ∧ feeds w' h rest))
}.

Section Correctness.
  Context {D W : Type} `{!GzipOps D W, !GzipLaws D W}.
  Implicit Types (w : W) (z : Reader D).

(** ** Skipping a header *)

Lemma skipBytes_ok z h w p bs :
  z_br z = Some h → feeds w h (p ++ bs) →
  ∃ w', skipBytes z (lenZ p) w = Ret (None, w') ∧ feeds w' h bs.
Proof.
  intros Hz H. unfold skipBytes, br. rewrite Hz. go_simpl.
  destruct (br_Discard_app w h p bs H) as (w' & -> & H'). by exists w'.
Qed.

Lemma skipNullTerminated_ok z h w p bs :
  z_br z = Some h → 0 ∉ p → feeds w h ((p ++ [0]) ++ bs) →
  ∃ w', skipNullTerminated z w = Ret (None, w') ∧ feeds w' h bs.
Proof.
  intros Hz Hp H. rewrite <- app_assoc in H. unfold skipNullTerminated, br. rewrite Hz. go_simpl.
  destruct (br_DiscardUntil_app w h p 0 bs H Hp) as (n & w1 & -> & H1).
  destruct (br_Discard_app w1 h [0] bs H1) as (w2 & E & H2). change (lenZ [0]) with 1 in E.
  rewrite E. by exists w2.
Qed.

Lemma le16_decode n : 0 ≤ n < 65536 → Z.lor (u8 n) (Z.shiftl (u8 (n / 256)) 8) = n.
Proof.
  intros Hn. pose proof (Z.div_mod n 256 ltac:(lia)) as E. pose proof (Z.mod_pos_bound n 256 ltac:(lia)).
  assert (u8 (n / 256) = n / 256) as -> by (apply uwrap_small; change (2 ^ 8) with 256; lia).
  rewrite Z.lor_comm, (lor_add_disjoint _ _ 8) by
    (rewrite ?Z.shiftl_mul_pow2, ?Z.mod_mul; unfold uwrap; change (2 ^ 8) with 256; lia).
  rewrite Z.shiftl_mul_pow2 by lia. unfold uwrap. change (2 ^ 8) with 256. lia.
Qed.

Lemma skipExtra_ok z h w x bs :
  z_br z = Some h → lenZ x < 65536 → feeds w h (extra_bytes x ++ bs) →
  ∃ w', skipExtra z w = Ret (None, w') ∧ feeds w' h bs.
Proof.
  intros Hz Hx H. unfold extra_bytes in H. rewrite <- app_assoc in H. unfold skipExtra, br. rewrite Hz. go_simpl.
  destruct (br_ReadBytes_app w h _ _ H) as (sp & w1 & E & H1).
  change (lenZ [u8 (lenZ x); u8 (lenZ x / 256)]) with 2 in E. rewrite E.
  pose proof (lenZ_nonneg x). change (LittleEndian_Uint16 (mkSlice [u8 (lenZ x); u8 (lenZ x / 256)] sp))
    with (@Ret Z (Z.lor (u8 (lenZ x)) (Z.shiftl (u8 (lenZ x / 256)) 8))). go_simpl.
  rewrite le16_decode by lia. by apply skipBytes_ok.
Qed.

(** An optional part of a header: absent, or skipped. *)
Lemma if_flag_ok hd flag f b h w bs :
  (∀ w bs, feeds w h (b ++ bs) → ∃ w', f w = Ret (None, w') ∧ feeds w' h bs) →
  feeds w h (flagged hd flag b ++ bs) →
  ∃ w', if_flag (h_flags hd) flag f w = Ret (None, w') ∧ feeds w' h bs.
Proof.
  intros Hf H. unfold if_flag, flagged in *. destruct (flag_set _ _); [by apply Hf|by exists w].
Qed.

Lemma skipOptional_ok z h w hd bs :
  z_br z = Some h → header_ok hd → feeds w h (optional_bytes hd ++ bs) →
  ∃ w', skipOptional z (h_flags hd) w = Ret (None, w') ∧ feeds w' h bs.
Proof.
  intros Hz (_ & Hx & Hn & Hc & Hcrc) H. unfold optional_bytes in H. rewrite <- !app_assoc in H.
  unfold skipOptional, or_return.
  destruct (if_flag_ok hd _ (skipExtra z) _ h w _ (λ w bs, skipExtra_ok z h w _ bs Hz Hx) H) as (w1 & -> & H1).
  go_simpl.
  destruct (if_flag_ok hd _ (skipNullTerminated z) _ h w1 _ (λ w bs, skipNullTerminated_ok z h w _ bs Hz Hn) H1)
    as (w2 & -> & H2). go_simpl.
  destruct (if_flag_ok hd _ (skipNullTerminated z) _ h w2 _ (λ w bs, skipNullTerminated_ok z h w _ bs Hz Hc) H2)
    as (w3 & -> & H3). go_simpl.
  refine (if_flag_ok hd _ (skipBytes z 2) _ h w3 _ _ H3). intros w' bs'.
  replace 2 with (lenZ (h_crc hd)) by (unfold lenZ; lia). by apply skipBytes_ok.
Qed.

(** The reader decompresses [p], after which the source has [rest]. *)
Definition opened z (h : nat) w (p rest : list Z) : Prop :=
  z_br z = Some h ∧ ∃ d, decompressor z = Some d ∧ inflating d w h p rest.

Lemma init_decompressor_ok z h :
  z_br z = Some h →
  ∃ z', init_decompressor z = Ret (None, z') ∧
    ∀ w c p rest, feeds w h (c ++ rest) → deflates c p → opened z' h w p rest.
Proof.
  intros Hz. unfold init_decompressor, br. rewrite Hz. go_simpl.
  destruct (decompressor z) as [d|].
  - destruct (flate_Reset_inflates d h) as (d' & -> & Hd). eexists. split; [done|].
    intros w c p rest H1 H2. split; [done|]. exists d'. split; [done|]. by apply (Hd w c).
  - destruct (flate_NewReader_inflates h) as (d' & -> & Hd). eexists. split; [done|].
    intros w c p rest H1 H2. split; [done|]. exists d'. split; [done|]. by apply (Hd w c).
Qed.

Lemma index_nth s (i : nat) b : live s !! i = Some b → index s (Z.of_nat i) = Ret b.
Proof.
  intros H. destruct (index_in_range s (Z.of_nat i)) as (b' & -> & E).
  - apply lookup_lt_Some in H. unfold slen, lenZ. lia.
  - rewrite Nat2Z.id in E. by simplify_eq.
Qed.

(** [skipHeader] once it has read ten bytes. *)
Lemma skipHeader_read z h w b0 b1 b2 flg l sp w1 :
  z_br z = Some h → br_ReadBytes h 10 w = (mkSlice (b0 :: b1 :: b2 :: flg :: l) sp, None, w1) →
  skipHeader z w =
    if negb (b0 =? gzipID1) || negb (b1 =? gzipID2) || negb (b2 =? gzipDeflate)
    then Ret (Some ErrHeader, z, w1) else
    '(err, w) ← skipOptional z flg w1;
    match err with
    | Some _ => Ret (err, z, w)
    | None => '(err, z) ← init_decompressor z; Ret (err, z, w)
    end.
Proof.
  intros Hz E. unfold skipHeader, br. rewrite Hz. go_simpl. rewrite E.
  rewrite (index_nth _ 0 b0), (index_nth _ 1 b1), (index_nth _ 2 b2), (index_nth _ 3 flg) by done. done.
Qed.

Lemma skipHeader_member z h w b p rest :
  z_br z = Some h → member deflates b p → feeds w h (b ++ rest) →
  ∃ z' w' trailer, skipHeader z w = Ret (None, z', w') ∧ length trailer = 8%nat ∧
    opened z' h w' p (trailer ++ rest).
Proof.
  intros Hz (hd & c & t & Hok & Hc & Ht & ->) H. unfold header_bytes in H. rewrite <- !app_assoc in H.
  rewrite (app_assoc [_; _; _; _] (h_fixed hd)) in H.
  destruct (br_ReadBytes_app w h _ _ H) as (sp & w1 & E & H1).
  assert (lenZ ([31; 139; 8; h_flags hd] ++ h_fixed hd) = 10) as E10.
  { rewrite lenZ_app. destruct Hok as (Hf & _). unfold lenZ. rewrite Hf. done. }
  rewrite E10 in E. rewrite (skipHeader_read z h w 31 139 8 _ _ sp w1 Hz E). cbn.
  destruct (skipOptional_ok z h w1 hd _ Hz Hok H1) as (w2 & -> & H2). go_simpl.
  destruct (init_decompressor_ok z h Hz) as (z' & -> & Ho). go_simpl.
  exists z', w2, t. split_and!; [done|done|]. by apply (Ho w2 c).
Qed.

(** What may follow the members: nothing, or ten bytes that start no member. *)
Inductive ending : list Z → option error → Prop :=
  | ending_end : ending [] None
  | ending_garbage g rest :
      lenZ g = 10 → take 3 g ≠ [0x1f; 0x8b; 8] → ending (g ++ rest) (Some ErrHeader).

Lemma skipHeader_ending z h w tail err :
  z_br z = Some h → ending tail err → feeds w h tail →
  ∃ e z' w', skipHeader z w = Ret (Some e, z', w') ∧ err = if is_EOF e then None else Some e.
Proof.
  intros Hz He H. destruct He as [|g rest Hg Hne].
  { destruct (br_ReadBytes_end w h 10 H ltac:(lia)) as (s & w' & E). unfold skipHeader, br. rewrite Hz. go_simpl.
    rewrite E. by do 3 eexists. }
  destruct (br_ReadBytes_app w h g rest H) as (sp & w' & E & _). rewrite Hg in E.
  destruct g as [|b0 [|b1 [|b2 [|flg g]]]]; [done..|]. rewrite (skipHeader_read z h w _ _ _ _ _ _ _ Hz E).
  destruct (_ || _) eqn:Eb; [by do 3 eexists|]. destruct Hne. unfold gzipID1, gzipID2, gzipDeflate in Eb.
  assert (b0 = 31 ∧ b1 = 139 ∧ b2 = 8) as (-> & -> & ->) by lia. done.
Qed.

(** ** Reading *)

(** A reader in a member, of which [p] is left, with members after it. *)
Definition reading z h w p (ms : list (list Z * list Z)) tail : Prop :=
  ∃ trailer, length trailer = 8%nat ∧ opened z h w p (trailer ++ concat (map fst ms) ++ tail).

(** Skipping the header of what follows a member. *)
Lemma next_member z h w ms tail err :
  z_br z = Some h → Forall (λ m, member deflates m.1 m.2) ms → ending tail err →
  feeds w h (concat (map fst ms) ++ tail) →
  match ms with
  | [] => ∃ e z' w', skipHeader z w = Ret (Some e, z', w') ∧ err = if is_EOF e then None else Some e
  | m :: ms' => ∃ z' w', skipHeader z w = Ret (None, z', w') ∧ reading z' h w' m.2 ms' tail
  end.
Proof.
  intros Hz Hms He H. destruct ms as [|[b p] ms]; [by apply (skipHeader_ending z h w tail)|].
  apply Forall_cons in Hms as [Hm _]. cbn in H. rewrite <- app_assoc in H.
  destruct (skipHeader_member z h w b p _ Hz Hm H) as (z' & w' & t & E & Ht & Ho).
  exists z', w'. split; [done|]. by exists t.
Qed.

(** A call of [Read] returns some bytes and goes on, or returns the last bytes. *)
Lemma Read_reading ms : ∀ fuel z h w p tail err n,
  reading z h w p ms tail → Forall (λ m, member deflates m.1 m.2) ms → ending tail err →
  0 < n → (length ms < fuel)%nat →
  ∃ b e z' w', Read fuel z n w = Ret (b, e, z', w') ∧ lenZ b ≤ n ∧
    match e with
    | Some e => b = p ++ concat (map snd ms) ∧ err = if is_EOF e then None else Some e
    | None => b ≠ [] ∧ ∃ p' ms', reading z' h w' p' ms' tail ∧ ms' `suffix_of` ms ∧
        p ++ concat (map snd ms) = b ++ p' ++ concat (map snd ms')
    end.
Proof.
  induction ms as [|m ms IH]; intros fuel z h w p tail err n (t & Ht & Hz & d & Ed & Hd) Hms He Hn Hf;
    (destruct fuel as [|fuel]; [cbn in Hf; lia|]); cbn [Read]; rewrite Ed;
    destruct (flate_Read_yields d w h p _ n Hd Hn) as (b & er & d' & w1 & p' & -> & -> & Hb & Hcase);
    (destruct Hcase as [(-> & Hne & Hd')|(-> & -> & Hfeed)];
    [do 4 eexists; split; [done|]; split; [done|]; cbn;
     split; [done|]; eexists p', _; split; [exists t; split; [done|]; split; [done|]; by exists d'|];
     split; [done|by rewrite <- app_assoc]|]);
    cbn [negb is_EOF EOF]; unfold br; cbn [z_br set_decompressor]; rewrite Hz; go_simpl;
    destruct (br_Discard_app w1 h t _ Hfeed) as (w2 & Edis & H2);
    (assert (lenZ t = 8) as E8 by (unfold lenZ; lia)); rewrite E8 in Edis; rewrite Edis, app_nil_r;
    pose proof (next_member (set_decompressor z d') h w2 _ tail err Hz Hms He H2) as Hnext.
  - destruct Hnext as (e & z' & w3 & -> & Ee). go_simpl. do 4 eexists. split; [done|]. split; [done|]. cbn.
    by rewrite app_nil_r.
  - destruct Hnext as (z' & w3 & -> & Hr). go_simpl. apply Forall_cons in Hms as [_ Hms].
    destruct (lenZ b =? 0) eqn:E0.
    + assert (b = []) as -> by (destruct b; [done|rewrite lenZ_cons in E0; pose proof (lenZ_nonneg b); lia]).
      destruct (IH fuel z' h w3 m.2 tail err n Hr Hms He Hn ltac:(cbn in Hf; lia)) as (b & e & z2 & w4 & -> & Hb2 & H3).
      do 4 eexists. split; [done|]. split; [done|]. destruct e as [e|]; [done|].
      destruct H3 as (Hne & p2 & ms2 & Hr2 & Hs & E). split; [done|]. exists p2, ms2. split; [done|].
      split; [by apply suffix_cons_r|done].
    + do 4 eexists. split; [done|]. split; [done|]. cbn. split; [by intros ->|].
      exists m.2, ms. split; [done|]. split; [by apply suffix_cons_r|done].
Qed.

Lemma read_all_reading fuel : ∀ sizes z h w p ms tail err,
  (∀ i, 0 < sizes i) → reading z h w p ms tail → Forall (λ m, member deflates m.1 m.2) ms → ending tail err →
  (length ms + length (p ++ concat (map snd ms)) < fuel)%nat →
  read_all fuel sizes z w = Ret (p ++ concat (map snd ms), err).
Proof.
  induction fuel as [|fuel IH]; intros sizes z h w p ms tail err Hs Hr Hms He Hf; [lia|]. cbn [read_all].
  destruct (Read_reading ms (S fuel) z h w p tail err (sizes (S fuel)) Hr Hms He (Hs _) ltac:(lia))
    as (b & e & z' & w' & -> & _ & H). go_simpl. destruct e as [e|].
  { by destruct H as [-> ->]. }
  destruct H as (Hne & p' & ms' & Hr' & Hsuf & E). rewrite E in Hf.
  rewrite (IH sizes z' h w' p' ms' tail err Hs Hr'); [|by apply (Forall_suffix _ ms' ms)|done|].
  { go_simpl. by rewrite E. }
  apply suffix_length in Hsuf. rewrite length_app in Hf. destruct b; [done|]. cbn in Hf. lia.
Qed.

Lemma Reset_reads z h w content tail bs err :
  feeds w h (content ++ tail) → unzips deflates content bs → content ≠ [] → ending tail err →
  ∃ z' w', Reset z (Some h) w = Ret (None, z', w') ∧
    ∀ sizes fuel, (∀ i, 0 < sizes i) → (length content + length bs < fuel)%nat →
      read_all fuel sizes z' w' = Ret (bs, err).
Proof.
  intros H (ms & Hms & -> & ->) Hne He. unfold Reset.
  pose proof (next_member (mkReader (Some h) (decompressor z)) h w ms tail err eq_refl Hms He H) as Hnext.
  destruct ms as [|m ms]; [done|]. destruct Hnext as (z' & w' & E & Hr). exists z', w'. split; [done|].
  intros sizes fuel Hs Hf. pose proof Hms as Hall. apply Forall_cons in Hms as [_ Hms].
  apply (read_all_reading fuel sizes z' h w' m.2 ms tail err Hs Hr Hms He).
  enough (length (m :: ms) ≤ length (concat (map fst (m :: ms))))%nat by (cbn [map concat length] in *; lia).
  clear -Hall. induction Hall as [|[b p] l Hm _ IH]; [done|]. cbn [map concat length fst]. rewrite length_app.
  apply member_nonempty in Hm. destruct b; [done|cbn [length]; lia].
Qed.

(** C18: A reader of the pool, a used one or a new one, decompresses a source that
    delivers any sequence of gzip members: whatever buffers it is read with, it yields
    the data of all members one after the other, also those that are empty, then the end
    of file.  If the members are followed by at least ten bytes that do not start one,
    all of the data comes before ErrHeader. *)
Theorem Pool_Get_reads pool pick h w content tail bs err :
  feeds w h (content ++ tail) → unzips deflates content bs → content ≠ [] → ending tail err →
  ∃ z pool' w', Pool_Get pool pick h w = Ret ((Some z, None), pool', w') ∧
    ∀ sizes fuel, (∀ i, 0 < sizes i) → (length content + length bs < fuel)%nat →
      read_all fuel sizes z w' = Ret (bs, err).
Proof.
  intros H Hu Hne He. unfold Pool_Get, NewReader. destruct (i ← pick; z ← pool !! i; Some (i, z)) as [[i z]|].
  - destruct (Reset_reads z h w content tail bs err H Hu Hne He) as (z' & w' & -> & Hr). go_simpl. by do 3 eexists.
  - destruct (Reset_reads (mkReader None None) h w content tail bs err H Hu Hne He) as (z' & w' & -> & Hr).
    go_simpl. by do 3 eexists.
Qed.

End Correctness.

(** ** Witness: a source over a list, and a stand-in for DEFLATE

    In the stand-in each byte of the data is preceded by a one and a zero ends it. *)

Definition stored (p : list Z) : list Z := flat_map (λ b, [1; b]) p ++ [0].

(** At most [n] bytes of the data, whether it has ended, and what follows. *)
Fixpoint unstore (n : nat) (l : list Z) : list Z * bool * list Z :=
  match n, l with
  | _, 0 :: l => ([], true, l)
  | S n, 1 :: b :: l => let '(bs, e, l) := unstore n l in (b :: bs, e, l)
  | _, _ => ([], false, l)
  end.

Lemma unstore_stored p : ∀ n rest,
  ∃ bs (e : bool) p', p = bs ++ p' ∧ (length bs ≤ n)%nat ∧
    unstore n (stored p ++ rest) = (bs, e, if e then rest else stored p' ++ rest) ∧
    if e then p' = [] else (n ≠ 0%nat → bs ≠ []).
Proof.
  unfold stored. induction p as [|b p IH]; intros n rest.
  { exists [], true, []. split_and!; [done|cbn; lia| |done]. by destruct n. }
  destruct n as [|n]; [exists [], false, (b :: p); by split_and!|].
  destruct (IH n rest) as (bs & e & p' & -> & Hl & E & He). exists (b :: bs), e, p'. split; [done|].
  split; [cbn; lia|]. split; [|by destruct e].
  change (unstore (S n) ((flat_map (λ b, [1; b]) (b :: bs ++ p') ++ [0]) ++ rest)) with
    (let '(bs0, e, l) := unstore n ((flat_map (λ b, [1; b]) (bs ++ p') ++ [0]) ++ rest) in (b :: bs0, e, l)).
  by rewrite E.
Qed.

(** The source is the list, the decompressor has no state. *)
#[export] Instance list_gzip_ops : GzipOps unit (list Z) := {
  br_ReadBytes _ n w :=
    if (0 <=? n) && (n <=? lenZ w) then (sl (take (Z.to_nat n) w), None, drop (Z.to_nat n) w)
    else (sl [], Some EOF, w);
  br_Discard _ n w := (n, None, drop (Z.to_nat n) w);
  br_DiscardUntil _ c w :=
    match list_find (eq c) w with
    | Some (i, _) => (Z.of_nat i, None, drop i w)
    | None => (lenZ w, Some EOF, [])
    end;
  flate_NewReader _ := Some tt;
  flate_Reset d _ := (None, d);
  flate_Read d n w :=
    let '(bs, e, l) := unstore (Z.to_nat n) w in (bs, (if e : bool then Some EOF else None), d, l);
  flate_Close d := (None, d)
}.

#[export] Program Instance list_gzip_laws : GzipLaws unit (list Z) := {
  feeds w _ bs := w = bs;
  deflates c p := c = stored p;
  inflating _ w _ p rest := w = stored p ++ rest
}.
Next Obligation.
  intros w h p bs ->. cbn. replace ((0 <=? lenZ p) && (lenZ p <=? lenZ (p ++ bs))) with true by (symmetry; len_lia).
  rewrite take_app_lenZ, drop_app_lenZ by done. by do 2 eexists.
Qed.
Next Obligation.
  intros w h n -> Hn. cbn. destruct (_ && _) eqn:E; [|by do 2 eexists]. change (lenZ (@nil Z)) with 0 in E. lia.
Qed.
Next Obligation. intros w h p bs ->. cbn. rewrite drop_app_lenZ by done. by eexists. Qed.
Next Obligation.
  intros w h p c bs -> Hc. cbn. rewrite list_find_app_r.
  - cbn. rewrite decide_True by done. cbn. do 2 eexists. split; [done|]. by rewrite drop_app_length.
  - apply list_find_None, Forall_forall. by intros x Hx ->.
Qed.
Next Obligation. intros h. exists tt. split; [done|]. by intros w z p rest -> ->. Qed.
Next Obligation. intros [] h. exists tt. split; [done|]. by intros w z p rest -> ->. Qed.
Next Obligation.
  intros d w h p rest n -> Hn. cbn. destruct (unstore_stored p (Z.to_nat n) rest) as (bs & e & p' & -> & Hl & -> & He).
  do 5 eexists. split; [done|]. split; [done|]. split; [unfold lenZ; lia|]. destruct e.
  - right. by split_and!.
  - left. split; [done|]. split; [apply He; lia|done].
Qed.

Definition header0 : header :=
  mkHeader 31 [0; 0; 0; 0; 0; 255] (str "ex") (str "name") (str "comment") [1; 2].

(** A member with every optional part, and one without any. *)
Definition member0 (p : list Z) : list Z := header_bytes header0 ++ stored p ++ replicate 8 0.
Definition member1 (p : list Z) : list Z :=
  header_bytes (mkHeader 0 [0; 0; 0; 0; 0; 255] [] [] [] [0; 0]) ++ stored p ++ replicate 8 0.

Lemma member0_member p : member deflates (member0 p) p.
Proof.
  exists header0, (stored p), (replicate 8 0). split; [|done]. split; [done|].
  split; [done|]. split_and!; [..|done]; by apply (bool_decide_unpack _); vm_compute.
Qed.

Lemma member1_member p : member deflates (member1 p) p.
Proof.
  eexists _, (stored p), (replicate 8 0). split; [|done]. split; [done|].
  split; [done|]. split_and!; [..|done]; by apply not_elem_of_nil.
Qed.

Lemma Pool_Get_reads_witness :
  ∃ z pool' w',
    Pool_Get [mkReader None (Some tt)] (Some 0%nat) 0
      ((member0 [1; 2; 3] ++ member1 [] ++ member1 [4]) ++ replicate 10 7) =
      Ret ((Some z, None), pool', w') ∧
    ∀ sizes fuel, (∀ i, 0 < sizes i) →
      (length (member0 [1%Z; 2%Z; 3%Z] ++ member1 [] ++ member1 [4%Z]) + 4 < fuel)%nat →
      read_all fuel sizes z w' = Ret ([1; 2; 3; 4], Some ErrHeader).
Proof.
  refine (Pool_Get_reads [mkReader None (Some tt)] (Some 0%nat) 0 _ (member0 [1; 2; 3] ++ member1 [] ++ member1 [4])
    (replicate 10 7) [1; 2; 3; 4] (Some ErrHeader) eq_refl _ _ _).
  - exists [(member0 [1; 2; 3], [1; 2; 3]); (member1 [], []); (member1 [4], [4])]. split; [|done].
    repeat constructor; apply member0_member || apply member1_member.
  - done.
  - by apply (ending_garbage (replicate 10 7) []).
Defined.

(** ** A whole source through the reader

    The readers over lists of the transport phase use it where the server has its
    pool of gzip readers. *)

Definition gunzip_list (content : list Z) : option error * list Z :=
  match NewReader (D := unit) (Some 0%nat) content with
  | Ret ((Some z, None), w) =>
    match read_all (S (2 * length content)) (λ _, 4096) z w with
    | Ret (bs, err) => (err, bs)
    | Panic _ => (Some ErrHeader, [])
    end
  | Ret ((_, err), _) => (err, [])
  | Panic _ => (Some ErrHeader, [])
  end.

Abbreviation stored_members := (unzips (λ c p, c = stored p)).

Lemma stored_members_length content bs : stored_members content bs → (length bs ≤ length content)%nat.
Proof.
  assert (∀ p, (length p ≤ length (stored p))%nat) as Hst.
  { intros p. unfold stored. rewrite length_app. induction p as [|b p IH]; [cbn; lia|].
    cbn [flat_map app length] in *. lia. }
  intros (ms & Hms & -> & ->). induction Hms as [|[b p] ms (h & c & t & _ & E & _ & Eb) _ IH]; [done|].
  cbn [map concat fst snd] in *. rewrite !length_app. specialize (Hst p). subst b c. rewrite !length_app. lia.
Qed.

Lemma gunzip_list_members content bs :
  stored_members content bs → content ≠ [] → gunzip_list content = (None, bs).
Proof.
  intros Hu Hne. pose proof (stored_members_length content bs Hu).
  destruct (Reset_reads (D := unit) (mkReader None None) 0 content content [] bs None) as (z & w & E & Hr);
    [by rewrite app_nil_r|exact Hu|done|constructor|].
  unfold gunzip_list, NewReader. rewrite E. go_simpl. rewrite Hr; [done|done|lia].
Qed.
