(* ===== verification/Transport.v ===== *)
(** * Transport: the transport phase of a session (forward/transport/)

    The server reads a stream of messages in four forms: a single entry
    (MessageMode), an array of entries (ForwardMode), and entries packed in a
    binary value, as they are or compressed with gzip.  A state machine over these
    modes hands out one entry per call of [Next]; the caller reads the entry's
    record from the iterator that the entry names before it calls [Next] again.

    The entries of a packed message are read by an iterator of its own, over a
    reader that is limited to the binary value of the connection's iterator.  The
    two share the connection's ring: the model lends the ring to the inner reader and
    takes it back when the inner reader has come to its end.  [NestedOps] are
    the operations on limited readers and the rings above them (of
    github.com/webmafia/fast, and the pool of Gzip) with their laws [NestedLaws].

    The iterators of packed messages come from a pool.  [IterPool] has the iterators
    that were put back, with the ring and the token they had, and what the pool will
    decide to give out: which of them, or a new one.

    Calls that change the mode recurse; the fuel bounds them and the skipping of
    options, and [Next_ready] shows that the bytes to come plus two are enough. *)

From stdpp Require Import sets.
From S2P Require Import Prelude Types Errors Integer Headers Str Timestamp Object Strconv RingBuf Iter.
From S2P Require Gzip.

(** ** Nested readers *)

Class NestedOps (R L I : Type) := {
  (** a reader of at most so many bytes of a ring *)
  LimitReader : R → Z → L;
  (** the ring of a limited reader *)
  limit_ring : L → R;
  (** the same with [SetManualFlush] called on its ring *)
  limit_SetManualFlush : L → bool → L;
  Peek : L → Z → Slice * option error * L;
  (** a gzip reader of what it delivers, which is a reader over the same ring *)
  gzip_Get : L → option error * L;
  (** [ringbuf.NewReader], [Reset] of a ring that has been used, and [Reset(nil)] *)
  new_ring : L → I;
  reset_ring : I → L → I;
  unset_ring : I → I;
  (** the ring that an inner ring reads from *)
  lender : I → R
}.

(** ** entry.go, mode.go *)

Inductive Mode := MessageMode | ForwardMode | PackedForwardMode | CompressedPackedForwardMode.

#[export] Instance Mode_eq_dec : EqDecision Mode.
Proof. solve_decision. Defined.

Definition Mode_String (m : Mode) : list Z :=
  match m with
  | MessageMode => str "MessageMode"
  | ForwardMode => str "ForwardMode"
  | PackedForwardMode => str "PackedForwardMode"
  | CompressedPackedForwardMode => str "CompressedPackedForwardMode"
  end.

(** The iterator that an entry's record is read from: the connection's, or that of
    the current packed message. *)
Inductive record_iter := Orig | Inner.

Record Entry := mkEntry { e_Tag : list Z; e_Timestamp : Time; e_Record : option record_iter }.

(** ** transport_phase.go *)

Definition phase_errorf (m : Mode) (op : string) (err : report) : error :=
  match err with
  | RError e => Wrapf "%s, %s: %w" e [FStr (Mode_String m); FStr (str op)]
  | RString s | ROther s => Errorf "%s, %s: %v" [FStr (Mode_String m); FStr (str op); FStr s]
  end.

Definition phase_error (m : Mode) (op : string) (err : report) : error :=
  match err with
  | RError e => if is_EOF e then e else phase_errorf m op err
  | _ => phase_errorf m op err
  end.

Definition phase_errorNoEof (m : Mode) (op : string) (err : report) : error :=
  match err with
  | RError e => if is_EOF e then ErrUnexpectedEOF else phase_errorf m op err
  | _ => phase_errorf m op err
  end.

Definition minTagLen := 1.
Definition maxTagLen := 64.

(** ** gzip.go *)

Definition isGzip {R L I : Type} `{!NestedOps R L I} (r : L) : go (bool * option error * L) :=
  let '(magicNumbers, err, r) := Peek r 3 in
  match err with
  | Some _ => Ret (false, err, r)
  | None =>
    c2 ← index magicNumbers 2;
    c0 ← index magicNumbers 0;
    c1 ← index magicNumbers 1;
    Ret ((c0 =? 0x1f) && (c1 =? 0x8b) && (c2 =? 8), None, r)
  end.

Section Phase.
  Context {R L I A : Type} `{!RingOps R, !RingOps I, !NestedOps R L I}.
  (** the session's [ack] of a chunk, on a state of its own *)
  Variable ack : list Z → A → option error * A.

Record Forward := mkForward { f_tag : list Z; f_items : Z; f_hasOptions : bool }.

(** ** pkg/msgpack/iter_pool.go

    Any iterator of the pool may be given out, or none of them; if nothing is said, it is
    the one that was put back last. *)

Record IterPool := mkIterPool { iters : list (Iterator I); picks : list (option nat) }.

Definition iterPool_Get (r : L) (p : IterPool) : Iterator I * IterPool :=
  let n := match picks p with [] => O | pick :: _ => default (length (iters p)) pick end in
  match iters p !! n with
  | Some it => (with_reader it (reset_ring (it_r it) r), mkIterPool (delete n (iters p)) (tail (picks p)))
  | None => (NewIterator (new_ring r), mkIterPool (iters p) (tail (picks p)))
  end.

Definition iterPool_Put (it : Iterator I) (p : IterPool) : IterPool :=
  mkIterPool (with_reader it (unset_ring (it_r it)) :: iters p) (picks p).

(** The fields of PackedForwardMode, and of CompressedPackedForwardMode, whose gzip
    reader is below its iterator's ring. *)
Record Packed := mkPacked { p_iter : option (Iterator I); p_tag : list Z; p_hasOptions : bool }.

Record TransportPhase := mkTransportPhase {
  t_iterPool : IterPool;
  t_mode : Mode;
  forwardMode : Forward;
  packedMode : Packed;
  compMode : Packed
}.

(** A phase with the connection's iterator and the state of the acks. *)
Record Session := mkSession { phase : TransportPhase; orig : Iterator R; acks : A }.

Definition Init (it : Iterator R) (a : A) : Session :=
  mkSession (mkTransportPhase (mkIterPool [] []) MessageMode (mkForward [] 0 false) (mkPacked None [] false)
    (mkPacked None [] false)) it a.

Definition mode (s : Session) : Mode := t_mode (phase s).

Definition set_mode (s : Session) (m : Mode) : Session :=
  mkSession (mkTransportPhase (t_iterPool (phase s)) m (forwardMode (phase s)) (packedMode (phase s)) (compMode (phase s)))
    (orig s) (acks s).
Definition set_forward (s : Session) (f : Forward) : Session :=
  mkSession (mkTransportPhase (t_iterPool (phase s)) (mode s) f (packedMode (phase s)) (compMode (phase s))) (orig s) (acks s).

(** The packed mode of the name [m]; only the two packed modes are asked for. *)
Definition packed_of (m : Mode) (s : Session) : Packed :=
  if bool_decide (m = CompressedPackedForwardMode) then compMode (phase s) else packedMode (phase s).
Definition set_packed (m : Mode) (s : Session) (p : Packed) : Session :=
  mkSession (if bool_decide (m = CompressedPackedForwardMode)
             then mkTransportPhase (t_iterPool (phase s)) (mode s) (forwardMode (phase s)) (packedMode (phase s)) p
             else mkTransportPhase (t_iterPool (phase s)) (mode s) (forwardMode (phase s)) p (compMode (phase s)))
    (orig s) (acks s).
Definition set_pool (s : Session) (p : IterPool) : Session :=
  mkSession (mkTransportPhase p (mode s) (forwardMode (phase s)) (packedMode (phase s)) (compMode (phase s)))
    (orig s) (acks s).
Definition set_orig (s : Session) (it : Iterator R) : Session := mkSession (phase s) it (acks s).
Definition set_acks (s : Session) (a : A) : Session := mkSession (phase s) (orig s) a.

Definition set_Tag (e : Entry) (tag : list Z) : Entry := mkEntry tag (e_Timestamp e) (e_Record e).
Definition set_Timestamp (e : Entry) (t : Time) : Entry := mkEntry (e_Tag e) t (e_Record e).
Definition set_Record (e : Entry) (r : record_iter) : Entry := mkEntry (e_Tag e) (e_Timestamp e) (Some r).

(** The loop of [handleOptions] over [k] options. *)
Fixpoint options_loop (fuel k : nat) (m : Mode) (it : Iterator R) (a : A) :
    go (option error * Iterator R * A) :=
  match k with
  | O => Ret (None, it, a)
  | S k =>
    let '(err, it) := NextExpectedType it [Types.Str] in
    match err with
    | Some e => Ret (Some (phase_errorNoEof m "ack" (RError e)), it, a)
    | None =>
      let '(key, it) := Iter.Str it in
      let '(ok, it) := Next it in
      if negb ok then
        Ret (Some (phase_errorNoEof m "ack" (RError (default ErrUnexpectedEOF (it_err it)))), it, a)
      else if bool_decide (key ≠ str "chunk") then
        it ← Skip fuel it; options_loop fuel k m it a
      else
        let '(chunk, it) := Iter.Str it in
        let '(err, a) := ack chunk a in
        match err with
        | Some e => Ret (Some (phase_error m "ack" (RError e)), it, a)
        | None => options_loop fuel k m it a
        end
    end
  end.

Definition handleOptions (fuel : nat) (s : Session) : go (option error * Session) :=
  let '(err, it) := NextExpectedType (orig s) [Types.Map] in
  match err with
  | Some e => Ret (Some (phase_errorNoEof (mode s) "ack" (RError e)), set_orig s it)
  | None =>
    '(err, it, a) ← options_loop fuel (Z.to_nat (it_items it)) (mode s) it (acks s);
    Ret (err, set_acks (set_orig s it) a)
  end.

(** The [Leave] of each mode; those of the packed modes give the iterator, and the gzip
    reader below it, back to their pools. *)
Definition MessageMode_Leave (s : Session) : go (option error * Session) := Ret (None, s).

Definition ForwardMode_Leave (fuel : nat) (s : Session) : go (option error * Session) :=
  if f_hasOptions (forwardMode (phase s)) then handleOptions fuel s else Ret (None, s).

Definition PackedForwardMode_Leave (fuel : nat) (s : Session) : go (option error * Session) :=
  let p := packed_of PackedForwardMode s in
  match p_iter p with
  | None => Panic NilPointer
  | Some it =>
    let s := set_pool s (iterPool_Put it (t_iterPool (phase s))) in
    let s := set_packed PackedForwardMode s (mkPacked None (p_tag p) (p_hasOptions p)) in
    if p_hasOptions p then handleOptions fuel s else Ret (None, s)
  end.

Definition CompressedPackedForwardMode_Leave (fuel : nat) (s : Session) : go (option error * Session) :=
  let p := packed_of CompressedPackedForwardMode s in
  match p_iter p with
  | None => Panic NilPointer
  | Some it =>
    let s := set_pool s (iterPool_Put it (t_iterPool (phase s))) in
    let s := set_packed CompressedPackedForwardMode s (mkPacked None (p_tag p) (p_hasOptions p)) in
    if p_hasOptions p then handleOptions fuel s else Ret (None, s)
  end.

Definition Leave (fuel : nat) (s : Session) : go (option error * Session) :=
  match mode s with
  | MessageMode => MessageMode_Leave s
  | ForwardMode => ForwardMode_Leave fuel s
  | PackedForwardMode => PackedForwardMode_Leave fuel s
  | CompressedPackedForwardMode => CompressedPackedForwardMode_Leave fuel s
  end.

Section Modes.
  Variable fuel : nat.
  (** the recursive call of [TransportPhase.Next] *)
  Variable next : Session → Entry → go (option error * Session * Entry).

Definition changeMode (m : Mode) (s : Session) (e : Entry) : go (option error * Session * Entry) :=
  if bool_decide (m = mode s) then Ret (Some (Errorf "already in %s" [FStr (Mode_String m)]), s, e) else
  '(err, s) ← Leave fuel s;
  match err with
  | Some _ => Ret (err, s, e)
  | None => next (set_mode s m) e
  end.

(** ** The [Enter] of each mode *)

Definition MessageMode_Enter (s : Session) (e : Entry) : go (option error * Session * Entry) :=
  changeMode MessageMode (set_orig s (SetManualFlush (orig s) true)) e.

Definition ForwardMode_Enter (s : Session) (e : Entry) (items : Z) (hasOptions : bool) :
    go (option error * Session * Entry) :=
  let s := set_orig s (SetManualFlush (orig s) true) in
  changeMode ForwardMode (set_forward s (mkForward (e_Tag e) items hasOptions)) e.

(** [origIter.SetManualFlush(false)] is a call on the ring that has been lent to [r]: it is
    made on both. *)
Definition PackedForwardMode_Enter (s : Session) (e : Entry) (r : L) (hasOptions : bool) :
    go (option error * Session * Entry) :=
  let s := set_orig s (SetManualFlush (orig s) false) in
  let r := limit_SetManualFlush r false in
  let '(it, p) := iterPool_Get r (t_iterPool (phase s)) in
  let s := set_pool s p in
  changeMode PackedForwardMode (set_packed PackedForwardMode s (mkPacked (Some it) (e_Tag e) hasOptions)) e.

Definition CompressedPackedForwardMode_Enter (s : Session) (e : Entry) (r : L) (hasOptions : bool) :
    go (option error * Session * Entry) :=
  let s := set_orig s (SetManualFlush (orig s) false) in
  let r := limit_SetManualFlush r false in
  let '(err, r) := gzip_Get r in
  match err with
  | Some _ => Ret (err, set_orig s (with_reader (orig s) (limit_ring r)), e)
  | None =>
    let '(it, p) := iterPool_Get r (t_iterPool (phase s)) in
    let s := set_pool s p in
    changeMode CompressedPackedForwardMode
      (set_packed CompressedPackedForwardMode s (mkPacked (Some it) (e_Tag e) hasOptions)) e
  end.

(** ** The [Next] of each mode *)

(** The length of an array head, then the timestamp and the head of the record: the
    part that is the same in the three modes with many entries. *)
Definition next_pair {X} `{!RingOps X} (m : Mode) (tag : list Z) (rec : record_iter)
    (it : Iterator X) (e : Entry) : go (option error * Iterator X * Entry) :=
  if negb (it_items it =? 2) then
    Ret (Some (phase_error m "array_head"
      (RError (Errorf "unexpected array length: expected %d, got %d" [FNum 2; FNum (it_items it)]))), it, e)
  else
    let '(err, it) := NextExpectedType it [Ext; Types.Int; Types.Uint] in
    match err with
    | Some x => Ret (Some (phase_errorNoEof m "time" (RError x)), it, e)
    | None =>
      let e := set_Tag e tag in
      '(t, it) ← Timestamp it;
      let e := set_Timestamp e t in
      let '(err, it) := NextExpectedType it [Types.Map] in
      match err with
      | Some x => Ret (Some (phase_errorNoEof m "record" (RError x)), it, e)
      | None => Ret (None, it, set_Record e rec)
      end
    end.

(** message_mode.go: the rest of a single entry, from its time on ... *)
Definition single_entry (evLen : Z) (s : Session) (it : Iterator R) (e : Entry) :
    go (option error * Session * Entry) :=
  let m := mode s in
  '(t, it) ← Timestamp it;
  let e := set_Timestamp e t in
  let '(err, it) := NextExpectedType it [Types.Map] in
  match err with
  | Some x => Ret (Some (phase_errorNoEof m "record" (RError x)), set_orig s it, e)
  | None =>
    let e := set_Record e Orig in
    let s := set_orig s it in
    if evLen =? 4 then '(err, s) ← handleOptions fuel s; Ret (err, s, e) else Ret (None, s, e)
  end.

(** ... and of a message with packed entries. *)
Definition packed_entries (evLen : Z) (s : Session) (it : Iterator R) (e : Entry) :
    go (option error * Session * Entry) :=
  let m := mode s in
  let limitR := LimitReader (it_r it) (it_length it) in
  '(gz, err, limitR) ← isGzip limitR;
  match err with
  | Some x =>
    Ret (Some (phase_error m "is_gzip" (RError x)), set_orig s (with_reader it (limit_ring limitR)), e)
  | None =>
    if (gz : bool) then CompressedPackedForwardMode_Enter (set_orig s it) e limitR (evLen =? 3)
    else PackedForwardMode_Enter (set_orig s it) e limitR (evLen =? 3)
  end.

Definition MessageMode_Next (s : Session) (e : Entry) : go (option error * Session * Entry) :=
  let m := mode s in
  let it := Iter.Flush (orig s) in
  let '(err, it) := NextExpectedType it [Types.Array] in
  match err with
  | Some x => Ret (Some (phase_error m "array_head" (RError x)), set_orig s it, e)
  | None =>
  let evLen := it_items it in
  if (evLen <? 2) || (4 <? evLen) then
    Ret (Some (phase_error m "array_head" (RError (Errorf "unexpected array length: %d" [FNum evLen]))),
      set_orig s it, e)
  else
  let '(err, it) := NextExpectedType it [Types.Str] in
  match err with
  | Some x => Ret (Some (phase_errorNoEof m "tag" (RError x)), set_orig s it, e)
  | None =>
  if it_length it <? minTagLen then
    Ret (Some (phase_error m "tag" (RError (Errorf "too short tag (%d chars), must be min %d chars"
      [FNum (it_length it); FNum minTagLen]))), set_orig s it, e)
  else if maxTagLen <? it_length it then
    Ret (Some (phase_error m "tag" (RError (Errorf "too long tag (%d chars), must be max %d chars"
      [FNum (it_length it); FNum maxTagLen]))), set_orig s it, e)
  else
  let '(tag, it) := Iter.Str it in
  let e := set_Tag e tag in
  let '(ok, it) := Next it in
  if negb ok then
    Ret (Some (phase_errorNoEof m "time_or_entries"
      (match it_err it with Some x => RError x | None => ROther (str "<nil>") end)), set_orig s it, e)
  else
  match it_typ it with
  | Ext | Types.Int | Types.Uint => single_entry evLen s it e
  | Types.Array => ForwardMode_Enter (set_orig s it) e (it_items it) (evLen =? 3)
  | Types.Bin => packed_entries evLen s it e
  | _ => Ret (Some (phase_error m "time_or_entries" (RString (str "invalid entry"))), set_orig s it, e)
  end
  end
  end.

(** forward_mode.go *)
Definition ForwardMode_Next (s : Session) (e : Entry) : go (option error * Session * Entry) :=
  let f := forwardMode (phase s) in
  let s := set_orig s (Iter.Flush (orig s)) in
  if f_items f <=? 0 then MessageMode_Enter s e else
  let '(err, it) := NextExpectedType (orig s) [Types.Array] in
  match err with
  | Some x => Ret (Some (phase_error (mode s) "array_head" (RError x)), set_orig s it, e)
  | None =>
    '(err, it, e) ← next_pair (mode s) (f_tag f) Orig it e;
    let s := set_orig s it in
    match err with
    | Some _ => Ret (err, s, e)
    | None => Ret (None, set_forward s (mkForward (f_tag f) (f_items f - 1) (f_hasOptions f)), e)
    end
  end.

(** The part that packed_forward_mode.go and compressed_packed_forward_mode.go share. *)
Definition Packed_Next (m : Mode) (s : Session) (e : Entry) : go (option error * Session * Entry) :=
  let p := packed_of m s in
  let with_iter it := set_packed m s (mkPacked (Some it) (p_tag p) (p_hasOptions p)) in
  match p_iter p with
  | None => Panic NilPointer
  | Some it =>
    let '(err, it) := NextExpectedType (Iter.Flush it) [Types.Array] in
    match err with
    | Some x =>
      let s := with_iter it in
      if is_EOF x then MessageMode_Enter (set_orig s (with_reader (orig s) (lender (it_r it)))) e
      else Ret (Some (phase_error m "array_head" (RError x)), s, e)
    | None =>
      '(err, it, e) ← next_pair m (p_tag p) Inner it e;
      Ret (err, with_iter it, e)
    end
  end.

Definition PackedForwardMode_Next (s : Session) (e : Entry) : go (option error * Session * Entry) :=
  Packed_Next PackedForwardMode s e.

Definition CompressedPackedForwardMode_Next (s : Session) (e : Entry) : go (option error * Session * Entry) :=
  Packed_Next CompressedPackedForwardMode s e.

End Modes.

(** [TransportPhase.Next] *)
Fixpoint Next (fuel : nat) (s : Session) (e : Entry) : go (option error * Session * Entry) :=
  match fuel with
  | O => Panic OutOfFuel
  | S fuel =>
    match mode s with
    | MessageMode => MessageMode_Next fuel (Next fuel) s e
    | ForwardMode => ForwardMode_Next fuel (Next fuel) s e
    | PackedForwardMode => PackedForwardMode_Next fuel (Next fuel) s e
    | CompressedPackedForwardMode => CompressedPackedForwardMode_Next fuel (Next fuel) s e
    end
  end.

End Phase.
Arguments Session : clear implicits.

(** ** The laws of nested readers *)

(** [limited l p rest]: the reader delivers [p], after which its ring delivers
    [rest]; a gzip reader delivers what [p] decompresses to.  A ring over a reader, new
    or used before, delivers what the reader does; when it has come to its end, the
    ring below delivers [rest]. *)
Class NestedLaws (R L I : Type) `{!RingOps R, !RingOps I, !NestedOps R L I, !RingLaws R} := {
  limited : L → list Z → list Z → Prop;
  gunzips : list Z → list Z → Prop;
  nested : list Z → RingLaws I;
  LimitReader_limited r p rest n :
    delivers r (p ++ rest) → n = lenZ p → limited (LimitReader r n) p rest;
  limit_SetManualFlush_limited l v p rest :
    limited l p rest → limited (limit_SetManualFlush l v) p rest;
  Peek_limited l p rest n :
    limited l p rest → 0 ≤ n ≤ lenZ p →
    ∃ sp l', Peek l n = (mkSlice (take (Z.to_nat n) p) sp, None, l') ∧ limited l' p rest;
  gzip_Get_limited l p rest bs :
    limited l p rest → gunzips p bs → ∃ l', gzip_Get l = (None, l') ∧ limited l' bs rest;
  new_ring_delivers l p rest :
    limited l p rest → @delivers I _ (nested rest) (new_ring l) p;
  reset_ring_delivers i l p rest :
    limited l p rest → @delivers I _ (nested rest) (reset_ring i l) p;
  lender_delivers i rest : @delivers I _ (nested rest) i [] → delivers (lender i) rest
}.

(** ** Tokens of a message *)

Section Tokens.
  Context `{RingLaws X}.

Lemma NextExpectedType_ok (it it1 : Iterator X) expected :
  Iter.Next it = (true, it1) → it_typ it1 ∈ expected → NextExpectedType it expected = (None, it1).
Proof.
  intros EN Ht. unfold NextExpectedType. rewrite EN. cbn [negb].
  destruct (existsb _ _) eqn:E; [done|]. exfalso. revert E. apply not_false_iff_true.
  apply existsb_exists. exists (it_typ it1). split; [by apply list_elem_of_In|by apply bool_decide_eq_true].
Qed.

Lemma NextExpectedType_EOF (it : Iterator X) expected :
  delivers (it_r it) [] → ∃ it1, NextExpectedType it expected = (Some EOF, it1) ∧ delivers (it_r it1) [].
Proof.
  intros Hd. unfold NextExpectedType, Iter.Next. destruct (ReadByte_nil _ Hd) as (c & r' & E & Hd').
  cbn [with_err it_r]. rewrite E. cbn. by eexists.
Qed.

Lemma NextExpectedType_other (it it1 : Iterator X) expected :
  Iter.Next it = (true, it1) → it_typ it1 ∉ expected →
  ∃ e, NextExpectedType it expected = (Some e, it1) ∧ is_EOF e = false.
Proof.
  intros EN Ht. unfold NextExpectedType. rewrite EN. cbn [negb].
  destruct (existsb _ _) eqn:E; [|by eexists]. exfalso. apply Ht.
  apply existsb_exists in E as (t & Hin & Et). apply bool_decide_eq_true in Et. subst t.
  by apply list_elem_of_In.
Qed.

(** A string or binary token and its bytes. *)
Lemma text_token (it : Iterator X) s x bs rest :
  delivers (it_r it) (bs ++ rest) → s = SStr x ∨ s = SBin x → encodes (OScalar s) bs →
  ∃ it1 it2, Iter.Next it = (true, it1) ∧ it_typ it1 = scalar_type s ∧
    it_length it1 = lenZ x ∧ Iter.Str it1 = (x, it2) ∧ delivers (it_r it2) rest.
Proof.
  intros Hd Hsx Hes. destruct (Next_scalar it s bs rest Hd Hes) as (hd & body & r' & E & EN & Hd' & _ & Hb).
  assert (body = x) as -> by by destruct Hsx as [-> | ->].
  destruct (raw_scalar r' s hd x rest Hd') as (sp & it2 & Eraw & _ & _ & Hd2).
  eexists _, it2. split; [exact EN|]. split; [done|].
  split; [by destruct Hsx as [-> | ->]|]. unfold Iter.Str. by rewrite Eraw.
Qed.

(** The value of an option. *)
Lemma option_token (it : Iterator X) x bs rest :
  delivers (it_r it) (bs ++ rest) → encodes (OScalar (SStr x)) bs ∨ encodes (OScalar (SBin x)) bs →
  ∃ it1 it2, Iter.Next it = (true, it1) ∧ Iter.Str it1 = (x, it2) ∧ delivers (it_r it2) rest.
Proof.
  intros Hd [He|He].
  - destruct (text_token it (SStr x) x bs rest Hd ltac:(auto) He) as (it1 & it2 & EN & _ & _ & Es & Hd2).
    by exists it1, it2.
  - destruct (text_token it (SBin x) x bs rest Hd ltac:(auto) He) as (it1 & it2 & EN & _ & _ & Es & Hd2).
    by exists it1, it2.
Qed.

Lemma Str_token (it : Iterator X) x bs rest :
  delivers (it_r it) (bs ++ rest) → encodes (OScalar (SStr x)) bs →
  ∃ it1 it2, Iter.Next it = (true, it1) ∧ it_typ it1 = Types.Str ∧
    it_length it1 = lenZ x ∧ Iter.Str it1 = (x, it2) ∧ delivers (it_r it2) rest.
Proof. intros Hd. by apply (text_token it (SStr x)); [|left]. Qed.

(** A boolean token. *)
Lemma Bool_token (it : Iterator X) b bs rest :
  delivers (it_r it) (bs ++ rest) → encodes (OScalar (SBool b)) bs →
  ∃ it1, Iter.Next it = (true, it1) ∧ it_typ it1 = Types.Bool ∧ Iter.Bool it1 = b ∧ delivers (it_r it1) rest.
Proof.
  intros Hd He. destruct (Any_at it (SBool b) bs rest Hd He) as (it1 & it2 & EN & Et & EA & _ & Hd2).
  exists it1. unfold Any in EA. rewrite Et in EA. cbn [scalar_type value_of] in EA.
  injection EA as <- <-. by split_and!.
Qed.

(** The head of an array and of a map. *)
Lemma Array_token (it : Iterator X) os bs rest :
  delivers (it_r it) (bs ++ rest) → encodes (OArray os) bs →
  ∃ it1 bss, Iter.Next it = (true, it1) ∧ it_typ it1 = Types.Array ∧ it_items it1 = lenZ os ∧
    Forall2 encodes os bss ∧ delivers (it_r it1) (concat bss ++ rest) ∧
    (length (concat bss) < length bs)%nat.
Proof.
  intros Hd He. inversion He as [|? hd bss Hh H2|]; subst. rewrite <- app_assoc in Hd.
  destruct (Next_at it _ _ _ _ Hd Hh) as (r1 & EN & Hd1). pose proof (length_header_pos _ _ _ Hh) as Hpos.
  eexists _, bss. split; [exact EN|]. split_and!; try done. rewrite length_app. unfold lenZ in Hpos. lia.
Qed.

Lemma Map_token (it : Iterator X) kvs bs rest :
  delivers (it_r it) (bs ++ rest) → encodes (OMap kvs) bs →
  ∃ it1 bss, Iter.Next it = (true, it1) ∧ it_typ it1 = Types.Map ∧ it_items it1 = lenZ kvs ∧
    Forall2 encodes (flatten kvs) bss ∧ delivers (it_r it1) (concat bss ++ rest) ∧
    (length (concat bss) < length bs)%nat.
Proof.
  intros Hd He. inversion He as [| |? hd bss Hh H2]; subst. rewrite <- app_assoc in Hd.
  destruct (Next_at it _ _ _ _ Hd Hh) as (r1 & EN & Hd1). pose proof (length_header_pos _ _ _ Hh) as Hpos.
  eexists _, bss. split; [exact EN|]. split_and!; try done. rewrite length_app. unfold lenZ in Hpos. lia.
Qed.

Lemma time_cases t f :
  scalar_type (STime t f) = Ext ∨ scalar_type (STime t f) = Types.Int ∨ scalar_type (STime t f) = Types.Uint.
Proof. destruct t as [u n], f; cbn [scalar_type]; repeat case_match; auto. Qed.

Lemma time_type t f : scalar_type (STime t f) ∈ [Ext; Types.Int; Types.Uint].
Proof. destruct (time_cases t f) as [->|[->| ->]]; set_solver. Qed.

(** Any object's first token. *)
Lemma obj_token (it : Iterator X) o bs rest fuel :
  delivers (it_r it) (bs ++ rest) → encodes o bs → (length bs < fuel)%nat →
  ∃ it1 it2, Iter.Next it = (true, it1) ∧ Skip fuel it1 = Ret it2 ∧ delivers (it_r it2) rest.
Proof. intros Hd He Hf. by apply (Skip_encodes o bs fuel He Hf it rest). Qed.

End Tokens.

(** ** The messages of a stream *)

(** An entry as it is sent: its time, in a format, and the fields of its record. *)
Abbreviation sent := (Time * TsFormat * list (list Z * obj))%type.

(** An entry as it arrives. *)
Record event := mkEvent { ev_tag : list Z; ev_time : Time; ev_fields : list (list Z * obj) }.

Definition event_of (tag : list Z) (x : sent) : event := mkEvent tag (ts_stored_as x.1.2 x.1.1) x.2.

Definition pair_obj (x : sent) : obj := OArray [OScalar (STime x.1.1 x.1.2); record_obj x.2].

Abbreviation options := (option (list (list Z * obj))).

(** The chunk that an option names. *)
Definition chunk_of (kv : list Z * obj) : list (list Z) :=
  if bool_decide (kv.1 = str "chunk") then
    match kv.2 with OScalar (SStr x) | OScalar (SBin x) => [x] | _ => [] end
  else [].

Definition valid_option (kv : list Z * obj) : Prop :=
  kv.1 = str "chunk" → ∃ x, kv.2 = OScalar (SStr x) ∨ kv.2 = OScalar (SBin x).

Definition chunks_of (opts : options) : list (list Z) :=
  match opts with None => [] | Some kvs => flat_map chunk_of kvs end.

Definition options_obj (opts : options) : list obj :=
  match opts with None => [] | Some kvs => [record_obj kvs] end.

Definition valid_options (opts : options) : Prop :=
  match opts with None => True | Some kvs => Forall valid_option kvs end.

Definition valid_tag (tag : list Z) : Prop := minTagLen ≤ lenZ tag ≤ maxTagLen.

Section Wire.
  Variable gunzips : list Z → list Z → Prop.

(** [wire evs cs bs z]: the bytes [bs] are a message with the entries [evs] that asks
    for the chunks [cs] to be acknowledged; it decompresses to [z] bytes. *)
Inductive wire : list event → list (list Z) → list Z → nat → Prop :=
  | wire_message tag x bs :
      valid_tag tag →
      encodes (OArray [OScalar (SStr tag); OScalar (STime x.1.1 x.1.2); record_obj x.2]) bs →
      wire [event_of tag x] [] bs 0
  | wire_forward tag xs opts bs :
      valid_tag tag → valid_options opts →
      encodes (OArray (OScalar (SStr tag) :: OArray (map pair_obj xs) :: options_obj opts)) bs →
      wire (map (event_of tag) xs) (chunks_of opts) bs 0
  | wire_packed tag xs opts bss bs :
      valid_tag tag → valid_options opts → xs ≠ [] → Forall2 encodes (map pair_obj xs) bss →
      encodes (OArray (OScalar (SStr tag) :: OScalar (SBin (concat bss)) :: options_obj opts)) bs →
      wire (map (event_of tag) xs) (chunks_of opts) bs 0
  | wire_compressed tag xs opts bss content bs :
      valid_tag tag → valid_options opts → Forall2 encodes (map pair_obj xs) bss →
      take 3 content = [0x1f; 0x8b; 8] → gunzips content (concat bss) →
      encodes (OArray (OScalar (SStr tag) :: OScalar (SBin content) :: options_obj opts)) bs →
      wire (map (event_of tag) xs) (chunks_of opts) bs (length (concat bss)).

Inductive stream : list event → list (list Z) → list Z → nat → Prop :=
  | stream_nil : stream [] [] [] 0
  | stream_cons evs cs bs z evs' cs' bs' z' :
      wire evs cs bs z → stream evs' cs' bs' z' →
      stream (evs ++ evs') (cs ++ cs') (bs ++ bs') (z + z').

End Wire.

Lemma tag_ok tag : valid_tag tag →
  (lenZ tag <? minTagLen) = false ∧ (maxTagLen <? lenZ tag) = false.
Proof. unfold valid_tag. lia. Qed.

Section Head.
  Context `{RingLaws R}.

(** The head of a message: the array and the tag. *)
Lemma message_head (it : Iterator R) tag o os bs rest :
  valid_tag tag → encodes (OArray (OScalar (SStr tag) :: o :: os)) bs →
  delivers (it_r it) (bs ++ rest) →
  ∃ it1 it2 it3 ob bss, NextExpectedType (Iter.Flush it) [Types.Array] = (None, it1) ∧
    it_items it1 = 2 + lenZ os ∧ NextExpectedType it1 [Types.Str] = (None, it2) ∧
    it_length it2 = lenZ tag ∧ Iter.Str it2 = (tag, it3) ∧ encodes o ob ∧ Forall2 encodes os bss ∧
    delivers (it_r it3) (ob ++ concat bss ++ rest) ∧
    (2 + length (ob ++ concat bss) < length bs)%nat.
Proof.
  intros Ht He Hd.
  assert (delivers (it_r (Iter.Flush it)) (bs ++ rest)) as Hd0 by by apply Flush_delivers.
  destruct (Array_token _ _ bs rest Hd0 He) as (it1 & bss & EN & Et & Ei & H2 & Hd1 & Hl).
  apply Forall2_cons_inv_l in H2 as (tb & bss1 & Htb & H2 & ->).
  apply Forall2_cons_inv_l in H2 as (ob & bss2 & Hob & H2 & ->).
  cbn [concat] in Hd1, Hl. rewrite <- !app_assoc in Hd1. rewrite !length_app in Hl.
  destruct (Str_token it1 tag tb _ Hd1 Htb) as (it2 & it3 & EN2 & Et2 & El2 & Es2 & Hd3).
  exists it1, it2, it3, ob, bss2. split_and!; try done.
  - apply NextExpectedType_ok; [done|]. rewrite Et. set_solver.
  - rewrite Ei. len_lia.
  - apply NextExpectedType_ok; [done|]. rewrite Et2. set_solver.
  - rewrite length_app.
    assert (1 < length tb)%nat; [|lia]. inversion Htb as [? hd body Hh _ Hb| |]; subst.
    pose proof (length_header_pos _ _ _ Hh) as Hpos. cbn in Hb. subst body. unfold valid_tag, minTagLen in Ht.
    rewrite length_app. unfold lenZ in *. lia.
Qed.

End Head.

(** ** What [Next] does on a stream *)

Section Stream.
  Context {R L I A : Type} `{!RingOps R, !RingOps I, !NestedOps R L I, !RingLaws R, !NestedLaws R L I}.
  Context (ack : list Z → A → option error * A).

#[local] Existing Instance nested.

(** The acknowledgements of some chunks. *)
Definition acked (a : A) (cs : list (list Z)) : A := fold_left (λ a c, (ack c a).2) cs a.

(** They all succeed. *)
Fixpoint acks_ok (a : A) (cs : list (list Z)) : Prop :=
  match cs with
  | [] => True
  | c :: cs => (ack c a).1 = None ∧ acks_ok (ack c a).2 cs
  end.

Lemma acks_ok_app c1 c2 : ∀ a, acks_ok a (c1 ++ c2) ↔ acks_ok a c1 ∧ acks_ok (acked a c1) c2.
Proof. induction c1 as [|c c1 IH]; intros a; cbn; [tauto|]. rewrite IH. tauto. Qed.

Lemma acks_ok_always a cs : (∀ c a, (ack c a).1 = None) → acks_ok a cs.
Proof. intros Ha. revert a. by induction cs; cbn. Qed.

Abbreviation session := (Session R I A).

(** The options of a message. *)
Definition opts_encode (opts : options) (bs : list Z) : Prop :=
  match opts with None => bs = [] | Some kvs => encodes (record_obj kvs) bs end.

Definition has_options (opts : options) : bool := match opts with None => false | Some _ => true end.

Lemma options_loop_ok fuel m kvs : ∀ bss (it : Iterator R) a rest,
  Forall valid_option kvs →
  Forall2 encodes (flatten (map (λ f, (OScalar (SStr f.1), f.2)) kvs)) bss →
  delivers (it_r it) (concat bss ++ rest) → (length (concat bss) < fuel)%nat →
  acks_ok a (flat_map chunk_of kvs) →
  ∃ it', options_loop ack fuel (length kvs) m it a =
      Ret (None, it', acked a (flat_map chunk_of kvs)) ∧ delivers (it_r it') rest.
Proof.
  induction kvs as [|[k v] kvs IH]; intros bss it a rest Hv H2 Hd Hf Ha.
  { inversion H2; subst. by exists it. }
  cbn [flat_map] in Ha. apply acks_ok_app in Ha as [Ha Has].
  apply Forall_cons in Hv as [Hkv Hv]. unfold flatten in H2. cbn [map flat_map app fst snd] in H2.
  apply Forall2_cons_inv_l in H2 as (kb & bss1 & Hk & H2 & ->).
  apply Forall2_cons_inv_l in H2 as (vb & bss2 & Hvb & H2 & ->).
  cbn [concat] in Hd, Hf. rewrite <- !app_assoc in Hd. rewrite !length_app in Hf.
  destruct (Str_token it k kb _ Hd Hk) as (it1 & it2 & EN & Et & _ & Es & Hd2).
  cbn [length options_loop].
  rewrite (NextExpectedType_ok it it1) by (done || rewrite Et; set_solver). rewrite Es.
  destruct (bool_decide (k ≠ str "chunk")) eqn:Ek.
  - apply bool_decide_eq_true in Ek.
    destruct (obj_token it2 v vb _ fuel Hd2 Hvb ltac:(lia)) as (it3 & it4 & EN3 & ES & Hd4).
    rewrite EN3. cbn [negb]. rewrite ES. go_simpl.
    assert (chunk_of (k, v) = []) as Hc by (unfold chunk_of; cbn [fst]; by rewrite bool_decide_false).
    rewrite Hc in Has. destruct (IH bss2 it4 a rest Hv H2 Hd4 ltac:(lia) Has) as (it' & -> & Hd'). exists it'.
    split; [|done]. cbn [flat_map]. by rewrite Hc.
  - apply bool_decide_eq_false, dec_stable in Ek. destruct (Hkv Ek) as (x & Hx). cbn [snd] in Hx.
    destruct (option_token it2 x vb _ Hd2) as (it3 & it4 & EN3 & Es3 & Hd4).
    { by destruct Hx as [-> | ->]; [left|right]. }
    assert (chunk_of (k, v) = [x]) as Hc.
    { unfold chunk_of. cbn [fst snd]. rewrite bool_decide_true by done. by destruct Hx as [-> | ->]. }
    rewrite Hc in Ha, Has. cbn [acks_ok acked fold_left] in Ha, Has. destruct Ha as [Ha _].
    rewrite EN3. cbn [negb]. rewrite Es3.
    destruct (ack x a) as [err a'] eqn:Ea. cbn in Ha, Has. subst err.
    destruct (IH bss2 it4 a' rest Hv H2 Hd4 ltac:(lia) Has) as (it' & -> & Hd'). exists it'.
    split; [|done]. cbn [flat_map]. rewrite Hc. cbn [app acked fold_left]. by rewrite Ea.
Qed.

Lemma handleOptions_ok fuel (s : session) kvs obs rest :
  Forall valid_option kvs → encodes (record_obj kvs) obs →
  delivers (it_r (orig s)) (obs ++ rest) → (length obs < fuel)%nat →
  acks_ok (acks s) (flat_map chunk_of kvs) →
  ∃ it', handleOptions ack fuel s =
      Ret (None, set_acks (set_orig s it') (acked (acks s) (flat_map chunk_of kvs))) ∧
    delivers (it_r it') rest.
Proof.
  intros Hv He Hd Hf Ha. unfold handleOptions.
  destruct (Map_token (orig s) _ obs rest Hd He) as (it1 & bss & EN & Et & Ei & H2 & Hd1 & Hl).
  rewrite (NextExpectedType_ok (orig s) it1) by (done || rewrite Et; set_solver).
  rewrite Ei. unfold lenZ. rewrite Nat2Z.id, length_map.
  destruct (options_loop_ok fuel (mode s) kvs bss it1 (acks s) rest Hv H2 Hd1 ltac:(lia) Ha) as (it' & -> & Hd').
  by exists it'.
Qed.

(** The iterator of the current packed message. *)
Definition set_inner (s : session) (it : Iterator I) : session :=
  let p := packed_of (mode s) s in set_packed (mode s) s (mkPacked (Some it) (p_tag p) (p_hasOptions p)).

Lemma mode_set_packed m (s : session) p : mode (set_packed m s p) = mode s.
Proof. unfold set_packed, mode. by destruct (bool_decide _). Qed.

Lemma packed_of_set_packed m (s : session) p : packed_of m (set_packed m s p) = p.
Proof. unfold set_packed, packed_of. by destruct (bool_decide _). Qed.

Lemma acks_set_packed m (s : session) p : acks (set_packed m s p) = acks s.
Proof. done. Qed.

Definition is_packed (m : Mode) : Prop := m = PackedForwardMode ∨ m = CompressedPackedForwardMode.

(** Between entries: the session will hand out [evs] and acknowledge [cs], and then
    the stream ends; at most [n] bytes are to come, those to be decompressed
    included. *)
Inductive ready : session → list event → list (list Z) → nat → Prop :=
  | ready_message s evs cs bs z :
      mode s = MessageMode → stream gunzips evs cs bs z → delivers (it_r (orig s)) bs →
      ready s evs cs (length bs + z)
  | ready_forward s tag xs bss opts obs evs cs bs z :
      mode s = ForwardMode → forwardMode (phase s) = mkForward tag (lenZ xs) (has_options opts) →
      valid_options opts → opts_encode opts obs → Forall2 encodes (map pair_obj xs) bss →
      stream gunzips evs cs bs z → delivers (it_r (orig s)) (concat bss ++ obs ++ bs) →
      ready s (map (event_of tag) xs ++ evs) (chunks_of opts ++ cs)
        (length (concat bss) + length (obs ++ bs) + z)
  | ready_packed s it tag xs bss opts obs evs cs bs z :
      is_packed (mode s) → packed_of (mode s) s = mkPacked (Some it) tag (has_options opts) →
      valid_options opts → opts_encode opts obs → Forall2 encodes (map pair_obj xs) bss →
      stream gunzips evs cs bs z → @delivers I _ (nested (obs ++ bs)) (it_r it) (concat bss) →
      ready s (map (event_of tag) xs ++ evs) (chunks_of opts ++ cs)
        (length (concat bss) + length (obs ++ bs) + z).

(** The iterator [it] is at the record with the fields [fs], of [k] bytes; [P] is
    what holds once its reader is where the record ends. *)
Definition at_record `{RingLaws X} (it : Iterator X) (fs : list (list Z * obj)) (k : nat)
    (P : Iterator X → Prop) : Prop :=
  ∃ bss rest, it_items it = lenZ fs ∧ length (concat bss) = k ∧
    Forall2 encodes (flatten (map (λ f, (OScalar (SStr f.1), f.2)) fs)) bss ∧
    delivers (it_r it) (concat bss ++ rest) ∧ ∀ it', delivers (it_r it') rest → P it'.

(** An entry was handed out: its record, of at most [n] bytes, is to be read from the
    iterator [rec], and then the session is ready for the rest. *)
Definition reading (s : session) (rec : record_iter) (fs : list (list Z * obj))
    (evs : list event) (cs : list (list Z)) (n : nat) : Prop :=
  ∃ k m, (k + m ≤ n)%nat ∧
  match rec with
  | Orig => at_record (orig s) fs k (λ it, ready (set_orig s it) evs cs m)
  | Inner => ∃ it rest, is_packed (mode s) ∧ p_iter (packed_of (mode s) s) = Some it ∧
      @at_record I _ (nested rest) it fs k (λ it, ready (set_inner s it) evs cs m)
  end.

(** What a call of [Next] gives on a session that is ready. *)
Definition outcome (fuel : nat) (s : session) (e : Entry) (evs : list event) (cs : list (list Z))
    (n : nat) : Prop :=
  match evs with
  | [] => ∃ s' e', Next ack fuel s e = Ret (Some EOF, s', e') ∧ acks s' = acked (acks s) cs ∧
      mode s' = MessageMode
  | ev :: evs => ∃ s' rec c1 c2 n',
      Next ack fuel s e = Ret (None, s', mkEntry (ev_tag ev) (ev_time ev) (Some rec)) ∧
      cs = c1 ++ c2 ∧ acks s' = acked (acks s) c1 ∧ reading s' rec (ev_fields ev) evs c2 n' ∧ (n' < n)%nat
  end.

(** An entry of a message with many. *)
Lemma entry_ok `{RingLaws X} m tag rec (it : Iterator X) e x bs rest :
  delivers (it_r it) (bs ++ rest) → encodes (pair_obj x) bs →
  ∃ it1 it', NextExpectedType it [Types.Array] = (None, it1) ∧
    next_pair m tag rec it1 e =
      Ret (None, it', mkEntry tag (ts_stored_as x.1.2 x.1.1) (Some rec)) ∧
    reads (it_r it) (it_r it') ∧
    ∃ k, (k < length bs)%nat ∧
    ∀ P : Iterator X → Prop, (∀ it2, delivers (it_r it2) rest → P it2) → at_record it' x.2 k P.
Proof.
  intros Hd He. destruct (Array_token it _ bs rest Hd He) as (it1 & bss & EN & Et & Ei & H2 & Hd1 & Hl1).
  apply Forall2_cons_inv_l in H2 as (tb & bss1 & Htb & H2 & ->).
  apply Forall2_cons_inv_l in H2 as (rb & bss2 & Hrb & H2 & ->). inversion H2; subst. clear H2.
  cbn [concat] in Hd1, Hl1. rewrite app_nil_r, <- app_assoc in Hd1. rewrite app_nil_r, length_app in Hl1.
  destruct (Timestamp_scalar it1 x.1.1 x.1.2 tb _ Hd1 Htb) as (it2 & it3 & EN2 & Et2 & ET & _ & Hd3).
  destruct (Map_token it3 _ rb rest Hd3 Hrb) as (it4 & bss & EN4 & Et4 & Ei4 & H4 & Hd4 & Hl4).
  exists it1, it4. split; [|split; [|split]]; [| | |exists (length (concat bss)); split; [lia|]].
  - apply NextExpectedType_ok; [done|]. rewrite Et. set_solver.
  - unfold next_pair. rewrite Ei. cbn [negb].
    change (lenZ _ =? 2) with true. cbn [negb].
    rewrite (NextExpectedType_ok it1 it2) by (done || rewrite Et2; apply time_type).
    rewrite ET. go_simpl.
    by rewrite (NextExpectedType_ok it3 it4) by (done || rewrite Et4; set_solver).
  - pose proof (reads_respects (X := X)) as HR. pose proof (respect_preorder _ HR) as HP.
    pose proof (Next_reads _ HR it) as R1. pose proof (Next_reads _ HR it1) as R2.
    pose proof (Timestamp_reads _ HR _ _ _ ET) as R3. pose proof (Next_reads _ HR it3) as R4.
    rewrite EN in R1. rewrite EN2 in R2. rewrite EN4 in R4. cbn [snd] in *. by do 3 (etrans; [eassumption|]).
  - intros P HP. exists bss, rest. split_and!; try done. rewrite Ei4. unfold lenZ. by rewrite length_map.
Qed.

Lemma changeMode_message fuel next m (s : session) e :
  mode s = MessageMode → m ≠ MessageMode →
  changeMode ack fuel next m s e = next (set_mode s m) e.
Proof.
  intros Hm Hne. unfold changeMode, Leave. rewrite Hm, bool_decide_false by done. by go_simpl.
Qed.

Lemma length_options opts : lenZ (options_obj opts) = if has_options opts then 1 else 0.
Proof. by destruct opts. Qed.

Lemma options_bytes opts bss :
  Forall2 encodes (options_obj opts) bss → opts_encode opts (concat bss).
Proof.
  destruct opts as [kvs|]; cbn; intros H2.
  - apply Forall2_cons_inv_l in H2 as (b & bss' & Hb & H2 & ->). inversion H2; subst.
    cbn. by rewrite app_nil_r.
  - by inversion H2.
Qed.

(** A single entry: the iterator is at its record, and has only read since the flush. *)
Lemma message_entry fuel (s : session) e tag x bs rest :
  mode s = MessageMode → valid_tag tag →
  encodes (OArray [OScalar (SStr tag); OScalar (STime x.1.1 x.1.2); record_obj x.2]) bs →
  delivers (it_r (orig s)) (bs ++ rest) →
  ∃ it', Next ack (S fuel) s e = Ret (None, set_orig s it', mkEntry tag (ts_stored_as x.1.2 x.1.1) (Some Orig)) ∧
    reads (it_r (Iter.Flush (orig s))) (it_r it') ∧
    ∃ k, (k < length bs)%nat ∧
    ∀ P : Iterator R → Prop, (∀ it2, delivers (it_r it2) rest → P it2) → at_record it' x.2 k P.
Proof.
  intros Hm Ht He Hd.
  destruct (message_head (orig s) tag _ _ bs rest Ht He Hd)
    as (it1 & it2 & it3 & tb & bss & E1 & Ei & E2 & El & Es & Htb & H2 & Hd3 & Hl3).
  apply Forall2_cons_inv_l in H2 as (rb & bss2 & Hrb & H2 & ->). inversion H2; subst. clear H2.
  cbn [concat] in Hd3, Hl3. rewrite app_nil_r in Hd3, Hl3. rewrite length_app in Hl3.
  destruct (Timestamp_scalar it3 x.1.1 x.1.2 tb _ Hd3 Htb) as (it4 & it5 & EN4 & Et4 & ET & _ & Hd5).
  destruct (Map_token it5 _ rb rest Hd5 Hrb) as (it6 & bss & EN6 & Et6 & Ei6 & H6 & Hd6 & Hl6).
  exists it6. split; [|split].
  - cbn [Next]. rewrite Hm. unfold MessageMode_Next. rewrite E1, Ei. cbn [orb].
    change (2 + lenZ _) with 3. cbn [orb Z.ltb Z.compare Pos.compare Pos.compare_cont].
    rewrite E2, El. destruct (tag_ok tag Ht) as [-> ->]. rewrite Es, EN4. cbn [negb].
    rewrite Et4. unfold single_entry. destruct (time_cases x.1.1 x.1.2) as [->|[->| ->]]; rewrite ET; go_simpl;
      by rewrite (NextExpectedType_ok it5 it6) by (done || rewrite Et6; set_solver).
  - pose proof (reads_respects (X := R)) as HR. pose proof (respect_preorder _ HR) as HP.
    pose proof (NextExpectedType_reads _ HR (Iter.Flush (orig s)) [Types.Array]) as R1.
    pose proof (NextExpectedType_reads _ HR it1 [Types.Str]) as R2. pose proof (Str_reads _ HR it2) as R3.
    pose proof (Next_reads _ HR it3) as R4. pose proof (Timestamp_reads _ HR _ _ _ ET) as R5.
    pose proof (Next_reads _ HR it5) as R6.
    rewrite E1 in R1. rewrite E2 in R2. rewrite Es in R3. rewrite EN4 in R4. rewrite EN6 in R6. cbn [snd] in *.
    by do 5 (etrans; [eassumption|]).
  - exists (length (concat bss)). split; [lia|]. intros P HP. exists bss, rest. split_and!; try done.
    rewrite Ei6. unfold lenZ. by rewrite length_map.
Qed.

Lemma Next_message_entry fuel (s : session) e tag x bs evs cs bs' z :
  mode s = MessageMode → valid_tag tag →
  encodes (OArray [OScalar (SStr tag); OScalar (STime x.1.1 x.1.2); record_obj x.2]) bs →
  stream gunzips evs cs bs' z → delivers (it_r (orig s)) (bs ++ bs') →
  outcome (S fuel) s e (event_of tag x :: evs) cs (length (bs ++ bs') + z).
Proof.
  intros Hm Ht He Hst Hd. destruct (message_entry fuel s e tag x bs bs' Hm Ht He Hd) as (it' & E & _ & k & Hk & Hrec).
  exists (set_orig s it'), Orig, [], cs, (k + (length bs' + z))%nat.
  split_and!; try done; [|rewrite length_app; lia].
  exists k, (length bs' + z)%nat. split; [done|]. apply Hrec. intros it2 Hd2. by apply ready_message.
Qed.

Lemma evLen_options (l : Z) opts : l = 2 + lenZ (options_obj opts) →
  (l <? 2) || (4 <? l) = false ∧ (l =? 3) = has_options opts.
Proof. rewrite length_options. intros ->. by destruct opts. Qed.

(** A message with an array of entries puts the phase in forward mode. *)
Lemma Next_message_forward fuel (s : session) e tag xs opts bs evs cs bs' z :
  mode s = MessageMode → valid_tag tag → valid_options opts →
  encodes (OArray (OScalar (SStr tag) :: OArray (map pair_obj xs) :: options_obj opts)) bs →
  stream gunzips evs cs bs' z → delivers (it_r (orig s)) (bs ++ bs') →
  ∃ s' e' n, Next ack (S fuel) s e = Next ack fuel s' e' ∧ acks s' = acks s ∧
    mode s' = ForwardMode ∧ (n + 2 < length (bs ++ bs') + z)%nat ∧
    ready s' (map (event_of tag) xs ++ evs) (chunks_of opts ++ cs) n.
Proof.
  intros Hm Ht Ho He Hst Hd.
  destruct (message_head (orig s) tag _ _ bs bs' Ht He Hd)
    as (it1 & it2 & it3 & ob & bss & E1 & Ei & E2 & El & Es & Hob & H2 & Hd3 & Hl).
  destruct (Array_token it3 _ ob _ Hd3 Hob) as (it4 & ebs & EN & Et & Ei4 & He4 & Hd4 & Hl4).
  set (s1 := set_orig (set_orig s it4) (Iter.SetManualFlush it4 true)).
  set (s2 := set_forward s1 (mkForward tag (lenZ xs) (has_options opts))).
  exists (set_mode s2 ForwardMode), (set_Tag e tag),
    (length (concat ebs) + length (concat bss ++ bs') + z)%nat.
  split_and!; try done.
  - cbn [Next]. rewrite Hm. unfold MessageMode_Next. rewrite E1.
    destruct (evLen_options _ opts Ei) as [-> ->]. rewrite E2, El.
    destruct (tag_ok tag Ht) as [-> ->]. rewrite Es, EN. cbn [negb]. rewrite Et. unfold ForwardMode_Enter.
    change (e_Tag (set_Tag e tag)) with tag. rewrite Ei4.
    replace (lenZ (map pair_obj xs)) with (lenZ xs) by (unfold lenZ; by rewrite length_map).
    by rewrite changeMode_message.
  - rewrite !length_app in *. lia.
  - eapply ready_forward; try done; [by apply options_bytes|]. cbn. by apply SetManualFlush_delivers.
Qed.

(** The first three bytes of a binary value. *)
Lemma isGzip_ok (l : L) p rest :
  limited l p rest → 3 ≤ lenZ p →
  ∃ l', isGzip l = Ret (bool_decide (take 3 p = [0x1f; 0x8b; 8]), None, l') ∧ limited l' p rest.
Proof.
  intros Hl Hp. destruct (Peek_limited l p rest 3 Hl ltac:(lia)) as (sp & l' & E & Hl').
  exists l'. split; [|done]. unfold isGzip. rewrite E. change (Z.to_nat 3) with 3%nat.
  destruct p as [|a [|b [|c p]]]; try (unfold lenZ in Hp; cbn in Hp; lia).
  replace (take 3 (a :: b :: c :: p)) with [a; b; c] by done.
  assert (bool_decide ([a; b; c] = [0x1f; 0x8b; 8]) = (a =? 0x1f) && (b =? 0x8b) && (c =? 8)) as ->; [|done].
  apply eq_bool_prop_intro. rewrite bool_decide_spec, !andb_True, !Is_true_true, !Z.eqb_eq.
  split; [by intros [= -> -> ->]|]. by intros [[-> ->] ->].
Qed.

(** Packed entries are not taken for gzip: they start with the head of an array. *)
Lemma packed_not_gzip x xs bss :
  Forall2 encodes (map pair_obj (x :: xs)) bss →
  3 ≤ lenZ (concat bss) ∧ take 3 (concat bss) ≠ [0x1f; 0x8b; 8].
Proof.
  intros H2. apply Forall2_cons_inv_l in H2 as (b & bss' & Hb & _ & ->). cbn [concat].
  inversion Hb as [|? hd cs Hh H2|]; subst.
  apply Forall2_cons_inv_l in H2 as (tb & cs1 & Htb & H2 & ->).
  apply Forall2_cons_inv_l in H2 as (rb & cs2 & Hrb & H2 & ->).
  pose proof (encodes_nonempty _ _ Htb). pose proof (encodes_nonempty _ _ Hrb).
  pose proof (length_header_pos _ _ _ Hh). cbn [concat]. split; [len_lia|].
  intros E. destruct Hh as [(c & -> & Hc & HG)|(h & k & -> & Hh & HG & _)]; cbn in E; injection E as -> _;
    by vm_compute in HG.
Qed.

(** A binary token, up to the limited reader over its body. *)
Lemma Bin_token (it : Iterator R) content ob rest :
  delivers (it_r it) (ob ++ rest) → encodes (OScalar (SBin content)) ob → 3 ≤ lenZ content →
  ∃ it1 l, Iter.Next it = (true, it1) ∧ it_typ it1 = Types.Bin ∧
    isGzip (LimitReader (it_r it1) (it_length it1)) =
      Ret (bool_decide (take 3 content = [0x1f; 0x8b; 8]), None, l) ∧
    limited l content rest.
Proof.
  intros Hd He Hc.
  destruct (Next_scalar it _ ob rest Hd He) as (hd & body & r' & -> & EN & Hd' & _ & Hb).
  cbn in Hb. subst body. eexists. pose proof (LimitReader_limited r' content rest (lenZ content) Hd' eq_refl) as Hl.
  destruct (isGzip_ok _ content rest Hl Hc) as (l & E & Hl'). exists l.
  split; [exact EN|]. by split_and!.
Qed.

(** The pool's iterator delivers what the reader does, whichever it is. *)
Lemma iterPool_Get_delivers (l : L) p rest pool it pool' :
  limited l p rest → iterPool_Get l pool = (it, pool') → @delivers I _ (nested rest) (it_r it) p.
Proof.
  intros Hl. unfold iterPool_Get. destruct (iters pool !! _) as [it0|]; intros [= <- _].
  - by apply reset_ring_delivers.
  - by apply SetManualFlush_delivers, new_ring_delivers.
Qed.

(** A message with a binary value puts the phase in one of the packed modes. *)
Lemma Next_message_packed fuel (s : session) e tag content xs opts bss bs evs cs bs' z z0 :
  mode s = MessageMode → valid_tag tag → valid_options opts →
  3 ≤ lenZ content → Forall2 encodes (map pair_obj xs) bss →
  (if bool_decide (take 3 content = [0x1f; 0x8b; 8])
   then gunzips content (concat bss) ∧ z0 = length (concat bss)
   else content = concat bss ∧ z0 = O) →
  encodes (OArray (OScalar (SStr tag) :: OScalar (SBin content) :: options_obj opts)) bs →
  stream gunzips evs cs bs' z → delivers (it_r (orig s)) (bs ++ bs') →
  ∃ s' e' n, Next ack (S fuel) s e = Next ack fuel s' e' ∧ acks s' = acks s ∧
    is_packed (mode s') ∧ (n + 2 < length (bs ++ bs') + (z0 + z))%nat ∧
    ready s' (map (event_of tag) xs ++ evs) (chunks_of opts ++ cs) n.
Proof.
  intros Hm Ht Ho Hc H2 Hgz He Hst Hd.
  destruct (message_head (orig s) tag _ _ bs bs' Ht He Hd)
    as (it1 & it2 & it3 & ob & obss & E1 & Ei & E2 & El & Es & Hob & Hopt & Hd3 & Hlen).
  destruct (Bin_token it3 content ob _ Hd3 Hob Hc) as (it4 & l & EN & Et & Eg & Hl).
  apply options_bytes in Hopt.
  set (obs := concat obss) in *.
  assert (length content ≤ length ob)%nat as Hob'.
  { inversion Hob as [? hd b _ _ Hb| |]; subst. cbn in Hb. subst b. rewrite length_app. lia. }
  assert (length (concat bss) ≤ length content + z0)%nat as Hz0.
  { destruct (bool_decide _); destruct Hgz as [Hg ->]; [lia|by rewrite Hg, Nat.add_0_r]. }
  apply (limit_SetManualFlush_limited _ false) in Hl.
  assert (∃ m it pool, is_packed m ∧ @delivers I _ (nested (obs ++ bs')) (it_r it) (concat bss) ∧
    Next ack (S fuel) s e = changeMode ack fuel (Next ack fuel) m
      (set_packed m (set_pool (set_orig s (Iter.SetManualFlush it4 false)) pool) (mkPacked (Some it) tag (has_options opts)))
      (set_Tag e tag)) as (m & it & pool & Hpm & Hi & ->).
  { cbn [Next]. rewrite Hm. unfold MessageMode_Next. rewrite E1.
    destruct (evLen_options _ opts Ei) as [-> Eo]. rewrite E2, El.
    destruct (tag_ok tag Ht) as [-> ->]. rewrite Es, EN. cbn [negb]. rewrite Et. unfold packed_entries.
    rewrite Eo, Eg. go_simpl.
    destruct (bool_decide _).
    - destruct (gzip_Get_limited _ _ _ _ Hl (proj1 Hgz)) as (l' & Egz & Hl').
      unfold CompressedPackedForwardMode_Enter. rewrite Egz.
      destruct (iterPool_Get l' _) as [it pool] eqn:Ep. exists CompressedPackedForwardMode, it, pool.
      split; [by right|]. split; [by eapply iterPool_Get_delivers|done].
    - unfold PackedForwardMode_Enter. destruct (iterPool_Get _ _) as [it pool] eqn:Ep.
      exists PackedForwardMode, it, pool. split; [by left|].
      destruct Hgz as [-> _]. split; [by eapply iterPool_Get_delivers|done]. }
  rewrite changeMode_message; [|by destruct Hpm as [-> | ->]..].
  eexists _, _, (length (concat bss) + length (obs ++ bs') + z)%nat. split; [reflexivity|]. split_and!.
  - by destruct Hpm as [-> | ->].
  - destruct Hpm as [-> | ->]; [by left|by right].
  - rewrite !length_app in *. lia.
  - apply (ready_packed _ it tag xs bss opts obs); try done. by destruct Hpm as [-> | ->].
Qed.

(** The next entry of a message with many. *)
Lemma Next_forward_entry fuel (s : session) e tag x xs bss opts obs evs cs bs z :
  mode s = ForwardMode → forwardMode (phase s) = mkForward tag (lenZ (x :: xs)) (has_options opts) →
  valid_options opts → opts_encode opts obs → Forall2 encodes (map pair_obj (x :: xs)) bss →
  stream gunzips evs cs bs z → delivers (it_r (orig s)) (concat bss ++ obs ++ bs) →
  outcome (S fuel) s e (event_of tag x :: map (event_of tag) xs ++ evs) (chunks_of opts ++ cs)
    (length (concat bss) + length (obs ++ bs) + z).
Proof.
  intros Hm Hf Ho Hob H2 Hst Hd. apply Forall2_cons_inv_l in H2 as (b & bss' & Hb & H2 & ->).
  cbn [concat] in Hd |- *. rewrite length_app. rewrite <- app_assoc in Hd.
  assert (delivers (it_r (Iter.Flush (orig s))) (b ++ concat bss' ++ obs ++ bs)) as Hd0
    by by apply Flush_delivers.
  destruct (entry_ok ForwardMode tag Orig _ e x b _ Hd0 Hb) as (it1 & it2 & E1 & E2 & _ & k & Hk & Hrec).
  exists (set_forward (set_orig s it2) (mkForward tag (lenZ xs) (has_options opts))), Orig,
    [], (chunks_of opts ++ cs), (k + (length (concat bss') + length (obs ++ bs) + z))%nat.
  split_and!; try done; [| |lia].
  - cbn [Next]. rewrite Hm. unfold ForwardMode_Next. rewrite Hf. cbn [f_items f_tag f_hasOptions].
    destruct (lenZ (x :: xs) <=? 0) eqn:E0; [len_lia|].
    change (mode (set_orig s _)) with (mode s). rewrite Hm.
    change (orig (set_orig s ?i)) with i. rewrite E1, E2. go_simpl.
    replace (lenZ (x :: xs) - 1) with (lenZ xs) by len_lia. done.
  - exists k, (length (concat bss') + length (obs ++ bs) + z)%nat. split; [done|].
    apply Hrec. intros it3 Hd3. eapply ready_forward; done.
Qed.

Lemma Next_packed_entry fuel (s : session) e it tag x xs bss opts obs evs cs bs z :
  is_packed (mode s) → packed_of (mode s) s = mkPacked (Some it) tag (has_options opts) →
  valid_options opts → opts_encode opts obs → Forall2 encodes (map pair_obj (x :: xs)) bss →
  stream gunzips evs cs bs z → @delivers I _ (nested (obs ++ bs)) (it_r it) (concat bss) →
  outcome (S fuel) s e (event_of tag x :: map (event_of tag) xs ++ evs) (chunks_of opts ++ cs)
    (length (concat bss) + length (obs ++ bs) + z).
Proof.
  intros Hm Hp Ho Hob H2 Hst Hd. apply Forall2_cons_inv_l in H2 as (b & bss' & Hb & H2 & ->).
  cbn [concat] in Hd |- *. rewrite length_app.
  assert (@delivers I _ (nested (obs ++ bs)) (it_r (Iter.Flush it)) (b ++ concat bss')) as Hd0
    by by apply Flush_delivers.
  destruct (entry_ok (mode s) tag Inner _ e x b _ Hd0 Hb) as (it1 & it2 & E1 & E2 & _ & k & Hk & Hrec).
  exists (set_inner s it2), Inner, [], (chunks_of opts ++ cs), (k + (length (concat bss') + length (obs ++ bs) + z))%nat.
  split_and!; try done; [| |lia].
  - assert (Next ack (S fuel) s e = Packed_Next ack fuel (Next ack fuel) (mode s) s e) as ->
      by (cbn [Next]; by destruct Hm as [-> | ->]).
    unfold Packed_Next. rewrite Hp. cbn [p_iter p_tag p_hasOptions]. rewrite E1, E2. go_simpl.
    unfold set_inner. by rewrite Hp.
  - exists k, (length (concat bss') + length (obs ++ bs) + z)%nat. split; [done|].
    exists it2, (obs ++ bs). split_and!.
    + unfold set_inner. by rewrite mode_set_packed.
    + unfold set_inner. by rewrite mode_set_packed, packed_of_set_packed.
    + apply Hrec. intros it3 Hd3. unfold set_inner. rewrite Hp. cbn [p_tag p_hasOptions].
      rewrite mode_set_packed, packed_of_set_packed. cbn [p_tag p_hasOptions].
      apply (ready_packed _ it3 tag xs bss'); try done; rewrite !mode_set_packed; [done|].
      by rewrite packed_of_set_packed.
Qed.

(** The end of a message with many: its options are handled, then the next message
    is read. *)
Lemma options_done fuel (s : session) opts obs rest :
  valid_options opts → opts_encode opts obs → delivers (it_r (orig s)) (obs ++ rest) →
  (length obs < fuel)%nat → acks_ok (acks s) (chunks_of opts) →
  ∃ it', (if has_options opts then handleOptions ack fuel s else Ret (None, s)) =
      Ret (None, set_acks (set_orig s it') (acked (acks s) (chunks_of opts))) ∧
    delivers (it_r it') rest.
Proof.
  intros Hv Ho Hd Hf Ha. destruct opts as [kvs|]; cbn [has_options chunks_of].
  - by apply (handleOptions_ok fuel s kvs obs).
  - cbn in Ho. subst obs. exists (orig s). by destruct s.
Qed.

Lemma Next_forward_end fuel (s : session) e tag opts obs bs :
  mode s = ForwardMode → forwardMode (phase s) = mkForward tag 0 (has_options opts) →
  valid_options opts → opts_encode opts obs → delivers (it_r (orig s)) (obs ++ bs) →
  (length obs < fuel)%nat → acks_ok (acks s) (chunks_of opts) →
  ∃ s', Next ack (S fuel) s e = Next ack fuel s' e ∧ mode s' = MessageMode ∧
    acks s' = acked (acks s) (chunks_of opts) ∧ delivers (it_r (orig s')) bs.
Proof.
  intros Hm Hf Hv Ho Hd Hfuel Ha. cbn [Next]. rewrite Hm. unfold ForwardMode_Next. rewrite Hf.
  cbn [f_items]. change (0 <=? 0) with true. cbv iota. unfold MessageMode_Enter, changeMode, Leave, ForwardMode_Leave.
  set (s1 := set_orig _ _). assert (mode s1 = ForwardMode) as Hm1 by done. rewrite Hm1.
  change (forwardMode (phase s1)) with (forwardMode (phase s)). rewrite Hf. cbn [f_hasOptions].
  assert (delivers (it_r (orig s1)) (obs ++ bs)) as Hd1.
  { cbn. by apply SetManualFlush_delivers, Flush_delivers. }
  destruct (options_done fuel s1 opts obs bs Hv Ho Hd1 Hfuel Ha) as (it' & -> & Hd').
  rewrite bool_decide_false by done. go_simpl. by eexists.
Qed.

Lemma Next_packed_end fuel (s : session) e it tag opts obs bs :
  is_packed (mode s) → packed_of (mode s) s = mkPacked (Some it) tag (has_options opts) →
  valid_options opts → opts_encode opts obs → @delivers I _ (nested (obs ++ bs)) (it_r it) [] →
  (length obs < fuel)%nat → acks_ok (acks s) (chunks_of opts) →
  ∃ s', Next ack (S fuel) s e = Next ack fuel s' e ∧ mode s' = MessageMode ∧
    acks s' = acked (acks s) (chunks_of opts) ∧ delivers (it_r (orig s')) bs.
Proof.
  intros Hm Hp Hv Ho Hd Hfuel Ha.
  assert (Next ack (S fuel) s e = Packed_Next ack fuel (Next ack fuel) (mode s) s e) as ->
    by (cbn [Next]; by destruct Hm as [-> | ->]).
  unfold Packed_Next. rewrite Hp. cbn [p_iter p_tag p_hasOptions].
  destruct (@NextExpectedType_EOF I _ (nested (obs ++ bs)) (Iter.Flush it) [Types.Array]) as (it1 & -> & Hd1).
  { by apply Flush_delivers. }
  cbn [is_EOF EOF]. unfold MessageMode_Enter, changeMode, Leave, PackedForwardMode_Leave, CompressedPackedForwardMode_Leave.
  set (s1 := set_orig _ _). assert (mode s1 = mode s) as Hm1 by apply mode_set_packed.
  rewrite Hm1. assert (packed_of (mode s) s1 = mkPacked (Some it1) tag (has_options opts)) as Hp1
    by apply packed_of_set_packed.
  set (s2 := set_packed (mode s) (set_pool s1 (iterPool_Put it1 (t_iterPool (phase s1)))) (mkPacked None tag (has_options opts))).
  assert (delivers (it_r (orig s2)) (obs ++ bs)) as Hd2.
  { cbn. by apply SetManualFlush_delivers, lender_delivers. }
  destruct (options_done fuel s2 opts obs bs Hv Ho Hd2 Hfuel Ha) as (it' & Eo & Hd').
  assert (bool_decide (MessageMode = mode s) = false) as -> by (by destruct Hm as [-> | ->]).
  eexists. split.
  - transitivity ('(err, s) ← Ret (None, set_acks (set_orig s2 it') (acked (acks s2) (chunks_of opts)));
      match err with Some _ => Ret (err, s, e) | None => Next ack fuel (set_mode s MessageMode) e end);
      [|go_simpl; reflexivity].
    rewrite <- Eo. unfold s2. destruct Hm as [Hm|Hm]; rewrite Hm in *; rewrite Hp1; done.
  - by split_and!.
Qed.

(** A call that goes on in another state. *)
Lemma outcome_step fuel (s s' : session) e e' evs c1 c2 n n' :
  Next ack (S fuel) s e = Next ack fuel s' e' → acks s' = acked (acks s) c1 → (n' ≤ n)%nat →
  outcome fuel s' e' evs c2 n' → outcome (S fuel) s e evs (c1 ++ c2) n.
Proof.
  intros E Ha Hn. unfold outcome. destruct evs as [|ev evs].
  - intros (s2 & e2 & E2 & Ha2 & Hm2). exists s2, e2. rewrite E. split_and!; [done| |done].
    rewrite Ha2, Ha. unfold acked. by rewrite fold_left_app.
  - intros (s2 & rec & d1 & d2 & m & E2 & -> & Ha2 & Hrd & Hm).
    exists s2, rec, (c1 ++ d1), d2, m. rewrite E. split_and!; [done|by rewrite app_assoc| |done|lia].
    rewrite Ha2, Ha. unfold acked. by rewrite fold_left_app.
Qed.

(** The stream of messages, whatever the mode. *)
Lemma Next_ready fuel : ∀ (s : session) e evs cs n,
  ready s evs cs n → acks_ok (acks s) cs →
  (n + (if bool_decide (mode s = MessageMode) then 1 else 2) < fuel)%nat → outcome fuel s e evs cs n.
Proof.
  induction fuel as [|fuel IH]; intros s e evs cs n Hr Hacks Hf; [lia|].
  destruct Hr as [s evs cs bs z Hm Hst Hd|s tag xs bss opts obs evs cs bs z Hm Hfwd Hv Ho H2 Hst Hd
    |s it tag xs bss opts obs evs cs bs z Hm Hp Hv Ho H2 Hst Hd].
  - rewrite bool_decide_true in Hf by done. destruct Hst as [|evs cs bs z0 evs' cs' bs' z Hw Hst].
    { destruct (NextExpectedType_EOF (Iter.Flush (orig s)) [Types.Array]) as (it1 & E1 & _).
      { by apply Flush_delivers. }
      exists (set_orig s it1), e. split_and!; [|done|done].
      cbn [Next]. rewrite Hm. unfold MessageMode_Next. by rewrite E1. }
    destruct Hw as [tag x bs Ht He|tag xs opts bs Ht Ho He|tag xs opts bss bs Ht Ho Hne H2 He
      |tag xs opts bss content bs Ht Ho H2 H3 Hgz He].
    + rewrite Nat.add_0_l. by apply Next_message_entry.
    + destruct (Next_message_forward fuel s e tag xs opts bs evs' cs' bs' z Hm Ht Ho He Hst Hd)
        as (s' & e' & n & E & Ha & Hm' & Hn & Hr').
      apply (outcome_step fuel s s' e e' _ [] _ _ n E Ha); [lia|]. apply IH; [done|by rewrite Ha|].
      case_bool_decide; lia.
    + destruct xs as [|x xs]; [done|]. destruct (packed_not_gzip x xs bss H2) as [H3 Hng].
      destruct (Next_message_packed fuel s e tag (concat bss) (x :: xs) opts bss bs evs' cs' bs' z 0)
        as (s' & e' & n & E & Ha & Hm' & Hn & Hr'); try done; [by rewrite bool_decide_false|].
      apply (outcome_step fuel s s' e e' _ [] _ _ n E Ha); [lia|]. apply IH; [done|by rewrite Ha|].
      case_bool_decide; lia.
    + destruct (Next_message_packed fuel s e tag content xs opts bss bs evs' cs' bs' z (length (concat bss)))
        as (s' & e' & n & E & Ha & Hm' & Hn & Hr'); try done; [|by rewrite bool_decide_true|].
      { apply (f_equal length) in H3. rewrite length_take in H3. change (length [0x1f; 0x8b; 8]) with 3%nat in H3.
        unfold lenZ. lia. }
      apply (outcome_step fuel s s' e e' _ [] _ _ n E Ha); [lia|]. apply IH; [done|by rewrite Ha|].
      case_bool_decide; lia.
  - rewrite bool_decide_false, length_app in Hf by (by rewrite Hm). destruct xs as [|x xs].
    + inversion H2; subst. cbn [concat app] in Hd. apply acks_ok_app in Hacks as [Hacks1 Hacks2].
      destruct (Next_forward_end fuel s e tag opts obs bs Hm Hfwd Hv Ho Hd ltac:(lia) Hacks1)
        as (s' & E & Hm' & Ha & Hd').
      apply (outcome_step fuel s s' e e _ (chunks_of opts) cs _ (length bs + z)%nat E Ha); [rewrite length_app; lia|].
      apply IH; [by apply ready_message|by rewrite Ha|]. rewrite bool_decide_true by done. lia.
    + by eapply Next_forward_entry.
  - assert (bool_decide (mode s = MessageMode) = false) as Hb by (by destruct Hm as [-> | ->]).
    rewrite Hb, length_app in Hf. destruct xs as [|x xs].
    + inversion H2; subst. apply acks_ok_app in Hacks as [Hacks1 Hacks2].
      destruct (Next_packed_end fuel s e it tag opts obs bs Hm Hp Hv Ho Hd ltac:(lia) Hacks1)
        as (s' & E & Hm' & Ha & Hd').
      apply (outcome_step fuel s s' e e _ (chunks_of opts) cs _ (length bs + z)%nat E Ha); [rewrite length_app; lia|].
      apply IH; [by apply ready_message|by rewrite Ha|]. rewrite bool_decide_true by done. lia.
    + by eapply Next_packed_entry.
Qed.

(** The session hands out the entries [evs], acknowledging [cs], to a caller that reads
    each record to its end: each call of [Next] gives the next entry and an iterator
    at its record, and at the end of file there is nothing left to acknowledge. *)
Fixpoint hands_out (fuel : nat) (s : session) (evs : list event) (cs : list (list Z)) : Prop :=
  match evs with
  | [] => ∀ e, ∃ s' e', Next ack fuel s e = Ret (Some EOF, s', e') ∧ acks s' = acked (acks s) cs
  | ev :: evs => ∀ e, ∃ s' rec c1 c2 k,
      Next ack fuel s e = Ret (None, s', mkEntry (ev_tag ev) (ev_time ev) (Some rec)) ∧
      cs = c1 ++ c2 ∧ acks s' = acked (acks s) c1 ∧
      match rec with
      | Orig => at_record (orig s') (ev_fields ev) k (λ it, hands_out fuel (set_orig s' it) evs c2)
      | Inner => ∃ it rest, p_iter (packed_of (mode s') s') = Some it ∧
          @at_record I _ (nested rest) it (ev_fields ev) k (λ it, hands_out fuel (set_inner s' it) evs c2)
      end
  end.

Lemma at_record_mono `{RingLaws X} (it : Iterator X) fs k (P Q : Iterator X → Prop) :
  at_record it fs k P → (∀ it, P it → Q it) → at_record it fs k Q.
Proof.
  intros (bss & rest & Ei & El & H2 & Hd & HP) HQ. exists bss, rest. split_and!; try done.
  intros it' Hd'. by apply HQ, HP.
Qed.

Lemma ready_hands_out fuel evs : ∀ (s : session) cs n,
  ready s evs cs n → acks_ok (acks s) cs → (n + 2 < fuel)%nat → hands_out fuel s evs cs.
Proof.
  induction evs as [|ev evs IH]; intros s cs n Hr Ha Hf; cbn [hands_out]; intros e;
    pose proof (Next_ready fuel s e _ cs n Hr Ha ltac:(destruct (bool_decide _); lia)) as Ho.
  - destruct Ho as (s' & e' & E & Hacks & _). by exists s', e'.
  - destruct Ho as (s' & rec & c1 & c2 & n' & E & -> & Hacks & (k & m & Hkm & Hrd) & Hn').
    apply acks_ok_app in Ha as [_ Ha]. rewrite <- Hacks in Ha.
    exists s', rec, c1, c2, k. split_and!; [done|done|done|]. destruct rec.
    + eapply at_record_mono; [exact Hrd|]. intros it Hit. apply (IH _ c2 m Hit); [done|lia].
    + destruct Hrd as (it & rest & _ & Hp & Hrd). exists it, rest. split; [done|].
      eapply (@at_record_mono I _ (nested rest)); [exact Hrd|]. intros it' Hit.
      apply (IH _ c2 m Hit); [done|lia].
Qed.

End Stream.

(** ** Properties *)

Section Properties.
  Context {R L I A : Type} `{!RingOps R, !RingOps I, !NestedOps R L I, !RingLaws R, !NestedLaws R L I}.
  Context (ack : list Z → A → option error * A).

(** C7: The transport phase hands out the entries of a stream of messages, in any mix
    of the four modes, one per call and in order, each with the tag of its
    message, its time and an iterator at its record; it acknowledges the chunks
    of the messages in order, and returns end of file where the stream ends.
    The fuel for the changes of mode and for skipping options is the number of
    bytes to come plus two. *)
Theorem Next_stream fuel (s : Session R I A) e evs cs n :
  ready s evs cs n → acks_ok ack (acks s) cs → (n + 2 < fuel)%nat →
  match evs with
  | [] => ∃ s' e', Next ack fuel s e = Ret (Some EOF, s', e') ∧ acks s' = acked ack (acks s) cs ∧
      mode s' = MessageMode
  | ev :: evs => ∃ s' rec c1 c2 n',
      Next ack fuel s e = Ret (None, s', mkEntry (ev_tag ev) (ev_time ev) (Some rec)) ∧
      cs = c1 ++ c2 ∧ acks s' = acked ack (acks s) c1 ∧ reading s' rec (ev_fields ev) evs c2 n' ∧
      (n' < n)%nat
  end.
Proof.
  intros Hr Ha Hf. apply (Next_ready ack fuel s e evs cs n Hr Ha). destruct (bool_decide _); lia.
Qed.

(** C35: A single entry with options, a message of four elements, is refused unless its
    record is empty: the options are looked for before the record has been read,
    so the record's first key is taken for the head of the options map. *)
Theorem options_before_record fuel (s : Session R I A) e tag t f k v fs kvs bs rest :
  mode s = MessageMode → valid_tag tag →
  encodes (OArray [OScalar (SStr tag); OScalar (STime t f); record_obj ((k, v) :: fs); record_obj kvs]) bs →
  delivers (it_r (orig s)) (bs ++ rest) →
  ∃ err s' e', Next ack (S fuel) s e = Ret (Some err, s', e') ∧ is_EOF err = false.
Proof.
  intros Hm Ht He Hd.
  destruct (message_head (orig s) tag _ _ bs rest Ht He Hd)
    as (it1 & it2 & it3 & tb & bss & E1 & Ei & E2 & El & Es & Htb & H2 & Hd3 & _).
  apply Forall2_cons_inv_l in H2 as (rb & bss2 & Hrb & H2 & ->).
  cbn [concat] in Hd3. rewrite <- app_assoc in Hd3.
  destruct (Timestamp_scalar it3 t f tb _ Hd3 Htb) as (it4 & it5 & EN4 & Et4 & ET & _ & Hd5).
  destruct (Map_token it5 _ rb _ Hd5 Hrb) as (it6 & bss & EN6 & Et6 & Ei6 & H6 & Hd6 & _).
  unfold flatten in H6. cbn [map flat_map app fst snd] in H6.
  apply Forall2_cons_inv_l in H6 as (kb & bss' & Hk & _ & ->).
  cbn [concat] in Hd6. rewrite <- !app_assoc in Hd6.
  destruct (Str_token it6 k kb _ Hd6 Hk) as (it7 & _ & EN7 & Et7 & _).
  destruct (NextExpectedType_other it6 it7 [Types.Map] EN7) as (err & E7 & Herr).
  { rewrite Et7. by rewrite list_elem_of_singleton. }
  exists (phase_errorNoEof MessageMode "ack" (RError err)), (set_orig (set_orig s it6) it7),
    (set_Record (set_Timestamp (set_Tag e tag) (ts_stored_as f t)) Orig).
  split; [|cbn; by rewrite Herr].
  cbn [Next]. rewrite Hm. unfold MessageMode_Next. rewrite E1, Ei. change (2 + lenZ _) with 4.
  cbn [orb Z.ltb Z.compare Pos.compare Pos.compare_cont].
  rewrite E2, El. destruct (tag_ok tag Ht) as [-> ->]. rewrite Es, EN4. cbn [negb].
  rewrite Et4. unfold single_entry. destruct (time_cases t f) as [->|[->| ->]]; rewrite ET; go_simpl;
    rewrite (NextExpectedType_ok it5 it6) by (done || rewrite Et6; set_solver);
    change (4 =? 4) with true; cbv iota; unfold handleOptions;
    change (orig (set_orig s it6)) with it6; change (mode (set_orig s it6)) with (mode s);
    rewrite E7, Hm; by go_simpl.
Qed.

End Properties.

(** ** Witnesses: nested readers over lists

    The gzip reader is the one of Gzip, over its stand-in for DEFLATE. *)

(** A limited reader: what it delivers, what of that is still in the ring below, and
    that ring without it. *)
Record list_limit := mkListLimit { body : list Z; held : list Z; below : list_ring }.

(** An inner ring: what it will deliver, and the ring below from its end on. *)
Record list_inner := mkListInner { inner_ring : list_ring; inner_below : list_ring }.

Definition on_inner {X} (f : list_ring → X * list_ring) (i : list_inner) : X * list_inner :=
  let '(x, r) := f (inner_ring i) in (x, mkListInner r (inner_below i)).

#[export] Instance list_inner_ops : RingOps list_inner := {
  ReadByte i := on_inner ReadByte i;
  ReadBytes i n := on_inner (λ r, ReadBytes r n) i;
  Discard i n := (on_inner (λ r, (tt, Discard r n)) i).2;
  Flush i := i;
  SetManualFlush i v := (on_inner (λ r, (tt, RingBuf.SetManualFlush r v)) i).2
}.

#[export] Instance list_nested_ops : NestedOps list_ring list_limit list_inner := {
  LimitReader r n :=
    mkListLimit (take (Z.to_nat n) (pending r)) (take (Z.to_nat n) (pending r)) (mkListRing (drop (Z.to_nat n) (pending r)) (manual_flush r));
  limit_ring l := mkListRing (held l ++ pending (below l)) (manual_flush (below l));
  limit_SetManualFlush l v := mkListLimit (body l) (held l) (mkListRing (pending (below l)) v);
  Peek l n :=
    (sl (take (Z.to_nat n) (body l)), (if lenZ (body l) <? n then Some EOF else None), l);
  gzip_Get l :=
    match Gzip.gunzip_list (body l) with
    | (None, bs) => (None, mkListLimit bs [] (below l))
    | (Some e, _) => (Some e, mkListLimit [] [] (below l))
    end;
  new_ring l := mkListInner (mkListRing (body l) false) (below l);
  reset_ring i l := mkListInner (mkListRing (body l) (manual_flush (inner_ring i))) (below l);
  unset_ring i := mkListInner (mkListRing [] (manual_flush (inner_ring i))) (mkListRing [] false);
  lender i := inner_below i
}.

#[export] Program Instance list_inner_laws (rest : list Z) : RingLaws list_inner := {
  delivers i bs := pending (inner_ring i) = bs ∧ pending (inner_below i) = rest
}.
Next Obligation. intros rest [[p f] b] c bs [H Hr]. cbn in *. subst p. by eexists. Qed.
Next Obligation. intros rest [[p f] b] [H Hr]. cbn in *. subst p. by do 2 eexists. Qed.
Next Obligation.
  intros rest [[l f] b] p bs [H Hr]. cbn in *. subst l. unfold on_inner. cbn.
  replace ((0 <=? lenZ p) && (lenZ p <=? lenZ (p ++ bs))) with true by (symmetry; len_lia).
  rewrite take_app_lenZ, drop_app_lenZ by done. by do 2 eexists.
Qed.
Next Obligation.
  intros rest [r b] bs n [H Hr] Hn. cbn in *. subst bs. unfold on_inner. cbn.
  replace (n <=? lenZ (pending r)) with false by lia. rewrite andb_false_r. by do 4 eexists.
Qed.
Next Obligation. intros rest [r b] bs n [<- Hr] _. done. Qed.
Next Obligation. intros rest [r b] bs [<- Hr]. done. Qed.
Next Obligation. intros rest [r b] bs v [<- Hr]. done. Qed.

#[export] Program Instance list_nested_laws : NestedLaws list_ring list_limit list_inner := {
  limited l p rest := body l = p ∧ pending (below l) = rest;
  gunzips content bs := Gzip.stored_members content bs ∧ content ≠ [];
  nested := list_inner_laws
}.
Next Obligation.
  intros r p rest n H ->. cbn in *. rewrite H. by rewrite take_app_lenZ, drop_app_lenZ.
Qed.
Next Obligation. done. Qed.
Next Obligation.
  intros l p rest n [<- Hr] Hn. cbn. destruct (_ <? n) eqn:E; [lia|]. by do 2 eexists.
Qed.
Next Obligation.
  intros l p rest bs [<- Hr] [H Hne]. cbn. rewrite (Gzip.gunzip_list_members _ bs) by done. by eexists.
Qed.
Next Obligation. done. Qed.
Next Obligation. done. Qed.
Next Obligation. by intros i rest [_ H]. Qed.

(** A stream of three messages: one entry; an array of two entries with a chunk to
    acknowledge; one entry compressed. *)
Definition tag0 : list Z := str "app".
Definition x0 : sent := (mkTime 5 7, TsFluentd, [(str "k", OScalar (SBool true))]).

Definition message0 : list Z :=
  encode (OArray [OScalar (SStr tag0); OScalar (STime (mkTime 5 7) TsFluentd); record_obj x0.2]).
Definition forward0 : list Z :=
  encode (OArray [OScalar (SStr tag0); OArray [pair_obj x0; pair_obj x0];
    record_obj [(str "chunk", OScalar (SStr (str "c1")))]]).
Definition compressed0 : list Z :=
  encode (OArray [OScalar (SStr tag0); OScalar (SBin (Gzip.member1 (encode (pair_obj x0))))]).

Definition event0 : event := event_of tag0 x0.

Ltac solve_plain :=
  apply encode_encodes; repeat split; try (apply is_bytes_check); by vm_compute.

Lemma pair0_encodes : encodes (pair_obj x0) (encode (pair_obj x0)).
Proof. solve_plain. Qed.

Lemma packed0_unzips : gunzips (Gzip.member1 (encode (pair_obj x0))) (concat [encode (pair_obj x0)]).
Proof.
  split; [|done]. rewrite <- (app_nil_r (Gzip.member1 _)).
  apply (Gzip.unzips_members _ Gzip.member1 [_]). exact Gzip.member1_member.
Qed.

Lemma tag0_valid : valid_tag tag0.
Proof. split; by vm_compute. Qed.

Definition size0 : nat := 0 + (0 + (length (concat [encode (pair_obj x0)]) + 0)).

Lemma stream0 : stream gunzips [event0; event0; event0; event0] [str "c1"]
  (message0 ++ forward0 ++ compressed0) size0.
Proof.
  unfold size0. rewrite <- (app_nil_r compressed0).
  change [event0; event0; event0; event0] with ([event0] ++ [event0; event0] ++ [event0] ++ []).
  change [str "c1"] with ([] ++ [str "c1"] ++ [] ++ @nil (list Z)).
  repeat apply stream_cons; [| | |apply stream_nil].
  - apply (wire_message _ tag0 x0); [apply tag0_valid|solve_plain].
  - apply (wire_forward _ tag0 [x0; x0] (Some [(str "chunk", OScalar (SStr (str "c1")))]));
      [apply tag0_valid| |solve_plain].
    constructor; [|constructor]. intros _. exists (str "c1"). by left.
  - apply (wire_compressed _ tag0 [x0] None [encode (pair_obj x0)] (Gzip.member1 (encode (pair_obj x0))));
      [apply tag0_valid|done|repeat constructor; apply pair0_encodes|by vm_compute|apply packed0_unzips|solve_plain].
Qed.

Definition ack0 (c : list Z) (a : list (list Z)) : option error * list (list Z) := (None, a ++ [c]).

Definition session0 (bs : list Z) : Session list_ring list_inner (list (list Z)) := Init (iter_over bs) [].

Lemma session0_ready :
  ready (session0 (message0 ++ forward0 ++ compressed0)) [event0; event0; event0; event0] [str "c1"]
    (length (message0 ++ forward0 ++ compressed0) + size0).
Proof. by apply ready_message; [|apply stream0|]. Qed.

Lemma Next_stream_witness : ∃ s' rec c1 c2 n',
  Next ack0 200 (session0 (message0 ++ forward0 ++ compressed0)) (mkEntry [] zeroTime None) =
    Ret (None, s', mkEntry (str "app") (mkTime 5 7) (Some rec)) ∧
  [str "c1"] = c1 ++ c2 ∧ acks s' = acked ack0 [] c1 ∧
  reading s' rec [(str "k", OScalar (SBool true))] [event0; event0; event0] c2 n' ∧
  (n' < length (message0 ++ forward0 ++ compressed0) + size0)%nat.
Proof.
  refine (Next_stream ack0 200 (session0 _) (mkEntry [] zeroTime None)
    [event0; event0; event0; event0] [str "c1"] _ session0_ready (conj eq_refl Logic.I) _).
  by apply Nat.ltb_lt.
Defined.

Definition message4 : list Z :=
  encode (OArray [OScalar (SStr tag0); OScalar (STime (mkTime 5 7) TsFluentd); record_obj x0.2;
    record_obj [(str "chunk", OScalar (SStr (str "c1")))]]).

Lemma options_before_record_witness : ∃ err s' e',
  Next ack0 5 (session0 message4) (mkEntry [] zeroTime None) = Ret (Some err, s', e') ∧ is_EOF err = false.
Proof.
  refine (options_before_record ack0 4 (session0 message4) (mkEntry [] zeroTime None) tag0
    (mkTime 5 7) TsFluentd (str "k") (OScalar (SBool true)) [] [(str "chunk", OScalar (SStr (str "c1")))]
    message4 [] eq_refl tag0_valid _ eq_refl).
  solve_plain.
Defined.
