(* ===== verification/Safety.v ===== *)
(** * Safety: the transport phase on whatever the network sends

    Transport shows what [Next] does with well-formed messages; here are the
    properties of [Next] on readers that may do anything, fail at any point
    included.  [tame] leaves running out of fuel aside: a peer can send empty
    messages for ever, and [Next] reads on until it has an entry. *)

From S2P Require Import Prelude Types Errors Integer Headers Str Timestamp Object RingBuf Iter Transport.

(** [tame P m]: no Go panic, and [P] of what is returned. *)
Definition tame {A} (P : A → Prop) (m : go A) : Prop :=
  match m with Ret a => P a | Panic p => p = OutOfFuel end.

Lemma tame_bind {A B} (P : A → Prop) (Q : B → Prop) (m : go A) (f : A → go B) :
  tame P m → (∀ a, P a → tame Q (f a)) → tame Q (m ≫= f).
Proof. destruct m as [a|p]; [|done]. intros Ha Hf. by apply Hf. Qed.

Lemma tame_mono {A} (P Q : A → Prop) (m : go A) : tame P m → (∀ a, P a → Q a) → tame Q m.
Proof. destruct m; [|done]. intros Ha H. by apply H. Qed.

Lemma tame_returns {A} (m : go A) : returns m → tame (λ _, True) m.
Proof. by intros [a ->]. Qed.

Create HintDb tame.

Lemma be_from_returns n s lo : 0 ≤ lo → lo + Z.of_nat n ≤ slen s → returns (be_from n s lo).
Proof.
  intros Hlo Hhi. unfold be_from, be_at, reslice. pose proof (lenZ_nonneg (spare s)).
  replace ((0 <=? lo) && (lo <=? slen s) && (slen s <=? scap s)) with true by (symmetry; len_lia).
  go_simpl. unfold BigEndian_Uint. destruct (Z.leb_spec (Z.of_nat n) (slen (mkSlice
    (take (Z.to_nat (slen s - lo)) (drop (Z.to_nat lo) (live s ++ spare s)))
    (drop (Z.to_nat (slen s)) (live s ++ spare s))))) as [_|Hn]; [by eexists|].
  exfalso. unfold slen, lenZ in *. cbn [live] in *. rewrite length_take, length_drop, length_app in Hn. lia.
Qed.

(** The timestamps of an entry are read from any bytes. *)
Lemma readTimeUnsafe_returns c src : returns (readTimeUnsafe c src).
Proof.
  unfold readTimeUnsafe. destruct (slen src <? 5) eqn:E5; [by eexists|].
  assert (returns (index src 0)) as [h Eh].
  { destruct (index_in_range src 0) as (h & Eh & _); [lia|]. by exists h. }
  assert (∀ n lo, 0 ≤ lo → lo + Z.of_nat n ≤ slen src → ∃ v, be_from n src lo = Ret v) as Hbe
    by (intros; by apply be_from_returns).
  rewrite Eh. go_simpl.
  repeat (match goal with
    | |- context [if ?b then _ else _] => destruct b eqn:?
    | |- context [be_from ?n src ?lo] => destruct (Hbe n lo) as [? ->]; [lia|lia|go_simpl]
    end); by eexists.
Qed.

Section Readers.
  Context {X : Type} `{!RingOps X}.

Lemma Timestamp_tame (it : Iterator X) : tame (λ _, True) (Iter.Timestamp it).
Proof.
  unfold Iter.Timestamp. destruct (raw it) as [[b [|]] it']; [|done].
  by destruct (readTimeUnsafe_returns (it_byt it') b) as [t ->].
Qed.

Lemma skip_items_tame skip k : (∀ it : Iterator X, tame (λ _, True) (skip it)) →
  ∀ items it, tame (λ _, True) (skip_items skip k items it).
Proof.
  intros Hs. induction k as [|k IH]; intros items it; cbn [skip_items]; destruct (items <=? 0); try done.
  destruct (Iter.Next it) as [[|] it']; [|done]. cbn [negb].
  eapply tame_bind; [apply Hs|]. intros it2 _. apply IH.
Qed.

Lemma Skip_tame fuel : ∀ it : Iterator X, tame (λ _, True) (Skip fuel it).
Proof.
  induction fuel as [|fuel IH]; intros it; [done|]. cbn [Skip].
  destruct (it_typ it); by apply skip_items_tame.
Qed.

Lemma next_pair_tame m tag rec (it : Iterator X) e : tame (λ _, True) (next_pair m tag rec it e).
Proof.
  unfold next_pair. destruct (negb _); [done|]. destruct (NextExpectedType it _) as [[x|] it1]; [done|].
  eapply tame_bind; [apply Timestamp_tame|]. intros [t it2] _.
  by destruct (NextExpectedType it2 _) as [[x|] it3].
Qed.

End Readers.

Section Phase.
  Context {R L I A : Type} `{!RingOps R, !RingOps I, !NestedOps R L I}.
  Variable ack : list Z → A → option error * A.
  (** [Peek] returns as many bytes as it is asked for, or an error *)
  Context (Peek_length : ∀ (l : L) n s l', 0 ≤ n → Peek l n = (s, None, l') → slen s = n).
  Implicit Types (s : Session R I A) (e : Entry).

Definition is_packed (m : Mode) : Prop := m = PackedForwardMode ∨ m = CompressedPackedForwardMode.

(** A phase in a packed mode has the iterator of the message. *)
Definition well_formed s : Prop := is_packed (mode s) → is_Some (p_iter (packed_of (mode s) s)).

(** What an error can leave behind: the iterator is gone, because the options after a
    packed message could not be read. *)
Definition stranded s : Prop :=
  is_packed (mode s) ∧ p_iter (packed_of (mode s) s) = None ∧ p_hasOptions (packed_of (mode s) s) = true.

Definition next_post (r : option error * Session R I A * Entry) : Prop :=
  let '(err, s, _) := r in well_formed s ∨ (err ≠ None ∧ stranded s).

Lemma options_loop_tame fuel k m : ∀ (it : Iterator R) (a : A), tame (λ _, True) (options_loop ack fuel k m it a).
Proof.
  induction k as [|k IH]; intros it a; [done|]. cbn [options_loop].
  destruct (NextExpectedType it _) as [[x|] it1]; [done|]. destruct (Iter.Str it1) as [key it2].
  destruct (Iter.Next it2) as [[|] it3]; [|done]. cbn [negb]. case_bool_decide.
  - eapply tame_bind; [apply Skip_tame|]. intros it4 _. apply IH.
  - destruct (Iter.Str it3) as [chunk it4]. destruct (ack chunk a) as [[x|] a']; [done|apply IH].
Qed.

(** The options do not touch the modes. *)
Lemma handleOptions_tame fuel s : tame (λ r, phase r.2 = phase s) (handleOptions ack fuel s).
Proof.
  unfold handleOptions. destruct (NextExpectedType (orig s) _) as [[x|] it]; [done|].
  eapply tame_bind; [apply options_loop_tame|]. by intros [[err it2] a] _.
Qed.

Lemma phase_well_formed s s' : phase s = phase s' → well_formed s → well_formed s'.
Proof. destruct s, s'; cbn. by intros ->. Qed.

Lemma set_packed_mode m s p : mode (set_packed m s p) = mode s.
Proof. unfold set_packed. by case_bool_decide. Qed.

Lemma packed_of_set m s p : packed_of m (set_packed m s p) = p.
Proof. unfold set_packed, packed_of. by case_bool_decide. Qed.

(** Out of the packed modes there is nothing to have. *)
Lemma unpacked s : ¬ is_packed (mode s) → well_formed s.
Proof. intros Hn Hp. done. Qed.

(** The pool is not part of what is asked of a phase. *)
Lemma set_pool_packed_of m s p : packed_of m (set_pool s p) = packed_of m s.
Proof. unfold packed_of. by case_bool_decide. Qed.

Lemma set_pool_well_formed s p : well_formed s → well_formed (set_pool s p).
Proof. unfold well_formed. by rewrite set_pool_packed_of. Qed.

Lemma Leave_tame fuel s :
  well_formed s →
  tame (λ r, mode r.2 = mode s ∧ (r.1 ≠ None → well_formed r.2 ∨ stranded r.2)) (Leave ack fuel s).
Proof.
  intros Hwf. assert (∀ m, is_packed m → m = mode s →
    tame (λ r, mode r.2 = mode s ∧ (r.1 ≠ None → well_formed r.2 ∨ stranded r.2))
      (let p := packed_of m s in
       match p_iter p with
       | None => Panic NilPointer
       | Some it =>
         let s := set_pool s (iterPool_Put it (t_iterPool (phase s))) in
         let s := set_packed m s (mkPacked None (p_tag p) (p_hasOptions p)) in
         if p_hasOptions p then handleOptions ack fuel s else Ret (None, s)
       end)) as Hpacked.
  { intros m Hm Em. cbv zeta. rewrite Em in Hm. destruct (Hwf Hm) as [it Eit]. rewrite <- Em in Eit, Hm.
    rewrite Eit. set (s0 := set_pool _ _). set (s1 := set_packed _ _ _).
    assert (mode s1 = mode s) as Hm1 by exact (set_packed_mode m s0 _).
    assert (packed_of m s1 = mkPacked None (p_tag (packed_of m s)) (p_hasOptions (packed_of m s))) as Hp1
      by apply packed_of_set.
    destruct (p_hasOptions (packed_of m s)) eqn:Ho; [|done].
    eapply tame_mono; [apply handleOptions_tame|]. intros [err s'] E. cbn [fst snd] in *.
    unfold mode in *. rewrite E. split; [done|]. intros _. right. unfold stranded, mode, packed_of in *.
    rewrite E, Hm1, <- Em, Hp1. by split. }
  unfold Leave. destruct (mode s) eqn:Em; [done| |by apply Hpacked; [left|]|by apply Hpacked; [right|]].
  unfold ForwardMode_Leave.
  destruct (f_hasOptions _); [|done]. eapply tame_mono; [apply handleOptions_tame|].
  intros [err s'] E. cbn [fst snd] in *. assert (mode s' = ForwardMode) as Hm by (unfold mode in *; by rewrite E).
  split; [done|]. intros _. left. apply unpacked. rewrite Hm. by intros [?|?].
Qed.

Section Step.
  Variable fuel : nat.
  Variable next : Session R I A → Entry → go (option error * Session R I A * Entry).
  Context (next_tame : ∀ s e, well_formed s → tame next_post (next s e)).

(** An error that leaves a well-formed phase. *)
Lemma fails_tame (err : option error) s e : well_formed s → tame next_post (Ret (err, s, e)).
Proof. by left. Qed.

Lemma MessageMode_Enter_tame s e :
  mode s ≠ MessageMode → well_formed s → tame next_post (MessageMode_Enter ack fuel next s e).
Proof.
  intros Hm Hwf. unfold MessageMode_Enter, changeMode. set (s0 := set_orig _ _).
  change (mode s0) with (mode s). rewrite bool_decide_false by done.
  eapply tame_bind; [by apply Leave_tame|]. intros [[x|] s1] [_ Hs1]; cbn [fst snd] in *.
  - destruct (Hs1 ltac:(done)); [by left|by right].
  - apply next_tame, unpacked. by intros [?|?].
Qed.

(** A change from MessageMode leaves nothing behind. *)
Lemma changeMode_from_message m s e :
  mode s = MessageMode → m ≠ MessageMode → (is_packed m → is_Some (p_iter (packed_of m s))) →
  tame next_post (changeMode ack fuel next m s e).
Proof.
  intros Hs Hm Hp. unfold changeMode. rewrite Hs, bool_decide_false by done. unfold Leave. rewrite Hs. go_simpl.
  apply next_tame. intros H. exact (Hp H).
Qed.

(** MessageMode has no iterator of its own. *)
Lemma message_well_formed s it : mode s = MessageMode → well_formed (set_orig s it).
Proof. intros Hs. apply unpacked. change (mode (set_orig s it)) with (mode s). rewrite Hs. by intros [?|?]. Qed.

Lemma single_entry_tame n s it e : mode s = MessageMode → tame next_post (single_entry ack fuel n s it e).
Proof.
  intros Hs. unfold single_entry. eapply tame_bind; [apply Timestamp_tame|]. intros [t it5] _. cbv zeta.
  destruct (NextExpectedType it5 _) as [[x|] it6]; [by apply fails_tame, message_well_formed|].
  destruct (_ =? 4); [|by apply fails_tame, message_well_formed].
  eapply tame_bind; [apply handleOptions_tame|]. intros [err s'] E. apply fails_tame.
  apply (phase_well_formed (set_orig s it6) s'); [done|by apply message_well_formed].
Qed.

Lemma packed_entries_tame n s it e : mode s = MessageMode → tame next_post (packed_entries ack fuel next n s it e).
Proof.
  intros Hs. unfold packed_entries.
  destruct (Peek (LimitReader (it_r it) (it_length it)) 3) as [[p [x|]] l] eqn:Ep;
    unfold isGzip; rewrite Ep; go_simpl; [by apply fails_tame, message_well_formed|].
  apply Peek_length in Ep; [|lia].
  destruct (index_in_range p 0) as (c0 & -> & _); [lia|]. destruct (index_in_range p 1) as (c1 & -> & _); [lia|].
  destruct (index_in_range p 2) as (c2 & -> & _); [lia|]. go_simpl. destruct (_ && _).
  - unfold CompressedPackedForwardMode_Enter. destruct (gzip_Get _) as [[x|] i].
    { by apply fails_tame, (message_well_formed s (with_reader it (limit_ring i))). }
    destruct (iterPool_Get _ _) as [it1 p1].
    apply changeMode_from_message; [done|done|]. intros _. by eexists.
  - unfold PackedForwardMode_Enter. destruct (iterPool_Get _ _) as [it1 p1]. apply changeMode_from_message; [done|done|]. intros _. by eexists.
Qed.

Lemma MessageMode_Next_tame s e : mode s = MessageMode → tame next_post (MessageMode_Next ack fuel next s e).
Proof.
  intros Hs. assert (∀ it, well_formed (set_orig s it)) as Hwf by (intros it; by apply message_well_formed).
  unfold MessageMode_Next. destruct (NextExpectedType _ _) as [[x|] it1]; [by apply fails_tame|].
  destruct (_ || _); [by apply fails_tame|].
  destruct (NextExpectedType it1 _) as [[x|] it2]; [by apply fails_tame|].
  destruct (_ <? minTagLen); [by apply fails_tame|]. destruct (maxTagLen <? _); [by apply fails_tame|].
  destruct (Iter.Str it2) as [tag it3]. destruct (Iter.Next it3) as [[|] it4]; [|by apply fails_tame].
  cbn [negb]. destruct (it_typ it4); try (by apply fails_tame); try by apply single_entry_tame.
  - by apply packed_entries_tame.
  - unfold ForwardMode_Enter. apply changeMode_from_message; [done|done|]. by intros [?|?].
Qed.

Lemma ForwardMode_Next_tame s e : mode s = ForwardMode → tame next_post (ForwardMode_Next ack fuel next s e).
Proof.
  intros Hs. assert (∀ s', mode s' = mode s → well_formed s') as Hwf.
  { intros s' Hm. apply unpacked. rewrite Hm, Hs. by intros [?|?]. }
  unfold ForwardMode_Next. destruct (_ <=? 0).
  { apply MessageMode_Enter_tame; [change (mode s ≠ MessageMode); by rewrite Hs|by apply Hwf]. }
  destruct (NextExpectedType _ _) as [[x|] it1]; [by apply fails_tame, Hwf|].
  eapply tame_bind; [apply next_pair_tame|]. intros [[[x|] it2] e2] _; by apply fails_tame, Hwf.
Qed.

Lemma Packed_Next_tame s e :
  is_packed (mode s) → well_formed s → tame next_post (Packed_Next ack fuel next (mode s) s e).
Proof.
  intros Hp Hwf. unfold Packed_Next. destruct (Hwf Hp) as [it Eit]. rewrite Eit.
  assert (∀ it', well_formed (set_packed (mode s) s
    (mkPacked (Some it') (p_tag (packed_of (mode s) s)) (p_hasOptions (packed_of (mode s) s))))) as Hset.
  { intros it' _. rewrite set_packed_mode, packed_of_set. by eexists. }
  destruct (NextExpectedType _ _) as [[x|] it1].
  - destruct (is_EOF x); [|by apply fails_tame]. apply MessageMode_Enter_tame; [|exact (Hset it1)].
    match goal with |- mode (set_orig ?s1 _) ≠ _ => change (mode s1 ≠ MessageMode) end.
    rewrite set_packed_mode. by destruct Hp as [-> | ->].
  - eapply tame_bind; [apply next_pair_tame|]. intros [[err it2] e2] _. by apply fails_tame.
Qed.

End Step.

Lemma Next_tame fuel : ∀ s e, well_formed s → tame next_post (Transport.Next ack fuel s e).
Proof.
  induction fuel as [|fuel IH]; intros s e Hs; [done|]. cbn [Transport.Next].
  pose proof (Packed_Next_tame fuel (Transport.Next ack fuel) IH s e) as Hp.
  destruct (mode s) eqn:Em.
  - by apply MessageMode_Next_tame.
  - by apply ForwardMode_Next_tame.
  - apply Hp; [by left|done].
  - apply Hp; [by right|done].
Qed.

(** ** Sessions

    A session as a handler sees it: it calls [Next], may go on after an error, and
    in between reads of the connection and of the current packed message as much as it
    likes; meanwhile other sessions may put any iterators into the pool and take any
    out. *)
Inductive handled : Session R I A → Prop :=
  | handled_Init it a : handled (Init it a)
  | handled_Next fuel s e err s' e' :
      handled s → Transport.Next ack fuel s e = Ret (err, s', e') → ¬ stranded s' → handled s'
  | handled_orig s it : handled s → handled (set_orig s it)
  | handled_pool s p : handled s → handled (set_pool s p)
  | handled_inner s it it' :
      handled s → is_packed (mode s) → p_iter (packed_of (mode s) s) = Some it →
      handled (set_packed (mode s) s
        (mkPacked (Some it') (p_tag (packed_of (mode s) s)) (p_hasOptions (packed_of (mode s) s)))).

Lemma handled_well_formed s : handled s → well_formed s.
Proof.
  induction 1 as [it a|fuel s e err s' e' _ IH E Hn|s it _ IH|s p _ IH|s it it' _ IH Hp E].
  - by intros [?|?].
  - pose proof (Next_tame fuel s e IH) as Ht. rewrite E in Ht. by destruct Ht as [Ht|[_ Ht]].
  - exact IH.
  - by apply set_pool_well_formed.
  - intros _. rewrite set_packed_mode, packed_of_set. by eexists.
Qed.

(** C12: The transport phase never panics, whatever bytes, errors and fragments the
    network delivers, for as long as no error has come from the options after a packed
    message: in every session that a handler can reach [Next] returns, or it is still
    reading, and what it returns is again such a session or reports such an error. *)
Theorem Next_safe s fuel e :
  handled s →
  (∃ err s' e', Transport.Next ack fuel s e = Ret (err, s', e') ∧ (handled s' ∨ (err ≠ None ∧ stranded s'))) ∨
  Transport.Next ack fuel s e = Panic OutOfFuel.
Proof.
  intros Hs. pose proof (Next_tame fuel s e (handled_well_formed s Hs)) as Ht.
  destruct (Transport.Next ack fuel s e) as [[[err s'] e']|p] eqn:E; [|right; by f_equal]. left.
  exists err, s', e'. split; [done|]. destruct Ht as [Hwf|Hst]; [left|by right].
  eapply handled_Next; [exact Hs|exact E|]. intros (Hp & Hn & _). destruct (Hwf Hp) as [it Hit]. congruence.
Qed.

End Phase.

Section Stranded.
  Context {R L I A : Type} `{!RingOps R, !RingOps I, !NestedOps R L I}.
  Variable ack : list Z → A → option error * A.

(** C34: When the options after a packed message cannot be read, say because a read
    deadline passed, [Next] returns the error and has already given the message's
    iterator away: a handler that calls [Next] again, as the example server does after a
    deadline, panics. *)
Theorem Next_after_failed_options fuel (s : Session R I A) e it it1 x it2 :
  is_packed (mode s) → p_iter (packed_of (mode s) s) = Some it →
  NextExpectedType (Iter.Flush it) [Types.Array] = (Some EOF, it1) →
  p_hasOptions (packed_of (mode s) s) = true →
  NextExpectedType (Iter.SetManualFlush (with_reader (orig s) (lender (it_r it1))) true) [Types.Map] = (Some x, it2) →
  ∃ s', Transport.Next ack (S fuel) s e = Ret (Some (phase_errorNoEof (mode s) "ack" (RError x)), s', e) ∧
    ∀ fuel' e', Transport.Next ack (S fuel') s' e' = Panic NilPointer.
Proof.
  intros Hp Eit EN Ho EM.
  set (m := mode s) in *. set (p := packed_of m s) in *.
  set (s1 := set_orig (set_packed m s (mkPacked (Some it1) (p_tag p) (p_hasOptions p)))
    (Iter.SetManualFlush (with_reader (orig s) (lender (it_r it1))) true)).
  set (s3 := set_packed m (set_pool s1 (iterPool_Put it1 (t_iterPool (phase s1)))) (mkPacked None (p_tag p) true)).
  assert (Leave ack fuel s1 = handleOptions ack fuel s3) as EL.
  { assert (mode s1 = m) as Em by exact (set_packed_mode m s _).
    assert (packed_of m s1 = mkPacked (Some it1) (p_tag p) true) as Ep by (rewrite <- Ho; exact (packed_of_set m s _)).
    unfold Leave, PackedForwardMode_Leave, CompressedPackedForwardMode_Leave. rewrite Em. clearbody m.
    destruct Hp as [-> | ->]; by rewrite Ep. }
  assert (mode s3 = m) as Em3 by (unfold s3; rewrite set_packed_mode; exact (set_packed_mode m s _)).
  assert (packed_of m s3 = mkPacked None (p_tag p) true) as Ep3 by apply packed_of_set.
  assert (orig s3 = orig s1) as Eo3 by (unfold s3, set_packed; by case_bool_decide).
  exists (set_orig s3 it2). split.
  - assert (Packed_Next ack fuel (Transport.Next ack fuel) m s e = MessageMode_Enter ack fuel (Transport.Next ack fuel)
      (set_orig (set_packed m s (mkPacked (Some it1) (p_tag p) (p_hasOptions p)))
        (with_reader (orig s) (lender (it_r it1)))) e) as EP.
    { unfold Packed_Next. fold p. rewrite Eit, EN. cbn [is_EOF EOF].
      unfold set_packed. by case_bool_decide. }
    cbn [Transport.Next]. fold m. transitivity (Packed_Next ack fuel (Transport.Next ack fuel) m s e).
    { clearbody m. by destruct Hp as [-> | ->]. }
    rewrite EP. unfold MessageMode_Enter, changeMode.
    match goal with |- context [Leave ack fuel ?s0] => change s0 with s1 end.
    assert (mode s1 = m) as -> by exact (set_packed_mode m s _).
    rewrite bool_decide_false by (clearbody m; by destruct Hp as [-> | ->]).
    rewrite EL. unfold handleOptions. rewrite Eo3, Em3. cbn [orig s1 set_orig]. by rewrite EM.
  - intros fuel' e'. cbn [Transport.Next]. change (mode (set_orig s3 it2)) with (mode s3). rewrite Em3.
    assert (p_iter (packed_of m (set_orig s3 it2)) = None) as En.
    { change (packed_of m (set_orig s3 it2)) with (packed_of m s3). by rewrite Ep3. }
    clearbody m. unfold PackedForwardMode_Next, CompressedPackedForwardMode_Next, Packed_Next.
    destruct Hp as [-> | ->]; by rewrite En.
Qed.

End Stranded.

(** ** Witnesses *)

Lemma list_Peek_length (l : list_limit) n s l' : 0 ≤ n → Peek l n = (s, None, l') → slen s = n.
Proof.
  intros Hn. cbn. destruct (lenZ (body l) <? n) eqn:E; [done|]. intros [= <- _].
  unfold slen, lenZ in *. cbn [live sl]. rewrite length_take. lia.
Qed.

Definition entry0 : Entry := mkEntry [] zeroTime None.

Lemma Next_safe_witness :
  (∃ err s' e', Transport.Next ack0 9 (session0 (take 9 message0)) entry0 = Ret (err, s', e') ∧
    (handled ack0 s' ∨ (err ≠ None ∧ stranded s'))) ∨
  Transport.Next ack0 9 (session0 (take 9 message0)) entry0 = Panic OutOfFuel.
Proof. apply (Next_safe ack0 list_Peek_length (session0 (take 9 message0)) 9 entry0). apply handled_Init. Defined.

(** A packed message of one entry that announces options; the connection ends before
    them. *)
Definition truncated0 : list Z :=
  AppendArrayHeader [] 3 ++ AppendString [] tag0 ++ AppendBinary [] (encode (pair_obj x0)).

(** The session after [Next] has handed out the entry and the handler has read it. *)
Definition stuck0 : Session list_ring list_inner (list (list Z)) :=
  match Transport.Next ack0 50 (session0 truncated0) entry0 with
  | Ret (None, s, _) =>
    match p_iter (packed_of (mode s) s) with
    | Some it =>
      match Skip 50 it with
      | Ret it' => set_packed (mode s) s (mkPacked (Some it') (p_tag (packed_of (mode s) s)) true)
      | Panic _ => s
      end
    | None => s
    end
  | _ => session0 []
  end.

Lemma Next_after_failed_options_witness :
  ∃ s', Transport.Next ack0 50 stuck0 entry0 =
      Ret (Some (phase_errorNoEof PackedForwardMode "ack" (RError EOF)), s', entry0) ∧
    ∀ fuel' e', Transport.Next ack0 (S fuel') s' e' = Panic NilPointer.
Proof.
  refine (Next_after_failed_options ack0 49 stuck0 entry0 _ _ EOF _ _ _ _ _ _).
  - left. vm_compute. reflexivity.
  - vm_compute. reflexivity.
  - vm_compute. reflexivity.
  - vm_compute. reflexivity.
  - vm_compute. reflexivity.
Defined.
