(* ===== verification/Bounded.v ===== *)
(** * Bounded: the transport phase reads no further than the data

    Safety says what [Next] may do on any reader; here are readers with a bounded
    amount of data ([Finite]): no operation makes what is left grow, and a byte that
    is read makes it less.  On these [Next] returns, and a handler's loop ends, however
    the messages are formed: empty arrays, empty packed messages and options of any
    size included. *)

From Stdlib Require Import Wellfounded.Inclusion.
From S2P Require Import Prelude Types Errors Integer Headers Str Timestamp Object RingBuf Iter Transport Safety.
From S2P Require Gzip.

(** ** Readers *)

(** No operation of the reader makes [m] grow. *)
Record never_grows {X} `{!RingOps X} (m : X → nat) : Prop := {
  ReadByte_le r : (m (ReadByte r).2 ≤ m r)%nat;
  ReadBytes_le r n : (m (ReadBytes r n).2 ≤ m r)%nat;
  Discard_le r n : (m (Discard r n) ≤ m r)%nat;
  Flush_le r : (m (RingBuf.Flush r) ≤ m r)%nat;
  SetManualFlush_le r v : (m (RingBuf.SetManualFlush r v) ≤ m r)%nat
}.

(** [left r] bounds the bytes that the reader will still deliver. *)
Class Finite (X : Type) `{!RingOps X} := {
  left : X → nat;
  left_le : never_grows left;
  ReadByte_lt r c r' : ReadByte r = (c, None, r') → (left r' < left r)%nat
}.

(** Lending a ring to an inner reader does not add to it. *)
Class FiniteNested (R L I : Type) `{!RingOps R, !RingOps I, !NestedOps R L I, !Finite R, !Finite I} := {
  LimitReader_le r n : (left (limit_ring (LimitReader (L := L) r n)) ≤ left r)%nat;
  limit_SetManualFlush_le (l : L) v : (left (limit_ring (limit_SetManualFlush l v)) ≤ left (limit_ring l))%nat;
  Peek_le (l : L) n : (left (limit_ring (Peek l n).2) ≤ left (limit_ring l))%nat;
  gzip_Get_le (l : L) : (left (limit_ring (gzip_Get l).2) ≤ left (limit_ring l))%nat;
  new_ring_le (l : L) : (left (lender (new_ring l)) ≤ left (limit_ring l))%nat;
  reset_ring_le i (l : L) : (left (lender (reset_ring i l)) ≤ left (limit_ring l))%nat;
  lender_le : never_grows (λ i, left (lender i))
}.

(** ** Iterators over them *)

(** [ends P m]: there is fuel enough, and [P] of what is returned. *)
Definition ends {A} (P : A → Prop) (m : go A) : Prop :=
  match m with Ret a => P a | Panic p => p ≠ OutOfFuel end.

Lemma ends_bind {A B} (P : A → Prop) (Q : B → Prop) (m : go A) (f : A → go B) :
  ends P m → (∀ a, P a → ends Q (f a)) → ends Q (m ≫= f).
Proof. destruct m as [a|p]; [|done]. intros Ha Hf. by apply Hf. Qed.

Lemma ends_mono {A} (P Q : A → Prop) (m : go A) : ends P m → (∀ a, P a → Q a) → ends Q m.
Proof. destruct m; [|done]. intros Ha H. by apply H. Qed.

Lemma tame_ends {A} (P Q : A → Prop) (m : go A) : tame P m → ends Q m → ∃ a, m = Ret a ∧ P a ∧ Q a.
Proof. destruct m as [a|p]; [by exists a|]. intros -> H. by destruct H. Qed.

Lemma Timestamp_returns {X} `{!RingOps X} (it : Iterator X) : returns (Iter.Timestamp it).
Proof.
  unfold Iter.Timestamp. destruct (raw it) as [[b [|]] it']; [|by eexists].
  destruct (readTimeUnsafe_returns (it_byt it') b) as [t ->]. by eexists.
Qed.

Section Measure.
  Context {X : Type} `{!RingOps X}.
  Variable m : X → nat.
  Context (Hm : never_grows m).
  Implicit Type it : Iterator X.

(** Reading leaves no more. *)
Lemma never_grows_reads : reads_respect (λ r r', (m r' ≤ m r)%nat).
Proof.
  split; [split; [intros r; lia|intros r1 r2 r3; lia]|apply (ReadByte_le _ Hm)|apply (ReadBytes_le _ Hm)
    |apply (Discard_le _ Hm)].
Qed.

Lemma next_pair_ends md tag rec it e :
  ends (λ r, (m (it_r r.1.2) ≤ m (it_r it))%nat) (next_pair md tag rec it e).
Proof.
  pose proof never_grows_reads as Hr. unfold next_pair. destruct (negb _); [cbn; lia|].
  pose proof (NextExpectedType_reads _ Hr it [Ext; Types.Int; Types.Uint]) as H1.
  destruct (NextExpectedType it _) as [[x|] it1]; [done|]. cbn beta in H1.
  destruct (Timestamp_returns it1) as [[t it2] E]. rewrite E.
  pose proof (Timestamp_reads _ Hr _ _ _ E) as H2. go_simpl.
  pose proof (NextExpectedType_reads _ Hr it2 [Types.Map]) as H3. cbn [snd] in *.
  destruct (NextExpectedType it2 _) as [[x|] it3]; cbn in *; lia.
Qed.

End Measure.

Section FiniteIterators.
  Context {X : Type} `{!RingOps X, !Finite X}.
  Implicit Type it : Iterator X.

Lemma left_reads : reads_respect (λ r r' : X, (left r' ≤ left r)%nat).
Proof. apply never_grows_reads, left_le. Qed.

Definition unread it : nat := left (it_r it).

(** A token takes at least a byte. *)
Lemma Next_lt it it' : Iter.Next it = (true, it') → (unread it' < unread it)%nat.
Proof.
  intros E. pose proof (Next_reads_head _ left_reads it) as H. rewrite E in H. unfold unread in *.
  cbn [with_reader it_r snd] in H. unfold Iter.Next in E. cbn [with_err it_r] in E.
  destruct (ReadByte (it_r it)) as [[c [x|]] r] eqn:Er; [done|]. apply ReadByte_lt in Er. cbn in H. lia.
Qed.

Lemma NextExpectedType_lt it ts it' : NextExpectedType it ts = (None, it') → (unread it' < unread it)%nat.
Proof.
  unfold NextExpectedType. destruct (Iter.Next it) as [[|] it1] eqn:E; cbn [negb].
  - destruct (existsb _ _); [|done]. intros [= <-]. by apply Next_lt.
  - by destruct (it_err it1).
Qed.

Lemma skip_items_ends skip n : (∀ it, (unread it < n)%nat → ends (λ it', (unread it' ≤ unread it)%nat) (skip it)) →
  ∀ k items it, (unread it ≤ n)%nat → (unread it < k)%nat →
  ends (λ it', (unread it' ≤ unread it)%nat) (skip_items skip k items it).
Proof.
  intros Hs. induction k as [|k IH]; intros items it Hn Hk; [lia|]. cbn [skip_items].
  destruct (items <=? 0); [cbn; lia|]. pose proof (Next_reads _ left_reads it) as Hle. fold (unread it) in Hle.
  destruct (Iter.Next it) as [[|] it'] eqn:E; [|done]. cbn [negb snd] in *. apply Next_lt in E.
  eapply ends_bind; [apply Hs; lia|]. cbn beta. intros it2 H2.
  eapply ends_mono; [apply IH; lia|]. cbn beta. lia.
Qed.

(** [Skip] ends on any reader with bounded data, whatever the token. *)
Lemma Skip_ends fuel : ∀ it, (unread it + 1 < fuel)%nat →
  ends (λ it', (unread it' ≤ unread it)%nat) (Skip fuel it).
Proof.
  induction fuel as [|fuel IH]; intros it Hf; [lia|]. cbn [Skip].
  assert (∀ items it0, (unread it0 ≤ unread it)%nat →
    ends (λ it', (unread it' ≤ unread it)%nat) (skip_items (Skip fuel) fuel items it0)) as Hloop.
  { intros items it0 H0. eapply ends_mono; [apply (skip_items_ends _ (unread it)); [|done|lia]|cbn beta; lia].
    intros it1 H1. apply IH. lia. }
  destruct (it_typ it); apply Hloop; first [done | apply (Discard_le _ left_le)].
Qed.

End FiniteIterators.

(** ** The transport phase *)

Section Phase.
  Context {R L I A : Type} `{!RingOps R, !RingOps I, !NestedOps R L I}.
  Context `{!Finite R, !Finite I, !FiniteNested R L I}.
  Variable ack : list Z → A → option error * A.
  Implicit Types (s : Session R I A) (e : Entry).

(** The bytes of the connection that a session has not read: in a packed mode the
    ring is lent to the iterator of the message. *)
Definition lent (p : Packed) (it : Iterator R) : nat :=
  match p_iter (I := I) p with Some i => left (lender (it_r i)) | None => unread it end.

Definition avail s : nat :=
  match mode s with
  | MessageMode | ForwardMode => unread (orig s)
  | m => lent (packed_of m s) (orig s)
  end.

(** The calls of [Next] that are left, and what skipping needs. *)
Definition need s : nat := avail s + match mode s with MessageMode => 2 | _ => 3 end.

Lemma options_loop_ends fuel k m : ∀ (it : Iterator R) (a : A), (unread it + 1 < fuel)%nat →
  ends (λ r, (unread r.1.2 ≤ unread it)%nat) (options_loop ack fuel k m it a).
Proof.
  induction k as [|k IH]; intros it a Hf; [cbn; lia|]. cbn [options_loop].
  pose proof (NextExpectedType_reads _ left_reads it [Types.Str]) as H1.
  destruct (NextExpectedType it _) as [[x|] it1]; [done|].
  pose proof (Str_reads _ left_reads it1) as H2. destruct (Iter.Str it1) as [key it2].
  pose proof (Next_reads _ left_reads it2) as H3. destruct (Iter.Next it2) as [[|] it3]; cbn [negb snd] in *;
    [|unfold unread; cbn; lia].
  assert (unread it3 ≤ unread it)%nat as H by (unfold unread; lia). case_bool_decide.
  - eapply ends_bind; [apply Skip_ends; lia|]. cbn beta. intros it4 H4.
    eapply ends_mono; [apply IH; lia|]. cbn beta. lia.
  - pose proof (Str_reads _ left_reads it3) as H4. destruct (Iter.Str it3) as [chunk it4].
    change (unread it4 ≤ unread it3)%nat in H4.
    destruct (ack chunk a) as [[x|] a']; [cbn; lia|]. eapply ends_mono; [apply IH; lia|]. cbn beta. lia.
Qed.

Lemma handleOptions_ends fuel s : (unread (orig s) + 1 < fuel)%nat →
  ends (λ r, phase r.2 = phase s ∧ (unread (orig r.2) ≤ unread (orig s))%nat) (handleOptions ack fuel s).
Proof.
  intros Hf. unfold handleOptions. pose proof (NextExpectedType_reads _ left_reads (orig s) [Types.Map]) as H1.
  destruct (NextExpectedType (orig s) _) as [[x|] it]; [done|].
  change (unread it ≤ unread (orig s))%nat in H1.
  eapply ends_bind; [apply options_loop_ends; lia|]. intros [[err it2] a] H2. cbn in *. split; [done|lia].
Qed.

Lemma set_packed_orig m s p : orig (set_packed m s p) = orig s.
Proof. unfold set_packed. by case_bool_decide. Qed.

(** [avail] by the mode. *)
Lemma avail_message s : mode s = MessageMode → avail s = unread (orig s).
Proof. unfold avail. by intros ->. Qed.
Lemma avail_forward s : mode s = ForwardMode → avail s = unread (orig s).
Proof. unfold avail. by intros ->. Qed.
Lemma avail_packed s : is_packed (mode s) → avail s = lent (packed_of (mode s) s) (orig s).
Proof. unfold avail. by intros [-> | ->]. Qed.

(** Leaving a mode reads the options from the connection. *)
Lemma Leave_ends fuel s : (unread (orig s) + 1 < fuel)%nat →
  ends (λ r, mode r.2 = mode s ∧ (unread (orig r.2) ≤ unread (orig s))%nat ∧
             (avail r.2 ≤ unread (orig s))%nat) (Leave ack fuel s).
Proof.
  intros Hf.
  assert (∀ m, is_packed m → m = mode s →
    ends (λ r, mode r.2 = mode s ∧ (unread (orig r.2) ≤ unread (orig s))%nat ∧ (avail r.2 ≤ unread (orig s))%nat)
      (let p := packed_of m s in
       match p_iter p with
       | None => Panic NilPointer
       | Some it =>
         let s := set_pool s (iterPool_Put it (t_iterPool (phase s))) in
         let s := set_packed m s (mkPacked None (p_tag p) (p_hasOptions p)) in
         if p_hasOptions p then handleOptions ack fuel s else Ret (None, s)
       end)) as Hpacked.
  { intros m Hm Em. cbv zeta. destruct (p_iter (packed_of m s)) as [it|]; [|done].
    set (s0 := set_pool _ _). set (s1 := set_packed _ _ _).
    assert (mode s1 = m) as Hm1 by (rewrite Em; exact (set_packed_mode m s0 _)).
    assert (orig s1 = orig s) as Ho1 by exact (set_packed_orig m s0 _).
    assert (∀ s2, phase s2 = phase s1 → avail s2 = unread (orig s2)) as Hav.
    { intros s2 E. assert (mode s2 = m) as Hm2 by (rewrite <- Hm1; unfold mode; by rewrite E).
      rewrite avail_packed by by rewrite Hm2. rewrite Hm2.
      assert (packed_of m s2 = packed_of m s1) as -> by (unfold packed_of; by rewrite E).
      unfold s1. by rewrite packed_of_set. }
    destruct (p_hasOptions (packed_of m s)).
    - eapply ends_mono; [apply handleOptions_ends; by rewrite Ho1|]. intros [err s2] [E H2]. cbn [snd] in *.
      rewrite Hav by done. rewrite Ho1 in H2. split; [|done]. rewrite <- Em, <- Hm1. unfold mode. by rewrite E.
    - cbn. rewrite Hav by done. rewrite Ho1. by rewrite <- Em. }
  unfold Leave. destruct (mode s) eqn:Em.
  - cbn. by rewrite avail_message.
  - unfold ForwardMode_Leave. destruct (f_hasOptions _); [|cbn; by rewrite avail_forward].
    eapply ends_mono; [by apply handleOptions_ends|]. intros [err s2] [E H2]. cbn [snd] in *.
    assert (mode s2 = ForwardMode) as Hm2 by (rewrite <- Em; unfold mode; by rewrite E). by rewrite avail_forward.
  - by apply Hpacked; [left|].
  - by apply Hpacked; [right|].
Qed.

(** The bytes of the current packed message that have not been read. *)
Definition packed_unread s : nat :=
  match mode s with
  | MessageMode | ForwardMode => 0
  | m => match p_iter (packed_of m s) with Some i => unread i | None => 0 end
  end.

(** There is less to read: of the connection, or of the message. *)
Definition smaller s' s : Prop :=
  (avail s' < avail s)%nat ∨ (avail s' = avail s ∧ (packed_unread s' < packed_unread s)%nat).

(** What a call of [Next] that returns does to them. *)
Definition less s (r : option error * Session R I A * Entry) : Prop :=
  (avail r.1.2 ≤ avail s)%nat ∧ (r.1.1 = None → smaller r.1.2 s).

Lemma less_unpacked s s1 r : ¬ is_packed (mode s1) → (avail s1 ≤ avail s)%nat → less s1 r → less s r.
Proof.
  intros Hn Hle [H1 H2]. split; [lia|]. intros He. destruct (H2 He) as [H|[_ H]]; [left; lia|].
  unfold packed_unread in H. exfalso. destruct (mode s1) eqn:Em; [lia|lia| |]; apply Hn; [by left|by right].
Qed.

Lemma less_below s s1 r : (avail s1 < avail s)%nat → less s1 r → less s r.
Proof. intros Hlt [H1 H2]. split; [lia|]. left. lia. Qed.

Lemma less_error s s1 x e : (avail s1 ≤ avail s)%nat → ends (less s) (Ret (Some x, s1, e)).
Proof. by split. Qed.

Lemma isGzip_ends (l : L) : ends (λ r, (left (limit_ring r.2) ≤ left (limit_ring l))%nat) (isGzip l).
Proof.
  unfold isGzip. pose proof (Peek_le l 3) as H. destruct (Peek l 3) as [[p [x|]] l']; [done|]. cbn [snd] in H.
  assert (∀ i, ends (λ _, True) (index p i)) as Hi.
  { intros i. unfold index. repeat case_match; done. }
  repeat (eapply ends_bind; [apply Hi|]; intros ? _). done.
Qed.

(** The pool's iterator gets a ring that has lent no more than the reader. *)
Lemma iterPool_Get_le (l : L) p :
  (left (lender (it_r (iterPool_Get l p).1)) ≤ left (limit_ring l))%nat.
Proof.
  unfold iterPool_Get. destruct (iters p !! _) as [it|]; cbn [fst it_r with_reader NewIterator].
  - apply reset_ring_le.
  - pose proof (SetManualFlush_le _ lender_le (new_ring l) true) as H. cbn beta in H. pose proof (new_ring_le l). lia.
Qed.

Section Step.
  Variable fuel : nat.
  Variable next : Session R I A → Entry → go (option error * Session R I A * Entry).
  Context (next_ends : ∀ s e, (need s ≤ fuel)%nat → ends (less s) (next s e)).

Lemma MessageMode_Enter_ends s0 s e :
  mode s ≠ MessageMode → (unread (orig s) ≤ avail s0)%nat → (avail s0 + 3 ≤ S fuel)%nat →
  ends (less s0) (MessageMode_Enter ack fuel next s e).
Proof.
  intros Hm Hle Hf. unfold MessageMode_Enter, changeMode. set (s1 := set_orig _ _).
  change (mode s1) with (mode s). rewrite bool_decide_false by done.
  assert (unread (orig s1) ≤ unread (orig s))%nat as H1 by apply (SetManualFlush_le _ left_le).
  eapply ends_bind; [apply (Leave_ends fuel s1); lia|]. intros [[x|] s2] (Em & H2 & H3); cbn [fst snd] in *.
  - apply less_error. lia.
  - eapply ends_mono; [apply next_ends|].
    + unfold need. rewrite (avail_message (set_mode s2 MessageMode)) by done. cbn. lia.
    + intros r. apply less_unpacked; [by intros [?|?]|]. rewrite (avail_message (set_mode s2 MessageMode)) by done.
      cbn. lia.
Qed.

(** From MessageMode after the heads of the message and of its tag. *)
Lemma changeMode_ends m s0 s e :
  mode s = MessageMode → m ≠ MessageMode → (avail (set_mode s m) + 2 ≤ avail s0)%nat → (avail s0 + 2 ≤ S fuel)%nat →
  ends (less s0) (changeMode ack fuel next m s e).
Proof.
  intros Hs Hm Hlt Hf. unfold changeMode. rewrite Hs, bool_decide_false by done. unfold Leave. rewrite Hs. go_simpl.
  eapply ends_mono; [apply next_ends|intros r; apply less_below; lia].
  unfold need. change (mode (set_mode s m)) with m. destruct m; [done|lia..].
Qed.

(** In MessageMode all that is left is the connection's. *)
Lemma message_error s it x e :
  mode s = MessageMode → (unread it ≤ unread (orig s))%nat → ends (less s) (Ret (Some x, set_orig s it, e)).
Proof.
  intros Hs H. apply less_error. rewrite (avail_message (set_orig s it)), (avail_message s Hs) by done. exact H.
Qed.

Lemma message_less s it e :
  mode s = MessageMode → (unread it < unread (orig s))%nat → ends (less s) (Ret (None, set_orig s it, e)).
Proof.
  intros Hs H. pose proof (avail_message s Hs) as Ha. pose proof (avail_message (set_orig s it) Hs) as H1.
  cbn [orig set_orig] in H1. split; [cbn; lia|]. left. cbn. lia.
Qed.

Lemma single_entry_ends n s it e :
  mode s = MessageMode → (unread it + 2 ≤ unread (orig s))%nat → (unread (orig s) + 2 ≤ S fuel)%nat →
  ends (less s) (single_entry ack fuel n s it e).
Proof.
  intros Hs Hlt Hf. pose proof (avail_message s Hs) as Ha. unfold single_entry.
  destruct (Timestamp_returns it) as [[t it5] ET]. pose proof (Timestamp_reads _ left_reads _ _ _ ET) as H5.
  rewrite ET. go_simpl. cbv zeta. change (unread it5 ≤ unread it)%nat in H5.
  pose proof (NextExpectedType_reads _ left_reads it5 [Types.Map]) as H6.
  destruct (NextExpectedType it5 _) as [[x|] it6]; cbn [snd] in H6; change (unread it6 ≤ unread it5)%nat in H6;
    [apply message_error; [done|lia]|]. destruct (_ =? 4); [|apply message_less; [done|lia]].
  eapply ends_bind; [apply handleOptions_ends; cbn; lia|]. intros [err s'] [Ep H7]. cbn [fst snd] in *.
  assert (mode s' = MessageMode) as Hm by (unfold mode in *; by rewrite Ep).
  pose proof (avail_message s' Hm) as H8. cbn [orig set_orig] in H7. split; [cbn; lia|]. left. cbn. lia.
Qed.

Lemma packed_entries_ends n s it e :
  mode s = MessageMode → (unread it + 2 ≤ unread (orig s))%nat → (unread (orig s) + 2 ≤ S fuel)%nat →
  ends (less s) (packed_entries ack fuel next n s it e).
Proof.
  intros Hs Hlt Hf. pose proof (avail_message s Hs) as Ha. unfold packed_entries.
  eapply ends_bind; [apply isGzip_ends|]. intros [[gz err] l] Hl. cbn [snd] in Hl.
  pose proof (LimitReader_le (it_r it) (it_length it)) as Hl0. fold (unread it) in Hl0.
  destruct err as [x|]; [apply message_error; [done|unfold unread in *; cbn; lia]|].
  pose proof (limit_SetManualFlush_le l false) as Hl1. set (l1 := limit_SetManualFlush l false) in *.
  destruct (gz : bool).
  - unfold CompressedPackedForwardMode_Enter. fold l1. pose proof (gzip_Get_le l1) as Hg.
    destruct (gzip_Get l1) as [[x|] l2]; cbn [snd] in Hg.
    { apply (message_error s (with_reader it (limit_ring l2))); [done|unfold unread in *; cbn; lia]. }
    pose proof (iterPool_Get_le l2 (t_iterPool (phase (set_orig s it)))) as Hi.
    destruct (iterPool_Get l2 _) as [i p]. cbn [fst] in Hi.
    apply changeMode_ends; [done|done| |lia]. rewrite Ha.
    set (s1 := set_mode _ _). change (avail s1) with (left (lender (it_r i))). lia.
  - unfold PackedForwardMode_Enter. fold l1.
    pose proof (iterPool_Get_le l1 (t_iterPool (phase (set_orig s it)))) as Hi.
    destruct (iterPool_Get l1 _) as [i p]. cbn [fst] in Hi.
    apply changeMode_ends; [done|done| |lia]. rewrite Ha.
    set (s1 := set_mode _ _). change (avail s1) with (left (lender (it_r i))). lia.
Qed.

Lemma MessageMode_Next_ends s e :
  mode s = MessageMode → (need s ≤ S fuel)%nat → ends (less s) (MessageMode_Next ack fuel next s e).
Proof.
  intros Hs Hf. unfold need in Hf. rewrite Hs, avail_message in Hf by done. pose proof (avail_message s Hs) as Ha.
  assert (∀ it x e, (unread it ≤ unread (orig s))%nat → ends (less s) (Ret (Some x, set_orig s it, e))) as Herr
    by (intros; by apply message_error).
  assert (unread (Iter.Flush (orig s)) ≤ unread (orig s))%nat as H0 by apply (Flush_le _ left_le).
  unfold MessageMode_Next. pose proof (NextExpectedType_reads _ left_reads (Iter.Flush (orig s)) [Types.Array]) as H1.
  destruct (NextExpectedType (Iter.Flush (orig s)) _) as [[x|] it1] eqn:E1.
  { apply Herr; unfold unread in *; cbn in *; lia. }
  apply NextExpectedType_lt in E1. clear H1. destruct (_ || _); [apply Herr; lia|].
  pose proof (NextExpectedType_reads _ left_reads it1 [Types.Str]) as H2.
  destruct (NextExpectedType it1 _) as [[x|] it2] eqn:E2; [apply Herr; unfold unread in *; cbn in *; lia|].
  apply NextExpectedType_lt in E2. clear H2.
  destruct (_ <? minTagLen); [apply Herr; lia|]. destruct (maxTagLen <? _); [apply Herr; lia|].
  pose proof (Str_reads _ left_reads it2) as H3. destruct (Iter.Str it2) as [tag it3].
  change (unread it3 ≤ unread it2)%nat in H3.
  pose proof (Next_reads _ left_reads it3) as H4. destruct (Iter.Next it3) as [[|] it4]; cbn [negb snd] in *;
    change (unread it4 ≤ unread it3)%nat in H4; [|apply Herr; lia].
  destruct (it_typ it4); try (apply Herr; lia); try (apply single_entry_ends; [done|lia|lia]).
  - apply packed_entries_ends; [done|lia|lia].
  - unfold ForwardMode_Enter. apply changeMode_ends; [done|done| |lia]. rewrite Ha.
    set (s1 := set_mode _ _). change (avail s1) with (left (RingBuf.SetManualFlush (it_r it4) true)).
    pose proof (SetManualFlush_le _ left_le (it_r it4) true) as H5. unfold unread in *. lia.
Qed.

Lemma ForwardMode_Next_ends s e :
  mode s = ForwardMode → (need s ≤ S fuel)%nat → ends (less s) (ForwardMode_Next ack fuel next s e).
Proof.
  intros Hs Hf. unfold need in Hf. rewrite Hs, avail_forward in Hf by done.
  pose proof (avail_forward s Hs) as Ha.
  assert (unread (Iter.Flush (orig s)) ≤ unread (orig s))%nat as H0 by apply (Flush_le _ left_le).
  assert (∀ s', mode s' = ForwardMode → avail s' = unread (orig s')) as Hav by apply avail_forward.
  unfold ForwardMode_Next. destruct (_ <=? 0).
  { apply MessageMode_Enter_ends; [change (mode s ≠ MessageMode); by rewrite Hs|cbn; lia|lia]. }
  cbn [orig set_orig]. pose proof (NextExpectedType_reads _ left_reads (Iter.Flush (orig s)) [Types.Array]) as H1.
  destruct (NextExpectedType (Iter.Flush (orig s)) _) as [[x|] it1] eqn:E1; cbn [snd] in H1;
    change (unread it1 ≤ unread (Iter.Flush (orig s)))%nat in H1.
  { apply less_error. rewrite Hav by done. cbn. lia. }
  apply NextExpectedType_lt in E1.
  eapply ends_bind; [apply (next_pair_ends left left_le)|]. intros [[[x|] it2] e2] H2; cbn [fst snd] in H2;
    change (unread it2 ≤ unread it1)%nat in H2.
  - apply less_error. rewrite Hav by done. cbn. lia.
  - match goal with |- ends _ (Ret (_, ?s2, _)) => pose proof (Hav s2 Hs) as H3 end. cbn in H3.
    split; [cbn; lia|]. left. cbn. lia.
Qed.

Lemma Packed_Next_ends s e :
  is_packed (mode s) → (need s ≤ S fuel)%nat → ends (less s) (Packed_Next ack fuel next (mode s) s e).
Proof.
  intros Hp Hf. pose proof (avail_packed s Hp) as Ha.
  assert (avail s + 3 ≤ S fuel)%nat as Hf3 by (unfold need in Hf; destruct Hp as [Hp | Hp]; by rewrite Hp in Hf).
  unfold Packed_Next. destruct (p_iter (packed_of (mode s) s)) as [it|] eqn:Eit; [|done].
  assert (lent (packed_of (mode s) s) (orig s) = left (lender (it_r it))) as Hl by (unfold lent; by rewrite Eit).
  assert (packed_unread s = unread it) as Hu by (unfold packed_unread; destruct Hp as [Hp | Hp]; rewrite Hp in *; by rewrite Eit).
  set (with_iter := λ it' : Iterator I, set_packed (mode s) s
    (mkPacked (Some it') (p_tag (packed_of (mode s) s)) (p_hasOptions (packed_of (mode s) s)))).
  assert (∀ it', mode (with_iter it') = mode s ∧ avail (with_iter it') = left (lender (it_r it')) ∧
    packed_unread (with_iter it') = unread it') as Hwith.
  { intros it'. assert (mode (with_iter it') = mode s) as Hm by apply set_packed_mode. split; [done|].
    assert (p_iter (packed_of (mode s) (with_iter it')) = Some it') as Hi by (unfold with_iter; by rewrite packed_of_set).
    rewrite avail_packed by by rewrite Hm. rewrite Hm. unfold lent, packed_unread. rewrite Hm, Hi.
    split; [done|]. destruct Hp as [E|E]; rewrite E in Hi |- *; by rewrite Hi. }
  pose proof (NextExpectedType_reads _ (never_grows_reads _ lender_le) (Iter.Flush it) [Types.Array]) as H1. cbn beta in H1.
  pose proof (Flush_le _ lender_le (it_r it)) as H0. cbn beta in H0.
  pose proof (Flush_le _ left_le (it_r it)) as H0'.
  change (it_r (Iter.Flush it)) with (RingBuf.Flush (it_r it)) in H1.
  destruct (NextExpectedType (Iter.Flush it) _) as [[x|] it1] eqn:E1; cbn [snd] in H1.
  - fold (with_iter it1). destruct (Hwith it1) as (Hm & Hav & _). destruct (is_EOF x); [|apply less_error; lia].
    apply MessageMode_Enter_ends; [|cbn; unfold unread; cbn; lia|lia].
    change (mode (with_iter it1) ≠ MessageMode). rewrite Hm. by destruct Hp as [-> | ->].
  - apply NextExpectedType_lt in E1. change (unread (Iter.Flush it)) with (left (RingBuf.Flush (it_r it))) in E1.
    assert (∀ m, never_grows m → ends (λ r : option error * Iterator I * Entry, (m (it_r r.1.2) ≤ m (it_r it1))%nat)
      (next_pair (mode s) (p_tag (packed_of (mode s) s)) Inner it1 e)) as Hn by (intros; by apply next_pair_ends).
    pose proof (Hn _ lender_le) as Hn1. pose proof (Hn _ left_le) as Hn2.
    destruct (next_pair _ _ _ _ _) as [[[err it2] e2]|]; [|done]. go_simpl. cbn in Hn1, Hn2.
    fold (with_iter it2). destruct (Hwith it2) as (Hm & Hav & Hun). split; cbn [fst snd]; [lia|]. intros _.
    unfold smaller. rewrite Hun, Hu. unfold unread in *. lia.
Qed.

End Step.

Lemma Next_ends fuel : ∀ s e, (need s ≤ fuel)%nat → ends (less s) (Transport.Next ack fuel s e).
Proof.
  induction fuel as [|fuel IH]; intros s e Hf; [unfold need in Hf; destruct (mode s); lia|]. cbn [Transport.Next].
  pose proof (Packed_Next_ends fuel (Transport.Next ack fuel) IH s e) as Hp.
  destruct (mode s) eqn:Em.
  - by apply MessageMode_Next_ends.
  - by apply ForwardMode_Next_ends.
  - apply Hp; [by left|done].
  - apply Hp; [by right|done].
Qed.

(** What the application may do to a session before it calls [Next] again: read. *)
Definition after_reads s' s : Prop :=
  (avail s' < avail s)%nat ∨ (avail s' = avail s ∧ (packed_unread s' ≤ packed_unread s)%nat).

(** A turn of a handler's loop: [Next] hands out an entry, which the handler reads. *)
Definition turn s s' : Prop :=
  ∃ fuel e e' s1, (need s ≤ fuel)%nat ∧ Transport.Next ack fuel s e = Ret (None, s1, e') ∧ after_reads s' s1.

Lemma turn_smaller s s' : turn s s' → smaller s' s.
Proof.
  intros (fuel & e & e' & s1 & Hf & E & Hr). pose proof (Next_ends fuel s e Hf) as H. rewrite E in H.
  destruct H as [_ H]. specialize (H eq_refl). cbn in H. unfold smaller, after_reads in *. lia.
Qed.

Lemma smaller_wf : well_founded smaller.
Proof.
  intros s. remember (avail s) as n eqn:En. revert s En.
  induction (lt_wf n) as [n _ IHn]. intros s En. remember (packed_unread s) as k eqn:Ek. revert s En Ek.
  induction (lt_wf k) as [k _ IHk]. intros s En Ek. constructor. intros s' [H|[H1 H2]].
  - apply (IHn (avail s')); [lia|done].
  - apply (IHk (packed_unread s')); [lia|congruence|done].
Qed.

(** [Peek] returns as many bytes as it is asked for, or an error *)
Context (Peek_length : ∀ (l : L) n (b : Slice) l', 0 ≤ n → Peek l n = (b, None, l') → slen b = n).

(** C13: On a connection with a bounded amount of data the transport phase terminates,
    whatever the data and the errors are: with as much fuel as there are bytes left plus
    three, [Next] returns in every session that a handler can reach, and no handler
    gets entries for ever, even if it reads nothing of them. *)
Theorem Next_terminates :
  (∀ s fuel e, handled ack s → (need s ≤ fuel)%nat →
    ∃ err s' e', Transport.Next ack fuel s e = Ret (err, s', e') ∧
      (avail s' ≤ avail s)%nat ∧ (handled ack s' ∨ (err ≠ None ∧ stranded s'))) ∧
  well_founded (λ s' s, turn s s').
Proof.
  split.
  - intros s fuel e Hs Hf. pose proof (handled_well_formed ack Peek_length s Hs) as Hwf.
    destruct (tame_ends _ _ _ (Next_tame ack Peek_length fuel s e Hwf) (Next_ends fuel s e Hf))
      as ([[err s'] e'] & E & Hp & [Hle _]).
    exists err, s', e'. split; [done|]. split; [done|]. destruct Hp as [Hw|Hst]; [left|by right].
    eapply handled_Next; [exact Hs|exact E|]. intros (Hpk & Hn & _). destruct (Hw Hpk) as [it Hit]. congruence.
  - eapply wf_incl; [|apply smaller_wf]. intros s' s. apply turn_smaller.
Qed.

End Phase.

(** ** Readers over lists *)

#[export] Program Instance list_ring_finite : Finite list_ring := { left r := length (pending r) }.
Next Obligation.
  split; intros [p f]; cbn; [by destruct p; cbn; lia| | |lia|lia].
  - intros n. case_match; cbn; [rewrite length_drop|]; lia.
  - intros n. rewrite length_drop. lia.
Qed.
Next Obligation. intros [[|b p] f] c r'; cbn; [done|]. intros [= <- <-]. cbn. lia. Qed.

#[export] Program Instance list_inner_finite : Finite list_inner := { left i := length (pending (inner_ring i)) }.
Next Obligation.
  split; intros [[p f] b]; cbn; [|intros n|intros n|done|intros v]; cbn; unfold on_inner; cbn; try lia.
  - destruct p; cbn; lia.
  - destruct (_ && _); cbn; [rewrite length_drop|]; lia.
  - rewrite length_drop. lia.
Qed.
Next Obligation.
  intros [[[|x p] f] b] c i'; cbn; unfold on_inner; cbn; [done|]. intros [= <- <-]. cbn. lia.
Qed.

#[export] Program Instance list_nested_finite : FiniteNested list_ring list_limit list_inner.
Next Obligation. intros r n. cbn. rewrite length_app, length_take, length_drop. lia. Qed.
Next Obligation. intros l v. cbn. rewrite !length_app. lia. Qed.
Next Obligation. intros l n. cbn. rewrite !length_app. lia. Qed.
Next Obligation.
  intros l. cbn. destruct (Gzip.gunzip_list _) as [[e|] bs]; cbn; rewrite !length_app; lia.
Qed.
Next Obligation. intros l. cbn. rewrite !length_app. lia. Qed.
Next Obligation. intros i l. cbn. rewrite !length_app. lia. Qed.
Next Obligation.
  split; intros [[p f] b]; cbn; [|intros n|intros n|done|intros v]; cbn; unfold on_inner; cbn; try lia.
  - destruct p; cbn; lia.
  - destruct (_ && _); cbn; lia.
Qed.

(** ** Witness: a connection that ends in the middle of a message *)

Lemma Next_terminates_witness :
  (∃ err s' e', Transport.Next ack0 12 (session0 (take 9 message0)) entry0 = Ret (err, s', e') ∧
      (avail s' ≤ 9)%nat ∧ (handled ack0 s' ∨ (err ≠ None ∧ stranded s'))) ∧
  well_founded (λ s' s : Session list_ring list_inner (list (list Z)), turn ack0 s s').
Proof.
  destruct (Next_terminates ack0 list_Peek_length) as [H1 H2]. split; [|exact H2].
  apply (H1 (session0 (take 9 message0)) 12%nat entry0); [apply handled_Init|by apply Nat.leb_le].
Defined.
