(* ===== verification/Rewind.v ===== *)
(** * Rewind: handing out an entry again (iter.go, forward/transport/, server_session.go)

    A handler that could not deal with an entry may call [Rewind] and then [Next] to get
    it again.  [Rewind] goes back to the last flush of a ring: while flushing is manual,
    what was read since then is still in the buffer.  MessageMode and the packed modes
    flush where an entry starts, so that there [Rewind] works, whatever part of the
    record has been read ([Rewind_again]).  ForwardMode counts the entries that are left,
    and [Rewind] does not count the entry back ([Rewind_forward_loses]). *)

From stdpp Require Import sets.
From S2P Require Import Prelude Types Errors Integer Headers Str Timestamp Object RingBuf Iter Transport.
From S2P Require Gzip.

(** ** Rings that can go back *)

Class RewindOps (X : Type) := { rewind : X → X }.

(** [marked r bs]: flushing is manual, and from the last flush on the ring has delivered
    and will deliver [bs].  Reads keep that; a flush starts anew. *)
Class RewindLaws (X : Type) `{!RingOps X, !RingLaws X, !RewindOps X} := {
  manual : X → Prop;
  marked : X → list Z → Prop;
  SetManualFlush_manual r : manual (RingBuf.SetManualFlush r true);
  Flush_marked r bs : manual r → delivers r bs → manual (RingBuf.Flush r) ∧ marked (RingBuf.Flush r) bs;
  marked_reads : reads_respect (λ r r', manual r → manual r' ∧ ∀ bs, marked r bs → marked r' bs);
  rewind_marked r bs : manual r → marked r bs → manual (rewind r) ∧ delivers (rewind r) bs
}.

(** [Iterator.Rewind] *)
Definition Iter_Rewind {X} `{!RewindOps X} (it : Iterator X) : Iterator X := with_reader it (rewind (it_r it)).

Section Phase.
  Context {R L I A : Type} `{!RingOps R, !RingOps I, !NestedOps R L I, !RewindOps R, !RewindOps I}.
  Variable ack : list Z → A → option error * A.
  Implicit Types s : Session R I A.

(** The [Rewind] of each mode; the packed modes share theirs. *)
Definition MessageMode_Rewind s : go (Session R I A) := Ret (set_orig s (Iter_Rewind (orig s))).

Definition ForwardMode_Rewind s : go (Session R I A) := Ret (set_orig s (Iter_Rewind (orig s))).

Definition Packed_Rewind (m : Mode) s : go (Session R I A) :=
  let p := packed_of m s in
  match p_iter p with
  | Some it => Ret (set_packed m s (mkPacked (Some (Iter_Rewind it)) (p_tag p) (p_hasOptions p)))
  | None => Panic NilPointer
  end.

Definition PackedForwardMode_Rewind s : go (Session R I A) := Packed_Rewind PackedForwardMode s.
Definition CompressedPackedForwardMode_Rewind s : go (Session R I A) := Packed_Rewind CompressedPackedForwardMode s.

(** [TransportPhase.Rewind], which [ServerSession.Rewind] calls. *)
Definition Rewind s : go (Session R I A) :=
  match mode s with
  | MessageMode => MessageMode_Rewind s
  | ForwardMode => ForwardMode_Rewind s
  | PackedForwardMode => PackedForwardMode_Rewind s
  | CompressedPackedForwardMode => CompressedPackedForwardMode_Rewind s
  end.

End Phase.

(** ** What Rewind brings back *)

Section Again.
  Context {R L I A : Type} `{!RingOps R, !RingOps I, !NestedOps R L I, !RingLaws R, !NestedLaws R L I}.
  Context `{!RewindOps R, !RewindOps I, !RewindLaws R} (HI : ∀ rest, @RewindLaws I _ (nested rest) _).
  Variable ack : list Z → A → option error * A.
  Implicit Types (s : Session R I A) (e : Entry).

(** The session is about to hand out the entry [ev], which is a message of its own or one
    of a packed message; then it will hand out [evs] and acknowledge [cs]. *)
Inductive at_entry : Session R I A → event → list event → list (list Z) → nat → Prop :=
  | at_message s tag x bs evs cs bs' z :
      mode s = MessageMode → valid_tag tag →
      encodes (OArray [OScalar (SStr tag); OScalar (STime x.1.1 x.1.2); record_obj x.2]) bs →
      stream gunzips evs cs bs' z → delivers (it_r (orig s)) (bs ++ bs') → manual (it_r (orig s)) →
      at_entry s (event_of tag x) evs cs (length (bs ++ bs') + z)
  | at_packed s it tag x xs bss opts obs evs cs bs z :
      is_packed (mode s) → packed_of (mode s) s = mkPacked (Some it) tag (has_options opts) →
      valid_options opts → opts_encode opts obs → Forall2 encodes (map pair_obj (x :: xs)) bss →
      stream gunzips evs cs bs z → @delivers I _ (nested (obs ++ bs)) (it_r it) (concat bss) →
      @manual I _ _ _ (HI (obs ++ bs)) (it_r it) →
      at_entry s (event_of tag x) (map (event_of tag) xs ++ evs) (chunks_of opts ++ cs)
        (length (concat bss) + length (obs ++ bs) + z).

Lemma at_entry_ready s ev evs cs n : at_entry s ev evs cs n → ready s (ev :: evs) cs n.
Proof.
  destruct 1 as [s tag x bs evs cs bs' z Hm Ht He Hst Hd _|s it tag x xs bss opts obs evs cs bs z Hm Hp Hv Ho H2 Hst Hd _].
  - apply ready_message; [done| |done]. rewrite <- (Nat.add_0_l z).
    apply (stream_cons gunzips [event_of tag x] [] bs 0 evs cs bs' z); [by apply wire_message|done].
  - by apply (ready_packed s it tag (x :: xs) bss opts obs).
Qed.

(** The handler has read from the iterator of the record, as much as it wanted. *)
Definition read_record (rec : record_iter) s s' : Prop :=
  match rec with
  | Orig => ∃ it, reads (it_r (orig s)) (it_r it) ∧ s' = set_orig s it
  | Inner => ∃ it it', p_iter (packed_of (mode s) s) = Some it ∧ reads (it_r it) (it_r it') ∧ s' = set_inner s it'
  end.

(** Back at the last flush after reads. *)
Lemma rewind_after {X} `{!RingOps X, !RingLaws X, !RewindOps X, !RewindLaws X} (r0 r : X) bs :
  manual r0 → delivers r0 bs → reads (RingBuf.Flush r0) r → manual (rewind r) ∧ delivers (rewind r) bs.
Proof.
  intros Hm Hd Hr. destruct (Flush_marked r0 bs Hm Hd) as [Hm1 Hb1].
  destruct (reads_least _ _ _ marked_reads Hr Hm1) as [Hm2 Hb2]. by apply rewind_marked; [|apply Hb2].
Qed.

(** Handing out the entry, and coming back to it: the statement for one of the two cases of
    [at_entry]. *)
Definition comes_back fuel s e ev evs cs n : Prop :=
  ∃ s1 rec, Next ack (S fuel) s e = Ret (None, s1, mkEntry (ev_tag ev) (ev_time ev) (Some rec)) ∧
    acks s1 = acks s ∧
    ∀ s2, read_record rec s1 s2 → ∃ s3, Rewind s2 = Ret s3 ∧ acks s3 = acks s ∧ at_entry s3 ev evs cs n.

Lemma message_comes_back fuel s e tag x bs evs cs bs' z :
  mode s = MessageMode → valid_tag tag →
  encodes (OArray [OScalar (SStr tag); OScalar (STime x.1.1 x.1.2); record_obj x.2]) bs →
  stream gunzips evs cs bs' z → delivers (it_r (orig s)) (bs ++ bs') → manual (it_r (orig s)) →
  comes_back fuel s e (event_of tag x) evs cs (length (bs ++ bs') + z).
Proof.
  intros Hm Ht He Hst Hd Hman.
  destruct (message_entry ack fuel s e tag x bs bs' Hm Ht He Hd) as (it1 & E & Hr1 & _).
  exists (set_orig s it1), Orig. split; [exact E|]. split; [done|]. intros s2 (it2 & Hr2 & ->). cbn [orig set_orig] in Hr2.
  pose proof (respect_preorder _ (reads_respects (X := R))) as HP.
  destruct (rewind_after (it_r (orig s)) (it_r it2) (bs ++ bs') Hman Hd) as [Hm3 Hd3]; [by etrans|].
  eexists. split; [unfold Rewind; change (mode (set_orig _ it2)) with (mode s); by rewrite Hm|].
  split; [done|]. by apply at_message.
Qed.

(** The iterator of a packed mode. *)
Lemma inner_at s p it' :
  packed_of (mode s) s = p →
  mode (set_inner s it') = mode s ∧ packed_of (mode s) (set_inner s it') = mkPacked (Some it') (p_tag p) (p_hasOptions p).
Proof. intros <-. unfold set_inner. by rewrite mode_set_packed, packed_of_set_packed. Qed.

Lemma Packed_Rewind_at s it tag o :
  is_packed (mode s) → packed_of (mode s) s = mkPacked (Some it) tag o →
  Rewind s = Ret (set_packed (mode s) s (mkPacked (Some (Iter_Rewind it)) tag o)).
Proof.
  intros Hm Hp. assert (Rewind s = Packed_Rewind (mode s) s) as -> by (unfold Rewind; by destruct Hm as [-> | ->]).
  unfold Packed_Rewind. by rewrite Hp.
Qed.

Lemma packed_comes_back fuel s e it tag x xs bss opts obs evs cs bs z :
  is_packed (mode s) → packed_of (mode s) s = mkPacked (Some it) tag (has_options opts) →
  valid_options opts → opts_encode opts obs → Forall2 encodes (map pair_obj (x :: xs)) bss →
  stream gunzips evs cs bs z → @delivers I _ (nested (obs ++ bs)) (it_r it) (concat bss) →
  @manual I _ _ _ (HI (obs ++ bs)) (it_r it) →
  comes_back fuel s e (event_of tag x) (map (event_of tag) xs ++ evs) (chunks_of opts ++ cs)
    (length (concat bss) + length (obs ++ bs) + z).
Proof.
  intros Hm Hp Hv Ho H2 Hst Hd Hman. pose proof H2 as Hall.
  apply Forall2_cons_inv_l in H2 as (b & bss' & Hb & H2 & ->). cbn [concat] in Hd.
  set (law := nested (obs ++ bs)) in *.
  assert (@delivers I _ law (it_r (Iter.Flush it)) (b ++ concat bss')) as Hd0 by by apply Flush_delivers.
  destruct (@entry_ok A ack I _ law (mode s) tag Inner _ e x b _ Hd0 Hb) as (it1 & it2 & E1 & E2 & Hr1 & _).
  exists (set_inner s it2), Inner. split; [|split; [done|]].
  - assert (Next ack (S fuel) s e = Packed_Next ack fuel (Next ack fuel) (mode s) s e) as ->
      by (cbn [Next]; by destruct Hm as [-> | ->]).
    unfold Packed_Next. rewrite Hp. cbn [p_iter p_tag p_hasOptions]. rewrite E1, E2. go_simpl.
    unfold set_inner. by rewrite Hp.
  - intros s2 (it3 & it4 & Ei & Hr2 & ->). destruct (inner_at s _ it2 Hp) as [Hm2 Hp2].
    rewrite Hm2, Hp2 in Ei. injection Ei as <-.
    destruct (inner_at (set_inner s it2) _ it4 ltac:(rewrite Hm2; exact Hp2)) as [Hm4 Hp4]. rewrite Hm2 in Hm4, Hp4.
    cbn [p_tag p_hasOptions] in Hp4. set (s2 := set_inner (set_inner s it2) it4) in *.
    pose proof (respect_preorder _ (reads_respects (X := I))) as HP.
    destruct (@rewind_after I _ law _ (HI (obs ++ bs)) (it_r it) (it_r it4) (b ++ concat bss') Hman Hd) as [Hm3 Hd3];
      [by etrans|].
    eexists. split; [apply (Packed_Rewind_at s2 it4 tag (has_options opts)); by rewrite Hm4|]. split; [done|].
    rewrite Hm4. set (s3 := set_packed _ _ _). assert (mode s3 = mode s) as Hm5 by (unfold s3; by rewrite mode_set_packed).
    apply (at_packed s3 (Iter_Rewind it4) tag x xs (b :: bss') opts obs); rewrite ?Hm5; try done.
    unfold s3. by rewrite packed_of_set_packed.
Qed.

(** C23: [Rewind] takes a session in MessageMode or in a packed mode back to before the
    entry that [Next] has handed out, if flushing is manual: whatever part of the record the
    handler has read, [Rewind] does not fail, and the session is again one at which
    [Next] will hand out the same entry and all that follow, as often as one likes.
    (For ForwardMode see [Rewind_forward_loses].) *)
Theorem Rewind_again fuel s e ev evs cs n :
  at_entry s ev evs cs n →
  ∃ s1 rec, Next ack (S fuel) s e = Ret (None, s1, mkEntry (ev_tag ev) (ev_time ev) (Some rec)) ∧
    acks s1 = acks s ∧
    ∀ s2, read_record rec s1 s2 →
      ∃ s3, Rewind s2 = Ret s3 ∧ acks s3 = acks s ∧ at_entry s3 ev evs cs n ∧ ready s3 (ev :: evs) cs n.
Proof.
  intros H. assert (comes_back fuel s e ev evs cs n) as (s1 & rec & E & Ha & Hback).
  { destruct H as [s tag x bs evs cs bs' z|s it tag x xs bss opts obs evs cs bs z];
      [by apply message_comes_back|by eapply packed_comes_back]. }
  exists s1, rec. split; [exact E|split; [exact Ha|]]. intros s2 Hr. destruct (Hback s2 Hr) as (s3 & E3 & Ha3 & H3).
  exists s3. by split_and!; [| | |apply at_entry_ready].
Qed.

(** C36: In ForwardMode [Rewind] does not bring an entry back: the reader goes back, but the
    entry stays counted.  After the last entry of an array [Next] takes the array for
    finished and finds an entry where the options or the next message should be: it
    fails. *)
Theorem Rewind_forward_loses fuel s e tag x b opts rest :
  mode s = ForwardMode → forwardMode (phase s) = mkForward tag 1 (has_options opts) →
  encodes (pair_obj x) b → delivers (it_r (orig s)) (b ++ rest) → manual (it_r (orig s)) →
  ∃ s1, Next ack (S fuel) s e = Ret (None, s1, mkEntry tag (ts_stored_as x.1.2 x.1.1) (Some Orig)) ∧
    ∀ s2, read_record Orig s1 s2 →
      ∃ s3, Rewind s2 = Ret s3 ∧
        ∀ fuel' e', ∃ err s4 e4, Next ack (S (S fuel')) s3 e' = Ret (Some err, s4, e4) ∧ is_EOF err = false.
Proof.
  intros Hm Hf Hb Hd Hman.
  assert (delivers (it_r (Iter.Flush (orig s))) (b ++ rest)) as Hd0 by by apply Flush_delivers.
  destruct (entry_ok ack ForwardMode tag Orig _ e x b _ Hd0 Hb) as (it1 & it2 & E1 & E2 & Hr1 & _).
  set (s1 := set_forward (set_orig s it2) (mkForward tag 0 (has_options opts))).
  exists s1. split.
  { cbn [Next]. rewrite Hm. unfold ForwardMode_Next. rewrite Hf. cbn [f_items f_tag f_hasOptions].
    change (1 <=? 0) with false. cbv iota. change (mode (set_orig s _)) with (mode s). rewrite Hm.
    change (orig (set_orig s ?i)) with i. by rewrite E1, E2. }
  intros s2 (it3 & Hr2 & ->). cbn [orig s1 set_forward set_orig] in Hr2.
  pose proof (respect_preorder _ (reads_respects (X := R))) as HP.
  destruct (rewind_after (it_r (orig s)) (it_r it3) (b ++ rest) Hman Hd) as [_ Hd3]; [by etrans|].
  set (s3 := set_orig s1 (Iter_Rewind it3)). exists s3. split.
  { unfold Rewind. change (mode (set_orig s1 it3)) with (mode s). by rewrite Hm. }
  intros fuel' e'. cbn [Next]. change (mode s3) with (mode s). rewrite Hm.
  unfold ForwardMode_Next. change (forwardMode (phase s3)) with (mkForward tag 0 (has_options opts)).
  cbn [f_items]. change (0 <=? 0) with true. cbv iota. unfold MessageMode_Enter, changeMode.
  set (s4 := set_orig _ _). assert (mode s4 = ForwardMode) as Hm4 by exact Hm. rewrite Hm4, bool_decide_false by done.
  assert (delivers (it_r (orig s4)) (b ++ rest)) as Hd4 by by apply SetManualFlush_delivers, Flush_delivers.
  unfold Leave, ForwardMode_Leave. rewrite Hm4. change (f_hasOptions (forwardMode (phase s4))) with (has_options opts).
  destruct (Array_token (orig s4) _ b rest Hd4 Hb) as (it5 & bss & EN & Et & Ei & H2 & Hd5 & _).
  destruct opts as [kvs|]; cbn [has_options].
  - destruct (NextExpectedType_other (orig s4) it5 [Types.Map] EN) as (err & E & Herr).
    { rewrite Et. by rewrite list_elem_of_singleton. }
    unfold handleOptions. rewrite E. go_simpl. do 3 eexists. split; [reflexivity|]. cbn. by rewrite Herr.
  - go_simpl. change (mode (set_mode s4 MessageMode)) with MessageMode. cbv iota. unfold MessageMode_Next.
    change (orig (set_mode s4 MessageMode)) with (orig s4).
    assert (delivers (it_r (Iter.Flush (orig s4))) (b ++ rest)) as Hd6 by by apply Flush_delivers.
    destruct (Array_token (Iter.Flush (orig s4)) _ b rest Hd6 Hb) as (it6 & bss' & EN6 & Et6 & Ei6 & H6 & Hd7 & _).
    rewrite (NextExpectedType_ok _ it6 [Types.Array] EN6) by (rewrite Et6; set_solver).
    rewrite Ei6. change (lenZ _) with 2. change ((2 <? 2) || (4 <? 2)) with false. cbv iota.
    apply Forall2_cons_inv_l in H6 as (tb & bss1 & Htb & _ & ->). cbn [concat] in Hd7. rewrite <- app_assoc in Hd7.
    destruct (Timestamp_scalar it6 x.1.1 x.1.2 tb _ Hd7 Htb) as (it7 & _ & EN7 & Et7 & _).
    destruct (NextExpectedType_other it6 it7 [Types.Str] EN7) as (err & E & Herr).
    { rewrite Et7. destruct (time_cases x.1.1 x.1.2) as [->|[->| ->]]; by rewrite list_elem_of_singleton. }
    rewrite E. do 3 eexists. split; [reflexivity|]. cbn. by rewrite Herr.
Qed.

End Again.

(** ** A ring that remembers its last flush *)

Record snap (X : Type) := mkSnap { cur : X; mark : X; is_manual : bool }.
Arguments mkSnap {X} _ _ _.
Arguments cur {X} _.
Arguments mark {X} _.
Arguments is_manual {X} _.

(** After a read: without manual flushing everything that was read is flushed. *)
Definition moved {X} (s : snap X) (r : X) : snap X :=
  mkSnap r (if is_manual s then mark s else r) (is_manual s).

#[export] Instance snap_ops {X} `{!RingOps X} : RingOps (snap X) := {
  ReadByte s := let '(c, err, r) := ReadByte (cur s) in (c, err, moved s r);
  ReadBytes s n := let '(b, err, r) := ReadBytes (cur s) n in (b, err, moved s r);
  Discard s n := moved s (Discard (cur s) n);
  Flush s := mkSnap (RingBuf.Flush (cur s)) (RingBuf.Flush (cur s)) (is_manual s);
  SetManualFlush s v :=
    let r := RingBuf.SetManualFlush (cur s) v in
    mkSnap r (if is_manual s then mark s else r) v
}.

#[export] Instance snap_rewind {X} : RewindOps (snap X) := {
  rewind s := mkSnap (mark s) (mark s) (is_manual s)
}.

#[export] Program Instance snap_laws {X} `{!RingOps X, !RingLaws X} : RingLaws (snap X) := {
  delivers s bs := delivers (cur s) bs
}.
Next Obligation.
  intros X H1 H2 s b bs Hd. cbn. destruct (ReadByte_cons _ _ _ Hd) as (r' & -> & Hd'). by eexists.
Qed.
Next Obligation.
  intros X H1 H2 s Hd. cbn. destruct (ReadByte_nil _ Hd) as (b & r' & -> & Hd'). by do 2 eexists.
Qed.
Next Obligation.
  intros X H1 H2 s p bs Hd. cbn. destruct (ReadBytes_app _ _ _ Hd) as (sp & r' & -> & Hd'). by do 2 eexists.
Qed.
Next Obligation.
  intros X H1 H2 s bs n Hd Hn. cbn. destruct (ReadBytes_short _ _ _ Hd Hn) as (b & e & r' & bs' & -> & Hd' & Hs).
  by do 4 eexists.
Qed.
Next Obligation. intros X H1 H2 s bs n Hd Hn. cbn. by apply Discard_delivers. Qed.
Next Obligation. intros X H1 H2 s bs Hd. cbn. by apply Flush_delivers. Qed.
Next Obligation. intros X H1 H2 s bs v Hd. cbn. by apply SetManualFlush_delivers. Qed.

#[export] Program Instance snap_rewind_laws {X} `{!RingOps X, !RingLaws X} : RewindLaws (snap X) := {
  manual s := is_manual s = true;
  marked s bs := delivers (mark s) bs
}.
Next Obligation. done. Qed.
Next Obligation. intros X H1 H2 s bs Hm Hd. split; [done|]. cbn. by apply Flush_delivers. Qed.
Next Obligation.
  intros X H1 H2. split; [split; [by intros s|]| | |].
  - intros s1 s2 s3 H12 H23 Hm. destruct (H12 Hm) as [Hm2 Hb2]. destruct (H23 Hm2) as [Hm3 Hb3]. auto.
  - intros s Hm. cbn. destruct (ReadByte _) as [[? ?] ?]. cbn. by rewrite Hm.
  - intros s n Hm. cbn. destruct (ReadBytes _ _) as [[? ?] ?]. cbn. by rewrite Hm.
  - intros s n Hm. cbn. by rewrite Hm.
Qed.
Next Obligation. intros X H1 H2 s bs Hm Hb. by split. Qed.

(** Nested readers over remembering rings: a limited reader is one of the ring that is
    remembered, with its flag.  The connection's ring is lent without its mark, which is
    of no use before the ring has been flushed again.  A ring that is reset keeps its
    flag. *)
Section SnapNested.
  Context {R L I : Type} `{!RingOps R, !RingOps I, !NestedOps R L I, !RingLaws R, !NestedLaws R L I}.

Definition unmarked {X} (r : X) (v : bool) : snap X := mkSnap r r v.

#[export] Instance snap_nested_ops : NestedOps (snap R) (L * bool) (snap I) := {
  LimitReader s n := (LimitReader (R := R) (I := I) (cur s) n, is_manual s);
  limit_ring l := unmarked (limit_ring (R := R) (I := I) l.1) l.2;
  limit_SetManualFlush l v := (limit_SetManualFlush (R := R) (I := I) l.1 v, v);
  Peek l n := let '(b, err, l') := Peek (R := R) (I := I) l.1 n in (b, err, (l', l.2));
  gzip_Get l := let '(err, l') := gzip_Get (R := R) (I := I) l.1 in (err, (l', l.2));
  new_ring l := unmarked (new_ring (R := R) (I := I) l.1) false;
  reset_ring i l := unmarked (reset_ring (R := R) (cur i) l.1) (is_manual i);
  unset_ring i := unmarked (unset_ring (R := R) (L := L) (cur i)) (is_manual i);
  lender s := unmarked (lender (R := R) (L := L) (I := I) (cur s)) false
}.

#[export] Program Instance snap_nested_laws : NestedLaws (snap R) (L * bool) (snap I) := {
  limited l := limited (R := R) (I := I) l.1;
  gunzips := gunzips (R := R) (L := L) (I := I);
  nested rest := @snap_laws I _ (nested (R := R) (L := L) rest)
}.
Next Obligation. intros s p rest n Hd Hn. exact (LimitReader_limited (R := R) (I := I) (cur s) p rest n Hd Hn). Qed.
Next Obligation. intros [l v] v' p rest. exact (limit_SetManualFlush_limited (R := R) (I := I) l v' p rest). Qed.
Next Obligation.
  intros [l v] p rest n Hl Hn. cbn.
  destruct (Peek_limited (R := R) (I := I) l p rest n Hl Hn) as (sp & l' & -> & Hl'). by do 2 eexists.
Qed.
Next Obligation.
  intros [l v] p rest bs Hl Hg. cbn. destruct (gzip_Get_limited (R := R) l p rest bs Hl Hg) as (l' & -> & Hl'). by eexists.
Qed.
Next Obligation. intros [l v] p rest Hl. by apply (new_ring_delivers (R := R) l). Qed.
Next Obligation. intros i [l v] p rest Hl. by apply (reset_ring_delivers (R := R) (cur i) l). Qed.
Next Obligation. intros s rest Hd. by apply (lender_delivers (R := R) (L := L) (I := I)). Qed.

End SnapNested.

(** ** Witnesses *)

Definition iter_at (bs : list Z) : Iterator (snap list_ring) :=
  NewIterator (unmarked (mkListRing bs false) false).

Definition session1 (bs : list Z) : Session (snap list_ring) (snap list_inner) (list (list Z)) := Init (iter_at bs) [].

Definition rewinds (rest : list Z) :
    @RewindLaws (snap list_inner) _ (nested (R := snap list_ring) (L := list_limit * bool) rest) _ :=
  @snap_rewind_laws list_inner _ (list_inner_laws rest).

Lemma Rewind_again_witness : ∃ s1 rec,
  Next ack0 1 (session1 message0) (mkEntry [] zeroTime None) = Ret (None, s1, mkEntry tag0 (mkTime 5 7) (Some rec)) ∧
  acks s1 = [] ∧
  ∀ s2, read_record rec s1 s2 →
    ∃ s3, Rewind s2 = Ret s3 ∧ acks s3 = [] ∧ at_entry rewinds s3 event0 [] [] (length (message0 ++ []) + 0) ∧
      ready s3 [event0] [] (length (message0 ++ []) + 0).
Proof.
  apply (Rewind_again rewinds ack0 0 (session1 message0) _ event0 [] []).
  apply (at_message rewinds (session1 message0) tag0 x0 message0 [] [] [] 0);
    [done|apply tag0_valid|solve_plain|apply stream_nil|by rewrite app_nil_r|done].
Defined.

(** A session that is at the last entry of an array. *)
Definition session2 : Session (snap list_ring) (snap list_inner) (list (list Z)) :=
  set_mode (set_forward (session1 (encode (pair_obj x0))) (mkForward tag0 1 false)) ForwardMode.

Lemma Rewind_forward_loses_witness : ∃ s1,
  Next ack0 1 session2 (mkEntry [] zeroTime None) = Ret (None, s1, mkEntry tag0 (mkTime 5 7) (Some Orig)) ∧
  ∀ s2, read_record Orig s1 s2 →
    ∃ s3, Rewind s2 = Ret s3 ∧
      ∀ fuel' e', ∃ err s4 e4, Next ack0 (S (S fuel')) s3 e' = Ret (Some err, s4, e4) ∧ is_EOF err = false.
Proof.
  exact (Rewind_forward_loses ack0 0 session2 (mkEntry [] zeroTime None) tag0 x0 (encode (pair_obj x0)) None []
    eq_refl eq_refl pair0_encodes (eq_sym (app_nil_r _)) eq_refl).
Defined.
