(* ===== verification/Lifetime.v ===== *)
(** * Lifetime: the bytes of an entry stay in the buffer (forward/transport/, iter.go)

    A tag, a key or a string of a record points into the buffer of the ring it was read
    from.  The buffer keeps what was read since the last flush only while flushing is
    manual.  The modes switch manual flushing on and off: off while the ring of the
    connection is lent to the iterator of a packed message, on when it comes back, and
    on in an iterator that is new.  [IterPool] does nothing about it, and [Reset] of the
    ring is taken to leave it: an iterator of the pool flushes as it did when it was put
    back.  [kept] is the invariant, and [Next_holds] shows it in every session that a
    handler can reach, errors and rewinds included, as long as the session's iterator and
    those of the pool flush manually, but for one error of gzip.  [pooled_automatic] of
    Sessions shows that the pool may have others: a session that is closed in a packed mode
    puts its iterator back with manual flushing off.  The tag of an entry is read since the
    flush too in MessageMode, and a copy in the other modes. *)

From S2P Require Import Prelude Types Errors Integer Headers Str Timestamp Object RingBuf Iter Transport Safety Rewind.
From S2P Require Gzip.

(** ** Rings *)

(** [held r]: flushing is manual.  Only [SetManualFlush] changes that. *)
Class Flushing (X : Type) `{!RingOps X, !RewindOps X} := {
  held : X → Prop;
  SetManualFlush_held r : held (RingBuf.SetManualFlush r true);
  Flush_held r : held r → held (RingBuf.Flush r);
  rewind_held r : held r → held (rewind r);
  held_reads : reads_respect (λ r r', held r → held r')
}.

(** A limited reader reads from the ring it is given; [Reset] of a ring leaves its way of
    flushing. *)
Class FlushingNested (R L I : Type) `{!RingOps R, !RewindOps R, !RingOps I, !RewindOps I, !NestedOps R L I,
    !Flushing R, !Flushing I} := {
  LimitReader_held (r : R) n : held r → held (limit_ring (R := R) (I := I) (LimitReader (L := L) (I := I) r n));
  Peek_held (l : L) n : held (limit_ring (R := R) (I := I) l) → held (limit_ring (R := R) (I := I) (Peek (R := R) (I := I) l n).2);
  reset_ring_held (i : I) (l : L) : held i → held (reset_ring (R := R) i l);
  unset_ring_held (i : I) : held i → held (unset_ring (R := R) (L := L) i)
}.

(** [yields P m]: [P] of what is returned, if anything is. *)
Definition yields {A} (P : A → Prop) (m : go A) : Prop :=
  match m with Ret a => P a | Panic _ => True end.

Lemma yields_bind {A B} (P : A → Prop) (Q : B → Prop) (m : go A) (f : A → go B) :
  yields P m → (∀ a, P a → yields Q (f a)) → yields Q (m ≫= f).
Proof. destruct m as [a|p]; [|done]. intros Ha Hf. by apply Hf. Qed.

Lemma yields_mono {A} (P Q : A → Prop) (m : go A) : yields P m → (∀ a, P a → Q a) → yields Q m.
Proof. destruct m; [|done]. intros Ha H. by apply H. Qed.

Section Readers.
  Context {X : Type} `{!RingOps X, !RewindOps X, !Flushing X}.
  Implicit Types (r : X) (it : Iterator X).

(** Since a flush of it, nothing but reads has happened to the ring, which held what it
    read all the time. *)
Definition since_flush r : Prop := ∃ r0, held r0 ∧ reads (RingBuf.Flush r0) r.

Lemma reads_held r r' : reads r r' → held r → held r'.
Proof. intros H. exact (reads_least _ r r' held_reads H). Qed.

Lemma reads_trans r1 r2 r3 : reads r1 r2 → reads r2 r3 → reads r1 r3.
Proof. apply (respect_preorder _ reads_respects). Qed.

Lemma since_flush_reads r r' : since_flush r → reads r r' → since_flush r'.
Proof. intros (r0 & H & Hr) Hr'. exists r0. split; [done|by eapply reads_trans]. Qed.

Lemma since_flush_held r : since_flush r → held r.
Proof. intros (r0 & H & Hr). by eapply reads_held, Flush_held. Qed.

Lemma flushed it : held (it_r it) → since_flush (it_r (Iter.Flush it)).
Proof. intros H. exists (it_r it). split; [done|apply reads_none]. Qed.

(** What the iterator does on the way to a record. *)
Lemma NextExpectedType_since it ts : since_flush (it_r it) → since_flush (it_r (NextExpectedType it ts).2).
Proof. intros H. eapply since_flush_reads; [exact H|]. apply (NextExpectedType_reads _ reads_respects). Qed.

Lemma Next_since it : since_flush (it_r it) → since_flush (it_r (Iter.Next it).2).
Proof. intros H. eapply since_flush_reads; [exact H|]. apply (Next_reads _ reads_respects). Qed.

Lemma Str_since it : since_flush (it_r it) → since_flush (it_r (Iter.Str it).2).
Proof. intros H. eapply since_flush_reads; [exact H|]. apply (Str_reads _ reads_respects). Qed.

Lemma Timestamp_since it :
  since_flush (it_r it) → yields (λ p, since_flush (it_r p.2)) (Iter.Timestamp it).
Proof.
  intros H. destruct (Iter.Timestamp it) as [[t it']|] eqn:E; [|done]. eapply since_flush_reads; [exact H|].
  by apply (Timestamp_reads _ reads_respects _ t).
Qed.

Lemma skip_items_reads skip k : (∀ it, yields (λ it', reads (it_r it) (it_r it')) (skip it)) →
  ∀ items it, yields (λ it', reads (it_r it) (it_r it')) (skip_items skip k items it).
Proof.
  intros Hs. induction k as [|k IH]; intros items it; cbn [skip_items]; destruct (items <=? 0);
    try done; try apply reads_none.
  pose proof (Next_reads _ reads_respects it) as Hn. destruct (Iter.Next it) as [[|] it']; [|done]. cbn [negb snd] in *.
  eapply yields_bind; [apply Hs|]. cbn beta. intros it2 H2.
  eapply yields_mono; [apply IH|]. cbn beta. intros it3 H3. by eapply reads_trans, reads_trans.
Qed.

Lemma Skip_reads fuel : ∀ it, yields (λ it', reads (it_r it) (it_r it')) (Skip fuel it).
Proof.
  induction fuel as [|fuel IH]; intros it; [done|]. cbn [Skip].
  destruct (it_typ it); try by apply skip_items_reads.
  all: eapply yields_mono; [by apply skip_items_reads|]; cbn [it_r with_reader]; intros it2 H2;
    eapply reads_trans; [|exact H2]; apply (respect_Discard _ reads_respects).
Qed.

Lemma next_pair_since m tag rec it e :
  since_flush (it_r it) →
  yields (λ p, since_flush (it_r p.1.2) ∧ (p.1.1 = None → e_Record p.2 = Some rec)) (next_pair m tag rec it e).
Proof.
  intros H. unfold next_pair. destruct (negb _); [by split|].
  apply (NextExpectedType_since _ [Ext; Types.Int; Types.Uint]) in H.
  destruct (NextExpectedType it _) as [[x|] it1]; [by split|].
  eapply yields_bind; [by apply Timestamp_since|]. intros [t it2] H2. cbn [snd] in H2.
  apply (NextExpectedType_since _ [Types.Map]) in H2. destruct (NextExpectedType it2 _) as [[x|] it3]; by split.
Qed.

End Readers.

(** ** The transport phase *)

Section Phase.
  Context {R L I A : Type} `{!RingOps R, !RingOps I, !NestedOps R L I, !RewindOps R, !RewindOps I}.
  Context `{!Flushing R, !Flushing I, !FlushingNested R L I}.
  Variable ack : list Z → A → option error * A.
  Implicit Types (s : Session R I A) (e : Entry).

(** The iterators of the pool flush manually. *)
Definition manual_pool (p : IterPool (I := I)) : Prop := Forall (λ it, held (it_r it)) (iters p).

(** The ring that the entries are read from holds what is read, and so will those that
    come from the pool. *)
Definition kept s : Prop :=
  (¬ is_packed (mode s) → held (it_r (orig s))) ∧
  (is_packed (mode s) → ∀ it, p_iter (packed_of (mode s) s) = Some it → held (it_r it)) ∧
  manual_pool (t_iterPool (phase s)).

(** The record of an entry is read from the iterator that the mode reads from, whose ring
    has held every byte of the entry since it was flushed. *)
Definition holds (rec : record_iter) s : Prop :=
  match rec with
  | Orig => ¬ is_packed (mode s) ∧ since_flush (it_r (orig s))
  | Inner => is_packed (mode s) ∧ ∃ it, p_iter (packed_of (mode s) s) = Some it ∧ since_flush (it_r it)
  end.

(** What breaks it: the gzip header of a message could not be read.  The connection's ring
    comes back as it was lent, and the mode stays. *)
Definition ungzipped (err : option error) s : Prop :=
  mode s = MessageMode ∧ manual_pool (t_iterPool (phase s)) ∧
  ∃ (l l' : L) x, gzip_Get (limit_SetManualFlush l false) = (Some x, l') ∧
    err = Some x ∧ it_r (orig s) = limit_ring l'.

Definition hold_post (r : option error * Session R I A * Entry) : Prop :=
  let '(err, s, e) := r in
  (kept s ∧ (err = None → ∃ rec, e_Record e = Some rec ∧ holds rec s)) ∨ ungzipped err s.

Lemma kept_unpacked s :
  manual_pool (t_iterPool (phase s)) → ¬ is_packed (mode s) → held (it_r (orig s)) → kept s.
Proof. by split. Qed.

Lemma kept_packed s :
  manual_pool (t_iterPool (phase s)) → is_packed (mode s) →
  (∀ it, p_iter (packed_of (mode s) s) = Some it → held (it_r it)) → kept s.
Proof. by split. Qed.

Lemma kept_pool s : kept s → manual_pool (t_iterPool (phase s)).
Proof. by intros (_ & _ & H). Qed.

Lemma pool_set_packed m s p : t_iterPool (phase (set_packed m s p)) = t_iterPool (phase s).
Proof. unfold set_packed. by case_bool_decide. Qed.

(** What the pool gives out and takes back. *)
Lemma iterPool_Get_held (l : L) p it p' :
  manual_pool p → iterPool_Get l p = (it, p') → held (it_r it) ∧ manual_pool p'.
Proof.
  intros Hp. unfold iterPool_Get. destruct (iters p !! _) as [it0|] eqn:E; intros [= <- <-].
  - split; [|by apply Forall_delete]. apply reset_ring_held. exact (Forall_lookup_1 _ _ _ _ Hp E).
  - split; [apply SetManualFlush_held|exact Hp].
Qed.

Lemma iterPool_Put_held it p : manual_pool p → held (it_r it) → manual_pool (iterPool_Put it p).
Proof. intros Hp Hi. constructor; [by apply (unset_ring_held (R := R) (L := L))|exact Hp]. Qed.

Lemma hold_error x s e : kept s → yields hold_post (Ret (Some x, s, e)).
Proof. intros H. left. by split. Qed.

(** An entry whose record is on the connection's iterator. *)
Lemma hold_entry (err : option error) s e :
  manual_pool (t_iterPool (phase s)) → ¬ is_packed (mode s) → since_flush (it_r (orig s)) → e_Record e = Some Orig → yields hold_post (Ret (err, s, e)).
Proof.
  intros Hpl Hn Hs He. left. split; [by apply kept_unpacked, since_flush_held|]. intros _. by exists Orig.
Qed.

Lemma options_loop_reads fuel k m : ∀ (it : Iterator R) (a : A),
  yields (λ p, reads (it_r it) (it_r p.1.2)) (options_loop ack fuel k m it a).
Proof.
  induction k as [|k IH]; intros it a; [apply reads_none|]. cbn [options_loop].
  pose proof (NextExpectedType_reads _ reads_respects it [Types.Str]) as H1.
  destruct (NextExpectedType it _) as [[x|] it1]; [done|].
  pose proof (Str_reads _ reads_respects it1) as H2. destruct (Iter.Str it1) as [key it2].
  pose proof (Next_reads _ reads_respects it2) as H3. cbn [snd] in *.
  assert (∀ it3, reads (it_r it2) (it_r it3) → reads (it_r it) (it_r it3)) as Hall
    by (intros; eapply reads_trans; [exact H1|by eapply reads_trans]).
  destruct (Iter.Next it2) as [[|] it3]; [|by apply Hall]. cbn [negb snd] in *. case_bool_decide.
  - eapply yields_bind; [apply Skip_reads|]. cbn beta. intros it4 H4.
    eapply yields_mono; [apply IH|]. cbn beta. intros p Hp. apply Hall. by eapply reads_trans, reads_trans.
  - pose proof (Str_reads _ reads_respects it3) as H4. destruct (Iter.Str it3) as [chunk it4]. cbn [snd] in H4.
    assert (reads (it_r it) (it_r it4)) as H5 by (apply Hall; by eapply reads_trans).
    destruct (ack chunk a) as [[x|] a']; [done|].
    eapply yields_mono; [apply IH|]. cbn beta. intros p Hp. by eapply reads_trans.
Qed.

(** The options are read from the connection, and touch nothing else. *)
Lemma handleOptions_reads fuel s :
  yields (λ p, phase p.2 = phase s ∧ reads (it_r (orig s)) (it_r (orig p.2))) (handleOptions ack fuel s).
Proof.
  unfold handleOptions. pose proof (NextExpectedType_reads _ reads_respects (orig s) [Types.Map]) as H1.
  destruct (NextExpectedType (orig s) _) as [[x|] it]; [done|].
  eapply yields_bind; [apply options_loop_reads|]. intros [[err it2] a] H2. cbn [fst snd] in *. split; [done|].
  by eapply reads_trans.
Qed.

Lemma Leave_holds fuel s :
  held (it_r (orig s)) → manual_pool (t_iterPool (phase s)) →
  (is_packed (mode s) → ∀ it, p_iter (packed_of (mode s) s) = Some it → held (it_r it)) →
  yields (λ p, mode p.2 = mode s ∧ held (it_r (orig p.2)) ∧ kept p.2) (Leave ack fuel s).
Proof.
  intros Hh Hpl Hin.
  assert (∀ m, is_packed m → m = mode s →
    yields (λ p, mode p.2 = mode s ∧ held (it_r (orig p.2)) ∧ kept p.2)
      (let p := packed_of m s in
       match p_iter p with
       | None => Panic NilPointer
       | Some it =>
         let s := set_pool s (iterPool_Put it (t_iterPool (phase s))) in
         let s := set_packed m s (mkPacked None (p_tag p) (p_hasOptions p)) in
         if p_hasOptions p then handleOptions ack fuel s else Ret (None, s)
       end)) as Hpacked.
  { intros m Hm ->. cbv zeta. destruct (p_iter (packed_of (mode s) s)) as [it|] eqn:Eit; [|done].
    set (s0 := set_pool _ _). set (s1 := set_packed _ _ _).
    assert (mode s1 = mode s) as Hm1 by exact (set_packed_mode _ s0 _).
    assert (orig s1 = orig s) as Ho1 by (unfold s1, set_packed; by case_bool_decide).
    assert (manual_pool (t_iterPool (phase s1))) as Hp1.
    { unfold s1. rewrite pool_set_packed. apply iterPool_Put_held; [done|]. by apply Hin. }
    assert (∀ s2, phase s2 = phase s1 → kept s2) as Hk.
    { intros s2 E. assert (mode s2 = mode s) as Hm2 by (rewrite <- Hm1; unfold mode; by rewrite E).
      apply kept_packed; [by rewrite E|by rewrite Hm2|]. rewrite Hm2.
      assert (packed_of (mode s) s2 = packed_of (mode s) s1) as -> by (unfold packed_of; by rewrite E).
      unfold s1. by rewrite packed_of_set. }
    destruct (p_hasOptions (packed_of _ s)); [|by split; [|split; [cbn [snd]; rewrite Ho1|apply Hk]]].
    eapply yields_mono; [apply handleOptions_reads|]. intros [err s2] [E H2]. cbn [fst snd] in *. rewrite Ho1 in H2.
    split; [rewrite <- Hm1; unfold mode; by rewrite E|]. split; [by eapply reads_held|by apply Hk]. }
  unfold Leave. destruct (mode s) eqn:Em.
  - split; [done|]. split; [done|]. apply kept_unpacked; [done|cbn [snd]; rewrite Em; by intros [?|?]|done].
  - assert (∀ s2, phase s2 = phase s → held (it_r (orig s2)) → mode s2 = ForwardMode ∧ held (it_r (orig s2)) ∧ kept s2) as Hk.
    { intros s2 E H2. assert (mode s2 = ForwardMode) as Hm2 by (rewrite <- Em; unfold mode; by rewrite E).
      split; [done|]. split; [done|]. apply kept_unpacked; [by rewrite E|rewrite Hm2; by intros [?|?]|done]. }
    unfold ForwardMode_Leave. destruct (f_hasOptions _); [|by apply Hk].
    eapply yields_mono; [apply handleOptions_reads|]. intros [err s2] [E H2]. apply Hk; [done|by eapply reads_held].
  - by apply Hpacked; [left|].
  - by apply Hpacked; [right|].
Qed.

Section Step.
  Variable fuel : nat.
  Variable next : Session R I A → Entry → go (option error * Session R I A * Entry).
  Context (next_holds : ∀ s e, kept s → yields hold_post (next s e)).

(** Whatever the ring of the connection has been through, MessageMode switches manual
    flushing on. *)
Lemma MessageMode_Enter_holds s e :
  mode s ≠ MessageMode → manual_pool (t_iterPool (phase s)) →
  (is_packed (mode s) → ∀ it, p_iter (packed_of (mode s) s) = Some it → held (it_r it)) →
  yields hold_post (MessageMode_Enter ack fuel next s e).
Proof.
  intros Hm Hpl Hin. unfold MessageMode_Enter, changeMode. set (s1 := set_orig _ _).
  change (mode s1) with (mode s). rewrite bool_decide_false by done.
  eapply yields_bind; [apply Leave_holds; [apply SetManualFlush_held|exact Hpl|exact Hin]|]. intros [[x|] s2] (_ & H2 & H3); cbn [fst snd] in *.
  - by apply hold_error.
  - apply next_holds, kept_unpacked; [by apply (kept_pool s2)|by intros [?|?]|done].
Qed.

Lemma changeMode_holds m s e :
  mode s = MessageMode → m ≠ MessageMode → kept (set_mode s m) → yields hold_post (changeMode ack fuel next m s e).
Proof.
  intros Hs Hm Hk. unfold changeMode. rewrite Hs, bool_decide_false by done. unfold Leave. rewrite Hs. go_simpl.
  by apply next_holds.
Qed.

Lemma single_entry_holds n s it e :
  mode s = MessageMode → manual_pool (t_iterPool (phase s)) → since_flush (it_r it) → yields hold_post (single_entry ack fuel n s it e).
Proof.
  intros Hs Hpl H. assert (¬ is_packed (mode s)) as Hn by (rewrite Hs; by intros [?|?]).
  unfold single_entry. eapply yields_bind; [by apply Timestamp_since|]. intros [t it5] H5. cbv zeta. cbn [snd] in H5.
  apply (NextExpectedType_since _ [Types.Map]) in H5. destruct (NextExpectedType it5 _) as [[x|] it6]; cbn [snd] in H5.
  { apply hold_error, kept_unpacked; [exact Hpl|exact Hn|by apply since_flush_held]. }
  destruct (_ =? 4); [|by apply hold_entry].
  eapply yields_bind; [apply handleOptions_reads|]. intros [err s'] [E H7]. cbn [fst snd] in *.
  apply hold_entry; [by rewrite E| |by eapply since_flush_reads|done]. unfold mode in *. by rewrite E.
Qed.

Lemma packed_entries_holds n s it e :
  mode s = MessageMode → manual_pool (t_iterPool (phase s)) → held (it_r it) → yields hold_post (packed_entries ack fuel next n s it e).
Proof.
  intros Hs Hpl H. assert (¬ is_packed (mode s)) as Hn by (rewrite Hs; by intros [?|?]).
  unfold packed_entries, isGzip. pose proof (Peek_held (R := R) (I := I) (LimitReader (L := L) (I := I) (it_r it) (it_length it)) 3) as Hp.
  destruct (Peek _ 3) as [[p [x|]] l]; cbn [snd] in Hp.
  { apply hold_error, kept_unpacked; [exact Hpl|exact Hn|]. by apply Hp, (LimitReader_held (I := I)). }
  destruct (index p 2); [|done]. destruct (index p 0); [|done]. destruct (index p 1); [|done]. go_simpl.
  destruct (_ && _).
  - unfold CompressedPackedForwardMode_Enter.
    destruct (gzip_Get (limit_SetManualFlush l false)) as [[x|] l2] eqn:Eg.
    { right. split; [exact Hs|]. split; [exact Hpl|]. by exists l, l2, x. }
    destruct (iterPool_Get l2 _) as [it1 p1] eqn:Ep. apply iterPool_Get_held in Ep as [Hi1 Hp1]; [|exact Hpl].
    apply changeMode_holds; [done|done|]. apply kept_packed; [exact Hp1|by right|]. by intros it' [= <-].
  - unfold PackedForwardMode_Enter. destruct (iterPool_Get _ _) as [it1 p1] eqn:Ep.
    apply iterPool_Get_held in Ep as [Hi1 Hp1]; [|exact Hpl].
    apply changeMode_holds; [done|done|]. apply kept_packed; [exact Hp1|by left|]. by intros it' [= <-].
Qed.

Lemma MessageMode_Next_holds s e :
  mode s = MessageMode → kept s → yields hold_post (MessageMode_Next ack fuel next s e).
Proof.
  intros Hs Hk. pose proof (kept_pool s Hk) as Hpl.
  assert (¬ is_packed (mode s)) as Hn by (rewrite Hs; by intros [?|?]).
  assert (∀ it x e, since_flush (it_r it) → yields hold_post (Ret (Some x, set_orig s it, e))) as Herr.
  { intros it x e0 H. apply hold_error, kept_unpacked; [exact Hpl|exact Hn|by apply since_flush_held]. }
  pose proof (flushed _ (proj1 Hk Hn)) as H0. unfold MessageMode_Next.
  apply (NextExpectedType_since _ [Types.Array]) in H0.
  destruct (NextExpectedType (Iter.Flush _) _) as [[x|] it1]; cbn [snd] in H0; [by apply Herr|].
  destruct (_ || _); [by apply Herr|]. apply (NextExpectedType_since _ [Types.Str]) in H0.
  destruct (NextExpectedType it1 _) as [[x|] it2]; cbn [snd] in H0; [by apply Herr|].
  destruct (_ <? minTagLen); [by apply Herr|]. destruct (maxTagLen <? _); [by apply Herr|].
  apply Str_since in H0. destruct (Iter.Str it2) as [tag it3]. cbn [snd] in H0.
  apply Next_since in H0. destruct (Iter.Next it3) as [[|] it4]; cbn [negb snd] in *; [|by apply Herr].
  destruct (it_typ it4); try (by apply Herr); try by apply single_entry_holds.
  - by apply packed_entries_holds; [| |apply since_flush_held].
  - unfold ForwardMode_Enter. apply changeMode_holds; [done|done|].
    apply kept_unpacked; [exact Hpl|by intros [?|?]|apply SetManualFlush_held].
Qed.

Lemma ForwardMode_Next_holds s e :
  mode s = ForwardMode → kept s → yields hold_post (ForwardMode_Next ack fuel next s e).
Proof.
  intros Hs Hk. pose proof (kept_pool s Hk) as Hpl.
  assert (¬ is_packed (mode s)) as Hn by (rewrite Hs; by intros [?|?]).
  pose proof (flushed _ (proj1 Hk Hn)) as H0. unfold ForwardMode_Next. destruct (_ <=? 0).
  { apply MessageMode_Enter_holds; [change (mode s ≠ MessageMode); by rewrite Hs|exact Hpl|by intros Hp; destruct Hn]. }
  cbn [orig set_orig]. apply (NextExpectedType_since _ [Types.Array]) in H0.
  destruct (NextExpectedType (Iter.Flush _) _) as [[x|] it1]; cbn [snd] in H0.
  { apply hold_error, kept_unpacked; [exact Hpl|exact Hn|by apply since_flush_held]. }
  eapply yields_bind; [by apply next_pair_since|]. intros [[[x|] it2] e2] [H2 He]; cbn [fst snd] in *.
  - apply hold_error, kept_unpacked; [exact Hpl|exact Hn|by apply since_flush_held].
  - apply hold_entry; [exact Hpl|exact Hn|exact H2|by apply He].
Qed.

Lemma Packed_Next_holds s e :
  is_packed (mode s) → kept s → yields hold_post (Packed_Next ack fuel next (mode s) s e).
Proof.
  intros Hp Hk. pose proof (kept_pool s Hk) as Hpl. unfold Packed_Next. destruct (p_iter (packed_of (mode s) s)) as [it|] eqn:Eit; [|done].
  set (with_iter := λ it' : Iterator I, set_packed (mode s) s
    (mkPacked (Some it') (p_tag (packed_of (mode s) s)) (p_hasOptions (packed_of (mode s) s)))).
  assert (∀ it', mode (with_iter it') = mode s) as Hm by (intros it'; apply set_packed_mode).
  assert (∀ it', p_iter (packed_of (mode s) (with_iter it')) = Some it') as Hi
    by (intros it'; unfold with_iter; by rewrite packed_of_set).
  assert (∀ it', since_flush (it_r it') → kept (with_iter it')) as Hw.
  { intros it' H. apply kept_packed; [unfold with_iter; by rewrite pool_set_packed|by rewrite Hm|].
    intros it2. rewrite Hm, Hi. intros [= <-]. by apply since_flush_held. }
  pose proof (flushed it (proj1 (proj2 Hk) Hp it Eit)) as H0. apply (NextExpectedType_since _ [Types.Array]) in H0.
  destruct (NextExpectedType (Iter.Flush it) _) as [[x|] it1]; cbn [snd] in H0.
  - fold (with_iter it1). destruct (is_EOF x); [|by apply hold_error, Hw].
    destruct (Hw it1 H0) as (_ & Hk2 & Hk3). apply MessageMode_Enter_holds; [|exact Hk3|exact Hk2].
    change (mode (with_iter it1) ≠ MessageMode). rewrite Hm. by destruct Hp as [-> | ->].
  - eapply yields_bind; [by apply next_pair_since|]. intros [[err it2] e2] [H2 He]; cbn [fst snd] in *.
    fold (with_iter it2). left. split; [by apply Hw|]. intros Ee. exists Inner. split; [by apply He|].
    unfold holds. rewrite Hm, Hi. split; [done|by exists it2].
Qed.

End Step.

Lemma Next_kept fuel : ∀ s e, kept s → yields hold_post (Transport.Next ack fuel s e).
Proof.
  induction fuel as [|fuel IH]; intros s e Hk; [done|]. cbn [Transport.Next].
  pose proof (Packed_Next_holds fuel (Transport.Next ack fuel) IH s e) as Hp.
  destruct (mode s) eqn:Em.
  - by apply MessageMode_Next_holds.
  - by apply ForwardMode_Next_holds.
  - apply Hp; [by left|done].
  - apply Hp; [by right|done].
Qed.

(** ** Sessions

    A handler calls [Next], may go on after an error, reads of the record what it wants,
    and may go back to the entry with [Rewind].  Meanwhile other sessions use the pool.
    Its iterator, and those that they put into the pool, flush manually. *)
Inductive attended : Session R I A → Prop :=
  | attended_Init it a : held (it_r it) → attended (Init it a)
  | attended_Next fuel s e err s' e' :
      attended s → Transport.Next ack fuel s e = Ret (err, s', e') → ¬ ungzipped err s' → attended s'
  | attended_read rec s s' : attended s → read_record rec s s' → attended s'
  | attended_Rewind s s' : attended s → Rewind s = Ret s' → attended s'
  | attended_pool s p : attended s → manual_pool p → attended (set_pool s p).

Lemma set_orig_kept s it : kept s → (held (it_r (orig s)) → held (it_r it)) → kept (set_orig s it).
Proof. intros [H1 H2] H. split; [|exact H2]. intros Hn. by apply H, H1. Qed.

Lemma set_packed_kept s p :
  kept s → (is_packed (mode s) → ∀ it, p_iter p = Some it → held (it_r it)) → kept (set_packed (mode s) s p).
Proof.
  intros (H1 & H2 & H3) H. assert (mode (set_packed (mode s) s p) = mode s) as Hm by apply set_packed_mode.
  assert (orig (set_packed (mode s) s p) = orig s) as Ho by (unfold set_packed; by case_bool_decide).
  split; [|split]; rewrite ?Hm; [by rewrite Ho|by rewrite packed_of_set|by rewrite pool_set_packed].
Qed.

Lemma read_kept rec s s' : kept s → read_record rec s s' → kept s'.
Proof.
  intros Hk. destruct rec.
  - intros (it & Hr & ->). apply set_orig_kept; [done|]. by apply reads_held.
  - intros (it & it' & Hi & Hr & ->). apply set_packed_kept; [done|]. cbn. intros Hp it2 [= <-].
    eapply reads_held; [exact Hr|]. by apply (proj1 (proj2 Hk)).
Qed.

Lemma read_holds rec s s' : holds rec s → read_record rec s s' → holds rec s'.
Proof.
  destruct rec; cbn [holds].
  - intros [Hn H] (it & Hr & ->). split; [exact Hn|by eapply since_flush_reads].
  - intros [Hp (it0 & Hi0 & H)] (it & it' & Hi & Hr & ->). unfold set_inner. rewrite set_packed_mode, packed_of_set.
    split; [done|]. exists it'. split; [done|]. assert (it0 = it) as <- by congruence. by eapply since_flush_reads.
Qed.

(** [Rewind] returns whenever the mode has what it reads from, and stays in the mode. *)
Lemma Rewind_kept s s' : kept s → Rewind s = Ret s' → kept s'.
Proof.
  intros Hk. assert (kept (set_orig s (Iter_Rewind (orig s)))) as Ho by (apply set_orig_kept; [done|apply rewind_held]).
  assert (∀ m, m = mode s → is_packed m → Packed_Rewind m s = Ret s' → kept s') as Hpacked.
  { intros m -> Hp. unfold Packed_Rewind. destruct (p_iter _) as [it|] eqn:Ei; [|done]. intros [= <-].
    apply set_packed_kept; [done|]. cbn. intros _ it2 [= <-]. by apply rewind_held, (proj1 (proj2 Hk)). }
  unfold Rewind. destruct (mode s) eqn:Em; [by intros [= <-]|by intros [= <-]|apply Hpacked; [done|by left]
    |apply Hpacked; [done|by right]].
Qed.

Lemma attended_kept s : attended s → kept s.
Proof.
  induction 1 as [it a H|fuel s e err s' e' _ IH E Hu|rec s s' _ IH Hr|s s' _ IH Hr|s p _ IH Hp].
  - apply kept_unpacked; [constructor|by intros [?|?]|done].
  - pose proof (Next_kept fuel s e IH) as H. rewrite E in H. by destruct H as [[H _]|H].
  - by eapply read_kept.
  - by eapply Rewind_kept.
  - destruct IH as (H1 & H2 & _). split; [exact H1|]. split; [|exact Hp]. intros Hm it.
    change (p_iter (packed_of (mode s) (set_pool s p)) = Some it → held (it_r it)). rewrite set_pool_packed_of. by apply H2.
Qed.

(** C14: The entries that a handler gets point into the buffer of a ring, and are safe to
    read, if the session's iterator and those of the pool flush manually: in every
    session that a handler can reach then, by calls of [Next], failed ones included,
    reads and rewinds, an entry's record is on the iterator that the mode reads from, and
    since that was flushed for the entry nothing has happened to its ring but reads with
    manual flushing on, nor will it while the handler reads.  The one exception is a
    failed gzip header, which leaves the ring as it was lent.  Iterators put back in the
    middle of a packed message do not flush manually ([pooled_automatic] of Sessions). *)
Theorem Next_holds s fuel e err s' e' :
  attended s → Transport.Next ack fuel s e = Ret (err, s', e') →
  (kept s' ∧ (err = None → ∃ rec, e_Record e' = Some rec ∧ holds rec s' ∧
    ∀ s2, read_record rec s' s2 → holds rec s2)) ∨
  ungzipped err s'.
Proof.
  intros Hs E. pose proof (Next_kept fuel s e (attended_kept s Hs)) as H. rewrite E in H.
  destruct H as [[Hk H]|H]; [left|by right]. split; [done|]. intros He. destruct (H He) as (rec & Er & Hh).
  exists rec. split; [done|]. split; [done|]. intros s2. by apply read_holds.
Qed.

End Phase.

(** ** Rings that remember their last flush *)

#[export] Program Instance snap_flushing {X} `{!RingOps X} : Flushing (snap X) := { held r := is_manual r = true }.
Next Obligation. done. Qed.
Next Obligation. done. Qed.
Next Obligation. done. Qed.
Next Obligation.
  intros X H1. split; [split; [by intros s|by intros s1 s2 s3 H12 H23 H; auto]| | |].
  - intros s. cbn. by destruct (ReadByte _) as [[? ?] ?].
  - intros s n. cbn. by destruct (ReadBytes _ _) as [[? ?] ?].
  - done.
Qed.

#[export] Program Instance snap_flushing_nested {R L I} `{!RingOps R, !RingOps I, !NestedOps R L I} :
  FlushingNested (snap R) (L * bool) (snap I).
Next Obligation. done. Qed.
Next Obligation. intros R L I H1 H2 H3 [l v] n. cbn. by destruct (Peek _ _) as [[? ?] ?]. Qed.
Next Obligation. done. Qed.
Next Obligation. done. Qed.

(** ** Witness: the entry of a compressed message *)

Lemma Next_holds_witness :
  ∃ s' e', Transport.Next ack0 50 (session1 compressed0) entry0 = Ret (None, s', e') ∧
    ((kept s' ∧ ((None : option error) = None → ∃ rec, e_Record e' = Some rec ∧ holds rec s' ∧
       ∀ s2, read_record rec s' s2 → holds rec s2)) ∨
     ungzipped (L := list_limit * bool) None s').
Proof.
  eexists _, _. split; [vm_compute; reflexivity|].
  apply (Next_holds (L := list_limit * bool) ack0 (session1 compressed0) 50 entry0);
    [by apply attended_Init|vm_compute; reflexivity].
Defined.

(** The exception: after a message whose gzip header ends early, the entry of the next
    message is read with flushing still automatic. *)
Definition damaged0 : list Z :=
  AppendArrayHeader [] 2 ++ AppendString [] tag0 ++ AppendBinary [] [0x1f; 0x8b; 8].

Lemma gzip_error_automatic : ∃ x s1 e1 s2 e2,
  Transport.Next ack0 50 (session1 (damaged0 ++ message0)) entry0 = Ret (Some x, s1, e1) ∧
  Transport.Next ack0 50 s1 e1 = Ret (None, s2, e2) ∧ e_Tag e2 = tag0 ∧ ¬ kept s2.
Proof.
  eexists _, _, _, _, _. split; [vm_compute; reflexivity|]. split; [vm_compute; reflexivity|]. split; [done|].
  intros [H _]. discriminate H. by intros [?|?].
Qed.
