(* ===== verification/Pooled.v ===== *)
(** * Pooled: iterators that have been used before (pkg/msgpack/iter_pool.go)

    The iterator pool gives an iterator out again after a [Reset], which sets a new
    source for its ring reader and leaves everything else: the last error, the last
    token, the ring's buffer and its way of flushing.  [≡] relates rings, and iterators
    and sessions of the transport phase over such rings, whatever is left over in the
    iterators' fields; the operations respect it.  [pooled_leftovers] takes equality for
    the rings: what an iterator of the pool has left over from another session cannot be
    seen but for its ring, which is the old one after [Reset], with whatever [Reset]
    leaves of it ([Lifetime] and [Sessions] show what becomes of manual flushing). *)

From S2P Require Import Prelude Types Errors Integer Headers Str Timestamp Object RingBuf Iter Transport Safety Pool Rewind.
From S2P Require Gzip.

(** ** Related results *)

Definition go_rel {A B} (P : A → B → Prop) (m1 : go A) (m2 : go B) : Prop :=
  match m1, m2 with
  | Ret a, Ret b => P a b
  | Panic p, Panic q => p = q
  | _, _ => False
  end.

Lemma go_rel_bind {A B A' B'} (P : A → B → Prop) (Q : A' → B' → Prop) m1 m2 f g :
  go_rel P m1 m2 → (∀ a b, P a b → go_rel Q (f a) (g b)) → go_rel Q (m1 ≫= f) (m2 ≫= g).
Proof. destruct m1, m2; cbn; [|done|done|done]. auto. Qed.

Lemma go_rel_mono {A B} (P Q : A → B → Prop) m1 m2 :
  go_rel P m1 m2 → (∀ a b, P a b → Q a b) → go_rel Q m1 m2.
Proof. destruct m1, m2; cbn; auto. Qed.

Lemma go_rel_refl {A} (P : A → A → Prop) m : (∀ a, P a a) → go_rel P m m.
Proof. intros HP. by destruct m; cbn. Qed.

(** ** Rings that are taken for the same *)

Class RingSetoid (X : Type) `{!RingOps X, !Equiv X} := {
  ring_equivalence :: Equivalence (≡@{X});
  ReadByte_same (r1 r2 : X) :
    r1 ≡ r2 → (ReadByte r1).1 = (ReadByte r2).1 ∧ (ReadByte r1).2 ≡ (ReadByte r2).2;
  ReadBytes_same (r1 r2 : X) n :
    r1 ≡ r2 → live (ReadBytes r1 n).1.1 = live (ReadBytes r2 n).1.1 ∧
      (ReadBytes r1 n).1.2 = (ReadBytes r2 n).1.2 ∧ (ReadBytes r1 n).2 ≡ (ReadBytes r2 n).2;
  Discard_proper :: Proper ((≡) ==> (=) ==> (≡)) (Discard (R := X));
  Flush_proper :: Proper ((≡) ==> (≡)) (RingBuf.Flush (R := X));
  SetManualFlush_proper :: Proper ((≡) ==> (=) ==> (≡)) (RingBuf.SetManualFlush (R := X))
}.

(** The bytes of a slice, not those behind it, are all that is read. *)
Lemma index_live s1 s2 i : live s1 = live s2 → index s1 i = index s2 i.
Proof. intros E. unfold index, slen. by rewrite E. Qed.

Lemma be_from_live n s1 s2 lo : live s1 = live s2 → be_from n s1 lo = be_from n s2 lo.
Proof.
  intros E. unfold be_from, be_at, reslice. assert (slen s1 = slen s2) as El by (unfold slen; by rewrite E).
  pose proof (lenZ_nonneg (spare s1)). pose proof (lenZ_nonneg (spare s2)).
  assert ((slen s1 <=? scap s1) = true) as -> by len_lia. assert ((slen s2 <=? scap s2) = true) as -> by len_lia.
  rewrite <- El, !andb_true_r. destruct (_ && _) eqn:Eb; [|done]. go_simpl. unfold BigEndian_Uint. cbn [live].
  assert (∀ s, slen s = slen s1 → take (Z.to_nat (slen s1 - lo)) (drop (Z.to_nat lo) (live s ++ spare s)) = drop (Z.to_nat lo) (live s)) as Hd.
  { intros s Es. assert (slen s1 = Z.of_nat (length (live s))) as -> by by rewrite <- Es.
    rewrite drop_app_le by (unfold slen, lenZ in *; lia).
    rewrite take_app_le by (rewrite length_drop; lia). apply take_ge. rewrite length_drop. lia. }
  rewrite !Hd by done. by rewrite E.
Qed.

Lemma readTimeUnsafe_live c s1 s2 : live s1 = live s2 → readTimeUnsafe c s1 = readTimeUnsafe c s2.
Proof.
  intros E. assert (slen s1 = slen s2) as El by (unfold slen; by rewrite E).
  unfold readTimeUnsafe. rewrite El, E. rewrite (index_live s1 s2) by done.
  by rewrite !(be_from_live _ s1 s2).
Qed.

(** ** Iterators *)

Section Iterators.
  Context {X : Type} `{!RingOps X, !Equiv X, !RingSetoid X}.
  Implicit Type it : Iterator X.

(** Iterators over such rings; the other fields are left over from the last token. *)
#[export] Instance iterator_equiv : Equiv (Iterator X) := λ it1 it2, it_r it1 ≡ it_r it2.

#[export] Instance iterator_equivalence : Equivalence (≡@{Iterator X}).
Proof.
  split.
  - intros it. unfold equiv, iterator_equiv. reflexivity.
  - intros it1 it2 H. unfold equiv, iterator_equiv in *. by symmetry.
  - intros it1 it2 it3 H12 H23. unfold equiv, iterator_equiv in *. by etrans.
Qed.

(** Iterators at the same token. *)
Definition same_token it1 it2 : Prop :=
  it1 ≡ it2 ∧ it_err it1 = it_err it2 ∧ it_length it1 = it_length it2 ∧ it_items it1 = it_items it2 ∧
  it_byt it1 = it_byt it2 ∧ it_typ it1 = it_typ it2.

Lemma same_token_equiv it1 it2 : same_token it1 it2 → it1 ≡ it2.
Proof. by intros [H _]. Qed.

#[export] Instance Iter_Flush_proper : Proper ((≡) ==> (≡)) (Iter.Flush (R := X)).
Proof. intros it1 it2 H. exact (Flush_proper (it_r it1) (it_r it2) H). Qed.

#[export] Instance Iter_SetManualFlush_proper : Proper ((≡) ==> (=) ==> (≡)) (Iter.SetManualFlush (R := X)).
Proof. intros it1 it2 H v ? <-. exact (SetManualFlush_proper (it_r it1) (it_r it2) H v v eq_refl). Qed.

#[export] Instance NewIterator_proper : Proper ((≡) ==> (≡)) (NewIterator (R := X)).
Proof. intros r1 r2 H. exact (SetManualFlush_proper _ _ H true true eq_refl). Qed.

(** [Next] forgets what the iterator was used for; when it fails, what is left over stays. *)
Lemma Next_same it1 it2 :
  it1 ≡ it2 →
  (Iter.Next it1).1 = (Iter.Next it2).1 ∧ (Iter.Next it1).2 ≡ (Iter.Next it2).2 ∧
  it_err (Iter.Next it1).2 = it_err (Iter.Next it2).2 ∧
  ((Iter.Next it1).1 = true ∨ same_token it1 it2 → same_token (Iter.Next it1).2 (Iter.Next it2).2).
Proof.
  intros H. destruct (ReadByte_same (it_r it1) (it_r it2) H) as [E1 E2]. unfold Iter.Next. cbn [with_err it_r].
  destruct (ReadByte (it_r it1)) as [[c1 e1] r1], (ReadByte (it_r it2)) as [[c2 e2] r2]. cbn [fst snd] in E1, E2.
  injection E1 as <- <-. destruct e1 as [x|].
  { split_and!; [done..|]. cbn [fst snd]. intros [?|(_ & _ & ? & ? & _ & ?)]; [done|]. by split_and!. }
  cbn [it_byt it_r]. destruct (Types.Get c1) as [[ty l] [|]]; cbn [negb].
  - destruct ty; cbn [fst snd]; by split_and!.
  - destruct (ReadBytes_same _ _ l E2) as (E3 & E4 & E5).
    destruct (ReadBytes r1 l) as [[b1 x1] r3], (ReadBytes r2 l) as [[b2 x2] r4]. cbn [fst snd] in E3, E4, E5.
    subst x2. destruct x1 as [x|].
    + split_and!; [done..|]. cbn [fst snd]. intros [?|(_ & _ & ? & ? & _ & ?)]; [done|]. by split_and!.
    + rewrite <- E3. destruct ty; cbn [fst snd]; by split_and!.
Qed.

Lemma NextExpectedType_same it1 it2 ts :
  it1 ≡ it2 →
  (NextExpectedType it1 ts).1 = (NextExpectedType it2 ts).1 ∧
  (NextExpectedType it1 ts).2 ≡ (NextExpectedType it2 ts).2 ∧
  ((NextExpectedType it1 ts).1 = None ∨ same_token it1 it2 →
    same_token (NextExpectedType it1 ts).2 (NextExpectedType it2 ts).2).
Proof.
  intros H. destruct (Next_same it1 it2 H) as (E1 & E2 & E3 & E4). unfold NextExpectedType.
  destruct (Iter.Next it1) as [b1 j1], (Iter.Next it2) as [b2 j2]. cbn [fst snd] in *. subst b2.
  destruct b1; cbn [negb].
  - specialize (E4 (or_introl eq_refl)). destruct E4 as (_ & ? & ? & ? & Eb & Et). rewrite <- Et, <- Eb.
    by destruct (existsb _ _); split_and!.
  - rewrite <- E3. destruct (it_err j1); split_and!; try done; intros [?|?]; try done; auto.
Qed.

Lemma raw_same it1 it2 :
  same_token it1 it2 →
  live (raw it1).1.1 = live (raw it2).1.1 ∧ (raw it1).1.2 = (raw it2).1.2 ∧ same_token (raw it1).2 (raw it2).2.
Proof.
  intros (H & Ee & El & Ei & Eb & Et). unfold raw. rewrite <- El.
  destruct (ReadBytes_same (it_r it1) (it_r it2) (it_length it1) H) as (E3 & E4 & E5).
  destruct (ReadBytes (it_r it1) _) as [[b1 x1] r3], (ReadBytes (it_r it2) _) as [[b2 x2] r4]. cbn [fst snd] in *.
  subst x2. by split_and!.
Qed.

Lemma Str_same it1 it2 :
  same_token it1 it2 → (Iter.Str it1).1 = (Iter.Str it2).1 ∧ same_token (Iter.Str it1).2 (Iter.Str it2).2.
Proof.
  intros H. destruct (raw_same it1 it2 H) as (E1 & E2 & E3). unfold Iter.Str.
  destruct (raw it1) as [[b1 x1] r3], (raw it2) as [[b2 x2] r4]. cbn [fst snd] in *. subst x2. by destruct x1.
Qed.

Lemma Timestamp_same it1 it2 :
  same_token it1 it2 →
  go_rel (λ r1 r2, r1.1 = r2.1 ∧ same_token r1.2 r2.2) (Iter.Timestamp it1) (Iter.Timestamp it2).
Proof.
  intros H. destruct (raw_same it1 it2 H) as (E1 & E2 & E3). unfold Iter.Timestamp.
  destruct (raw it1) as [[b1 x1] j1], (raw it2) as [[b2 x2] j2]. cbn [fst snd] in *. subst x2. destruct x1; [|done].
  assert (it_byt j1 = it_byt j2) as <- by apply E3. rewrite (readTimeUnsafe_live _ b1 b2) by done.
  by destruct (readTimeUnsafe _ b2).
Qed.

Lemma skip_items_same skip : (∀ it1 it2, same_token it1 it2 → go_rel same_token (skip it1) (skip it2)) →
  ∀ k items it1 it2, same_token it1 it2 → go_rel same_token (skip_items skip k items it1) (skip_items skip k items it2).
Proof.
  intros Hs. induction k as [|k IH]; intros items it1 it2 H; cbn [skip_items]; destruct (items <=? 0); try done.
  destruct (Next_same it1 it2 (same_token_equiv _ _ H)) as (E1 & _ & _ & E4). specialize (E4 (or_intror H)).
  destruct (Iter.Next it1) as [b1 j1], (Iter.Next it2) as [b2 j2]. cbn [fst snd] in *. subst b2.
  destruct b1; cbn [negb]; [|done]. eapply go_rel_bind; [by apply Hs|]. auto.
Qed.

Lemma Skip_same fuel : ∀ it1 it2, same_token it1 it2 → go_rel same_token (Skip fuel it1) (Skip fuel it2).
Proof.
  induction fuel as [|fuel IH]; intros it1 it2 H; [done|]. cbn [Skip]. pose proof H as (Hr & Ee & El & Ei & Eb & Et).
  rewrite <- Ei, <- Et, <- El.
  assert (same_token (with_reader it1 (Discard (it_r it1) (it_length it1)))
    (with_reader it2 (Discard (it_r it2) (it_length it1)))) as Hd.
  { split; [exact (Discard_proper (it_r it1) (it_r it2) Hr _ _ eq_refl)|done]. }
  destruct (it_typ it1); by apply skip_items_same.
Qed.

Lemma next_pair_same m tag rec it1 it2 e :
  same_token it1 it2 →
  go_rel (λ r1 r2, r1.1.1 = r2.1.1 ∧ r1.2 = r2.2 ∧ r1.1.2 ≡ r2.1.2 ∧
      (r1.1.1 = None → same_token r1.1.2 r2.1.2 ∧ e_Record r1.2 = Some rec))
    (next_pair m tag rec it1 e) (next_pair m tag rec it2 e).
Proof.
  intros H. unfold next_pair. assert (it_items it1 = it_items it2) as <- by apply H.
  pose proof (same_token_equiv _ _ H) as He. destruct (negb _); [by split_and!|].
  destruct (NextExpectedType_same it1 it2 [Ext; Types.Int; Types.Uint] He) as (E1 & E2 & E3).
  destruct (NextExpectedType it1 _) as [x1 j1], (NextExpectedType it2 _) as [x2 j2]. cbn [fst snd] in *. subst x2.
  destruct x1 as [x|]; [by split_and!|]. eapply go_rel_bind; [apply Timestamp_same, E3; by left|].
  intros [t1 k1] [t2 k2] [Et Hk]. cbn [fst snd] in *. subst t2.
  destruct (NextExpectedType_same k1 k2 [Types.Map] (same_token_equiv _ _ Hk)) as (E4 & E5 & E6).
  destruct (NextExpectedType k1 _) as [x1 l1], (NextExpectedType k2 _) as [x2 l2]. cbn [fst snd] in *. subst x2.
  destruct x1 as [x|]; split_and!; try done; auto.
Qed.

End Iterators.

(** ** The transport phase *)

Class NestedSetoid (R L I : Type) `{!RingOps R, !RingOps I, !NestedOps R L I, !Equiv R, !Equiv L, !Equiv I} := {
  LimitReader_proper :: Proper ((≡) ==> (=) ==> (≡)) (LimitReader (R := R) (L := L) (I := I));
  limit_ring_proper :: Proper ((≡) ==> (≡)) (limit_ring (R := R) (L := L) (I := I));
  limit_SetManualFlush_proper :: Proper ((≡) ==> (=) ==> (≡)) (limit_SetManualFlush (R := R) (L := L) (I := I));
  Peek_same (l1 l2 : L) n :
    l1 ≡ l2 → live (Peek l1 n).1.1 = live (Peek l2 n).1.1 ∧ (Peek l1 n).1.2 = (Peek l2 n).1.2 ∧
      (Peek l1 n).2 ≡ (Peek l2 n).2;
  gzip_Get_same (l1 l2 : L) :
    l1 ≡ l2 → (gzip_Get l1).1 = (gzip_Get l2).1 ∧ (gzip_Get l1).2 ≡ (gzip_Get l2).2;
  new_ring_proper :: Proper ((≡) ==> (≡)) (new_ring (R := R) (L := L) (I := I));
  reset_ring_proper :: Proper ((≡) ==> (≡) ==> (≡)) (reset_ring (R := R) (L := L) (I := I));
  unset_ring_proper :: Proper ((≡) ==> (≡)) (unset_ring (R := R) (L := L) (I := I));
  lender_proper :: Proper ((≡) ==> (≡)) (lender (R := R) (L := L) (I := I))
}.

Section Phase.
  Context {R L I A : Type} `{!RingOps R, !RingOps I, !NestedOps R L I}.
  Context `{!Equiv R, !Equiv L, !Equiv I, !RingSetoid R, !RingSetoid I, !NestedSetoid R L I}.
  Variable ack : list Z → A → option error * A.
  Implicit Types (s : Session R I A) (e : Entry).

#[export] Instance packed_equiv : Equiv (Packed (I := I)) := λ p1 p2,
  p_iter p1 ≡ p_iter p2 ∧ p_tag p1 = p_tag p2 ∧ p_hasOptions p1 = p_hasOptions p2.

#[export] Instance iterPool_equiv : Equiv (IterPool (I := I)) := λ p1 p2,
  Forall2 (≡) (iters p1) (iters p2) ∧ picks p1 = picks p2.

#[export] Instance session_equiv : Equiv (Session R I A) := λ s1 s2,
  t_iterPool (phase s1) ≡ t_iterPool (phase s2) ∧
  mode s1 = mode s2 ∧ forwardMode (phase s1) = forwardMode (phase s2) ∧
  packedMode (phase s1) ≡ packedMode (phase s2) ∧ compMode (phase s1) ≡ compMode (phase s2) ∧
  orig s1 ≡ orig s2 ∧ acks s1 = acks s2.

#[export] Instance packed_equivalence : Equivalence (≡@{Packed (I := I)}).
Proof.
  split.
  - intros p. by split_and!.
  - intros p1 p2 (? & ? & ?). by split_and!.
  - intros p1 p2 p3 (? & ? & ?) (? & ? & ?). split; [by etrans|]. split; by etrans.
Qed.

#[export] Instance iterPool_equivalence : Equivalence (≡@{IterPool (I := I)}).
Proof.
  split.
  - intros p. by split.
  - intros p1 p2 [? ?]. by split.
  - intros p1 p2 p3 [? ?] [? ?]. split; by etrans.
Qed.

#[export] Instance session_equivalence : Equivalence (≡@{Session R I A}).
Proof.
  split.
  - intros s. by split_and!.
  - intros s1 s2 (? & ? & ? & ? & ? & ? & ?). by split_and!.
  - intros s1 s2 s3 (? & ? & ? & ? & ? & ? & ?) (? & ? & ? & ? & ? & ? & ?). split_and!; by etrans.
Qed.

#[export] Instance t_iterPool_proper : Proper ((≡) ==> (≡)) (λ s, t_iterPool (phase s)).
Proof. by intros s1 s2 [? _]. Qed.
#[export] Instance set_pool_proper : Proper ((≡) ==> (≡) ==> (≡)) (set_pool (R := R) (I := I) (A := A)).
Proof. intros s1 s2 (? & ? & ? & ? & ? & ? & ?) p1 p2 Hp. by split. Qed.

(** The pool gives out iterators over the same ring, and has the same left. *)
Lemma iterPool_Get_same (l1 l2 : L) p1 p2 :
  l1 ≡ l2 → p1 ≡ p2 →
  (iterPool_Get l1 p1).1 ≡ (iterPool_Get l2 p2).1 ∧ (iterPool_Get l1 p1).2 ≡ (iterPool_Get l2 p2).2.
Proof.
  intros Hl [Hi Hp]. unfold iterPool_Get. rewrite <- Hp, <- (Forall2_length _ _ _ Hi).
  set (n := match picks p1 with [] => O | _ => _ end).
  destruct (iters p1 !! n) as [it1|] eqn:E1.
  - destruct (Forall2_lookup_l _ _ _ _ _ Hi E1) as (it2 & -> & H). split; [|split; [by apply Forall2_delete|done]].
    exact (reset_ring_proper (R := R) (it_r it1) (it_r it2) H l1 l2 Hl).
  - destruct (iters p2 !! n) as [it2|] eqn:E2.
    { destruct (Forall2_lookup_r _ _ _ _ _ Hi E2) as (it1 & E & _). by rewrite E1 in E. }
    split; [|by split].
    apply NewIterator_proper. exact (new_ring_proper (R := R) l1 l2 Hl).
Qed.

Lemma iterPool_Put_same it1 it2 (p1 p2 : IterPool (I := I)) :
  it1 ≡ it2 → p1 ≡ p2 → iterPool_Put it1 p1 ≡ iterPool_Put it2 p2.
Proof.
  intros H [Hi Hp]. split; [|exact Hp]. constructor; [|exact Hi].
  exact (unset_ring_proper (R := R) (L := L) (it_r it1) (it_r it2) H).
Qed.

#[export] Instance mode_proper : Proper ((≡) ==> (=)) (mode (R := R) (I := I) (A := A)).
Proof. by intros s1 s2 (_ & ? & _). Qed.
#[export] Instance orig_proper : Proper ((≡) ==> (≡)) (orig (R := R) (I := I) (A := A)).
Proof. by intros s1 s2 (_ & _ & _ & _ & _ & ? & _). Qed.
#[export] Instance packed_of_proper : Proper ((=) ==> (≡) ==> (≡)) (packed_of (R := R) (I := I) (A := A)).
Proof. intros m ? <- s1 s2 (_ & _ & _ & ? & ? & _). unfold packed_of. by case_bool_decide. Qed.
#[export] Instance set_orig_proper : Proper ((≡) ==> (≡) ==> (≡)) (set_orig (R := R) (I := I) (A := A)).
Proof. intros s1 s2 (? & ? & ? & ? & ? & ? & ?) it1 it2 Hit. by split_and!. Qed.
#[export] Instance set_mode_proper : Proper ((≡) ==> (=) ==> (≡)) (set_mode (R := R) (I := I) (A := A)).
Proof. intros s1 s2 (? & ? & ? & ? & ? & ? & ?) m ? <-. by split_and!. Qed.
#[export] Instance set_forward_proper : Proper ((≡) ==> (=) ==> (≡)) (set_forward (R := R) (I := I) (A := A)).
Proof. intros s1 s2 (? & ? & ? & ? & ? & ? & ?) f ? <-. by split_and!. Qed.
#[export] Instance set_acks_proper : Proper ((≡) ==> (=) ==> (≡)) (set_acks (R := R) (I := I) (A := A)).
Proof. intros s1 s2 (? & ? & ? & ? & ? & ? & ?) a ? <-. by split_and!. Qed.
#[export] Instance set_packed_proper : Proper ((=) ==> (≡) ==> (≡) ==> (≡)) (set_packed (R := R) (I := I) (A := A)).
Proof.
  intros m ? <- s1 s2 (? & ? & ? & ? & ? & ? & ?) p1 p2 Hp. unfold set_packed. case_bool_decide; by split_and!.
Qed.

Lemma options_loop_same fuel k m : ∀ (it1 it2 : Iterator R) (a : A),
  same_token it1 it2 →
  go_rel (λ r1 r2, r1.1.1 = r2.1.1 ∧ r1.2 = r2.2 ∧ same_token r1.1.2 r2.1.2)
    (options_loop ack fuel k m it1 a) (options_loop ack fuel k m it2 a).
Proof.
  induction k as [|k IH]; intros it1 it2 a H; [done|]. cbn [options_loop].
  destruct (NextExpectedType_same it1 it2 [Types.Str] (same_token_equiv _ _ H)) as (E1 & _ & E3).
  specialize (E3 (or_intror H)).
  destruct (NextExpectedType it1 _) as [x1 j1], (NextExpectedType it2 _) as [x2 j2]. cbn [fst snd] in *. subst x2.
  destruct x1 as [x|]; [done|]. destruct (Str_same j1 j2 E3) as [E4 E5].
  destruct (Iter.Str j1) as [k1 l1], (Iter.Str j2) as [k2 l2]. cbn [fst snd] in *. subst k2.
  destruct (Next_same l1 l2 (same_token_equiv _ _ E5)) as (E6 & _ & E7 & E8). specialize (E8 (or_intror E5)).
  destruct (Iter.Next l1) as [b1 m1], (Iter.Next l2) as [b2 m2]. cbn [fst snd] in *. subst b2.
  destruct b1; cbn [negb]; [|by rewrite <- E7]. case_bool_decide.
  - eapply go_rel_bind; [by apply Skip_same|]. auto.
  - destruct (Str_same m1 m2 E8) as [E9 E10].
    destruct (Iter.Str m1) as [c1 n1], (Iter.Str m2) as [c2 n2]. cbn [fst snd] in *. subst c2.
    destruct (ack c1 a) as [[x|] a']; [done|]. by apply IH.
Qed.

Lemma handleOptions_same fuel s1 s2 :
  s1 ≡ s2 →
  go_rel (λ r1 r2, r1.1 = r2.1 ∧ r1.2 ≡ r2.2 ∧ (r1.1 = None → same_token (orig r1.2) (orig r2.2)))
    (handleOptions ack fuel s1) (handleOptions ack fuel s2).
Proof.
  intros Hs. unfold handleOptions. pose proof (mode_proper _ _ Hs) as <-.
  destruct (NextExpectedType_same (orig s1) (orig s2) [Types.Map] (orig_proper _ _ Hs)) as (E1 & E2 & E3).
  destruct (NextExpectedType (orig s1) _) as [x1 j1], (NextExpectedType (orig s2) _) as [x2 j2].
  cbn [fst snd] in *. subst x2. destruct x1 as [x|]; [split; [done|]; split; [by rewrite Hs, E2|done]|].
  specialize (E3 (or_introl eq_refl)). assert (it_items j1 = it_items j2) as <- by apply E3.
  assert (acks s1 = acks s2) as <- by apply Hs.
  eapply go_rel_bind; [by apply options_loop_same|].
  intros [[x1 k1] a1] [[x2 k2] a2] (Ex & Ea & Hk). cbn [fst snd] in *. subst x2 a2.
  split; [done|]. split; [|done]. cbn [snd]. by rewrite Hs, (same_token_equiv _ _ Hk).
Qed.

Lemma Leave_same fuel s1 s2 :
  s1 ≡ s2 → go_rel (λ r1 r2, r1.1 = r2.1 ∧ r1.2 ≡ r2.2) (Leave ack fuel s1) (Leave ack fuel s2).
Proof.
  intros Hs. assert (∀ b t1 t2, t1 ≡ t2 → go_rel (λ r1 r2, r1.1 = r2.1 ∧ r1.2 ≡ r2.2)
    (if b : bool then handleOptions ack fuel t1 else Ret (None, t1))
    (if b then handleOptions ack fuel t2 else Ret (None, t2))) as Hopt.
  { intros [|] t1 t2 Ht; [|done]. eapply go_rel_mono; [by apply handleOptions_same|]. intros r1 r2 (? & ? & _). done. }
  assert (∀ m, packed_of m s1 ≡ packed_of m s2) as Hp by (intros m; by rewrite Hs).
  unfold Leave. rewrite <- (mode_proper _ _ Hs).
  destruct (mode s1).
  - done.
  - unfold ForwardMode_Leave. assert (forwardMode (phase s1) = forwardMode (phase s2)) as <- by apply Hs. by apply Hopt.
  - unfold PackedForwardMode_Leave. destruct (Hp PackedForwardMode) as (Hi & <- & <-).
    destruct Hi as [it1 it2 Hi|]; [|done]. apply Hopt, set_packed_proper; [done| |reflexivity].
    apply set_pool_proper; [done|]. by apply iterPool_Put_same; [|apply t_iterPool_proper].
  - unfold CompressedPackedForwardMode_Leave. destruct (Hp CompressedPackedForwardMode) as (Hi & <- & <-).
    destruct Hi as [it1 it2 Hi|]; [|done]. apply Hopt, set_packed_proper; [done| |reflexivity].
    apply set_pool_proper; [done|]. by apply iterPool_Put_same; [|apply t_iterPool_proper].
Qed.

(** The iterators that an entry's record is read from are at the same token. *)
Definition handed s1 s2 e : Prop :=
  match e_Record e with
  | Some Orig => same_token (orig s1) (orig s2)
  | Some Inner => option_Forall2 same_token (p_iter (packed_of (mode s1) s1)) (p_iter (packed_of (mode s2) s2))
  | None => True
  end.

(** What cannot be told apart of two calls of [Next]. *)
Definition same_result (r1 r2 : option error * Session R I A * Entry) : Prop :=
  r1.1.1 = r2.1.1 ∧ r1.2 = r2.2 ∧ r1.1.2 ≡ r2.1.2 ∧ (r1.1.1 = None → handed r1.1.2 r2.1.2 r1.2).

Lemma same_error x s1 s2 e : s1 ≡ s2 → go_rel same_result (Ret (Some x, s1, e)) (Ret (Some x, s2, e)).
Proof. intros Hs. cbn. unfold same_result. by split_and!. Qed.

Section Step.
  Variable fuel : nat.
  Variable next : Session R I A → Entry → go (option error * Session R I A * Entry).
  Context (next_same : ∀ s1 s2 e, s1 ≡ s2 → go_rel same_result (next s1 e) (next s2 e)).

Lemma changeMode_same m s1 s2 e :
  s1 ≡ s2 → go_rel same_result (changeMode ack fuel next m s1 e) (changeMode ack fuel next m s2 e).
Proof.
  intros Hs. unfold changeMode. rewrite <- (mode_proper _ _ Hs). case_bool_decide; [by apply same_error|].
  eapply go_rel_bind; [by apply Leave_same|]. intros [x1 t1] [x2 t2] [Ex Ht]. cbn [fst snd] in *. subst x2.
  destruct x1 as [x|]; [by apply same_error|]. apply next_same. by rewrite Ht.
Qed.

Lemma MessageMode_Enter_same s1 s2 e :
  s1 ≡ s2 → go_rel same_result (MessageMode_Enter ack fuel next s1 e) (MessageMode_Enter ack fuel next s2 e).
Proof. intros Hs. apply changeMode_same. by rewrite Hs. Qed.

Lemma ForwardMode_Next_same s1 s2 e :
  s1 ≡ s2 → go_rel same_result (ForwardMode_Next ack fuel next s1 e) (ForwardMode_Next ack fuel next s2 e).
Proof.
  intros Hs. unfold ForwardMode_Next. assert (forwardMode (phase s1) = forwardMode (phase s2)) as <- by apply Hs.
  assert (set_orig s1 (Iter.Flush (orig s1)) ≡ set_orig s2 (Iter.Flush (orig s2))) as Ht by by rewrite Hs.
  revert Ht. generalize (set_orig s1 (Iter.Flush (orig s1))), (set_orig s2 (Iter.Flush (orig s2))). intros t1 t2 Ht.
  destruct (_ <=? 0); [by apply MessageMode_Enter_same|]. rewrite <- (mode_proper _ _ Ht).
  destruct (NextExpectedType_same (orig t1) (orig t2) [Types.Array] (orig_proper _ _ Ht)) as (E1 & E2 & E3).
  destruct (NextExpectedType (orig t1) _) as [x1 j1], (NextExpectedType (orig t2) _) as [x2 j2].
  cbn [fst snd] in *. subst x2. destruct x1 as [x|]; [apply same_error; by rewrite Ht, E2|].
  eapply go_rel_bind; [apply next_pair_same, E3; by left|].
  intros [[x1 k1] e1] [[x2 k2] e2] (Ex & Ee & Hk & Hk'). cbn [fst snd] in *. subst x2 e2.
  destruct x1 as [x|]; [apply same_error; by rewrite Ht, Hk|].
  destruct (Hk' eq_refl) as [Htok Er]. split; [done|]. split; [done|]. split; [cbn [fst snd]; by rewrite Ht, Hk|].
  intros _. unfold handed. cbn [fst snd]. by rewrite Er.
Qed.

Lemma Packed_Next_same m s1 s2 e :
  m = mode s1 → s1 ≡ s2 →
  go_rel same_result (Packed_Next ack fuel next m s1 e) (Packed_Next ack fuel next m s2 e).
Proof.
  intros Em Hs. unfold Packed_Next. assert (packed_of m s1 ≡ packed_of m s2) as (Hi & <- & <-) by by rewrite Hs.
  destruct Hi as [it1 it2 Hi|]; [|done].
  assert (∀ k1 k2, k1 ≡ k2 → set_packed m s1 (mkPacked (Some k1) (p_tag (packed_of m s1)) (p_hasOptions (packed_of m s1)))
    ≡ set_packed m s2 (mkPacked (Some k2) (p_tag (packed_of m s1)) (p_hasOptions (packed_of m s1)))) as Hset.
  { intros k1 k2 Hk. apply set_packed_proper; [done|done|]. split; [by constructor|done]. }
  assert (Iter.Flush it1 ≡ Iter.Flush it2) as Hf by by apply Iter_Flush_proper.
  destruct (NextExpectedType_same _ _ [Types.Array] Hf) as (E1 & E2 & E3).
  destruct (NextExpectedType (Iter.Flush it1) _) as [x1 j1], (NextExpectedType (Iter.Flush it2) _) as [x2 j2].
  cbn [fst snd] in *. subst x2. destruct x1 as [x|].
  - pose proof (Hset j1 j2 E2) as Hj. destruct (is_EOF x); [|by apply same_error].
    apply MessageMode_Enter_same. apply set_orig_proper; [done|]. exact (lender_proper (it_r j1) (it_r j2) E2).
  - eapply go_rel_bind; [apply next_pair_same, E3; by left|].
    intros [[x1 k1] e1] [[x2 k2] e2] (Ex & Ee & Hk & Hk'). cbn [fst snd] in *. subst x2 e2.
    split; [done|]. split; [done|]. split; [by apply Hset|]. cbn [fst snd]. intros ->.
    destruct (Hk' eq_refl) as [Htok Er]. unfold handed. rewrite Er.
    rewrite !set_packed_mode, <- (mode_proper _ _ Hs), <- Em, !packed_of_set. by constructor.
Qed.

Lemma isGzip_same (l1 l2 : L) :
  l1 ≡ l2 → go_rel (λ r1 r2, r1.1 = r2.1 ∧ r1.2 ≡ r2.2) (isGzip l1) (isGzip l2).
Proof.
  intros Hl. unfold isGzip. destruct (Peek_same (R := R) (I := I) l1 l2 3 Hl) as (E1 & E2 & E3).
  destruct (Peek l1 3) as [[b1 x1] k1], (Peek l2 3) as [[b2 x2] k2]. cbn [fst snd] in *. subst x2.
  destruct x1 as [x|]; [done|]. rewrite !(index_live b1 b2) by done.
  destruct (index b2 2); [|done]. destruct (index b2 0); [|done]. by destruct (index b2 1).
Qed.

(** A packed mode is entered with an iterator of the pool. *)
Lemma enter_packed_same m t1 t2 e (l1 l2 : L) o :
  t1 ≡ t2 → l1 ≡ l2 →
  go_rel same_result
    (let '(it, p) := iterPool_Get l1 (t_iterPool (phase t1)) in
     changeMode ack fuel next m (set_packed m (set_pool t1 p) (mkPacked (Some it) (e_Tag e) o)) e)
    (let '(it, p) := iterPool_Get l2 (t_iterPool (phase t2)) in
     changeMode ack fuel next m (set_packed m (set_pool t2 p) (mkPacked (Some it) (e_Tag e) o)) e).
Proof.
  intros Ht Hl. destruct (iterPool_Get_same l1 l2 _ _ Hl (t_iterPool_proper _ _ Ht)) as [Hi Hp].
  destruct (iterPool_Get l1 _) as [i1 p1], (iterPool_Get l2 _) as [i2 p2]. cbn [fst snd] in Hi, Hp.
  apply changeMode_same, set_packed_proper; [done|by apply set_pool_proper|]. split; [by constructor|done].
Qed.

Lemma single_entry_same n s1 s2 it1 it2 e :
  s1 ≡ s2 → same_token it1 it2 →
  go_rel same_result (single_entry ack fuel n s1 it1 e) (single_entry ack fuel n s2 it2 e).
Proof.
  intros Hs Hit. unfold single_entry. rewrite <- (mode_proper _ _ Hs).
  eapply go_rel_bind; [by apply Timestamp_same|]. intros [t n1] [t2 n2] [Et Hn]. cbn [fst snd] in *. subst t2.
  destruct (NextExpectedType_same n1 n2 [Types.Map] (same_token_equiv _ _ Hn)) as (E13 & E14 & E15).
  destruct (NextExpectedType n1 _) as [x1 o1], (NextExpectedType n2 _) as [x2 o2]. cbn [fst snd] in *. subst x2.
  assert (set_orig s1 o1 ≡ set_orig s2 o2) as Ho by by rewrite Hs, E14.
  destruct x1 as [x|]; [by apply same_error|]. specialize (E15 (or_introl eq_refl)). cbv zeta. destruct (_ =? 4).
  - eapply go_rel_bind; [by apply handleOptions_same|]. intros [x1 u1] [x2 u2] (Ex & Hu & Hu'). cbn [fst snd] in *.
    subst x2.
    split; [done|]. split; [done|]. split; [done|]. exact Hu'.
  - split; [done|]. split; [done|]. by split.
Qed.

Lemma packed_entries_same n s1 s2 it1 it2 e :
  s1 ≡ s2 → same_token it1 it2 →
  go_rel same_result (packed_entries ack fuel next n s1 it1 e) (packed_entries ack fuel next n s2 it2 e).
Proof.
  intros Hs Hit. unfold packed_entries. rewrite <- (mode_proper _ _ Hs). pose proof (same_token_equiv _ _ Hit) as E12.
  assert (it_length it1 = it_length it2) as <- by apply Hit.
  assert (LimitReader (L := L) (I := I) (it_r it1) (it_length it1) ≡ LimitReader (it_r it2) (it_length it1)) as Hl
    by exact (LimitReader_proper (it_r it1) (it_r it2) E12 _ _ eq_refl).
  eapply go_rel_bind; [by apply isGzip_same|]. intros [[g1 x1] l1] [[g2 x2] l2] [Eg El]. cbn [fst snd] in Eg, El.
  injection Eg as <- <-. destruct x1 as [x|].
  { apply same_error, set_orig_proper; [done|]. exact (limit_ring_proper (R := R) (I := I) l1 l2 El). }
  pose proof (limit_SetManualFlush_proper (R := R) (I := I) l1 l2 El false false eq_refl) as Ef.
  assert (set_orig (set_orig s1 it1) (Iter.SetManualFlush it1 false) ≡
    set_orig (set_orig s2 it2) (Iter.SetManualFlush it2 false)) as Ht.
  { apply set_orig_proper; [by rewrite Hs, E12|by apply Iter_SetManualFlush_proper]. }
  destruct (g1 : bool); [|by apply enter_packed_same].
  unfold CompressedPackedForwardMode_Enter. destruct (gzip_Get_same (R := R) (I := I) _ _ Ef) as [Ex Ei].
  destruct (gzip_Get (limit_SetManualFlush l1 false)) as [x1 r1], (gzip_Get (limit_SetManualFlush l2 false)) as [x2 r2].
  cbn [fst snd] in Ex, Ei. subst x2. destruct x1 as [x|]; [|by apply enter_packed_same].
  apply same_error, set_orig_proper; [done|]. exact (limit_ring_proper (R := R) (I := I) r1 r2 Ei).
Qed.

Lemma MessageMode_Next_same s1 s2 e :
  s1 ≡ s2 → go_rel same_result (MessageMode_Next ack fuel next s1 e) (MessageMode_Next ack fuel next s2 e).
Proof.
  intros Hs. unfold MessageMode_Next. rewrite <- (mode_proper _ _ Hs).
  assert (Iter.Flush (orig s1) ≡ Iter.Flush (orig s2)) as Hf by by rewrite Hs.
  assert (∀ x j1 j2 e, j1 ≡ j2 → go_rel same_result (Ret (Some x, set_orig s1 j1, e)) (Ret (Some x, set_orig s2 j2, e))) as Herr.
  { intros x j1 j2 e' Hj. apply same_error. by rewrite Hs, Hj. }
  destruct (NextExpectedType_same _ _ [Types.Array] Hf) as (E1 & E2 & E3).
  destruct (NextExpectedType (Iter.Flush (orig s1)) _) as [x1 i1], (NextExpectedType (Iter.Flush (orig s2)) _) as [x2 i2].
  cbn [fst snd] in *. subst x2. destruct x1 as [x|]; [by apply Herr|]. specialize (E3 (or_introl eq_refl)).
  assert (it_items i1 = it_items i2) as <- by apply E3. destruct (_ || _); [by apply Herr|].
  destruct (NextExpectedType_same i1 i2 [Types.Str] E2) as (E4 & E5 & E6).
  destruct (NextExpectedType i1 _) as [x1 j1], (NextExpectedType i2 _) as [x2 j2].
  cbn [fst snd] in *. subst x2. destruct x1 as [x|]; [by apply Herr|]. specialize (E6 (or_introl eq_refl)).
  assert (it_length j1 = it_length j2) as <- by apply E6.
  destruct (_ <? minTagLen); [by apply Herr|]. destruct (maxTagLen <? _); [by apply Herr|].
  destruct (Str_same j1 j2 E6) as [E7 E8].
  destruct (Iter.Str j1) as [t1 k1], (Iter.Str j2) as [t2 k2]. cbn [fst snd] in *. subst t2.
  destruct (Next_same k1 k2 (same_token_equiv _ _ E8)) as (E9 & _ & E10 & E11). specialize (E11 (or_intror E8)).
  destruct (Iter.Next k1) as [b1 m1], (Iter.Next k2) as [b2 m2]. cbn [fst snd] in *. subst b2.
  pose proof (same_token_equiv _ _ E11) as E12.
  destruct b1; cbn [negb]; [|rewrite <- E10; by apply Herr]. assert (it_typ m1 = it_typ m2) as <- by apply E11.
  destruct (it_typ m1); try (by apply Herr); try by apply single_entry_same.
  - by apply packed_entries_same.
  - assert (it_items m1 = it_items m2) as <- by apply E11. apply changeMode_same, set_forward_proper; [|done].
    apply set_orig_proper; [by apply set_orig_proper|]. exact (SetManualFlush_proper (it_r m1) (it_r m2) E12 _ _ eq_refl).
Qed.

End Step.

Lemma Next_same_result fuel : ∀ s1 s2 e, s1 ≡ s2 → go_rel same_result (Transport.Next ack fuel s1 e) (Transport.Next ack fuel s2 e).
Proof.
  induction fuel as [|fuel IH]; intros s1 s2 e Hs; [done|]. cbn [Transport.Next].
  pose proof (Packed_Next_same fuel _ IH (mode s1) s1 s2 e eq_refl Hs) as Hp.
  rewrite <- (mode_proper _ _ Hs) in *. destruct (mode s1).
  - by apply MessageMode_Next_same.
  - by apply ForwardMode_Next_same.
  - exact Hp.
  - exact Hp.
Qed.

End Phase.

(** ** iter_pool.go *)

Section IterPool.
  Context {X S : Type} `{!RingOps X}.
  (** [ringbuf.NewReader], and [Reset] of a ring reader: its source may be nil *)
  Variable NewReader : S → X.
  Variable ResetReader : X → option S → X.

Definition Iter_Reset (it : Iterator X) (src : option S) : Iterator X :=
  with_reader it (ResetReader (it_r it) src).

(** An iterator of the pool is changed in place. *)
Definition update (f : Iterator X → Iterator X) (h : nat) (p : Pool (Iterator X)) : Pool (Iterator X) :=
  match deref p h with Some it => assign h (f it) p | None => p end.

Definition IterPool_Get (pick : option nat) (src : S) (p : Pool (Iterator X)) : nat * Pool (Iterator X) :=
  match take_free pick p with
  | Some (h, p) => (h, update (λ it, Iter_Reset it (Some src)) h p)
  | None => alloc (NewIterator (NewReader src)) p
  end.

Definition IterPool_Put (h : nat) (p : Pool (Iterator X)) : Pool (Iterator X) :=
  Pool.Put h (update (λ it, Iter_Reset it None) h p).

Lemma owned_update f h (p : Pool (Iterator X)) hs : owned p hs → owned (update f h p) hs.
Proof. intros H. unfold update. destruct (deref p h); [by apply owned_assign|done]. Qed.

Lemma deref_update_ne f h h' (p : Pool (Iterator X)) : h ≠ h' → deref (update f h p) h' = deref p h'.
Proof. intros Hne. unfold update. destruct (deref p h); [by apply deref_assign_ne|done]. Qed.

Lemma deref_update f h (p : Pool (Iterator X)) hs it :
  owned p hs → h ∈ hs → deref p h = Some it → deref (update f h p) h = Some (f it).
Proof. intros Ho Hh E. unfold update. rewrite E. by rewrite (deref_assign p hs). Qed.

Lemma IterPool_Put_owned h (p : Pool (Iterator X)) hs : owned p (h :: hs) → owned (IterPool_Put h p) hs.
Proof. intros H. by apply owned_Put, owned_update. Qed.

Lemma IterPool_Put_deref h h' (p : Pool (Iterator X)) : h ≠ h' → deref (IterPool_Put h p) h' = deref p h'.
Proof. intros Hne. change (deref (update (λ it, Iter_Reset it None) h p) h' = deref p h'). by apply deref_update_ne. Qed.

Lemma IterPool_Get_owned pick src (p : Pool (Iterator X)) hs h p' :
  owned p hs → IterPool_Get pick src p = (h, p') →
  owned p' (h :: hs) ∧ (h ∉ hs) ∧ (∀ h', h' ∈ hs → deref p' h' = deref p h') ∧
  (deref p' h = Some (NewIterator (NewReader src)) ∨
   ∃ it, deref p h = Some it ∧ deref p' h = Some (Iter_Reset it (Some src))).
Proof.
  intros Ho. unfold IterPool_Get. destruct (take_free pick p) as [[h0 p0]|] eqn:E.
  - intros [= -> <-]. destruct (owned_take_free p hs pick h p0 Ho E) as (H1 & H2 & H3 & H4).
    split_and!; [by apply owned_update|done| |].
    + intros h' Hh'. rewrite deref_update_ne by (intros ->; done). unfold deref. by rewrite H4.
    + right. destruct (owned_deref p0 (h :: hs) h H1 ltac:(by left)) as [it Hit]. exists it.
      split; [unfold deref in *; by rewrite <- H4|]. exact (deref_update (λ it, Iter_Reset it (Some src)) h p0 (h :: hs) it H1 ltac:(by left) Hit).
  - destruct (owned_alloc p hs (NewIterator (NewReader src)) Ho) as [H1 H2]. intros [= <- <-].
    assert (length (objects p) ∉ hs) as Hn by (intros Hin; apply H2, elem_of_app; by right).
    split_and!; [exact H1|done| |].
    + intros h' Hh'. unfold deref. cbn. apply lookup_app_l, (owned_valid_elem p hs); done.
    + left. unfold deref. cbn. by rewrite list_lookup_middle.
Qed.

End IterPool.

(** ** Equal rings

    With equality for [≡] of rings, two iterators are related if they have the same ring,
    and sessions if they differ in nothing but left-over fields of their iterators and
    of those in the pool. *)

Section Pooled.
  Context {R L I A S : Type} `{!RingOps R, !RingOps I, !NestedOps R L I, !RewindOps R, !RewindOps I}.
  Variable ack : list Z → A → option error * A.
  Variable NewReader : S → R.
  Variable ResetReader : R → option S → R.

#[local] Instance same_ring : Equiv R := (=).
#[local] Instance same_reader : Equiv L := (=).
#[local] Instance same_inner : Equiv I := (=).

#[local] Instance equal_rings {X} `{!RingOps X} : @RingSetoid X _ (=).
Proof.
  split.
  - exact eq_equivalence.
  - intros r1 r2 E. by rewrite (E : r1 = r2).
  - intros r1 r2 n E. by rewrite (E : r1 = r2).
  - intros r1 r2 E n ? <-. by rewrite (E : r1 = r2).
  - intros r1 r2 E. by rewrite (E : r1 = r2).
  - intros r1 r2 E v ? <-. by rewrite (E : r1 = r2).
Qed.

#[local] Instance equal_nested : NestedSetoid R L I.
Proof.
  split.
  - intros r1 r2 E n ? <-. by rewrite (E : r1 = r2).
  - intros l1 l2 E. by rewrite (E : l1 = l2).
  - intros l1 l2 E v ? <-. by rewrite (E : l1 = l2).
  - intros l1 l2 n E. by rewrite (E : l1 = l2).
  - intros l1 l2 E. by rewrite (E : l1 = l2).
  - intros l1 l2 E. by rewrite (E : l1 = l2).
  - intros i1 i2 Ei l1 l2 E. by rewrite (E : l1 = l2), (Ei : i1 = i2).
  - intros i1 i2 E. by rewrite (E : i1 = i2).
  - intros i1 i2 E. by rewrite (E : i1 = i2).
Qed.

Lemma Rewind_same (s1 s2 : Session R I A) : s1 ≡ s2 → go_rel (≡) (Rewind s1) (Rewind s2).
Proof.
  intros Hs. assert (∀ X (it1 it2 : Iterator X) `{!RewindOps X}, it_r it1 = it_r it2 → it_r (Iter_Rewind it1) = it_r (Iter_Rewind it2)) as Hr.
  { intros X it1 it2 HX E. cbn. by rewrite E. }
  assert (∀ m, go_rel (≡) (Packed_Rewind m s1) (Packed_Rewind m s2)) as Hp.
  { intros m. unfold Packed_Rewind. destruct (packed_of_proper m m eq_refl _ _ Hs) as (Hi & <- & <-).
    destruct Hi as [it1 it2 Hi|]; [|done]. apply set_packed_proper; [done|done|].
    split; [constructor; by apply (Hr I)|done]. }
  unfold Rewind. rewrite <- (mode_proper _ _ Hs). destruct (mode s1); try apply Hp;
    (apply set_orig_proper; [done|]; by apply (Hr R), orig_proper).
Qed.

(** C17: Of an iterator that has been used before nothing can be seen but its ring.  The
    pool gives out an iterator that nobody else has; its ring is that of a new iterator
    or the old one, reset to the new source, and whatever error and token the iterator
    has left over, a session over it behaves as over any other iterator with that ring:
    sessions that differ only in such leftovers, those of the iterators of packed
    messages and of the pool included, get the same errors and entries from [Next] and
    records at the same token, and differ only so again after [Next] and [Rewind]. *)
Theorem pooled_leftovers pick src (p : Pool (Iterator R)) hs h p' :
  owned p hs → IterPool_Get NewReader ResetReader pick src p = (h, p') →
  owned p' (h :: hs) ∧ (h ∉ hs) ∧ (∀ h', h' ∈ hs → deref p' h' = deref p h') ∧
  ∃ it, deref p' h = Some it ∧
    (it_r it = RingBuf.SetManualFlush (NewReader src) true ∨
     ∃ it0, deref p h = Some it0 ∧ it_r it = ResetReader (it_r it0) (Some src)) ∧
    (∀ (it' : Iterator R) (a : A), it_r it' = it_r it → Init (I := I) it a ≡ Init it' a) ∧
    ∀ s1 s2 : Session R I A, s1 ≡ s2 →
      (∀ fuel e, go_rel same_result (Transport.Next ack fuel s1 e) (Transport.Next ack fuel s2 e)) ∧
      go_rel (≡) (Rewind s1) (Rewind s2).
Proof.
  intros Ho E. destruct (IterPool_Get_owned NewReader ResetReader pick src p hs h p' Ho E) as (H1 & H2 & H3 & H4).
  split; [done|]. split; [done|]. split; [done|].
  assert (∀ (it it' : Iterator R) (a : A), it_r it' = it_r it → Init (I := I) it a ≡ Init it' a) as HI.
  { intros it it' a Er. by split_and!. }
  assert (∀ s1 s2 : Session R I A, s1 ≡ s2 →
    (∀ fuel e, go_rel same_result (Transport.Next ack fuel s1 e) (Transport.Next ack fuel s2 e)) ∧
    go_rel (≡) (Rewind s1) (Rewind s2)) as HN.
  { intros s1 s2 Hs. split; [intros fuel e; by apply Next_same_result|by apply Rewind_same]. }
  destruct H4 as [H4|(it0 & Hit0 & H4)]; (eexists; split; [exact H4|]; split; [|split; [apply HI|exact HN]]).
  - by left.
  - right. by exists it0.
Qed.

End Pooled.

(** ** Witness: a pool with an iterator that has failed in the middle of a token *)

Definition reader0 (bs : list Z) : list_ring := mkListRing bs false.
(** [Reset] keeps the way of flushing. *)
Definition reset0 (r : list_ring) (bs : option (list Z)) : list_ring := mkListRing (default [] bs) (manual_flush r).

Definition pool0 : Pool (Iterator list_ring) :=
  mkPool [mkIterator (mkListRing [] false) (Some ErrUnexpectedEOF) 7 3 0xdb Types.Str] [0%nat].

Definition snap_reader0 (bs : list Z) : snap list_ring := unmarked (reader0 bs) false.
Definition snap_reset0 (r : snap list_ring) (bs : option (list Z)) : snap list_ring :=
  unmarked (reset0 (cur r) bs) (is_manual r).

Definition snap_pool0 : Pool (Iterator (snap list_ring)) :=
  mkPool [mkIterator (unmarked (mkListRing [] false) false) (Some ErrUnexpectedEOF) 7 3 0xdb Types.Str] [0%nat].

(** A session over the iterator that the pool gives out, and one over a clean iterator with
    the same ring.  It flushes automatically, as it did before. *)
Definition used0 : Session (snap list_ring) (snap list_inner) (list (list Z)) :=
  Init (mkIterator (unmarked (mkListRing message0 false) false) (Some ErrUnexpectedEOF) 7 3 0xdb Types.Str) [].
Definition clean0 : Session (snap list_ring) (snap list_inner) (list (list Z)) :=
  Init (mkIterator (unmarked (mkListRing message0 false) false) None 0 0 0 Types.Nil) [].

Definition used1 := Eval vm_compute in Transport.Next ack0 50 used0 entry0.
Definition clean1 := Eval vm_compute in Transport.Next ack0 50 clean0 entry0.
Lemma used0_result : Transport.Next ack0 50 used0 entry0 = used1.
Proof. vm_compute. reflexivity. Qed.
Lemma clean0_result : Transport.Next ack0 50 clean0 entry0 = clean1.
Proof. vm_compute. reflexivity. Qed.

Lemma pooled_leftovers_witness : ∃ p',
  IterPool_Get snap_reader0 snap_reset0 (Some 0%nat) message0 snap_pool0 = (0%nat, p') ∧
  deref p' 0 = Some (orig used0) ∧
  ∃ s1 s2 e, Transport.Next ack0 50 used0 entry0 = Ret (None, s1, e) ∧
    Transport.Next ack0 50 clean0 entry0 = Ret (None, s2, e) ∧ it_r (orig s1) = it_r (orig s2).
Proof.
  eexists. split; [reflexivity|]. split; [reflexivity|].
  destruct (pooled_leftovers (R := snap list_ring) (L := list_limit * bool) (I := snap list_inner)
    ack0 snap_reader0 snap_reset0 (Some 0%nat) message0 snap_pool0 [] 0 _
    ltac:(split; [apply NoDup_singleton|repeat constructor]) eq_refl) as (_ & _ & _ & it & Hit & _ & HI & HN).
  assert (it = orig used0) as -> by (injection Hit; done).
  pose proof (proj1 (HN used0 clean0 (HI (orig clean0) [] eq_refl)) 50%nat entry0) as H. clear HI HN Hit.
  rewrite used0_result, clean0_result in H. destruct H as (_ & _ & Hs & _).
  eexists _, _, _. split; [exact used0_result|]. split; [exact clean0_result|]. apply Hs.
Defined.
