(* ===== verification/Ascii.v ===== *)
(** * Ascii: printing a stream of messages (forward/ascii_formatter.go)

    The formatter reads every message it is given through the transport phase and
    prints a line per entry: the time, the tag and the fields.  [Write_prints] is
    the end of the chain: what was encoded as a stream of messages, in any modes,
    comes out as the lines of its entries.

    The writer is a parameter, as is the format of a time.  The formatter's own
    buffer is reused from call to call only to save allocations. *)

From stdpp Require Import sets.
From S2P Require Import Prelude Types Errors Integer Headers Str Timestamp Object Strconv RingBuf Iter.
From S2P Require Import Transport.

(** [ResetBytes] of a ring reader: it will deliver the bytes [p]. *)
Class ResetOps (R : Type) := { ResetBytes : R → list Z → R }.

Class ResetLaws (R : Type) `{RingLaws R, !ResetOps R} := {
  ResetBytes_delivers r p : delivers (ResetBytes r p) p
}.

Section Ascii.
  Context {R L I W : Type} `{!RingOps R, !RingOps I, !NestedOps R L I, !ResetOps R}.
  (** [t.AppendFormat(b, "2006-01-02 15:04:05 MST")] in the local zone *)
  Variable format_time : Time → list Z.
  (** [w.Write(b)] *)
  Variable w_Write : list Z → W → option error * W.

Record AsciiFormatter := mkAsciiFormatter { a_w : W; a_trans : Session R I unit }.

(** The acknowledgement does nothing. *)
Definition no_ack (chunk : list Z) (a : unit) : option error * unit := (None, a).

Definition NewAsciiFormatter (w : W) (r : R) : AsciiFormatter :=
  mkAsciiFormatter w (Init (NewIterator r) tt).

(** The loop over the fields of a record. *)
Fixpoint write_fields {X} `{!RingOps X} (fuel k : nat) (it : Iterator X) (b : list Z) :
    go ((option error + list Z) * Iterator X) :=
  match k with
  | O => Ret (inr b, it)
  | S k =>
    let '(ok, it) := Iter.Next it in
    if negb ok then Ret (inl (it_err it), it) else
    let '(key, it) := Iter.Str it in
    let '(ok, it) := Iter.Next it in
    if negb ok then Ret (inl (it_err it), it) else
    let b := ((b ++ [32]) ++ key) ++ [61] in
    '(b, _, it) ← AppendText format_time fuel b it;
    write_fields fuel k it b
  end.

(** The same on the iterator that the entry names. *)
Definition write_record (fuel : nat) (e : Entry) (s : Session R I unit) (b : list Z) :
    go ((option error + list Z) * Session R I unit) :=
  match e_Record e with
  | None => Panic NilPointer
  | Some Orig =>
    '(r, it) ← write_fields fuel (Z.to_nat (it_items (orig s))) (orig s) b;
    Ret (r, set_orig s it)
  | Some Inner =>
    match p_iter (packed_of (mode s) s) with
    | None => Panic NilPointer
    | Some it =>
      '(r, it) ← write_fields fuel (Z.to_nat (it_items it)) it b;
      Ret (r, set_inner s it)
    end
  end.

(** The loop over the entries; [n] is [len(p)]. *)
Fixpoint write_loop (fuel k : nat) (n : Z) (a : AsciiFormatter) (e : Entry) :
    go (Z * option error * AsciiFormatter) :=
  match k with
  | O => Panic OutOfFuel
  | S k =>
    '(err, s, e) ← Transport.Next no_ack fuel (a_trans a) e;
    match err with
    | Some x =>
      if is_EOF x then Ret (n, None, mkAsciiFormatter (a_w a) s)
      else Ret (0, Some x, mkAsciiFormatter (a_w a) s)
    | None =>
      let b := format_time (e_Timestamp e) in
      let b := b ++ [32] in
      let b := b ++ e_Tag e in
      '(r, s) ← write_record fuel e s b;
      match r with
      | inl err => Ret (0, err, mkAsciiFormatter (a_w a) s)
      | inr b =>
        let b := b ++ [10] in
        let '(err, w) := w_Write b (a_w a) in
        match err with
        | Some _ => Ret (0, err, mkAsciiFormatter w s)
        | None => write_loop fuel k n (mkAsciiFormatter w s) e
        end
      end
    end
  end.

Definition Write (fuel : nat) (a : AsciiFormatter) (p : list Z) : go (Z * option error * AsciiFormatter) :=
  let s := a_trans a in
  let it := with_reader (orig s) (ResetBytes (it_r (orig s)) p) in
  write_loop fuel fuel (lenZ p) (mkAsciiFormatter (a_w a) (set_orig s it)) (mkEntry [] zeroTime None).

(** The line of an entry. *)
Definition line (ev : event) : list Z :=
  format_time (ev_time ev) ++ [32] ++ ev_tag ev ++
  flat_map (λ f, [32] ++ f.1 ++ [61] ++ text format_time f.2) (ev_fields ev) ++ [10].

End Ascii.
Arguments AsciiFormatter : clear implicits.

(** ** Reading a record *)

Section Record.
  Context `{RingLaws X} (format_time : Time → list Z).

Lemma write_fields_ok fuel fs : ∀ bss (it : Iterator X) b rest,
  Forall2 encodes (flatten (map (λ f, (OScalar (SStr f.1), f.2)) fs)) bss →
  (length (concat bss) < fuel)%nat → delivers (it_r it) (concat bss ++ rest) →
  ∃ it', write_fields format_time fuel (length fs) it b =
      Ret (inr (b ++ flat_map (λ f, [32] ++ f.1 ++ [61] ++ text format_time f.2) fs), it') ∧
    delivers (it_r it') rest.
Proof.
  induction fs as [|[k v] fs IH]; intros bss it b rest H2 Hf Hd.
  { inversion H2; subst. exists it. by rewrite app_nil_r. }
  unfold flatten in H2. cbn [map flat_map app fst snd] in H2.
  apply Forall2_cons_inv_l in H2 as (kb & bss1 & Hk & H2 & ->).
  apply Forall2_cons_inv_l in H2 as (vb & bss2 & Hv & H2 & ->).
  cbn [concat] in Hd, Hf. rewrite <- !app_assoc in Hd. rewrite !length_app in Hf.
  destruct (Str_token it k kb _ Hd Hk) as (it1 & it2 & EN & _ & _ & Es & Hd2).
  cbn [length write_fields]. rewrite EN. cbn [negb]. rewrite Es.
  destruct (AppendText_encodes format_time v vb fuel Hv ltac:(lia) it2 (((b ++ [32]) ++ k) ++ [61]) _ Hd2)
    as (it3 & it4 & e & EN3 & ET & Hd4).
  rewrite EN3. cbn [negb]. rewrite ET. go_simpl.
  destruct (IH bss2 it4 ((((b ++ [32]) ++ k) ++ [61]) ++ text format_time v) rest H2 ltac:(lia) Hd4)
    as (it' & -> & Hd').
  exists it'. split; [|done]. cbn [flat_map fst snd]. by rewrite <- !app_assoc.
Qed.

Lemma at_record_ok fuel (it : Iterator X) fs k P b :
  at_record it fs k P → (k < fuel)%nat →
  ∃ it', write_fields format_time fuel (Z.to_nat (it_items it)) it b =
      Ret (inr (b ++ flat_map (λ f, [32] ++ f.1 ++ [61] ++ text format_time f.2) fs), it') ∧ P it'.
Proof.
  intros (bss & rest & Ei & <- & H2 & Hd & HP) Hf. rewrite Ei. unfold lenZ. rewrite Nat2Z.id.
  destruct (write_fields_ok fuel fs bss it b rest H2 Hf Hd) as (it' & -> & Hd'). exists it'.
  split; [done|by apply HP].
Qed.

End Record.

Section Print.
  Context {R L I W : Type} `{!RingOps R, !RingOps I, !NestedOps R L I, !ResetOps R}.
  Context `{!RingLaws R, !ResetLaws R, !NestedLaws R L I}.
  Context (format_time : Time → list Z) (w_Write : list Z → W → option error * W).
  Context (w_ok : ∀ b w, (w_Write b w).1 = None).

(** The writer after some lines. *)
Definition printed (w : W) (evs : list event) : W :=
  fold_left (λ w ev, (w_Write (line format_time ev) w).2) evs w.

Lemma write_record_ok fuel (s : Session R I unit) e rec ev evs cs n b :
  e_Record e = Some rec → reading s rec (ev_fields ev) evs cs n → (n < fuel)%nat →
  ∃ s' m, write_record format_time fuel e s b =
      Ret (inr (b ++ flat_map (λ f, [32] ++ f.1 ++ [61] ++ text format_time f.2) (ev_fields ev)), s') ∧
    ready s' evs cs m ∧ (m ≤ n)%nat.
Proof.
  intros He (k & m & Hkm & Hr) Hf. unfold write_record. rewrite He. destruct rec.
  - destruct (at_record_ok format_time fuel (orig s) _ k _ b Hr ltac:(lia)) as (it' & -> & HP).
    go_simpl. exists (set_orig s it'), m. by split_and!; [| |lia].
  - destruct Hr as (it & rest & Hm & -> & Hr).
    destruct (@at_record_ok I _ (nested rest) format_time fuel it _ k _ b Hr ltac:(lia)) as (it' & -> & HP).
    go_simpl. exists (set_inner s it'), m. by split_and!; [| |lia].
Qed.

Lemma write_loop_ok fuel n : ∀ k evs (a : AsciiFormatter R I W) e cs m,
  ready (a_trans a) evs cs m → (m + 2 < fuel)%nat → (m < k)%nat →
  ∃ s, write_loop format_time w_Write fuel k n a e =
      Ret (n, None, mkAsciiFormatter (printed (a_w a) evs) s) ∧ mode s = MessageMode.
Proof.
  intros k. induction k as [|k IH]; intros evs a e cs m Hr Hf Hk; [lia|].
  pose proof (Next_ready no_ack fuel (a_trans a) e evs cs m Hr
    (acks_ok_always no_ack _ _ (λ _ _, eq_refl)) ltac:(destruct (bool_decide _); lia)) as Ho.
  cbn [write_loop]. destruct evs as [|ev evs].
  - destruct Ho as (s' & e' & -> & _ & Hm). go_simpl. by exists s'.
  - destruct Ho as (s' & rec & c1 & c2 & n' & -> & _ & _ & Hrd & Hn'). go_simpl.
    destruct (write_record_ok fuel s' (mkEntry (ev_tag ev) (ev_time ev) (Some rec)) rec ev evs c2 n'
      ((format_time (ev_time ev) ++ [32]) ++ ev_tag ev) eq_refl Hrd ltac:(lia)) as (s2 & m2 & E2 & Hr2 & Hm2).
    cbn [e_Timestamp e_Tag]. rewrite E2. go_simpl.
    pose proof (w_ok (line format_time ev) (a_w a)) as Hw.
    assert ((((format_time (ev_time ev) ++ [32]) ++ ev_tag ev) ++
      flat_map (λ f, [32] ++ f.1 ++ [61] ++ text format_time f.2) (ev_fields ev)) ++ [10] =
      line format_time ev) as -> by (unfold line; by rewrite <- !app_assoc).
    destruct (w_Write (line format_time ev) (a_w a)) as [err w] eqn:Ew. cbn in Hw. subst err.
    destruct (IH evs (mkAsciiFormatter w s2) (mkEntry (ev_tag ev) (ev_time ev) (Some rec)) c2 m2 Hr2
      ltac:(lia) ltac:(lia)) as (s3 & -> & Hm3).
    exists s3. split; [|done]. do 2 f_equal. f_equal. unfold printed. cbn [fold_left]. by rewrite Ew.
Qed.

Lemma Write_lines fuel (a : AsciiFormatter R I W) evs cs bs z :
  mode (a_trans a) = MessageMode → stream gunzips evs cs bs z → (length bs + z + 2 < fuel)%nat →
  ∃ s, Write format_time w_Write fuel a bs =
      Ret (lenZ bs, None, mkAsciiFormatter (printed (a_w a) evs) s) ∧ mode s = MessageMode.
Proof.
  intros Hm Hst Hf. unfold Write. set (a1 := mkAsciiFormatter (a_w a) _).
  assert (ready (a_trans a1) evs cs (length bs + z)) as Hr.
  { apply ready_message; [done|done|]. apply ResetBytes_delivers. }
  apply (write_loop_ok fuel (lenZ bs) fuel evs a1 _ cs _ Hr); lia.
Qed.

(** The formatter prints the entries of a stream of messages: given the bytes of
    any stream, in any mix of modes, [Write] writes the line of each entry, in
    order, and returns the number of bytes it was given.  The fuel needed is the
    number of those bytes, and of those that they decompress to, plus three. *)
Theorem Write_prints fuel (a : AsciiFormatter R I W) evs cs bs z :
  mode (a_trans a) = MessageMode → stream gunzips evs cs bs z → (length bs + z + 2 < fuel)%nat →
  ∃ s, Write format_time w_Write fuel a bs =
      Ret (lenZ bs, None, mkAsciiFormatter (printed (a_w a) evs) s) ∧ mode s = MessageMode.
Proof. by apply Write_lines. Qed.

End Print.

(** ** Witnesses *)

#[export] Instance list_reset_ops : ResetOps list_ring := {
  ResetBytes r p := mkListRing p (manual_flush r)
}.

#[export] Program Instance list_reset_laws : ResetLaws list_ring.
Next Obligation. done. Qed.

Definition w_Write0 (b w : list Z) : option error * list Z := (None, w ++ b).
Definition format0 (t : Time) : list Z := FormatInt (unix t).

Definition ascii0 : AsciiFormatter list_ring list_inner (list Z) :=
  NewAsciiFormatter [] (mkListRing [] false).

(** The output on the stream of Transport: four entries of three messages. *)
Lemma Write_prints_witness : ∃ s,
  Write format0 w_Write0 300 ascii0 (message0 ++ forward0 ++ compressed0) =
    Ret (lenZ (message0 ++ forward0 ++ compressed0), None,
      mkAsciiFormatter (concat (replicate 4 (str "5 app k=true" ++ [10]))) s) ∧ mode s = MessageMode.
Proof.
  refine (Write_prints format0 w_Write0 (λ _ _, eq_refl) 300 ascii0
    [event0; event0; event0; event0] [str "c1"] _ size0 eq_refl stream0 _).
  by apply Nat.ltb_lt.
Defined.
