(* ===== verification/Sha512.v ===== *)
(** * Sha512: the hash function of crypto/sha512

    SHA-512 as FIPS 180-4 defines it, on words of 64 bits: the message is padded to
    blocks of 128 bytes, and each block is mixed into the state of eight words by
    80 rounds.  The handshake hashes with it; [sha512_abc] checks the definition
    against the standard's example. *)

From S2P Require Import Prelude.

(** ** Words *)

Abbreviation word := (uwrap 64).

Definition add64 (a b : Z) : Z := word (a + b).
Definition shr (n x : Z) : Z := Z.shiftr x n.
Definition rotr (n x : Z) : Z := Z.lor (Z.shiftr x n) (word (Z.shiftl x (64 - n))).

Definition Ch (x y z : Z) : Z := Z.lxor (Z.land x y) (Z.land (Z.lxor x (Z.ones 64)) z).
Definition Maj (x y z : Z) : Z := Z.lxor (Z.lxor (Z.land x y) (Z.land x z)) (Z.land y z).
Definition Sigma0 (x : Z) : Z := Z.lxor (Z.lxor (rotr 28 x) (rotr 34 x)) (rotr 39 x).
Definition Sigma1 (x : Z) : Z := Z.lxor (Z.lxor (rotr 14 x) (rotr 18 x)) (rotr 41 x).
Definition sigma0 (x : Z) : Z := Z.lxor (Z.lxor (rotr 1 x) (rotr 8 x)) (shr 7 x).
Definition sigma1 (x : Z) : Z := Z.lxor (Z.lxor (rotr 19 x) (rotr 61 x)) (shr 6 x).

(** The fractional parts of the square roots of the first eight primes, and of the
    cube roots of the first eighty. *)
Definition H0 : list Z :=
  [0x6a09e667f3bcc908; 0xbb67ae8584caa73b; 0x3c6ef372fe94f82b; 0xa54ff53a5f1d36f1;
   0x510e527fade682d1; 0x9b05688c2b3e6c1f; 0x1f83d9abfb41bd6b; 0x5be0cd19137e2179].

Definition K : list Z :=
  [0x428a2f98d728ae22; 0x7137449123ef65cd; 0xb5c0fbcfec4d3b2f; 0xe9b5dba58189dbbc;
   0x3956c25bf348b538; 0x59f111f1b605d019; 0x923f82a4af194f9b; 0xab1c5ed5da6d8118;
   0xd807aa98a3030242; 0x12835b0145706fbe; 0x243185be4ee4b28c; 0x550c7dc3d5ffb4e2;
   0x72be5d74f27b896f; 0x80deb1fe3b1696b1; 0x9bdc06a725c71235; 0xc19bf174cf692694;
   0xe49b69c19ef14ad2; 0xefbe4786384f25e3; 0x0fc19dc68b8cd5b5; 0x240ca1cc77ac9c65;
   0x2de92c6f592b0275; 0x4a7484aa6ea6e483; 0x5cb0a9dcbd41fbd4; 0x76f988da831153b5;
   0x983e5152ee66dfab; 0xa831c66d2db43210; 0xb00327c898fb213f; 0xbf597fc7beef0ee4;
   0xc6e00bf33da88fc2; 0xd5a79147930aa725; 0x06ca6351e003826f; 0x142929670a0e6e70;
   0x27b70a8546d22ffc; 0x2e1b21385c26c926; 0x4d2c6dfc5ac42aed; 0x53380d139d95b3df;
   0x650a73548baf63de; 0x766a0abb3c77b2a8; 0x81c2c92e47edaee6; 0x92722c851482353b;
   0xa2bfe8a14cf10364; 0xa81a664bbc423001; 0xc24b8b70d0f89791; 0xc76c51a30654be30;
   0xd192e819d6ef5218; 0xd69906245565a910; 0xf40e35855771202a; 0x106aa07032bbd1b8;
   0x19a4c116b8d2d0c8; 0x1e376c085141ab53; 0x2748774cdf8eeb99; 0x34b0bcb5e19b48a8;
   0x391c0cb3c5c95a63; 0x4ed8aa4ae3418acb; 0x5b9cca4f7763e373; 0x682e6ff3d6b2b8a3;
   0x748f82ee5defb2fc; 0x78a5636f43172f60; 0x84c87814a1f0ab72; 0x8cc702081a6439ec;
   0x90befffa23631e28; 0xa4506cebde82bde9; 0xbef9a3f7b2c67915; 0xc67178f2e372532b;
   0xca273eceea26619c; 0xd186b8c721c0c207; 0xeada7dd6cde0eb1e; 0xf57d4f7fee6ed178;
   0x06f067aa72176fba; 0x0a637dc5a2c898a6; 0x113f9804bef90dae; 0x1b710b35131c471b;
   0x28db77f523047d84; 0x32caab7b40c72493; 0x3c9ebe0a15c9bebc; 0x431d67c49c100d4c;
   0x4cc5d4becb3e42b6; 0x597f299cfc657e2a; 0x5fcb6fab3ad6faec; 0x6c44198c4a475817].

(** ** Blocks *)

(** [k] numbers of [n] bytes each from the front of [l]. *)
Fixpoint words_of (k : nat) (l : list Z) : list Z :=
  match k with
  | O => []
  | S k => be_dec (take 8 l) :: words_of k (drop 8 l)
  end.

(** The message schedule, last word first: sixteen words of the block, then [k] more. *)
Fixpoint schedule (k : nat) (ws : list Z) : list Z :=
  match k with
  | O => ws
  | S k =>
    let w n := default 0 (ws !! n) in
    schedule k (add64 (add64 (sigma1 (w 1%nat)) (w 6%nat)) (add64 (sigma0 (w 14%nat)) (w 15%nat)) :: ws)
  end.

Record state := mkState { sa : Z; sb : Z; sc : Z; sd : Z; se : Z; sf : Z; sg : Z; sh : Z }.

Definition round (s : state) (kw : Z * Z) : state :=
  let t1 := add64 (add64 (add64 (sh s) (Sigma1 (se s))) (add64 (Ch (se s) (sf s) (sg s)) kw.1)) kw.2 in
  let t2 := add64 (Sigma0 (sa s)) (Maj (sa s) (sb s) (sc s)) in
  mkState (add64 t1 t2) (sa s) (sb s) (sc s) (add64 (sd s) t1) (se s) (sf s) (sg s).

Definition state_of (l : list Z) : state :=
  let w n := default 0 (l !! n) in
  mkState (w 0%nat) (w 1%nat) (w 2%nat) (w 3%nat) (w 4%nat) (w 5%nat) (w 6%nat) (w 7%nat).

Definition words (s : state) : list Z := [sa s; sb s; sc s; sd s; se s; sf s; sg s; sh s].

Definition block (h : state) (b : list Z) : state :=
  let ws := rev (schedule 64 (rev (words_of 16 b))) in
  let s := fold_left round (zip K ws) h in
  state_of (zip_with add64 (words h) (words s)).

(** The padding: a one bit, zeros, and the length in bits in 16 bytes. *)
Definition pad (m : list Z) : list Z :=
  m ++ [0x80] ++ replicate (Z.to_nat ((111 - lenZ m) mod 128)) 0 ++ be_enc 16 (8 * lenZ m).

Fixpoint blocks (k : nat) (h : state) (l : list Z) : state :=
  match k with
  | O => h
  | S k => blocks k (block h (take 128 l)) (drop 128 l)
  end.

Definition sha512 (m : list Z) : list Z :=
  let p := pad m in
  flat_map (be_enc 8) (words (blocks (Z.to_nat (lenZ p / 128)) (state_of H0) p)).

(** ** Lemmas *)

Lemma length_sha512 m : lenZ (sha512 m) = 64.
Proof. unfold sha512, words. cbn [flat_map]. rewrite !lenZ_app, !lenZ_be_enc. done. Qed.

Lemma is_bytes_sha512 m : is_bytes (sha512 m).
Proof.
  unfold sha512, words. cbn [flat_map]. rewrite !Forall_app. split_and!; auto using is_bytes_be_enc.
Qed.

Lemma sha512_abc : sha512 (str "abc") =
  [221; 175; 53; 161; 147; 97; 122; 186; 204; 65; 115; 73; 174; 32; 65; 49; 18; 230; 250; 78;
   137; 169; 126; 162; 10; 158; 238; 230; 75; 85; 211; 154; 33; 146; 153; 42; 39; 79; 193; 168;
   54; 186; 60; 35; 163; 254; 235; 189; 69; 77; 68; 35; 100; 60; 232; 14; 42; 154; 201; 79; 165; 76; 164; 159].
Proof. vm_compute. reflexivity. Qed.
