(* ===== verification/Handshake.v ===== *)
(** * Handshake: authentication of client and server (forward/auth.go,
    sha512_hex.go, phase_handshake.go, server_session.go)

    The server sends HELO with a nonce and, if it wants passwords, a salt for them;
    the client answers with PING, which proves that it knows the shared key and
    the password by their digests; the server answers with PONG, which proves the
    same of the shared key.

    A message is appended to a buffer that is written to the connection and is
    empty afterwards.  Connections ([ConnOps], of net and of
    github.com/webmafia/fast/buffer), the server's lookup of credentials, the
    text of an error and the random numbers are parameters; the digests are those
    of Sha512. *)

From stdpp Require Import sets.
From S2P Require Import Prelude Types Errors Integer Headers Str Object Strconv RingBuf Iter Sha512.
From S2P Require Import Transport.

(** forward/errors.go *)
Definition ErrInvalidHelo := Sentinel SInvalidHelo.
Definition ErrInvalidPing := Sentinel SInvalidPing.
Definition ErrInvalidPong := Sentinel SInvalidPong.
Definition ErrInvalidNonce := Sentinel SInvalidNonce.
Definition ErrInvalidSharedKey := Sentinel SInvalidSharedKey.
Definition ErrFailedConn := Sentinel SFailedConn.
Definition ErrFailedAuth := Sentinel SFailedAuth.

(** ** auth.go *)

Record Credentials := mkCredentials {
  Username : list Z;
  Password : list Z;
  SharedKey : list Z
}.

Definition no_credentials : Credentials := mkCredentials [] [] [].

Definition StaticAuthClient (cred : Credentials) : Credentials * option error := (cred, None).

Definition StaticAuthServer (cred : Credentials) (username : list Z) : Credentials * option error :=
  if bool_decide (username = Username cred) then (cred, None)
  else (no_credentials, Some (Errorf "unknown username '%s'" [FStr username])).

(** ** sha512_hex.go *)

Definition sha512Hex (vals : list (list Z)) (dst : list Z) : list Z :=
  dst ++ hex_encode (sha512 (concat vals)).

Definition validateSha512Hex (expectedHex : list Z) (vals : list (list Z)) : bool :=
  bool_decide (expectedHex = sha512Hex vals []).

(** ** The connection *)

Class ConnOps (K : Type) := {
  (** write a buffer: the error, what is left in the buffer, the connection *)
  WriteTo : list Z → K → option error * list Z * K
}.

(** [sent k] are the bytes sent; writing to an open connection sends the buffer. *)
Class ConnLaws (K : Type) `{ConnOps K} := {
  sent : K → list Z;
  conn_open : K → Prop;
  WriteTo_open k b :
    conn_open k → ∃ k', WriteTo b k = (None, [], k') ∧ conn_open k' ∧ sent k' = sent k ++ b
}.

(** ** phase_handshake.go: the messages *)

Definition HELO := str "HELO".
Definition PING := str "PING".
Definition PONG := str "PONG".

Definition appendHelo (b nonce auth : list Z) : list Z :=
  let b := AppendArrayHeader b 2 in
  let b := AppendString b HELO in
  let b := AppendMapHeader b 3 in
  let b := AppendString b (str "nonce") in
  let b := AppendString b nonce in
  let b := AppendString b (str "auth") in
  let b := AppendString b auth in
  let b := AppendString b (str "keepalive") in
  AppendBool b true.

Definition appendPing (hostname : list Z) (cred : Credentials) (b salt nonce auth : list Z) : go (list Z) :=
  let b := AppendArrayHeader b 6 in
  let b := AppendString b PING in
  let b := AppendString b hostname in
  let b := AppendString b salt in
  b ← AppendStringMax255 b (sha512Hex [salt; hostname; nonce; SharedKey cred]);
  if bool_decide (auth ≠ []) then
    let b := AppendString b (Username cred) in
    AppendStringMax255 b (sha512Hex [auth; Username cred; Password cred])
  else
    let b := AppendString b [] in
    Ret (AppendString b []).

Definition appendPong (hostname b salt nonce sharedKey : list Z) (authResult : bool) (reason : list Z) :
    go (list Z) :=
  let b := AppendArrayHeader b 5 in
  let b := AppendString b PONG in
  let b := AppendBool b authResult in
  let b := AppendString b reason in
  let b := AppendString b hostname in
  AppendStringMax255 b (sha512Hex [salt; hostname; nonce; sharedKey]).

Section Read.
  Context `{RingOps R}.

(** A step of a reader: the next token must have one of the types. *)
Definition expect (base : error) (types : list type) (it : Iterator R) : option error * Iterator R :=
  let '(err, it) := NextExpectedType it types in
  ((λ e, Join base e) <$> err, it).

(** The loop over the [k] options of HELO. *)
Fixpoint helo_options (k : nat) (nonce auth : list Z) (keepAlive : bool) (it : Iterator R) :
    (option error + list Z * list Z * bool) * Iterator R :=
  match k with
  | O => (inr (nonce, auth, keepAlive), it)
  | S k =>
    let '(err, it) := expect ErrInvalidHelo [Types.Str] it in
    match err with
    | Some _ => (inl err, it)
    | None =>
      let '(key, it) := Iter.Str it in
      let '(ok, it) := Iter.Next it in
      if negb ok then (inl (it_err it), it)
      else if bool_decide (key = str "nonce") then
        let '(nonce, it) := Iter.Str it in helo_options k nonce auth keepAlive it
      else if bool_decide (key = str "auth") then
        let '(auth, it) := Iter.Str it in helo_options k nonce auth keepAlive it
      else if bool_decide (key = str "keepalive") then
        helo_options k nonce auth (Iter.Bool it) it
      else helo_options k nonce auth keepAlive it
    end
  end.

(** [Client.readHelo]: the nonce, the password salt and whether to keep alive, or an
    error. *)
Definition readHelo (it : Iterator R) : (option error + list Z * list Z * bool) * Iterator R :=
  let '(err, it) := expect ErrInvalidHelo [Types.Array] it in
  match err with Some _ => (inl err, it) | None =>
  if negb (it_items it =? 2) then (inl (Some ErrInvalidHelo), it) else
  let '(err, it) := expect ErrInvalidHelo [Types.Str] it in
  match err with Some _ => (inl err, it) | None =>
  let '(typ, it) := Iter.Str it in
  if bool_decide (typ ≠ HELO) then
    (inl (Some (Wrapf "%w: expected type '%s', got '%s'" ErrInvalidHelo [FStr HELO; FStr typ])), it)
  else
  let '(err, it) := expect ErrInvalidHelo [Types.Map] it in
  match err with Some _ => (inl err, it) | None =>
  match helo_options (Z.to_nat (it_items it)) [] [] true it with
  | (inl err, it) => (inl err, it)
  | (inr (nonce, auth, keepAlive), it) =>
    if lenZ nonce =? 0 then (inl (Some ErrInvalidNonce), it) else (inr (nonce, auth, keepAlive), it)
  end end end end.

(** [ServerSession.readPing]: the salt, the credentials and the error.  [Auth] is the
    server's lookup. *)
Definition readPing (Auth : list Z → Credentials * option error) (nonce auth : list Z) (it : Iterator R) :
    list Z * Credentials * option error * Iterator R :=
  let '(err, it) := expect ErrInvalidPing [Types.Array] it in
  match err with Some _ => ([], no_credentials, err, it) | None =>
  if negb (it_items it =? 6) then ([], no_credentials, Some ErrInvalidPing, it) else
  let '(err, it) := expect ErrInvalidPing [Types.Str] it in
  match err with Some _ => ([], no_credentials, err, it) | None =>
  let '(typ, it) := Iter.Str it in
  if bool_decide (typ ≠ PING) then
    ([], no_credentials,
     Some (Wrapf "%w: expected type '%s', got '%s'" ErrInvalidPing [FStr PING; FStr typ]), it)
  else
  let '(err, it) := expect ErrInvalidPing [Types.Str] it in
  match err with Some _ => ([], no_credentials, err, it) | None =>
  let '(clientHostname, it) := Iter.Str it in
  let '(err, it) := expect ErrInvalidPing [Types.Str; Types.Bin] it in
  match err with Some _ => ([], no_credentials, err, it) | None =>
  let '(salt, it) := Iter.Str it in
  let '(err, it) := expect ErrInvalidPing [Types.Str] it in
  match err with Some _ => (salt, no_credentials, err, it) | None =>
  let '(hexdigest, it) := Iter.Bin it in
  let '(err, it) := expect ErrInvalidPing [Types.Str] it in
  match err with Some _ => (salt, no_credentials, err, it) | None =>
  let '(username, it) := Iter.Str it in
  let '(err, it) := expect ErrInvalidPing [Types.Str] it in
  match err with Some _ => (salt, no_credentials, err, it) | None =>
  let '(password, it) := Iter.Bin it in
  let '(cred, err) := Auth username in
  match err with Some e => (salt, cred, Some (Join ErrFailedAuth e), it) | None =>
  if negb (validateSha512Hex hexdigest [salt; clientHostname; nonce; SharedKey cred]) then
    (salt, cred, Some ErrInvalidSharedKey, it)
  else if bool_decide (auth ≠ []) && negb (validateSha512Hex password [auth; username; Password cred]) then
    (salt, cred, Some ErrFailedAuth, it)
  else (salt, cred, None, it)
  end end end end end end end end.

(** [Client.readPong]: the server's host name, or an error. *)
Definition readPong (salt nonce sharedKey : list Z) (it : Iterator R) : (error + list Z) * Iterator R :=
  let '(err, it) := expect ErrInvalidPong [Types.Array] it in
  match err with Some e => (inl e, it) | None =>
  if negb (it_items it =? 5) then (inl ErrInvalidPong, it) else
  let '(err, it) := expect ErrInvalidPong [Types.Str] it in
  match err with Some e => (inl e, it) | None =>
  let '(typ, it) := Iter.Str it in
  if bool_decide (typ ≠ PONG) then
    (inl (Wrapf "%w: expected type '%s', got '%s'" ErrInvalidPong [FStr PONG; FStr typ]), it)
  else
  let '(err, it) := expect ErrInvalidPong [Types.Bool] it in
  match err with Some e => (inl e, it) | None =>
  let authResult := Iter.Bool it in
  let '(err, it) := expect ErrInvalidPong [Types.Str] it in
  match err with Some e => (inl e, it) | None =>
  let '(reason, it) := Iter.Str it in
  let '(err, it) := expect ErrInvalidPong [Types.Str] it in
  match err with Some e => (inl e, it) | None =>
  let '(serverHostname, it) := Iter.Str it in
  let '(err, it) := expect ErrInvalidPong [Types.Str] it in
  match err with Some e => (inl e, it) | None =>
  let '(hexdigest, it) := Iter.Bin it in
  if negb authResult then
    if bool_decide (reason ≠ []) then (inl (Wrapf "%w: %s" ErrFailedAuth [FStr reason]), it)
    else (inl ErrFailedAuth, it)
  else if negb (validateSha512Hex hexdigest [salt; serverHostname; nonce; sharedKey]) then
    (inl ErrFailedAuth, it)
  else (inr serverHostname, it)
  end end end end end end.

(** ** server_session.go *)

Context {K : Type} `{!ConnOps K}.

(** The options of the server that a session uses. *)
Record ServerOptions := mkServerOptions {
  s_Hostname : list Z;
  s_Auth : list Z → Credentials * option error;
  s_PasswordAuth : bool
}.

Record ServerSession := mkServerSession {
  ss_iter : Iterator R;
  ss_write : list Z;
  ss_conn : K;
  ss_user : list Z
}.

(** [ss.write.WriteTo(ss.conn)] *)
Definition ss_flush (ss : ServerSession) (b : list Z) : option error * ServerSession :=
  let '(err, b, k) := WriteTo b (ss_conn ss) in
  (err, mkServerSession (ss_iter ss) b k (ss_user ss)).

Definition writeHelo (ss : ServerSession) (nonce auth : list Z) : option error * ServerSession :=
  ss_flush ss (appendHelo (ss_write ss) nonce auth).

Definition writePong (opt : ServerOptions) (ss : ServerSession) (salt nonce sharedKey : list Z)
    (authResult : bool) (reason : list Z) : go (option error * ServerSession) :=
  b ← appendPong (s_Hostname opt) (ss_write ss) salt nonce sharedKey authResult reason;
  Ret (ss_flush ss b).

(** [authenticate]; [rand] is what [rand.Read] gives for 48 bytes, [Error] the text
    of an error. *)
Definition authenticate (Error : error → list Z) (opt : ServerOptions) (rand : list Z * option error)
    (ss : ServerSession) : go (option error * ServerSession) :=
  let '(nonceAuth, err) := rand in
  match err with
  | Some _ => Ret (err, ss)
  | None =>
    let nonce := take 24 nonceAuth in
    let auth := if s_PasswordAuth opt then drop 24 nonceAuth else [] in
    let '(err, ss) := writeHelo ss nonce auth in
    match err with
    | Some _ => Ret (err, ss)
    | None =>
      let '(salt, cred, err, it) := readPing (s_Auth opt) nonce auth (ss_iter ss) in
      let ss := mkServerSession it (ss_write ss) (ss_conn ss) (ss_user ss) in
      match err with
      | Some e => '(_, ss) ← writePong opt ss nonce salt [] false (Error e); Ret (err, ss)
      | None =>
        '(err, ss) ← writePong opt ss salt nonce (SharedKey cred) true [];
        match err with
        | Some _ => Ret (err, ss)
        | None => Ret (None, mkServerSession (ss_iter ss) (ss_write ss) (ss_conn ss) (Username cred))
        end
      end
    end
  end.

End Read.
Arguments ServerSession : clear implicits.

(** ** Reading the messages *)

Section Messages.
  Context `{RingLaws R}.

Lemma expect_ok base types (it it1 : Iterator R) :
  Iter.Next it = (true, it1) → it_typ it1 ∈ types → expect base types it = (None, it1).
Proof. intros EN Ht. unfold expect. by rewrite (NextExpectedType_ok it it1). Qed.

Definition digest (vals : list (list Z)) : list Z := sha512Hex vals [].

Lemma validate_spec h vals : validateSha512Hex h vals = bool_decide (h = digest vals).
Proof. done. Qed.

(** The server's decision on a PING: [Auth] knows the user name, the digest of the
    shared key is right, and so is that of the password if one is asked for. *)
Definition ping_verdict (Auth : list Z → Credentials * option error)
    (nonce auth hostname salt hexdigest username password : list Z) : option error :=
  let cred := (Auth username).1 in
  match (Auth username).2 with
  | Some e => Some (Join ErrFailedAuth e)
  | None =>
    if bool_decide (hexdigest = digest [salt; hostname; nonce; SharedKey cred]) then
      if bool_decide (auth ≠ [] ∧ password ≠ digest [auth; username; Password cred]) then Some ErrFailedAuth
      else None
    else Some ErrInvalidSharedKey
  end.

(** The encoding of the next item. *)
Ltac item H2 b Hb := apply Forall2_cons_inv_l in H2 as (b & ? & Hb & H2 & ->).

Ltac in_types Et := rewrite Et; repeat first [apply list_elem_of_here | apply list_elem_of_further].

Lemma Bin_Str (it : Iterator R) : Iter.Bin it = Iter.Str it.
Proof. reflexivity. Qed.

Ltac text_step it x Hd He it1 it2 Hd2 :=
  let EN := fresh in let Et := fresh in let Es := fresh in
  destruct (Str_token it x _ _ Hd He) as (it1 & it2 & EN & Et & _ & Es & Hd2);
  rewrite (expect_ok _ _ it it1 EN) by in_types Et; rewrite ?(Bin_Str it1), Es; clear EN Et Es.

Lemma salt_type sc salt :
  sc = SStr salt ∨ sc = SBin salt → scalar_type sc ∈ [Types.Str; Types.Bin].
Proof. intros [-> | ->]; apply list_elem_of_here || apply list_elem_of_further, list_elem_of_here. Qed.

(** A PING is read to its end and decided by [ping_verdict]. *)
Lemma readPing_at Auth nonce auth (it : Iterator R) hostname salt sc hexdigest username password bs rest :
  delivers (it_r it) (bs ++ rest) → sc = SStr salt ∨ sc = SBin salt →
  encodes (OArray [OScalar (SStr PING); OScalar (SStr hostname); OScalar sc; OScalar (SStr hexdigest);
    OScalar (SStr username); OScalar (SStr password)]) bs →
  ∃ it', readPing Auth nonce auth it =
      (salt, (Auth username).1, ping_verdict Auth nonce auth hostname salt hexdigest username password, it') ∧
    delivers (it_r it') rest.
Proof.
  intros Hd Hsc He. unfold readPing.
  destruct (Array_token it _ bs rest Hd He) as (it1 & bss & EN & Et & Ei & H2 & Hd1 & _).
  rewrite (expect_ok _ _ it it1 EN) by in_types Et. rewrite Ei. change (lenZ _ =? 6) with true.
  cbn [negb].
  item H2 b1 Hb1. item H2 b2 Hb2.
  item H2 b3 Hb3. item H2 b4 Hb4.
  item H2 b5 Hb5. item H2 b6 Hb6.
  inversion H2; subst. cbn [concat] in Hd1. rewrite <- !app_assoc, app_nil_l in Hd1.
  text_step it1 PING Hd1 Hb1 it2 it3 Hd3. rewrite bool_decide_false by (intros Hn; by apply Hn).
  text_step it3 hostname Hd3 Hb2 it4 it5 Hd5.
  destruct (text_token it5 sc salt b3 _ Hd5 Hsc Hb3) as (it6 & it7 & EN6 & Et6 & _ & Es6 & Hd7).
  rewrite (expect_ok _ _ it5 it6 EN6) by (rewrite Et6; by apply (salt_type sc salt)). rewrite Es6.
  text_step it7 hexdigest Hd7 Hb4 it8 it9 Hd9.
  text_step it9 username Hd9 Hb5 it10 it11 Hd11.
  text_step it11 password Hd11 Hb6 it12 it13 Hd13.
  exists it13. split; [|done]. unfold ping_verdict.
  destruct (Auth username) as [cred [e|]]; cbn [fst snd]; [done|]. rewrite !validate_spec.
  repeat case_bool_decide; cbn [negb andb]; naive_solver.
Qed.

Lemma readPong_at salt nonce sharedKey (it : Iterator R) (ok : bool) reason hostname hexdigest bs rest :
  delivers (it_r it) (bs ++ rest) →
  encodes (OArray [OScalar (SStr PONG); OScalar (SBool ok); OScalar (SStr reason); OScalar (SStr hostname);
    OScalar (SStr hexdigest)]) bs →
  ∃ it', readPong salt nonce sharedKey it =
      ((if negb ok then
          inl (if bool_decide (reason ≠ []) then Wrapf "%w: %s" ErrFailedAuth [FStr reason] else ErrFailedAuth)
        else if negb (validateSha512Hex hexdigest [salt; hostname; nonce; sharedKey]) then inl ErrFailedAuth
        else inr hostname), it') ∧
    delivers (it_r it') rest.
Proof.
  intros Hd He. unfold readPong.
  destruct (Array_token it _ bs rest Hd He) as (it1 & bss & EN & Et & Ei & H2 & Hd1 & _).
  rewrite (expect_ok _ _ it it1 EN) by in_types Et. rewrite Ei. change (lenZ _ =? 5) with true.
  cbn [negb].
  item H2 b1 Hb1. item H2 b2 Hb2.
  item H2 b3 Hb3. item H2 b4 Hb4.
  item H2 b5 Hb5.
  inversion H2; subst. cbn [concat] in Hd1. rewrite <- !app_assoc, app_nil_l in Hd1.
  text_step it1 PONG Hd1 Hb1 it2 it3 Hd3. rewrite bool_decide_false by (intros Hn; by apply Hn).
  destruct (Bool_token it3 ok b2 _ Hd3 Hb2) as (it4 & EN4 & Et4 & Eb & Hd4).
  rewrite (expect_ok _ _ it3 it4 EN4) by in_types Et4. cbv zeta. rewrite Eb.
  text_step it4 reason Hd4 Hb3 it5 it6 Hd6. text_step it6 hostname Hd6 Hb4 it7 it8 Hd8.
  text_step it8 hexdigest Hd8 Hb5 it9 it10 Hd10.
  exists it10. split; [|done]. by repeat case_match.
Qed.

(** The objects of the messages. *)
Definition helo_obj (nonce auth : list Z) : obj :=
  OArray [OScalar (SStr HELO); record_obj [(str "nonce", OScalar (SStr nonce));
    (str "auth", OScalar (SStr auth)); (str "keepalive", OScalar (SBool true))]].

Lemma readHelo_at (it : Iterator R) nonce auth bs rest :
  delivers (it_r it) (bs ++ rest) → encodes (helo_obj nonce auth) bs → nonce ≠ [] →
  ∃ it', readHelo it = (inr (nonce, auth, true), it') ∧ delivers (it_r it') rest.
Proof.
  intros Hd He Hn. unfold readHelo.
  destruct (Array_token it _ bs rest Hd He) as (it1 & bss & EN & Et & Ei & H2 & Hd1 & _).
  rewrite (expect_ok _ _ it it1 EN) by in_types Et. rewrite Ei. change (lenZ _ =? 2) with true.
  cbn [negb].
  item H2 b1 Hb1. item H2 b2 Hb2.
  inversion H2; subst. clear H2. cbn [concat] in Hd1. rewrite <- !app_assoc, app_nil_l in Hd1.
  text_step it1 HELO Hd1 Hb1 it2 it3 Hd3. rewrite bool_decide_false by (intros Hx; by apply Hx).
  destruct (Map_token it3 _ b2 rest Hd3 Hb2) as (it4 & bss & EN4 & Et4 & Ei4 & H2 & Hd4 & _).
  rewrite (expect_ok _ _ it3 it4 EN4) by in_types Et4. rewrite Ei4. change (Z.to_nat _) with 3%nat.
  unfold flatten in H2. cbn [map flat_map app fst snd] in H2.
  item H2 k1 Hk1. item H2 v1 Hv1.
  item H2 k2 Hk2. item H2 v2 Hv2.
  item H2 k3 Hk3. item H2 v3 Hv3.
  inversion H2; subst. clear H2. cbn [concat] in Hd4. rewrite <- !app_assoc, app_nil_l in Hd4.
  cbn [helo_options].
  text_step it4 (str "nonce") Hd4 Hk1 it5 it6 Hd6.
  destruct (Str_token it6 nonce v1 _ Hd6 Hv1) as (it7 & it8 & EN7 & _ & _ & Es8 & Hd8).
  rewrite EN7. cbn [negb]. rewrite bool_decide_true by done. rewrite Es8.
  text_step it8 (str "auth") Hd8 Hk2 it9 it10 Hd10.
  destruct (Str_token it10 auth v2 _ Hd10 Hv2) as (it11 & it12 & EN11 & _ & _ & Es12 & Hd12).
  rewrite EN11. cbn [negb]. rewrite bool_decide_false, bool_decide_true by done. rewrite Es12.
  text_step it12 (str "keepalive") Hd12 Hk3 it13 it14 Hd14.
  destruct (Bool_token it14 true v3 _ Hd14 Hv3) as (it15 & EN15 & _ & Eb & Hd15).
  rewrite EN15. cbn [negb]. rewrite !bool_decide_false, bool_decide_true by done. rewrite Eb.
  destruct nonce as [|c nonce]; [done|]. exists it15. split; [|done].
  destruct (lenZ (c :: nonce) =? 0) eqn:E; [|done]. exfalso. len_lia.
Qed.

End Messages.

(** ** Writing the messages *)

(** Short enough for the length of a string header. *)
Definition sendable_str (s : list Z) : Prop := lenZ s < 2 ^ 32.

Lemma Str_encodes s : sendable_str s → encodes (OScalar (SStr s)) (AppendString [] s).
Proof.
  intros Hs. rewrite AppendString_split. apply encodes_str, string_header_spec.
  pose proof (lenZ_nonneg s). unfold sendable_str in Hs. lia.
Qed.

Lemma lenZ_digest vals : lenZ (digest vals) = 128.
Proof. unfold digest, sha512Hex. rewrite app_nil_l, lenZ_hex_encode, length_sha512. done. Qed.

(** The digest fits the 255 bytes that are kept. *)
Lemma AppendStringMax255_digest b vals :
  ∃ bs, AppendStringMax255 b (sha512Hex vals) = Ret (b ++ bs) ∧ encodes (OScalar (SStr (digest vals))) bs.
Proof.
  pose proof (lenZ_digest vals) as Hl.
  rewrite (AppendStringMax255_eq b (sha512Hex vals) (digest vals)) by done.
  rewrite take_ge by (unfold lenZ in Hl; lia).
  eexists. split; [reflexivity|]. apply encodes_str.
  pose proof (max255_header (lenZ (digest vals)) ltac:(lia)) as Hh. rewrite Hl in *. exact Hh.
Qed.

Definition ping_obj (hostname salt hexdigest username password : list Z) : obj :=
  OArray [OScalar (SStr PING); OScalar (SStr hostname); OScalar (SStr salt); OScalar (SStr hexdigest);
    OScalar (SStr username); OScalar (SStr password)].

Definition pong_obj (ok : bool) (reason hostname hexdigest : list Z) : obj :=
  OArray [OScalar (SStr PONG); OScalar (SBool ok); OScalar (SStr reason); OScalar (SStr hostname);
    OScalar (SStr hexdigest)].

Lemma array_encodes os bss :
  lenZ os < 2 ^ 32 → Forall2 encodes os bss →
  encodes (OArray os) (AppendArrayHeader [] (lenZ os) ++ concat bss).
Proof.
  intros Hl H2. constructor; [|done]. apply AppendArrayHeader_header. pose proof (lenZ_nonneg os). lia.
Qed.

Lemma Bool_encodes b : encodes (OScalar (SBool b)) (AppendBool [] b).
Proof. apply (scalar_encodes (SBool b)). done. Qed.

(** Write every append as an append to the empty slice. *)
Ltac spread_one f d x :=
  lazymatch d with [] => fail | _ => rewrite (appender (f := f) d x) end.
Ltac spread :=
  repeat match goal with
  | |- context [AppendString ?d ?x] => spread_one AppendString d x
  | |- context [AppendBool ?d ?x] => spread_one AppendBool d x
  | |- context [AppendMapHeader ?d ?x] => spread_one AppendMapHeader d x
  | |- context [AppendArrayHeader ?d ?x] => spread_one AppendArrayHeader d x
  end.

Lemma appendHelo_encodes b nonce auth :
  sendable_str nonce → sendable_str auth →
  ∃ bs, appendHelo b nonce auth = b ++ bs ∧ encodes (helo_obj nonce auth) bs.
Proof.
  intros Hn Ha. set (kvs := [AppendString [] (str "nonce"); AppendString [] nonce; AppendString [] (str "auth");
    AppendString [] auth; AppendString [] (str "keepalive"); AppendBool [] true]).
  exists (AppendArrayHeader [] 2 ++ concat [AppendString [] HELO; AppendMapHeader [] 3 ++ concat kvs]). split.
  - unfold appendHelo, kvs. cbv zeta. spread. cbn [concat]. by rewrite ?app_nil_r, <- !app_assoc.
  - apply (array_encodes [OScalar (SStr HELO); _]); [done|].
    constructor; [by apply Str_encodes|]. constructor; [|constructor].
    constructor; [by apply AppendMapHeader_header|].
    repeat (apply Forall2_cons_2; [first [by apply Str_encodes | by apply Bool_encodes]|]). constructor.
Qed.

Lemma appendPing_encodes hostname cred b salt nonce auth :
  sendable_str hostname → sendable_str salt → sendable_str (Username cred) →
  ∃ bs, appendPing hostname cred b salt nonce auth = Ret (b ++ bs) ∧
    encodes (ping_obj hostname salt (digest [salt; hostname; nonce; SharedKey cred])
      (if bool_decide (auth ≠ []) then Username cred else [])
      (if bool_decide (auth ≠ []) then digest [auth; Username cred; Password cred] else [])) bs.
Proof.
  intros Hh Hs Hu. unfold appendPing. cbv zeta. spread.
  set (b1 := ((_ ++ _) ++ _) ++ _).
  destruct (AppendStringMax255_digest b1 [salt; hostname; nonce; SharedKey cred]) as (d1 & -> & He1).
  go_simpl.
  assert (∀ u d2, sendable_str u → ∀ p, encodes (OScalar (SStr p)) d2 →
    encodes (ping_obj hostname salt (digest [salt; hostname; nonce; SharedKey cred]) u p)
      (AppendArrayHeader [] 6 ++ concat [AppendString [] PING; AppendString [] hostname; AppendString [] salt;
        d1; AppendString [] u; d2])) as Hping.
  { intros u d2 Hu2 p Hp. apply (array_encodes [_; _; _; _; _; _]); [done|].
    repeat (constructor; [by try apply Str_encodes|]). constructor. }
  case_bool_decide.
  - spread. destruct (AppendStringMax255_digest ((b1 ++ d1) ++ AppendString [] (Username cred))
      [auth; Username cred; Password cred]) as (d2 & -> & He2).
    eexists. split; [|by apply (Hping _ d2 Hu)].
    unfold b1. cbn [concat]. by rewrite ?app_nil_r, <- !app_assoc.
  - spread. eexists. split; [|by apply (Hping [] (AppendString [] []) ltac:(done)), Str_encodes].
    unfold b1. cbn [concat]. by rewrite ?app_nil_r, <- !app_assoc.
Qed.

Lemma appendPong_encodes hostname b salt nonce sharedKey ok reason :
  sendable_str hostname → sendable_str reason →
  ∃ bs, appendPong hostname b salt nonce sharedKey ok reason = Ret (b ++ bs) ∧
    encodes (pong_obj ok reason hostname (digest [salt; hostname; nonce; sharedKey])) bs.
Proof.
  intros Hh Hr. unfold appendPong. cbv zeta. spread. set (b1 := (((_ ++ _) ++ _) ++ _) ++ _).
  destruct (AppendStringMax255_digest b1 [salt; hostname; nonce; sharedKey]) as (d1 & -> & He1).
  exists (AppendArrayHeader [] 5 ++ concat [AppendString [] PONG; AppendBool [] ok; AppendString [] reason;
    AppendString [] hostname; d1]). split.
  - unfold b1. cbn [concat]. by rewrite ?app_nil_r, <- !app_assoc.
  - apply (array_encodes [_; _; _; _; _]); [done|].
    constructor; [by apply Str_encodes|]. constructor; [apply Bool_encodes|].
    repeat (constructor; [by try apply Str_encodes|]). constructor.
Qed.

(** ** The exchange *)

Section Exchange.
  Context {R K : Type} `{!RingOps R, !RingLaws R, !ConnOps K, !ConnLaws K}.
  (** [err.Error()] *)
  Context (Error : error → list Z) (Error_short : ∀ e, sendable_str (Error e)).
  Implicit Types (ss : ServerSession R K) (it : Iterator R).

Lemma ss_flush_open ss b :
  conn_open (ss_conn ss) →
  ∃ k, ss_flush ss b = (None, mkServerSession (ss_iter ss) [] k (ss_user ss)) ∧ conn_open k ∧
    sent k = sent (ss_conn ss) ++ b.
Proof.
  intros Hk. unfold ss_flush. destruct (WriteTo_open (ss_conn ss) b Hk) as (k & -> & Hk' & Hs). by exists k.
Qed.

(** The password salt of a session. *)
Definition auth_of (opt : ServerOptions) (r : list Z) : list Z := if s_PasswordAuth opt then drop 24 r else [].

Lemma random_short opt r :
  lenZ r = 48 → take 24 r ≠ [] ∧ sendable_str (take 24 r) ∧ sendable_str (auth_of opt r).
Proof.
  intros Hr. unfold sendable_str, auth_of, lenZ in *. split.
  - destruct r; [done|]. done.
  - rewrite length_take. split; [lia|]. destruct (s_PasswordAuth opt); [rewrite length_drop; lia|done].
Qed.

(** The PONG that answers a PING with the verdict [v]. *)
Definition reply (opt : ServerOptions) (v : option error) (salt nonce sharedKey : list Z) : obj :=
  match v with
  | None => pong_obj true [] (s_Hostname opt) (digest [salt; s_Hostname opt; nonce; sharedKey])
  | Some e => pong_obj false (Error e) (s_Hostname opt) (digest [nonce; s_Hostname opt; salt; []])
  end.

Lemma authenticate_at opt r ss hostname salt hexdigest username password bs rest :
  lenZ r = 48 → sendable_str (s_Hostname opt) → conn_open (ss_conn ss) → ss_write ss = [] →
  encodes (ping_obj hostname salt hexdigest username password) bs →
  delivers (it_r (ss_iter ss)) (bs ++ rest) →
  let cred := (s_Auth opt username).1 in
  let v := ping_verdict (s_Auth opt) (take 24 r) (auth_of opt r) hostname salt hexdigest username password in
  let helo := appendHelo [] (take 24 r) (auth_of opt r) in
  ∃ ss' pong, authenticate Error opt (r, None) ss = Ret (v, ss') ∧
    conn_open (ss_conn ss') ∧ sent (ss_conn ss') = sent (ss_conn ss) ++ helo ++ pong ∧
    encodes (helo_obj (take 24 r) (auth_of opt r)) helo ∧
    (v = None → appendPong (s_Hostname opt) [] salt (take 24 r) (SharedKey cred) true [] = Ret pong) ∧
    encodes (reply opt v salt (take 24 r) (SharedKey cred)) pong ∧
    ss_user ss' = (match v with None => Username cred | Some _ => ss_user ss end) ∧
    ss_write ss' = [] ∧ delivers (it_r (ss_iter ss')) rest.
Proof.
  intros Hr Hhost Hk Hw He Hd cred v helo. destruct (random_short opt r Hr) as (_ & Hn & Ha).
  unfold authenticate. fold (auth_of opt r). unfold writeHelo. rewrite Hw.
  destruct (appendHelo_encodes [] _ _ Hn Ha) as (bs1 & Eh & Hhelo). rewrite app_nil_l in Eh.
  rewrite <- Eh in Hhelo. fold helo in Hhelo |- *.
  destruct (ss_flush_open ss helo Hk) as (k & -> & Hk' & Hs). cbn [ss_iter ss_write ss_conn ss_user].
  destruct (readPing_at (s_Auth opt) (take 24 r) (auth_of opt r) (ss_iter ss) hostname salt (SStr salt)
    hexdigest username password bs rest Hd ltac:(auto) He) as (it' & -> & Hd').
  fold cred v. set (ss1 := mkServerSession it' [] k (ss_user ss)).
  destruct v as [e|]; unfold writePong.
  - destruct (appendPong_encodes (s_Hostname opt) [] (take 24 r) salt [] false (Error e) Hhost (Error_short e))
      as (pong & E & Hpong). change (ss_write ss1) with (@nil Z). rewrite E. go_simpl.
    destruct (ss_flush_open ss1 ([] ++ pong) Hk') as (k2 & -> & Hk2 & Hs2). go_simpl.
    eexists _, pong. split; [reflexivity|]. split_and!; try done.
    cbn [ss_conn]. rewrite Hs2. cbn [ss_conn ss1]. by rewrite Hs, <- app_assoc.
  - destruct (appendPong_encodes (s_Hostname opt) [] salt (take 24 r) (SharedKey cred) true [] Hhost ltac:(done))
      as (pong & E & Hpong). change (ss_write ss1) with (@nil Z). rewrite E. go_simpl.
    destruct (ss_flush_open ss1 ([] ++ pong) Hk') as (k2 & -> & Hk2 & Hs2). go_simpl.
    eexists _, pong. split; [reflexivity|]. split_and!; try done.
    cbn [ss_conn]. rewrite Hs2. cbn [ss_conn ss1]. by rewrite Hs, <- app_assoc.
Qed.

Lemma validate_digest vals : validateSha512Hex (digest vals) vals = true.
Proof. unfold validateSha512Hex. by rewrite bool_decide_true. Qed.

(** The PING of a client with the right credentials is accepted. *)
Lemma verdict_accepts Auth cred cred' hostname salt nonce auth :
  Auth (if bool_decide (auth ≠ []) then Username cred else []) = (cred', None) →
  SharedKey cred' = SharedKey cred → (auth ≠ [] → Password cred' = Password cred) →
  ping_verdict Auth nonce auth hostname salt (digest [salt; hostname; nonce; SharedKey cred])
    (if bool_decide (auth ≠ []) then Username cred else [])
    (if bool_decide (auth ≠ []) then digest [auth; Username cred; Password cred] else []) = None.
Proof.
  intros EA Ekey Epass. unfold ping_verdict. rewrite EA. cbn [fst snd]. rewrite Ekey, bool_decide_true by done.
  rewrite bool_decide_false; [done|]. intros [Ha Hp]. apply Hp.
  by rewrite bool_decide_true, Epass by done.
Qed.

(** What the client reads of the reply. *)
Lemma readPong_reply opt v salt nonce sharedKey it bs rest :
  delivers (it_r it) (bs ++ rest) → encodes (reply opt v salt nonce sharedKey) bs →
  ∃ it', readPong salt nonce sharedKey it =
      ((match v with
        | None => inr (s_Hostname opt)
        | Some e => inl (if bool_decide (Error e ≠ []) then Wrapf "%w: %s" ErrFailedAuth [FStr (Error e)]
                         else ErrFailedAuth)
        end), it') ∧ delivers (it_r it') rest.
Proof.
  intros Hd He. destruct v as [e|]; unfold reply, pong_obj in He;
    destruct (readPong_at salt nonce sharedKey it _ _ _ _ bs rest Hd He) as (it' & -> & Hd');
    exists it'; (split; [|done]); [done|]. cbn [negb]. by rewrite validate_digest.
Qed.

(** C15: The server decides a PING by the name, the digest of the shared key and, if it
    asked for a password, the digest of that ([ping_verdict]), whatever the client
    claims: it sends HELO and a PONG, returns the verdict, and records the user
    only if it accepts; the client that reads the PONG gets the server's host name
    if accepted, and otherwise an authentication error with the server's reason. *)
Theorem authenticate_decides opt r ss hostname salt hexdigest username password bs rest :
  lenZ r = 48 → sendable_str (s_Hostname opt) → conn_open (ss_conn ss) → ss_write ss = [] →
  encodes (ping_obj hostname salt hexdigest username password) bs →
  delivers (it_r (ss_iter ss)) (bs ++ rest) →
  let nonce := take 24 r in
  let cred := (s_Auth opt username).1 in
  let v := ping_verdict (s_Auth opt) nonce (auth_of opt r) hostname salt hexdigest username password in
  ∃ ss' helo pong, authenticate Error opt (r, None) ss = Ret (v, ss') ∧
    sent (ss_conn ss') = sent (ss_conn ss) ++ helo ++ pong ∧
    encodes (helo_obj nonce (auth_of opt r)) helo ∧
    ss_user ss' = (if bool_decide (v = None) then Username cred else ss_user ss) ∧
    delivers (it_r (ss_iter ss')) rest ∧
    ∀ it rest, delivers (it_r it) (pong ++ rest) → ∃ it',
      readPong salt nonce (SharedKey cred) it =
        ((match v with
          | None => inr (s_Hostname opt)
          | Some e => inl (if bool_decide (Error e ≠ []) then Wrapf "%w: %s" ErrFailedAuth [FStr (Error e)]
                           else ErrFailedAuth)
          end), it') ∧ delivers (it_r it') rest.
Proof.
  intros Hr Hhost Hk Hw He Hd nonce cred v.
  destruct (authenticate_at opt r ss hostname salt hexdigest username password bs rest Hr Hhost Hk Hw He Hd)
    as (ss' & pong & Ea & _ & Hs & Hh & _ & Hp & Hu & _ & Hd').
  exists ss', (appendHelo [] nonce (auth_of opt r)), pong. split_and!; try done; [by rewrite Hu; fold nonce cred v; destruct v|].
  intros it rest' Hd2. by apply (readPong_reply opt v salt nonce (SharedKey cred) it pong).
Qed.

(** C16: A client with the server's credentials is let in: what the server sends first is
    read as HELO with its nonce and password salt; the PING that the client then
    writes, the server accepts, recording the user; and the PONG that it answers
    with gives the client the server's host name.  The server must know the name
    the client sends, which is empty if no password is asked for. *)
Theorem handshake_agrees opt r cred cred' hostname salt :
  lenZ r = 48 → sendable_str (s_Hostname opt) → sendable_str hostname → sendable_str salt →
  sendable_str (Username cred) →
  let nonce := take 24 r in
  let auth := auth_of opt r in
  s_Auth opt (if bool_decide (auth ≠ []) then Username cred else []) = (cred', None) →
  SharedKey cred' = SharedKey cred → (auth ≠ [] → Password cred' = Password cred) →
  ∃ ping, appendPing hostname cred [] salt nonce auth = Ret ping ∧
    ∀ ss rest, conn_open (ss_conn ss) → ss_write ss = [] → delivers (it_r (ss_iter ss)) (ping ++ rest) →
     ∃ ss' helo pong, authenticate Error opt (r, None) ss = Ret (None, ss') ∧
       sent (ss_conn ss') = sent (ss_conn ss) ++ helo ++ pong ∧ ss_user ss' = Username cred' ∧
       delivers (it_r (ss_iter ss')) rest ∧
       ∀ it end_, delivers (it_r it) (helo ++ pong ++ end_) →
         ∃ it1 it2, readHelo it = (inr (nonce, auth, true), it1) ∧
           readPong salt nonce (SharedKey cred) it1 = (inr (s_Hostname opt), it2) ∧
           delivers (it_r it2) end_.
Proof.
  intros Hr Hhost Hh Hs Hu nonce auth EA Ekey Epass.
  destruct (appendPing_encodes hostname cred [] salt nonce auth Hh Hs Hu) as (ping & E & He).
  exists ping. split; [exact E|]. intros ss rest Hk Hw Hd.
  destruct (authenticate_at opt r ss hostname salt _ _ _ ping rest Hr Hhost Hk Hw He Hd)
    as (ss' & pong & Ea & _ & Hsent & Hhelo & _ & Hpong & Huser & _ & Hd').
  fold nonce auth in Ea, Hhelo, Hpong, Huser, Hsent. set (helo := appendHelo [] nonce auth) in *.
  set (v := ping_verdict _ _ _ _ _ _ _ _) in *.
  assert (v = None) as Hv by by apply (verdict_accepts _ cred cred').
  rewrite Hv in *. rewrite EA in Huser, Hpong. cbn [fst] in Huser, Hpong. rewrite Ekey in Hpong.
  exists ss', helo, pong. split_and!; try done. intros it end_ Hd1.
  destruct (readHelo_at it nonce auth helo _ Hd1 Hhelo (proj1 (random_short opt r Hr))) as (it1 & E1 & Hd2).
  destruct (readPong_reply opt None salt nonce (SharedKey cred) it1 pong end_ Hd2 Hpong) as (it2 & E2 & Hd3).
  by exists it1, it2.
Qed.

End Exchange.

(** ** Witnesses *)

(** A connection that records what is written. *)
#[export] Instance list_conn_ops : ConnOps (list Z) := { WriteTo b k := (None, [], k ++ b) }.

#[export] Program Instance list_conn_laws : ConnLaws (list Z) := { sent k := k; conn_open _ := True }.
Next Obligation. intros k b _. by exists (k ++ b). Qed.

Definition error0 (e : error) : list Z := str "refused".
Definition cred0 : Credentials := mkCredentials (str "user") (str "pass") (str "key").
Definition server0 : ServerOptions := mkServerOptions (str "srv") (StaticAuthServer cred0) true.
Definition random0 : list Z := replicate 48 7.
Definition salt0 : list Z := replicate 24 9.

Definition session1 (bs : list Z) : ServerSession list_ring (list Z) :=
  mkServerSession (iter_over bs) [] [] [].

Definition ping0 : list Z :=
  encode (ping_obj (str "cli") salt0 (str "no digest") (str "user") (str "no digest")).

Lemma ping0_encodes :
  encodes (ping_obj (str "cli") salt0 (str "no digest") (str "user") (str "no digest")) ping0.
Proof. solve_plain. Qed.

(** A client with a wrong key. *)
Lemma authenticate_decides_witness : ∃ ss' helo pong,
  authenticate error0 server0 (random0, None) (session1 ping0) = Ret (Some ErrInvalidSharedKey, ss') ∧
  sent (ss_conn ss') = [] ++ helo ++ pong ∧
  encodes (helo_obj (replicate 24 7) (replicate 24 7)) helo ∧ ss_user ss' = [] ∧
  pending (it_r (ss_iter ss')) = [] ∧
  ∀ it rest, pending (it_r it) = pong ++ rest → ∃ it',
    readPong salt0 (replicate 24 7) (str "key") it =
      (inl (Wrapf "%w: %s" ErrFailedAuth [FStr (str "refused")]), it') ∧ pending (it_r it') = rest.
Proof.
  refine (authenticate_decides error0 (λ _, eq_refl) server0 random0 (session1 ping0) (str "cli") salt0
    (str "no digest") (str "user") (str "no digest") ping0 [] eq_refl eq_refl Logic.I eq_refl ping0_encodes _).
  by vm_compute.
Defined.

Lemma handshake_agrees_witness : ∃ ping,
  appendPing (str "cli") cred0 [] salt0 (replicate 24 7) (replicate 24 7) = Ret ping ∧
  ∀ ss : ServerSession list_ring (list Z), ∀ rest,
    True → ss_write ss = [] → pending (it_r (ss_iter ss)) = ping ++ rest →
   ∃ ss' helo pong, authenticate error0 server0 (random0, None) ss = Ret (None, ss') ∧
     sent (ss_conn ss') = ss_conn ss ++ helo ++ pong ∧ ss_user ss' = str "user" ∧
     pending (it_r (ss_iter ss')) = rest ∧
     ∀ it end_, pending (it_r it) = helo ++ pong ++ end_ →
       ∃ it1 it2, readHelo it = (inr (replicate 24 7, replicate 24 7, true), it1) ∧
         readPong salt0 (replicate 24 7) (str "key") it1 = (inr (str "srv"), it2) ∧
         pending (it_r it2) = end_.
Proof.
  exact (handshake_agrees error0 (λ _, eq_refl) server0 random0 cred0 cred0 (str "cli") salt0
    eq_refl eq_refl eq_refl eq_refl eq_refl eq_refl eq_refl (λ _, eq_refl)).
Defined.
