(* ===== verification/Server.v ===== *)
(** * Server: the sessions of a server (forward/server.go, server_session.go)

    Each connection gets a session, which authenticates the client (Handshake) and
    then reads its messages (Transport).  Here are the parts that join the two: the
    acknowledgement that a session sends for a chunk, and what the server does with
    a connection from its first byte to its end.

    The loop that accepts connections, with the identifiers of sessions, is in Listen, the
    heartbeat's socket and read deadlines in Sockets; messages to the standard logger
    are left out. *)

From stdpp Require Import sets.
From S2P Require Import Prelude Types Errors Integer Headers Str Object Strconv RingBuf Iter Sha512.
From S2P Require Import Transport Safety Handshake.

Section Server.
  Context {R L I K : Type} `{!RingOps R, !RingOps I, !NestedOps R L I, !ConnOps K}.
  (** [conn.Close()] *)
  Variable conn_Close : K → option error * K.

(** The options of [NewServer]; an Auth that is nil becomes one that accepts every
    name with empty credentials. *)
Definition NewServer (hostname : list Z) (Auth : option (list Z → Credentials * option error))
    (passwordAuth : bool) : ServerOptions :=
  mkServerOptions hostname (default (λ _, (no_credentials, None)) Auth) passwordAuth.

(** [r] is a ring reader at the connection. *)
Definition newServerSession (r : R) (conn : K) : ServerSession R K :=
  mkServerSession (NewIterator r) [] conn [].

(** The acknowledgement of a chunk, on the session's buffer and connection. *)
Definition ss_ack (chunk : list Z) (a : list Z * K) : option error * (list Z * K) :=
  let b := AppendMapHeader a.1 1 in
  let b := AppendString b (str "ack") in
  let b := AppendString b chunk in
  let '(err, b, k) := WriteTo b a.2 in
  (err, (b, k)).

Definition initTransportPhase (ss : ServerSession R K) : Session R I (list Z * K) :=
  Init (ss_iter ss) (ss_write ss, ss_conn ss).

Definition ss_Next (fuel : nat) (s : Session R I (list Z * K)) (e : Entry) :=
  Transport.Next ss_ack fuel s e.

(** Closing gives the iterator and the buffer back to their pools. *)
Definition ss_Close (conn : K) : option error * K := conn_Close conn.

(** What the server does with the session of a connection: the errors it reports to
    HandleError, and the connection at its end.  The handler of the transport phase is
    the application's. *)
Definition handle_session (Error : error → list Z) (opt : ServerOptions) (rand : list Z * option error)
    (handler : list Z → Session R I (list Z * K) → go (option error * K)) (ss : ServerSession R K) :
    go (list error * K) :=
  '(err, ss) ← authenticate Error opt rand ss;
  match err with
  | Some e => Ret ([e], (ss_Close (ss_conn ss)).2)
  | None =>
    '(err, conn) ← handler (ss_user ss) (initTransportPhase ss);
    Ret (match err with Some e => if is_EOF e then [] else [e] | None => [] end, (ss_Close conn).2)
  end.

(** A connection, with a ring reader at it. *)
Definition handle_conn (Error : error → list Z) (opt : ServerOptions) (rand : list Z * option error)
    (handler : list Z → Session R I (list Z * K) → go (option error * K)) (r : R) (conn : K) :
    go (list error * K) := handle_session Error opt rand handler (newServerSession r conn).

End Server.

(** ** Acknowledgements *)

Definition ack_message (chunk : list Z) : list Z :=
  AppendMapHeader [] 1 ++ AppendString [] (str "ack") ++ AppendString [] chunk.

Lemma ack_message_encodes chunk :
  sendable_str chunk → encodes (record_obj [(str "ack", OScalar (SStr chunk))]) (ack_message chunk).
Proof.
  intros Hc. assert (ack_message chunk = AppendMapHeader [] 1 ++
    concat [AppendString [] (str "ack"); AppendString [] chunk]) as ->.
  { unfold ack_message. cbn [concat]. by rewrite app_nil_r. }
  constructor; [by apply AppendMapHeader_header|].
  repeat (apply Forall2_cons_2; [by apply Str_encodes|]). constructor.
Qed.

Section Acks.
  Context {R L I K : Type} `{!RingOps R, !RingOps I, !NestedOps R L I, !ConnOps K}.
  Context `{!RingLaws R, !NestedLaws R L I, !ConnLaws K}.

Lemma ss_ack_open chunk (k : K) :
  conn_open k →
  ∃ k', ss_ack chunk ([], k) = (None, ([], k')) ∧ conn_open k' ∧ sent k' = sent k ++ ack_message chunk.
Proof.
  intros Hk. unfold ss_ack. cbn [fst snd]. spread. rewrite <- !app_assoc.
  change (AppendMapHeader [] 1 ++ _) with (ack_message chunk).
  destruct (WriteTo_open k (ack_message chunk) Hk) as (k' & -> & Hk' & Hs). by exists k'.
Qed.

Lemma acks_open cs : ∀ k : K,
  conn_open k →
  acks_ok ss_ack ([], k) cs ∧
  ∃ k', acked ss_ack ([], k) cs = ([], k') ∧ conn_open k' ∧ sent k' = sent k ++ concat (map ack_message cs).
Proof.
  induction cs as [|c cs IH]; intros k Hk.
  { split; [done|]. exists k. by rewrite app_nil_r. }
  destruct (ss_ack_open c k Hk) as (k1 & E & Hk1 & Hs1). destruct (IH k1 Hk1) as (Hok & k' & Ea & Hk' & Hs).
  cbn [acks_ok acked fold_left map concat]. rewrite E. cbn [fst snd]. split; [by split|].
  exists k'. split_and!; [done|done|]. by rewrite Hs, Hs1, app_assoc.
Qed.

End Acks.

(** ** Whatever a client sends *)

Section AnyBytes.
  Context {R L I K : Type} `{!RingOps R, !RingOps I, !NestedOps R L I, !ConnOps K}.
  Variable conn_Close : K → option error * K.

Lemma writePong_returns (opt : ServerOptions) (ss : ServerSession R K) salt nonce key res reason :
  returns (writePong opt ss salt nonce key res reason).
Proof.
  unfold writePong, appendPong. cbv zeta.
  match goal with |- context [AppendStringMax255 ?b (sha512Hex ?parts)] =>
    destruct (AppendStringMax255_digest b parts) as (d & -> & _) end. by eexists.
Qed.

Lemma authenticate_returns Error opt rand (ss : ServerSession R K) :
  returns (authenticate Error opt rand ss).
Proof.
  unfold authenticate. destruct rand as [r [e|]]; [by eexists|].
  destruct (writeHelo ss _ _) as [[e|] ss1]; [by eexists|].
  destruct (readPing _ _ _ _) as [[[salt cred] [e|]] it].
  - destruct (writePong_returns opt (mkServerSession it (ss_write ss1) (ss_conn ss1) (ss_user ss1))
      (take 24 r) salt [] false (Error e)) as [[err ss2] ->]. by eexists.
  - destruct (writePong_returns opt (mkServerSession it (ss_write ss1) (ss_conn ss1) (ss_user ss1))
      salt (take 24 r) (SharedKey cred) true []) as [[[err|] ss2] ->]; by eexists.
Qed.

(** A connection makes the server panic only if its handler does; the handler starts
    with a session that [Next_safe] is about. *)
Lemma handle_conn_tame Error opt rand handler (rd : R) (conn : K) :
  (∀ user (s : Session R I (list Z * K)), handled ss_ack s → tame (λ _, True) (handler user s)) →
  tame (λ _, True) (handle_conn conn_Close Error opt rand handler rd conn).
Proof.
  intros Hh. unfold handle_conn, handle_session.
  destruct (authenticate_returns Error opt rand (newServerSession rd conn)) as [[[e|] ss] ->]; [done|]. go_simpl.
  eapply tame_bind; [apply Hh, handled_Init|]. by intros [err conn'] _.
Qed.

End AnyBytes.

(** ** Properties *)

Section Properties.
  Context {R L I K : Type} `{!RingOps R, !RingOps I, !NestedOps R L I, !ConnOps K}.
  Context `{!RingLaws R, !NestedLaws R L I, !ConnLaws K}.
  Context (Error : error → list Z) (Error_short : ∀ e, sendable_str (Error e)).
  Variable conn_Close : K → option error * K.

(** A session that was authenticated hands out the entries of the stream that follows
    and acknowledges its chunks. *)
Lemma session_ready fuel (ss : ServerSession R K) evs cs bs z :
  conn_open (ss_conn ss) → ss_write ss = [] → delivers (it_r (ss_iter ss)) bs → stream gunzips evs cs bs z →
  (length bs + z + 2 < fuel)%nat →
  hands_out ss_ack fuel (initTransportPhase (I := I) ss) evs cs ∧
  ∃ k, acked ss_ack (ss_write ss, ss_conn ss) cs = ([], k) ∧
    sent k = sent (ss_conn ss) ++ concat (map ack_message cs).
Proof.
  intros Hk Hw Hd Hst Hf. destruct (acks_open cs (ss_conn ss) Hk) as (Hok & k & Ea & _ & Hs).
  unfold initTransportPhase. rewrite Hw. split; [|by exists k].
  apply (ready_hands_out ss_ack fuel evs _ cs (length bs + z)); [by apply ready_message|done|lia].
Qed.

(** A session whose client sends a PING and then the messages of a stream: it is refused,
    or the handler gets a session that hands out the entries of the stream. *)
Lemma handle_session_serves opt r (ss : ServerSession R K) hostname salt hexdigest username password ping fuel
    evs cs bs z :
  lenZ r = 48 → sendable_str (s_Hostname opt) → conn_open (ss_conn ss) → ss_write ss = [] →
  encodes (ping_obj hostname salt hexdigest username password) ping → delivers (it_r (ss_iter ss)) (ping ++ bs) →
  stream gunzips evs cs bs z → (length bs + z + 2 < fuel)%nat →
  let cred := (s_Auth opt username).1 in
  let v := ping_verdict (s_Auth opt) (take 24 r) (auth_of opt r) hostname salt hexdigest username password in
  ∃ pong conn' s, encodes (reply Error opt v salt (take 24 r) (SharedKey cred)) pong ∧
    sent conn' = sent (ss_conn ss) ++ appendHelo [] (take 24 r) (auth_of opt r) ++ pong ∧
    (∀ handler, handle_session conn_Close Error opt (r, None) handler ss =
      match v with
      | Some e => Ret ([e], (conn_Close conn').2)
      | None =>
        '(err, conn) ← handler (Username cred) s;
        Ret (match err with Some e => if is_EOF e then [] else [e] | None => [] end, (conn_Close conn).2)
      end) ∧
    (v = None → hands_out ss_ack fuel s evs cs ∧
      ∃ k, acked ss_ack (acks s) cs = ([], k) ∧ sent k = sent conn' ++ concat (map ack_message cs)).
Proof.
  intros Hr Hhost Hk Hw0 He Hd Hst Hf cred v.
  destruct (authenticate_at Error Error_short opt r ss hostname salt hexdigest username
    password ping bs Hr Hhost Hk Hw0 He Hd) as (ss' & pong & Ea & Hk' & Hs & _ & _ & Hp & Hu & Hw & Hd').
  destruct (session_ready fuel ss' evs cs bs z Hk' Hw Hd' Hst Hf) as (Hout & k & Ek & Hsk).
  exists pong, (ss_conn ss'), (initTransportPhase ss'). fold cred v in Hu, Ea |- *.
  split; [done|split; [exact Hs|split]].
  - intros handler. unfold handle_session. rewrite Ea. go_simpl. destruct v as [e|]; [done|]. by rewrite Hu.
  - intros _. split; [done|]. by exists k.
Qed.

(** The server decides each connection by its PING: if it is refused, the server
    reports the error and closes the connection without ever calling the handler;
    otherwise the handler is called with the user's name and a session that hands out
    exactly the entries of the messages that follow, and that acknowledges their
    chunks, in order, after the HELO and the PONG. *)
Theorem handle_conn_serves opt r (rd : R) (conn : K) hostname salt hexdigest username password ping fuel
    evs cs bs z handler :
  lenZ r = 48 → sendable_str (s_Hostname opt) → conn_open conn →
  encodes (ping_obj hostname salt hexdigest username password) ping → delivers rd (ping ++ bs) →
  stream gunzips evs cs bs z → (length bs + z + 2 < fuel)%nat →
  let cred := (s_Auth opt username).1 in
  let v := ping_verdict (s_Auth opt) (take 24 r) (auth_of opt r) hostname salt hexdigest username password in
  ∃ pong conn', encodes (reply Error opt v salt (take 24 r) (SharedKey cred)) pong ∧
    sent conn' = sent conn ++ appendHelo [] (take 24 r) (auth_of opt r) ++ pong ∧
    match v with
    | Some e => handle_conn conn_Close Error opt (r, None) handler rd conn = Ret ([e], (conn_Close conn').2)
    | None => ∃ s : Session R I (list Z * K),
        handle_conn conn_Close Error opt (r, None) handler rd conn =
          ('(err, conn) ← handler (Username cred) s;
           Ret (match err with Some e => if is_EOF e then [] else [e] | None => [] end, (conn_Close conn).2)) ∧
        hands_out ss_ack fuel s evs cs ∧
        ∃ k, acked ss_ack (acks s) cs = ([], k) ∧ sent k = sent conn' ++ concat (map ack_message cs)
    end.
Proof.
  intros Hr Hhost Hk He Hd Hst Hf cred v.
  destruct (handle_session_serves opt r (newServerSession rd conn) hostname salt hexdigest username password ping fuel
    evs cs bs z Hr Hhost Hk eq_refl He (SetManualFlush_delivers _ _ _ Hd) Hst Hf) as (pong & conn' & s & Hp & Hs & Hh & Hout).
  exists pong, conn'. split; [done|split; [exact Hs|]]. unfold handle_conn. fold cred v in Hh, Hout. rewrite (Hh handler).
  destruct v as [e|]; [done|]. exists s. by destruct (Hout eq_refl).
Qed.

End Properties.

(** ** Witness: a client with the right key and password *)

Definition close0 (k : list Z) : option error * list Z := (None, k).

Definition ping1_obj : obj :=
  ping_obj (str "cli") salt0 (digest [salt0; str "cli"; replicate 24 7; str "key"]) (str "user")
    (digest [replicate 24 7; str "user"; str "pass"]).

Lemma ping1_verdict :
  ping_verdict (s_Auth server0) (replicate 24 7) (replicate 24 7) (str "cli") salt0
    (digest [salt0; str "cli"; replicate 24 7; str "key"]) (str "user")
    (digest [replicate 24 7; str "user"; str "pass"]) = None.
Proof.
  unfold ping_verdict. change (s_Auth server0 (str "user")) with (cred0, @None error).
  cbn [fst snd SharedKey Username Password cred0]. rewrite bool_decide_true by done.
  rewrite bool_decide_false; [done|]. by intros [_ H].
Qed.

Lemma ping1_encodes : ∃ bs, encodes ping1_obj bs.
Proof. destruct (appendPing_encodes (str "cli") cred0 [] salt0 (replicate 24 7) (replicate 24 7)) as (bs & _ & H); try done. by exists bs. Qed.

(** A handler that ends with the end of the stream. *)
Definition handler0 (user : list Z) (s : Session list_ring list_inner (list Z * list Z)) :
    go (option error * list Z) := Ret (Some EOF, (acks s).2).

Lemma handle_conn_serves_witness : ∃ ping,
  encodes ping1_obj ping ∧
  let rd := mkListRing (ping ++ message0 ++ forward0 ++ compressed0) false in
  ∃ pong conn',
    encodes (reply error0 server0 None salt0 (replicate 24 7) (str "key")) pong ∧
    conn' = [] ++ appendHelo [] (replicate 24 7) (replicate 24 7) ++ pong ∧
    ∃ s : Session list_ring list_inner (list Z * list Z),
      handle_conn close0 error0 server0 (random0, None) handler0 rd [] =
        ('(err, conn) ← handler0 (str "user") s;
         Ret (match err with Some e => if is_EOF e then [] else [e] | None => [] end, conn)) ∧
      hands_out ss_ack 200 s [event0; event0; event0; event0] [str "c1"] ∧
      ∃ k, acked ss_ack (acks s) [str "c1"] = ([], k) ∧ k = conn' ++ concat (map ack_message [str "c1"]).
Proof.
  destruct ping1_encodes as (ping & He). exists ping. split; [exact He|].
  assert (Hf : (length (message0 ++ forward0 ++ compressed0) + size0 + 2 < 200)%nat) by by apply Nat.ltb_lt.
  pose proof (handle_conn_serves error0 (λ _, eq_refl) close0 server0 random0
    (mkListRing (ping ++ message0 ++ forward0 ++ compressed0) false) [] (str "cli") salt0
    (digest [salt0; str "cli"; replicate 24 7; str "key"]) (str "user")
    (digest [replicate 24 7; str "user"; str "pass"]) ping 200 _ _ _ size0 handler0 eq_refl eq_refl Logic.I
    He eq_refl stream0 Hf) as H.
  cbv zeta in H. change (take 24 random0) with (replicate 24 7) in H.
  change (auth_of server0 random0) with (replicate 24 7) in H. rewrite ping1_verdict in H. exact H.
Defined.
