(* ===== verification/Sessions.v ===== *)
(** * Sessions: the sessions of a server beside each other (forward/server.go, server_session.go)

    Each connection of a server is served by a goroutine of its own with a session: an
    iterator and a write buffer from the server's pools, and the connection.  Server and
    Transport are about one session.  Here are all of them over the shared pools, in any
    interleaving: what one does cannot be seen by another ([sessions_isolated]), as the
    server closes each once.  [Close] is exported, and a second [Close] puts the
    iterator into the pool again, so that two later clients get the same
    ([Close_twice_shares]).

    The iterators of packed messages come from the same pool.  Here a phase has the
    pool's iterators as values ([t_iterPool] of Transport): that other sessions have put
    some there, or taken some, is an action like any other ([MAct] with [set_pool]).

    [pooled_automatic] is a run in which a session that is closed within a packed message
    leaves the next client an iterator without manual flushing. *)

From stdpp Require Import relations.
From S2P Require Import Prelude Types Errors Integer Headers Str Timestamp Object RingBuf Iter Transport Safety.
From S2P Require Import Rewind Lifetime Pool Pooled Handshake Server.

Section Sessions.
  Context {R L I K S : Type} `{!RingOps R, !RingOps I, !NestedOps R L I, !ConnOps K, BP : !BufferPool}.
  Variable conn_Close : K → option error * K.
  (** ring readers over the connections *)
  Variable NewReader : S → R.
  Variable ResetReader : R → option S → R.

Abbreviation session := (Session R I (list Z * K)).

(** A session: its iterator and its buffer are handles. *)
Record PSession := mkPSession {
  ps_iter : nat;
  ps_write : nat;
  ps_conn : K;
  ps_phase : TransportPhase (I := I)
}.

(** The server's pools and its sessions, by the order of their connections; [opened] are
    those whose goroutine has not ended. *)
Record Pools := mkPools {
  iterPool : Pool (Iterator R);
  bufPool : Pool (list Z);
  sessions : list PSession;
  opened : list nat
}.

Implicit Types (sv : Pools) (i : nat) (s : session).

(** [newServerSession], before the transport phase is set up. *)
Definition accept (pickI pickB : option nat) (src : S) (conn : K) sv : Pools :=
  let '(h, ip) := IterPool_Get NewReader ResetReader pickI src (iterPool sv) in
  let '(b, bp) := buf_Get pickB (bufPool sv) in
  let ph := phase (Init (I := I) (NewIterator (NewReader src)) (@nil Z, conn)) in
  mkPools ip bp (sessions sv ++ [mkPSession h b conn ph]) (length (sessions sv) :: opened sv).

(** What a session is to its goroutine: as in Server, with the pools read. *)
Definition view sv i : option session :=
  ps ← sessions sv !! i; it ← deref (iterPool sv) (ps_iter ps);
  Some (mkSession (ps_phase ps) it (content (bufPool sv) (ps_write ps), ps_conn ps)).

(** The goroutine has changed what is its own. *)
Definition store i s sv : Pools :=
  match sessions sv !! i with
  | Some ps =>
    mkPools (assign (ps_iter ps) (orig s) (iterPool sv)) (assign (ps_write ps) (acks s).1 (bufPool sv))
      (<[i := mkPSession (ps_iter ps) (ps_write ps) (acks s).2 (phase s)]> (sessions sv)) (opened sv)
  | None => sv
  end.

(** [ServerSession.Close] *)
Definition session_Close i sv : Pools :=
  match sessions sv !! i with
  | Some ps =>
    mkPools (IterPool_Put ResetReader (ps_iter ps) (iterPool sv)) (buf_Put (Some (ps_write ps)) (bufPool sv))
      (<[i := mkPSession (ps_iter ps) (ps_write ps) (conn_Close (ps_conn ps)).2 (ps_phase ps)]> (sessions sv))
      (filter (λ j, j ≠ i) (opened sv))
  | None => sv
  end.

(** A connection arrives; a goroutine does something with its session: the handshake, a
    call of [Next], reading a record; or it ends. *)
Inductive move :=
  | MAccept (pickI pickB : option nat) (src : S) (conn : K)
  | MAct (i : nat) (f : session → session)
  | MClose (i : nat).

Definition run_move (m : move) sv : option Pools :=
  match m with
  | MAccept pickI pickB src conn => Some (accept pickI pickB src conn sv)
  | MAct i f => if decide (i ∈ opened sv) then s ← view sv i; Some (store i (f s) sv) else None
  | MClose i => if decide (i ∈ opened sv) then Some (session_Close i sv) else None
  end.

Fixpoint run_moves (ms : list move) sv : option Pools :=
  match ms with
  | [] => Some sv
  | m :: ms => sv ← run_move m sv; run_moves ms sv
  end.

(** [ServerSession.Next], as an action. *)
Definition next_action (fuel : nat) (e : Entry) (s : session) : session :=
  match ss_Next fuel s e with Ret (_, s', _) => s' | Panic _ => s end.

Definition no_sessions : Pools := mkPools (mkPool [] []) (mkPool [] []) [] [].

(** ** The invariant *)

Definition iter_of sv i : nat := from_option ps_iter 0%nat (sessions sv !! i).
Definition write_of sv i : nat := from_option ps_write 0%nat (sessions sv !! i).

Record inv sv : Prop := {
  inv_iters : owned (iterPool sv) (map (iter_of sv) (opened sv));
  inv_bufs : owned (bufPool sv) (map (write_of sv) (opened sv));
  inv_opened : NoDup (opened sv);
  inv_sessions : Forall (λ i, (i < length (sessions sv))%nat) (opened sv)
}.

Lemma inv_none : inv no_sessions.
Proof. split; [apply owned_nil|apply owned_nil|apply NoDup_nil_2|by apply Forall_nil]. Qed.

Lemma opened_session sv i : inv sv → (i ∈ opened sv) → ∃ ps, sessions sv !! i = Some ps.
Proof. intros [_ _ _ H] Hi. rewrite Forall_forall in H. by apply lookup_lt_is_Some, H. Qed.

Lemma opened_view sv i : inv sv → (i ∈ opened sv) → is_Some (view sv i).
Proof.
  intros Hi Ho. destruct (opened_session sv i Hi Ho) as [ps Eps]. unfold view. rewrite Eps. cbn.
  destruct (owned_deref _ _ (ps_iter ps) (inv_iters sv Hi)) as [it ->]; [|by eexists].
  apply list_elem_of_fmap. exists i. unfold iter_of. by rewrite Eps.
Qed.

(** Handles of different sessions are different. *)
Lemma handles_differ (f : nat → nat) l i j : NoDup (map f l) → (i ∈ l) → (j ∈ l) → i ≠ j → f i ≠ f j.
Proof.
  intros Hnd (a & Ha)%list_elem_of_lookup (b & Hb)%list_elem_of_lookup Hne E. apply Hne.
  assert (a = b) as ->; [|congruence]. apply (NoDup_lookup (map f l) a b (f i)); [done|by rewrite list_lookup_fmap, Ha|].
  rewrite list_lookup_fmap, Hb. cbn. by rewrite E.
Qed.

Lemma iters_differ sv i j : inv sv → (i ∈ opened sv) → (j ∈ opened sv) → i ≠ j → iter_of sv i ≠ iter_of sv j.
Proof.
  intros Hi. apply handles_differ. by pose proof (owned_once _ _ (inv_iters sv Hi)) as (_ & _ & Hnd)%NoDup_app.
Qed.

Lemma writes_differ sv i j : inv sv → (i ∈ opened sv) → (j ∈ opened sv) → i ≠ j → write_of sv i ≠ write_of sv j.
Proof.
  intros Hi. apply handles_differ. by pose proof (owned_once _ _ (inv_bufs sv Hi)) as (_ & _ & Hnd)%NoDup_app.
Qed.

(** What a session sees depends on its own part only. *)
Lemma view_same sv sv' i :
  sessions sv' !! i = sessions sv !! i → deref (iterPool sv') (iter_of sv i) = deref (iterPool sv) (iter_of sv i) →
  content (bufPool sv') (write_of sv i) = content (bufPool sv) (write_of sv i) → view sv' i = view sv i.
Proof.
  unfold iter_of, write_of, view. intros -> H1 H2. destruct (sessions sv !! i) as [ps|]; [|done].
  cbn [from_option mbind option_bind] in *. by rewrite H1, H2.
Qed.

Lemma iter_of_elem sv i : (i ∈ opened sv) → iter_of sv i ∈ map (iter_of sv) (opened sv).
Proof. apply list_elem_of_fmap_2. Qed.
Lemma write_of_elem sv i : (i ∈ opened sv) → write_of sv i ∈ map (write_of sv) (opened sv).
Proof. apply list_elem_of_fmap_2. Qed.

(** ** What a move does *)

(** Moves that keep the handles of the sessions that go on. *)
Lemma same_handles sv sv' l :
  (∀ i, i ∈ l → sessions sv' !! i = sessions sv !! i ∨
    ∃ ps ps', sessions sv !! i = Some ps ∧ sessions sv' !! i = Some ps' ∧ ps_iter ps' = ps_iter ps ∧ ps_write ps' = ps_write ps) →
  map (iter_of sv') l = map (iter_of sv) l ∧ map (write_of sv') l = map (write_of sv) l.
Proof.
  intros Hs. unfold iter_of, write_of. split; apply map_ext_in; intros i Hi%list_elem_of_In;
    (destruct (Hs i Hi) as [-> |(ps & ps' & -> & -> & E1 & E2)]; [done|cbn; by rewrite ?E1, ?E2]).
Qed.

Lemma store_ok i s sv :
  inv sv → (i ∈ opened sv) →
  inv (store i s sv) ∧ opened (store i s sv) = opened sv ∧ view (store i s sv) i = Some s ∧
  ∀ j, (j ∈ opened sv) → j ≠ i → view (store i s sv) j = view sv j.
Proof.
  intros Hi Ho. destruct (opened_session sv i Hi Ho) as [ps Eps].
  pose proof (lookup_lt_Some _ _ _ Eps) as Hlt.
  assert (iter_of sv i = ps_iter ps ∧ write_of sv i = ps_write ps) as [Ei Ew] by (unfold iter_of, write_of; by rewrite Eps).
  destruct (same_handles sv (store i s sv) (opened sv)) as [Hhi Hhw].
  { intros j _. unfold store. rewrite Eps. cbn. destruct (decide (j = i)) as [->|Hne].
    - right. eexists ps, _. split; [done|]. by rewrite list_lookup_insert_eq.
    - left. by rewrite list_lookup_insert_ne. }
  pose proof (iter_of_elem sv i Ho) as Hie. pose proof (write_of_elem sv i Ho) as Hwe. rewrite Ei in Hie. rewrite Ew in Hwe.
  pose proof (inv_iters sv Hi) as Hoi. pose proof (inv_bufs sv Hi) as Hob.
  assert (opened (store i s sv) = opened sv) as Hop by (unfold store; by rewrite Eps). split; [|split; [done|split]].
  - split; rewrite ?Hop, ?Hhi, ?Hhw.
    + unfold store. rewrite Eps. by apply owned_assign.
    + unfold store. rewrite Eps. by apply owned_assign.
    + apply (inv_opened sv Hi).
    + unfold store. rewrite Eps. cbn. rewrite length_insert. apply (inv_sessions sv Hi).
  - unfold view, store. rewrite Eps. cbn [sessions iterPool bufPool]. rewrite list_lookup_insert_eq by done.
    cbn [mbind option_bind ps_iter ps_write ps_conn ps_phase].
    rewrite (deref_assign (iterPool sv) _ _ _ Hoi Hie). cbn [mbind option_bind]. rewrite (content_assign _ _ _ _ Hob Hwe).
    by destruct s as [ph it [b c]].
  - intros j Hj Hne. pose proof (iters_differ sv i j Hi Ho Hj ltac:(done)) as Hdi. rewrite Ei in Hdi.
    pose proof (writes_differ sv i j Hi Ho Hj ltac:(done)) as Hdw. rewrite Ew in Hdw.
    apply view_same; unfold store; rewrite Eps; cbn [sessions iterPool bufPool].
    + by rewrite list_lookup_insert_ne.
    + by rewrite deref_assign_ne.
    + unfold content. by rewrite deref_assign_ne.
Qed.

Lemma close_ok i sv :
  inv sv → (i ∈ opened sv) →
  inv (session_Close i sv) ∧ opened (session_Close i sv) = filter (λ j, j ≠ i) (opened sv) ∧
  ∀ j, (j ∈ opened sv) → j ≠ i → view (session_Close i sv) j = view sv j.
Proof.
  intros Hi Ho. destruct (opened_session sv i Hi Ho) as [ps Eps].
  assert (iter_of sv i = ps_iter ps ∧ write_of sv i = ps_write ps) as [Ei Ew] by (unfold iter_of, write_of; by rewrite Eps).
  set (rest := filter (λ j, j ≠ i) (opened sv)).
  assert (opened sv ≡ₚ i :: rest) as Hp.
  { apply NoDup_Permutation; [apply (inv_opened sv Hi)|constructor|].
    - unfold rest. rewrite list_elem_of_filter. tauto.
    - apply NoDup_filter, (inv_opened sv Hi).
    - intros j. unfold rest. rewrite elem_of_cons, list_elem_of_filter. destruct (decide (j = i)) as [->|]; tauto. }
  pose proof (inv_iters sv Hi) as Hoi. pose proof (inv_bufs sv Hi) as Hob.
  assert (owned (iterPool sv) (ps_iter ps :: map (iter_of sv) rest)) as Hoi' by (rewrite <- Ei; by rewrite Hp in Hoi).
  assert (owned (bufPool sv) (ps_write ps :: map (write_of sv) rest)) as Hob' by (rewrite <- Ew; by rewrite Hp in Hob).
  destruct (buf_Put_owned _ _ _ Hob') as [Hob2 Hag].
  destruct (same_handles sv (session_Close i sv) rest) as [Hhi Hhw].
  { intros j _. unfold session_Close. rewrite Eps. cbn. destruct (decide (j = i)) as [->|Hne].
    - right. eexists ps, _. split; [done|]. rewrite list_lookup_insert_eq by (by eapply lookup_lt_Some). done.
    - left. by rewrite list_lookup_insert_ne. }
  assert (opened (session_Close i sv) = rest) as Hop by (unfold session_Close; by rewrite Eps). split; [|split; [done|]].
  - split; rewrite ?Hop, ?Hhi, ?Hhw.
    + unfold session_Close. rewrite Eps. by apply IterPool_Put_owned.
    + unfold session_Close. by rewrite Eps.
    + apply NoDup_filter, (inv_opened sv Hi).
    + pose proof (inv_sessions sv Hi) as Hs. rewrite Hp, Forall_cons in Hs.
      unfold session_Close. rewrite Eps. cbn. rewrite length_insert. apply Hs.
  - intros j Hj Hne. pose proof (iters_differ sv i j Hi Ho Hj ltac:(done)) as Hdi. rewrite Ei in Hdi.
    apply view_same; unfold session_Close; rewrite Eps; cbn [sessions iterPool bufPool].
    + by rewrite list_lookup_insert_ne.
    + by rewrite IterPool_Put_deref.
    + apply Hag. apply list_elem_of_fmap_2. unfold rest. by apply list_elem_of_filter.
Qed.

(** A new session has an iterator over its connection and an empty buffer. *)
Lemma accept_ok pickI pickB src conn sv :
  inv sv →
  let sv' := accept pickI pickB src conn sv in
  let n := length (sessions sv) in
  inv sv' ∧ opened sv' = n :: opened sv ∧ (n ∉ opened sv) ∧
  (∃ it, view sv' n = Some (Init it ([], conn)) ∧
    (it = NewIterator (NewReader src) ∨ ∃ it0, it = Iter_Reset ResetReader it0 (Some src))) ∧
  ∀ j, (j ∈ opened sv) → view sv' j = view sv j.
Proof.
  intros Hi. cbv zeta. unfold accept.
  destruct (IterPool_Get NewReader ResetReader pickI src (iterPool sv)) as [h ip] eqn:Eg.
  destruct (IterPool_Get_owned NewReader ResetReader _ _ _ _ _ _ (inv_iters sv Hi) Eg) as (H1 & H2 & H3 & H4).
  destruct (buf_Get pickB (bufPool sv)) as [b bp] eqn:Eb.
  destruct (buf_Get_owned _ _ _ _ _ (inv_bufs sv Hi) Eb) as (B1 & B2 & B3 & B4).
  set (n := length (sessions sv)). set (ps := mkPSession h b conn _). set (sv' := mkPools _ _ _ _).
  pose proof (inv_sessions sv Hi) as Hs.
  assert (∀ j, (j ∈ opened sv) → sessions sv' !! j = sessions sv !! j) as Hold.
  { intros j Hj. cbn. apply lookup_app_l. rewrite Forall_forall in Hs. by apply Hs. }
  assert (sessions sv' !! n = Some ps) as Hnew by (cbn; by apply list_lookup_middle).
  destruct (same_handles sv sv' (opened sv)) as [Hhi Hhw]; [intros j Hj; left; by apply Hold|].
  assert (n ∉ opened sv) as Hn.
  { intros Hin. rewrite Forall_forall in Hs. specialize (Hs n Hin). unfold n in Hs. lia. }
  assert (iter_of sv' n = h ∧ write_of sv' n = b) as [Ei Ew] by (unfold iter_of, write_of; by rewrite Hnew).
  split; [|split; [done|split; [done|split]]].
  - split; cbn [opened sv' map].
    + by rewrite Ei, Hhi.
    + by rewrite Ew, Hhw.
    + constructor; [done|apply (inv_opened sv Hi)].
    + cbn. rewrite length_app. apply Forall_cons. cbn. split; [unfold n; lia|].
      eapply Forall_impl; [exact Hs|]. cbn. lia.
  - unfold view. rewrite Hnew. cbn [mbind option_bind ps_iter ps_write ps_conn ps_phase ps].
    change (iterPool sv') with ip. change (bufPool sv') with bp. rewrite B4.
    destruct H4 as [->|(it0 & _ & ->)]; (eexists; split; [reflexivity|]); [by left|right; by exists it0].
  - intros j Hj. apply view_same; [by apply Hold| |].
    + apply H3, iter_of_elem, Hj.
    + apply B3, write_of_elem, Hj.
Qed.

(** The connection of a session, whether it is open or not. *)
Definition conn_of sv i : option K := ps_conn <$> sessions sv !! i.

Lemma view_conn sv i s : view sv i = Some s → conn_of sv i = Some (acks s).2.
Proof.
  unfold view, conn_of. destruct (sessions sv !! i) as [ps|]; [|done]. cbn.
  destruct (deref (iterPool sv) (ps_iter ps)); [|done]. cbn. by intros [= <-].
Qed.

Lemma accept_conn pickI pickB src conn sv :
  length (sessions (accept pickI pickB src conn sv)) = Datatypes.S (length (sessions sv)) ∧
  ∀ j, (j < length (sessions sv))%nat → conn_of (accept pickI pickB src conn sv) j = conn_of sv j.
Proof.
  unfold accept, conn_of. destruct (IterPool_Get _ _ _ _ _) as [h ip]. destruct (buf_Get _ _) as [b bp].
  cbn [sessions]. split; [rewrite length_app; cbn; lia|]. intros j Hj. by rewrite lookup_app_l.
Qed.

Lemma store_conn i s sv :
  length (sessions (store i s sv)) = length (sessions sv) ∧
  ∀ j, j ≠ i → conn_of (store i s sv) j = conn_of sv j.
Proof.
  unfold store, conn_of. destruct (sessions sv !! i) as [ps|] eqn:E; [|done]. cbn [sessions].
  split; [apply length_insert|]. intros j Hj. by rewrite list_lookup_insert_ne.
Qed.

Lemma close_conn i sv :
  length (sessions (session_Close i sv)) = length (sessions sv) ∧
  conn_of (session_Close i sv) i = (λ k, (conn_Close k).2) <$> conn_of sv i ∧
  ∀ j, j ≠ i → conn_of (session_Close i sv) j = conn_of sv j.
Proof.
  unfold session_Close, conn_of. destruct (sessions sv !! i) as [ps|] eqn:E; [|by rewrite E]. cbn [sessions].
  rewrite list_lookup_insert_eq by (by eapply lookup_lt_Some).
  split; [apply length_insert|split; [done|]]. intros j Hj. by rewrite list_lookup_insert_ne.
Qed.

Lemma run_move_inv m sv sv' : inv sv → run_move m sv = Some sv' → inv sv'.
Proof.
  intros Hi. destruct m as [pickI pickB src conn|i f|i]; cbn [run_move].
  - intros [= <-]. by apply accept_ok.
  - case_decide as Ho; [|done]. destruct (view sv i) as [s|]; [|done]. cbn. intros [= <-]. by apply store_ok.
  - case_decide as Ho; [|done]. intros [= <-]. by apply close_ok.
Qed.

Lemma run_moves_inv ms : ∀ sv sv', inv sv → run_moves ms sv = Some sv' → inv sv'.
Proof.
  induction ms as [|m ms IH]; intros sv sv' Hi; cbn [run_moves]; [by intros [= <-]|].
  destruct (run_move m sv) as [sv1|] eqn:E; [|done]. cbn. apply IH. by eapply run_move_inv.
Qed.

(** The session that a move is of. *)
Definition mover (m : move) : option nat :=
  match m with MAccept _ _ _ _ => None | MAct i _ | MClose i => Some i end.

(** The sessions of a server do not disturb each other: in every state that the
    server can reach, whatever its pools give out, each open session has what its
    goroutine left there - its iterator, its buffer, its connection and its phase are
    changed by its own actions, as these say, and by nothing else - and a new session
    starts with an empty buffer and an iterator over its own connection. *)
Theorem sessions_isolated ms sv m sv' :
  run_moves ms no_sessions = Some sv → run_move m sv = Some sv' →
  (∀ i, (i ∈ opened sv) → mover m ≠ Some i → (i ∈ opened sv') ∧ view sv' i = view sv i) ∧
  (∀ i f, m = MAct i f → is_Some (view sv i) ∧ view sv' i = f <$> view sv i) ∧
  (∀ pickI pickB src conn, m = MAccept pickI pickB src conn →
    ∃ it, view sv' (length (sessions sv)) = Some (Init it ([], conn)) ∧
      (it = NewIterator (NewReader src) ∨ ∃ it0, it = Iter_Reset ResetReader it0 (Some src))).
Proof.
  intros Hr Hm. pose proof (run_moves_inv ms _ _ inv_none Hr) as Hi. clear Hr.
  destruct m as [pickI pickB src conn|i f|i]; cbn [run_move mover] in *.
  - injection Hm as <-. destruct (accept_ok pickI pickB src conn sv Hi) as (_ & Ho & _ & Hv & Hold).
    split; [|split; [done|]].
    + intros j Hj _. rewrite Ho. split; [by right|by apply Hold].
    + intros pI pB sr cn [= -> -> -> ->]. exact Hv.
  - revert Hm. case_decide as Ho; [|done]. destruct (view sv i) as [s|] eqn:Ev; [|done]. cbn. intros [= <-].
    destruct (store_ok i (f s) sv Hi Ho) as (_ & Hop & Hv & Hold). split; [|split; [|done]].
    + intros j Hj Hne. rewrite Hop. split; [done|]. apply Hold; [done|congruence].
    + intros j g [= <- <-]. rewrite Hv, Ev. by split.
  - revert Hm. case_decide as Ho; [|done]. intros [= <-]. destruct (close_ok i sv Hi Ho) as (_ & Hop & Hold).
    split; [|done]. intros j Hj Hne. rewrite Hop, list_elem_of_filter. assert (j ≠ i) by congruence.
    split; [done|by apply Hold].
Qed.

(** The iterator of the next connection, if the pool gives the one that was put last. *)
Lemma accept_first pickB src conn sv h rest it :
  free (iterPool sv) = h :: rest → deref (iterPool sv) h = Some it →
  let sv' := accept (Some 0%nat) pickB src conn sv in
  free (iterPool sv') = rest ∧ deref (iterPool sv') h = Some (Iter_Reset ResetReader it (Some src)) ∧
  (∃ ps, sessions sv' = sessions sv ++ [ps] ∧ ps_iter ps = h).
Proof.
  intros Hf Hd. cbv zeta. unfold accept, IterPool_Get, take_free. rewrite Hf.
  cbn [mbind option_bind lookup list_lookup delete list_delete]. unfold update.
  change (deref (mkPool (objects (iterPool sv)) rest) h) with (deref (iterPool sv) h). rewrite Hd.
  destruct (buf_Get pickB (bufPool sv)) as [b bp]. cbn [iterPool sessions]. split; [done|]. split; [|by eexists].
  unfold deref, assign. cbn. apply list_lookup_insert_eq. by eapply lookup_lt_Some.
Qed.

(** C38: A session that is closed twice, by its handler and then by the server, is shared
    later: its iterator is in the pool twice, two connections that arrive one after the
    other both get it, and what the first of these sessions reads from then on is what
    the second client sends. *)
Theorem Close_twice_shares sv i pickB1 pickB2 src1 src2 conn1 conn2 :
  inv sv → (i ∈ opened sv) →
  let sv2 := session_Close i (session_Close i sv) in
  let sv4 := accept (Some 0%nat) pickB2 src2 conn2 (accept (Some 0%nat) pickB1 src1 conn1 sv2) in
  ∃ ps1 ps2 it, sessions sv4 = sessions sv2 ++ [ps1; ps2] ∧ ps_iter ps1 = ps_iter ps2 ∧
    deref (iterPool sv4) (ps_iter ps1) = Some (Iter_Reset ResetReader it (Some src2)).
Proof.
  intros Hi Ho sv2 sv4. destruct (opened_session sv i Hi Ho) as [ps Eps]. set (h := ps_iter ps).
  pose proof (lookup_lt_Some _ _ _ Eps) as Hlt.
  assert (h < length (objects (iterPool sv)))%nat as Hh.
  { apply (owned_valid_elem _ _ _ (inv_iters sv Hi)). apply list_elem_of_fmap. exists i. unfold iter_of. by rewrite Eps. }
  assert (∀ p : Pool (Iterator R), (h < length (objects p))%nat →
    free (IterPool_Put ResetReader h p) = h :: free p ∧
    length (objects (IterPool_Put ResetReader h p)) = length (objects p)) as Hput.
  { intros p Hp. unfold IterPool_Put, update, deref. destruct (lookup_lt_is_Some_2 _ _ Hp) as [it ->]. cbn.
    by rewrite length_insert. }
  destruct (Hput (iterPool sv) Hh) as [Hf1 Hl1].
  assert (iterPool sv2 = IterPool_Put ResetReader h (IterPool_Put ResetReader h (iterPool sv))) as Ei.
  { unfold sv2, session_Close. rewrite Eps. cbn [sessions iterPool bufPool opened]. by rewrite list_lookup_insert_eq. }
  destruct (Hput (IterPool_Put ResetReader h (iterPool sv)) ltac:(lia)) as [Hf2 Hl2].
  rewrite Hf1 in Hf2. rewrite <- Ei in Hf2, Hl2.
  destruct (lookup_lt_is_Some_2 (objects (iterPool sv2)) h ltac:(lia)) as [it Hit].
  destruct (accept_first pickB1 src1 conn1 sv2 h _ it Hf2 Hit) as (Hf3 & Hd3 & ps1 & Es1 & Ep1).
  destruct (accept_first pickB2 src2 conn2 _ h _ _ Hf3 Hd3) as (_ & Hd4 & ps2 & Es2 & Ep2).
  exists ps1, ps2, (Iter_Reset ResetReader it (Some src1)). unfold sv4. split; [|split].
  - rewrite Es2, Es1. by rewrite <- app_assoc.
  - by rewrite Ep1, Ep2.
  - by rewrite Ep1.
Qed.

End Sessions.

(** ** Witness: three connections, one of which ends and leaves its iterator to the third *)

Abbreviation pools0 := (Pools (R := list_ring) (I := list_inner) (K := list Z)).

Definition moves0 : list (move (R := list_ring) (I := list_inner) (K := list Z) (S := list Z)) :=
  [MAccept None None message0 []; MAccept None None forward0 [];
   MAct 0 (next_action 50 entry0); MClose 0; MAccept (Some 0%nat) (Some 0%nat) message0 []].

Definition server1 : pools0 := default no_sessions (run_moves close0 reader0 reset0 moves0 no_sessions).

Lemma run_server1 : run_moves close0 reader0 reset0 moves0 no_sessions = Some server1.
Proof. vm_compute. reflexivity. Qed.

Definition next0 : Session list_ring list_inner (list Z * list Z) → Session list_ring list_inner (list Z * list Z) :=
  next_action 50 entry0.

Definition server2 : pools0 := default no_sessions (run_move close0 reader0 reset0 (MAct 2 next0) server1).

Lemma run_server2 : run_move close0 reader0 reset0 (MAct 2 next0) server1 = Some server2.
Proof. vm_compute. reflexivity. Qed.

Lemma opened_server1 : 1%nat ∈ opened server1.
Proof. apply (bool_decide_unpack _). vm_compute. exact Logic.I. Qed.

(** The third session reads; the second one is as before. *)
Lemma sessions_isolated_witness :
  view server2 1 = view server1 1 ∧ view server2 2 = next0 <$> view server1 2.
Proof.
  pose proof (sessions_isolated close0 reader0 reset0 moves0 server1 (MAct 2 next0) server2 run_server1 run_server2)
    as (H1 & H2 & _).
  split; [|exact (proj2 (H2 2%nat next0 eq_refl))].
  refine (proj2 (H1 1%nat opened_server1 _)). discriminate.
Defined.

Lemma Close_twice_shares_witness :
  let sv2 := session_Close close0 reset0 1 (session_Close close0 reset0 1 server1) in
  let sv4 := accept reader0 reset0 (Some 0%nat) None message0 [] (accept reader0 reset0 (Some 0%nat) None forward0 [] sv2) in
  ∃ ps1 ps2 it, sessions sv4 = sessions sv2 ++ [ps1; ps2] ∧ ps_iter ps1 = ps_iter ps2 ∧
    deref (iterPool sv4) (ps_iter ps1) = Some (Iter_Reset reset0 it (Some message0)).
Proof.
  refine (Close_twice_shares close0 reader0 reset0 server1 1 None None forward0 message0 [] [] _ _).
  - exact (run_moves_inv close0 reader0 reset0 moves0 _ _ inv_none run_server1).
  - exact opened_server1.
Defined.

(** ** A session that is closed within a packed message

    The connection's ring flushes automatically while it is lent.  Nothing restores manual
    flushing when the iterator is put into the pool or given out again, so that the
    session of the next connection does not keep what it reads, if [Reset] leaves the way
    of flushing. *)

Definition packed1 : list Z :=
  encode (OArray [OScalar (SStr tag0); OScalar (SBin (encode (pair_obj x0)))]).

Abbreviation pools1 := (Pools (R := snap list_ring) (I := snap list_inner) (K := list Z)).

Definition next1 : Session (snap list_ring) (snap list_inner) (list Z * list Z) →
    Session (snap list_ring) (snap list_inner) (list Z * list Z) :=
  next_action (L := list_limit * bool) 50 entry0.

Definition moves1 : list (move (R := snap list_ring) (I := snap list_inner) (K := list Z) (S := list Z)) :=
  [MAccept None None packed1 []; MAct 0 next1; MClose 0; MAccept (Some 0%nat) (Some 0%nat) message0 []; MAct 1 next1].

Definition closed1 : pools1 :=
  Eval vm_compute in default no_sessions (run_moves close0 snap_reader0 snap_reset0 moves1 no_sessions).

Lemma pooled_automatic :
  run_moves close0 snap_reader0 snap_reset0 moves1 no_sessions = Some closed1 ∧
  ∃ s, view closed1 1 = Some s ∧ mode s = MessageMode ∧ is_manual (it_r (orig s)) = false ∧ ¬ kept s.
Proof.
  split; [vm_compute; reflexivity|]. eexists. split; [vm_compute; reflexivity|]. split; [done|]. split; [done|].
  intros [H _]. discriminate H. by intros [?|?].
Qed.
