(* ===== verification/Listen.v ===== *)
(** * Listen: the server's loop and its goroutines (forward/server.go)

    Sessions is about what the sessions of a server share.  Here is [Server.Listen]: a
    loop that accepts connections, and for each a goroutine that gets an identifier,
    authenticates, lets the application's handler read, and closes its session.  The
    goroutines run in any order, one action at a time - an action is the handshake, or
    what the handler does up to its next choice -, since they share nothing but the pools,
    the counter of the identifiers and HandleError.

    [Listen_each] shows that whatever the order, each connection is handled as
    [handle_session] of Server handles it alone; [Listen_serves] joins that with what a
    client sends, and [Listen_ids] is about the identifiers.

    The context's end, which closes the listener, is an error of [Accept]; what comes
    before and after the loop is in Sockets. *)

From S2P Require Import Prelude Types Errors Integer Headers Str Timestamp Object RingBuf Iter Transport Safety.
From S2P Require Import Pool Pooled Handshake Server Sessions.

Section Listen.
  Context {R L I K S App : Type} `{!RingOps R, !RingOps I, !NestedOps R L I, !ConnOps K, BP : !BufferPool}.
  Variable conn_Close : K → option error * K.
  Variable NewReader : S → R.
  Variable ResetReader : R → option S → R.
  Variable Error : error → list Z.
  Variable opt : ServerOptions.
  (** The application's handler: where it starts, with the name of the user, and what it
      does with its session until it either goes on or returns an error, or nil. *)
  Variable begin : list Z → App.
  Variable serve : App → Session R I (list Z * K) → go ((App + option error) * Session R I (list Z * K)).

Abbreviation session := (Session R I (list Z * K)).
Abbreviation Pools := (Pools (R := R) (I := I) (K := K)).

(** Where a goroutine is; [Returned] is before its deferred [Close], [Gone] after. *)
Inductive stage :=
  | Arrived
  | Numbered
  | Serving (a : App)
  | Returned
  | Gone.

(** A goroutine: the connection that it was started for, the [id] of its session. *)
Record routine := mkRoutine {
  r_src : S;
  r_conn : K;
  r_id : Z;
  r_stage : stage
}.

(** A server that listens.  [reports] is what HandleError was called with, by whom;
    [ended] the error that [Listen] has returned. *)
Record Listening := mkListening {
  pools : Pools;
  sessId : Z;
  routines : list routine;
  reports : list (nat * error);
  ended : option error
}.

Implicit Types (v : Listening) (i : nat) (s : session) (st : stage).

(** ** What a goroutine does with its own *)

(** What the goroutine reports of the handler's error. *)
Definition reported (err : option error) : list error :=
  match err with Some e => if is_EOF e then [] else [e] | None => [] end.

(** The two parts of the goroutine between the identifier and the end. *)
Inductive action := Authenticate (rand : list Z * option error) | Serve.

Definition turn (a : action) st s : option (stage * session * list error) :=
  match a, st with
  | Authenticate rand, Numbered =>
    match authenticate Error opt rand (mkServerSession (orig s) (acks s).1 (acks s).2 []) with
    | Ret (Some e, ss) => Some (Returned, mkSession (phase s) (ss_iter ss) (ss_write ss, ss_conn ss), [e])
    | Ret (None, ss) => Some (Serving (begin (ss_user ss)), initTransportPhase ss, [])
    | Panic _ => None
    end
  | Serve, Serving app =>
    match serve app s with
    | Ret (inl app, s) => Some (Serving app, s, [])
    | Ret (inr err, s) => Some (Returned, s, reported err)
    | Panic _ => None
    end
  | _, _ => None
  end.

(** ** The server *)

Definition set_routine i st id v : list routine :=
  match routines v !! i with
  | Some r => <[i := mkRoutine (r_src r) (r_conn r) id st]> (routines v)
  | None => routines v
  end.

(** A connection arrives, or [Accept] fails; a goroutine takes its identifier, does its
    next action, or closes its session. *)
Inductive move :=
  | LArrive (pickI pickB : option nat) (src : S) (conn : K)
  | LStop (e : error)
  | LNumber (i : nat)
  | LTurn (i : nat) (a : action)
  | LClose (i : nat).

(** A move, if it can be made; a goroutine that panics ends the process. *)
Definition run_move (m : move) v : option Listening :=
  match m with
  | LArrive pickI pickB src conn =>
    match ended v with
    | None => Some (mkListening (accept NewReader ResetReader pickI pickB src conn (pools v)) (sessId v)
                     (routines v ++ [mkRoutine src conn 0 Arrived]) (reports v) None)
    | Some _ => None
    end
  | LStop e =>
    match ended v with
    | None => Some (mkListening (pools v) (sessId v) (routines v) (reports v) (Some e))
    | Some _ => None
    end
  | LNumber i =>
    match r_stage <$> routines v !! i with
    | Some Arrived =>
      let id := u64 (sessId v + 1) in
      Some (mkListening (pools v) id (set_routine i Numbered id v) (reports v) (ended v))
    | _ => None
    end
  | LTurn i a =>
    r ← routines v !! i; s ← view (pools v) i; '(st, s', errs) ← turn a (r_stage r) s;
    Some (mkListening (store i s' (pools v)) (sessId v) (set_routine i st (r_id r) v)
            (reports v ++ map (pair i) errs) (ended v))
  | LClose i =>
    r ← routines v !! i;
    match r_stage r with
    | Returned =>
      Some (mkListening (session_Close conn_Close ResetReader i (pools v)) (sessId v) (set_routine i Gone (r_id r) v)
              (reports v) (ended v))
    | _ => None
    end
  end.

Fixpoint run_moves (ms : list move) v : option Listening :=
  match ms with
  | [] => Some v
  | m :: ms => v ← run_move m v; run_moves ms v
  end.

Definition listening : Listening := mkListening no_sessions 0 [] [] None.

(** ** A connection alone *)

Fixpoint turns (acts : list action) st s : option (stage * session * list error) :=
  match acts with
  | [] => Some (st, s, [])
  | a :: acts =>
    '(st, s, errs) ← turn a st s; '(st, s, errs') ← turns acts st s; Some (st, s, errs ++ errs')
  end.

(** The handler from its start to its end, by itself. *)
Fixpoint drive (fuel : nat) (app : App) s : go (option error * K) :=
  match fuel with
  | O => Panic OutOfFuel
  | Datatypes.S fuel =>
    '(next, s) ← serve app s;
    match next with
    | inl app => drive fuel app s
    | inr err => Ret (err, (acks s).2)
    end
  end.

Definition handler (fuel : nat) (user : list Z) s : go (option error * K) := drive fuel (begin user) s.

Lemma turns_snoc acts a : ∀ st s,
  turns (acts ++ [a]) st s =
    ('(st, s, errs) ← turns acts st s; '(st, s, errs') ← turn a st s; Some (st, s, errs ++ errs')).
Proof.
  induction acts as [|b acts IH]; intros st s; cbn [turns app].
  - cbn. destruct (turn a st s) as [[[st1 s1] e]|]; [|done]. cbn. by rewrite app_nil_r.
  - destruct (turn b st s) as [[[st1 s1] e]|]; [|done]. cbn. rewrite IH.
    destruct (turns acts st1 s1) as [[[st2 s2] e2]|]; [|done]. cbn.
    destruct (turn a st2 s2) as [[[st3 s3] e3]|]; [|done]. cbn. by rewrite app_assoc.
Qed.

Lemma turns_returned acts s st s' errs :
  turns acts Returned s = Some (st, s', errs) → acts = [] ∧ st = Returned ∧ s' = s ∧ errs = [].
Proof. destruct acts as [|[rand|] acts]; cbn; [intros [= <- <- <-]; done|done|done]. Qed.

Lemma turns_drive acts : ∀ app s s' errs,
  turns acts (Serving app) s = Some (Returned, s', errs) →
  ∃ n err, acts = replicate n Serve ∧ drive n app s = Ret (err, (acks s').2) ∧ errs = reported err.
Proof.
  induction acts as [|[rand|] acts IH]; intros app s s' errs; cbn [turns turn]; [done|done|].
  destruct (serve app s) as [[[app1|err] s1]|p] eqn:E; [| |done]; cbn.
  - destruct (turns acts (Serving app1) s1) as [[[st2 s2] e2]|] eqn:Et; [|done]. cbn. intros [= -> -> <-].
    destruct (IH _ _ _ _ Et) as (n & err & -> & Ed & ->). exists (Datatypes.S n), err. cbn. by rewrite E.
  - destruct (turns acts Returned s1) as [[[st2 s2] e2]|] eqn:Et; [|done]. cbn. intros [= -> -> <-].
    destruct (turns_returned _ _ _ _ _ Et) as (-> & _ & -> & ->). exists 1%nat, err. cbn. rewrite E. cbn.
    by rewrite app_nil_r.
Qed.

(** Its turns, to the end, are [handle_session]. *)
Lemma turns_handle acts it conn s errs :
  turns acts Numbered (Init it ([], conn)) = Some (Returned, s, errs) →
  ∃ rand n, acts = Authenticate rand :: replicate n Serve ∧
    handle_session conn_Close Error opt rand (handler n) (mkServerSession it [] conn []) =
      Ret (errs, (conn_Close (acks s).2).2).
Proof.
  destruct acts as [|[rand|] acts]; cbn [turns turn]; [done| |done]. cbn [orig acks Init fst snd].
  destruct (authenticate Error opt rand (mkServerSession it [] conn [])) as [[[e|] ss]|p] eqn:Ea; [| |done]; cbn.
  - destruct (turns acts Returned _) as [[[st2 s2] e2]|] eqn:Et; [|done]. cbn. intros [= -> -> <-].
    destruct (turns_returned _ _ _ _ _ Et) as (-> & _ & -> & ->). exists rand, 0%nat. split; [done|].
    unfold handle_session. by rewrite Ea.
  - destruct (turns acts (Serving _) _) as [[[st2 s2] e2]|] eqn:Et; [|done]. cbn. intros [= -> -> <-].
    destruct (turns_drive _ _ _ _ _ Et) as (n & err & -> & Ed & ->). exists rand, n. split; [done|].
    unfold handle_session, handler. rewrite Ea. go_simpl. by rewrite Ed.
Qed.

(** ** The invariant *)

(** What the iterator of a session is at its start. *)
Definition origin (src : S) (it : Iterator R) : Prop :=
  it = NewIterator (NewReader src) ∨ ∃ it0, it = Iter_Reset ResetReader it0 (Some src).

(** The errors that a goroutine has reported. *)
Definition errors_of v i : list error := map snd (filter (λ p, p.1 = i) (reports v)).

Definition own_stage st : stage := match st with Arrived => Numbered | Gone => Returned | st => st end.

(** The session that a goroutine has, or has left. *)
Definition holds v i st s : Prop :=
  match st with
  | Gone => (i ∉ opened (pools v)) ∧ conn_of (pools v) i = Some (conn_Close (acks s).2).2
  | _ => (i ∈ opened (pools v)) ∧ view (pools v) i = Some s
  end.

(** The turns of a goroutine, and the connections, in what has happened. *)
Definition turn_of i (m : move) : option action :=
  match m with LTurn j a => if decide (j = i) then Some a else None | _ => None end.
Definition arrival (m : move) : option (S * K) :=
  match m with LArrive _ _ src conn => Some (src, conn) | _ => None end.

(** A goroutine is where its own turns have brought it. *)
Definition routine_ok (ms : list move) v i (r : routine) : Prop :=
  ∃ it s, origin (r_src r) it ∧
    turns (omap (turn_of i) ms) Numbered (Init it ([], r_conn r)) = Some (own_stage (r_stage r), s, errors_of v i) ∧
    holds v i (r_stage r) s.

Record linv (ms : list move) v : Prop := {
  linv_pools : Sessions.inv (pools v);
  linv_length : length (sessions (pools v)) = length (routines v);
  linv_routines i r : routines v !! i = Some r → routine_ok ms v i r;
  linv_arrivals : map (λ r, (r_src r, r_conn r)) (routines v) = omap arrival ms;
  linv_reports i e : (i, e) ∈ reports v → (i < length (routines v))%nat;
  linv_turns i : (length (routines v) <= i)%nat → omap (turn_of i) ms = []
}.

(** A move of another leaves a goroutine where it is. *)
Lemma routine_kept ms m v v' i r :
  turn_of i m = None →
  errors_of v' i = errors_of v i →
  ((i ∈ opened (pools v)) → (i ∈ opened (pools v')) ∧ view (pools v') i = view (pools v) i) →
  ((i ∉ opened (pools v)) → (i ∉ opened (pools v')) ∧ conn_of (pools v') i = conn_of (pools v) i) →
  routine_ok ms v i r → routine_ok (ms ++ [m]) v' i r.
Proof.
  intros Hm He Ho Hc (it & s & Hit & Ht & Hh). exists it, s. rewrite He, omap_app. cbn [omap list_omap].
  rewrite Hm, app_nil_r. split; [done|split; [done|]].
  unfold holds in *. destruct (r_stage r); destruct Hh as [H1 H2];
    solve [destruct (Ho H1) as [? ->]; done | destruct (Hc H1) as [? ->]; done].
Qed.

Lemma errors_of_app v i es sv id rs err j :
  errors_of (mkListening sv id rs (reports v ++ map (pair i) es) err) j =
    errors_of v j ++ (if decide (i = j) then es else []).
Proof.
  unfold errors_of. cbn [reports]. rewrite filter_app, map_app. f_equal.
  induction es as [|e es IH]; [by destruct (decide _)|]. cbn [map]. rewrite filter_cons. cbn [fst].
  destruct (decide (i = j)) as [E|E]; cbn [map snd]; by rewrite IH.
Qed.

Lemma errors_none v i : (∀ e, (i, e) ∉ reports v) → errors_of v i = [].
Proof.
  unfold errors_of. generalize (reports v) as l. induction l as [|[j e] l IH]; intros H; [done|].
  rewrite filter_cons. cbn [fst]. rewrite decide_False.
  - apply IH. intros e' Hin. apply (H e'). by right.
  - intros ->. apply (H e). by left.
Qed.

Lemma set_routine_lookup v i r st id j r' :
  routines v !! i = Some r → set_routine i st id v !! j = Some r' →
  (j = i ∧ r' = mkRoutine (r_src r) (r_conn r) id st) ∨ (j ≠ i ∧ routines v !! j = Some r').
Proof.
  intros Hr. unfold set_routine. rewrite Hr. destruct (decide (j = i)) as [->|Hne].
  - rewrite list_lookup_insert_eq by (by eapply lookup_lt_Some). intros [= <-]. by left.
  - rewrite list_lookup_insert_ne by done. by right.
Qed.

Lemma set_routine_length v i st id : length (set_routine i st id v) = length (routines v).
Proof. unfold set_routine. destruct (routines v !! i); [apply length_insert|done]. Qed.

Lemma set_routine_arrivals v i st id :
  map (λ r, (r_src r, r_conn r)) (set_routine i st id v) = map (λ r, (r_src r, r_conn r)) (routines v).
Proof.
  unfold set_routine. destruct (routines v !! i) as [r|] eqn:E; [|done].
  rewrite list_fmap_insert. cbn. apply list_insert_id. by rewrite list_lookup_fmap, E.
Qed.

(** The moves of goroutine [i]. *)
Definition moves (i : nat) (m : move) : Prop :=
  match m with LNumber j | LTurn j _ | LClose j => j = i | _ => False end.

Lemma moves_other i m j : moves i m → j ≠ i → turn_of j m = None.
Proof. intros Hm Hj. destruct m; cbn in Hm |- *; [done..| |done]. by rewrite decide_False by congruence. Qed.

(** A move of goroutine [i] keeps the invariant if it keeps the pools and their other
    sessions, and leaves [i] right. *)
Lemma linv_of_one ms m v i r st id es sv id' end' :
  linv ms v → routines v !! i = Some r → moves i m →
  Sessions.inv sv → length (sessions sv) = length (sessions (pools v)) →
  (∀ j, j ≠ i → (j ∈ opened sv ↔ j ∈ opened (pools v)) ∧ conn_of sv j = conn_of (pools v) j ∧
    ((j ∈ opened (pools v)) → view sv j = view (pools v) j)) →
  let v' := mkListening sv id' (set_routine i st id v) (reports v ++ map (pair i) es) end' in
  routine_ok (ms ++ [m]) v' i (mkRoutine (r_src r) (r_conn r) id st) →
  linv (ms ++ [m]) v'.
Proof.
  intros [Hp Hl Hr Harr Hrep Htu] Ei Hm Hsv Hlen Ho v' Hi. pose proof (lookup_lt_Some _ _ _ Ei) as Hlt.
  split; unfold v'; cbn [pools routines reports].
  - done.
  - by rewrite set_routine_length, Hlen.
  - intros j r' Ej. destruct (set_routine_lookup v i r st id j r' Ei Ej) as [[-> ->]|[Hne Ej']]; [apply Hi|].
    destruct (Ho j Hne) as (H1 & H2 & H3). apply (routine_kept ms m v); [by apply (moves_other i)|..|by apply Hr].
    + rewrite errors_of_app. rewrite decide_False by done. apply app_nil_r.
    + intros Hj. cbn. rewrite H1. by split; [|apply H3].
    + intros Hj. cbn. rewrite H1. by split.
  - rewrite set_routine_arrivals, Harr, omap_app. destruct m; cbn; try done; by rewrite app_nil_r.
  - intros j e. rewrite set_routine_length, elem_of_app, list_elem_of_fmap. intros [H|(e' & [= -> ->] & _)].
    + by eapply Hrep.
    + done.
  - intros j. rewrite set_routine_length. intros Hj. rewrite omap_app, Htu by done. cbn.
    rewrite (moves_other i m j Hm); [done|lia].
Qed.

Lemma open_of ms v i r st : linv ms v → routines v !! i = Some r → r_stage r = st → st ≠ Gone →
  ∃ it s, origin (r_src r) it ∧
    turns (omap (turn_of i) ms) Numbered (Init it ([], r_conn r)) = Some (own_stage st, s, errors_of v i) ∧
    (i ∈ opened (pools v)) ∧ view (pools v) i = Some s.
Proof.
  intros Hv Er <- Hst. destruct (linv_routines ms v Hv i r Er) as (it & s' & Hit & Ht & Hh).
  exists it, s'. split; [done|split; [done|]]. unfold holds in Hh. destruct (r_stage r); done.
Qed.

Lemma arrive_linv ms v pickI pickB src conn v' :
  let m := LArrive pickI pickB src conn in linv ms v → run_move m v = Some v' → linv (ms ++ [m]) v'.
Proof.
  intros m Hv. cbn [run_move m]. destruct (ended v); [done|]. intros [= <-]. destruct Hv as [Hp Hl Hr Harr Hrep Htu].
  destruct (accept_ok NewReader ResetReader pickI pickB src conn (pools v) Hp) as (Hp' & Ho & Hn & (it & Hview & Hit) & Hold).
  destruct (accept_conn NewReader ResetReader pickI pickB src conn (pools v)) as [Hlen Hconn].
  split; cbn [pools routines reports].
  - done.
  - rewrite Hlen, Hl, length_app. cbn. lia.
  - intros i r [H|[Hge Hri]]%lookup_app_Some.
    + pose proof (lookup_lt_Some _ _ _ H) as Hlt. apply (routine_kept ms m v); [done|done|..|by apply Hr]; cbn [pools].
      * intros Hi. rewrite Ho. split; [by right|by apply Hold].
      * intros Hi. rewrite Ho. split; [|apply Hconn; lia]. intros [->|Hin]%elem_of_cons; [lia|done].
    + assert (i = length (routines v)) as -> by (apply list_lookup_singleton_Some in Hri; lia).
      rewrite Nat.sub_diag in Hri. injection Hri as <-. exists it, (Init it ([], conn)). split; [done|].
      rewrite omap_app, Htu by done. cbn.
      rewrite Ho, <- Hl. split; [|split; [by left|done]]. f_equal. f_equal. symmetry. apply errors_none.
      intros e Hin%Hrep. lia.
  - by rewrite map_app, omap_app, Harr.
  - intros i e Hin%Hrep. rewrite length_app. lia.
  - intros i. rewrite length_app. cbn. intros Hi. rewrite omap_app, Htu by lia. done.
Qed.

Lemma number_linv ms v i v' : linv ms v → run_move (LNumber i) v = Some v' → linv (ms ++ [LNumber i]) v'.
Proof.
  intros Hv. cbn [run_move]. destruct (routines v !! i) as [r|] eqn:Er; [|done]. cbn.
  destruct (r_stage r) eqn:Est; [|done..]. intros [= <-].
  destruct (open_of ms v i r _ Hv Er Est ltac:(done)) as (it & s & Hit & Ht & Ho & Hview).
  rewrite <- (app_nil_r (reports v)). change (reports v ++ []) with (reports v ++ map (pair i) []).
  apply (linv_of_one ms _ v i r Numbered _ [] (pools v) _ (ended v) Hv Er); [done|apply (linv_pools _ v Hv)|done|done|].
  exists it, s. split; [done|]. cbn [r_stage own_stage r_src r_conn].
  unfold errors_of. cbn [reports map]. rewrite omap_app. cbn [omap list_omap turn_of]. rewrite !app_nil_r. done.
Qed.

Lemma turn_linv ms v i a v' : linv ms v → run_move (LTurn i a) v = Some v' → linv (ms ++ [LTurn i a]) v'.
Proof.
  intros Hv. cbn [run_move]. destruct (routines v !! i) as [r|] eqn:Er; [|done]. cbn.
  destruct (view (pools v) i) as [s|] eqn:Ev; [|done]. cbn.
  destruct (turn a (r_stage r) s) as [[[st s'] es]|] eqn:Et; [|done]. cbn. intros [= <-].
  assert (r_stage r ≠ Gone) as Hg by (intros E; rewrite E in Et; by destruct a).
  destruct (open_of ms v i r _ Hv Er eq_refl Hg) as (it & s0 & Hit & Hts & Ho & Hview).
  rewrite Ev in Hview. injection Hview as <-.
  destruct (store_ok i s' (pools v) (linv_pools _ v Hv) Ho) as (Hsv & Hop & Hnew & Hold).
  destruct (store_conn i s' (pools v)) as [Hlen Hconn].
  apply (linv_of_one ms _ v i r st (r_id r) es (store i s' (pools v)) _ (ended v) Hv Er); [done|done|done|..].
  - intros j Hj. rewrite Hop. split; [done|split; [by apply Hconn|]]. intros Hin. by apply Hold.
  - exists it, s'. split; [done|]. cbn [r_stage r_src r_conn].
    assert (st ≠ Gone ∧ own_stage (r_stage r) = r_stage r ∧ own_stage st = st) as (Hst & E1 & E2).
    { revert Et. destruct a, (r_stage r); cbn; try done.
      - destruct (authenticate _ _ _ _) as [[[|] ?]|]; [..|done]; by intros [= <- _ _].
      - destruct (serve a s) as [[[|] ?]|]; [..|done]; by intros [= <- _ _]. }
    split.
    + rewrite omap_app. cbn [omap list_omap turn_of]. rewrite decide_True by done.
      rewrite turns_snoc, Hts, E1. cbn [mbind option_bind]. rewrite Et. cbn [mbind option_bind]. rewrite E2, errors_of_app.
      by rewrite decide_True.
    + unfold holds. cbn [pools]. rewrite Hop. destruct st; done.
Qed.

Lemma close_linv ms v i v' : linv ms v → run_move (LClose i) v = Some v' → linv (ms ++ [LClose i]) v'.
Proof.
  intros Hv. cbn [run_move]. destruct (routines v !! i) as [r|] eqn:Er; [|done]. cbn.
  destruct (r_stage r) eqn:Est; [done..| |done]. intros [= <-].
  destruct (open_of ms v i r _ Hv Er Est ltac:(done)) as (it & s & Hit & Ht & Ho & Hview).
  destruct (close_ok conn_Close ResetReader i (pools v) (linv_pools _ v Hv) Ho) as (Hsv & Hop & Hold).
  destruct (close_conn conn_Close ResetReader i (pools v)) as (Hlen & Hci & Hconn).
  rewrite <- (app_nil_r (reports v)). change (reports v ++ []) with (reports v ++ map (pair i) []).
  apply (linv_of_one ms _ v i r Gone (r_id r) [] _ _ (ended v) Hv Er); [done|done|done|..].
  - intros j Hj. rewrite Hop, list_elem_of_filter. split; [tauto|split; [by apply Hconn|]]. intros Hin. by apply Hold.
  - exists it, s. split; [done|]. cbn [r_stage own_stage r_src r_conn].
    unfold errors_of. cbn [reports map]. rewrite omap_app. cbn [omap list_omap turn_of]. rewrite !app_nil_r. split; [done|].
    unfold holds. cbn [pools]. rewrite Hop, list_elem_of_filter. split; [tauto|].
    by rewrite Hci, (view_conn _ _ _ Hview).
Qed.

Lemma run_move_linv ms m v v' : linv ms v → run_move m v = Some v' → linv (ms ++ [m]) v'.
Proof.
  intros Hv. destruct m as [pickI pickB src conn|e|i|i a|i].
  - by apply arrive_linv.
  - cbn. destruct (ended v); [done|]. intros [= <-]. destruct Hv as [Hp Hl Hr Harr Hrep Htu]. split; [done|done| | |done|].
    + intros i r Er. by apply (routine_kept ms (LStop e) v), Hr.
    + rewrite omap_app. by rewrite app_nil_r.
    + intros i Hi. rewrite omap_app. cbn. by rewrite app_nil_r, Htu.
  - by apply number_linv.
  - by apply turn_linv.
  - by apply close_linv.
Qed.

Lemma listening_linv : linv [] listening.
Proof. split; [apply inv_none|done|by intros i r|done|by intros i e Hin%not_elem_of_nil|done]. Qed.

Lemma run_moves_linv ms : ∀ ms0 v v', linv ms0 v → run_moves ms v = Some v' → linv (ms0 ++ ms) v'.
Proof.
  induction ms as [|m ms IH]; intros ms0 v v' Hv; cbn [run_moves]; [intros [= <-]; by rewrite app_nil_r|].
  destruct (run_move m v) as [v1|] eqn:E; [|done]. cbn. intros H. rewrite (cons_middle m ms0 ms), app_assoc.
  eapply IH; [|done]. by eapply run_move_linv.
Qed.

(** A connection whose goroutine has ended was handled as if alone. *)
Lemma handled_alone ms v i r :
  run_moves ms listening = Some v → routines v !! i = Some r → r_stage r = Gone →
  ∃ it rand n conn, origin (r_src r) it ∧ omap (turn_of i) ms = Authenticate rand :: replicate n Serve ∧
    handle_session conn_Close Error opt rand (handler n) (mkServerSession it [] (r_conn r) []) =
      Ret (errors_of v i, conn) ∧
    conn_of (pools v) i = Some conn.
Proof.
  intros Hr Er Est. pose proof (run_moves_linv ms [] _ _ listening_linv Hr) as Hv.
  destruct (linv_routines _ v Hv i r Er) as (it & s & Hit & Ht & Hh). rewrite Est in Ht, Hh.
  destruct (turns_handle _ _ _ _ _ Ht) as (rand & n & Ea & Eh). destruct Hh as [_ Hc].
  exists it, rand, n, (conn_Close (acks s).2).2. done.
Qed.

(** C8: However the goroutines of a server are interleaved, whatever its pools give out,
    each connection is served as if it was alone: the connections are those that arrived,
    in order; a goroutine is always where its own turns, alone, bring it from a fresh
    session; and once it has ended, what it has reported to HandleError and what it has
    done to its connection is the result of [handle_session]. *)
Theorem Listen_each ms v :
  run_moves ms listening = Some v →
  map (λ r, (r_src r, r_conn r)) (routines v) = omap arrival ms ∧
  ∀ i r, routines v !! i = Some r →
    match r_stage r with
    | Gone => ∃ it rand n conn, origin (r_src r) it ∧ omap (turn_of i) ms = Authenticate rand :: replicate n Serve ∧
        handle_session conn_Close Error opt rand (handler n) (mkServerSession it [] (r_conn r) []) =
          Ret (errors_of v i, conn) ∧
        conn_of (pools v) i = Some conn
    | st => ∃ it s, origin (r_src r) it ∧
        turns (omap (turn_of i) ms) Numbered (Init it ([], r_conn r)) = Some (own_stage st, s, errors_of v i) ∧
        view (pools v) i = Some s
    end.
Proof.
  intros Hr. pose proof (run_moves_linv ms [] _ _ listening_linv Hr) as Hv. split; [apply (linv_arrivals _ v Hv)|].
  intros i r Er. destruct (r_stage r) eqn:Est;
    try (destruct (open_of ms v i r _ Hv Er Est ltac:(done)) as (it & s & ? & ? & _ & ?); by exists it, s).
  by apply (handled_alone ms).
Qed.

(** ** Identifiers *)

Definition numbered (r : routine) : bool := match r_stage r with Arrived => false | _ => true end.

Definition ids v : list Z := map r_id (filter numbered (routines v)).

(** The identifiers that were given out count from 1. *)
Definition ids_ok v : Prop :=
  sessId v = lenZ (ids v) ∧ ids v ≡ₚ map Z.of_nat (seq 1 (length (ids v))).

Lemma NoDup_filter_lookup {A B} (P : A → bool) (f : A → B) (l : list A) :
  NoDup (map f (filter P l)) →
  ∀ i j x y, l !! i = Some x → l !! j = Some y → P x → P y → f x = f y → i = j.
Proof.
  induction l as [|a l IH]; intros Hnd i j x y Hi Hj Hx Hy E; [done|].
  assert (∀ k z, P a → l !! k = Some z → P z → f a ≠ f z) as Ha.
  { intros k z Hpa Hk Hz Ef. rewrite filter_cons_True in Hnd by done. cbn in Hnd. apply NoDup_cons in Hnd as [Hn _].
    apply Hn. rewrite Ef. apply list_elem_of_fmap_2, list_elem_of_filter. split; [done|by eapply list_elem_of_lookup_2]. }
  assert (NoDup (map f (filter P l))) as Hnd'.
  { rewrite filter_cons in Hnd. destruct (decide _); [|done]. cbn in Hnd. by apply NoDup_cons in Hnd as [_ ?]. }
  destruct i as [|i], j as [|j]; cbn in Hi, Hj.
  - done.
  - injection Hi as ->. by destruct (Ha j y Hx Hj Hy).
  - injection Hj as ->. by destruct (Ha i x Hy Hi Hx).
  - f_equal. by apply (IH Hnd' i j x y).
Qed.

Lemma set_routine_split v i r st id :
  routines v !! i = Some r →
  ∃ l1 l2, routines v = l1 ++ r :: l2 ∧ set_routine i st id v = l1 ++ mkRoutine (r_src r) (r_conn r) id st :: l2.
Proof.
  intros Er. unfold set_routine. rewrite Er. destruct (list_elem_of_split_length _ _ _ Er) as (l1 & l2 & -> & ->).
  exists l1, l2. split; [done|]. by rewrite insert_app_r_alt, Nat.sub_diag.
Qed.

(** A goroutine that has its identifier keeps it. *)
Lemma set_routine_ids v i r st sv id rs err :
  routines v !! i = Some r → r_stage r ≠ Arrived → st ≠ Arrived →
  ids (mkListening sv id (set_routine i st (r_id r) v) rs err) = ids v.
Proof.
  intros Er H1 H2. unfold ids. cbn [routines]. destruct (set_routine_split v i r st (r_id r) Er) as (l1 & l2 & -> & ->).
  rewrite !filter_app, !map_app. f_equal. rewrite !filter_cons. unfold numbered. cbn [r_stage].
  destruct (r_stage r), st; done.
Qed.

Lemma number_ids v i r rs err :
  routines v !! i = Some r → r_stage r = Arrived → lenZ (routines v) < 2 ^ 64 → ids_ok v →
  ids_ok (mkListening (pools v) (u64 (sessId v + 1)) (set_routine i Numbered (u64 (sessId v + 1)) v) rs err).
Proof.
  intros Er Est Hlen [Hs Hp].
  destruct (set_routine_split v i r Numbered (u64 (sessId v + 1)) Er) as (l1 & l2 & E1 & E2).
  assert (ids v = map r_id (filter numbered l1) ++ map r_id (filter numbered l2)) as Ei.
  { unfold ids. rewrite E1, filter_app, filter_cons_False, map_app; [done|]. unfold numbered. rewrite Est. by intros []. }
  assert (u64 (sessId v + 1) = sessId v + 1) as Eu.
  { apply Z.mod_small. rewrite Hs, Ei. rewrite E1 in Hlen. unfold lenZ in *. rewrite !length_app in *. cbn [length] in Hlen.
    rewrite !length_map. pose proof (length_filter numbered l1). pose proof (length_filter numbered l2). lia. }
  set (v' := mkListening _ _ _ _ _).
  assert (ids v' ≡ₚ ids v ++ [sessId v + 1]) as Hp'.
  { unfold v', ids at 1. cbn [routines]. rewrite E2, filter_app, filter_cons, map_app. cbn [numbered r_stage].
    rewrite Eu, Ei. cbn [map r_id]. rewrite <- app_assoc. f_equiv. apply Permutation_cons_append. }
  assert (length (ids v') = Datatypes.S (length (ids v))) as El by (rewrite Hp', length_app; cbn; lia).
  split.
  - unfold lenZ. rewrite El. cbn [v' sessId]. rewrite Eu, Hs. unfold lenZ. lia.
  - rewrite El, seq_S, map_app, Hp', Hp, length_map, length_seq. f_equiv. cbn. rewrite Hs. unfold lenZ. f_equiv. lia.
Qed.

Lemma run_move_ids m v v' :
  run_move m v = Some v' → lenZ (routines v') < 2 ^ 64 → lenZ (routines v) < 2 ^ 64 ∧ (ids_ok v → ids_ok v').
Proof.
  destruct m as [pickI pickB src conn|e|i|i a|i]; cbn [run_move].
  - destruct (ended v); [done|]. intros [= <-]. unfold ids_ok, ids, lenZ. cbn [routines sessId].
    rewrite length_app, filter_app. cbn. rewrite app_nil_r. split; [lia|done].
  - destruct (ended v); [done|]. intros [= <-]. done.
  - destruct (routines v !! i) as [r|] eqn:Er; [|done]. cbn. destruct (r_stage r) eqn:Est; [|done..]. intros [= <-].
    unfold lenZ. cbn [routines]. rewrite set_routine_length. intros Hl. split; [done|]. by apply (number_ids v i r).
  - destruct (routines v !! i) as [r|] eqn:Er; [|done]. cbn. destruct (view (pools v) i) as [s|]; [|done]. cbn.
    destruct (turn a (r_stage r) s) as [[[st s'] es]|] eqn:Et; [|done]. cbn. intros [= <-].
    unfold lenZ. cbn [routines]. rewrite set_routine_length. intros Hl. split; [done|].
    unfold ids_ok. rewrite (set_routine_ids v i r); [done|done|..].
    + intros E. rewrite E in Et. by destruct a.
    + intros ->. revert Et. destruct a, (r_stage r); cbn; try done.
      * by destruct (authenticate _ _ _ _) as [[[|] ?]|].
      * by destruct (serve a s) as [[[|] ?]|].
  - destruct (routines v !! i) as [r|] eqn:Er; [|done]. cbn. destruct (r_stage r) eqn:Est; [done..| |done]. intros [= <-].
    unfold lenZ. cbn [routines]. rewrite set_routine_length. intros Hl. split; [done|].
    unfold ids_ok. rewrite (set_routine_ids v i r); [done|done|by rewrite Est|done].
Qed.

Lemma run_moves_ids ms : ∀ v v',
  run_moves ms v = Some v' → lenZ (routines v') < 2 ^ 64 → lenZ (routines v) < 2 ^ 64 ∧ (ids_ok v → ids_ok v').
Proof.
  induction ms as [|m ms IH]; intros v v'; cbn [run_moves]; [by intros [= <-]|].
  destruct (run_move m v) as [v1|] eqn:E; [|done]. cbn. intros Hr Hl. destruct (IH _ _ Hr Hl) as [Hl1 H1].
  destruct (run_move_ids _ _ _ E Hl1) as [Hl0 H0]. split; [done|]. intros H. by apply H1, H0.
Qed.

(** C39: Up to 2^64 connections, the sessions of a server are numbered from 1 without gaps, so
    that no two of them have the same identifier. *)
Theorem Listen_ids ms v :
  run_moves ms listening = Some v → lenZ (routines v) < 2 ^ 64 →
  ids v ≡ₚ map Z.of_nat (seq 1 (length (ids v))) ∧
  ∀ i j ri rj, routines v !! i = Some ri → routines v !! j = Some rj → numbered ri → numbered rj →
    r_id ri = r_id rj → i = j.
Proof.
  intros Hr Hl. destruct (run_moves_ids ms _ _ Hr Hl) as [_ H]. destruct (H ltac:(done)) as [_ Hp]. split; [exact Hp|].
  apply (NoDup_filter_lookup numbered r_id). fold (ids v). rewrite Hp. apply NoDup_fmap_2; [by intros ? ? [= ?%Nat2Z.inj]|].
  apply NoDup_seq.
Qed.

(** ** What a client gets *)

Section Clients.
  Context `{!RingLaws R, !NestedLaws R L I, !ConnLaws K}.
  Context (Error_short : ∀ e, sendable_str (Error e)).

(** What a source has to say, whatever ring reader is at it. *)
Definition says (src : S) (bs : list Z) : Prop :=
  delivers (NewReader src) bs ∧ ∀ r, delivers (ResetReader r (Some src)) bs.

Lemma origin_says src it bs : says src bs → origin src it → delivers (it_r it) bs.
Proof. intros [H1 H2] [->|(it0 & ->)]; cbn; [by apply SetManualFlush_delivers|apply H2]. Qed.

(** C9: A client of a busy server: if its PING is refused, exactly this error is reported
    and the connection, on which the HELO and the PONG were sent, is closed; otherwise
    the handler runs from its start, for the user, on a session that hands out exactly
    the entries of the stream that the client sent and acknowledges its chunks, and what
    is reported is what it returned.  The other connections play no part. *)
Theorem Listen_serves ms v i r hostname salt hexdigest username password ping fuel evs cs bs z :
  run_moves ms listening = Some v → routines v !! i = Some r → r_stage r = Gone →
  (∀ rand, Authenticate rand ∈ omap (turn_of i) ms → rand.2 = None ∧ lenZ rand.1 = 48) →
  sendable_str (s_Hostname opt) → conn_open (r_conn r) →
  encodes (ping_obj hostname salt hexdigest username password) ping → says (r_src r) (ping ++ bs) →
  stream gunzips evs cs bs z → (length bs + z + 2 < fuel)%nat →
  ∃ rand pong conn',
    let cred := (s_Auth opt username).1 in
    let verdict := ping_verdict (s_Auth opt) (take 24 rand) (auth_of opt rand) hostname salt hexdigest username password in
    encodes (reply Error opt verdict salt (take 24 rand) (SharedKey cred)) pong ∧
    sent conn' = sent (r_conn r) ++ appendHelo [] (take 24 rand) (auth_of opt rand) ++ pong ∧
    match verdict with
    | Some e => errors_of v i = [e] ∧ conn_of (pools v) i = Some (conn_Close conn').2
    | None => ∃ s n err conn,
        hands_out ss_ack fuel s evs cs ∧
        (∃ k, acked ss_ack (acks s) cs = ([], k) ∧ sent k = sent conn' ++ concat (map ack_message cs)) ∧
        drive n (begin (Username cred)) s = Ret (err, conn) ∧
        errors_of v i = reported err ∧ conn_of (pools v) i = Some (conn_Close conn).2
    end.
Proof.
  intros Hr Er Est Hrand Hhost Hk He Hsays Hst Hf.
  destruct (handled_alone ms v i r Hr Er Est) as (it & [rand e] & n & conn & Hit & Hacts & Hh & Hc).
  destruct (Hrand (rand, e)) as [He0 Hlen]; [rewrite Hacts; by left|]. cbn in He0, Hlen. subst e.
  destruct (handle_session_serves Error Error_short conn_Close opt rand (mkServerSession it [] (r_conn r) []) hostname salt
    hexdigest username password ping fuel evs cs bs z Hlen Hhost Hk eq_refl He (origin_says _ _ _ Hsays Hit) Hst Hf)
    as (pong & conn' & s & Hp & Hs & Hhandle & Hout).
  exists rand, pong, conn'. cbv zeta in *. split; [exact Hp|split; [exact Hs|]].
  rewrite (Hhandle (handler n)) in Hh. destruct (ping_verdict _ _ _ _ _ _ _ _) as [e|].
  - injection Hh as <- <-. done.
  - destruct (Hout eq_refl) as [Hho Hack]. unfold handler in Hh.
    destruct (drive n (begin (Username (s_Auth opt username).1)) s) as [[err conn1]|] eqn:Ed; [|done].
    cbn in Hh. injection Hh as <- <-. by exists s, n, err, conn1.
Qed.

End Clients.
End Listen.
