(* ===== verification/ExampleServer.v ===== *)
(** * ExampleServer: a handler (example/server/main.go)

    The repository's example of a server prints the fields of the entries that it
    receives.  Its handler is what an application of Listen looks like: a loop around
    [Next] that goes on when the read deadline has passed, and reads each record with
    [Next] and [Any].  [handler_prints] is about records whose values are scalars and
    arrays of scalars; of a map the handler prints the number of its fields only, which
    it then takes for fields of the record.

    What goes to the standard logger, which is another stream, is left out. *)

From S2P Require Import Prelude Types Errors Integer Headers Str Timestamp Object Strconv RingBuf Iter Transport Safety.
From S2P Require Import Pool Pooled Handshake Server Sessions Listen.

Section Handler.
  Context {R L I K : Type} `{!RingOps R, !RingOps I, !NestedOps R L I, !ConnOps K}.
  (** [errors.Is(err, os.ErrDeadlineExceeded)] *)
  Variable is_deadline : error → bool.
  (** a value formatted by [%s], and by [fmt.Println] without its newline *)
  Variable verb_s : value → list Z.
  Variable print : value → list Z.

Abbreviation session := (Session R I (list Z * K)).

(** The handler's variables, and what it has written to the standard output. *)
Record App := mkApp { i : Z; e : Entry; out : list Z }.

(** Where its reading of a record is: it goes on, or the handler returns. *)
Abbreviation reads it := (option (option error) * list Z * it)%type.

(** The loop over the items of an array. *)
Fixpoint print_array {X} `{!RingOps X} (k : nat) (n : Z) (it : Iterator X) (out : list Z) : go (reads (Iterator X)) :=
  match k with
  | O => Ret (None, out, it)
  | S k =>
    let '(ok, it) := Iter.Next it in
    if negb ok then Ret (Some (it_err it), out, it) else
    '(v, it) ← Any it;
    print_array k (n + 1) it (out ++ [10] ++ str "      " ++ FormatInt n ++ str " = " ++ verb_s v)
  end.

(** The loop over the fields of a record. *)
Fixpoint print_fields {X} `{!RingOps X} (k : nat) (it : Iterator X) (out : list Z) : go (reads (Iterator X)) :=
  match k with
  | O => Ret (None, out, it)
  | S k =>
    let '(ok, it) := Iter.Next it in
    if negb ok then Ret (Some (it_err it), out, it) else
    '(key, it) ← Any it;
    let '(ok, it) := Iter.Next it in
    if negb ok then Ret (Some (it_err it), out, it) else
    let out := out ++ str "   " ++ verb_s key ++ str " = " in
    if bool_decide (it_typ it = Types.Array) then
      '(ret, out, it) ← print_array (Z.to_nat (it_items it)) 0 it out;
      match ret with
      | Some err => Ret (Some err, out, it)
      | None => print_fields k it (out ++ [10])
      end
    else
      '(v, it) ← Any it;
      print_fields k it (out ++ print v ++ [10])
  end.

(** The same on the iterator that the entry names. *)
Definition print_record (e : Entry) (s : session) (out : list Z) : go (reads session) :=
  match e_Record e with
  | None => Panic NilPointer
  | Some Orig =>
    '(ret, out, it) ← print_fields (Z.to_nat (it_items (orig s))) (orig s) out;
    Ret (ret, out, set_orig s it)
  | Some Inner =>
    match p_iter (packed_of (mode s) s) with
    | None => Panic NilPointer
    | Some it =>
      '(ret, out, it) ← print_fields (Z.to_nat (it_items it)) it out;
      Ret (ret, out, set_inner s it)
    end
  end.

Definition received (i : Z) : list Z :=
  if 0 <? i then str "Received " ++ FormatInt i ++ str " messages" ++ [10] else [].

(** One round of the handler's loop, and what follows the loop if it ends. *)
Definition round (fuel : nat) (a : App) (s : session) : go (App * option (option error) * session) :=
  '(err, s, e) ← ss_Next fuel s (e a);
  match err with
  | Some err =>
    if is_deadline err then
      Ret (if 0 <? i a then mkApp 0 e (out a ++ received (i a)) else mkApp (i a) e (out a), None, s)
    else Ret (mkApp (i a) e (out a ++ [10] ++ received (i a)), Some (Some err), s)
  | None =>
    '(ret, out, s) ← print_record e s (out a);
    match ret with
    | Some err => Ret (mkApp (i a) e out, Some err, s)
    | None => Ret (mkApp (i64 (i a + 1)) e out, None, s)
    end
  end.

Fixpoint rounds (fuel k : nat) (a : App) (s : session) : go (App * option error * session) :=
  match k with
  | O => Panic OutOfFuel
  | S k =>
    '(a, ret, s) ← round fuel a s;
    match ret with
    | Some err => Ret (a, err, s)
    | None => rounds fuel k a s
    end
  end.

Definition begin (user : list Z) : App := mkApp 0 (mkEntry [] zeroTime None) [].

(** The handler as Listen has it. *)
Definition serve (fuel : nat) (a : App) (s : session) : go ((App + option error) * session) :=
  '(a, ret, s) ← round fuel a s;
  Ret (match ret with Some err => inr err | None => inl a end, s).

Lemma rounds_drive fuel k : ∀ a s a' err s',
  rounds fuel k a s = Ret (a', err, s') → drive (serve fuel) k a s = Ret (err, (acks s').2).
Proof.
  induction k as [|k IH]; intros a s a' err s'; cbn [rounds drive]; [done|].
  destruct (round fuel a s) as [[[a1 ret] s1]|] eqn:E; [|done].
  assert (serve fuel a s = Ret (match ret with Some err => inr err | None => inl a1 end, s1)) as ->
    by (unfold serve; by rewrite E).
  destruct ret; cbn; [by intros [= <- <- <-]|apply IH].
Qed.

(** ** What it prints *)

Definition print_item (n : nat) (o : obj) : list Z :=
  match o with
  | OScalar v => [10] ++ str "      " ++ FormatInt (Z.of_nat n) ++ str " = " ++ verb_s (value_of v)
  | _ => []
  end.

Definition print_value (o : obj) : list Z :=
  match o with
  | OScalar v => print (value_of v) ++ [10]
  | OArray os => concat (imap print_item os) ++ [10]
  | OMap _ => []
  end.

Definition print_field (f : list Z * obj) : list Z :=
  str "   " ++ verb_s (VStr f.1) ++ str " = " ++ print_value f.2.

Definition print_event (ev : event) : list Z := flat_map print_field (ev_fields ev).

(** Values that the handler can print. *)
Definition is_scalar (o : obj) : bool := match o with OScalar _ => true | _ => false end.
Definition flat (o : obj) : bool := match o with OScalar _ => true | OArray os => forallb is_scalar os | OMap _ => false end.

End Handler.
Arguments App : clear implicits.

Section Reading.
  Context `{RingLaws X} (verb_s print : value → list Z).

Lemma print_array_ok os : ∀ bss n (it : Iterator X) out rest,
  Forall2 encodes os bss → forallb is_scalar os → delivers (it_r it) (concat bss ++ rest) →
  ∃ it', print_array verb_s (length os) (Z.of_nat n) it out =
      Ret (None, out ++ concat (imap (λ j, print_item verb_s (n + j)) os), it') ∧ delivers (it_r it') rest.
Proof.
  induction os as [|o os IH]; intros bss n it out rest H2 Hs Hd.
  { inversion H2; subst. exists it. by rewrite app_nil_r. }
  apply Forall2_cons_inv_l in H2 as (ob & bss1 & Ho & H2 & ->). cbn [forallb] in Hs.
  apply andb_prop_elim in Hs as [Hs1 Hs2]. destruct o as [v| |]; [|done..].
  cbn [concat] in Hd. rewrite <- app_assoc in Hd.
  destruct (Any_at it v ob _ Hd Ho) as (it1 & it2 & EN & _ & EA & _ & Hd2).
  cbn [length print_array]. rewrite EN. cbn [negb]. rewrite EA. go_simpl.
  replace (Z.of_nat n + 1) with (Z.of_nat (S n)) by lia.
  destruct (IH bss1 (S n) it2 (out ++ [10] ++ str "      " ++ FormatInt (Z.of_nat n) ++ str " = " ++ verb_s (value_of v))
    rest H2 Hs2 Hd2) as (it' & -> & Hd').
  exists it'. split; [|done]. do 3 f_equal. cbn [imap concat]. rewrite Nat.add_0_r. cbn [print_item].
  rewrite <- !app_assoc. do 6 f_equal. f_equal. apply imap_ext. intros j o _. cbn. by rewrite Nat.add_succ_r.
Qed.

Lemma print_fields_ok fs : ∀ bss (it : Iterator X) out rest,
  Forall2 encodes (flatten (map (λ f, (OScalar (SStr f.1), f.2)) fs)) bss → forallb (λ f, flat f.2) fs →
  delivers (it_r it) (concat bss ++ rest) →
  ∃ it', print_fields verb_s print (length fs) it out =
      Ret (None, out ++ flat_map (print_field verb_s print) fs, it') ∧ delivers (it_r it') rest.
Proof.
  induction fs as [|[k o] fs IH]; intros bss it out rest H2 Hs Hd.
  { inversion H2; subst. exists it. by rewrite app_nil_r. }
  unfold flatten in H2. cbn [map flat_map app fst snd forallb] in H2, Hs. apply andb_prop_elim in Hs as [Hs1 Hs2].
  apply Forall2_cons_inv_l in H2 as (kb & bss1 & Hk & H2 & ->).
  apply Forall2_cons_inv_l in H2 as (vb & bss2 & Hv & H2 & ->).
  cbn [concat] in Hd. rewrite <- !app_assoc in Hd.
  destruct (Any_at it (SStr k) kb _ Hd Hk) as (it1 & it2 & EN & _ & EA & _ & Hd2).
  cbn [length print_fields]. rewrite EN. cbn [negb]. rewrite EA. go_simpl. cbn [value_of].
  set (out1 := out ++ _ ++ _ ++ _). destruct o as [v|os|]; [| |done].
  - destruct (Any_at it2 v vb _ Hd2 Hv) as (it3 & it4 & EN3 & Et & EA3 & _ & Hd4). rewrite EN3. cbn [negb].
    rewrite bool_decide_false by (rewrite Et; apply scalar_type_scalar). rewrite EA3. go_simpl.
    destruct (IH bss2 it4 (out1 ++ print (value_of v) ++ [10]) rest H2 Hs2 Hd4) as (it' & -> & Hd').
    exists it'. split; [|done]. do 3 f_equal. cbn [flat_map]. unfold print_field at 2, out1. cbn [print_value fst snd].
    by rewrite <- !app_assoc.
  - destruct (Array_token it2 os vb _ Hd2 Hv) as (it3 & vss & EN3 & Et & Ei & Hvs & Hd3 & _). rewrite EN3. cbn [negb].
    rewrite bool_decide_true by done. rewrite Ei. unfold lenZ. rewrite Nat2Z.id.
    destruct (print_array_ok os vss 0 it3 out1 _ Hvs Hs1 Hd3) as (it4 & EA4 & Hd4). change (Z.of_nat 0) with 0 in EA4.
    rewrite EA4. go_simpl.
    destruct (IH bss2 it4 ((out1 ++ concat (imap (print_item verb_s) os)) ++ [10]) rest H2 Hs2 Hd4) as (it' & E' & Hd').
    exists it'. split; [|done]. etransitivity; [exact E'|]. do 3 f_equal. cbn [flat_map]. unfold print_field at 2, out1.
    cbn [print_value fst snd]. by rewrite <- !app_assoc.
Qed.

End Reading.

(** ** Properties *)

Section Properties.
  Context {R L I K : Type} `{!RingOps R, !RingOps I, !NestedOps R L I, !ConnOps K, !RingLaws R, !NestedLaws R L I}.
  Context (is_deadline : error → bool) (verb_s print : value → list Z).

(** A record that was handed out is printed, and the session goes on behind it. *)
Lemma print_record_ok (e : Entry) (s : Session R I (list Z * K)) rec fs k (P : Session R I (list Z * K) → Prop) out :
  e_Record e = Some rec → forallb (λ f, flat f.2) fs →
  match rec with
  | Orig => at_record (orig s) fs k (λ it, P (set_orig s it))
  | Inner => ∃ it rest, p_iter (packed_of (mode s) s) = Some it ∧
      @at_record I _ (nested rest) it fs k (λ it, P (set_inner s it))
  end →
  ∃ s', print_record verb_s print e s out = Ret (None, out ++ flat_map (print_field verb_s print) fs, s') ∧ P s'.
Proof.
  intros He Hfl Hr. unfold print_record. rewrite He. destruct rec.
  - destruct Hr as (bss & rest & Ei & _ & H2 & Hd & HP). rewrite Ei. unfold lenZ. rewrite Nat2Z.id.
    destruct (print_fields_ok verb_s print fs bss (orig s) out rest H2 Hfl Hd) as (it' & -> & Hd'). go_simpl.
    exists (set_orig s it'). split; [done|by apply HP].
  - destruct Hr as (it & rest & -> & bss & rest' & Ei & _ & H2 & Hd & HP). rewrite Ei. unfold lenZ. rewrite Nat2Z.id.
    destruct (@print_fields_ok I _ (nested rest) verb_s print fs bss it out rest' H2 Hfl Hd) as (it' & -> & Hd'). go_simpl.
    exists (set_inner s it'). split; [done|by apply HP].
Qed.

Lemma rounds_prints fuel evs : ∀ (s : Session R I (list Z * K)) cs k a,
  is_deadline EOF = false → Forall (λ ev, forallb (λ f, flat f.2) (ev_fields ev)) evs →
  hands_out ss_ack fuel s evs cs → (length evs < k)%nat → 0 ≤ i a → i a + lenZ evs < 2 ^ 63 →
  ∃ s' e', rounds is_deadline verb_s print fuel k a s =
      Ret (mkApp (i a + lenZ evs) e'
             (out a ++ flat_map (print_event verb_s print) evs ++ [10] ++ received (i a + lenZ evs)), Some EOF, s') ∧
    acks s' = acked ss_ack (acks s) cs.
Proof.
  induction evs as [|ev evs IH]; intros s cs k a Hdl Hfl Ho Hk Hi0 Hi; (destruct k as [|k]; [cbn in Hk; lia|]);
    cbn [hands_out rounds] in *; unfold round, ss_Next; specialize (Ho (e a)).
  - destruct Ho as (s' & e' & -> & Ha). go_simpl. rewrite Hdl. exists s', e'. split; [|done]. go_simpl.
    change (lenZ []) with 0. by rewrite Z.add_0_r.
  - destruct Ho as (s1 & rec & c1 & c2 & k1 & E & -> & Ha1 & Hrec). rewrite E. go_simpl.
    apply Forall_cons in Hfl as [Hf1 Hfl]. change (lenZ (ev :: evs)) with (Z.of_nat (S (length evs))) in *.
    destruct (print_record_ok (mkEntry (ev_tag ev) (ev_time ev) (Some rec)) s1 rec (ev_fields ev) k1
      (λ s2, hands_out ss_ack fuel s2 evs c2 ∧ acks s2 = acks s1) (out a) eq_refl Hf1) as (s2 & -> & Ho2 & Ha2).
    { destruct rec.
      - eapply at_record_mono; [exact Hrec|]. intros it Hit. by split.
      - destruct Hrec as (it & rest & Hp & Hrec). exists it, rest. split; [done|].
        eapply (@at_record_mono I _ (nested rest)); [exact Hrec|]. intros it' Hit. by split. }
    go_simpl. rewrite swrap_small by (unfold lenZ in Hi; lia).
    destruct (IH s2 c2 k (mkApp (i a + 1) (mkEntry (ev_tag ev) (ev_time ev) (Some rec))
      (out a ++ flat_map (print_field verb_s print) (ev_fields ev)))) as (s' & e' & -> & Ha'); try done.
    { cbn in Hk. lia. } { cbn. lia. } { cbn [i]. unfold lenZ in *. lia. }
    exists s', e'. cbn [i out]. split.
    + replace (i a + 1 + lenZ evs) with (i a + Z.of_nat (S (length evs))) by (unfold lenZ; lia).
      do 3 f_equal. cbn [flat_map]. by rewrite <- !app_assoc.
    + rewrite Ha', Ha2, Ha1. unfold acked. by rewrite fold_left_app.
Qed.

(** C40: On a session that hands out entries whose values are scalars and arrays of scalars,
    the example's handler prints the fields of every record, in order, then how many
    messages it received, and returns the end of file after one round more than there
    are entries - as Listen has it too -, with the chunks acknowledged. *)
Theorem handler_prints fuel evs (s : Session R I (list Z * K)) cs user :
  is_deadline EOF = false → Forall (λ ev, forallb (λ f, flat f.2) (ev_fields ev)) evs →
  hands_out ss_ack fuel s evs cs → lenZ evs < 2 ^ 63 →
  ∃ s' app, rounds is_deadline verb_s print fuel (S (length evs)) (begin user) s = Ret (app, Some EOF, s') ∧
    out app = flat_map (print_event verb_s print) evs ++ [10] ++ received (lenZ evs) ∧
    drive (serve is_deadline verb_s print fuel) (S (length evs)) (begin user) s = Ret (Some EOF, (acks s').2) ∧
    acks s' = acked ss_ack (acks s) cs.
Proof.
  intros Hdl Hfl Ho Hl.
  destruct (rounds_prints fuel evs s cs (S (length evs)) (begin user) Hdl Hfl Ho) as (s' & e' & E & Ha);
    [lia|done|done|].
  exists s', (mkApp (0 + lenZ evs) e' ([] ++ flat_map (print_event verb_s print) evs ++ [10] ++ received (0 + lenZ evs))).
  split; [exact E|split; [done|split; [|done]]]. by eapply rounds_drive.
Qed.

End Properties.

(** ** Witness: the stream of Transport, on a connection *)

Definition verb0 (v : value) : list Z :=
  match v with VStr s => s | VBool b => if b then str "true" else str "false" | VInt z | VUint z => FormatInt z | _ => [] end.

Definition bytes0 : list Z := message0 ++ forward0 ++ compressed0.

Definition server_session0 : ServerSession list_ring (list Z) := mkServerSession (iter_over bytes0) [] [] (str "user").

Lemma handler_prints_witness : ∃ s' app,
  rounds (λ _, false) verb0 verb0 200 5 (begin (str "user")) (initTransportPhase (I := list_inner) server_session0) =
    Ret (app, Some EOF, s') ∧
  out app = concat (replicate 4 (str "   k = true" ++ [10])) ++ [10] ++ str "Received 4 messages" ++ [10] ∧
  (acks s').2 = ack_message (str "c1").
Proof.
  destruct (session_ready (ConnLaws0 := list_conn_laws) 200 server_session0 [event0; event0; event0; event0]
    [str "c1"] bytes0 size0 Logic.I eq_refl ltac:(exact eq_refl) stream0 ltac:(by apply Nat.ltb_lt)) as (Ho & _).
  destruct (handler_prints (λ _, false) verb0 verb0 200 [event0; event0; event0; event0]
    (initTransportPhase server_session0) [str "c1"] (str "user") eq_refl ltac:(repeat constructor) Ho eq_refl)
    as (s' & app & E & Eo & _ & Ea).
  exists s', app. split; [exact E|]. split; [exact Eo|]. by rewrite Ea.
Defined.

(** ** Witness: a server with this handler and two clients, one of which comes when there
    are no random numbers *)

Definition secret0 : Credentials := mkCredentials [] [] (str "secret").
Definition options0 : ServerOptions := NewServer (str "srv") (Some (StaticAuthServer secret0)) false.

Definition ping1 : list Z :=
  match appendPing (str "cli") secret0 [] salt0 (replicate 24 7) [] with Ret bs => bs | Panic _ => [] end.

Lemma ping1_sent :
  encodes (ping_obj (str "cli") salt0 (digest [salt0; str "cli"; replicate 24 7; str "secret"]) [] []) ping1.
Proof.
  unfold ping1. destruct (appendPing_encodes (str "cli") secret0 [] salt0 (replicate 24 7) [])
    as (bs & E & H); [done..|]. by rewrite E.
Qed.

Abbreviation lmove0 := (Listen.move (S := list Z) (K := list Z)).
Abbreviation serve0 := (serve (R := list_ring) (I := list_inner) (K := list Z) (λ _, false) verb0 verb0 200).
Abbreviation listen0 := (Listen.run_moves close0 reader0 reset0 error0 options0 begin serve0).
Abbreviation listening0 := (Listening (R := list_ring) (I := list_inner) (K := list Z) (S := list Z) (App := App)).

Definition listen_moves0 : list lmove0 :=
  [LArrive None None (ping1 ++ bytes0) []; LArrive None None message0 []; LNumber 1; LNumber 0;
   LTurn 0 (Authenticate (random0, None)); LTurn 1 (Authenticate ([], Some (External 1))); LTurn 0 Serve; LClose 1;
   LTurn 0 Serve; LTurn 0 Serve; LTurn 0 Serve; LTurn 0 Serve; LClose 0].

Definition listened0 : listening0 := Eval vm_compute in default listening (listen0 listen_moves0 listening).

Lemma listened0_run : listen0 listen_moves0 listening = Some listened0.
Proof. vm_compute. reflexivity. Qed.

(** The goroutine of the first client, which has ended. *)
Definition routine0 : routine (K := list Z) (S := list Z) (App := App) :=
  Eval vm_compute in default (mkRoutine [] [] 0 Arrived) (routines listened0 !! 0%nat).

Lemma routine0_found : routines listened0 !! 0%nat = Some routine0.
Proof. reflexivity. Qed.

Lemma routine0_src : r_src routine0 = ping1 ++ bytes0.
Proof. vm_compute. reflexivity. Qed.

Lemma routine0_turns : omap (turn_of 0) listen_moves0 = Authenticate (random0, None) :: replicate 5 Serve.
Proof. reflexivity. Qed.

Lemma Listen_each_witness : ∃ it rand n conn,
  origin reader0 reset0 (r_src routine0) it ∧ omap (turn_of 0) listen_moves0 = Authenticate rand :: replicate n Serve ∧
  handle_session close0 error0 options0 rand (handler begin serve0 n) (mkServerSession it [] (r_conn routine0) []) =
    Ret (errors_of listened0 0, conn) ∧
  conn_of (pools listened0) 0 = Some conn.
Proof.
  pose proof (Listen_each close0 reader0 reset0 error0 options0 begin serve0 listen_moves0 listened0 listened0_run) as [_ H].
  exact (H 0%nat routine0 routine0_found).
Defined.

Lemma Listen_ids_witness : ids listened0 ≡ₚ [1; 2].
Proof.
  exact (proj1 (Listen_ids close0 reader0 reset0 error0 options0 begin serve0 listen_moves0 listened0 listened0_run eq_refl)).
Defined.

Abbreviation digest0 := (digest [salt0; str "cli"; replicate 24 7; str "secret"]).

Lemma Listen_serves_witness : ∃ rand pong conn',
  let cred := (s_Auth options0 []).1 in
  let verdict := ping_verdict (s_Auth options0) (take 24 rand) (auth_of options0 rand) (str "cli") salt0 digest0 [] [] in
  encodes (reply error0 options0 verdict salt0 (take 24 rand) (SharedKey cred)) pong ∧
  sent conn' = sent (r_conn routine0) ++ appendHelo [] (take 24 rand) (auth_of options0 rand) ++ pong ∧
  match verdict with
  | Some e => errors_of listened0 0 = [e] ∧ conn_of (pools listened0) 0 = Some (close0 conn').2
  | None => ∃ s n err conn,
      hands_out ss_ack 200 s [event0; event0; event0; event0] [str "c1"] ∧
      (∃ k, acked ss_ack (acks s) [str "c1"] = ([], k) ∧ sent k = sent conn' ++ concat (map ack_message [str "c1"])) ∧
      drive serve0 n (begin (Username cred)) s = Ret (err, conn) ∧
      errors_of listened0 0 = reported err ∧ conn_of (pools listened0) 0 = Some (close0 conn).2
  end.
Proof.
  assert (Hsays : says reader0 reset0 (r_src routine0) (ping1 ++ bytes0))
    by (rewrite routine0_src; split; [done|by intros r]).
  assert (Hrand : ∀ rand, Authenticate rand ∈ omap (turn_of 0) listen_moves0 → rand.2 = None ∧ lenZ rand.1 = 48).
  { rewrite routine0_turns. intros rand [[= ->]|Hin]%elem_of_cons; [done|]. by apply elem_of_replicate in Hin as [[=] _]. }
  assert (Hf : (length bytes0 + size0 + 2 < 200)%nat) by by apply Nat.ltb_lt.
  exact (Listen_serves close0 reader0 reset0 error0 options0 begin serve0 (λ _, eq_refl) listen_moves0 listened0 0 routine0
    (str "cli") salt0 digest0 [] [] ping1 200 [event0; event0; event0; event0] [str "c1"] bytes0 size0 listened0_run
    routine0_found eq_refl Hrand eq_refl Logic.I ping1_sent Hsays stream0 Hf).
Defined.
