(* ===== verification/Sockets.v ===== *)
(** * Sockets: the sockets of a server (forward/server.go, server_heartbeat.go)

    [Server.Listen] binds its address twice, for TCP and, for the heartbeats of clients,
    for UDP; a goroutine closes both when the context ends, which the return of the
    loop brings about.  Another answers heartbeats.  Here is what is before and after
    the loop of Listen, over the set of bound addresses.

    A server that cannot bind its UDP address returns without closing the listener
    that it already has, so that its TCP address stays bound ([Listen_leaks]).

    TLS, which wraps the listener, and messages to the standard logger are left out. *)

From stdpp Require Import gmap.
From S2P Require Import Prelude Types Errors RingBuf Transport Handshake Pool Sessions Listen.

Inductive proto := TCP | UDP.

#[export] Instance proto_eq_dec : EqDecision proto.
Proof. solve_decision. Defined.

#[export] Program Instance proto_countable : Countable proto :=
  inj_countable' (λ p, match p with TCP => true | UDP => false end) (λ b, if b : bool then TCP else UDP) _.
Next Obligation. by intros []. Qed.

(** The addresses that are bound, with their protocol. *)
Abbreviation bound := (gset (proto * list Z)).

Implicit Types (w : bound) (addr : list Z).

(** [lc.Listen] and [lc.ListenPacket]: an address that is bound cannot be bound again;
    there can be other errors, [fail]. *)
Definition errInUse : error := External 98.

Definition lc_Listen (p : proto) addr (fail : option error) w : option error * bound :=
  match fail with
  | Some e => (Some e, w)
  | None => if decide ((p, addr) ∈ w) then (Some errInUse, w) else (None, {[(p, addr)]} ∪ w)
  end.

(** ** server_heartbeat.go *)

(** [is_udp] is the type assertion on the connection. *)
Definition udpConn addr (fail : option error) (is_udp : bool) w : option error * bound :=
  let '(err, w) := lc_Listen UDP addr fail w in
  match err with
  | Some _ => (err, w)
  | None => if is_udp then (None, w) else (Some (Errorf "invalid UDP connection" []), w)
  end.

(** A read of the socket: the number of bytes, the first one, the sender and the error. *)
Record packet (A : Type) := mkPacket { pk_n : Z; pk_byte : Z; pk_from : A; pk_err : option error }.
Arguments mkPacket {A}.
Arguments pk_n {A}.
Arguments pk_byte {A}.
Arguments pk_from {A}.
Arguments pk_err {A}.

(** The loop of the goroutine: what it answers, to whom; [buf] is its only byte. *)
Fixpoint heartbeat {A} (buf : Z) (ps : list (packet A)) : list (Z * A) :=
  match ps with
  | [] => []
  | p :: ps =>
    let buf := if 0 <? pk_n p then pk_byte p else buf in
    (if 0 <? pk_n p then [(buf, pk_from p)] else []) ++
    match pk_err p with Some _ => [] | None => heartbeat buf ps end
  end.

Definition listenHeartbeat addr (fail : option error) (is_udp : bool) w : option error * bound :=
  udpConn addr fail is_udp w.

(** Each packet with data is answered with its first byte, up to the first error. *)
Lemma heartbeat_echoes {A} (ps : list (packet A)) : ∀ buf,
  Forall (λ p, pk_err p = None) ps →
  heartbeat buf ps = map (λ p, (pk_byte p, pk_from p)) (filter (λ p, 0 < pk_n p) ps).
Proof.
  induction ps as [|p ps IH]; intros buf Hp; [done|]. apply Forall_cons in Hp as [He Hp]. cbn [heartbeat].
  rewrite He, filter_cons. destruct (Z.ltb_spec 0 (pk_n p)).
  - rewrite decide_True by done. cbn. by rewrite IH.
  - rewrite decide_False by lia. cbn. by apply IH.
Qed.

(** ** server.go *)

(** [Listen] up to its loop: the error that it returns, if it does. *)
Definition Listen_start addr (tcp udp : option error) (is_udp : bool) w : option error * bound :=
  let '(err, w) := lc_Listen TCP addr tcp w in
  match err with
  | Some _ => (err, w)
  | None => listenHeartbeat addr udp is_udp w
  end.

(** The goroutine that waits for the end of the context. *)
Definition Listen_end addr w : bound := w ∖ {[(UDP, addr); (TCP, addr)]}.

Section Listen.
  Context {R L I K S App : Type} `{!RingOps R, !RingOps I, !NestedOps R L I, !ConnOps K, BP : !BufferPool}.
  Variable conn_Close : K → option error * K.
  Variable NewReader : S → R.
  Variable ResetReader : R → option S → R.
  Variable Error : error → list Z.
  Variable opt : ServerOptions.
  Variable begin : list Z → App.
  Variable serve : App → Session R I (list Z * K) → go ((App + option error) * Session R I (list Z * K)).

(** [Server.Listen]: what it returns, where its goroutines are by then, and the addresses
    that are bound; none while it still listens. *)
Definition Listen addr (tcp udp : option error) (is_udp : bool) (ms : list move) w :
    option (error * Listening (R := R) (I := I) (K := K) (S := S) (App := App) * bound) :=
  match Listen_start addr tcp udp is_udp w with
  | (Some e, w) => Some (e, listening, w)
  | (None, w) =>
    v ← run_moves conn_Close NewReader ResetReader Error opt begin serve ms listening;
    e ← ended v; Some (e, v, Listen_end addr w)
  end.

End Listen.

(** A server that came to listen gives back what it has bound. *)
Lemma Listen_start_end addr tcp udp is_udp w w' :
  Listen_start addr tcp udp is_udp w = (None, w') →
  Listen_end addr w' = w ∧ ((TCP, addr) ∉ w) ∧ ((UDP, addr) ∉ w).
Proof.
  unfold Listen_start, listenHeartbeat, udpConn, lc_Listen, Listen_end.
  destruct tcp; [done|]. case_decide as Ht; [done|]. destruct udp; [done|]. case_decide as Hu; [done|].
  destruct is_udp; [|done]. intros [= <-]. split; [|split; [done|set_solver]].
  apply set_eq. intros x. rewrite elem_of_difference, !elem_of_union, !elem_of_singleton. split; [tauto|].
  intros Hx. split; [tauto|]. intros [->| ->]; set_solver.
Qed.

(** If the UDP address cannot be bound, [Listen] returns the error and leaves the TCP
    address bound: as long as nobody closes the listener, which nobody can, no later
    [Listen] on the address succeeds, though UDP is free again. *)
Lemma Listen_leaks addr e w w1 :
  ((TCP, addr) ∉ w) →
  Listen_start addr None (Some e) true w = (Some e, {[(TCP, addr)]} ∪ w) ∧
  ((TCP, addr) ∈ w1 → ∀ tcp udp is_udp, ∃ e' w2, Listen_start addr tcp udp is_udp w1 = (Some e', w2) ∧ w2 = w1).
Proof.
  intros Hw. unfold Listen_start, lc_Listen. rewrite decide_False by done. split; [done|].
  intros Hw1 [e1|] udp is_udp; [by exists e1, w1|]. rewrite decide_True by done. by exists errInUse, w1.
Qed.

(** ** Read deadlines (server_session.go) *)

(** [time.Since] is a duration, of at most 2^63 nanoseconds either way. *)
Definition Since (now t : Z) : Z := Z.max (- 2 ^ 63) (Z.min (2 ^ 63 - 1) (now - t)).

(** The deadline that [ServerSession.Next] sets, in nanoseconds. *)
Definition read_deadline (ReadTimeout timeConn now : Z) : option Z :=
  if 0 <? ReadTimeout then
    let dur := Since now timeConn in
    let dur := i64 (dur + ReadTimeout) in
    Some (timeConn + dur)
  else None.

(** The deadline is a timeout from now, unless the session is 292 years old. *)
Lemma read_deadline_now timeout timeConn now :
  0 < timeout → timeConn ≤ now → now - timeConn + timeout < 2 ^ 63 →
  read_deadline timeout timeConn now = Some (now + timeout).
Proof.
  intros Ht Hn Hs. unfold read_deadline, Since. rewrite (proj2 (Z.ltb_lt _ _) Ht).
  rewrite Z.min_r, Z.max_r by lia. rewrite swrap_small by lia. f_equal. lia.
Qed.
