(* ===== verification/Digests.v ===== *)
(** * Digests: the pool of hash states (forward/sha512_hex.go)

    Handshake has [sha512Hex] as a function of the strings.  In the program the strings
    are written to a hash state from a pool, which other goroutines use for digests of
    their own; a state is what was written to it since its last reset. *)

From S2P Require Import Prelude Strconv Sha512 Pool Handshake.

Implicit Types (p : Pool (list Z)) (h : nat) (hs : list nat).

Definition getSha512 (pick : option nat) p : nat * Pool (list Z) :=
  match take_free pick p with
  | Some (h, p) => (h, assign h [] p)
  | None => alloc [] p
  end.

(** [h.Write(val)] *)
Definition hash_Write h (val : list Z) p : Pool (list Z) := assign h (content p h ++ val) p.

Definition pooled_sha512Hex (pick : option nat) (vals : list (list Z)) (dst : list Z) p : list Z * Pool (list Z) :=
  let '(h, p) := getSha512 pick p in
  let p := fold_left (λ p val, hash_Write h val p) vals p in
  (dst ++ hex_encode (sha512 (content p h)), Put h p).

(** A new state is as one that has been reset: this is the pool of buffers over lists. *)
Lemma getSha512_Get pick p : getSha512 pick p = buf_Get pick p.
Proof.
  cbn [buf_Get sync_BufferPool]. unfold getSha512, Get. destruct (take_free pick p) as [[h p1]|]; [done|].
  unfold alloc, assign. cbn. by rewrite list_insert_id by (by apply list_lookup_middle).
Qed.

Lemma hash_Writes h hs vals : ∀ p,
  owned p (h :: hs) → (h ∉ hs) →
  let p' := fold_left (λ p val, hash_Write h val p) vals p in
  owned p' (h :: hs) ∧ agree p p' hs ∧ content p' h = content p h ++ concat vals.
Proof.
  induction vals as [|v vals IH]; intros p Ho Hn; cbn [fold_left concat].
  { split; [done|split; [by intros h'|by rewrite app_nil_r]]. }
  destruct (IH (hash_Write h v p) ltac:(by apply owned_assign) Hn) as (H1 & H2 & H3). split; [done|split].
  - intros h' Hh'. rewrite (H2 h' Hh'). by apply (agree_assign p hs).
  - rewrite H3. unfold hash_Write. rewrite (content_assign p (h :: hs)) by (done || by left). by rewrite app_assoc.
Qed.

(** Whatever state the pool gives, and whoever has the others: the digest is that of the
    strings, the state goes back and the others are as they were. *)
Lemma pooled_sha512Hex_same pick vals dst p hs :
  owned p hs →
  ∃ p', pooled_sha512Hex pick vals dst p = (sha512Hex vals dst, p') ∧ owned p' hs ∧ agree p p' hs.
Proof.
  intros Ho. unfold pooled_sha512Hex. destruct (getSha512 pick p) as [h p1] eqn:E.
  rewrite getSha512_Get in E.
  destruct (buf_Get_owned p hs pick h p1 Ho E) as (H1 & H2 & H3 & H4).
  destruct (hash_Writes h hs vals p1 H1 H2) as (H5 & H6 & H7). cbv zeta in H5, H6, H7. rewrite H7, H4.
  eexists. split; [reflexivity|split; [by apply owned_Put|]]. intros h' Hh'.
  change (content (Put h ?q) h') with (content q h'). by rewrite (H6 h' Hh'), (H3 h' Hh').
Qed.
