(* ===== verification/Writer.v ===== *)
(** * Writer: the buffered writer (pkg/msgpack/writer.go, buffer.go)

    A [Writer] is a buffer and, unless it is nil, the connection that the buffer is
    written to.  Connections are handles into a network [W]: two parts of the program
    that hold the same handle share the connection.  [NetOps] are the operations on
    them (of net, crypto/tls, crypto/rand and the buffer of
    github.com/webmafia/fast) and [NetLaws] what they are documented to do: a write
    that returns no error has sent everything, one that fails some prefix.

    The methods of the buffer replace its bytes by those that the append function
    of the same name returns. *)

From S2P Require Import Prelude Types Errors Integer Headers Str Float Timestamp.

(** ** The network *)

Class NetOps (W : Type) := {
  (** dial a TCP address: the handle, and whether it is a [*net.TCPConn] *)
  Dial : list Z → W → (error + nat * bool) * W;
  (** [tls.Client] over a connection *)
  tls_Client : nat → W → nat * W;
  conn_Write : nat → list Z → W → Z * option error * W;
  conn_Close : nat → W → option error * W;
  rand_Read : Z → W → list Z * option error * W;
  (** [Buffer.WriteTo]: the error, and what is left in the buffer *)
  Buffer_WriteTo : nat → list Z → W → option error * list Z * W;
  (** [Buffer.Grow] by so many bytes: the error, and the buffer with its capacity *)
  Buffer_Grow : list Z → Z → option error * Slice
}.

(** [out w id] is what has been sent on a connection. *)
Class NetLaws (W : Type) `{!NetOps W} := {
  out : W → nat → list Z;
  Dial_out addr w id tcp w' :
    Dial addr w = (inr (id, tcp), w') → out w' id = [];
  tls_Client_out id w : out (tls_Client id w).2 (tls_Client id w).1 = [];
  conn_Write_out id b w :
    let '(n, err, w') := conn_Write id b w in
    0 ≤ n ≤ lenZ b ∧ (err = None → n = lenZ b) ∧
    out w' id = out w id ++ take (Z.to_nat n) b;
  Buffer_WriteTo_out id b w :
    let '(err, _, w') := Buffer_WriteTo id b w in
    ∃ n, out w' id = out w id ++ take n b ∧ (err = None → take n b = b);
  rand_Read_out n w id : out (rand_Read n w).2 id = out w id;
  rand_Read_length n w r w' : 0 ≤ n → rand_Read n w = (r, None, w') → lenZ r = n;
  Buffer_Grow_cap b n : 0 < n → 
    let '(err, s) := Buffer_Grow b n in
    err = None → live s = b ∧ lenZ b + n ≤ lenZ b + lenZ (spare s)
}.

Section Writer.
  Context {W : Type} `{!NetOps W}.

(** ** buffer.go *)

Record Writer := mkWriter { B : list Z; w_w : option nat }.

Definition set_B (w : Writer) (b : list Z) : Writer := mkWriter b (w_w w).

Definition WriteArrayHeader (w : Writer) (n : Z) : Writer := set_B w (AppendArrayHeader (B w) n).
Definition WriteMapHeader (w : Writer) (n : Z) : Writer := set_B w (AppendMapHeader (B w) n).
Definition WriteString (w : Writer) (s : list Z) : Writer := set_B w (AppendString (B w) s).
Definition WriteStringMax255 (w : Writer) (fn : list Z → list Z) : go Writer :=
  b ← AppendStringMax255 (B w) fn; Ret (set_B w b).
Definition WriteInt (w : Writer) (i : Z) : Writer := set_B w (AppendInt (B w) i).
Definition WriteUint (w : Writer) (i : Z) : Writer := set_B w (AppendUint (B w) i).
Definition WriteNil (w : Writer) : Writer := set_B w (AppendNil (B w)).
Definition WriteBool (w : Writer) (b : bool) : Writer := set_B w (AppendBool (B w) b).
Definition WriteBinary (w : Writer) (data : list Z) : Writer := set_B w (AppendBinary (B w) data).
Definition WriteFloat (w : Writer) (f : Z) : Writer := set_B w (AppendFloat (B w) f).
Definition WriteTimestamp (w : Writer) (t : Time) (format : list TsFormat) : Writer :=
  set_B w (AppendTimestamp (B w) t format).

(** ** writer.go *)

Definition NewWriter (w : option nat) (buf : list Z) : Writer := mkWriter buf w.

Definition Reset (w : Writer) (writer : option nat) : Writer := mkWriter [] writer.

Definition Writer_Flush (w : Writer) (net : W) : option error * Writer * W :=
  let '(err, w, net) :=
    match w_w w with
    | Some id => let '(err, b, net) := Buffer_WriteTo id (B w) net in (err, set_B w b, net)
    | None => (None, w, net)
    end in
  match err with
  | None => (None, set_B w [], net)
  | Some _ => (err, w, net)
  end.

Definition WriteCustom (w : Writer) (fn : list Z → list Z) : Writer := set_B w (fn (B w)).

Definition errInvalidWrite : error := Errorf "invalid write result" [].

(** The loop of [io.CopyBuffer]: [size] bytes at a time, until the reader, here the
    bytes [src] that it delivers, is at its end. *)
Fixpoint copy_loop (fuel : nat) (size : Z) (id : nat) (src : list Z) (net : W) : go (option error * W) :=
  match fuel with
  | O => Panic OutOfFuel
  | S fuel =>
    match src with
    | [] => Ret (None, net)
    | _ =>
      let p := take (Z.to_nat size) src in
      let '(n, err, net) := conn_Write id p net in
      match err with
      | Some _ => Ret (err, net)
      | None =>
        if (n <? 0) || (lenZ p <? n) then Ret (Some errInvalidWrite, net)
        else if negb (n =? lenZ p) then Ret (Some ErrShortWrite, net)
        else copy_loop fuel size id (drop (Z.to_nat size) src) net
      end
    end
  end.

Definition CopyBuffer (id : nat) (src buf : list Z) (net : W) : go (option error * W) :=
  if lenZ buf =? 0 then Panic EmptyBuffer
  else copy_loop (S (length src)) (lenZ buf) id src net.

Definition WriteBinaryReader (w : Writer) (size : Z) (r : list Z) (net : W) : go (option error * Writer * W) :=
  let w := set_B w (appendBinaryHeader (B w) size) in
  let '(err, w, net) := Writer_Flush w net in
  match err with
  | Some _ => Ret (err, w, net)
  | None =>
    match w_w w with
    | None => Ret (None, w, net)
    | Some id =>
      let '(err, s) := Buffer_Grow (B w) 4096 in
      match err with
      | Some _ => Ret (err, set_B w (live s), net)
      | None =>
        let w := set_B w (live s ++ spare s) in
        '(err, net) ← CopyBuffer id r (B w) net;
        match err with
        | Some _ => Ret (err, w, net)
        | None => Ret (None, set_B w [], net)
        end
      end
    end
  end.

End Writer.

(** ** What is sent *)

Section Laws.
  Context {W : Type} `{!NetOps W, !NetLaws W}.

(** [sends id b net net']: the bytes [b] have been sent on the connection. *)
Definition sends (id : nat) (b : list Z) (net net' : W) : Prop := out net' id = out net id ++ b.

Lemma sends_app id a b n1 n2 n3 : sends id a n1 n2 → sends id b n2 n3 → sends id (a ++ b) n1 n3.
Proof. unfold sends. intros H1 ->. by rewrite H1, app_assoc. Qed.

Lemma sends_nil id n : sends id [] n n.
Proof. unfold sends. by rewrite app_nil_r. Qed.

(** A flush to a connection sends the buffer and empties it, or fails after a
    prefix. *)
Lemma Writer_Flush_sends w id net err w' net' :
  w_w w = Some id → Writer_Flush w net = (err, w', net') →
  w_w w' = Some id ∧
  match err with
  | None => B w' = [] ∧ sends id (B w) net net'
  | Some _ => ∃ p, p `prefix_of` B w ∧ sends id p net net'
  end.
Proof.
  intros Hw E. unfold Writer_Flush in E. rewrite Hw in E.
  pose proof (Buffer_WriteTo_out id (B w) net) as Ho.
  destruct (Buffer_WriteTo id (B w) net) as [[e b] n1]. destruct Ho as (n & Ho & Hn).
  destruct e as [e|]; injection E as <- <- <-; (split; [done|]).
  - exists (take n (B w)). split; [apply prefix_take|done].
  - split; [done|]. unfold sends. by rewrite Ho, (Hn eq_refl).
Qed.

Lemma copy_loop_sends fuel size id : ∀ src net,
  0 < size → (length src < fuel)%nat →
  ∃ err net', copy_loop fuel size id src net = Ret (err, net') ∧
    match err with
    | None => sends id src net net'
    | Some _ => ∃ p, p `prefix_of` src ∧ sends id p net net'
    end.
Proof.
  induction fuel as [|fuel IH]; intros src net Hs Hf; [lia|]. cbn [copy_loop].
  destruct src as [|c src]; [exists None, net; split; [done|apply sends_nil]|].
  set (l := c :: src) in *. set (p := take (Z.to_nat size) l).
  pose proof (conn_Write_out id p net) as Ho.
  destruct (conn_Write id p net) as [[n err] n1]. destruct Ho as (Hn & He & Ho).
  destruct err as [e|].
  { exists (Some e), n1. split; [done|]. exists (take (Z.to_nat n) p). split; [|done].
    etrans; [apply prefix_take|]. apply prefix_take. }
  rewrite (He eq_refl) in *. replace ((lenZ p <? 0) || (lenZ p <? lenZ p)) with false by lia.
  rewrite Z.eqb_refl. cbn [negb].
  assert (sends id p net n1) as H1 by (unfold sends; rewrite Ho, take_ge by (unfold lenZ; lia); done).
  destruct (IH (drop (Z.to_nat size) l) n1 Hs) as (err & n2 & -> & H2).
  { rewrite length_drop. unfold l in *. cbn [length] in *. lia. }
  exists err, n2. split; [done|]. rewrite <- (take_drop (Z.to_nat size) l). fold p. destruct err as [e|].
  - destruct H2 as (q & Hq & H2). exists (p ++ q). split; [by apply prefix_app|]. by apply (sends_app _ _ _ _ n1).
  - by apply (sends_app _ _ _ _ n1).
Qed.

(** [WriteBinaryReader] returns; without an error it has sent the buffer, the header
    and the content, and the buffer is empty. *)
Lemma WriteBinaryReader_sends w id size r net :
  w_w w = Some id →
  ∃ err w' net', WriteBinaryReader w size r net = Ret (err, w', net') ∧ w_w w' = Some id ∧
    match err with
    | None => B w' = [] ∧ sends id (appendBinaryHeader (B w) size ++ r) net net'
    | Some _ => ∃ p, p `prefix_of` appendBinaryHeader (B w) size ++ r ∧ sends id p net net'
    end.
Proof.
  intros Hw. unfold WriteBinaryReader. set (w1 := set_B w _).
  destruct (Writer_Flush w1 net) as [[err w2] n2] eqn:Ef.
  destruct (Writer_Flush_sends w1 id net err w2 n2 Hw Ef) as [Hw2 Hs]. destruct err as [e|].
  { exists (Some e), w2, n2. split_and!; [done|done|]. destruct Hs as (p & Hp & Hs). exists p.
    split; [|done]. by apply prefix_app_r. }
  destruct Hs as [HB Hs]. rewrite Hw2. pose proof (Buffer_Grow_cap (B w2) 4096 ltac:(lia)) as Hg.
  destruct (Buffer_Grow (B w2) 4096) as [err s]. destruct err as [e|].
  { do 3 eexists. split; [done|]. split; [done|]. eexists. split; [|exact Hs]. by apply prefix_app_r. }
  destruct (Hg eq_refl) as [Hl Hsp]. cbn [set_B B]. unfold CopyBuffer.
  destruct (lenZ (live s ++ spare s) =? 0) eqn:E0; [exfalso; len_lia|].
  destruct (copy_loop_sends (S (length r)) (lenZ (live s ++ spare s)) id r n2) as (err & n3 & -> & H3);
    [len_lia|lia|]. go_simpl. destruct err as [e|].
  - do 3 eexists. split; [done|]. split; [done|]. destruct H3 as (q & Hq & H3).
    exists (B w1 ++ q). split; [by apply prefix_app|]. by apply (sends_app _ _ _ _ n2).
  - do 3 eexists. split; [done|]. split; [done|]. split; [done|]. by apply (sends_app _ _ _ _ n2).
Qed.

End Laws.
