(* ===== verification/Client.v ===== *)
(** * Client: the forward client (forward/client.go)

    The client keeps at most one connection, dials and authenticates when it has
    none, writes entries to it as they are and wraps batches in a message.  Its
    reader and its writer are reset to a connection by [Connect] only, so they can
    be left at another connection than the client's own: [WriteBatch_lost] and
    [Write_after_refusal] show what that does.

    Contexts, their deadlines and socket options are left out. *)

From stdpp Require Import sets relations.
From S2P Require Import Prelude Types Errors Integer Headers Str Object Strconv RingBuf Iter Sha512.
From S2P Require Import Transport Handshake Writer.
From S2P Require Instance.

(** [Reset] of a ring reader to a connection. *)
Class ConnReader (R W : Type) := { RingReset : R → nat → W → R }.

(** [incoming w id]: the bytes that will arrive on a connection. *)
Class ConnReaderLaws (R W : Type) `{RingLaws R, !ConnReader R W} := {
  incoming : W → nat → list Z;
  RingReset_delivers r id w : delivers (RingReset r id w) (incoming w id)
}.

Section Client.
  Context {R W : Type} `{!RingOps R, !NetOps W, !ConnReader R W}.

Record ClientOptions := mkClientOptions {
  o_Hostname : list Z;
  (** an AuthClient may do anything *)
  o_Auth : W → Credentials * option error * W;
  o_TLS : bool
}.

Record Client := mkClient {
  c_addr : list Z;
  c_conn : option nat;
  c_r : Iterator R;
  c_w : Writer;
  c_opt : ClientOptions;
  c_serverHostname : list Z;
  c_keepAlive : bool
}.

(** [r] is the ring reader of [msgpack.NewIterator(nil)]. *)
Definition NewClient (addr : list Z) (opt : ClientOptions) (r : R) : Client :=
  mkClient addr None (NewIterator r) (NewWriter None []) opt [] false.

Definition set_conn (c : Client) (id : option nat) : Client :=
  mkClient (c_addr c) id (c_r c) (c_w c) (c_opt c) (c_serverHostname c) (c_keepAlive c).
Definition set_r (c : Client) (r : Iterator R) : Client :=
  mkClient (c_addr c) (c_conn c) r (c_w c) (c_opt c) (c_serverHostname c) (c_keepAlive c).
Definition set_w (c : Client) (w : Writer) : Client :=
  mkClient (c_addr c) (c_conn c) (c_r c) w (c_opt c) (c_serverHostname c) (c_keepAlive c).
Definition set_serverHostname (c : Client) (h : list Z) : Client :=
  mkClient (c_addr c) (c_conn c) (c_r c) (c_w c) (c_opt c) h (c_keepAlive c).
Definition set_keepAlive (c : Client) (k : bool) : Client :=
  mkClient (c_addr c) (c_conn c) (c_r c) (c_w c) (c_opt c) (c_serverHostname c) k.

(** ** The handshake *)

Definition Client_readHelo (c : Client) : (list Z * list Z * option error) * Client :=
  match readHelo (c_r c) with
  | (inl err, it) => ([], [], err, set_r c it)
  | (inr (nonce, auth, keepAlive), it) => (nonce, auth, None, set_keepAlive (set_r c it) keepAlive)
  end.

Definition Client_writePing (c : Client) (cred : Credentials) (salt nonce auth : list Z) (net : W) :
    go (option error * Client * W) :=
  b ← appendPing (o_Hostname (c_opt c)) cred (B (c_w c)) salt nonce auth;
  let '(err, w, net) := Writer_Flush (set_B (c_w c) b) net in
  Ret (err, set_w c w, net).

Definition Client_readPong (c : Client) (salt nonce sharedKey : list Z) : option error * Client :=
  match readPong salt nonce sharedKey (c_r c) with
  | (inl e, it) => (Some e, set_r c it)
  | (inr serverHostname, it) => (None, set_serverHostname (set_r c it) serverHostname)
  end.

(** [Connect] from the connection on. *)
Definition Connect_on (c : Client) (id : nat) (net : W) : go (option error * Client * W) :=
  let c := set_conn c (Some id) in
  let '(cred, err, net) := o_Auth (c_opt c) net in
  match err with
  | Some _ => Ret (err, c, net)
  | None =>
    let c := set_r c (with_reader (c_r c) (RingReset (it_r (c_r c)) id net)) in
    let c := set_w c (Reset (c_w c) (Some id)) in
    let '(salt, err, net) := rand_Read 24 net in
    match err with
    | Some _ => Ret (err, c, net)
    | None =>
      let '(nonce, auth, err, c) := Client_readHelo c in
      match err with
      | Some _ => Ret (err, c, net)
      | None =>
        '(err, c, net) ← Client_writePing c cred salt nonce auth net;
        match err with
        | Some _ => Ret (err, c, net)
        | None => let '(err, c) := Client_readPong c salt nonce (SharedKey cred) in Ret (err, c, net)
        end
      end
    end
  end.

Definition Connect (c : Client) (net : W) : go (option error * Client * W) :=
  let '(res, net) := Dial (c_addr c) net in
  match res with
  | inl e => Ret (Some (Join ErrFailedConn e), c, net)
  | inr (tcp, ok) =>
    if negb ok then Ret (Some (Errorf "invalid TCP connection" []), c, net) else
    let '(id, net) := if o_TLS (c_opt c) then tls_Client tcp net else (tcp, net) in
    Connect_on c id net
  end.

Definition ensureConnection (c : Client) (net : W) : go (option error * Client * W) :=
  match c_conn c with
  | Some _ => Ret (None, c, net)
  | None => Connect c net
  end.

(** ** The operations *)

Definition Client_Write (c : Client) (b : list Z) (net : W) : go (Z * option error * Client * W) :=
  '(err, c, net) ← ensureConnection c net;
  match err with
  | Some _ => Ret (0, err, c, net)
  | None =>
    match c_conn c with
    | None => Panic NilPointer
    | Some id => let '(n, err, net) := conn_Write id b net in Ret (n, err, c, net)
    end
  end.

Definition Client_Close (c : Client) (net : W) : option error * Client * W :=
  match c_conn c with
  | None => (None, c, net)
  | Some id => let '(err, net) := conn_Close id net in (err, set_conn c None, net)
  end.

Definition Reconnect (c : Client) (net : W) : go (option error * Client * W) :=
  let '(err, c, net) := Client_Close c net in
  match err with
  | Some _ => Ret (err, c, net)
  | None => ensureConnection c net
  end.

Definition WriteBatch (c : Client) (tag : list Z) (size : Z) (r : list Z) (net : W) :
    go (option error * Client * W) :=
  '(err, c, net) ← ensureConnection c net;
  match err with
  | Some _ => Ret (err, c, net)
  | None =>
    let w := WriteArrayHeader (c_w c) 3 in
    let w := WriteString w tag in
    '(err, w, net) ← WriteBinaryReader w size r net;
    match err with
    | Some _ => Ret (err, set_w c w, net)
    | None =>
      let w := WriteMapHeader w 1 in
      let w := WriteString w (str "compressed") in
      let w := WriteString w (str "gzip") in
      let '(err, w, net) := Writer_Flush w net in
      Ret (err, set_w c w, net)
    end
  end.

End Client.
Arguments Client : clear implicits.
Arguments ClientOptions : clear implicits.

(** ** Totality *)

Section Total.
  Context {R W : Type} `{!RingOps R, !NetOps W, !ConnReader R W}.
  Implicit Types (c : Client R W) (net : W).

Lemma appendPing_returns hostname cred b salt nonce auth :
  ∃ b', appendPing hostname cred b salt nonce auth = Ret b'.
Proof.
  unfold appendPing. cbv zeta.
  destruct (AppendStringMax255_digest (AppendString (AppendString (AppendString (AppendArrayHeader b 6) PING)
    hostname) salt) [salt; hostname; nonce; SharedKey cred]) as (d & -> & _). go_simpl.
  case_bool_decide; [|by eexists].
  destruct (AppendStringMax255_digest (AppendString ((AppendString (AppendString (AppendString
    (AppendArrayHeader b 6) PING) hostname) salt) ++ d) (Username cred)) [auth; Username cred; Password cred])
    as (d2 & -> & _). by eexists.
Qed.

Lemma Client_writePing_returns c cred salt nonce auth net :
  ∃ err w net', Client_writePing c cred salt nonce auth net = Ret (err, set_w c w, net').
Proof.
  unfold Client_writePing. destruct (appendPing_returns (o_Hostname (c_opt c)) cred (B (c_w c)) salt nonce auth)
    as (b & ->). go_simpl. destruct (Writer_Flush _ net) as [[err w] net']. by do 3 eexists.
Qed.

(** [Connect_on] leaves the client with the connection, whatever comes of the
    handshake. *)
Lemma Connect_on_conn c id net :
  ∃ err c' net', Connect_on c id net = Ret (err, c', net') ∧ c_conn c' = Some id ∧ c_opt c' = c_opt c.
Proof.
  unfold Connect_on. cbn [c_opt set_conn]. destruct (o_Auth (c_opt c) net) as [[cred [e|]] n1]; [by do 3 eexists|].
  destruct (rand_Read 24 n1) as [[salt [e|]] n2]; [by do 3 eexists|].
  set (c1 := set_w _ _). unfold Client_readHelo.
  destruct (readHelo (c_r c1)) as [[[e|]|[[nonce auth] ka]] it]; [by do 3 eexists| |];
  match goal with |- context [Client_writePing ?c ?cr ?s ?n ?a ?net] =>
    destruct (Client_writePing_returns c cr s n a net) as (err & w & n3 & ->) end; go_simpl;
  (destruct err as [e|]; [by do 3 eexists|]);
  unfold Client_readPong;
  match goal with |- context [readPong ?a ?b ?c ?d] => destruct (readPong a b c d) as [[e|h] it2] end;
  by do 3 eexists.
Qed.

Lemma Connect_conn c net :
  ∃ err c' net', Connect c net = Ret (err, c', net') ∧ c_opt c' = c_opt c ∧
    (err = None → ∃ id, c_conn c' = Some id).
Proof.
  unfold Connect. destruct (Dial (c_addr c) net) as [[e|[tcp [|]]] n1]; [by do 3 eexists| |by do 3 eexists].
  cbn [negb]. destruct (if o_TLS (c_opt c) then tls_Client tcp n1 else (tcp, n1)) as [id n2].
  destruct (Connect_on_conn c id n2) as (err & c' & n3 & -> & Hc & Ho).
  exists err, c', n3. split_and!; [done|done|by exists id].
Qed.

Lemma ensureConnection_conn c net :
  ∃ err c' net', ensureConnection c net = Ret (err, c', net') ∧ (err = None → ∃ id, c_conn c' = Some id).
Proof.
  unfold ensureConnection. destruct (c_conn c) as [id|] eqn:E.
  - do 3 eexists. split; [done|]. intros _. by exists id.
  - destruct (Connect_conn c net) as (err & c' & n & -> & _ & Hc). by exists err, c', n.
Qed.

Lemma Writer_Flush_target w net err w' net' : Writer_Flush w net = (err, w', net') → w_w w' = w_w w.
Proof.
  unfold Writer_Flush. destruct (w_w w) as [id|] eqn:E; [|by intros [= <- <- <-]].
  destruct (Buffer_WriteTo id (B w) net) as [[[e|] b] n]; by intros [= <- <- <-].
Qed.

Lemma WriteBinaryReader_returns `{!NetLaws W} w size r net :
  ∃ err w' net', WriteBinaryReader w size r net = Ret (err, w', net').
Proof.
  destruct (w_w w) as [id|] eqn:E.
  - destruct (WriteBinaryReader_sends w id size r net E) as (err & w' & net' & -> & _). by do 3 eexists.
  - unfold WriteBinaryReader. destruct (Writer_Flush _ net) as [[[e|] w2] n2] eqn:Ef; [by do 3 eexists|].
    apply Writer_Flush_target in Ef. cbn in Ef. rewrite Ef, E. by do 3 eexists.
Qed.

Lemma WriteBatch_returns `{!NetLaws W} c tag size r net : returns (WriteBatch c tag size r net).
Proof.
  unfold WriteBatch. destruct (ensureConnection_conn c net) as (err & c' & n & -> & _). go_simpl.
  destruct err as [e|]; [by eexists|].
  destruct (WriteBinaryReader_returns (WriteString (WriteArrayHeader (c_w c') 3) tag) size r n)
    as (err & w & n2 & ->). go_simpl. destruct err as [e|]; [by eexists|].
  destruct (Writer_Flush _ n2) as [[err w3] n3]. by eexists.
Qed.

Lemma Client_Write_returns c b net : returns (Client_Write c b net).
Proof.
  unfold Client_Write. destruct (ensureConnection_conn c net) as (err & c' & n & -> & Hc). go_simpl.
  destruct err as [e|]; [by eexists|]. destruct (Hc eq_refl) as (id & ->).
  destruct (conn_Write id b n) as [[k err] n2]. by eexists.
Qed.

Lemma Reconnect_returns c net : returns (Reconnect c net).
Proof.
  unfold Reconnect. destruct (Client_Close c net) as [[[e|] c1] n1]; [by eexists|].
  destruct (ensureConnection_conn c1 n1) as (err & c' & n & -> & _). by eexists.
Qed.

End Total.

(** ** The client of an instance *)

(** The result of an operation; none panics ([Client_Write_returns],
    [WriteBatch_returns], [Reconnect_returns]). *)
Definition or_state {C} (c : C) (m : go (option error * C)) : option error * C :=
  match m with Ret r => r | Panic _ => (None, c) end.

#[export] Instance client_ops `{!RingOps R, !NetOps W, !ConnReader R W} : Instance.ClientOps (Client R W * W) := {
  Instance.cli_Write b c := or_state c ('(_, err, c, net) ← Client_Write c.1 b c.2; Ret (err, (c, net)));
  Instance.cli_WriteBatch := Some (λ tag size r c,
    or_state c ('(err, c, net) ← WriteBatch c.1 tag size r c.2; Ret (err, (c, net))));
  Instance.cli_Reconnect := Some (λ c, or_state c ('(err, c, net) ← Reconnect c.1 c.2; Ret (err, (c, net))));
  Instance.cli_Close := Some (λ c, let '(err, c, net) := Client_Close c.1 c.2 in (err, (c, net)))
}.

(** ** Sending on a connection *)

(** The message of a batch. *)
Definition batch_options : list (list Z * obj) := [(str "compressed", OScalar (SStr (str "gzip")))].

Definition batch_message (tag content : list Z) : list Z :=
  AppendArrayHeader [] 3 ++ AppendString [] tag ++ appendBinaryHeader [] (lenZ content) ++ content ++
  AppendMapHeader [] 1 ++ AppendString [] (str "compressed") ++ AppendString [] (str "gzip").

Lemma batch_message_encodes tag content :
  sendable_str tag → sendable_str content →
  encodes (OArray (OScalar (SStr tag) :: OScalar (SBin content) :: options_obj (Some batch_options)))
    (batch_message tag content).
Proof.
  intros Ht Hc. pose proof (lenZ_nonneg content).
  assert (batch_message tag content = AppendArrayHeader [] 3 ++ concat [AppendString [] tag;
    appendBinaryHeader [] (lenZ content) ++ content;
    AppendMapHeader [] 1 ++ concat [AppendString [] (str "compressed"); AppendString [] (str "gzip")]]) as ->.
  { unfold batch_message. cbn [concat]. by rewrite ?app_nil_r, <- !app_assoc. }
  apply (array_encodes [_; _; _]); [done|].
  apply Forall2_cons_2; [by apply Str_encodes|]. apply Forall2_cons_2.
  { apply encodes_bin, binary_header_spec. unfold sendable_str in Hc. lia. }
  apply Forall2_cons_2; [|constructor]. constructor; [by apply AppendMapHeader_header|].
  repeat (apply Forall2_cons_2; [by apply Str_encodes|]). constructor.
Qed.

Section Sending.
  Context {R W : Type} `{!RingOps R, !NetOps W, !ConnReader R W, !NetLaws W}.
  Implicit Types (c : Client R W) (net : W).

(** The client has a connection, and its writer is at it with nothing left over. *)
Definition live c (id : nat) : Prop := c_conn c = Some id ∧ w_w (c_w c) = Some id ∧ B (c_w c) = [].

Lemma Client_Write_live c id b net :
  live c id →
  ∃ n err net', Client_Write c b net = Ret (n, err, c, net') ∧
    match err with
    | None => sends id b net net'
    | Some _ => ∃ p, p `prefix_of` b ∧ sends id p net net'
    end.
Proof.
  intros (Hc & _). unfold Client_Write, ensureConnection. rewrite Hc. go_simpl. rewrite Hc.
  pose proof (conn_Write_out id b net) as Ho. destruct (conn_Write id b net) as [[n err] net'].
  destruct Ho as (Hn & He & Ho). exists n, err, net'. split; [done|]. destruct err as [e|].
  - exists (take (Z.to_nat n) b). split; [apply prefix_take|done].
  - unfold sends. rewrite Ho, (He eq_refl), take_ge; [done|]. unfold lenZ. lia.
Qed.

(** A batch goes to the connection behind what the buffer holds. *)
Lemma WriteBatch_on c id tag content net :
  c_conn c = Some id → w_w (c_w c) = Some id →
  ∃ err c' net', WriteBatch c tag (lenZ content) content net = Ret (err, c', net') ∧
    match err with
    | None => live c' id ∧ sends id (B (c_w c) ++ batch_message tag content) net net'
    | Some _ => ∃ p, p `prefix_of` B (c_w c) ++ batch_message tag content ∧ sends id p net net'
    end.
Proof.
  intros Hc Hw. unfold WriteBatch, ensureConnection. rewrite Hc. go_simpl.
  set (w1 := WriteString (WriteArrayHeader (c_w c) 3) tag).
  assert (B w1 = B (c_w c) ++ AppendArrayHeader [] 3 ++ AppendString [] tag) as HB1.
  { unfold w1, WriteString, WriteArrayHeader, set_B. cbn [B].
    by rewrite (appender (f := AppendArrayHeader)), (appender (f := AppendString)), app_assoc. }
  assert (w_w w1 = Some id) as Hw1 by done.
  assert (appendBinaryHeader (B w1) (lenZ content) = B w1 ++ appendBinaryHeader [] (lenZ content)) as Hh
    by (unfold appendBinaryHeader; by repeat case_match).
  set (tl := AppendMapHeader [] 1 ++ AppendString [] (str "compressed") ++ AppendString [] (str "gzip")).
  assert (B (c_w c) ++ batch_message tag content = (appendBinaryHeader (B w1) (lenZ content) ++ content) ++ tl) as Hm.
  { unfold batch_message. fold tl. by rewrite Hh, HB1, <- !app_assoc. }
  destruct (WriteBinaryReader_sends w1 id (lenZ content) content net Hw1) as (err & w2 & n2 & -> & Hw2 & H2).
  go_simpl. destruct err as [e|].
  { do 3 eexists. split; [done|]. destruct H2 as (p & Hp & H2). exists p. split; [|done].
    rewrite Hm. by apply prefix_app_r. }
  destruct H2 as [HB2 H2]. set (w3 := WriteString _ (str "gzip")).
  assert (B w3 = tl) as HB3.
  { unfold w3, WriteString, WriteMapHeader, set_B. cbn [B]. rewrite HB2. by spread. }
  destruct (Writer_Flush w3 n2) as [[err w4] n4] eqn:Ef.
  destruct (Writer_Flush_sends w3 id n2 err w4 n4 Hw2 Ef) as [Hw4 H4]. rewrite HB3 in H4.
  do 3 eexists. split; [done|]. rewrite Hm. destruct err as [e|].
  - destruct H4 as (p & Hp & H4). exists ((appendBinaryHeader (B w1) (lenZ content) ++ content) ++ p).
    split; [by apply prefix_app|]. by apply (sends_app _ _ _ _ n2).
  - destruct H4 as [HB4 H4]. split; [done|]. by apply (sends_app _ _ _ _ n2).
Qed.

Lemma WriteBatch_live c id tag content net :
  live c id →
  ∃ err c' net', WriteBatch c tag (lenZ content) content net = Ret (err, c', net') ∧
    match err with
    | None => live c' id ∧ sends id (batch_message tag content) net net'
    | Some _ => ∃ p, p `prefix_of` batch_message tag content ∧ sends id p net net'
    end.
Proof.
  intros (Hc & Hw & HB). destruct (WriteBatch_on c id tag content net Hc Hw) as (err & c' & net' & E & H).
  rewrite HB in H. by exists err, c', net'.
Qed.

(** ** A sequence of operations *)

(** What the worker of an instance does with its client while it returns no error. *)
Inductive client_op := op_Write (b : list Z) | op_Batch (tag content : list Z).

Fixpoint run_ops (ops : list client_op) c net : go (option error * Client R W * W) :=
  match ops with
  | [] => Ret (None, c, net)
  | op :: ops =>
    '(err, c, net) ←
      match op with
      | op_Write b => '(_, err, c, net) ← Client_Write c b net; Ret (err, c, net)
      | op_Batch tag content => WriteBatch c tag (lenZ content) content net
      end;
    match err with
    | Some _ => Ret (err, c, net)
    | None => run_ops ops c net
    end
  end.

Context (gunzips : list Z → list Z → Prop).

(** The entries that an operation sends: those of a message, or those packed in the
    gzip content of a batch. *)
Inductive op_sends : client_op → list event → nat → Prop :=
  | op_sends_Write b evs z : wire gunzips evs [] b z → op_sends (op_Write b) evs z
  | op_sends_Batch tag xs bss content :
      valid_tag tag → sendable_str content → Forall2 encodes (map pair_obj xs) bss →
      take 3 content = [0x1f; 0x8b; 8] → gunzips content (concat bss) →
      op_sends (op_Batch tag content) (map (event_of tag) xs) (length (concat bss)).

Definition op_bytes (op : client_op) : list Z :=
  match op with op_Write b => b | op_Batch tag content => batch_message tag content end.

Lemma valid_tag_sendable tag : valid_tag tag → sendable_str tag.
Proof. unfold valid_tag, sendable_str, maxTagLen. lia. Qed.

Lemma op_sends_wire op evs z : op_sends op evs z → wire gunzips evs [] (op_bytes op) z.
Proof.
  destruct 1 as [b evs z Hw|tag xs bss content Ht Hc H2 Hm Hg]; [done|].
  change [] with (chunks_of (Some batch_options)).
  apply (wire_compressed _ tag xs (Some batch_options) bss content); try done.
  - constructor; [|constructor]. intros Hk. done.
  - apply batch_message_encodes; [by apply valid_tag_sendable|done].
Qed.

Inductive ops_send : list client_op → list event → nat → Prop :=
  | ops_send_nil : ops_send [] [] 0
  | ops_send_cons op ops evs evs' z z' :
      op_sends op evs z → ops_send ops evs' z' → ops_send (op :: ops) (evs ++ evs') (z + z').

Lemma ops_send_stream ops evs z :
  ops_send ops evs z → stream gunzips evs [] (concat (map op_bytes ops)) z.
Proof.
  induction 1 as [|op ops evs evs' z z' Hop _ IH]; [constructor|]. cbn [map concat].
  apply (stream_cons _ evs [] _ z evs' []); [by apply op_sends_wire|done].
Qed.

Lemma run_ops_live ops : ∀ c id net,
  live c id →
  ∃ err c' net', run_ops ops c net = Ret (err, c', net') ∧
    match err with
    | None => live c' id ∧ sends id (concat (map op_bytes ops)) net net'
    | Some _ => ∃ p, p `prefix_of` concat (map op_bytes ops) ∧ sends id p net net'
    end.
Proof.
  induction ops as [|op ops IH]; intros c id net Hl.
  { exists None, c, net. split_and!; [done|done|apply sends_nil]. }
  assert (∃ err c' net',
    match op with
    | op_Write b => '(_, err, c, net) ← Client_Write c b net; Ret (err, c, net)
    | op_Batch tag content => WriteBatch c tag (lenZ content) content net
    end = Ret (err, c', net') ∧
    match err with
    | None => live c' id ∧ sends id (op_bytes op) net net'
    | Some _ => ∃ p, p `prefix_of` op_bytes op ∧ sends id p net net'
    end) as (err & c1 & n1 & E & H1).
  { destruct op as [b|tag content].
    - destruct (Client_Write_live c id b net Hl) as (n & err & n1 & -> & H1). go_simpl.
      exists err, c, n1. split; [done|]. by destruct err.
    - apply WriteBatch_live, Hl. }
  cbn [run_ops map concat]. rewrite E. go_simpl. destruct err as [e|].
  { do 3 eexists. split; [done|]. destruct H1 as (p & Hp & H1). exists p. split; [by apply prefix_app_r|done]. }
  destruct H1 as [Hl1 H1]. destruct (IH c1 id n1 Hl1) as (err & c2 & n2 & -> & H2).
  exists err, c2, n2. split; [done|]. destruct err as [e|].
  - destruct H2 as (p & Hp & H2). exists (op_bytes op ++ p). split; [by apply prefix_app|].
    by apply (sends_app _ _ _ _ n1).
  - destruct H2 as [Hl2 H2]. split; [done|]. by apply (sends_app _ _ _ _ n1).
Qed.

End Sending.

(** ** Connecting *)

Section Connecting.
  Context {R W : Type} `{!RingOps R, !RingLaws R, !NetOps W, !NetLaws W, !ConnReader R W, !ConnReaderLaws R W}.
  Implicit Types (c : Client R W) (net : W).

(** A handshake with a server that accepts: the client sends its PING, and then has a
    live connection. *)
Lemma Connect_on_accepted c id net cred net1 salt net2 nonce auth helo pong end_ host :
  o_Auth (c_opt c) net = (cred, None, net1) → rand_Read 24 net1 = (salt, None, net2) →
  incoming net1 id = helo ++ pong ++ end_ →
  encodes (helo_obj nonce auth) helo → nonce ≠ [] →
  encodes (pong_obj true [] host (digest [salt; host; nonce; SharedKey cred])) pong →
  ∃ ping err c' net', appendPing (o_Hostname (c_opt c)) cred [] salt nonce auth = Ret ping ∧
    Connect_on c id net = Ret (err, c', net') ∧
    match err with
    | None => live c' id ∧ c_serverHostname c' = host ∧ delivers (it_r (c_r c')) end_ ∧ sends id ping net2 net'
    | Some _ => ∃ p, p `prefix_of` ping ∧ sends id p net2 net'
    end.
Proof.
  intros EA Er Hin Hh Hn Hp. unfold Connect_on. cbn [c_opt set_conn]. rewrite EA, Er.
  set (c1 := set_w _ _).
  assert (delivers (it_r (c_r c1)) (helo ++ pong ++ end_)) as Hd.
  { rewrite <- Hin. cbn. apply RingReset_delivers. }
  unfold Client_readHelo.
  destruct (readHelo_at (c_r c1) nonce auth helo _ Hd Hh Hn) as (it1 & -> & Hd1).
  set (c2 := set_keepAlive _ _). unfold Client_writePing.
  change (B (c_w c2)) with (@nil Z). change (c_opt c2) with (c_opt c).
  destruct (appendPing_returns (o_Hostname (c_opt c)) cred [] salt nonce auth) as (ping & Ep).
  exists ping. rewrite Ep. go_simpl.
  destruct (Writer_Flush (set_B (c_w c2) ping) net2) as [[err w] net'] eqn:Ef.
  destruct (Writer_Flush_sends (set_B (c_w c2) ping) id net2 err w net' eq_refl Ef) as [Hw Hs]. go_simpl.
  destruct err as [e|]; [by do 3 eexists|]. destruct Hs as [HB Hs]. unfold Client_readPong.
  change (c_r (set_w c2 w)) with it1.
  destruct (readPong_at salt nonce (SharedKey cred) it1 true [] host _ pong end_ Hd1 Hp) as (it2 & -> & Hd2).
  cbn [negb]. rewrite validate_digest. do 3 eexists. split; [done|]. split; [done|]. by split_and!.
Qed.

End Connecting.

(** ** The reader and the writer *)

Section Targets.
  Context {R W : Type} `{!RingOps R, !NetOps W, !ConnReader R W}.
  Implicit Types (c : Client R W) (net : W).

(** The writer is at the client's connection. *)
Definition aligned c : Prop := match c_conn c with Some id => w_w (c_w c) = Some id | None => True end.

(** A step of the client's user. *)
Inductive client_step : Client R W * W → Client R W * W → Prop :=
  | step_Write c net b n err c' net' :
      Client_Write c b net = Ret (n, err, c', net') → client_step (c, net) (c', net')
  | step_WriteBatch c net tag size r err c' net' :
      WriteBatch c tag size r net = Ret (err, c', net') → client_step (c, net) (c', net')
  | step_Reconnect c net err c' net' :
      Reconnect c net = Ret (err, c', net') → client_step (c, net) (c', net')
  | step_Close c net err c' net' :
      Client_Close c net = (err, c', net') → client_step (c, net) (c', net').

Definition auth_never_fails (opt : ClientOptions W) : Prop := ∀ net, (o_Auth opt net).1.2 = None.

Lemma Connect_on_aligned c id net err c' net' :
  auth_never_fails (c_opt c) → Connect_on c id net = Ret (err, c', net') →
  aligned c' ∧ c_opt c' = c_opt c.
Proof.
  intros Ha E. unfold Connect_on in E. cbn [c_opt set_conn] in E. pose proof (Ha net) as Han.
  destruct (o_Auth (c_opt c) net) as [[cred e1] n1]. cbn in Han. subst e1.
  destruct (rand_Read 24 n1) as [[salt [e|]] n2]; [by injection E as <- <- <-|].
  set (c1 := set_w _ _) in *. unfold Client_readHelo in E.
  assert (∀ it ka nonce auth err c' net',
    ('(err, c, net) ← Client_writePing (set_keepAlive (set_r c1 it) ka) cred salt nonce auth n2;
     match err with
     | Some _ => Ret (err, c, net)
     | None => let '(err, c) := Client_readPong c salt nonce (SharedKey cred) in Ret (err, c, net)
     end) = Ret (err, c', net') → aligned c' ∧ c_opt c' = c_opt c) as Hping.
  { clear. intros it ka nonce auth err c' net' E. unfold Client_writePing in E.
    destruct (appendPing_returns (o_Hostname (c_opt c)) cred [] salt nonce auth) as (ping & Ep).
    change (c_opt (set_keepAlive (set_r c1 it) ka)) with (c_opt c) in E.
    change (B (c_w (set_keepAlive (set_r c1 it) ka))) with (@nil Z) in E. rewrite Ep in E. go_simpl.
    destruct (Writer_Flush _ n2) as [[err1 w] n3] eqn:Ef.
    apply Writer_Flush_target in Ef. cbn in Ef. go_simpl.
    destruct err1 as [e|]; [by injection E as <- <- <-|]. unfold Client_readPong in E.
    match type of E with context [readPong ?a ?b ?c ?d] => destruct (readPong a b c d) as [[e|h] it2] end;
      by injection E as <- <- <-. }
  destruct (readHelo (c_r c1)) as [[[e|]|[[nonce auth] ka]] it].
  - by injection E as <- <- <-.
  - by apply (Hping it (c_keepAlive c1) [] [] err c' net').
  - by apply (Hping it ka nonce auth err c' net').
Qed.

Lemma ensureConnection_aligned c net err c' net' :
  auth_never_fails (c_opt c) → aligned c → ensureConnection c net = Ret (err, c', net') →
  aligned c' ∧ c_opt c' = c_opt c.
Proof.
  intros Ha Hal E. unfold ensureConnection in E. destruct (c_conn c) as [id|] eqn:Ec; [by injection E as <- <- <-|].
  unfold Connect in E. destruct (Dial (c_addr c) net) as [[e|[tcp [|]]] n1]; cbn [negb] in E;
    [by injection E as <- <- <-| |by injection E as <- <- <-].
  destruct (if o_TLS (c_opt c) then tls_Client tcp n1 else (tcp, n1)) as [id n2].
  by apply (Connect_on_aligned c id n2 err c' net').
Qed.

(** A connection that [Connect] has made, with credentials, is live: the writer has sent
    the PING. *)
Lemma Connect_on_live `{!NetLaws W} c id net c' net' :
  auth_never_fails (c_opt c) → Connect_on c id net = Ret (None, c', net') → live c' id.
Proof.
  intros Ha E. unfold Connect_on in E. cbn [c_opt set_conn] in E. pose proof (Ha net) as Han.
  destruct (o_Auth (c_opt c) net) as [[cred e1] n1]. cbn in Han. subst e1.
  destruct (rand_Read 24 n1) as [[salt [e|]] n2]; [done|].
  set (c1 := set_w _ _) in *. destruct (Client_readHelo c1) as [[[nonce auth] [e|]] c2] eqn:Eh; [done|].
  assert (c_conn c2 = Some id ∧ w_w (c_w c2) = Some id) as [Hc2 Hw2].
  { unfold Client_readHelo in Eh. destruct (readHelo (c_r c1)) as [[e|[[n a] k]] it]; by simplify_eq. }
  unfold Client_writePing in E. destruct (appendPing _ _ _ _ _ _) as [ping|]; go_simpl; [|done].
  destruct (Writer_Flush _ n2) as [[err w] n3] eqn:Ef. go_simpl. destruct err as [e|]; [done|].
  destruct (Writer_Flush_sends (set_B (c_w c2) ping) id n2 None w n3 Hw2 Ef) as [Hw [HB _]].
  unfold Client_readPong in E. destruct (readPong _ _ _ _) as [[e|h] it]; [done|].
  injection E as <- <-. by split_and!.
Qed.

(** What is known of a client before an operation: it has no connection, or a live one. *)
Definition ready c : Prop := match c_conn c with Some id => live c id | None => True end.

Lemma ensureConnection_live `{!NetLaws W} c net c' net' :
  auth_never_fails (c_opt c) → ready c → ensureConnection c net = Ret (None, c', net') → ∃ id, live c' id.
Proof.
  unfold ready, ensureConnection. intros Ha Hr E. destruct (c_conn c) as [id|]; [injection E as <- <-; by exists id|].
  unfold Connect in E. destruct (Dial (c_addr c) net) as [[e|[tcp [|]]] n1]; cbn [negb] in E; [done| |done].
  destruct (if o_TLS (c_opt c) then tls_Client tcp n1 else (tcp, n1)) as [id n2].
  exists id. by apply (Connect_on_live c id n2 c' net').
Qed.

Lemma WriteBatch_ready `{!NetLaws W} c tag content net c1 net1 :
  auth_never_fails (c_opt c) → ready c → ensureConnection c net = Ret (None, c1, net1) →
  ∃ id err c' net', WriteBatch c tag (lenZ content) content net = Ret (err, c', net') ∧
    match err with
    | None => live c' id ∧ sends id (batch_message tag content) net1 net'
    | Some _ => ∃ p, p `prefix_of` batch_message tag content ∧ sends id p net1 net'
    end.
Proof.
  intros Ha Hr E. destruct (ensureConnection_live c net c1 net1 Ha Hr E) as [id Hl].
  destruct (WriteBatch_live c1 id tag content net1 Hl) as (err & c' & net' & Ew & H).
  exists id, err, c', net'. split; [|done]. rewrite <- Ew. unfold WriteBatch. rewrite E.
  unfold ensureConnection. by rewrite (proj1 Hl).
Qed.

Lemma WriteBinaryReader_target w size r net err w' net' :
  WriteBinaryReader w size r net = Ret (err, w', net') → w_w w' = w_w w.
Proof.
  unfold WriteBinaryReader. destruct (Writer_Flush _ net) as [[[e|] w2] n2] eqn:Ef; apply Writer_Flush_target in Ef;
    cbn in Ef; [by intros [= <- <- <-]|].
  destruct (w_w w2) as [id|] eqn:E2; [|by intros [= <- <- <-]; rewrite E2].
  destruct (Buffer_Grow (B w2) 4096) as [[e|] s]; [by intros [= <- <- <-]; cbn; rewrite E2|].
  destruct (CopyBuffer id r _ n2) as [[[e|] n3]|p]; go_simpl; [| |done]; intros [= <- <- <-]; cbn; by rewrite E2.
Qed.

Lemma client_step_aligned s s' :
  client_step s s' → auth_never_fails (c_opt s.1) → aligned s.1 → aligned s'.1 ∧ c_opt s'.1 = c_opt s.1.
Proof.
  destruct 1 as [c net b n err c' net' E|c net tag size r err c' net' E|c net err c' net' E|c net err c' net' E];
    cbn [fst]; intros Ha Hal.
  - unfold Client_Write in E.
    destruct (ensureConnection c net) as [[[e1 c1] n1]|] eqn:Ee; go_simpl; [|done].
    destruct (ensureConnection_aligned c net e1 c1 n1 Ha Hal Ee) as [Hal1 Ho].
    destruct e1; [by injection E as <- <- <- <-|]. destruct (c_conn c1) as [id|]; [|done].
    destruct (conn_Write id b n1) as [[k err2] n2]. by injection E as <- <- <- <-.
  - unfold WriteBatch in E.
    destruct (ensureConnection c net) as [[[e1 c1] n1]|] eqn:Ee; go_simpl; [|done].
    destruct (ensureConnection_aligned c net e1 c1 n1 Ha Hal Ee) as [Hal1 Ho].
    destruct e1; [by injection E as <- <- <-|].
    destruct (WriteBinaryReader _ size r n1) as [[[e2 w2] n2]|] eqn:Eb; go_simpl; [|done].
    apply WriteBinaryReader_target in Eb. cbn in Eb. rewrite <- Ho.
    assert (∀ w, w_w w = w_w (c_w c1) → aligned (set_w c1 w)) as Hset.
    { intros w Hw. unfold aligned in *. cbn. destruct (c_conn c1); [by rewrite Hw|done]. }
    destruct e2; [injection E as <- <- <-; by split; [apply Hset|]|].
    destruct (Writer_Flush _ n2) as [[e3 w3] n3] eqn:Ef. apply Writer_Flush_target in Ef. cbn in Ef.
    injection E as <- <- <-. split; [|done]. apply Hset. by rewrite Ef.
  - unfold Reconnect, Client_Close in E. destruct (c_conn c) as [id|] eqn:Ec.
    + destruct (conn_Close id net) as [[e|] n1]; [by injection E as <- <- <-|].
      by apply (ensureConnection_aligned (set_conn c None) n1 err c' net').
    + by apply (ensureConnection_aligned c net err c' net').
  - unfold Client_Close in E. destruct (c_conn c) as [id|] eqn:Ec; [|by injection E as <- <- <-].
    destruct (conn_Close id net) as [e n1]. by injection E as <- <- <-.
Qed.

(** ** Properties *)

(** C19: A client that has a connection has its writer at that connection, whatever it is
    asked to do and whatever the network does, as long as the AuthClient never fails. *)
Theorem writer_aligned addr opt r net s :
  auth_never_fails opt → rtc client_step (NewClient addr opt r, net) s → aligned s.1.
Proof.
  intros Ha Hr.
  assert (∀ s0, rtc client_step s0 s → c_opt s0.1 = opt → aligned s0.1 → aligned s.1) as H.
  { clear Hr. induction 1 as [|s1 s2 s3 Hs _ IH]; [done|]. intros Ho Hal.
    destruct (client_step_aligned s1 s2 Hs) as [Hal2 Ho2]; [by rewrite Ho|done|]. apply IH; [by rewrite Ho2|done]. }
  by apply (H _ Hr).
Qed.

(** The client never panics: every operation returns, whatever the network and the
    server do. *)
Theorem client_returns `{!NetLaws W} c net :
  (∀ b, returns (Client_Write c b net)) ∧ (∀ tag size r, returns (WriteBatch c tag size r net)) ∧
  returns (Reconnect c net).
Proof.
  split_and!; [intros b; apply Client_Write_returns|intros tag size r; apply WriteBatch_returns|
    apply Reconnect_returns].
Qed.

(** C33: One failure of the AuthClient while a new client connects loses what is sent
    after it: the operation fails, but the client keeps the connection, and its writer,
    which was never reset, is still at none, so that the next batches succeed
    without a byte being sent. *)
Theorem WriteBatch_lost c b net tcp n1 id n2 cred e n3 :
  c_conn c = None → w_w (c_w c) = None →
  Dial (c_addr c) net = (inr (tcp, true), n1) →
  (if o_TLS (c_opt c) then tls_Client tcp n1 else (tcp, n1)) = (id, n2) →
  o_Auth (c_opt c) n2 = (cred, Some e, n3) →
  ∃ c1, Client_Write c b net = Ret (0, Some e, c1, n3) ∧
    ∀ tag size r, ∃ c2, WriteBatch c1 tag size r n3 = Ret (None, c2, n3).
Proof.
  intros Hc Hw Ed Et EA. exists (set_conn c (Some id)). split.
  - unfold Client_Write, ensureConnection. rewrite Hc. unfold Connect. rewrite Ed. cbn [negb]. rewrite Et.
    unfold Connect_on. cbn [c_opt set_conn]. by rewrite EA.
  - intros tag size r. unfold WriteBatch, ensureConnection. cbn [c_conn set_conn]. go_simpl.
    unfold WriteBinaryReader, Writer_Flush, WriteString, WriteArrayHeader, WriteMapHeader, set_B.
    cbn [w_w B c_w set_conn]. rewrite Hw. by eexists.
Qed.

(** A connection whose handshake was refused is used all the same: the client keeps
    it, and the next write sends its bytes on it as if it had been accepted. *)
Theorem Write_after_refusal c net tcp n1 id n2 err c1 n3 b :
  c_conn c = None →
  Dial (c_addr c) net = (inr (tcp, true), n1) →
  (if o_TLS (c_opt c) then tls_Client tcp n1 else (tcp, n1)) = (id, n2) →
  ensureConnection c net = Ret (Some err, c1, n3) →
  Client_Write c1 b n3 = let '(n, err, n4) := conn_Write id b n3 in Ret (n, err, c1, n4).
Proof.
  intros Hc Ed Et E. unfold ensureConnection in E. rewrite Hc in E. unfold Connect in E. rewrite Ed in E.
  cbn [negb] in E. rewrite Et in E. destruct (Connect_on_conn c id n2) as (err' & c' & n' & E' & Hc' & _).
  rewrite E' in E. injection E as -> -> ->. unfold Client_Write, ensureConnection. rewrite Hc'. go_simpl.
  by rewrite Hc'.
Qed.

End Targets.

(** ** Witnesses: a network of connections that all deliver the same bytes *)

(** The handles from [n_next] on are new. *)
Record test_net := mkNet { n_in : list Z; n_out : nat → list Z; n_next : nat }.

Definition n_history (w : test_net) (id : nat) : list Z := if (id <? n_next w)%nat then n_out w id else [].

Definition n_sent (w : test_net) (id : nat) (b : list Z) : test_net :=
  mkNet (n_in w) (λ j, if bool_decide (j = id) then b else n_history w j) (Nat.max (n_next w) (S id)).

Definition n_new (w : test_net) : nat * test_net := (n_next w, n_sent w (n_next w) []).

Lemma n_history_sent w id b j : n_history (n_sent w id b) j = if bool_decide (j = id) then b else n_history w j.
Proof.
  unfold n_history at 1. cbn [n_sent n_out n_next]. case_bool_decide as Hj.
  - destruct (Nat.ltb_spec j (Nat.max (n_next w) (S id))); [done|lia].
  - destruct (Nat.ltb_spec j (Nat.max (n_next w) (S id))); [done|].
    unfold n_history. destruct (Nat.ltb_spec j (n_next w)); [lia|done].
Qed.

#[export] Instance test_net_ops : NetOps test_net := {
  Dial _ w := let '(id, w) := n_new w in (inr (id, true), w);
  tls_Client _ w := n_new w;
  conn_Write id b w := (lenZ b, None, n_sent w id (n_history w id ++ b));
  conn_Close _ w := (None, w);
  rand_Read n w := (replicate (Z.to_nat n) 9, None, w);
  Buffer_WriteTo id b w := (None, [], n_sent w id (n_history w id ++ b));
  Buffer_Grow b n := (None, mkSlice b (replicate (Z.to_nat n) 0))
}.

#[export] Program Instance test_net_laws : NetLaws test_net := { out := n_history }.
Next Obligation. intros addr w id tcp w' [= <- <- <-]. by rewrite n_history_sent, bool_decide_true. Qed.
Next Obligation. intros id w. cbn. by rewrite n_history_sent, bool_decide_true. Qed.
Next Obligation.
  intros id b w. cbn. pose proof (lenZ_nonneg b). split_and!; [lia|lia|done|].
  rewrite n_history_sent, bool_decide_true, take_ge by (done || (unfold lenZ; lia)). done.
Qed.
Next Obligation.
  intros id b w. cbn. exists (length b). by rewrite n_history_sent, bool_decide_true, take_ge.
Qed.
Next Obligation. done. Qed.
Next Obligation. intros n w r w' Hn [= <- <-]. unfold lenZ. rewrite length_replicate. lia. Qed.
Next Obligation. intros b n Hn _. cbn. unfold lenZ. rewrite length_replicate. split; [done|lia]. Qed.

#[export] Instance test_reader : ConnReader list_ring test_net := {
  RingReset r _ w := mkListRing (n_in w) (manual_flush r)
}.

#[export] Program Instance test_reader_laws : ConnReaderLaws list_ring test_net := { incoming w _ := n_in w }.
Next Obligation. done. Qed.

Definition net0 (incoming : list Z) : test_net := mkNet incoming (λ _, []) 0.
Definition opt_ok : ClientOptions test_net := mkClientOptions (str "cli") (λ w, (cred0, None, w)) false.
Definition opt_failing : ClientOptions test_net :=
  mkClientOptions (str "cli") (λ w, (no_credentials, Some ErrFailedAuth, w)) false.
Definition ring0 : list_ring := mkListRing [] false.

Lemma writer_aligned_witness :
  aligned (set_r (set_w (set_conn (NewClient (str "srv") opt_ok ring0) (Some 0%nat)) (NewWriter (Some 0%nat) []))
    (mkIterator (mkListRing [] true) (Some EOF) 0 0 0 Invalid)).
Proof.
  refine (writer_aligned (str "srv") opt_ok ring0 (net0 []) (_, (n_new (net0 [])).2) _ _).
  - intros w. reflexivity.
  - apply rtc_once. apply (step_Write _ _ [1] 0 (Some (Join ErrInvalidHelo EOF))). reflexivity.
Defined.

Lemma WriteBatch_lost_witness :
  ∃ c1, Client_Write (NewClient (str "srv") opt_failing ring0) [1] (net0 []) =
      Ret (0, Some ErrFailedAuth, c1, (n_new (net0 [])).2) ∧
    ∀ tag size r, ∃ c2, WriteBatch c1 tag size r (n_new (net0 [])).2 = Ret (None, c2, (n_new (net0 [])).2).
Proof.
  exact (WriteBatch_lost (NewClient (str "srv") opt_failing ring0) [1] (net0 []) 0 (n_new (net0 [])).2 0
    (n_new (net0 [])).2 no_credentials ErrFailedAuth (n_new (net0 [])).2 eq_refl eq_refl eq_refl eq_refl eq_refl).
Defined.

Lemma Write_after_refusal_witness : ∃ err c1 n1,
  ensureConnection (NewClient (str "srv") opt_ok ring0) (net0 []) = Ret (Some err, c1, n1) ∧
  Client_Write c1 [1; 2] n1 = Ret (2, None, c1, n_sent n1 0 [1; 2]).
Proof.
  do 3 eexists. split; [reflexivity|].
  exact (Write_after_refusal (NewClient (str "srv") opt_ok ring0) (net0 []) 0 (n_new (net0 [])).2 0
    (n_new (net0 [])).2 (Join ErrInvalidHelo EOF) _ _ [1; 2] eq_refl eq_refl eq_refl eq_refl).
Defined.
