(* ===== verification/Sent.v ===== *)
(** * Sent: what the worker counts as written is on the wire

    Instance shows that no entry is lost if one believes what the client returns.
    Here the client is the one of Client: an operation without an error has sent its
    message, and what has been sent on a connection stays sent.  [taken_is_sent]
    joins the two. *)

From stdpp Require Import gmap relations.
From S2P Require Import Prelude Types Errors Integer Headers Str Object Strconv RingBuf Iter.
From S2P Require Import Log Fallback Instance Handshake Writer Client.

(** ** Histories of connections *)

Section Grows.
  Context {W : Type} `{!NetOps W, !NetLaws W}.

(** No connection's history is shortened or changed. *)
Definition grows (net net' : W) : Prop := ∀ id, out net id `prefix_of` out net' id.

#[export] Instance grows_preorder : PreOrder grows.
Proof. split; [intros n id; reflexivity|]. intros n1 n2 n3 H1 H2 id. etrans; [apply H1|apply H2]. Qed.

(** Some connection's history has the bytes in it. *)
Definition on_wire (net : W) (b : list Z) : Prop := ∃ id p q, out net id = p ++ b ++ q.

Lemma on_wire_grows net net' b : grows net net' → on_wire net b → on_wire net' b.
Proof.
  intros Hg (id & p & q & E). destruct (Hg id) as [k Hk]. exists id, p, (q ++ k). by rewrite Hk, E, <- !app_assoc.
Qed.

Lemma sends_on_wire id p b net net' : sends id (p ++ b) net net' → on_wire net' b.
Proof. intros H. exists id, (out net id ++ p), []. by rewrite H, app_nil_r, <- !app_assoc. Qed.

End Grows.

(** The operations leave the histories of connections as they are, but for what they
    add; a connection that is dialed is a new one. *)
Class NetHistory (W : Type) `{NetLaws W} := {
  Dial_grows addr w : grows w (Dial addr w).2;
  tls_Client_grows id w : grows w (tls_Client id w).2;
  conn_Write_grows id b w : grows w (conn_Write id b w).2;
  conn_Close_grows id w : grows w (conn_Close id w).2;
  Buffer_WriteTo_grows id b w : grows w (Buffer_WriteTo id b w).2
}.

Section Client.
  Context {R W : Type} `{!RingOps R, !NetOps W, !ConnReader R W, !NetLaws W, !NetHistory W}.
  Implicit Types (c : Client R W) (net : W).

Lemma rand_Read_grows n net : grows net (rand_Read n net).2.
Proof. intros id. by rewrite rand_Read_out. Qed.

Lemma Writer_Flush_grows w net : grows net (Writer_Flush w net).2.
Proof.
  unfold Writer_Flush. destruct (w_w w) as [id|]; [|done].
  pose proof (Buffer_WriteTo_grows id (B w) net) as Hg.
  by destruct (Buffer_WriteTo id (B w) net) as [[[e|] b] n].
Qed.

Lemma copy_loop_grows fuel size id : ∀ src net err net',
  copy_loop fuel size id src net = Ret (err, net') → grows net net'.
Proof.
  induction fuel as [|fuel IH]; intros src net err net'; [done|]. cbn [copy_loop].
  destruct src as [|x src]; [by intros [= <- <-]|].
  pose proof (conn_Write_grows id (take (Z.to_nat size) (x :: src)) net) as Hg.
  destruct (conn_Write id _ net) as [[n [e|]] n1]; [by intros [= <- <-]|].
  destruct (_ || _); [by intros [= <- <-]|]. destruct (negb _); [by intros [= <- <-]|].
  intros E. etrans; [exact Hg|]. by apply (IH _ _ _ _ E).
Qed.

Lemma WriteBinaryReader_grows w size r net err w' net' :
  WriteBinaryReader w size r net = Ret (err, w', net') → grows net net'.
Proof.
  unfold WriteBinaryReader. pose proof (Writer_Flush_grows (set_B w (appendBinaryHeader (B w) size)) net) as Hg.
  destruct (Writer_Flush _ net) as [[[e|] w2] n2]; [by intros [= <- <- <-]|].
  destruct (w_w w2) as [id|]; [|by intros [= <- <- <-]].
  destruct (Buffer_Grow (B w2) 4096) as [[e|] s]; [by intros [= <- <- <-]|]. unfold CopyBuffer.
  destruct (_ =? 0); [done|]. destruct (copy_loop _ _ id r n2) as [[e3 n3]|] eqn:Ec; go_simpl; [|done].
  apply copy_loop_grows in Ec. intros E. etrans; [exact Hg|]. by destruct e3; injection E as <- <- <-.
Qed.

(** An AuthClient that succeeds, and that sends at most. *)
Definition quiet (opt : ClientOptions W) : Prop :=
  auth_never_fails opt ∧ ∀ net, grows net (o_Auth opt net).2.

Lemma Connect_on_grows c id net err c' net' :
  quiet (c_opt c) → Connect_on c id net = Ret (err, c', net') → grows net net'.
Proof.
  intros [_ Hq]. unfold Connect_on. cbn [c_opt set_conn]. pose proof (Hq net) as H1.
  destruct (o_Auth (c_opt c) net) as [[cred [e|]] n1]; [by intros [= <- <- <-]|]. cbn [snd] in H1.
  pose proof (rand_Read_grows 24 n1) as H2.
  destruct (rand_Read 24 n1) as [[salt [e|]] n2]; cbn [snd] in H2; [intros [= <- <- <-]; by etrans|].
  assert (grows net n2) as H3 by by etrans.
  destruct (Client_readHelo _) as [[[nonce auth] [e|]] c1]; [by intros [= <- <- <-]|].
  unfold Client_writePing. destruct (appendPing _ _ _ _ _ _) as [b|]; go_simpl; [|done].
  pose proof (Writer_Flush_grows (set_B (c_w c1) b) n2) as H4.
  destruct (Writer_Flush (set_B (c_w c1) b) n2) as [[e1 w] n3]. go_simpl.
  destruct e1 as [e1|]; [intros [= <- <- <-]; by etrans|].
  destruct (Client_readPong _ _ _ _) as [e2 c2]. intros [= <- <- <-]. by etrans.
Qed.

Lemma Connect_grows c net err c' net' :
  quiet (c_opt c) → Connect c net = Ret (err, c', net') → grows net net'.
Proof.
  intros Hq. unfold Connect. pose proof (Dial_grows (c_addr c) net) as H1.
  destruct (Dial (c_addr c) net) as [[e|[tcp [|]]] n1]; cbn [negb snd] in *;
    [by intros [= <- <- <-]| |by intros [= <- <- <-]].
  pose proof (tls_Client_grows tcp n1) as H2. destruct (o_TLS (c_opt c)).
  - destruct (tls_Client tcp n1) as [id n2]. intros E. etrans; [exact H1|]. etrans; [exact H2|].
    by apply (Connect_on_grows _ _ _ _ _ _ Hq E).
  - intros E. etrans; [exact H1|]. by apply (Connect_on_grows _ _ _ _ _ _ Hq E).
Qed.

Lemma ensureConnection_grows c net err c' net' :
  quiet (c_opt c) → ensureConnection c net = Ret (err, c', net') → grows net net'.
Proof.
  intros Hq. unfold ensureConnection. destruct (c_conn c); [by intros [= <- <- <-]|]. by apply Connect_grows.
Qed.

(** ** The operations *)

Lemma Client_Write_sent c b net n err c' net' :
  quiet (c_opt c) → Client_Write c b net = Ret (n, err, c', net') →
  grows net net' ∧ (err = None → on_wire net' b).
Proof.
  intros Hq. unfold Client_Write.
  destruct (ensureConnection c net) as [[[e1 c1] n1]|] eqn:Ee; go_simpl; [|done].
  pose proof (ensureConnection_grows _ _ _ _ _ Hq Ee) as H1.
  destruct e1; [by intros [= <- <- <- <-]|]. destruct (c_conn c1) as [id|]; [|done].
  pose proof (conn_Write_grows id b n1) as H2. pose proof (conn_Write_out id b n1) as Ho.
  destruct (conn_Write id b n1) as [[k e2] n2]. destruct Ho as (_ & He & Ho). intros [= <- <- <- <-].
  split; [by etrans|]. intros ->. apply (sends_on_wire id [] b n1). unfold sends.
  rewrite Ho, (He eq_refl), take_ge; [done|]. unfold lenZ. lia.
Qed.

Lemma WriteBatch_connected c tag size r net c1 n1 :
  ensureConnection c net = Ret (None, c1, n1) → (∃ id, c_conn c1 = Some id) →
  WriteBatch c tag size r net = WriteBatch c1 tag size r n1.
Proof.
  intros E [id Hid]. unfold WriteBatch. rewrite E. unfold ensureConnection at 1. by rewrite Hid.
Qed.

Lemma WriteBatch_sent c tag r net err c' net' :
  quiet (c_opt c) → aligned c → WriteBatch c tag (lenZ r) r net = Ret (err, c', net') →
  grows net net' ∧ (err = None → on_wire net' (batch_message tag r)).
Proof.
  intros Hq Hal E. destruct (ensureConnection_conn c net) as (e1 & c1 & n1 & Ee & Hc1).
  pose proof (ensureConnection_grows _ _ _ _ _ Hq Ee) as H1.
  destruct (ensureConnection_aligned c net e1 c1 n1 (proj1 Hq) Hal Ee) as [Hal1 _].
  split.
  - revert E. unfold WriteBatch. rewrite Ee. go_simpl. destruct e1; [by intros [= <- <- <-]|].
    destruct (WriteBinaryReader _ (lenZ r) r n1) as [[[e2 w2] n2]|] eqn:Eb; go_simpl; [|done].
    apply WriteBinaryReader_grows in Eb. destruct e2; [intros [= <- <- <-]; by etrans|].
    match goal with |- context [Writer_Flush ?w n2] => pose proof (Writer_Flush_grows w n2) as H3;
      destruct (Writer_Flush w n2) as [[e3 w3] n3] end.
    intros [= <- <- <-]. etrans; [exact H1|]. by etrans.
  - intros ->. destruct e1 as [e1|]; [unfold WriteBatch in E; rewrite Ee in E; done|].
    destruct (Hc1 eq_refl) as [id Hid]. rewrite (WriteBatch_connected _ _ _ _ _ _ _ Ee) in E by by exists id.
    assert (w_w (c_w c1) = Some id) as Hw by (unfold aligned in Hal1; by rewrite Hid in Hal1).
    destruct (WriteBatch_on c1 id tag r n1 Hid Hw) as (e2 & c2 & n2 & E2 & Hs). rewrite E2 in E.
    injection E as -> -> ->. destruct Hs as [_ Hs]. by apply (sends_on_wire id (B (c_w c1)) _ n1).
Qed.

Lemma Reconnect_grows c net err c' net' :
  quiet (c_opt c) → Reconnect c net = Ret (err, c', net') → grows net net'.
Proof.
  intros Hq. unfold Reconnect, Client_Close. destruct (c_conn c) as [id|].
  - pose proof (conn_Close_grows id net) as H1. destruct (conn_Close id net) as [[e|] n1]; [by intros [= <- <- <-]|].
    intros E. etrans; [exact H1|]. by apply (ensureConnection_grows (set_conn c None) n1 err c').
  - by apply ensureConnection_grows.
Qed.

End Client.

(** ** The worker over this client *)

Section Worker.
  Context {R W : Type} `{!RingOps R, !NetOps W, !ConnReader R W, !NetLaws W, !NetHistory W}.
  Context (gz : list Z → list Z) (gz_nonempty : ∀ p, gz p ≠ []) (opt : Options).
  Implicit Types (c : recorded (Client R W * W)).

(** The network of a recorded client. *)
Definition net_of c : W := c.1.2.

(** What the client has acknowledged is on the wire. *)
Record honest c : Prop := mkHonest {
  h_quiet : quiet (c_opt c.1.1);
  h_aligned : aligned c.1.1;
  h_direct : Forall (on_wire (net_of c)) (direct c);
  h_batches : Forall (λ r, on_wire (net_of c) (batch_message (Tag opt) r)) (batches c)
}.

(** An operation that keeps the client in order and adds to the wire. *)
Lemma honest_step c (cl : Client R W) (net : W) l :
  honest c → client_step c.1 (cl, net) → grows (net_of c) net →
  Forall (on_wire net) l.1 → Forall (λ r, on_wire net (batch_message (Tag opt) r)) l.2 →
  honest ((cl, net), (direct c ++ l.1, batches c ++ l.2)).
Proof.
  intros [Hq Hal Hd Hb] Hs Hg Hl1 Hl2.
  destruct (client_step_aligned _ _ Hs (proj1 Hq) Hal) as [Hal' Ho]. cbn [fst] in *.
  constructor; cbn [fst snd net_of].
  - by rewrite Ho.
  - done.
  - apply Forall_app. split; [|done]. eapply Forall_impl; [exact Hd|]. intros b. by apply on_wire_grows.
  - apply Forall_app. split; [|done]. eapply Forall_impl; [exact Hb|]. intros b. by apply on_wire_grows.
Qed.

Lemma honest_Write p c : honest c → honest (cli_Write p c).2.
Proof.
  intros H. destruct c as [[cl net] l]. pose proof (h_quiet _ H) as Hq. cbn in Hq.
  cbn [cli_Write recorded_ops client_ops fst snd].
  destruct (Client_Write_returns cl p net) as [[[[n err] cl'] net'] E]. rewrite E. cbn [or_state mbind go_bind].
  destruct (Client_Write_sent cl p net n err cl' net' Hq E) as [Hg Hs].
  pose proof (step_Write cl net p n err cl' net' E) as Hst.
  destruct err as [e|]; cbn [snd].
  - destruct (honest_step _ cl' net' ([], []) H Hst Hg) as [H1 H2 H3 H4]; [done..|].
    cbn in H3, H4. rewrite !app_nil_r in H3, H4. by constructor.
  - destruct (honest_step _ cl' net' ([p], []) H Hst Hg) as [H1 H2 H3 H4];
      [constructor; [by apply Hs|done]|done|]. cbn in H3, H4. rewrite app_nil_r in H4. by constructor.
Qed.

Lemma honest_WriteBatch f r c :
  cli_WriteBatch = Some f → honest c → honest (f (Tag opt) (lenZ r) r c).2.
Proof.
  cbn. intros [= <-] H. destruct c as [[cl net] l]. pose proof (h_quiet _ H) as Hq. pose proof (h_aligned _ H) as Hal.
  cbn in Hq, Hal. cbn [fst snd].
  destruct (WriteBatch_returns cl (Tag opt) (lenZ r) r net) as [[[err cl'] net'] E]. rewrite E.
  cbn [or_state mbind go_bind].
  destruct (WriteBatch_sent cl (Tag opt) r net err cl' net' Hq Hal E) as [Hg Hs].
  pose proof (step_WriteBatch cl net (Tag opt) (lenZ r) r err cl' net' E) as Hst.
  destruct err as [e|]; cbn [snd].
  - destruct (honest_step _ cl' net' ([], []) H Hst Hg) as [H1 H2 H3 H4]; [done..|].
    cbn in H3, H4. rewrite !app_nil_r in H3, H4. by constructor.
  - destruct (honest_step _ cl' net' ([], [r]) H Hst Hg) as [H1 H2 H3 H4];
      [done|constructor; [by apply Hs|done]|]. cbn in H3, H4. rewrite app_nil_r in H3. by constructor.
Qed.

Lemma honest_Reconnect f c : cli_Reconnect = Some f → honest c → honest (f c).2.
Proof.
  cbn. intros [= <-] H. destruct c as [[cl net] l]. pose proof (h_quiet _ H) as Hq. cbn in Hq. cbn [fst snd].
  destruct (Reconnect_returns cl net) as [[[err cl'] net'] E]. rewrite E. cbn [or_state mbind go_bind snd].
  pose proof (Reconnect_grows cl net err cl' net' Hq E) as Hg.
  destruct (honest_step _ cl' net' ([], []) H (step_Reconnect cl net err cl' net' E) Hg) as [H1 H2 H3 H4]; [done..|].
  cbn in H3, H4. rewrite !app_nil_r in H3, H4. by constructor.
Qed.

(** C2: With the fallback and an AuthClient that does not fail, every entry that the
    worker took has been written to a connection, as it is or in a batch, or is on disk
    in the buffer: in every reachable state of an instance whose client is the forward
    client, whatever the network does, and however writes, batches and handshakes fail.
    The client carries a record of what it acknowledged, empty at the start.  Written is
    not received: see [Write_after_refusal]. *)
Theorem taken_is_sent (i : Inst (recorded (Client R W * W))) (cl : Client R W) (net : W) s :
  0 < BufferSize opt → Behavior opt = Fallback →
  quiet (c_opt cl) → aligned cl →
  cli i = ((cl, net), ([], [])) → dir_stores gz (fallback i) [] [] →
  reachable gz opt i s →
  let net' := net_of (cli (inst s)) in
  ∃ direct batched contents rs ws,
    processed s ≡ₚ direct ++ concat batched ++ rs ++ ws ∧
    Forall (on_wire net') direct ∧
    Forall2 (λ bs content, members gz (flat_map (chunks opt) bs) content ∧
      on_wire net' (batch_message (Tag opt) content)) batched contents ∧
    dir_stores gz (fallback (inst s))
      (flat_map (chunks opt) rs) (flat_map (chunks opt) ws).
Proof.
  intros Hcap HF Hq Hal Hcli Hd Hr net'.
  assert (honest (cli (inst s))) as H.
  { apply (reachable_client gz opt honest honest_Write honest_WriteBatch honest_Reconnect i s Hcap); [|done].
    rewrite Hcli. by constructor. }
  destruct (accounted_reachable gz opt i s [] gz_nonempty Hcap HF) as (given & rs & ws & Hg & Hdir & Hp).
  { exists [], [], []. rewrite Hcli. by split_and!. }
  { done. }
  exists (direct (cli (inst s))), given,
    (batches (cli (inst s))), rs, ws.
  split; [exact Hp|]. split; [exact (h_direct _ H)|]. split; [|done].
  pose proof (h_batches _ H) as Hb. revert Hg Hb. generalize (batches (cli (inst s))).
  clear. intros bs Hg. remember (flat_map (chunks opt) <$> given) as gs eqn:E. revert given E.
  induction Hg as [|g b gs bs Hm _ IH]; intros [|x given] E Hb; try done.
  injection E as -> ->. apply Forall_cons in Hb as [Hb Hbs]. constructor; [done|by apply IH].
Qed.

End Worker.

(** ** Witness: the first handshake fails, the entry goes to the disk and then out *)

#[export] Program Instance test_net_history : NetHistory test_net := {}.
Next Obligation.
  intros addr w id. cbn. rewrite n_history_sent. case_bool_decide as Hj; [|done]. subst id. unfold n_history.
  rewrite Nat.ltb_irrefl. done.
Qed.
Next Obligation.
  intros i w id. cbn. rewrite n_history_sent. case_bool_decide as Hj; [|done]. subst id. unfold n_history.
  rewrite Nat.ltb_irrefl. done.
Qed.
Next Obligation.
  intros i b w id. cbn. rewrite n_history_sent. case_bool_decide as Hj; [|done]. subst id. apply prefix_app_r. done.
Qed.
Next Obligation. done. Qed.
Next Obligation.
  intros i b w id. cbn. rewrite n_history_sent. case_bool_decide as Hj; [|done]. subst id. apply prefix_app_r. done.
Qed.

Definition inst0 : Inst (recorded (Client list_ring test_net * test_net)) :=
  mkInst false ((NewClient (str "srv") opt_ok ring0, net0 []), ([], [])) (mkDirState (NewDirBuffer "d") ∅).

Definition events0 : list event := [EStart; ELog e1; EQueue 0; EReceive; EIdle; ETick].

Definition state0 : State (recorded (Client list_ring test_net * test_net)) :=
  default (initial inst0) (run_events gz0 opt1 events0 (initial inst0)).

Lemma reachable0 : reachable gz0 opt1 inst0 state0.
Proof.
  apply (run_events_reachable gz0 opt1 events0). unfold state0.
  assert (match run_events gz0 opt1 events0 (initial inst0) with Some _ => true | None => false end = true) as H
    by by vm_compute.
  by destruct (run_events gz0 opt1 events0 (initial inst0)).
Qed.

Lemma taken_is_sent_witness :
  let net' := net_of (cli (inst state0)) in
  ∃ direct batched contents rs ws,
    processed state0 ≡ₚ direct ++ concat batched ++ rs ++ ws ∧ Forall (on_wire net') direct ∧
    Forall2 (λ bs content, members gz0 (flat_map (chunks opt1) bs) content ∧
      on_wire net' (batch_message (Tag opt1) content)) batched contents ∧
    dir_stores gz0 (fallback (inst state0)) (flat_map (chunks opt1) rs) (flat_map (chunks opt1) ws).
Proof.
  refine (taken_is_sent gz0 gz0_nonempty opt1 inst0 (NewClient (str "srv") opt_ok ring0) (net0 []) state0
    _ _ _ Logic.I eq_refl _ reachable0).
  - by vm_compute.
  - by vm_compute.
  - split; [by intros w|by intros w id].
  - apply NewDirBuffer_stores; apply members_nil.
Defined.

(** There the entry has left in a batch, on the connection whose handshake failed. *)
Example state0_sent :
  (processed state0, (cli (inst state0)).2.1, length (cli (inst state0)).2.2) = ([e1], [], 1%nat).
Proof. by vm_compute. Qed.
