(* ===== verification/EndToEnd.v ===== *)
(** * EndToEnd: from the client's operations to the server's handler

    The client of Client and the server of Server joined by what each sends on the
    connection: [client_to_server] shows that whatever the worker of an instance
    sends, entries or compressed batches, the server's handler receives. *)

From stdpp Require Import sets.
From S2P Require Import Prelude Types Errors Integer Headers Str Object Strconv RingBuf Iter Sha512.
From S2P Require Import Transport Handshake Server Writer Client.
From S2P Require Gzip.

Section EndToEnd.
  Context {R L I K W : Type} `{!RingOps R, !RingOps I, !NestedOps R L I, !ConnOps K}.
  Context `{!RingLaws R, !NestedLaws R L I, !ConnLaws K}.
  Context `{!NetOps W, !NetLaws W, !ConnReader R W, !ConnReaderLaws R W}.
  Context (Error : error → list Z) (Error_short : ∀ e, sendable_str (Error e)).

(** Connect, then a sequence of operations. *)
Definition connect_and_run (c : Client R W) (ops : list client_op) (net : W) :
    go (option error * Client R W * W) :=
  '(err, c, net) ← Connect c net;
  match err with
  | Some _ => Ret (err, c, net)
  | None => run_ops ops c net
  end.

(** The way to a live connection: dial, TLS, the credentials, the salt. *)
Record dials (c : Client R W) (net : W) (id : nat) (net1 : W) (cred : Credentials) (salt : list Z) (net2 : W) :
    Prop := {
  dl_tcp : ∃ tcp n, Dial (c_addr c) net = (inr (tcp, true), n) ∧
    ∃ n', (if o_TLS (c_opt c) then tls_Client tcp n else (tcp, n)) = (id, n') ∧
      o_Auth (c_opt c) n' = (cred, None, net1) ∧ out net1 id = out n' id;
  dl_salt : rand_Read 24 net1 = (salt, None, net2)
}.

Lemma Connect_dials c net id net1 cred salt net2 :
  dials c net id net1 cred salt net2 →
  ∃ n', Connect c net = Connect_on c id n' ∧ o_Auth (c_opt c) n' = (cred, None, net1) ∧ out net2 id = [].
Proof.
  intros [(tcp & n & Ed & n' & Et & EA & Ho) Er]. exists n'. unfold Connect. rewrite Ed. cbn [negb]. rewrite Et.
  split_and!; [done|done|]. pose proof (rand_Read_out 24 net1 id) as H. rewrite Er in H. cbn in H.
  rewrite H, Ho. destruct (o_TLS (c_opt c)).
  - pose proof (tls_Client_out tcp n) as H2. by rewrite Et in H2.
  - injection Et as <- <-. by apply (Dial_out (c_addr c) net tcp true).
Qed.

(** C3: What the client sends, the server's handler receives.  A client connects to a
    server that knows its credentials, then writes entries and compressed batches: if no
    operation fails, the server authenticates it from the bytes that it sent, records
    its user, and hands out exactly the entries of all operations, in order.  Whatever
    fails, what was sent is a prefix of the PING and the messages. *)
Theorem client_to_server (c : Client R W) net id net1 cred salt net2 opt r cred' pong end_ ops evs z :
  dials c net id net1 cred salt net2 →
  lenZ r = 48 → sendable_str (s_Hostname opt) → sendable_str (o_Hostname (c_opt c)) →
  sendable_str (Username cred) →
  let nonce := take 24 r in
  let auth := auth_of opt r in
  s_Auth opt (if bool_decide (auth ≠ []) then Username cred else []) = (cred', None) →
  SharedKey cred' = SharedKey cred → (auth ≠ [] → Password cred' = Password cred) →
  appendPong (s_Hostname opt) [] salt nonce (SharedKey cred) true [] = Ret pong →
  incoming net1 id = appendHelo [] nonce auth ++ pong ++ end_ →
  ops_send gunzips ops evs z →
  ∃ ping err c' net', appendPing (o_Hostname (c_opt c)) cred [] salt nonce auth = Ret ping ∧
    connect_and_run c ops net = Ret (err, c', net') ∧
    out net' id `prefix_of` ping ++ concat (map op_bytes ops) ∧
    (err = None → ∀ (ss : ServerSession R K) fuel,
      conn_open (ss_conn ss) → ss_write ss = [] → delivers (it_r (ss_iter ss)) (out net' id) →
      (length (out net' id) + z + 2 < fuel)%nat →
      ∃ ss', authenticate Error opt (r, None) ss = Ret (None, ss') ∧
        sent (ss_conn ss') = sent (ss_conn ss) ++ appendHelo [] nonce auth ++ pong ∧
        ss_user ss' = Username cred' ∧
        hands_out ss_ack fuel (initTransportPhase (I := I) ss') evs []).
Proof.
  intros Hdl Hr Hhost Hchost Huser nonce auth EA Ekey Epass Epong Hin Hops.
  assert (sendable_str salt) as Hsalt.
  { pose proof (rand_Read_length 24 net1 salt net2 ltac:(lia) (dl_salt _ _ _ _ _ _ _ Hdl)) as Hl.
    unfold sendable_str. rewrite Hl. lia. }
  destruct (random_short opt r Hr) as (Hn0 & Hn & Ha).
  destruct (Connect_dials c net id net1 cred salt net2 Hdl) as (n' & EC & EAuth & Hout).
  destruct (appendHelo_encodes [] nonce auth Hn Ha) as (hb & Eh & Hhelo). rewrite app_nil_l in Eh.
  rewrite <- Eh in Hhelo.
  destruct (appendPong_encodes (s_Hostname opt) [] salt nonce (SharedKey cred) true [] Hhost ltac:(done))
    as (pb & Epb & Hpong). rewrite Epong in Epb. injection Epb as <-.
  destruct (Connect_on_accepted c id n' cred net1 salt net2 nonce auth _ pong end_ (s_Hostname opt) EAuth
    (dl_salt _ _ _ _ _ _ _ Hdl) Hin Hhelo Hn0 Hpong) as (ping & err & c1 & n1 & Ep & Ec & H1).
  exists ping. unfold connect_and_run. rewrite EC, Ec. go_simpl.
  destruct err as [e|].
  { do 3 eexists. split_and!; [done|done| |done]. destruct H1 as (p & Hp & H1). unfold sends in H1.
    rewrite H1, Hout. by apply prefix_app_r. }
  destruct H1 as (Hl & _ & _ & H1). destruct (run_ops_live ops c1 id n1 Hl) as (err & c2 & n2 & E2 & H2).
  unfold sends in H1. rewrite Hout in H1. exists err, c2, n2. split; [done|]. split; [done|].
  destruct err as [e|].
  { split; [|done]. destruct H2 as (p & Hp & H2). unfold sends in H2. rewrite H2, H1. by apply prefix_app. }
  destruct H2 as [_ H2]. unfold sends in H2. rewrite H1 in H2. cbn [app] in H2.
  split; [by rewrite H2|]. intros _ ss fuel Hk Hw Hd Hf. rewrite H2 in Hd, Hf.
  destruct (appendPing_encodes (o_Hostname (c_opt c)) cred [] salt nonce auth Hchost Hsalt Huser)
    as (pb & Epb & Hping). rewrite Ep in Epb. injection Epb as ->. cbn [app] in *.
  destruct (authenticate_at Error Error_short opt r ss (o_Hostname (c_opt c)) salt _ _ _ pb _ Hr Hhost Hk Hw
    Hping Hd) as (ss' & pong' & Ea & Hk' & Hs & _ & Epg & _ & Hu & Hw' & Hd').
  fold nonce auth in Ea, Hs, Epg, Hu. set (v := ping_verdict _ _ _ _ _ _ _ _) in *.
  assert (v = None) as Hv by by apply (verdict_accepts _ cred cred').
  rewrite Hv in *. rewrite EA in Hu, Epg. cbn [fst] in Hu, Epg. rewrite Ekey in Epg.
  pose proof (Epg eq_refl) as Epg'. rewrite Epong in Epg'. injection Epg' as <-.
  exists ss'. split_and!; [done|done|done|].
  rewrite length_app in Hf.
  by destruct (session_ready fuel ss' evs [] _ z Hk' Hw' Hd' (ops_send_stream gunzips ops evs z Hops) ltac:(lia)).
Qed.

End EndToEnd.

(** ** Witness: one entry, then a batch of one *)

Definition content0 : list Z := Gzip.member1 (encode (pair_obj x0)).
Definition client0 : Client list_ring test_net := NewClient (str "srv") opt_ok ring0.

Lemma ops0_send : ops_send gunzips [op_Write message0; op_Batch tag0 content0] [event0; event0]
  (0 + (length (concat [encode (pair_obj x0)]) + 0)).
Proof.
  change [event0; event0] with ([event0] ++ [event0] ++ []).
  apply ops_send_cons; [apply op_sends_Write|]; [|apply ops_send_cons; [|apply ops_send_nil]];
    [|apply (op_sends_Batch _ tag0 [x0] [encode (pair_obj x0)])].
  - apply (wire_message _ tag0 x0); [apply tag0_valid|solve_plain].
  - apply tag0_valid.
  - by vm_compute.
  - repeat constructor. apply pair0_encodes.
  - done.
  - apply packed0_unzips.
Qed.

Lemma client_to_server_witness :
  let helo := appendHelo [] (replicate 24 7) (replicate 24 7) in
  ∃ pong, appendPong (str "srv") [] salt0 (replicate 24 7) (str "key") true [] = Ret pong ∧
  ∃ ping err c' net', appendPing (str "cli") cred0 [] salt0 (replicate 24 7) (replicate 24 7) = Ret ping ∧
    connect_and_run client0 [op_Write message0; op_Batch tag0 content0] (net0 (helo ++ pong ++ [])) =
      Ret (err, c', net') ∧
    n_history net' 0 `prefix_of` ping ++ message0 ++ batch_message tag0 content0 ++ [] ∧
    (err = None → ∀ (ss : ServerSession list_ring (list Z)) fuel,
      True → ss_write ss = [] → pending (it_r (ss_iter ss)) = n_history net' 0 →
      (length (n_history net' 0) + (0 + (length (concat [encode (pair_obj x0)]) + 0)) + 2 < fuel)%nat →
      ∃ ss', authenticate error0 server0 (random0, None) ss = Ret (None, ss') ∧
        ss_conn ss' = ss_conn ss ++ helo ++ pong ∧ ss_user ss' = str "user" ∧
        hands_out ss_ack fuel (initTransportPhase (I := list_inner) ss') [event0; event0] []).
Proof.
  intros helo.
  destruct (appendPong_encodes (str "srv") [] salt0 (replicate 24 7) (str "key") true [] eq_refl eq_refl)
    as (pong & E & _). rewrite app_nil_l in E. exists pong. split; [exact E|].
  refine (client_to_server error0 (λ _, eq_refl) client0 (net0 (helo ++ pong ++ [])) 0
    (n_new (net0 (helo ++ pong ++ []))).2 cred0 salt0 (n_new (net0 (helo ++ pong ++ []))).2 server0 random0 cred0
    pong [] [op_Write message0; op_Batch tag0 content0] [event0; event0] _ _
    eq_refl eq_refl eq_refl eq_refl eq_refl eq_refl (λ _, eq_refl) E eq_refl ops0_send).
  constructor; [|reflexivity]. exists 0%nat, (n_new (net0 (helo ++ pong ++ []))).2. split; [reflexivity|].
  by exists (n_new (net0 (helo ++ pong ++ []))).2.
Defined.
