(* ===== verification/Delivery.v ===== *)
(** * Delivery: from a log call to a printed line

    The two ends of the program meet here: what the logger writes (Log) is read by
    the transport phase and printed by the formatter (Transport, Ascii), field by
    field. *)

From S2P Require Import Prelude Types Errors Integer Headers Str Timestamp Object Strconv RingBuf Iter.
From S2P Require Import Dynamic Log Transport Ascii.

Section Delivery.
  Context {R L I W : Type} `{!RingOps R, !RingOps I, !NestedOps R L I, !ResetOps R}.
  Context `{!RingLaws R, !ResetLaws R, !NestedLaws R L I}.
  Context (format_time : Time → list Z) (w_Write : list Z → W → option error * W).
  Context (w_ok : ∀ b w, (w_Write b w).1 = None).
  Context (json_Append : list Z → any → list Z * option error) (Sprintf : list Z → list any → list Z).

(** A call of a method of a logger, with the format's argument count, the fields of
    the logger and those of the arguments. *)
Record Call := mkCall {
  c_logger : Logger;
  c_id : ID;
  c_sev : Z;
  c_msg : list Z;
  c_args : list any;
  c_sprintf : bool;
  c_frames : list (list Z * Z);
  c_n : Z;
  c_efs : list (list Z * obj);
  c_afs : list (list Z * obj)
}.

Definition call_fields (opt : Options) (c : Call) : list (list Z * obj) :=
  log_fields Sprintf opt (c_id c) (c_sev c) (c_msg c) (c_args c) (c_frames c) (c_n c) (c_efs c) (c_afs c).

Definition call_entry (opt : Options) (c : Call) : go (list Z) :=
  Logger_log json_Append Sprintf opt (c_logger c) (c_id c) (c_sev c) (c_msg c) (c_args c) (c_sprintf c) (c_frames c).

(** The event that a call stands for. *)
Definition call_event (opt : Options) (c : Call) : event :=
  event_of (Tag opt) (id_time (c_id c), TsFluentd, call_fields opt c).

Definition sendable (opt : Options) (c : Call) : Prop :=
  loggable json_Append Sprintf opt (c_logger c) (c_id c) (c_sev c) (c_msg c) (c_args c) (c_sprintf c)
    (c_frames c) (c_n c) (c_efs c) (c_afs c) ∧ lenZ (call_fields opt c) < 256.

(** The entry of a call is a message of one event. *)
Lemma call_wire opt c :
  valid_tag (Tag opt) → sendable opt c →
  ∃ b, call_entry opt c = Ret b ∧ wire gunzips [call_event opt c] [] b 0.
Proof.
  intros Ht [[Hn Ha [Hid Htime] Hsev Htag Hm [Hl Hefs] Hafs Hfr] Hfs].
  destruct (log_entry_count json_Append Sprintf opt _ _ _ _ _ _ _ _ _ _ Hn Ha Hid Hsev Hm Hl Hefs Hafs Hfr)
    as (F & HF & E).
  eexists. split; [exact E|].
  apply (wire_message _ (Tag opt) (id_time (c_id c), TsFluentd, call_fields opt c)); [done|].
  by apply count_at_encodes.
Qed.

Lemma calls_stream opt cs :
  valid_tag (Tag opt) → Forall (sendable opt) cs →
  ∃ bss, Forall2 (λ c b, call_entry opt c = Ret b) cs bss ∧
    stream gunzips (map (call_event opt) cs) [] (concat bss) 0.
Proof.
  intros Ht. induction 1 as [|c cs Hc _ (bss & H2 & Hst)]; [by exists []; split; constructor|].
  destruct (call_wire opt c Ht Hc) as (b & Eb & Hw). exists (b :: bss). split; [by constructor|].
  by apply (stream_cons _ [call_event opt c] [] b 0).
Qed.

(** C10: What log calls write, the formatter prints, one line per call: the entries
    that a sequence of calls writes, read by the transport phase, give the time,
    the tag and every field of each call in order.  The calls are those whose
    entries can be sent: fewer than 256 fields, whose keys and values have an
    encoding, and a tag of 1 to 64 bytes.  The fuel is the number of bytes plus
    three. *)
Theorem calls_printed opt cs :
  valid_tag (Tag opt) → Forall (sendable opt) cs →
  ∃ bss, Forall2 (λ c b, call_entry opt c = Ret b) cs bss ∧
    ∀ fuel (a : AsciiFormatter R I W), mode (a_trans a) = MessageMode → (length (concat bss) + 2 < fuel)%nat →
    ∃ s, Write format_time w_Write fuel a (concat bss) =
      Ret (lenZ (concat bss), None,
        mkAsciiFormatter (printed format_time w_Write (a_w a) (map (call_event opt) cs)) s).
Proof.
  intros Ht Hcs. destruct (calls_stream opt cs Ht Hcs) as (bss & H2 & Hst). exists bss. split; [done|].
  intros fuel a Hm Hf.
  destruct (Write_lines format_time w_Write w_ok fuel a _ [] (concat bss) 0 Hm Hst ltac:(lia)) as (s & E & _).
  by exists s.
Qed.

End Delivery.

(** ** Witness *)

Definition call0 : Call :=
  mkCall newLogger id0 INFO (str "hi %d") [ANum TInt 5; AString (str "k"); ABool true] true [] 1 []
    [(str "k", OScalar (SBool true))].

Definition line0 : list Z := str "1735693323 app @id=42 pri=6 message=hi %d k=true" ++ [10].

Lemma calls_printed_witness : ∃ bss,
  Forall2 (λ c b, call_entry json0 sprintf0 opt0 c = Ret b) [call0; call0] bss ∧
  ∀ fuel (a : AsciiFormatter list_ring list_inner (list Z)),
    mode (a_trans a) = MessageMode → (length (concat bss) + 2 < fuel)%nat →
  ∃ s, Write format0 w_Write0 fuel a (concat bss) = Ret (lenZ (concat bss), None,
    mkAsciiFormatter ((a_w a ++ line0) ++ line0) s).
Proof.
  refine (calls_printed format0 w_Write0 (λ _ _, eq_refl) json0 sprintf0 opt0 [call0; call0] _ _).
  - by split; vm_compute.
  - repeat constructor; apply loggable0 || by vm_compute.
Defined.
