(* ===== verification/Outage.v ===== *)
(** * Outage: entries that wait on disk reach the server

    The fallback, the client and the transport phase together: the entries of log
    calls that were made while the client could not write are on disk in pieces,
    without their tags, in gzip members; the batch that the worker later sends is a
    compressed message, from which the server's transport phase hands out exactly
    their events. *)

From stdpp Require Import gmap sets.
From S2P Require Import Prelude Types Errors Integer Headers Str Timestamp Object Strconv RingBuf Iter.
From S2P Require Import Dynamic Log Fallback Instance.
From S2P Require Import Transport Handshake Server Writer Client Ascii Delivery.
From S2P Require Gzip.

Section Outage.
  Context {R L I K W : Type} `{!RingOps R, !RingOps I, !NestedOps R L I, !ConnOps K}.
  Context `{!RingLaws R, !NestedLaws R L I, !ConnLaws K}.
  Context `{!NetOps W, !ConnReader R W, !NetLaws W}.
  Context (json_Append : list Z → any → list Z * option error) (Sprintf : list Z → list any → list Z).
  (** the compressor writes gzip members, in any encoding that the decompressor reads *)
  Context (deflates : list Z → list Z → Prop) (gz : list Z → list Z).
  Context (gz_member : ∀ p, Gzip.member deflates (gz p) p).
  (** the server's gzip reader reads members, as [Gzip.Pool_Get_reads] has it *)
  Context (gunzips_members : ∀ content bs, Gzip.unzips deflates content bs → content ≠ [] → gunzips content bs).
  Context (opt : Options).
  Implicit Types (i : Inst (Client R W * W)).

(** The worker sends entries, one after the other. *)
Fixpoint send_all (bs : list (list Z)) i : go (Inst (Client R W * W)) :=
  match bs with
  | [] => Ret i
  | b :: bs => i ← sendToCli opt b i; send_all bs i
  end.

Lemma gz_nonempty p : gz p ≠ [].
Proof. apply (Gzip.member_nonempty deflates _ p), gz_member. Qed.

Lemma send_all_stores bs : ∀ i rs ws,
  has_fallback opt = true → fb i = true → Forall (is_entry opt) bs → dir_stores gz (fallback i) rs ws →
  ∃ d, send_all bs i = Ret (mkInst true (cli i) d) ∧ dir_stores gz d rs (ws ++ flat_map (chunks opt) bs).
Proof.
  induction bs as [|b bs IH]; intros i rs ws Hfall Hfb Hbs Hd.
  { exists (fallback i). rewrite app_nil_r. split; [|done]. destruct i; cbn in *; by subst. }
  apply Forall_cons in Hbs as [Hb Hbs]. cbn [send_all]. unfold sendToCli. rewrite Hfb.
  rewrite sendToFallbackCli_eq by done. go_simpl.
  pose proof (fallback_write_stores gz (strip opt b) _ rs _ (fallback_write_stores gz [0x92] i rs ws Hd)) as Hd2.
  destruct (IH (fallback_write (strip opt b) (fallback_write [0x92] i)) rs _ Hfall Hfb Hbs Hd2) as (d & -> & Hd3).
  exists d. split; [done|]. rewrite <- !app_assoc in Hd3. exact Hd3.
Qed.

(** The stored form of a call's entry. *)
Lemma call_stored c :
  sendable json_Append Sprintf opt c →
  ∃ b, call_entry json_Append Sprintf opt c = Ret b ∧ is_entry opt b ∧
    encodes (pair_obj (id_time (c_id c), TsFluentd, call_fields Sprintf opt c)) (concat (chunks opt b)).
Proof. intros [Hlg Hfs]. by apply log_entry_stored. Qed.

Lemma calls_stored cs :
  Forall (sendable json_Append Sprintf opt) cs →
  ∃ bs, Forall2 (λ c b, call_entry json_Append Sprintf opt c = Ret b) cs bs ∧ Forall (is_entry opt) bs ∧
    Forall2 encodes (map pair_obj (map (λ c, (id_time (c_id c), TsFluentd, call_fields Sprintf opt c)) cs))
      (map (λ b, concat (chunks opt b)) bs).
Proof.
  induction 1 as [|c cs Hc _ (bs & H1 & H2 & H3)]; [by exists []|].
  destruct (call_stored c Hc) as (b & E & He & Hb). exists (b :: bs). split_and!; by constructor.
Qed.

Lemma members_gunzip cs content : members gz cs content → Gzip.unzips deflates content (concat cs).
Proof.
  intros (ms & -> & ->). rewrite <- (map_map (@concat Z) gz).
  assert (concat (concat ms) = concat (map (@concat Z) ms)) as ->; [|by apply Gzip.unzips_members].
  induction ms as [|m ms IH]; [done|]. cbn [map concat]. by rewrite concat_app, IH.
Qed.

Lemma members_magic cs content : members gz cs content → cs ≠ [] → take 3 content = [0x1f; 0x8b; 8].
Proof.
  intros (ms & -> & ->) Hne. destruct ms as [|m ms]; [done|]. cbn [map concat].
  by apply (Gzip.member_magic deflates _ (concat m)).
Qed.

Lemma wire_stream evs bs z : wire gunzips evs [] bs z → stream gunzips evs [] bs z.
Proof.
  intros H. pose proof (stream_cons _ evs [] bs z [] [] [] 0 H (stream_nil _)) as Hs.
  by rewrite !app_nil_r, Nat.add_0_r in Hs.
Qed.

(** A session that receives the batch hands out the events of the calls. *)
Lemma batch_handed_out cs bs content (ss : ServerSession R K) fuel :
  valid_tag (Tag opt) → sendable_str content → bs ≠ [] →
  Forall2 encodes (map pair_obj (map (λ c, (id_time (c_id c), TsFluentd, call_fields Sprintf opt c)) cs))
    (map (λ b, concat (chunks opt b)) bs) →
  members gz (flat_map (chunks opt) bs) content →
  conn_open (ss_conn ss) → ss_write ss = [] →
  delivers (it_r (ss_iter ss)) (batch_message (Tag opt) content) →
  (length (batch_message (Tag opt) content) + length (concat (map (λ b, concat (chunks opt b)) bs)) + 2 < fuel)%nat →
  hands_out ss_ack fuel (initTransportPhase (I := I) ss) (map (call_event Sprintf opt) cs) [].
Proof.
  intros Ht Hc Hne H3 Hm Hk Hw Hdel Hf.
  assert (map (call_event Sprintf opt) cs = map (event_of (Tag opt))
    (map (λ c, (id_time (c_id c), TsFluentd, call_fields Sprintf opt c)) cs)) as -> by by rewrite map_map.
  refine (proj1 (session_ready fuel ss _ [] _ _ Hk Hw Hdel (wire_stream _ _ _ _) Hf)).
  apply (op_sends_wire _ (op_Batch (Tag opt) content)).
  assert (flat_map (chunks opt) bs ≠ []) as Hcs by by destruct bs.
  pose proof (members_magic _ _ Hm Hcs) as Hmagic.
  apply op_sends_Batch; [done|done|exact H3|exact Hmagic|].
  assert (concat (map (λ b, concat (chunks opt b)) bs) = concat (flat_map (chunks opt) bs)) as ->.
  { clear. induction bs as [|x xs IH]; [done|]. cbn [map concat flat_map]. by rewrite IH, concat_app. }
  apply gunzips_members; [exact (members_gunzip _ _ Hm)|]. by intros ->.
Qed.

(** What the worker's read of the buffer does with the client's [WriteBatch]. *)
Lemma batch_reads bs d c net :
  has_fallback opt = true → bs ≠ [] → dir_stores gz d [] (flat_map (chunks opt) bs) →
  ∃ content err c' net' d', members gz (flat_map (chunks opt) bs) content ∧
    WriteBatch c (Tag opt) (lenZ content) content net = Ret (err, c', net') ∧
    read_fallback gz opt (mkInst true (c, net) d) = Ret (err, mkInst true (c', net') d') ∧
    dir_stores gz d' (match err with Some _ => flat_map (chunks opt) bs | None => [] end) [].
Proof.
  intros Hfall Hne Hd. set (batch := λ (tag : list Z) size r (s : Client R W * W),
    or_state s ('(err, c, net) ← WriteBatch s.1 tag size r s.2; Ret (err, (c, net)))).
  destruct (Reader_stores gz gz_nonempty (λ size r s, batch (Tag opt) size r s) (c, net) d _ _ Hd)
    as [(d' & _ & Hnil & _)|(d' & content & Hm & Hrd)]; [by destruct bs|].
  destruct (WriteBatch_returns c (Tag opt) (lenZ content) content net) as ([[err c'] net'] & Ew).
  assert (batch (Tag opt) (lenZ content) content (c, net) = (err, (c', net'))) as Eb.
  { unfold batch. cbn [fst snd]. by rewrite Ew. }
  rewrite Eb in Hrd. destruct Hrd as [Erd [Hd' _]]. exists content, err, c', net', d'.
  split; [done|]. split; [done|]. split; [|done]. unfold read_fallback.
  change cli_WriteBatch with (Some batch). cbv iota beta. rewrite on_fallback_Ret by done. cbn [cli fallback]. by rewrite Erd.
Qed.

(** C4: Entries that were logged while the client could not write reach the server.
    The calls have fields and a tag that can be sent, and the instance has a fallback
    whose buffer is empty: the entries go to the disk, stripped of their tags.  When the
    worker flushes the buffer with a client whose connection is live, or that has none and
    then dials and shakes hands without an error, the client sends one message on that
    connection; a session of the server that receives it hands out exactly the events of
    the calls, in order, if the stored content is under 2^32 bytes.  If the message could
    be sent the flush succeeds and the buffer is empty; if sending it fails, a prefix of
    it has been sent and the buffer still holds every entry. *)
Theorem outage_batch cs i c net c1 net1 :
  valid_tag (Tag opt) → Forall (sendable json_Append Sprintf opt) cs → cs ≠ [] →
  has_fallback opt = true → fb i = true → dir_stores gz (fallback i) [] [] →
  cli i = (c, net) → auth_never_fails (c_opt c) → ready c → ensureConnection c net = Ret (None, c1, net1) →
  ∃ bs d content z id err c' net',
    Forall2 (λ c b, call_entry json_Append Sprintf opt c = Ret b) cs bs ∧
    send_all bs i = Ret (mkInst true (c, net) d) ∧
    WriteBatch c (Tag opt) (lenZ content) content net = Ret (err, c', net') ∧
    (sendable_str content → ∀ (ss : ServerSession R K) fuel,
      conn_open (ss_conn ss) → ss_write ss = [] →
      delivers (it_r (ss_iter ss)) (batch_message (Tag opt) content) →
      (length (batch_message (Tag opt) content) + z + 2 < fuel)%nat →
      hands_out ss_ack fuel (initTransportPhase (I := I) ss) (map (call_event Sprintf opt) cs) []) ∧
    match err with
    | None => sends id (batch_message (Tag opt) content) net1 net' ∧
        ∃ d', flushFallbackToCli gz opt (mkInst true (c, net) d) = Ret (None, mkInst false (c', net') d') ∧
          dir_stores gz d' [] []
    | Some e => (∃ p, p `prefix_of` batch_message (Tag opt) content ∧ sends id p net1 net') ∧
        ∃ d', read_fallback gz opt (mkInst true (c, net) d) = Ret (Some e, mkInst true (c', net') d') ∧
          dir_stores gz d' (flat_map (chunks opt) bs) []
    end.
Proof.
  intros Ht Hcs Hne Hfall Hfb Hd Hcli Ha Hr Ee. destruct (calls_stored cs Hcs) as (bs & H1 & H2 & H3).
  destruct (send_all_stores bs i [] [] Hfall Hfb H2 Hd) as (d & Es & Hd2). rewrite Hcli in Es. cbn [app] in Hd2.
  assert (bs ≠ []) as Hbs by (intros ->; by inversion H1; subst).
  destruct (batch_reads bs d c net Hfall Hbs Hd2) as (content & err & c' & net' & d' & Hm & Ew & Erd & Hd').
  destruct (WriteBatch_ready c (Tag opt) content net c1 net1 Ha Hr Ee) as (id & err2 & c2 & net2 & Ew2 & Hsent).
  rewrite Ew in Ew2. injection Ew2 as <- <- <-.
  exists bs, d, content, (length (concat (map (λ b, concat (chunks opt b)) bs))), id, err, c', net'.
  split; [done|]. split; [done|]. split; [done|]. split.
  - intros Hc ss fuel Hk Hw Hdel Hf. by apply (batch_handed_out cs bs content).
  - destruct err as [e|]; [split; [done|by exists d']|].
    destruct Hsent as [_ Hsent]. split; [exact Hsent|]. exists d'. split; [|exact Hd'].
    unfold flushFallbackToCli. cbn [fb negb]. by rewrite Erd.
Qed.

End Outage.

(** ** Witness: two calls, no connection, then a dial and a handshake *)

Definition helo1 : list Z := appendHelo [] (replicate 24 7) (replicate 24 7).
Definition pong1 : list Z :=
  match appendPong (str "srv") [] salt0 (replicate 24 7) (str "key") true [] with Ret b => b | Panic _ => [] end.
Definition net1 : test_net := net0 (helo1 ++ pong1).
Definition client1 : Client list_ring test_net := NewClient (str "srv") opt_ok ring0.
Definition connected1 : option error * Client list_ring test_net * test_net :=
  match ensureConnection client1 net1 with Ret r => r | Panic _ => (None, client1, net1) end.
Definition dir1 : DirState := mkDirState (NewDirBuffer "d") ∅.

Lemma connected1_eq : ensureConnection client1 net1 = Ret (None, connected1.1.2, connected1.2).
Proof. vm_compute. reflexivity. Qed.

Lemma outage_batch_witness :
  ∃ bs d content z id err c' net',
    Forall2 (λ c b, call_entry json0 sprintf0 opt0 c = Ret b) [call0; call0] bs ∧
    send_all opt0 bs (mkInst true (client1, net1) dir1) = Ret (mkInst true (client1, net1) d) ∧
    WriteBatch client1 (Tag opt0) (lenZ content) content net1 = Ret (err, c', net') ∧
    (sendable_str content → ∀ (ss : ServerSession list_ring (list Z)) fuel,
      True → ss_write ss = [] → RingBuf.pending (it_r (ss_iter ss)) = batch_message (Tag opt0) content →
      (length (batch_message (Tag opt0) content) + z + 2 < fuel)%nat →
      hands_out ss_ack fuel (initTransportPhase (I := list_inner) ss)
        (map (call_event sprintf0 opt0) [call0; call0]) []) ∧
    match err with
    | None => sends id (batch_message (Tag opt0) content) connected1.2 net' ∧
        ∃ d', flushFallbackToCli Gzip.member1 opt0 (mkInst true (client1, net1) d) =
            Ret (None, mkInst false (c', net') d') ∧
          dir_stores Gzip.member1 d' [] []
    | Some e => (∃ p, p `prefix_of` batch_message (Tag opt0) content ∧ sends id p connected1.2 net') ∧
        ∃ d', read_fallback Gzip.member1 opt0 (mkInst true (client1, net1) d) =
            Ret (Some e, mkInst true (c', net') d') ∧
          dir_stores Gzip.member1 d' (flat_map (chunks opt0) bs) []
    end.
Proof.
  refine (outage_batch json0 sprintf0 (λ c p, c = Gzip.stored p) Gzip.member1 Gzip.member1_member
    (λ content bs Hu Hne, conj Hu Hne) opt0 [call0; call0]
    (mkInst true (client1, net1) dir1) client1 net1 connected1.1.2 connected1.2 _ _ _ eq_refl eq_refl _ eq_refl _ I
    connected1_eq).
  - by split; vm_compute.
  - repeat constructor; apply loggable0 || by vm_compute.
  - done.
  - by apply NewDirBuffer_stores; apply members_nil.
  - done.
Defined.
